(* ===== verification/_CoqProject ===== *)
-Q . S2P
Prelude.v
GoStrings.v
Effects.v
Regexp.v
Os.v
Kube.v
Json.v
Api.v
Secrets.v
Protocol.v
Wire.v
Cgroup.v
Identity.v
Server.v
Socket.v
Types.v
Policy.v
Kernel.v
Loader.v
Reconcile.v
Shim.v
Metrics.v
Lifecycle.v
Agent.v
System.v
Delivery.v
