(* ===== verification/Prelude.v ===== *)
(** * KernelSeal: a verification library

    KernelSeal is a node agent that hands secrets to processes and asks the
    kernel to keep other processes from reading them back.  A process is
    started through a shim ([src/cmd/kernelseal-exec]), which asks the agent
    over a unix socket for the variables bound to the program it is about to
    execute.  The agent ([src/cmd/main.go]) finds out who is asking, looks up
    the bindings that admit that caller, marks the caller's PID as protected in
    a BPF map, and only then answers.  Two BPF-LSM programs ([src/bpf]) refuse
    access to environ, mem and maps and tracing of protected PIDs; an exec
    monitor reports exits, on which protection is taken away, and a periodic
    sweep takes it away from processes whose exit was missed.

    ** Files

    Shared ground:
    - [Prelude]: results of fallible calls, machine integers, tactics;
    - [GoStrings]: the functions of Go's strings, strconv, path/filepath, sort,
      fmt and encoding/binary that the program uses, on [string] (bytes);
    - [Effects]: effectful code as a tree of operations ([prog]) with its four
      readings: all traces ([runs]), execution over a state ([exec], with
      Hoare triples), interpretation into another component's code ([interp])
      and interleaving ([pool_step], [run_pool]);
    - [Regexp]: regular expressions with leftmost-first submatches, as far as
      the cgroup parser uses Go's regexp;
    - [Os]: the system calls that return data, and a file system to run against;
    - [Json]: the text of JSON as [encoding/json] writes and reads it: UTF-8
      and its repair, escapes, objects and arrays.

    Components, one file each, in the module named like the Go package:
    - [Secrets] ([internal/secrets/registry.go]): selectors, [admits],
      [Lookup];
    - [Protocol] ([internal/protocol]): the two messages; [Wire]: their text;
    - [Cgroup] ([internal/cgroup]): [Resolve], [ParsePod] and its expressions;
    - [Kube] ([internal/kube/pods.go]): the pod cache, list, watch loop and the
      decoding of JSON values into the structs; [Api]: the request with its
      headers, the rejection of an answer, and the list read from its text;
    - [Identity] ([internal/identity]): [Identify], written against the class
      [PodLookup], of which the watcher is an instance that keeps the law
      [PodCache];
    - [Server] ([internal/server]): [handle], which decides a request, and
      [handleConn]; the Resolver, Identifier and Protector interfaces are
      operations; [Socket]: [Listen] and [Close] on a file system with owners,
      modes and a umask;
    - [Types] ([internal/types], [internal/logging], [kernelseal_common.h]):
      event and policy layouts on both sides of the ring buffer, log levels;
    - [Policy] ([internal/policy.go]): configuration, modes, secret values,
      loading of the registry; the YAML and JSON parsers are arguments;
    - [Kernel] ([src/bpf]): the BPF programs on their maps;
    - [Loader] ([internal/bpf/loader.go]): the manager; [serve] implements its
      map operations on the maps of [Kernel], and the class [ProtectedSet] with
      its laws is what the manager promises to its clients;
    - [Reconcile] ([internal/reconcile]): the sweep, proved against
      [ProtectedSetLaws];
    - [Shim] ([cmd/kernelseal-exec]): the retry loop, the merged environment,
      the exec;
    - [Metrics] ([internal/metrics]): counters, gauges, exposition, endpoints,
      the server's start and stop;
    - [Lifecycle]: the goroutines of the agent (accept loop and connections,
      sweep loop, event loops, pod watch) with their wait groups and channels,
      and the shutdown of [main], as one step relation;
    - [Agent] ([cmd/main.go]): startup, event handlers, and the wiring of all
      of the above ([wired]) over a machine whose files, pod cache and maps
      move between any two operations;
    - [System]: a whole node, on which processes start and exit, requests,
      sweeps and exit events run in any number, one operation at a time;
    - [Delivery]: the shim and the agent together, over the text of a
      connection.

    ** How the code is modelled

    A Go function that only computes is a Coq function of the same name.  A
    function that calls the system or another component is a [prog] over the
    signature of its module, statement by statement, early returns included;
    errors are values.  Loops over slices are folds or structural recursion,
    one definition per loop body where that helps.  Integers are [Z] with the
    conversions of the code ([uint32], [uint64]) written out; bytes are
    [ascii].  Locks are not modelled: every critical section of the program is
    one operation, and interleavings are of operations.  Goroutines are threads of
    a step relation; a step is one operation of one of them.  Log lines are kept as
    values in [Server], where a claim is about them, and left out elsewhere.

    ** What is shown

    - The node ([System]): in every reachable state a living process that was
      answered with secrets is protected and the kernel refuses others access
      to it, as long as PIDs are not reused.
    - Delivery ([Delivery], [Wire]): the program a shim starts has every secret
      of the answer in its environment and is protected when it starts; a
      message is read as it was written, with bytes that are not UTF-8
      replaced.
    - End to end ([Agent]): an answer with secrets means that the kernel
      refuses the accesses the policy guards, from every other process but the
      agent, for as long as the mark stays; the exit of the process takes the
      mark away and no other; startup installs the policy, allows only the
      agent, and in required mode runs only with a synchronised pod cache; an
      agent that is not ready releases nothing.
    - The server: [handle] has exactly the observable behaviours of its
      decision table; protection precedes release; only admitted callers are
      served; secret values reach nothing but the answer; the callbacks tell
      the truth.
    - The socket ([Socket]): [Listen] yields the configured mode and group or
      nothing; who can connect at any moment can connect at the end.
    - Stopping ([Lifecycle]): the hooks are detached only after every request
      has ended; the wait group counts what it waits for; stopping terminates.
    - Authorization: [admits] and [Lookup] against their specifications; an
      unknown pod never widens a selector; modes fail closed; loading keeps
      every binding; required mode holds from configuration to lookup.
    - Identification: soundness and completeness of [Identify], the cgroup
      parser as an inverse of both drivers, confinement of the cgroup
      directory, convergence of the pod cache, by a list read from text as
      well; every request carries the current token.
    - The kernel side: exactly what each hook refuses; the delivery of events;
      the sweep as a filter.
    - The shim: it fails closed, terminates, and an answer is final.
    - Where the code does not do what it means to, or what a comment says, the
      behaviour it has is the theorem: [error_event_not_relisted],
      [expired_list_failure_not_retried], [rollback_unprotects_successor],
      [LoadLSM_ignores_attachment], [target_binary_matches],
      [unparsable_policy_widens], [broken_read_is_resent],
      [Close_unlinks_successor], [Listen_briefly_open],
      [Listen_ignores_negative_group], [binary_secret_replaced],
      [sweep_unprotects_successor].

    ** Fuel and bounds

    The shim's retry loop has fuel: [fetchSecrets_terminates] gives the number
    of attempts that is enough for any clock that does not run backwards.  The
    JSON parser has as fuel twice the length of its input and one, and
    [decode_print] shows that enough for every text the printer writes.  For
    the termination of the shutdown the goroutines have bounds that are proved
    of their code: 18 operations for a connection ([handleConn_within]), one
    and two per protected process for a sweep.  The watch loop is run on a list
    of turns, one per connection, of any length; the sweep loop on a number of
    ticks; the event loops on the list of reads.  Map capacities (4096 protected, 64 allowed, 8192 seen, 256
    binaries and cgroups) are those of the BPF programs.

    ** What is not modelled

    The bytes of YAML, the transport of HTTP and TLS, the text of the watch
    stream (its JSON values are the input), the nesting limit of the JSON
    decoder, [sync.Once] ([Close] and [Stop] are called once), usage texts, and
    log lines outside [Server].  The BPF verifier and the kernel around the
    programs: what the helpers return is an input.  Fractions in metric
    values.  Tests, manifests, images and scripts hold no program logic. *)

From stdpp Require Export base tactics list gmap strings pretty sorting.
From Stdlib Require Export ZArith Lia.

(** ** Results of fallible Go calls

    A Go function that returns [(T, error)] and whose value is meaningless
    when the error is set is a [result]; one whose value is meaningful even
    then (for example [identity.Resolver.Identify]) returns the pair of the
    value and an [option] of the error. *)

Inductive result (A E : Type) : Type :=
| Ok (a : A)
| Err (e : E).
Arguments Ok {A E} a.
Arguments Err {A E} e.

Definition is_ok {A E} (r : result A E) : bool :=
  match r with Ok _ => true | Err _ => false end.

Definition result_to_option {A E} (r : result A E) : option A :=
  match r with Ok a => Some a | Err _ => None end.

(** A Go [error] seen only through its text. *)
Abbreviation error := string (only parsing).

(** ** Machine integers

    Integers are [Z] with the wrap-around of the conversion written out. *)

Definition uint8 (z : Z) : Z := z `mod` 2 ^ 8.
Definition uint32 (z : Z) : Z := z `mod` 2 ^ 32.
Definition uint64 (z : Z) : Z := z `mod` 2 ^ 64.

Lemma uint32_range z : (0 ≤ uint32 z < 2 ^ 32)%Z.
Proof. unfold uint32. apply Z.mod_pos_bound. lia. Qed.

Lemma uint32_id z : (0 ≤ z < 2 ^ 32)%Z → uint32 z = z.
Proof. intros H. unfold uint32. apply Z.mod_small. lia. Qed.

(** ** Lists *)

(** A list is split at its only element with a property in one way. *)
Lemma split_unique {A} (P : A → Prop) l1 x l2 k1 y k2 :
  l1 ++ x :: l2 = k1 ++ y :: k2 → P x → Forall (λ z, ¬ P z) k1 → Forall (λ z, ¬ P z) k2 →
  l1 = k1 ∧ x = y ∧ l2 = k2.
Proof.
  intros Heq Hx Hk1 Hk2. revert l1 Heq. induction Hk1 as [|z k1 Hz _ IH]; intros [|u l1] Heq;
    simplify_eq/=; [done| |done|].
  - apply Forall_app in Hk2 as [_ [? _]%Forall_cons]. done.
  - by destruct (IH l1) as (-> & -> & ->).
Qed.

(** ** Automation *)

Create HintDb seal.

(** [split_match H] destructs the innermost [match] of the hypothesis [H]. *)
Ltac inner_match t :=
  match t with
  | context [ match ?x with _ => _ end ] => inner_match x
  | _ => t
  end.

Ltac split_match_in H :=
  match type of H with
  | context [ match ?x with _ => _ end ] =>
      let y := inner_match x in
      destruct y eqn:?; simplify_eq/=
  end.

Ltac split_match :=
  match goal with
  | |- context [ match ?x with _ => _ end ] =>
      let y := inner_match x in
      destruct y eqn:?; simplify_eq/=
  end.

(** Boolean connectives and comparisons as propositions. *)
Ltac breflect :=
  repeat match goal with
  | H : (_ && _)%bool = true |- _ => apply andb_true_iff in H as [? ?]
  | H : (_ || _)%bool = false |- _ => apply orb_false_iff in H as [? ?]
  | H : negb _ = true |- _ => apply negb_true_iff in H
  | H : negb _ = false |- _ => apply negb_false_iff in H
  | H : bool_decide _ = true |- _ => apply bool_decide_eq_true in H
  | H : bool_decide _ = false |- _ => apply bool_decide_eq_false in H
  end.
