(* ===== verification/GoStrings.v ===== *)
(** * The part of Go's standard library the program uses on text

    A Go string is a sequence of bytes, and so is [string] here (an [ascii] is
    a byte).  The modules carry the names of the Go packages: [strings],
    [strconv], [fmt], [sort] and [filepath].

    Space and case are Go's: [TrimSpace] and [Fields] know every rune of
    Unicode's White_Space by its UTF-8 encoding; [ToLower] is exact on ASCII
    and on the two non-ASCII runes whose lower case is ASCII (U+0130 and
    U+212A), and leaves every other multi-byte rune as it is.  All the
    comparisons the program makes after [ToLower] are with ASCII text, so no
    decision depends on the lower case of those runes. *)

From S2P Require Import Prelude.
From Stdlib Require Import Ascii.
Export Stdlib.Strings.Ascii (ascii(..)).
Export (notations) Stdlib.Strings.Ascii.

(** ** Basic facts on strings *)

Section string_facts.
Implicit Types s t u : string.

Lemma app_nil_l_str s : "" +:+ s = s.
Proof. reflexivity. Qed.

Lemma app_cons_str c s t : String c s +:+ t = String c (s +:+ t).
Proof. reflexivity. Qed.

Lemma app_nil_r_str s : s +:+ "" = s.
Proof. induction s; [done|]. rewrite app_cons_str. by f_equal. Qed.

Lemma app_assoc_str s t u : (s +:+ t) +:+ u = s +:+ (t +:+ u).
Proof. induction s; [done|]. rewrite !app_cons_str. by f_equal. Qed.

Lemma length_app_str s t :
  String.length (s +:+ t) = String.length s + String.length t.
Proof. induction s; [done|]. rewrite app_cons_str. simpl. lia. Qed.

Lemma app_inj_l_str s t u : s +:+ t = s +:+ u → t = u.
Proof. apply (inj (String.append s)). Qed.

Lemma length_zero_str s : String.length s = 0 → s = "".
Proof. by destruct s. Qed.

Lemma app_inj_len_str s t s' t' :
  String.length s = String.length s' → s +:+ t = s' +:+ t' → s = s' ∧ t = t'.
Proof.
  revert s'. induction s as [|c s IH]; intros [|c' s'] Hlen Heq; try done.
  rewrite !app_cons_str in Heq. injection Heq as -> Heq. injection Hlen as Hlen.
  destruct (IH s') as [-> ->]; auto.
Qed.

Lemma app_inj_r_str s t u : t +:+ s = u +:+ s → t = u.
Proof.
  intros Heq. apply (app_inj_len_str _ s _ s); [|done].
  apply (f_equal String.length) in Heq. rewrite !length_app_str in Heq. lia.
Qed.

Lemma app_inj_end_str s t s' t' :
  String.length t = String.length t' → s +:+ t = s' +:+ t' → s = s' ∧ t = t'.
Proof.
  intros Hlen Heq. apply app_inj_len_str; [|done].
  apply (f_equal String.length) in Heq. rewrite !length_app_str in Heq. lia.
Qed.

(** The shorter of two suffixes of one text is a suffix of the other. *)
Lemma app_suffix_str s t s' t' :
  s +:+ t = s' +:+ t' → String.length t' ≤ String.length t → ∃ x, t = x +:+ t'.
Proof.
  revert s'. induction s as [|c s IH]; intros s' Heq Hlen.
  { rewrite app_nil_l_str in Heq. by exists s'. }
  destruct s' as [|c' s'].
  - rewrite app_nil_l_str in Heq. apply (f_equal String.length) in Heq.
    rewrite app_cons_str in Heq. simpl in Heq. rewrite length_app_str in Heq. lia.
  - rewrite !app_cons_str in Heq. injection Heq as _ Heq. by eapply IH.
Qed.

Lemma app_eq_nil_str s t : s +:+ t = "" → s = "" ∧ t = "".
Proof. by destruct s. Qed.

Lemma rev_app_spec s t : String.rev_app s t = String.rev s +:+ t.
Proof.
  unfold String.rev. revert t. induction s as [|c s IH]; intros t; [done|].
  cbn [String.rev_app]. rewrite (IH (String c t)), (IH (String c "")).
  by rewrite app_assoc_str.
Qed.

Lemma rev_cons_str c s : String.rev (String c s) = String.rev s +:+ String c "".
Proof. unfold String.rev at 1. simpl. by rewrite rev_app_spec. Qed.

Lemma rev_app_str s t : String.rev (s +:+ t) = String.rev t +:+ String.rev s.
Proof.
  induction s as [|c s IH]; [by rewrite app_nil_r_str|].
  by rewrite app_cons_str, !rev_cons_str, IH, app_assoc_str.
Qed.

Lemma rev_involutive_str s : String.rev (String.rev s) = s.
Proof.
  induction s as [|c s IH]; [done|].
  by rewrite rev_cons_str, rev_app_str, IH.
Qed.

Lemma length_rev_str s : String.length (String.rev s) = String.length s.
Proof.
  induction s as [|c s IH]; [done|].
  rewrite rev_cons_str, length_app_str, IH. simpl. lia.
Qed.
End string_facts.

Create Rewrite HintDb str.
#[export] Hint Rewrite app_nil_l_str app_nil_r_str app_assoc_str
  length_app_str rev_app_str rev_cons_str rev_involutive_str length_rev_str : str.

(** The bytes of a string, each of which satisfies a predicate. *)
Fixpoint all_bytes (P : ascii → bool) (s : string) : bool :=
  match s with
  | "" => true
  | String c s => P c && all_bytes P s
  end.

Lemma all_bytes_app P (s t : string) :
  all_bytes P (s +:+ t) = all_bytes P s && all_bytes P t.
Proof.
  induction s as [|c s IH]; [done|].
  rewrite app_cons_str. simpl. by rewrite IH, andb_assoc.
Qed.

Lemma all_bytes_impl (P Q : ascii → bool) s :
  (∀ c, P c = true → Q c = true) → all_bytes P s = true → all_bytes Q s = true.
Proof.
  intros HPQ. induction s as [|c s IH]; [done|]; simpl; intros H. breflect.
  apply andb_true_iff. auto.
Qed.

(** The string does not contain a given byte. *)
Definition byte_free (c : ascii) (s : string) : bool :=
  all_bytes (λ b, negb (Ascii.eqb b c)) s.

(** [drop_str n s] is Go's [s[n:]]. *)
Fixpoint drop_str (n : nat) (s : string) : string :=
  match n, s with
  | 0, _ => s
  | S n, String _ s => drop_str n s
  | S _, "" => ""
  end.

Lemma drop_str_app (s t : string) : drop_str (String.length s) (s +:+ t) = t.
Proof. induction s; auto. Qed.

Definition byte (n : N) : ascii := ascii_of_N n.
Definition code (c : ascii) : N := N_of_ascii c.

Lemma code_byte n : (n < 256)%N → code (byte n) = n.
Proof. apply N_ascii_embedding. Qed.

Lemma code_lt c : (code c < 256)%N.
Proof. apply N_ascii_bounded. Qed.

Lemma byte_code c : byte (code c) = c.
Proof. apply ascii_N_embedding. Qed.

(** Decide a fact about every byte by running through the 256 of them. *)
Fixpoint below (n : nat) : list N :=
  match n with 0 => [] | S n => N.of_nat n :: below n end.

Lemma elem_of_below n k : (k < N.of_nat n)%N → k ∈ below n.
Proof.
  induction n as [|n IH]; simpl; intros H; [lia|].
  apply elem_of_cons. destruct (decide (k = N.of_nat n)); [by left|right].
  apply IH. lia.
Qed.

Lemma forall_bytes (P : ascii → bool) :
  forallb (λ n, P (byte n)) (below 256) = true → ∀ c, P c = true.
Proof.
  intros H c. rewrite forallb_forall in H.
  rewrite <-(byte_code c). apply H.
  apply list_elem_of_In, elem_of_below, code_lt.
Qed.

Module strings.

(** *** Prefixes and suffixes *)

Fixpoint strip_prefix (p s : string) : option string :=
  match p, s with
  | "", _ => Some s
  | String a p, String b s => if Ascii.eqb a b then strip_prefix p s else None
  | String _ _, "" => None
  end.

Definition strip_suffix (x s : string) : option string :=
  String.rev <$> strip_prefix (String.rev x) (String.rev s).

Definition HasPrefix (s p : string) : bool :=
  match strip_prefix p s with Some _ => true | None => false end.

Definition TrimPrefix (s p : string) : string := default s (strip_prefix p s).

Definition TrimSuffix (s x : string) : string := default s (strip_suffix x s).

Lemma strip_prefix_Some p s r : strip_prefix p s = Some r ↔ s = p +:+ r.
Proof.
  revert s. induction p as [|a p IH]; intros s; simpl.
  - rewrite app_nil_l_str. naive_solver.
  - destruct s as [|b s]; [rewrite app_cons_str; done|].
    rewrite app_cons_str. destruct (Ascii.eqb_spec a b) as [->|Hne].
    + rewrite IH. naive_solver.
    + naive_solver.
Qed.

Lemma strip_suffix_Some x s r : strip_suffix x s = Some r ↔ s = r +:+ x.
Proof.
  unfold strip_suffix. rewrite fmap_Some. split.
  - intros (t & Ht & ->). apply strip_prefix_Some in Ht.
    rewrite <-(rev_involutive_str s), Ht, rev_app_str. by rewrite rev_involutive_str.
  - intros ->. exists (String.rev r). rewrite rev_involutive_str.
    split; [|done]. apply strip_prefix_Some. apply rev_app_str.
Qed.

Lemma strip_prefix_app p r : strip_prefix p (p +:+ r) = Some r.
Proof. by apply strip_prefix_Some. Qed.

Lemma HasPrefix_spec s p : HasPrefix s p = true ↔ ∃ r, s = p +:+ r.
Proof.
  unfold HasPrefix. destruct (strip_prefix p s) as [r|] eqn:E.
  - apply strip_prefix_Some in E. naive_solver.
  - split; [done|]. intros [r ->]. by rewrite strip_prefix_app in E.
Qed.

Lemma TrimPrefix_app p r : TrimPrefix (p +:+ r) p = r.
Proof. unfold TrimPrefix. by rewrite strip_prefix_app. Qed.

Lemma TrimSuffix_app r x : TrimSuffix (r +:+ x) x = r.
Proof.
  unfold TrimSuffix. assert (strip_suffix x (r +:+ x) = Some r) as ->; [|done].
  by apply strip_suffix_Some.
Qed.

Lemma TrimSuffix_none s x : (∀ r, s ≠ r +:+ x) → TrimSuffix s x = s.
Proof.
  intros H. unfold TrimSuffix. destruct (strip_suffix x s) as [r|] eqn:E; [|done].
  apply strip_suffix_Some in E. by destruct (H r).
Qed.

(** *** White space

    One-byte spaces, and the UTF-8 encodings of U+0085, U+00A0 (two bytes) and
    of U+1680, U+2000 to U+200A, U+2028, U+2029, U+202F, U+205F and U+3000
    (three bytes).  The leading bytes C2, E1, E2 and E3 occur in UTF-8 only at
    the start of a rune, so looking for an encoding at every offset finds the
    runes Go's decoder finds. *)

Definition space1 (a : ascii) : bool :=
  bool_decide (code a ∈ [9; 10; 11; 12; 13; 32]%N).

Definition space2 (a b : ascii) : bool :=
  (code a =? 194)%N && bool_decide (code b ∈ [133; 160]%N).

Definition space3 (a b c : ascii) : bool :=
  ((code a =? 225)%N && (code b =? 154)%N && (code c =? 128)%N)
  || ((code a =? 226)%N && (code b =? 128)%N &&
       (((128 <=? code c)%N && (code c <=? 138)%N)
        || bool_decide (code c ∈ [168; 169; 175]%N)))
  || ((code a =? 226)%N && (code b =? 129)%N && (code c =? 159)%N)
  || ((code a =? 227)%N && (code b =? 128)%N && (code c =? 128)%N).

Fixpoint trim_left (s : string) : string :=
  match s with
  | "" => ""
  | String a s1 =>
      if space1 a then trim_left s1 else
      match s1 with
      | "" => s
      | String b s2 =>
          if space2 a b then trim_left s2 else
          match s2 with
          | "" => s
          | String c s3 => if space3 a b c then trim_left s3 else s
          end
      end
  end.

(** The same from the other end: the argument is the reversed string. *)
Fixpoint trim_left_rev (s : string) : string :=
  match s with
  | "" => ""
  | String a s1 =>
      if space1 a then trim_left_rev s1 else
      match s1 with
      | "" => s
      | String b s2 =>
          if space2 b a then trim_left_rev s2 else
          match s2 with
          | "" => s
          | String c s3 => if space3 c b a then trim_left_rev s3 else s
          end
      end
  end.

Definition TrimSpace (s : string) : string :=
  String.rev (trim_left_rev (String.rev (trim_left s))).

(** [Fields]: the maximal runs without space, empty runs dropped; [cur] is the
    current run, reversed. *)
Definition flush (cur : string) : list string :=
  if decide (cur = "") then [] else [String.rev cur].

Fixpoint fields_go (cur s : string) : list string :=
  match s with
  | "" => flush cur
  | String a s1 =>
      if space1 a then flush cur ++ fields_go "" s1 else
      match s1 with
      | "" => fields_go (String a cur) s1
      | String b s2 =>
          if space2 a b then flush cur ++ fields_go "" s2 else
          match s2 with
          | "" => fields_go (String a cur) s1
          | String c s3 =>
              if space3 a b c then flush cur ++ fields_go "" s3
              else fields_go (String a cur) s1
          end
      end
  end.

Definition Fields (s : string) : list string := fields_go "" s.

(** *** Case *)

Definition lower_byte (a : ascii) : ascii :=
  if ((65 <=? code a) && (code a <=? 90))%N then byte (code a + 32) else a.

Fixpoint ToLower (s : string) : string :=
  match s with
  | "" => ""
  | String a s1 =>
      if (code a <? 128)%N then String (lower_byte a) (ToLower s1) else
      match s1 with
      | "" => String a ""
      | String b s2 =>
          if ((code a =? 196) && (code b =? 176))%N (* U+0130 *)
          then String "i" (ToLower s2) else
          match s2 with
          | "" => String a (ToLower s1)
          | String c s3 =>
              if ((code a =? 226) && (code b =? 132) && (code c =? 170))%N (* U+212A *)
              then String "k" (ToLower s3)
              else String a (ToLower s1)
          end
      end
  end.

(** *** Splitting and joining *)

(** [Split s sep] for a one-byte separator. *)
Fixpoint Split (s : string) (sep : ascii) : list string :=
  match s with
  | "" => [""]
  | String c s =>
      if Ascii.eqb c sep then "" :: Split s sep
      else match Split s sep with
           | [] => [String c ""]
           | x :: xs => String c x :: xs
           end
  end.

(** [Cut s sep] for a one-byte separator: the parts around the first [sep]. *)
Fixpoint Cut (s : string) (sep : ascii) : option (string * string) :=
  match s with
  | "" => None
  | String c s =>
      if Ascii.eqb c sep then Some ("", s)
      else match Cut s sep with
           | Some (x, y) => Some (String c x, y)
           | None => None
           end
  end.

(** [SplitN s sep n] for a one-byte separator and [n > 0]. *)
Fixpoint SplitN (s : string) (sep : ascii) (n : nat) : list string :=
  match n with
  | 0 => []
  | 1 => [s]
  | S n' =>
      match Cut s sep with
      | Some (x, y) => x :: SplitN y sep n'
      | None => [s]
      end
  end.

Fixpoint Join (l : list string) (sep : string) : string :=
  match l with
  | [] => ""
  | [x] => x
  | x :: l => x +:+ sep +:+ Join l sep
  end.

(** [Index s p]: the offset of the first occurrence of [p] in [s]. *)
Fixpoint Index (s p : string) : option nat :=
  if HasPrefix s p then Some 0
  else match s with
       | "" => None
       | String _ s => S <$> Index s p
       end.

(** [ReplaceAll] of one byte by another. *)
Fixpoint ReplaceAll (s : string) (old new : ascii) : string :=
  match s with
  | "" => ""
  | String c s => String (if Ascii.eqb c old then new else c) (ReplaceAll s old new)
  end.

(** [bytes.LastIndexByte] *)
Fixpoint LastIndexByte (s : string) (c : ascii) : option nat :=
  match s with
  | "" => None
  | String b s =>
      match LastIndexByte s c with
      | Some i => Some (S i)
      | None => if Ascii.eqb b c then Some 0 else None
      end
  end.

(** *** Facts on splitting and joining *)

Lemma Split_nonempty s c : Split s c ≠ [].
Proof.
  destruct s as [|b s]; simpl; [done|].
  destruct (Ascii.eqb b c); [done|]. by destruct (Split s c).
Qed.

Lemma Split_app_sep x c y : Split (x +:+ String c y) c = Split x c ++ Split y c.
Proof.
  induction x as [|b x IH]; simpl.
  { by rewrite Ascii.eqb_refl. }
  rewrite IH. destruct (Ascii.eqb b c); [done|].
  destruct (Split x c) eqn:E; [by destruct (Split_nonempty x c)|done].
Qed.

Lemma Split_byte_free s c : byte_free c s = true → Split s c = [s].
Proof.
  unfold byte_free. induction s as [|b s IH]; simpl; [done|].
  intros H. breflect. rewrite H, IH by done. done.
Qed.

Lemma Split_pieces s c : Forall (λ x, byte_free c x = true) (Split s c).
Proof.
  unfold byte_free. induction s as [|b s IH]; simpl; [by repeat constructor|].
  destruct (Ascii.eqb b c) eqn:E; [by constructor|].
  destruct (Split s c) as [|x xs]; [by repeat constructor; simpl; rewrite E|].
  inversion IH; subst. constructor; [|done]. simpl. by rewrite E.
Qed.

Lemma Join_cons x l sep : l ≠ [] → Join (x :: l) sep = x +:+ sep +:+ Join l sep.
Proof. by destruct l. Qed.

Lemma Join_app l1 l2 sep :
  l1 ≠ [] → l2 ≠ [] → Join (l1 ++ l2) sep = Join l1 sep +:+ sep +:+ Join l2 sep.
Proof.
  intros H1 H2. induction l1 as [|x l1 IH]; [done|].
  destruct l1 as [|y l1]; simpl app.
  { by rewrite Join_cons. }
  rewrite (Join_cons x (y :: l1)), Join_cons by done. simpl app in IH.
  rewrite IH by done. by rewrite !app_assoc_str.
Qed.

Lemma Join_Split s c : Join (Split s c) (String c "") = s.
Proof.
  induction s as [|b s IH]; simpl; [done|].
  destruct (Ascii.eqb b c) eqn:E.
  - apply Ascii.eqb_eq in E as ->.
    rewrite Join_cons by apply Split_nonempty. by rewrite IH.
  - destruct (Split s c) as [|x xs] eqn:Es; [by destruct (Split_nonempty s c)|].
    rewrite <-IH. by destruct xs.
Qed.

Lemma Split_inj s t c : Split s c = Split t c → s = t.
Proof. intros H. by rewrite <-(Join_Split s c), H, Join_Split. Qed.

Lemma Split_Join l c :
  l ≠ [] → Forall (λ x, byte_free c x = true) l → Split (Join l (String c "")) c = l.
Proof.
  intros Hne H. induction H as [|x l Hx Hl IH]; [done|].
  destruct l as [|y l]; [by apply Split_byte_free|].
  rewrite Join_cons, app_cons_str, app_nil_l_str, Split_app_sep, Split_byte_free by done.
  by rewrite IH.
Qed.

(** A string extends another by whole segments exactly when its segments do. *)
Lemma Split_prefix (s t : string) c :
  Split s c `prefix_of` Split t c ↔ ∃ r, t = s +:+ r ∧ (r = "" ∨ ∃ y, r = String c y).
Proof.
  split.
  - intros [l Hl]. destruct l as [|x l].
    + rewrite app_nil_r in Hl. apply Split_inj in Hl as ->.
      exists "". rewrite app_nil_r_str. auto.
    + exists (String c "" +:+ Join (x :: l) (String c "")). split; [|right; eauto].
      rewrite <-(Join_Split t c), Hl, Join_app, Join_Split by
        (try apply Split_nonempty; done). done.
  - intros (r & -> & [->|[y ->]]).
    + by rewrite app_nil_r_str.
    + rewrite Split_app_sep. by eexists.
Qed.

Lemma Cut_Some s c x y :
  Cut s c = Some (x, y) ↔ s = x +:+ String c y ∧ byte_free c x = true.
Proof.
  unfold byte_free. revert x y. induction s as [|b s IH]; intros x y; simpl.
  { split; [done|]. intros [H _]. by destruct x. }
  destruct (Ascii.eqb b c) eqn:E.
  - apply Ascii.eqb_eq in E as ->. split.
    + intros [= <- <-]. done.
    + intros [Heq Hx]. destruct x as [|b x]; [by injection Heq as ->|].
      rewrite app_cons_str in Heq. injection Heq as <- _. simpl in Hx.
      by rewrite Ascii.eqb_refl in Hx.
  - destruct (Cut s c) as [[x' y']|] eqn:Ec.
    + destruct (proj1 (IH x' y') eq_refl) as [-> Hx']. split.
      * intros [= <- <-]. simpl. by rewrite E.
      * intros [Heq Hx]. destruct x as [|b' x]; [injection Heq as -> _; by rewrite Ascii.eqb_refl in E|].
        rewrite app_cons_str in Heq. injection Heq as <- Heq. simpl in Hx. breflect.
        assert (Some (x', y') = Some (x, y)) as [= -> ->]; [|done].
        apply IH. done.
    + split; [done|]. intros [Heq Hx]. destruct x as [|b' x]; [injection Heq as -> _; by rewrite Ascii.eqb_refl in E|].
      rewrite app_cons_str in Heq. injection Heq as <- Heq. simpl in Hx. breflect.
      assert (None = Some (x, y)) by (by apply IH). done.
Qed.

Lemma Cut_None s c : Cut s c = None ↔ byte_free c s = true.
Proof.
  unfold byte_free. induction s as [|b s IH]; simpl; [done|].
  destruct (Ascii.eqb b c); [done|]. simpl.
  destruct (Cut s c) as [[]|]; naive_solver.
Qed.

Lemma Cut_app x c y : byte_free c x = true → Cut (x +:+ String c y) c = Some (x, y).
Proof. intros. by apply Cut_Some. Qed.

Lemma LastIndexByte_free s c : byte_free c s = true → LastIndexByte s c = None.
Proof.
  unfold byte_free. induction s as [|b s IH]; simpl; [done|].
  intros H. breflect. rewrite IH by done. by rewrite H.
Qed.

Lemma LastIndexByte_app x c y :
  byte_free c y = true → LastIndexByte (x +:+ String c y) c = Some (String.length x).
Proof.
  intros Hy. induction x as [|b x IH]; simpl.
  - rewrite LastIndexByte_free by done. by rewrite Ascii.eqb_refl.
  - by rewrite IH.
Qed.

(** *** Fields of plain words *)

(** An ASCII byte that is not a space. *)
Definition plain (c : ascii) : bool := (code c <? 128)%N && negb (space1 c).

Lemma plain_not_space c :
  plain c = true →
  space1 c = false ∧ (∀ b, space2 c b = false) ∧ (∀ b d, space3 c b d = false).
Proof.
  unfold plain. intros H. breflect. apply N.ltb_lt in H.
  split; [done|]. unfold space2, space3.
  assert ((code c =? 194)%N = false) as -> by (apply N.eqb_neq; lia).
  assert ((code c =? 225)%N = false) as -> by (apply N.eqb_neq; lia).
  assert ((code c =? 226)%N = false) as -> by (apply N.eqb_neq; lia).
  assert ((code c =? 227)%N = false) as -> by (apply N.eqb_neq; lia).
  done.
Qed.

Lemma fields_go_plain cur c s :
  plain c = true → fields_go cur (String c s) = fields_go (String c cur) s.
Proof.
  intros (H1 & H2 & H3)%plain_not_space. simpl. rewrite H1.
  destruct s as [|b s]; [done|]. rewrite H2. destruct s as [|d s]; [done|]. by rewrite H3.
Qed.

Lemma fields_go_word cur w s :
  all_bytes plain w = true → fields_go cur (w +:+ s) = fields_go (String.rev w +:+ cur) s.
Proof.
  revert cur. induction w as [|c w IH]; intros cur H; [done|].
  simpl in H. breflect. rewrite app_cons_str, fields_go_plain, IH by done.
  rewrite rev_cons_str. by rewrite app_assoc_str.
Qed.

Lemma Fields_Join words tail :
  Forall (λ w, w ≠ "" ∧ all_bytes plain w = true) words →
  all_bytes space1 tail = true →
  Fields (Join words " " +:+ tail) = words.
Proof.
  intros Hw Ht. unfold Fields.
  assert (∀ cur, fields_go cur tail = flush cur) as Htail.
  { clear Hw. induction tail as [|c tail IH]; intros cur; [done|].
    simpl in Ht. breflect. simpl. rewrite H, IH by done. unfold flush at 2.
    by rewrite decide_True, app_nil_r by done. }
  assert (∀ w, w ≠ "" → flush (String.rev w) = [w]) as Hflush.
  { intros w Hne. unfold flush. rewrite decide_False; [by rewrite rev_involutive_str|].
    intros H. apply (f_equal String.rev) in H. by rewrite rev_involutive_str in H. }
  induction Hw as [|w words [Hne Hp] Hws IH]; [by rewrite app_nil_l_str, Htail|].
  destruct words as [|w' words].
  - simpl. rewrite fields_go_word, app_nil_r_str, Htail by done. by apply Hflush.
  - rewrite Join_cons, !app_assoc_str, fields_go_word, app_nil_r_str by done.
    rewrite app_cons_str, app_nil_l_str. cbn [fields_go].
    change (space1 " ") with true. cbv iota.
    by rewrite IH, Hflush.
Qed.

End strings.

Module strconv.

Definition is_digit (c : ascii) : bool := ((48 <=? code c) && (code c <=? 57))%N.
Definition digit_val (c : ascii) : Z := Z.of_N (code c) - 48.

(** The value of a run of digits, [None] when another byte occurs. *)
Fixpoint digits (acc : Z) (s : string) : option Z :=
  match s with
  | "" => Some acc
  | String c s => if is_digit c then digits (acc * 10 + digit_val c) s else None
  end.

(** [ParseUint s 10 64]; syntax and range errors are both [None]. *)
Definition ParseUint (s : string) : option Z :=
  if decide (s = "") then None else
  match digits 0 s with
  | Some z => if (z <? 2 ^ 64)%Z then Some z else None
  | None => None
  end.

(** [Atoi]: an optional sign and digits, in the range of a 64-bit [int]. *)
Definition Atoi (s : string) : option Z :=
  let unsigned t := if decide (t = "") then None else digits 0 t in
  match s with
  | String "-" t =>
      z ← unsigned t; if (z <=? 2 ^ 63)%Z then Some (- z)%Z else None
  | String "+" t =>
      z ← unsigned t; if (z <? 2 ^ 63)%Z then Some z else None
  | _ => z ← unsigned s; if (z <? 2 ^ 63)%Z then Some z else None
  end.

(** [FormatUint v 10], and the verb [%d]. *)
Definition FormatUint (z : Z) : string := pretty z.

Lemma pretty_char_digit n :
  (n < 10)%N →
  is_digit (pretty_N_char n) = true ∧ digit_val (pretty_N_char n) = Z.of_N n.
Proof.
  intros H.
  assert (n = 0 ∨ n = 1 ∨ n = 2 ∨ n = 3 ∨ n = 4 ∨ n = 5 ∨ n = 6 ∨ n = 7 ∨ n = 8
          ∨ n = 9)%N as Hn by lia.
  by repeat destruct Hn as [->|Hn]; subst.
Qed.

Lemma digits_pretty_go x s : digits 0 (pretty_N_go x s) = digits (Z.of_N x) s.
Proof.
  revert s. induction (N.lt_wf_0 x) as [x _ IH]; intros s.
  destruct (decide (x = 0%N)) as [->|Hx]; [done|].
  rewrite pretty_N_go_step by lia. rewrite IH by (apply N.div_lt; lia). simpl.
  destruct (pretty_char_digit (x `mod` 10)) as [-> ->]; [by apply N.mod_lt|].
  f_equal. rewrite <-N2Z.inj_mul with (m := 10%N), <-N2Z.inj_add.
  f_equal. pose proof (N.div_mod x 10). lia.
Qed.

Lemma digits_FormatUint z : (0 ≤ z)%Z → digits 0 (FormatUint z) = Some z.
Proof.
  intros Hz. unfold FormatUint. destruct z as [|x|x]; [done| |lia].
  cbn [pretty pretty_Z]. unfold pretty, pretty_positive, pretty, pretty_N.
  rewrite decide_False by done. by rewrite digits_pretty_go.
Qed.

Lemma FormatUint_nonempty z : FormatUint z ≠ "".
Proof.
  unfold FormatUint. destruct z as [|x|x]; [done| |done].
  cbn [pretty pretty_Z]. unfold pretty, pretty_positive, pretty, pretty_N.
  rewrite decide_False by done. intros H.
  pose proof (digits_pretty_go (N.pos x) "") as Hd. rewrite H in Hd. by simpl in Hd.
Qed.

Lemma ParseUint_FormatUint z :
  (0 ≤ z < 2 ^ 64)%Z → ParseUint (FormatUint z) = Some z.
Proof.
  intros Hz. unfold ParseUint. rewrite decide_False by apply FormatUint_nonempty.
  rewrite digits_FormatUint by lia. by rewrite (proj2 (Z.ltb_lt z (2 ^ 64))) by lia.
Qed.

Lemma all_digits_pretty_go x s :
  all_bytes is_digit (pretty_N_go x s) = all_bytes is_digit s.
Proof.
  revert s. induction (N.lt_wf_0 x) as [x _ IH]; intros s.
  destruct (decide (x = 0%N)) as [->|Hx]; [done|].
  rewrite pretty_N_go_step by lia. rewrite IH by (apply N.div_lt; lia). simpl.
  by destruct (pretty_char_digit (x `mod` 10)) as [-> _]; [by apply N.mod_lt|].
Qed.

Lemma all_digits_FormatUint z : (0 ≤ z)%Z → all_bytes is_digit (FormatUint z) = true.
Proof.
  intros Hz. unfold FormatUint. destruct z as [|x|x]; [done| |lia].
  cbn [pretty pretty_Z]. unfold pretty, pretty_positive, pretty, pretty_N.
  rewrite decide_False by done. by rewrite all_digits_pretty_go.
Qed.

End strconv.

Module fmt.

Definition hex_digit (n : N) : ascii :=
  if (n <? 10)%N then byte (48 + n) else byte (87 + n).

(** One byte under the verb [%q]: exact on ASCII; the bytes of multi-byte
    runes stand for themselves, as Go prints a printable rune. *)
Definition quote_byte (c : ascii) : string :=
  match code c with
  | 34 => "\" +:+ String (byte 34) ""
  | 92 => "\\"
  | 7 => "\a" | 8 => "\b" | 12 => "\f" | 10 => "\n"
  | 13 => "\r" | 9 => "\t" | 11 => "\v"
  | n => if (n <? 32)%N || (n =? 127)%N
         then "\x" +:+ String (hex_digit (n / 16)) (String (hex_digit (n mod 16)) "")
         else String c ""
  end%N.

Fixpoint quote_body (s : string) : string :=
  match s with
  | "" => ""
  | String c s => quote_byte c +:+ quote_body s
  end.

Definition q (s : string) : string :=
  String (byte 34) "" +:+ quote_body s +:+ String (byte 34) "".

(** The verb [%v] on a slice of strings. *)
Definition v (l : list string) : string := "[" +:+ strings.Join l " " +:+ "]".

(** The verb [%d]. *)
Definition d (z : Z) : string := strconv.FormatUint z.

End fmt.

Module sort.

(** [sort.Strings]: byte-wise lexicographic order. *)
Definition Strings (l : list string) : list string := merge_sort String.le l.

Lemma Strings_perm l : Strings l ≡ₚ l.
Proof. apply merge_sort_Permutation. Qed.

Lemma Strings_sorted l : StronglySorted String.le (Strings l).
Proof. apply StronglySorted_merge_sort; apply _. Qed.

Lemma Strings_unique l l' :
  l' ≡ₚ l → StronglySorted String.le l' → l' = Strings l.
Proof.
  intros Hp Hs. apply (StronglySorted_unique String.le); [done|apply Strings_sorted|].
  by rewrite Strings_perm.
Qed.

Lemma Strings_nil l : Strings l = [] ↔ l = [].
Proof.
  split; [|by intros ->]. intros H. apply Permutation_nil_r.
  by rewrite <-(Strings_perm l), H.
Qed.

Lemma elem_of_Strings x l : x ∈ Strings l ↔ x ∈ l.
Proof. by rewrite Strings_perm. Qed.

End sort.

Module filepath.

Definition slash : ascii := "/".

(** One segment of [Clean]'s scan; [st] is the output so far, reversed. *)
Definition clean_step (rooted : bool) (st : list string) (seg : string) : list string :=
  if decide (seg = "" ∨ seg = ".") then st
  else if decide (seg = "..") then
    match st with
    | [] => if rooted then [] else [".."]
    | top :: rest => if decide (top = "..") then ".." :: st else rest
    end
  else seg :: st.

Definition clean_segs (rooted : bool) (segs : list string) : list string :=
  reverse (foldl (clean_step rooted) [] segs).

Definition Clean (p : string) : string :=
  let rooted := strings.HasPrefix p "/" in
  let out := strings.Join (clean_segs rooted (strings.Split p slash)) "/" in
  if rooted then "/" +:+ out
  else if decide (out = "") then "." else out.

Fixpoint Join (elems : list string) : string :=
  match elems with
  | [] => ""
  | e :: rest => if decide (e = "") then Join rest
                 else Clean (strings.Join elems "/")
  end.

Fixpoint strip_slashes_rev (s : string) : string :=
  match s with
  | String c s' => if Ascii.eqb c slash then strip_slashes_rev s' else s
  | "" => ""
  end.

Definition Base (p : string) : string :=
  if decide (p = "") then "."
  else
    let p' := String.rev (strip_slashes_rev (String.rev p)) in
    if decide (p' = "") then "/"
    else List.last (strings.Split p' slash) "".

(** The reversed text up to the last dot of the last segment, if there is one. *)
Fixpoint ext_rev (acc s : string) : string :=
  match s with
  | "" => ""
  | String c s =>
      if Ascii.eqb c slash then ""
      else if Ascii.eqb c "." then String c acc
      else ext_rev (String c acc) s
  end.

Definition Ext (p : string) : string := ext_rev "" (String.rev p).

Definition Dir (p : string) : string :=
  match strings.LastIndexByte p slash with
  | Some i => Clean (String.substring 0 (S i) p)
  | None => Clean ""
  end.

End filepath.

Module binary.

(** Little-endian integers ([encoding/binary]). *)
Fixpoint put (n : nat) (z : Z) : list ascii :=
  match n with
  | 0 => []
  | S n => byte (Z.to_N (z `mod` 256)) :: put n (z `div` 256)
  end.

Definition get (b : list ascii) : Z :=
  foldr (λ c acc, Z.of_N (code c) + 256 * acc)%Z 0%Z b.

Lemma length_put n z : length (put n z) = n.
Proof. revert z. induction n; intros z; simpl; auto. Qed.

Lemma get_put n z : get (put n z) = (z `mod` 256 ^ Z.of_nat n)%Z.
Proof.
  revert z. induction n as [|n IH]; intros z.
  - simpl. by rewrite Z.mod_1_r.
  - cbn [put get foldr]. fold (get (put n (z `div` 256))). rewrite IH.
    pose proof (Z.mod_pos_bound z 256 ltac:(lia)).
    rewrite code_byte by lia. rewrite Z2N.id by lia.
    rewrite Nat2Z.inj_succ, Z.pow_succ_r by lia.
    rewrite Z.rem_mul_r by lia. lia.
Qed.

Lemma get_range b : (0 ≤ get b < 256 ^ Z.of_nat (length b))%Z.
Proof.
  induction b as [|c b IH]; [done|]. cbn [get foldr length]. fold (get b).
  rewrite Nat2Z.inj_succ, Z.pow_succ_r by lia. pose proof (code_lt c). lia.
Qed.

Lemma put_get b : put (length b) (get b) = b.
Proof.
  induction b as [|c b IH]; [done|]. cbn [get foldr length put]. fold (get b).
  pose proof (code_lt c).
  assert ((Z.of_N (code c) + 256 * get b) `mod` 256 = Z.of_N (code c))%Z as ->.
  { rewrite Z.mul_comm, Z.mod_add by lia. apply Z.mod_small. lia. }
  assert ((Z.of_N (code c) + 256 * get b) `div` 256 = get b)%Z as ->.
  { rewrite Z.mul_comm, Z.div_add by lia. rewrite Z.div_small by lia. lia. }
  by rewrite N2Z.id, byte_code, IH.
Qed.

End binary.
