(* ===== verification/Effects.v ===== *)
(** * Effectful code

    A handler or loader that talks to the kernel, to the file system or to
    another component is a [prog]: a tree of operations, each with the type of
    its answer and a continuation for every answer.  One definition of the
    code then has several readings:

    - [runs p tr r]: [p] can produce the trace [tr] of operations and answers
      and return [r], whatever the environment answers.  Ordering and safety
      claims are stated over all traces;
    - [exec h p s]: [p] run from the state [s] with the operations given by
      [h]; it is a function, so witnesses compute with it;
    - [interp f p]: every operation of [p] replaced by a program over another
      signature, which is how one component's interface is implemented by
      another component's code;
    - [pool_step]: several programs interleaved over one shared state. *)

From S2P Require Import Prelude.

Record sig := Sig { op : Type; ans : op → Type }.

Inductive prog (Σ : sig) (A : Type) : Type :=
| Ret (a : A)
| Do (o : op Σ) (k : ans Σ o → prog Σ A).
Arguments Ret {Σ A} a.
Arguments Do {Σ A} o k.

Fixpoint bind {Σ A B} (p : prog Σ A) (f : A → prog Σ B) : prog Σ B :=
  match p with
  | Ret a => f a
  | Do o k => Do o (λ x, bind (k x) f)
  end.

Definition call {Σ} (o : op Σ) : prog Σ (ans Σ o) := Do o Ret.

Declare Scope prog_scope.
Delimit Scope prog_scope with prog.
Bind Scope prog_scope with prog.

Notation "x <- p ;; q" := (bind p (λ x, q))
  (at level 100, p at next level, right associativity) : prog_scope.
Notation "p ;;; q" := (bind p (λ _, q))
  (at level 100, right associativity) : prog_scope.

(** ** Traces *)

Record event (Σ : sig) := Event { ev_op : op Σ; ev_ans : ans Σ ev_op }.
Arguments Event {Σ} ev_op ev_ans.
Arguments ev_op {Σ} _.
Arguments ev_ans {Σ} _.

Abbreviation trace Σ := (list (event Σ)).

Fixpoint runs {Σ A} (p : prog Σ A) (tr : trace Σ) (r : A) : Prop :=
  match p with
  | Ret a => tr = [] ∧ r = a
  | Do o k => ∃ x tr', tr = Event o x :: tr' ∧ runs (k x) tr' r
  end.

Section runs.
Context {Σ : sig}.
Implicit Types tr : trace Σ.

Lemma runs_bind {A B} (p : prog Σ A) (f : A → prog Σ B) tr r :
  runs (bind p f) tr r ↔
  ∃ tr1 tr2 a, tr = tr1 ++ tr2 ∧ runs p tr1 a ∧ runs (f a) tr2 r.
Proof.
  revert tr. induction p as [a|o k IH]; intros tr; simpl.
  - split.
    + intros H. by exists [], tr, a.
    + intros (tr1 & tr2 & a' & -> & [-> ->] & H). done.
  - split.
    + intros (x & tr' & -> & H). apply IH in H as (t1 & t2 & a & -> & H1 & H2).
      exists (Event o x :: t1), t2, a. split; [done|]. eauto.
    + intros (t1 & t2 & a & -> & (x & t1' & -> & H1) & H2).
      exists x, (t1' ++ t2). split; [done|]. apply IH. eauto 10.
Qed.

Lemma runs_call (o : op Σ) tr (r : ans Σ o) :
  runs (call o) tr r ↔ tr = [Event o r].
Proof.
  simpl. split.
  - by intros (x & tr' & -> & -> & ->).
  - intros ->. by exists r, [].
Qed.

Lemma runs_call_bind {A} (o : op Σ) (f : ans Σ o → prog Σ A) tr r :
  runs (bind (call o) f) tr r ↔ ∃ x tr', tr = Event o x :: tr' ∧ runs (f x) tr' r.
Proof. done. Qed.

Lemma runs_ret {A} (a : A) tr r : runs (Ret (Σ:=Σ) a) tr r ↔ tr = [] ∧ r = a.
Proof. done. Qed.
End runs.

Lemma bind_ret_r {Σ A} (p : prog Σ A) tr r :
  runs (bind p Ret) tr r ↔ runs p tr r.
Proof.
  rewrite runs_bind. split.
  - intros (t1 & t2 & a & -> & H & -> & ->). by rewrite app_nil_r.
  - intros H. exists tr, [], r. by rewrite app_nil_r.
Qed.

(** A program all of whose operations satisfy [P], whatever they answer. *)
Fixpoint only {Σ A} (P : op Σ → Prop) (p : prog Σ A) : Prop :=
  match p with
  | Ret _ => True
  | Do o k => P o ∧ ∀ x, only P (k x)
  end.

Lemma only_runs {Σ A} P (p : prog Σ A) tr r :
  only P p → runs p tr r → Forall (λ e, P (ev_op e)) tr.
Proof.
  revert tr. induction p as [a|o k IH]; simpl; intros tr Hp.
  - intros [-> _]. constructor.
  - intros (x & tr' & -> & Hr). destruct Hp as [Ho Hk]. constructor; [done|].
    by apply (IH x).
Qed.

Lemma only_bind {Σ A B} P (p : prog Σ A) (f : A → prog Σ B) :
  only P p → (∀ a, only P (f a)) → only P (bind p f).
Proof.
  intros Hp Hf. induction p as [a|o k IH]; simpl in *; [auto|].
  destruct Hp as [Ho Hk]. split; auto.
Qed.

(** *** Programs that differ only in what they return *)

Inductive sim {Σ A B} (R : A → B → Prop) : prog Σ A → prog Σ B → Prop :=
| sim_ret a b : R a b → sim R (Ret a) (Ret b)
| sim_do o k k' : (∀ x, sim R (k x) (k' x)) → sim R (Do o k) (Do o k').

Lemma sim_runs {Σ A B} (R : A → B → Prop) (p : prog Σ A) (q : prog Σ B) tr a :
  sim R p q → runs p tr a → ∃ b, runs q tr b ∧ R a b.
Proof.
  intros H. revert tr. induction H as [a' b H|o k k' H IH]; intros tr; simpl.
  - intros [-> ->]. eauto.
  - intros (x & tr' & -> & Hr). destruct (IH x tr' Hr) as (b & Hb & HR). eauto 10.
Qed.

Lemma sim_refl {Σ A} (R : A → A → Prop) (p : prog Σ A) : (∀ a, R a a) → sim R p p.
Proof. intros HR. induction p; constructor; auto. Qed.

Lemma sim_bind {Σ A B A' B'} (R : A → B → Prop) (Q : A' → B' → Prop)
    (p : prog Σ A) (q : prog Σ B) f g :
  sim R p q → (∀ a b, R a b → sim Q (f a) (g b)) → sim Q (bind p f) (bind q g).
Proof. intros H Hfg. induction H; simpl; [auto|]. by constructor. Qed.

Lemma sim_bind_same {Σ A A' B'} (Q : A' → B' → Prop)
    (p : prog Σ A) (f : A → prog Σ A') (g : A → prog Σ B') :
  (∀ a, sim Q (f a) (g a)) → sim Q (bind p f) (bind p g).
Proof.
  intros Hfg. apply (sim_bind eq); [by apply sim_refl|]. by intros a ? <-.
Qed.

(** ** Execution over a state *)

Definition handler (Σ : sig) (S : Type) : Type := ∀ o : op Σ, S → ans Σ o * S.

Fixpoint exec {Σ S A} (h : handler Σ S) (p : prog Σ A) (s : S) : A * S :=
  match p with
  | Ret a => (a, s)
  | Do o k => let '(x, s') := h o s in exec h (k x) s'
  end.

(** The states on the way, the first and the last included. *)
Fixpoint visits {Σ S A} (h : handler Σ S) (p : prog Σ A) (s : S) : list S :=
  s :: match p with
       | Ret _ => []
       | Do o k => let '(x, s') := h o s in visits h (k x) s'
       end.

(** The trace [tr] is what [h] answers from [s], and it ends in [s']. *)
Fixpoint follows {Σ S} (h : handler Σ S) (s : S) (tr : trace Σ) (s' : S) : Prop :=
  match tr with
  | [] => s' = s
  | e :: tr => (h (ev_op e) s).1 = ev_ans e ∧ follows h (h (ev_op e) s).2 tr s'
  end.

Section exec.
Context {Σ : sig} {S : Type} (h : handler Σ S).

Lemma exec_bind {A B} (p : prog Σ A) (f : A → prog Σ B) s :
  exec h (bind p f) s = let '(a, s') := exec h p s in exec h (f a) s'.
Proof.
  revert s. induction p as [a|o k IH]; intros s; simpl; [done|].
  destruct (h o s) as [x s']. apply IH.
Qed.

(** Every execution is a run: what holds of all traces of a program holds of
    it under any implementation of the operations. *)
Lemma exec_runs {A} (p : prog Σ A) s :
  ∃ tr, runs p tr (exec h p s).1 ∧ follows h s tr (exec h p s).2.
Proof.
  revert s. induction p as [a|o k IH]; intros s; simpl.
  - by exists [].
  - destruct (h o s) as [x s'] eqn:E. destruct (IH x s') as (tr & Hr & Hf).
    exists (Event o x :: tr). split; [by eauto|]. simpl. by rewrite E.
Qed.

Lemma follows_app s t1 t2 s' :
  follows h s (t1 ++ t2) s' ↔ ∃ s1, follows h s t1 s1 ∧ follows h s1 t2 s'.
Proof.
  revert s. induction t1 as [|e t1 IH]; intros s; simpl.
  - naive_solver.
  - rewrite IH. naive_solver.
Qed.
End exec.

(** ** Triples

    [triple h P p Q]: run by [h] from a state in [P], the program [p] returns a
    value and a state in [Q]. *)

Definition triple {Σ S A} (h : handler Σ S) (P : S → Prop) (p : prog Σ A)
    (Q : A → S → Prop) : Prop :=
  ∀ s, P s → Q (exec h p s).1 (exec h p s).2.

Section triple.
Context {Σ : sig} {S : Type} (h : handler Σ S).

Lemma triple_ret {A} (P : S → Prop) (a : A) (Q : A → S → Prop) :
  (∀ s, P s → Q a s) → triple h P (Ret a) Q.
Proof. intros H s Hs. by apply H. Qed.

Lemma triple_bind {A B} P (p : prog Σ A) (f : A → prog Σ B) R Q :
  triple h P p R → (∀ a, triple h (R a) (f a) Q) → triple h P (bind p f) Q.
Proof.
  intros Hp Hf s Hs. rewrite exec_bind. specialize (Hp s Hs).
  destruct (exec h p s) as [a s']. by apply Hf.
Qed.

Lemma triple_conseq {A} (P P' : S → Prop) (p : prog Σ A) (Q Q' : A → S → Prop) :
  triple h P' p Q' → (∀ s, P s → P' s) → (∀ a s, Q' a s → Q a s) → triple h P p Q.
Proof. intros H HP HQ s Hs. by apply HQ, H, HP. Qed.

(** The states of a sequence are those of its parts. *)
Lemma visits_bind {A B} (p : prog Σ A) (f : A → prog Σ B) s s' :
  s' ∈ visits h (bind p f) s →
  s' ∈ visits h p s ∨ s' ∈ visits h (f (exec h p s).1) (exec h p s).2.
Proof.
  revert s. induction p as [a|o k IH]; intros s; [by right|]. cbn [bind visits exec].
  destruct (h o s) as [x s1]. intros [->|Hin]%elem_of_cons; [left; left|].
  destruct (IH x s1 Hin) as [H|H]; [left; by right|by right].
Qed.

Lemma visits_only {A} (K : op Σ → Prop) (P : S → Prop) (p : prog Σ A) s s' :
  (∀ o s, K o → P s → P (h o s).2) → only K p → P s → s' ∈ visits h p s → P s'.
Proof.
  intros HK. revert s. induction p as [a|o k IH]; intros s Hp Hs; cbn [visits].
  - by intros ->%list_elem_of_singleton.
  - destruct Hp as [Ho Hk]. intros [->|Hin]%elem_of_cons; [done|].
    specialize (HK o s Ho Hs). destruct (h o s) as [x s1]. by eapply (IH x s1).
Qed.

(** A program all of whose operations keep [P] keeps [P]. *)
Lemma triple_only {A} (K : op Σ → Prop) (P : S → Prop) (p : prog Σ A) :
  (∀ o s, K o → P s → P (h o s).2) → only K p → triple h P p (λ _, P).
Proof.
  intros HK. induction p as [a|o k IH]; intros Hp s Hs; [done|].
  destruct Hp as [Ho Hk]. unfold triple in IH. cbn [exec].
  specialize (HK o s Ho Hs). destruct (h o s) as [x s']. by apply IH.
Qed.
End triple.

(** Execution that also records its trace. *)
Fixpoint traced {Σ S A} (h : handler Σ S) (p : prog Σ A) (s : S) : trace Σ * A * S :=
  match p with
  | Ret a => ([], a, s)
  | Do o k =>
      let '(x, s') := h o s in
      let '(tr, a, s'') := traced h (k x) s' in (Event o x :: tr, a, s'')
  end.

Lemma traced_runs {Σ S A} (h : handler Σ S) (p : prog Σ A) s :
  runs p (traced h p s).1.1 (traced h p s).1.2.
Proof.
  revert s. induction p as [a|o k IH]; intros s; simpl; [done|].
  destruct (h o s) as [x s']. specialize (IH x s').
  destruct (traced h (k x) s') as [[tr a] s'']. simpl in *. eauto.
Qed.

Lemma traced_Forall {Σ S A} (P : event Σ → Prop) (h : handler Σ S) (p : prog Σ A) s :
  (∀ o s, P (Event o (h o s).1)) → Forall P (traced h p s).1.1.
Proof.
  intros HP. revert s. induction p as [a|o k IH]; intros s; simpl; [constructor|].
  specialize (HP o s). destruct (h o s) as [x s']. specialize (IH x s').
  destruct (traced h (k x) s') as [[tr a] s'']. simpl in *. by constructor.
Qed.

(** ** Interpretation into another signature *)

Fixpoint interp {Σ1 Σ2 A} (f : ∀ o : op Σ1, prog Σ2 (ans Σ1 o)) (p : prog Σ1 A)
    : prog Σ2 A :=
  match p with
  | Ret a => Ret a
  | Do o k => bind (f o) (λ x, interp f (k x))
  end.

Lemma interp_only {Σ1 Σ2 A} (f : ∀ o : op Σ1, prog Σ2 (ans Σ1 o)) (P : op Σ2 → Prop)
    (p : prog Σ1 A) :
  (∀ o, only P (f o)) → only P (interp f p).
Proof.
  intros Hf. induction p as [a|o k IH]; simpl; [done|].
  apply only_bind; auto.
Qed.

(** What an interpreted program returns, the program itself can return. *)
Lemma interp_result {Σ1 Σ2 A} (f : ∀ o : op Σ1, prog Σ2 (ans Σ1 o)) (p : prog Σ1 A) tr r :
  runs (interp f p) tr r → ∃ tr', runs p tr' r.
Proof.
  revert tr. induction p as [a|o k IH]; intros tr; simpl.
  - intros [_ ->]. by exists [].
  - intros (t1 & t2 & x & -> & _ & H)%runs_bind. destruct (IH x t2 H) as [tr' Htr'].
    by exists (Event o x :: tr'), x, tr'.
Qed.

Lemma interp_bind {Σ1 Σ2 A B} (f : ∀ o : op Σ1, prog Σ2 (ans Σ1 o))
    (p : prog Σ1 A) (g : A → prog Σ1 B) tr r :
  runs (interp f (bind p g)) tr r ↔ runs (bind (interp f p) (λ a, interp f (g a))) tr r.
Proof.
  revert tr. induction p as [a|o k IH]; intros tr; simpl; [done|].
  rewrite !runs_bind. split.
  - intros (t1 & t2 & x & -> & H1 & H2). apply IH in H2.
    rewrite runs_bind in H2. destruct H2 as (t3 & t4 & a & -> & H3 & H4).
    exists (t1 ++ t3), t4, a. rewrite <-app_assoc. split; [done|]. split; [|done].
    rewrite runs_bind. eauto 10.
  - intros (t1 & t2 & a & -> & H1 & H2). rewrite runs_bind in H1.
    destruct H1 as (t3 & t4 & x & -> & H3 & H4).
    exists t3, (t4 ++ t2), x. rewrite <-app_assoc. split; [done|]. split; [done|].
    apply IH. rewrite runs_bind. eauto 10.
Qed.

(** ** Programs in flight

    [performs p tr q]: after the operations and answers of [tr], what is left of
    [p] is [q]. *)
Inductive performs {Σ A} (p : prog Σ A) : trace Σ → prog Σ A → Prop :=
| performs_nil : performs p [] p
| performs_snoc tr o k x :
    performs p tr (Do o k) → performs p (tr ++ [Event o x]) (k x).

Lemma performs_runs {Σ A} (p q : prog Σ A) tr tr' r :
  performs p tr q → runs q tr' r → runs p (tr ++ tr') r.
Proof.
  intros H. revert tr'. induction H as [|tr o k x H IH]; intros tr' Hr; [done|].
  rewrite <-app_assoc. apply IH. by exists x, tr'.
Qed.

Lemma performs_done {Σ A} (p : prog Σ A) tr r : performs p tr (Ret r) → runs p tr r.
Proof. intros H. rewrite <-(app_nil_r tr). by eapply performs_runs. Qed.

(** The first operation, and the rest. *)
Lemma performs_inv {Σ A} (p q : prog Σ A) tr :
  performs p tr q →
  match tr, p with
  | [], _ => q = p
  | e :: tr, Do o k => ∃ x, e = Event o x ∧ performs (k x) tr q
  | _ :: _, Ret _ => False
  end.
Proof.
  induction 1 as [|tr o k x H IH]; [done|]. destruct tr as [|e tr]; cbn [app].
  - subst. exists x. split; [done|]. constructor.
  - destruct p as [a|o' k']; [done|]. destruct IH as (x' & -> & IH). exists x'.
    split; [done|]. by constructor.
Qed.

Lemma performs_only {Σ A} (P : op Σ → Prop) (p q : prog Σ A) tr :
  performs p tr q → only P p → only P q.
Proof. induction 1 as [|tr o k x H IH]; [done|]. intros Hp. by apply IH in Hp as [_ ?]. Qed.

(** When every operation has some answer, everything in flight can end. *)
Lemma can_finish {Σ A} (q : prog Σ A) :
  (∀ o : op Σ, inhabited (ans Σ o)) → ∃ tr r, runs q tr r.
Proof.
  intros Hi. induction q as [a|o k IH]; [by exists [], a|].
  destruct (Hi o) as [x]. destruct (IH x) as (tr & r & H).
  by exists (Event o x :: tr), r, x, tr.
Qed.

(** The next operation of a program in flight, within a complete run. *)
Lemma performs_next {Σ A} (p : prog Σ A) tr o k :
  (∀ o : op Σ, inhabited (ans Σ o)) → performs p tr (Do o k) →
  ∀ x, ∃ tr' r, runs p (tr ++ Event o x :: tr') r.
Proof.
  intros Hi H x. destruct (can_finish (k x) Hi) as (tr' & r & Hr).
  exists tr', r. eapply performs_runs; [done|]. by exists x, tr'.
Qed.

(** ** Bounds

    [within P n p]: [p] performs at most [n] operations, as long as the answers
    satisfy [P]. *)
Fixpoint within {Σ A} (P : ∀ o : op Σ, ans Σ o → Prop) (n : nat) (p : prog Σ A) {struct p} : Prop :=
  match p, n with
  | Ret _, _ => True
  | Do _ _, 0 => False
  | Do o k, S n => ∀ x, P o x → within P n (k x)
  end.

Definition any_answer {Σ : sig} (o : op Σ) (x : ans Σ o) : Prop := True.

Lemma within_mono {Σ A} P n m (p : prog Σ A) : n ≤ m → within P n p → within P m p.
Proof.
  revert n m. induction p as [a|o k IH]; intros [|n] [|m] Hle; cbn; try done; [lia|].
  intros H x Hx. eapply IH; [|by apply H]. lia.
Qed.

Lemma within_bind {Σ A B} P n m (p : prog Σ A) (f : A → prog Σ B) :
  within P n p → (∀ a, within P m (f a)) → within P (n + m) (bind p f).
Proof.
  intros Hp Hf. revert n Hp. induction p as [a|o k IH]; intros n Hp; cbn [bind].
  - eapply within_mono; [|apply Hf]. lia.
  - destruct n as [|n]; [done|]. cbn in *. intros x Hx. by apply IH, Hp.
Qed.

(** A run of it is as short. *)
Lemma within_runs {Σ A} n (p : prog Σ A) tr r : within any_answer n p → runs p tr r → length tr ≤ n.
Proof.
  revert n tr. induction p as [a|o k IH]; intros n tr Hp; cbn.
  - intros [-> _]. cbn. lia.
  - intros (x & tr' & -> & H). destruct n as [|n]; [done|]. cbn in *.
    specialize (IH x n tr' (Hp x I) H). lia.
Qed.

(** ** Interleaving

    A pool holds the programs in flight, by thread number; each step performs
    one operation of one of them on the shared state. *)

Inductive pool_step {Σ S A} (h : handler Σ S) :
    list (prog Σ A) * S → list (prog Σ A) * S → Prop :=
| pool_do i ps o k s x s' :
    ps !! i = Some (Do o k) →
    h o s = (x, s') →
    pool_step h (ps, s) (<[i := k x]> ps, s').

(** The pool driven by a schedule: thread numbers, in order. *)
Fixpoint run_pool {Σ S A} (h : handler Σ S) (schedule : list nat)
    (ps : list (prog Σ A)) (s : S) : list (prog Σ A) * S :=
  match schedule with
  | [] => (ps, s)
  | i :: schedule =>
      match ps !! i with
      | Some (Do o k) => let '(x, s') := h o s in run_pool h schedule (<[i := k x]> ps) s'
      | _ => run_pool h schedule ps s
      end
  end.

Lemma run_pool_steps {Σ S A} (h : handler Σ S) schedule (ps : list (prog Σ A)) s :
  rtc (pool_step h) (ps, s) (run_pool h schedule ps s).
Proof.
  revert ps s. induction schedule as [|i schedule IH]; intros ps s; [done|].
  cbn [run_pool]. destruct (ps !! i) as [[a|o k]|] eqn:E; [apply IH| |apply IH].
  destruct (h o s) as [x s'] eqn:Eh. eapply rtc_l; [|apply IH]. by econstructor.
Qed.

(** What a finished program returned. *)
Definition returned {Σ A} (p : prog Σ A) : option A :=
  match p with Ret a => Some a | Do _ _ => None end.

Create Rewrite HintDb runs.
#[export] Hint Rewrite @runs_ret @runs_call_bind @runs_call : runs.

(** Take apart a hypothesis [runs p tr r] whose program is in head normal form. *)
Ltac runs_step H :=
  first
  [ apply runs_ret in H as [-> ->]
  | apply runs_call_bind in H as (? & ? & -> & H)
  | apply runs_call in H as -> ].
