(* ===== verification/Regexp.v ===== *)
(** * Go's regexp, for the expressions the program compiles

    Bytes in a class, sequence, alternation, bounded greedy repetition, the two
    anchors and one capturing group.  [run] lists the ways an expression can
    match at a position in the order a backtracking engine prefers them, so the
    first start offset with a match and the head of its list are what Go's
    leftmost-first [FindStringSubmatch] reports.  Every class and literal of
    the program is ASCII, so matching bytes is matching runes. *)

From S2P Require Import Prelude GoStrings.

Module regexp.

Inductive re :=
| Cls (p : ascii → bool)
| Seq (a b : re)
| Alt (a b : re)
| Eps
| Rep (a : re) (least more : nat)  (** [{least,least+more}] *)
| Bol
| Eol
| Grp (a : re).

(** The text already consumed (reversed), the rest, and the group. *)
Record mstate := mkState { pre : string; rest : string; cap : option string }.

Definition advance (c : ascii) (s : string) (st : mstate) : mstate :=
  mkState (String c (pre st)) s (cap st).

Section repeat.
Context (f : mstate → list mstate).

(** At most [n] times, more first. *)
Fixpoint upto (n : nat) (st : mstate) : list mstate :=
  match n with
  | 0 => [st]
  | S n => (f st ≫= upto n) ++ [st]
  end.

Fixpoint exactly (n : nat) (st : mstate) : list mstate :=
  match n with
  | 0 => [st]
  | S n => f st ≫= exactly n
  end.
End repeat.

Definition captured (st st' : mstate) : string :=
  String.substring 0 (String.length (rest st) - String.length (rest st')) (rest st).

Fixpoint run (r : re) (st : mstate) : list mstate :=
  match r with
  | Cls p =>
      match rest st with
      | String c s => if p c then [advance c s st] else []
      | "" => []
      end
  | Seq a b => run a st ≫= run b
  | Alt a b => run a st ++ run b st
  | Eps => [st]
  | Rep a least more => exactly (run a) least st ≫= upto (run a) more
  | Bol => if decide (pre st = "") then [st] else []
  | Eol => if decide (rest st = "") then [st] else []
  | Grp a => (λ st', mkState (pre st') (rest st') (Some (captured st st'))) <$> run a st
  end.

(** The first start offset at or after the current one that matches. *)
Fixpoint find_from (r : re) (p s : string) : option mstate :=
  match run r (mkState p s None) with
  | st :: _ => Some st
  | [] => match s with
          | "" => None
          | String c s' => find_from r (String c p) s'
          end
  end.

(** [FindStringSubmatch]'s group 1; [None] when there is no match. *)
Definition FindStringSubmatch (r : re) (s : string) : option string :=
  st ← find_from r "" s; Some (default "" (cap st)).

(** ** Notation for literals and classes *)

Definition chr (c : ascii) : re := Cls (Ascii.eqb c).

Fixpoint lit (s : string) : re :=
  match s with
  | "" => Eps
  | String c s => Seq (chr c) (lit s)
  end.

Definition opt (a : re) : re := Rep a 0 1.

Lemma split_at_str n (w : string) :
  n ≤ String.length w → ∃ a b, w = a +:+ b ∧ String.length a = n.
Proof.
  revert w. induction n as [|n IH]; intros w Hn; [by exists "", w|].
  destruct w as [|c w]; simpl in Hn; [lia|].
  destruct (IH w) as (a & b & -> & <-); [lia|]. by exists (String c a), b.
Qed.

(** ** What a match consumes *)

Definition consumes (w : string) (st st' : mstate) : Prop :=
  rest st = w +:+ rest st' ∧ pre st' = String.rev w +:+ pre st.

Lemma consumes_app w1 w2 st st1 st2 :
  consumes w1 st st1 → consumes w2 st1 st2 → consumes (w1 +:+ w2) st st2.
Proof.
  intros [H1 H2] [H3 H4]. split.
  - by rewrite H1, H3, app_assoc_str.
  - by rewrite H4, H2, rev_app_str, app_assoc_str.
Qed.

Lemma elem_of_Cls p st st' :
  st' ∈ run (Cls p) st ↔
  ∃ c, p c = true ∧ consumes (String c "") st st' ∧ cap st' = cap st.
Proof.
  simpl. unfold consumes. destruct st as [u s k], st' as [u' s' k']. simpl. split.
  - destruct s as [|c s]; [by intros ?%not_elem_of_nil|].
    destruct (p c) eqn:E; [|by intros ?%not_elem_of_nil].
    intros H%list_elem_of_singleton. injection H as -> -> ->. by exists c.
  - intros (c & Hc & [-> ->] & ->). rewrite app_cons_str. simpl. rewrite Hc.
    by apply list_elem_of_singleton.
Qed.

Lemma elem_of_Seq a b st st' :
  st' ∈ run (Seq a b) st ↔ ∃ st1, st1 ∈ run a st ∧ st' ∈ run b st1.
Proof. simpl. rewrite list_elem_of_bind. naive_solver. Qed.

Lemma elem_of_Alt a b st st' :
  st' ∈ run (Alt a b) st ↔ st' ∈ run a st ∨ st' ∈ run b st.
Proof. apply elem_of_app. Qed.

Lemma elem_of_Bol st st' : st' ∈ run Bol st ↔ st' = st ∧ pre st = "".
Proof.
  simpl. case_decide; [rewrite list_elem_of_singleton|rewrite elem_of_nil]; naive_solver.
Qed.

Lemma elem_of_Eol st st' : st' ∈ run Eol st ↔ st' = st ∧ rest st = "".
Proof.
  simpl. case_decide; [rewrite list_elem_of_singleton|rewrite elem_of_nil]; naive_solver.
Qed.

Lemma elem_of_lit s st st' :
  st' ∈ run (lit s) st ↔ consumes s st st' ∧ cap st' = cap st.
Proof.
  revert st. induction s as [|c s IH]; intros st.
  - simpl. rewrite list_elem_of_singleton. unfold consumes.
    destruct st as [u t k], st' as [u' t' k']. simpl. rewrite !app_nil_l_str. naive_solver.
  - cbn [lit]. rewrite elem_of_Seq. setoid_rewrite IH. setoid_rewrite elem_of_Cls. split.
    + intros (st1 & (b & Hb%Ascii.eqb_eq & H1 & Hc1) & H2 & Hc2). subst b.
      split; [|congruence]. exact (consumes_app _ _ _ _ _ H1 H2).
    + intros ([H1 H2] & Hc).
      exists (mkState (String c (pre st)) (s +:+ rest st') (cap st)).
      rewrite rev_cons_str, app_assoc_str in H2.
      split; [exists c; rewrite Ascii.eqb_refl; done|]. done.
Qed.

(** Exactly [n] bytes of a class. *)
Lemma elem_of_exactly p n st st' :
  st' ∈ exactly (run (Cls p)) n st ↔
  ∃ w, String.length w = n ∧ all_bytes p w = true ∧ consumes w st st' ∧ cap st' = cap st.
Proof.
  revert st. induction n as [|n IH]; intros st; cbn [exactly].
  - rewrite list_elem_of_singleton. split.
    + intros ->. by exists "".
    + intros (w & ->%length_zero_str & _ & [H1 H2] & Hc).
      destruct st as [u t k], st' as [u' t' k']. simpl in *.
      rewrite app_nil_l_str in *. by subst.
  - rewrite list_elem_of_bind. setoid_rewrite IH. setoid_rewrite elem_of_Cls. split.
    + intros (st1 & (w & Hl & Hw & H2 & Hc2) & c & Hp & H1 & Hc1).
      exists (String c w). simpl. rewrite Hl, Hp, Hw. split; [done|]. split; [done|].
      split; [|congruence]. exact (consumes_app _ _ _ _ _ H1 H2).
    + intros (w & Hl & Hw & [H1 H2] & Hc). destruct w as [|c w]; [done|].
      simpl in *. breflect. rewrite rev_cons_str, app_assoc_str in H2.
      exists (mkState (String c (pre st)) (w +:+ rest st') (cap st)).
      split; [exists w; unfold consumes; auto|]. by exists c.
Qed.

Lemma elem_of_upto p n st st' :
  st' ∈ upto (run (Cls p)) n st ↔
  ∃ w, String.length w ≤ n ∧ all_bytes p w = true ∧ consumes w st st' ∧ cap st' = cap st.
Proof.
  revert st. induction n as [|n IH]; intros st; cbn [upto].
  - rewrite list_elem_of_singleton. split.
    + intros ->. by exists "".
    + intros (w & Hl & _ & [H1 H2] & Hc). destruct w; [|simpl in Hl; lia].
      destruct st as [u t k], st' as [u' t' k']. simpl in *.
      rewrite app_nil_l_str in *. by subst.
  - rewrite elem_of_app, list_elem_of_bind, list_elem_of_singleton.
    setoid_rewrite IH. setoid_rewrite elem_of_Cls. split.
    + intros [(st1 & (w & Hl & Hw & H2 & Hc2) & c & Hp & H1 & Hc1)| ->].
      * exists (String c w). simpl. rewrite Hp, Hw. split; [lia|]. split; [done|].
        split; [|congruence]. exact (consumes_app _ _ _ _ _ H1 H2).
      * exists "". split; [simpl; lia|done].
    + intros (w & Hl & Hw & [H1 H2] & Hc). destruct w as [|c w].
      { right. destruct st as [u t k], st' as [u' t' k']. simpl in *.
        rewrite app_nil_l_str in *. by subst. }
      left. simpl in *. breflect. rewrite rev_cons_str, app_assoc_str in H2.
      exists (mkState (String c (pre st)) (w +:+ rest st') (cap st)).
      split; [exists w; unfold consumes; auto with lia|]. by exists c.
Qed.

Lemma captured_consumes w st st' : consumes w st st' → captured st st' = w.
Proof.
  intros [H _]. unfold captured. rewrite H, length_app_str.
  replace (String.length w + String.length (rest st') - String.length (rest st'))
    with (String.length w) by lia.
  clear H. induction w as [|c w IH]; [by destruct (rest st')|]. simpl. by rewrite IH.
Qed.

Lemma elem_of_Grp a st st' :
  st' ∈ run (Grp a) st ↔
  ∃ st1, st1 ∈ run a st ∧ pre st' = pre st1 ∧ rest st' = rest st1 ∧
         cap st' = Some (captured st st1).
Proof.
  simpl. rewrite list_elem_of_fmap. destruct st' as [u s k]. simpl. split.
  - intros (st1 & [= -> -> ->] & H). eauto.
  - intros (st1 & H & -> & -> & ->). eauto.
Qed.

(** The search finds a match exactly when some offset has one, and reports one. *)
Lemma find_from_Some r p s st :
  find_from r p s = Some st →
  ∃ u t, s = u +:+ t ∧ st ∈ run r (mkState (String.rev u +:+ p) t None).
Proof.
  revert p. induction s as [|c s IH]; intros p; simpl.
  - destruct (run r _) as [|st' l] eqn:E; [done|]. intros [= ->]. exists "", "".
    split; [done|]. rewrite app_nil_l_str. rewrite E. by left.
  - destruct (run r _) as [|st' l] eqn:E.
    + intros H. destruct (IH _ H) as (u & t & -> & Hin). exists (String c u), t.
      split; [done|]. by rewrite rev_cons_str, app_assoc_str.
    + intros [= ->]. exists "", (String c s). split; [done|].
      rewrite app_nil_l_str, E. by left.
Qed.

Lemma find_from_None r p s u t st :
  find_from r p s = None → s = u +:+ t →
  st ∉ run r (mkState (String.rev u +:+ p) t None).
Proof.
  revert p u. induction s as [|c s IH]; intros p u; simpl.
  - destruct (run r _) as [|st' l] eqn:E; [|done]. intros _ H.
    destruct (app_eq_nil_str u t) as [-> ->]; [done|].
    rewrite app_nil_l_str, E. apply not_elem_of_nil.
  - destruct (run r _) as [|st' l] eqn:E; [|done]. intros H Heq.
    destruct u as [|c' u].
    + rewrite app_nil_l_str in Heq |- *. subst t. rewrite E. apply not_elem_of_nil.
    + rewrite app_cons_str in Heq. injection Heq as -> Heq.
      rewrite rev_cons_str, app_assoc_str. by apply IH.
Qed.

(** ** Languages of expressions without anchors and groups *)

Definition denotes (r : re) (L : string → Prop) : Prop :=
  ∀ st st', st' ∈ run r st ↔ ∃ w, L w ∧ consumes w st st' ∧ cap st' = cap st.

Lemma denotes_lit s : denotes (lit s) (λ w, w = s).
Proof.
  intros st st'. rewrite elem_of_lit. split; [by exists s|].
  by intros (w & -> & ?).
Qed.

Lemma consumes_split a b st st' :
  consumes (a +:+ b) st st' →
  consumes a st (mkState (String.rev a +:+ pre st) (b +:+ rest st') (cap st)) ∧
  consumes b (mkState (String.rev a +:+ pre st) (b +:+ rest st') (cap st)) st'.
Proof.
  intros [H1 H2]. unfold consumes. simpl.
  rewrite H1, H2, rev_app_str, !app_assoc_str. done.
Qed.

Lemma denotes_Seq r1 r2 L1 L2 :
  denotes r1 L1 → denotes r2 L2 →
  denotes (Seq r1 r2) (λ w, ∃ a b, w = a +:+ b ∧ L1 a ∧ L2 b).
Proof.
  intros H1 H2 st st'. rewrite elem_of_Seq. split.
  - intros (st1 & (a & La & Ca & Ka)%H1 & (b & Lb & Cb & Kb)%H2).
    exists (a +:+ b). split; [by exists a, b|]. split; [by eapply consumes_app|congruence].
  - intros (w & (a & b & -> & La & Lb) & C & K).
    apply consumes_split in C as [Ca Cb].
    eexists. split; [apply H1; by exists a|apply H2; by exists b].
Qed.

Lemma denotes_Alt r1 r2 L1 L2 :
  denotes r1 L1 → denotes r2 L2 → denotes (Alt r1 r2) (λ w, L1 w ∨ L2 w).
Proof.
  intros H1 H2 st st'. rewrite elem_of_Alt, (H1 _ _), (H2 _ _). split.
  - intros [(w & ? & ? & ?)|(w & ? & ? & ?)]; exists w; auto.
  - intros (w & [?|?] & ? & ?); [left|right]; exists w; auto.
Qed.

Lemma denotes_ext r L L' : denotes r L → (∀ w, L w ↔ L' w) → denotes r L'.
Proof.
  intros H HL st st'. rewrite (H st st'). by setoid_rewrite HL.
Qed.

Lemma consumes_nil st st' : consumes "" st st' ∧ cap st' = cap st ↔ st' = st.
Proof.
  unfold consumes. destruct st as [u t k], st' as [u' t' k']. simpl.
  rewrite !app_nil_l_str. split; [intros ([-> ->] & ->)|intros [= -> -> ->]]; auto.
Qed.

Lemma denotes_opt r L : denotes r L → denotes (opt r) (λ w, L w ∨ w = "").
Proof.
  intros H st st'. unfold opt. cbn [run exactly upto].
  assert (∀ x, x ∈ ([st] ≫= λ st, (run r st ≫= λ y, [y]) ++ [st]) ↔
               x ∈ run r st ∨ x = st) as ->.
  { intros x. simpl. rewrite app_nil_r, elem_of_app, list_elem_of_bind, list_elem_of_singleton.
    setoid_rewrite list_elem_of_singleton. split.
    - intros [(y & -> & ?)| ?]; auto.
    - intros [?| ?]; [left; eauto|auto]. }
  rewrite (H st st'), <-consumes_nil. split.
  - intros [(w & ? & ?)|?]; [exists w|exists ""]; auto.
  - intros (w & [?| ->] & ?); [left; exists w|]; auto.
Qed.

Lemma denotes_Rep p n m :
  denotes (Rep (Cls p) n m)
    (λ w, all_bytes p w = true ∧ n ≤ String.length w ≤ n + m).
Proof.
  intros st st'. cbn [run]. rewrite list_elem_of_bind.
  setoid_rewrite elem_of_exactly. setoid_rewrite elem_of_upto. split.
  - intros (st1 & (b & Lb & Pb & Cb & Kb) & a & La & Pa & Ca & Ka).
    exists (a +:+ b). rewrite all_bytes_app, length_app_str, Pa, Pb.
    split; [split; [done|lia]|]. split; [by eapply consumes_app|congruence].
  - intros (w & (Pw & Lw) & C & K).
    destruct (split_at_str n w) as (a & b & -> & La); [lia|].
    rewrite all_bytes_app, length_app_str in *. breflect.
    apply consumes_split in C as [Ca Cb].
    match type of Ca with consumes _ _ ?st1 => exists st1 end.
    split; [exists b|exists a]; (split; [lia|]); auto.
Qed.

(** Byte by byte. *)
Fixpoint shaped (l : list (ascii → bool)) (w : string) : bool :=
  match l, w with
  | [], "" => true
  | p :: l, String c w => p c && shaped l w
  | _, _ => false
  end.

Lemma shaped_app l1 l2 w :
  shaped (l1 ++ l2) w = true ↔
  ∃ a b, w = a +:+ b ∧ shaped l1 a = true ∧ shaped l2 b = true.
Proof.
  revert w. induction l1 as [|p l1 IH]; intros w; simpl.
  - split; [intros H; by exists "", w|]. by intros ([|? ?] & b & -> & ? & ?).
  - destruct w as [|c w].
    + split; [done|]. intros ([|? ?] & b & ? & ? & ?); done.
    + rewrite andb_true_iff, IH. split.
      * intros (Hc & a & b & -> & Ha & Hb). exists (String c a), b.
        rewrite Hc, Ha. done.
      * intros ([|c' a] & b & Heq & Ha & Hb); [done|].
        rewrite app_cons_str in Heq. injection Heq as -> ->. breflect. eauto 10.
Qed.

Lemma shaped_replicate n p w :
  shaped (replicate n p) w = true ↔ all_bytes p w = true ∧ String.length w = n.
Proof.
  revert w. induction n as [|n IH]; intros [|c w]; simpl.
  - done.
  - split; [done|by intros [_ ?]].
  - split; [done|by intros [_ ?]].
  - rewrite !andb_true_iff, IH. split; [intros (?&?&?)|intros ((?&?)&?)]; auto.
Qed.

Lemma shaped_length l w : shaped l w = true → String.length w = length l.
Proof.
  revert w. induction l as [|p l IH]; intros [|c w]; simpl; try done.
  intros H. breflect. f_equal. auto.
Qed.

Lemma denotes_shape_Cls p : denotes (Cls p) (λ w, shaped [p] w = true).
Proof.
  intros st st'. rewrite elem_of_Cls. split.
  - intros (c & Hc & ?). exists (String c ""). simpl. by rewrite Hc.
  - intros ([|c [|]] & Hw & ?); simpl in Hw; breflect; try done. by exists c.
Qed.

Lemma denotes_shape_Rep p n :
  denotes (Rep (Cls p) n 0) (λ w, shaped (replicate n p) w = true).
Proof.
  eapply denotes_ext; [apply denotes_Rep|]. intros w.
  rewrite shaped_replicate. intuition lia.
Qed.

Lemma denotes_shape_Seq r1 r2 l1 l2 :
  denotes r1 (λ w, shaped l1 w = true) → denotes r2 (λ w, shaped l2 w = true) →
  denotes (Seq r1 r2) (λ w, shaped (l1 ++ l2) w = true).
Proof.
  intros H1 H2. eapply denotes_ext; [by apply denotes_Seq|].
  intros w. by rewrite shaped_app.
Qed.

End regexp.
