(* ===== verification/Os.v ===== *)
(** * What the agent asks of the operating system

    The system calls of the agent that return data, as a signature of effects
    (see [Effects]).  Paths are the ones the code builds. *)

From S2P Require Import Prelude GoStrings Effects.

Module os.

(** Why a file could not be read, as far as the code can tell. *)
Inductive errno := ENOENT | EOther (msg : string).

Definition errno_text (e : errno) : error :=
  match e with ENOENT => "no such file or directory" | EOther m => m end.

Inductive call :=
| ReadFile (path : string)           (** [os.ReadFile] *)
| Readlink (path : string)           (** [os.Readlink] *)
| Stat (path : string)               (** [os.Stat]; answers whether it is a directory *)
| Getenv (name : string)             (** [os.Getenv]; the empty string when unset *)
| NameToHandleAt (path : string)     (** [unix.NameToHandleAt]; the bytes of the handle *)
| StatIno (path : string).           (** [syscall.Stat]; the inode number *)

Definition answer (c : call) : Type :=
  match c with
  | ReadFile _ => result string errno
  | Readlink _ => result string errno
  | Stat _ => result bool errno
  | Getenv _ => string
  | NameToHandleAt _ => result (list ascii) errno
  | StatIno _ => result Z errno
  end.

Definition OS : sig := Sig call answer.

Definition readFile (path : string) : prog OS (result string errno) :=
  Effects.call (Σ:=OS) (ReadFile path).
Definition readlink (path : string) : prog OS (result string errno) :=
  Effects.call (Σ:=OS) (Readlink path).
Definition stat (path : string) : prog OS (result bool errno) :=
  Effects.call (Σ:=OS) (Stat path).
Definition getenv (name : string) : prog OS string :=
  Effects.call (Σ:=OS) (Getenv name).
Definition nameToHandleAt (path : string) : prog OS (result (list ascii) errno) :=
  Effects.call (Σ:=OS) (NameToHandleAt path).
Definition statIno (path : string) : prog OS (result Z errno) :=
  Effects.call (Σ:=OS) (StatIno path).

(** ** A world that does not change while it is read

    Files by path, symbolic links, directories, the environment, file handles
    and inode numbers; what is missing is absent. *)
Record world := mkWorld {
  w_files : gmap string string;
  w_links : gmap string string;
  w_dirs : gset string;
  w_env : gmap string string;
  w_handles : gmap string (list ascii);
  w_inodes : gmap string Z;
}.

Definition found {A} (o : option A) : result A errno :=
  match o with Some a => Ok a | None => Err ENOENT end.

Definition serve : handler OS world := λ c w,
  match c return answer c * world with
  | ReadFile p => (found (w_files w !! p), w)
  | Readlink p => (found (w_links w !! p), w)
  | Stat p =>
      (if decide (p ∈ w_dirs w) then Ok true
       else match w_files w !! p with Some _ => Ok false | None => Err ENOENT end, w)
  | Getenv n => (default "" (w_env w !! n), w)
  | NameToHandleAt p => (found (w_handles w !! p), w)
  | StatIno p => (found (w_inodes w !! p), w)
  end.

Lemma serve_pure c w : (serve c w).2 = w.
Proof. by destruct c. Qed.

(** Reading never changes such a world. *)
Lemma exec_serve_pure {A} (p : prog OS A) w : (exec serve p w).2 = w.
Proof.
  induction p as [a|o k IH]; simpl; [done|].
  pose proof (serve_pure o w). destruct (serve o w) as [x w']. simpl in *. subst. auto.
Qed.

(** The value a program computes in a fixed world. *)
Definition eval {A} (p : prog OS A) (w : world) : A := (exec serve p w).1.

Lemma eval_bind {A B} (p : prog OS A) (f : A → prog OS B) w :
  eval (bind p f) w = eval (f (eval p w)) w.
Proof.
  unfold eval. rewrite exec_bind. pose proof (exec_serve_pure p w).
  destruct (exec serve p w) as [a w']. simpl in *. by subst.
Qed.

End os.

(** ** Contexts

    A context of Go's [context] package, as far as it decides how long a call may
    block.  The program calls one cancel function, that of the pod watch. *)
Module context.

Inductive t :=
| Background
| WithCancel (parent : t)
| WithTimeout (parent : t) (d : Z).

(** Its cancel function, or that of a context it derives from, was called. *)
Fixpoint cancelled (called : bool) (c : t) : bool :=
  match c with
  | Background => false
  | WithCancel p => called || cancelled called p
  | WithTimeout p _ => cancelled called p
  end.

(** It ends, now or when its timer fires, with no help from outside. *)
Fixpoint ends (called : bool) (c : t) : bool :=
  match c with
  | Background => false
  | WithCancel p => called || ends called p
  | WithTimeout _ _ => true
  end.

End context.
