(* ===== verification/Kube.v ===== *)
(** * Package kube: the node's pod cache ([src/internal/kube/pods.go])

    The watcher keeps a map from pod UID to the part of a pod that bindings
    select on.  It is filled by a list of the pods of the node and kept current
    by watch events.  The API server is the environment: a response is the
    sequence of JSON values its body holds and how it ends; decoding those
    values into the program's structs follows Go's encoding/json; [Json] has the
    text of JSON and [Api] the requests.  The specification of the cache is what
    the API server's own sequence of changes says about a pod. *)

From S2P Require Import Prelude GoStrings Effects Os.

Module kube.

Local Open Scope prog_scope.

(** ** Configuration *)

Definition serviceAccountDir : string := "/var/run/secrets/kubernetes.io/serviceaccount".
Definition tokenFile : string := serviceAccountDir +:+ "/token".
Definition caFile : string := serviceAccountDir +:+ "/ca.crt".
Definition watchTimeout : Z := 300. (* seconds *)

Record Config := mkConfig {
  Server : string;
  NodeName : string;
  Token : string;
  CACertPath : string;
  InsecureSkipVerify : bool;
}.

Definition InCluster : prog os.OS bool :=
  host <- os.getenv "KUBERNETES_SERVICE_HOST" ;;
  if decide (host = "") then Ret false
  else
    st <- os.stat tokenFile ;;
    Ret (match st with Ok _ => true | Err _ => false end).

(** [net.JoinHostPort] *)
Definition JoinHostPort (host port : string) : string :=
  if existsb (Ascii.eqb ":") (String.list_ascii_of_string host)
  then "[" +:+ host +:+ "]:" +:+ port
  else host +:+ ":" +:+ port.

(** [newTransport]: the CA bundle is read and must hold a certificate
    ([x509.CertPool.AppendCertsFromPEM], an argument here) unless verification
    is disabled.  [true] is a transport that verifies. *)
Definition newTransport (AppendCertsFromPEM : string → bool) (cfg : Config)
    : prog os.OS (result bool error) :=
  if InsecureSkipVerify cfg then Ret (Ok false)
  else
    let path := if decide (CACertPath cfg = "") then caFile else CACertPath cfg in
    pem <- os.readFile path ;;
    Ret (match pem with
         | Err e => Err ("reading API server CA " +:+ path +:+ ": " +:+ os.errno_text e)
         | Ok pem =>
             if AppendCertsFromPEM pem then Ok true
             else Err ("no certificates found in " +:+ path)
         end).

(** [bearer]: a configured token, or the service account's, read every time. *)
Definition bearer (cfg : Config) : prog os.OS (result string error) :=
  if decide (Token cfg ≠ "") then Ret (Ok (Token cfg))
  else
    data <- os.readFile tokenFile ;;
    Ret (match data with
         | Err e => Err ("reading service account token: " +:+ os.errno_text e)
         | Ok data => Ok (strings.TrimSpace data)
         end).

(** *** Request URLs *)

Definition unreserved (c : ascii) : bool :=
  ((48 <=? code c) && (code c <=? 57) || (65 <=? code c) && (code c <=? 90)
   || (97 <=? code c) && (code c <=? 122))%N
  || bool_decide (c ∈ ["-"; "_"; "."; "~"]%char).

Definition upper_hex (n : N) : ascii := byte (if (n <? 10)%N then 48 + n else 55 + n).

(** [url.QueryEscape] *)
Fixpoint QueryEscape (s : string) : string :=
  match s with
  | "" => ""
  | String c s =>
      (if unreserved c then String c ""
       else if Ascii.eqb c " " then "+"
       else String "%" (String (upper_hex (code c / 16)) (String (upper_hex (code c mod 16)) "")))
      +:+ QueryEscape s
  end.

(** [url.Values.Encode] of single-valued parameters, sorted by key. *)
Definition Encode (q : gmap string string) : string :=
  strings.Join
    ((λ k, QueryEscape k +:+ "=" +:+ QueryEscape (default "" (q !! k)))
       <$> sort.Strings (map_to_list q).*1) "&".

Definition query (cfg : Config) (watch : bool) (resourceVersion : string)
    : gmap string string :=
  let q := {[ "fieldSelector" := "spec.nodeName=" +:+ NodeName cfg ]} in
  if watch then
    let q := <["timeoutSeconds" := fmt.d watchTimeout]>
               (<["allowWatchBookmarks" := "true"]> (<["watch" := "true"]> q)) in
    if decide (resourceVersion ≠ "") then <["resourceVersion" := resourceVersion]> q else q
  else q.

Definition podsURL (cfg : Config) (watch : bool) (resourceVersion : string) : string :=
  strings.TrimSuffix (Server cfg) "/" +:+ "/api/v1/pods?"
  +:+ Encode (query cfg watch resourceVersion).

(** ** Data *)

Record Pod := mkPod {
  pod_UID : string;
  pod_Name : string;
  pod_Namespace : string;
  pod_Labels : gmap string string;
  (** runtime container id to container name *)
  pod_Containers : gmap string string;
}.

Record containerStatus := mkStatus {
  cs_Name : string;
  cs_ContainerID : string;
}.

Record podObject := mkObject {
  obj_UID : string;
  obj_Name : string;
  obj_Namespace : string;
  obj_Labels : gmap string string;
  obj_ResourceVersion : string;
  obj_ContainerStatuses : list containerStatus;
  obj_InitContainerStatuses : list containerStatus;
  obj_EphemeralContainerStatuses : list containerStatus;
}.

Record podList := mkList {
  list_ResourceVersion : string;
  list_Items : list podObject;
}.

Record watchEvent := mkEvent {
  ev_Type : string;
  ev_Object : podObject;
}.

(** The watcher's mutable state (the fields its mutex guards). *)
Record Watcher := mkWatcher {
  byUID : gmap string Pod;
  synced : bool;
}.

(** ** Objects to pods *)

Definition stripRuntimePrefix (id : string) : string :=
  match strings.Index id "://" with
  | Some i => strings.ToLower (drop_str (i + 3) id)
  | None => strings.ToLower id
  end.

(** One turn of the loop over the container statuses. *)
Definition add_container (m : gmap string string) (cs : containerStatus)
    : gmap string string :=
  let id := stripRuntimePrefix (cs_ContainerID cs) in
  if decide (id = "" ∨ cs_Name cs = "") then m
  else <[id := cs_Name cs]> m.

Definition all_statuses (p : podObject) : list containerStatus :=
  obj_ContainerStatuses p ++ obj_InitContainerStatuses p
  ++ obj_EphemeralContainerStatuses p.

Definition toPod (p : podObject) : Pod := {|
  pod_UID := obj_UID p;
  pod_Name := obj_Name p;
  pod_Namespace := obj_Namespace p;
  pod_Labels := obj_Labels p;
  pod_Containers := foldl add_container ∅ (all_statuses p);
|}.

(** ** The cache *)

Definition empty_watcher : Watcher := {| byUID := ∅; synced := false |}.

(** [NewWatcher]: the completed configuration, whether its transport verifies
    the server, and an empty cache. *)
Definition NewWatcher (AppendCertsFromPEM : string → bool) (cfg : Config)
    : prog os.OS (result (Config * bool * Watcher) error) :=
  if decide (NodeName cfg = "") then
    Ret (Err "node name is required; set NODE_NAME from spec.nodeName")
  else
    server <- (if decide (Server cfg = "") then
                 host <- os.getenv "KUBERNETES_SERVICE_HOST" ;;
                 port <- os.getenv "KUBERNETES_SERVICE_PORT" ;;
                 Ret (if decide (host = "")
                      then Err "KUBERNETES_SERVICE_HOST is not set; not running in a cluster"
                      else Ok ("https://" +:+ JoinHostPort host
                                 (if decide (port = "") then "443" else port)))
               else Ret (Ok (Server cfg))) ;;
    match server with
    | Err e => Ret (Err e)
    | Ok server =>
        let cfg := mkConfig server (NodeName cfg) (Token cfg) (CACertPath cfg)
                     (InsecureSkipVerify cfg) in
        transport <- newTransport AppendCertsFromPEM cfg ;;
        Ret (match transport with
             | Err e => Err e
             | Ok verifies => Ok (cfg, verifies, empty_watcher)
             end)
    end.

Definition Lookup (w : Watcher) (uid : string) : option Pod := byUID w !! uid.

Definition HasSynced (w : Watcher) : bool := synced w.

Definition Len (w : Watcher) : nat := size (byUID w).

Definition put (w : Watcher) (p : Pod) : Watcher :=
  {| byUID := <[pod_UID p := p]> (byUID w); synced := synced w |}.

Definition delete (w : Watcher) (uid : string) : Watcher :=
  if decide (uid = "") then w
  else {| byUID := base.delete uid (byUID w); synced := synced w |}.

Definition add_item (m : gmap string Pod) (item : podObject) : gmap string Pod :=
  if decide (obj_UID item = "") then m
  else <[obj_UID item := toPod item]> m.

(** ** Decoding

    A JSON value as Go's decoder sees it, and its decoding into the structs:
    a field is found by its name without regard to ASCII case, unknown fields
    are skipped, null leaves a field alone, and a value of the wrong kind makes
    the whole [Decode] an error ([None]). *)

Inductive json :=
| JNull
| JBool (b : bool)
| JNum (text : string)
| JStr (s : string)
| JArr (l : list json)
| JObj (l : list (string * json)).

(** The two letters outside ASCII that fold to one inside it: the long s (U+017F)
    and the Kelvin sign (U+212A). *)
Fixpoint fold_name (s : string) : string :=
  match s with
  | String a r =>
      match r with
      | String b r2 =>
          if (code a =? 197)%N && (code b =? 191)%N then String "s" (fold_name r2)
          else match r2 with
               | String c r3 =>
                   if (code a =? 226)%N && (code b =? 132)%N && (code c =? 170)%N
                   then String "k" (fold_name r3) else String a (fold_name r)
               | "" => String a (fold_name r)
               end
      | "" => s
      end
  | "" => ""
  end.

(** A key names a field, in [encoding/json], when they are equal up to case. *)
Definition same_field (k name : string) : bool :=
  bool_decide (strings.ToLower (fold_name k) = strings.ToLower name).

Definition dec_string (old : string) (j : json) : option string :=
  match j with JStr s => Some s | JNull => Some old | _ => None end.

Definition dec_struct {S} (set : S → string → json → option S) (old : S) (j : json)
    : option S :=
  match j with
  | JNull => Some old
  | JObj l => foldl (λ acc kv, s ← acc; set s kv.1 kv.2) (Some old) l
  | _ => None
  end.

Definition dec_slice {A} (dec : json → option A) (j : json) : option (list A) :=
  match j with JNull => Some [] | JArr l => mapM dec l | _ => None end.

Definition dec_labels (old : gmap string string) (j : json) : option (gmap string string) :=
  match j with
  | JNull => Some ∅
  | JObj l =>
      foldl (λ acc kv, m ← acc; v ← dec_string "" kv.2; Some (<[kv.1 := v]> m)) (Some old) l
  | _ => None
  end.

Definition set_status_entry (cs : containerStatus) (k : string) (j : json)
    : option containerStatus :=
  if same_field k "name" then
    n ← dec_string (cs_Name cs) j; Some (mkStatus n (cs_ContainerID cs))
  else if same_field k "containerID" then
    i ← dec_string (cs_ContainerID cs) j; Some (mkStatus (cs_Name cs) i)
  else Some cs.

Definition dec_statuses (j : json) : option (list containerStatus) :=
  dec_slice (dec_struct set_status_entry (mkStatus "" "")) j.

Definition set_metadata (o : podObject) (k : string) (j : json) : option podObject :=
  let 'mkObject u n ns l rv a b c := o in
  if same_field k "uid" then u ← dec_string u j; Some (mkObject u n ns l rv a b c)
  else if same_field k "name" then n ← dec_string n j; Some (mkObject u n ns l rv a b c)
  else if same_field k "namespace" then ns ← dec_string ns j; Some (mkObject u n ns l rv a b c)
  else if same_field k "labels" then l ← dec_labels l j; Some (mkObject u n ns l rv a b c)
  else if same_field k "resourceVersion" then
    rv ← dec_string rv j; Some (mkObject u n ns l rv a b c)
  else Some o.

Definition set_status (o : podObject) (k : string) (j : json) : option podObject :=
  let 'mkObject u n ns l rv a b c := o in
  if same_field k "containerStatuses" then
    a ← dec_statuses j; Some (mkObject u n ns l rv a b c)
  else if same_field k "initContainerStatuses" then
    b ← dec_statuses j; Some (mkObject u n ns l rv a b c)
  else if same_field k "ephemeralContainerStatuses" then
    c ← dec_statuses j; Some (mkObject u n ns l rv a b c)
  else Some o.

Definition set_object (o : podObject) (k : string) (j : json) : option podObject :=
  if same_field k "metadata" then dec_struct set_metadata o j
  else if same_field k "status" then dec_struct set_status o j
  else Some o.

Definition zero_object : podObject := mkObject "" "" "" ∅ "" [] [] [].

Definition set_event (e : watchEvent) (k : string) (j : json) : option watchEvent :=
  if same_field k "type" then
    t ← dec_string (ev_Type e) j; Some (mkEvent t (ev_Object e))
  else if same_field k "object" then
    o ← dec_struct set_object (ev_Object e) j; Some (mkEvent (ev_Type e) o)
  else Some e.

Definition dec_event (j : json) : option watchEvent :=
  dec_struct set_event (mkEvent "" zero_object) j.

Definition set_list_metadata (rv : string) (k : string) (j : json) : option string :=
  if same_field k "resourceVersion" then dec_string rv j else Some rv.

Definition set_list (l : podList) (k : string) (j : json) : option podList :=
  if same_field k "metadata" then
    rv ← dec_struct set_list_metadata (list_ResourceVersion l) j;
    Some (mkList rv (list_Items l))
  else if same_field k "items" then
    items ← dec_slice (dec_struct set_object zero_object) j;
    Some (mkList (list_ResourceVersion l) items)
  else Some l.

Definition dec_list (j : json) : option podList :=
  dec_struct set_list (mkList "" []) j.

(** ** Talking to the API server *)

Inductive werr :=
| APIError (code : Z)          (** [*apiError]: a status other than 200 *)
| WatchExpired                 (** [*watchExpired]: an ERROR event *)
| DecodeError                  (** a JSON value that does not decode *)
| OtherError.                  (** transport, token or request construction *)

Definition isExpired (e : werr) : bool :=
  match e with
  | WatchExpired => true
  | APIError code => (code =? 410)%Z
  | DecodeError | OtherError => false
  end.

(** [do]'s outcome: an error, or the JSON values of a body with status 200. *)

(** [list] on the response to its request. *)
Definition list_pods (w : Watcher) (resp : result json werr) : Watcher * result string werr :=
  match resp with
  | Err e => (w, Err e)
  | Ok j =>
      match dec_list j with
      | None => (w, Err DecodeError)
      | Some l =>
          ({| byUID := foldl add_item ∅ (list_Items l); synced := synced w |},
           Ok (list_ResourceVersion l))
      end
  end.

(** [Start], up to the spawning of the watch loop, which gets the returned
    resource version. *)
Definition Start (w : Watcher) (resp : result json werr) : Watcher * result string werr :=
  match list_pods w resp with
  | (w', Err e) => (w', Err e)
  | (w', Ok rv) => ({| byUID := byUID w'; synced := true |}, Ok rv)
  end.

(** How the body of a watch response ends after its last JSON value: closed by
    the server (also in the middle of a value), or with text that is not JSON
    or an error of the connection. *)
Inductive stream_end := EOF | UnexpectedEOF | ReadError.

Record watch_body := mkBody {
  body_values : list json;
  body_end : stream_end;
}.

(** The effect of one event's [switch] on the cache; [None] for ERROR. *)
Definition apply_event (w : Watcher) (ev : watchEvent) : option Watcher :=
  let o := ev_Object ev in
  if decide (ev_Type ev = "ADDED" ∨ ev_Type ev = "MODIFIED") then
    Some (if decide (obj_UID o = "") then w else put w (toPod o))
  else if decide (ev_Type ev = "DELETED") then Some (delete w (obj_UID o))
  else if decide (ev_Type ev = "BOOKMARK") then Some w
  else if decide (ev_Type ev = "ERROR") then None
  else Some w.

Definition next_rv (rv : string) (ev : watchEvent) : string :=
  let n := obj_ResourceVersion (ev_Object ev) in
  if decide (n = "") then rv else n.

(** The decoding loop of [watchOnce]. *)
Fixpoint watch_events (w : Watcher) (rv : string) (vals : list json)
    (fin : stream_end) : Watcher * string * option werr :=
  match vals with
  | [] =>
      (w, rv, match fin with
              | EOF | UnexpectedEOF => None
              | ReadError => Some DecodeError
              end)
  | v :: vals =>
      match dec_event v with
      | None => (w, rv, Some DecodeError)
      | Some ev =>
          let rv' := next_rv rv ev in
          match apply_event w ev with
          | None => (w, rv', Some WatchExpired)
          | Some w' => watch_events w' rv' vals fin
          end
      end
  end.

(** [watchOnce]: the resource version is returned together with the error. *)
Definition watchOnce (w : Watcher) (rv : string) (resp : result watch_body werr)
    : Watcher * string * option werr :=
  match resp with
  | Err e => (w, rv, Some e)
  | Ok b => watch_events w rv (body_values b) (body_end b)
  end.

(** ** The watch loop

    One turn of the loop consumes what the environment supplies: whether the
    context has ended at each of the three points where it is asked, the watch
    response and, when the turn re-lists, the list response. *)

Definition minBackoff : Z := 1.
Definition maxBackoff : Z := 30.

Record loop_state := mkLoop {
  lp_watcher : Watcher;
  lp_rv : string;
  lp_backoff : Z; (** seconds *)
}.

Record turn := mkTurn {
  t_done_before : bool;
  t_watch : result watch_body werr;
  t_done_after : bool;
  t_done_sleeping : bool;
  t_list : result json werr;
}.

(** What a turn does at its end, for claims about what is requested when. *)
Inductive turn_result :=
| Returned (w : Watcher)
| Continue (relisted : bool) (st : loop_state).

Definition loop_turn (st : loop_state) (t : turn) : turn_result :=
  if t_done_before t then Returned (lp_watcher st) else
  let '(w, next, err) := watchOnce (lp_watcher st) (lp_rv st) (t_watch t) in
  if t_done_after t then Returned w else
  match err with
  | None => Continue false (mkLoop w next minBackoff)
  | Some e =>
      let rv := if isExpired e then "" else lp_rv st in
      if t_done_sleeping t then Returned w else
      let backoff := Z.min (lp_backoff st * 2) maxBackoff in
      if decide (rv = "") then
        match list_pods w (t_list t) with
        | (w', Err _) => Continue false (mkLoop w' rv backoff)
        | (w', Ok rv') => Continue true (mkLoop w' rv' minBackoff)
        end
      else Continue false (mkLoop w rv backoff)
  end.

(** *** The calls a turn makes

    One turn as a program over the calls that can block, each with the context it
    is made in: [ctx.Err() != nil], the watch request with the reading of its
    stream ([watchOnce]), [sleepCtx], the list request. *)
Inductive watch_call :=
| CtxErr (c : context.t)
| Watch (c : context.t) (resourceVersion : string)
| SleepCtx (c : context.t) (d : Z)
| List (c : context.t).

Definition watch_answer (o : watch_call) : Type :=
  match o with
  | CtxErr _ => bool
  | Watch _ _ => result watch_body werr
  | SleepCtx _ _ => bool
  | List _ => result json werr
  end.

Definition WATCH : sig := Sig watch_call watch_answer.

Definition calls (o : watch_call) : prog WATCH (watch_answer o) := Effects.call (Σ:=WATCH) o.

Definition listTimeout : Z := 30. (* seconds *)

(** [relist] *)
Definition relist (ctx : context.t) : prog WATCH (result json werr) :=
  calls (List (context.WithTimeout ctx listTimeout)).

(** The body of [watchLoop]'s loop. *)
Definition watch_turn (ctx : context.t) (st : loop_state) : prog WATCH turn_result :=
  done <- calls (CtxErr ctx) ;;
  if (done : bool) then Ret (Returned (lp_watcher st)) else
  resp <- calls (Watch ctx (lp_rv st)) ;;
  let '(w, next, err) := watchOnce (lp_watcher st) (lp_rv st) resp in
  done <- calls (CtxErr ctx) ;;
  if (done : bool) then Ret (Returned w) else
  match err with
  | None => Ret (Continue false (mkLoop w next minBackoff))
  | Some e =>
      let rv := if isExpired e then "" else lp_rv st in
      slept <- calls (SleepCtx ctx (lp_backoff st)) ;;
      if negb slept then Ret (Returned w) else
      let backoff := Z.min (lp_backoff st * 2) maxBackoff in
      if decide (rv = "") then
        resp <- relist ctx ;;
        match list_pods w resp with
        | (w', Err _) => Ret (Continue false (mkLoop w' rv backoff))
        | (w', Ok rv') => Ret (Continue true (mkLoop w' rv' minBackoff))
        end
      else Ret (Continue false (mkLoop w rv backoff))
  end.

(** The turn computes what [loop_turn] says for the answers it got. *)
Lemma watch_turn_runs ctx st tr r : runs (watch_turn ctx st) tr r → ∃ t, r = loop_turn st t.
Proof.
  unfold watch_turn, relist, loop_turn. intros (d1 & t1 & -> & H). destruct d1; cbn in H.
  { destruct H as [-> ->]. by exists (mkTurn true (Err OtherError) false false (Err OtherError)). }
  destruct H as (resp & t2 & -> & H).
  destruct (watchOnce (lp_watcher st) (lp_rv st) resp) as [[w next] err] eqn:Ew.
  destruct H as (d2 & t3 & -> & H). destruct d2.
  { destruct H as [-> ->]. exists (mkTurn false resp true false (Err OtherError)). cbn. by rewrite Ew. }
  destruct err as [e|].
  2:{ destruct H as [-> ->]. exists (mkTurn false resp false false (Err OtherError)). cbn. by rewrite Ew. }
  destruct H as (slept & t4 & -> & H). destruct slept; cbn in H.
  2:{ destruct H as [-> ->]. exists (mkTurn false resp false true (Err OtherError)). cbn. by rewrite Ew. }
  destruct (decide ((if isExpired e then "" else lp_rv st) = "")) as [E|E].
  - destruct H as (l & t5 & -> & H). exists (mkTurn false resp false false l). cbn. rewrite Ew.
    cbn. rewrite decide_True by done. destruct (list_pods w l) as [w' [rv|?]]; by destruct H.
  - destruct H as [-> ->]. exists (mkTurn false resp false false (Err OtherError)). cbn. rewrite Ew.
    cbn. by rewrite decide_False.
Qed.

Fixpoint watchLoop (st : loop_state) (ts : list turn) : loop_state + Watcher :=
  match ts with
  | [] => inl st
  | t :: ts =>
      match loop_turn st t with
      | Returned w => inr w
      | Continue _ st' => watchLoop st' ts
      end
  end.

(** ** The cache's invariant *)

(** Every entry is filed under its own, non-empty UID. *)
Definition wf (w : Watcher) : Prop :=
  ∀ uid p, byUID w !! uid = Some p → pod_UID p = uid ∧ uid ≠ "".

Lemma wf_empty : wf empty_watcher.
Proof. intros uid p. simpl. by rewrite lookup_empty. Qed.

Lemma wf_put w p : wf w → pod_UID p ≠ "" → wf (put w p).
Proof.
  intros Hw Hp uid q. simpl. rewrite lookup_insert_Some.
  intros [[<- <-]|[_ H]]; [done|by apply Hw].
Qed.

Lemma wf_delete w uid : wf w → wf (delete w uid).
Proof.
  intros Hw. unfold delete. case_decide; [done|]. intros u p. simpl.
  rewrite lookup_delete_Some. intros [_ ?]. by apply Hw.
Qed.

Lemma wf_list l b : wf {| byUID := foldl add_item ∅ l; synced := b |}.
Proof.
  assert (∀ m, (∀ uid p, m !! uid = Some p → pod_UID p = uid ∧ uid ≠ "") →
    ∀ uid p, foldl add_item m l !! uid = Some p → pod_UID p = uid ∧ uid ≠ "") as Hl.
  { induction l as [|o l IH]; intros m Hm; simpl; [done|]. apply IH.
    unfold add_item. case_decide; [done|]. intros uid p.
    rewrite lookup_insert_Some. intros [[<- <-]|[_ ?]]; [done|by apply Hm]. }
  intros uid p. simpl. apply Hl. intros ? ?. by rewrite lookup_empty.
Qed.

Lemma wf_apply_event w ev w' : wf w → apply_event w ev = Some w' → wf w'.
Proof.
  intros Hw. unfold apply_event.
  case_decide; [case_decide; intros [= <-]; [done|by apply wf_put]|].
  case_decide; [intros [= <-]; by apply wf_delete|].
  case_decide; [by intros [= <-]|]. case_decide; [done|]. by intros [= <-].
Qed.

Lemma wf_watch_events w rv vals fin : wf w → wf (watch_events w rv vals fin).1.1.
Proof.
  revert w rv. induction vals as [|v vals IH]; intros w rv Hw; simpl; [done|].
  destruct (dec_event v) as [ev|]; [|done].
  destruct (apply_event w ev) as [w'|] eqn:E; [|done].
  apply IH. by eapply wf_apply_event.
Qed.

Lemma wf_watchOnce w rv resp : wf w → wf (watchOnce w rv resp).1.1.
Proof. destruct resp; simpl; [apply wf_watch_events|done]. Qed.

Lemma wf_list_pods w resp : wf w → wf (list_pods w resp).1.
Proof.
  intros Hw. destruct resp as [j|e]; simpl; [|done].
  destruct (dec_list j); simpl; [apply wf_list|done].
Qed.

(** The watcher a turn leaves behind. *)
Definition watcher_of (r : turn_result) : Watcher :=
  match r with Returned w => w | Continue _ st => lp_watcher st end.

(** What a turn does to the watcher: nothing, a watch, or a watch and a list. *)
Lemma loop_turn_watcher st t :
  watcher_of (loop_turn st t) = lp_watcher st ∨
  watcher_of (loop_turn st t) = (watchOnce (lp_watcher st) (lp_rv st) (t_watch t)).1.1 ∨
  watcher_of (loop_turn st t) =
    (list_pods (watchOnce (lp_watcher st) (lp_rv st) (t_watch t)).1.1 (t_list t)).1.
Proof.
  unfold loop_turn. destruct (t_done_before t); [by left|].
  destruct (watchOnce _ _ _) as [[w next] err]. simpl.
  destruct (t_done_after t); [by right; left|].
  destruct err as [e|]; [|by right; left].
  destruct (t_done_sleeping t); [by right; left|].
  case_decide; [|by right; left]. right; right.
  by destruct (list_pods w (t_list t)) as [w' [rv|e']].
Qed.

Lemma wf_loop_turn st t : wf (lp_watcher st) → wf (watcher_of (loop_turn st t)).
Proof.
  intros Hw. destruct (loop_turn_watcher st t) as [-> |[-> | ->]];
    [done|by apply wf_watchOnce|by apply wf_list_pods, wf_watchOnce].
Qed.

(** ** Sizes and staleness of the loop *)

Lemma synced_watch_events w rv vals fin :
  synced (watch_events w rv vals fin).1.1 = synced w.
Proof.
  revert w rv. induction vals as [|v vals IH]; intros w rv; simpl; [done|].
  destruct (dec_event v) as [ev|]; [|done].
  destruct (apply_event w ev) as [w'|] eqn:E; [|done]. rewrite IH.
  unfold apply_event, delete in E. repeat (case_decide; simplify_eq; try done).
Qed.

Lemma synced_watchOnce w rv resp : synced (watchOnce w rv resp).1.1 = synced w.
Proof. destruct resp; simpl; [apply synced_watch_events|done]. Qed.

Lemma synced_list_pods w resp : synced (list_pods w resp).1 = synced w.
Proof. destruct resp as [j|e]; simpl; [|done]. by destruct (dec_list j). Qed.

Lemma synced_loop_turn st t : synced (watcher_of (loop_turn st t)) = synced (lp_watcher st).
Proof.
  destruct (loop_turn_watcher st t) as [-> |[-> | ->]];
    rewrite ?synced_list_pods, ?synced_watchOnce; done.
Qed.

Definition loop_ok (st : loop_state) : Prop :=
  wf (lp_watcher st) ∧ synced (lp_watcher st) = true ∧
  (minBackoff ≤ lp_backoff st ≤ maxBackoff)%Z.

Lemma loop_ok_turn st t b st' : loop_ok st → loop_turn st t = Continue b st' → loop_ok st'.
Proof.
  intros (Hw & Hs & Hb) E. unfold loop_ok.
  pose proof (wf_loop_turn st t Hw) as Hw'. pose proof (synced_loop_turn st t) as Hs'.
  rewrite E in Hw', Hs'. simpl in Hw', Hs'. rewrite Hs', Hs. split; [done|]. split; [done|].
  unfold loop_turn, minBackoff, maxBackoff in *.
  destruct (t_done_before t); [done|].
  destruct (watchOnce _ _ _) as [[w next] [e|]]; destruct (t_done_after t); try done;
    [|injection E as <- <-; simpl; lia].
  destruct (t_done_sleeping t); [done|]. case_decide.
  - destruct (list_pods w (t_list t)) as [w' [rv|e']]; injection E as <- <-; simpl; lia.
  - injection E as <- <-. simpl. lia.
Qed.

(** The watcher at the end of a sequence of turns, returned or not. *)
Definition outcome (r : loop_state + Watcher) : Watcher :=
  match r with inl st => lp_watcher st | inr w => w end.

Lemma watchLoop_ok st ts :
  loop_ok st →
  wf (outcome (watchLoop st ts)) ∧ synced (outcome (watchLoop st ts)) = true ∧
  match watchLoop st ts with
  | inl st' => (minBackoff ≤ lp_backoff st' ≤ maxBackoff)%Z
  | inr _ => True
  end.
Proof.
  revert st. induction ts as [|t ts IH]; intros st Hst; simpl.
  { destruct Hst as (? & ? & ?). auto. }
  destruct (loop_turn st t) as [w|b st'] eqn:E.
  - destruct Hst as (Hw & Hs & _). pose proof (wf_loop_turn st t Hw).
    pose proof (synced_loop_turn st t). rewrite E in *. simpl in *. split; [done|].
    split; [congruence|done].
  - apply IH. by eapply loop_ok_turn.
Qed.

(** From the first list on, whatever the API server sends, every pod in the
    cache is filed under its own non-empty UID, the cache stays marked as
    synchronised, and the delay before the next attempt stays between one and
    thirty seconds: a watch that keeps failing neither spins nor stalls. *)
Theorem watcher_invariant (w w' : Watcher) (resp : result json werr) (rv : string)
    (ts : list turn)
  (Hw : wf w) (Hstart : Start w resp = (w', Ok rv)) :
  let r := watchLoop (mkLoop w' rv minBackoff) ts in
  wf (outcome r) ∧ synced (outcome r) = true ∧
  match r with
  | inl st => (minBackoff ≤ lp_backoff st ≤ maxBackoff)%Z
  | inr _ => True
  end.
Proof.
  apply watchLoop_ok. unfold Start in Hstart.
  pose proof (wf_list_pods w resp Hw) as Hl.
  destruct (list_pods w resp) as [w1 [rv'|e]]; [|done]. injection Hstart as <- <-.
  split; [done|]. split; [done|]. by vm_compute.
Qed.

(** ** The wire format of the API server *)

Definition enc_status (cs : containerStatus) : json :=
  JObj [("name", JStr (cs_Name cs)); ("containerID", JStr (cs_ContainerID cs))].

Definition enc_labels (m : gmap string string) : json :=
  JObj ((λ kv, (kv.1, JStr kv.2)) <$> map_to_list m).

(** A pod as the API server renders the fields that are read. *)
Definition enc_object (o : podObject) : json :=
  JObj [ ("kind", JStr "Pod"); ("apiVersion", JStr "v1");
         ("metadata", JObj [ ("name", JStr (obj_Name o)); ("namespace", JStr (obj_Namespace o));
                             ("uid", JStr (obj_UID o));
                             ("resourceVersion", JStr (obj_ResourceVersion o));
                             ("labels", enc_labels (obj_Labels o)) ]);
         ("status", JObj [ ("phase", JStr "Running");
                           ("initContainerStatuses",
                              JArr (enc_status <$> obj_InitContainerStatuses o));
                           ("containerStatuses", JArr (enc_status <$> obj_ContainerStatuses o));
                           ("ephemeralContainerStatuses",
                              JArr (enc_status <$> obj_EphemeralContainerStatuses o)) ]) ].

Definition enc_event (e : watchEvent) : json :=
  JObj [("type", JStr (ev_Type e)); ("object", enc_object (ev_Object e))].

Definition enc_list (l : podList) : json :=
  JObj [ ("kind", JStr "PodList"); ("apiVersion", JStr "v1");
         ("metadata", JObj [("resourceVersion", JStr (list_ResourceVersion l))]);
         ("items", JArr (enc_object <$> list_Items l)) ].

Lemma dec_slice_enc {A} (dec : json → option A) (enc : A → json) l :
  (∀ a, dec (enc a) = Some a) → dec_slice dec (JArr (enc <$> l)) = Some l.
Proof.
  apply mapM_fmap_Some.
Qed.

Lemma dec_enc_status cs :
  dec_struct set_status_entry (mkStatus "" "") (enc_status cs) = Some cs.
Proof. by destruct cs. Qed.

Lemma dec_enc_statuses l : dec_statuses (JArr (enc_status <$> l)) = Some l.
Proof. apply dec_slice_enc, dec_enc_status. Qed.

Lemma dec_labels_pairs (l : list (string * string)) :
  NoDup l.*1 → dec_labels ∅ (JObj ((λ kv, (kv.1, JStr kv.2)) <$> l)) = Some (list_to_map l).
Proof.
  intros Hl. simpl.
  assert (∀ (l : list (string * string)) (acc : gmap string string), NoDup l.*1 →
    foldl (λ (acc : option (gmap string string)) kv,
             m ← acc; v ← dec_string "" kv.2; Some (<[kv.1 := v]> m)) (Some acc)
      ((λ kv : string * string, (kv.1, JStr kv.2)) <$> l) = Some (list_to_map l ∪ acc)) as H.
  { clear l Hl. induction l as [|[k v] l IH]; intros acc Hnd; simpl.
    - by rewrite left_id_L by apply _.
    - apply NoDup_cons in Hnd as [Hk Hnd]. rewrite IH by done.
      f_equal. rewrite <-insert_union_l, <-insert_union_r; [done|].
      by apply not_elem_of_list_to_map_1. }
  rewrite H by done. by rewrite right_id_L by apply _.
Qed.

Lemma dec_enc_labels m : dec_labels ∅ (enc_labels m) = Some m.
Proof.
  unfold enc_labels. rewrite dec_labels_pairs by apply NoDup_fst_map_to_list.
  by rewrite list_to_map_to_list.
Qed.

(** Evaluate the comparisons of literal field names. *)
Ltac decide_fields :=
  repeat match goal with
  | |- context [same_field ?a ?b] =>
      let r := eval vm_compute in (same_field a b) in
      change (same_field a b) with r; cbv iota
  end.

Lemma dec_enc_object o : dec_struct set_object zero_object (enc_object o) = Some o.
Proof.
  destruct o as [u n ns l rv a b c].
  cbv [enc_object dec_struct foldl set_object zero_object mbind option_bind fst snd
       obj_UID obj_Name obj_Namespace obj_Labels obj_ResourceVersion
       obj_ContainerStatuses obj_InitContainerStatuses obj_EphemeralContainerStatuses].
  decide_fields.
  cbv [dec_struct foldl set_metadata mbind option_bind fst snd].
  decide_fields.
  cbv [dec_string mbind option_bind]. rewrite dec_enc_labels.
  cbv [dec_struct foldl set_status mbind option_bind fst snd].
  decide_fields.
  by rewrite !dec_enc_statuses.
Qed.

Lemma watcher_invariant_witness :
  let ts := [mkTurn false (Err OtherError) false false (Err OtherError);
             mkTurn false (Err (APIError 410)) false false (Err OtherError)] in
  let r := watchLoop (mkLoop {| byUID := ∅; synced := true |} "7" minBackoff) ts in
  wf (outcome r) ∧ synced (outcome r) = true ∧
  match r with
  | inl st => (minBackoff ≤ lp_backoff st ≤ maxBackoff)%Z
  | inr _ => True
  end.
Proof.
  apply (watcher_invariant empty_watcher _
           (Ok (JObj [("metadata", JObj [("resourceVersion", JStr "7")])]))).
  - exact wf_empty.
  - reflexivity.
Defined.

Lemma dec_enc_event e : dec_event (enc_event e) = Some e.
Proof.
  destruct e as [t o].
  transitivity (o ← dec_struct set_object zero_object (enc_object o); Some (mkEvent t o));
    [reflexivity|]. by rewrite dec_enc_object.
Qed.

Lemma dec_enc_list l : dec_list (enc_list l) = Some l.
Proof.
  destruct l as [rv items].
  transitivity (items ← dec_slice (dec_struct set_object zero_object)
                          (JArr (enc_object <$> items)); Some (mkList rv items));
    [reflexivity|]. by rewrite (dec_slice_enc _ enc_object) by apply dec_enc_object.
Qed.

(** ** The cache against the API server's history *)

(** One change to the pods of the node, as the API server announces it. *)
Inductive change :=
| Added (o : podObject)
| Modified (o : podObject)
| Deleted (o : podObject)
| Bookmark (rv : string).

Definition announce (c : change) : watchEvent :=
  match c with
  | Added o => mkEvent "ADDED" o
  | Modified o => mkEvent "MODIFIED" o
  | Deleted o => mkEvent "DELETED" o
  | Bookmark rv => mkEvent "BOOKMARK" (mkObject "" "" "" ∅ rv [] [] [])
  end.

(** Its effect on the API server's own record of the pods. *)
Definition change_step (api : gmap string podObject) (c : change) : gmap string podObject :=
  match c with
  | Added o | Modified o => <[obj_UID o := o]> api
  | Deleted o => base.delete (obj_UID o) api
  | Bookmark _ => api
  end.

Definition change_uid (c : change) : option string :=
  match c with
  | Added o | Modified o | Deleted o => Some (obj_UID o)
  | Bookmark _ => None
  end.

Definition touched (cs : list change) (uid : string) : Prop := Some uid ∈ change_uid <$> cs.

Definition after_changes (api : gmap string podObject) (cs : list change) :=
  foldl change_step api cs.

Lemma apply_announce w api c :
  change_uid c ≠ Some "" → byUID w = toPod <$> api →
  ∃ w', apply_event w (announce c) = Some w' ∧ byUID w' = toPod <$> change_step api c.
Proof.
  intros Hc Hw. destruct c as [o|o|o|rv]; unfold apply_event, announce; simpl in *.
  1,2: eexists; split; [done|]; rewrite decide_False by congruence; simpl;
       by rewrite Hw, fmap_insert.
  - eexists. split; [done|]. unfold delete. rewrite decide_False by congruence. simpl.
    by rewrite Hw, fmap_delete.
  - eauto.
Qed.

Lemma watch_changes w rv api cs fin :
  Forall (λ c, change_uid c ≠ Some "") cs → byUID w = toPod <$> api →
  ∃ w', watch_events w rv (enc_event <$> (announce <$> cs)) fin =
          (w', foldl next_rv rv (announce <$> cs),
           match fin with ReadError => Some DecodeError | _ => None end) ∧
        byUID w' = toPod <$> after_changes api cs.
Proof.
  intros Hcs. revert w rv api.
  induction Hcs as [|c cs Hc _ IH]; intros w rv api Hw.
  - exists w. split; [by destruct fin|done].
  - rewrite !fmap_cons. cbn [watch_events]. rewrite dec_enc_event.
    destruct (apply_announce w api c Hc Hw) as (w1 & -> & Hw1).
    destruct (IH w1 (next_rv rv (announce c)) (change_step api c) Hw1) as (w' & -> & Hw').
    by exists w'.
Qed.

(** What a sequence of changes says about a UID depends only on those that
    touch it. *)
Lemma change_step_other api c uid :
  change_uid c ≠ Some uid → change_step api c !! uid = api !! uid.
Proof.
  destruct c as [o|o|o|rv]; simpl; intros H; try done.
  1,2: by rewrite lookup_insert_ne by congruence.
  by rewrite lookup_delete_ne by congruence.
Qed.

Lemma after_untouched api cs uid :
  ¬ touched cs uid → after_changes api cs !! uid = api !! uid.
Proof.
  unfold touched. revert api. induction cs as [|c cs IH]; intros api; [done|].
  rewrite fmap_cons, not_elem_of_cons. intros [Hc Hcs].
  cbn [after_changes foldl]. unfold after_changes in IH. rewrite IH by done.
  by apply change_step_other.
Qed.

Lemma change_step_same api api' c uid :
  change_uid c = Some uid → change_step api c !! uid = change_step api' c !! uid.
Proof.
  destruct c as [o|o|o|rv]; simpl; intros [= <-]; by rewrite ?lookup_insert_eq, ?lookup_delete_eq.
Qed.

Lemma after_cong api api' cs uid :
  api !! uid = api' !! uid → after_changes api cs !! uid = after_changes api' cs !! uid.
Proof.
  revert api api'. induction cs as [|c cs IH]; intros api api' H; [done|].
  cbn [after_changes foldl]. apply IH.
  destruct (decide (change_uid c = Some uid)) as [E|E]; [by apply change_step_same|].
  by rewrite !change_step_other.
Qed.

Lemma after_touched api api' cs uid :
  touched cs uid → after_changes api cs !! uid = after_changes api' cs !! uid.
Proof.
  unfold touched. revert api api'. induction cs as [|c cs IH]; intros api api'.
  { by intros ?%not_elem_of_nil. }
  rewrite fmap_cons, elem_of_cons. cbn [after_changes foldl].
  intros [Hc|Hc]; [|by apply IH]. apply after_cong. by apply change_step_same.
Qed.

(** *** Lists *)

Definition snapshot (l : list podObject) : gmap string podObject :=
  list_to_map ((λ o, (obj_UID o, o)) <$> l).

Lemma list_items m l :
  Forall (λ o, obj_UID o ≠ "") l → NoDup (obj_UID <$> l) →
  foldl add_item m l = (toPod <$> snapshot l) ∪ m.
Proof.
  intros Hne. revert m. induction Hne as [|o l Ho Hne IH]; intros m Hnd.
  { unfold snapshot. simpl. by rewrite fmap_empty, left_id_L by apply _. }
  rewrite fmap_cons in Hnd. apply NoDup_cons in Hnd as [Hin Hnd].
  cbn [foldl]. rewrite IH by done. unfold add_item. rewrite decide_False by done.
  unfold snapshot. cbn [fmap list_fmap list_to_map foldr curry].
  rewrite fmap_insert, <-insert_union_l, <-insert_union_r; [done|].
  rewrite lookup_fmap, fmap_None. apply not_elem_of_list_to_map_1.
  by rewrite <-list_fmap_compose.
Qed.

Lemma list_pods_snapshot w rv l :
  Forall (λ o, obj_UID o ≠ "") l → NoDup (obj_UID <$> l) →
  list_pods w (Ok (enc_list (mkList rv l))) =
    ({| byUID := toPod <$> snapshot l; synced := synced w |}, Ok rv).
Proof.
  intros Hne Hnd. unfold list_pods. rewrite dec_enc_list. simpl.
  by rewrite list_items, right_id_L by (done || apply _).
Qed.

(** *** A session

    The API server holds the pods [pods] at the version [version 0] and then
    makes the changes [history], the [i]th of which produces [version (S i)].
    Asked for a watch from [version k] it delivers some of the changes after
    the [k]th, and the stream then ends cleanly or breaks; or the request fails;
    or it is refused as expired, and the list that follows is of the pods at some
    position of the history. *)
Inductive delivery :=
| Delivered (n : nat) (fin : stream_end)
| Unanswered (e : werr)
| Relisted (e : werr) (j : nat).

Definition delivery_ok (d : delivery) : Prop :=
  match d with
  | Delivered _ _ => True
  | Unanswered e => isExpired e = false
  | Relisted e _ => isExpired e = true
  end.

Section session.
Context (pods : list podObject) (history : list change) (version : nat → string).
Context (Hpods : Forall (λ o, obj_UID o ≠ "") pods) (Hnd : NoDup (obj_UID <$> pods)).
Context (Huid : Forall (λ c, change_uid c ≠ Some "") history).
Context (Hver : ∀ i c, history !! i = Some c →
                  obj_ResourceVersion (ev_Object (announce c)) = version (S i)).
Context (Hne : ∀ i, version i ≠ "").

(** The API server's record after the first [k] changes. *)
Definition api_at (k : nat) : gmap string podObject :=
  after_changes (snapshot pods) (take k history).

Definition chunk (k n : nat) : list change := take n (drop k history).

(** The pods as the server lists them after the first [j] changes. *)
Definition listing (j : nat) : list podObject := (map_to_list (api_at j)).*2.

Definition session_turn (k : nat) (d : delivery) : turn :=
  match d with
  | Delivered n fin =>
      mkTurn false (Ok (mkBody (enc_event <$> (announce <$> chunk k n)) fin)) false false
        (Err OtherError)
  | Unanswered e => mkTurn false (Err e) false false (Err OtherError)
  | Relisted e j =>
      mkTurn false (Err e) false false
        (Ok (enc_list (mkList (version (Nat.min j (length history))) (listing j))))
  end.

(** The position the watcher resumes from. *)
Definition advance (k : nat) (d : delivery) : nat :=
  match d with
  | Delivered _ ReadError | Unanswered _ => k
  | Delivered n _ => Nat.min (k + n) (length history)
  | Relisted _ j => Nat.min j (length history)
  end.

Fixpoint deliveries (k : nat) (ds : list delivery) : list turn :=
  match ds with
  | [] => []
  | d :: ds => session_turn k d :: deliveries (advance k d) ds
  end.

Definition position (k : nat) (ds : list delivery) : nat := foldl advance k ds.

(** The cache agrees with the server at [k] on every pod that no later change
    touches; a pod that one touches may be ahead of [k]. *)
Definition settled (k : nat) (st : loop_state) : Prop :=
  lp_rv st = version k ∧ k ≤ length history ∧
  ∃ api, byUID (lp_watcher st) = toPod <$> api ∧
    ∀ uid, ¬ touched (drop k history) uid → api !! uid = api_at k !! uid.

Lemma api_at_advance k n :
  k ≤ length history →
  api_at (Nat.min (k + n) (length history)) = after_changes (api_at k) (chunk k n).
Proof.
  intros Hk. unfold api_at, chunk, after_changes. rewrite <-foldl_app. f_equal.
  rewrite take_take_drop. destruct (decide (k + n ≤ length history)).
  - by rewrite Nat.min_l.
  - rewrite Nat.min_r by lia. rewrite !take_ge by lia. done.
Qed.

Lemma touched_app cs cs' uid : touched (cs ++ cs') uid ↔ touched cs uid ∨ touched cs' uid.
Proof. unfold touched. by rewrite fmap_app, elem_of_app. Qed.

Lemma drop_chunk k n : drop k history = chunk k n ++ drop (k + n) history.
Proof. unfold chunk. by rewrite <-drop_drop, take_drop. Qed.

Lemma chunk_rv k n :
  k ≤ length history →
  foldl next_rv (version k) (announce <$> chunk k n) =
  version (Nat.min (k + n) (length history)).
Proof.
  revert k. induction n as [|n IH]; intros k Hk.
  { unfold chunk. rewrite take_0. simpl. f_equal. lia. }
  destruct (history !! k) as [c|] eqn:E.
  - unfold chunk in *. rewrite (drop_S history c k E). cbn [take fmap list_fmap foldl].
    unfold next_rv at 2. rewrite (Hver _ _ E), decide_False by apply Hne.
    apply lookup_lt_Some in E. rewrite IH by lia. f_equal. lia.
  - apply lookup_ge_None in E. unfold chunk. rewrite drop_ge, take_nil by lia. simpl.
    f_equal. lia.
Qed.

Lemma Huid_chunk k n : Forall (λ c, change_uid c ≠ Some "") (chunk k n).
Proof. unfold chunk. by apply Forall_take, Forall_drop. Qed.

(** Every record is filed under its own UID. *)
Definition keyed (api : gmap string podObject) : Prop :=
  map_Forall (λ uid o, obj_UID o = uid ∧ uid ≠ "") api.

Lemma keyed_snapshot : keyed (snapshot pods).
Proof.
  intros uid o H. apply elem_of_list_to_map_2, list_elem_of_fmap in H as (o' & [= -> ->] & Hin).
  split; [done|]. by eapply Forall_forall in Hin; [|exact Hpods].
Qed.

Lemma keyed_step api c : change_uid c ≠ Some "" → keyed api → keyed (change_step api c).
Proof.
  intros Hc Hk. destruct c as [o|o|o|rv]; simpl in *; [..|done].
  1,2: apply map_Forall_insert_2; [split; congruence|done].
  by apply map_Forall_delete.
Qed.

Lemma keyed_at j : keyed (api_at j).
Proof.
  unfold api_at.
  assert (Forall (λ c, change_uid c ≠ Some "") (take j history)) as H by by apply Forall_take.
  revert H.
  generalize (take j history) as cs. pose proof keyed_snapshot as H0. revert H0.
  generalize (snapshot pods) as api. intros api Hk cs Hcs. revert api Hk.
  induction Hcs as [|c cs Hc _ IH]; intros api Hk; [done|]. by apply IH, keyed_step.
Qed.

Lemma snapshot_keyed api :
  keyed api →
  Forall (λ o, obj_UID o ≠ "") (map_to_list api).*2 ∧ NoDup (obj_UID <$> (map_to_list api).*2) ∧
  snapshot (map_to_list api).*2 = api.
Proof.
  intros Hk.
  assert ((λ o, (obj_UID o, o)) <$> (map_to_list api).*2 = map_to_list api) as Hpairs.
  { rewrite <-list_fmap_compose. rewrite <-(list_fmap_id (map_to_list api)) at 2.
    apply list_fmap_ext. intros i [uid o] Hi. apply list_elem_of_lookup_2, elem_of_map_to_list in Hi.
    cbn. by destruct (Hk _ _ Hi) as [-> _]. }
  split; [|split].
  - apply Forall_forall. intros o Ho. apply list_elem_of_fmap in Ho as ([uid o'] & -> & Hin).
    apply elem_of_map_to_list in Hin. cbn. by destruct (Hk _ _ Hin) as [-> ?].
  - pose proof (NoDup_fst_map_to_list api) as H. rewrite <-Hpairs in H.
    by rewrite <-list_fmap_compose in H.
  - unfold snapshot. rewrite Hpairs. apply list_to_map_to_list.
Qed.

Lemma api_at_min j : api_at (Nat.min j (length history)) = api_at j.
Proof.
  unfold api_at. destruct (decide (j ≤ length history)); [by rewrite Nat.min_l|].
  rewrite Nat.min_r by lia. by rewrite !take_ge by lia.
Qed.

Lemma delivered_turn k n fin st :
  settled k st →
  ∃ st', loop_turn st (session_turn k (Delivered n fin)) = Continue false st' ∧
         settled (advance k (Delivered n fin)) st'.
Proof.
  intros (Hrv & Hk & api & Hw & Hapi). unfold loop_turn. simpl.
  destruct (watch_changes (lp_watcher st) (lp_rv st) api (chunk k n) fin) as (w' & -> & Hw');
    [apply Huid_chunk|done|].
  rewrite Hrv, chunk_rv by done.
  assert (∀ uid, ¬ touched (drop (Nat.min (k + n) (length history)) history) uid →
    after_changes api (chunk k n) !! uid =
    api_at (Nat.min (k + n) (length history)) !! uid) as Hclean.
  { intros uid Hu. rewrite api_at_advance by done.
    destruct (decide (Some uid ∈ change_uid <$> chunk k n)) as [Ht|Ht].
    - by apply after_touched.
    - apply after_cong, Hapi. rewrite (drop_chunk k n), touched_app.
      intros [?|Hd]; [done|]. apply Hu.
      destruct (decide (k + n ≤ length history)); [by rewrite Nat.min_l|].
      rewrite drop_ge in Hd by lia. by apply not_elem_of_nil in Hd. }
  destruct fin; simpl.
  - eexists. split; [done|]. split; [done|]. split; [lia|]. by eexists.
  - eexists. split; [done|]. split; [done|]. split; [lia|]. by eexists.
  - rewrite decide_False by apply Hne.
    eexists. split; [done|]. split; [done|]. split; [done|].
    eexists. split; [done|]. intros uid Hu. rewrite <-Hapi by done.
    apply after_untouched. intros Ht. apply Hu.
    rewrite (drop_chunk k n), touched_app. by left.
Qed.

Lemma settled_turn k d st :
  delivery_ok d → settled k st →
  ∃ b st', loop_turn st (session_turn k d) = Continue b st' ∧ settled (advance k d) st'.
Proof.
  intros Hd Hs. destruct d as [n fin|e|e j]; cbn [delivery_ok] in Hd.
  - destruct (delivered_turn k n fin st Hs) as (st' & H). by exists false, st'.
  - destruct Hs as (Hrv & Hk & api & Hw & Hapi). unfold loop_turn. cbn. rewrite Hd.
    rewrite decide_False by (rewrite Hrv; apply Hne). eexists _, _. split; [done|].
    split; [done|]. split; [done|]. by eexists.
  - unfold loop_turn. cbn [session_turn t_done_before t_watch t_done_after t_done_sleeping t_list
      watchOnce]. rewrite Hd, decide_True by done.
    destruct (snapshot_keyed (api_at j) (keyed_at j)) as (H1 & H2 & H3).
    unfold listing. rewrite list_pods_snapshot by done. eexists _, _. split; [done|].
    split; [done|]. split; [cbn; lia|]. exists (api_at j). cbn [lp_watcher byUID advance].
    split; [by rewrite H3|]. intros uid _. by rewrite api_at_min.
Qed.

Lemma settled_loop k ds st :
  Forall delivery_ok ds → settled k st →
  ∃ st', watchLoop st (deliveries k ds) = inl st' ∧ settled (position k ds) st'.
Proof.
  intros Hds. revert k st. induction Hds as [|d ds Hd _ IH]; intros k st H; cbn; [eauto|].
  destruct (settled_turn k d st Hd H) as (b & st' & -> & H'). by apply IH.
Qed.

(** C27. The cache follows the API server's record.  Start lists the pods; then
    changes come in watch responses, cut up in any way, that end cleanly or break
    in the middle (after which the same changes are delivered again), requests
    fail without an answer, or are refused as expired and followed by a list that
    succeeds.  At every point the watcher is at some position of the history, and
    its cache is the server's record at that position for every pod that no later
    change is about (for the others a broken response may have brought it ahead);
    so when the watcher has caught up the cache is exactly the server's pods: none
    missing, none left over, none stale.  The server's pods have distinct,
    non-empty UIDs, and it numbers its changes with versions that are not empty.
    An expiry whose list fails is not among these deliveries. *)
Theorem cache_converges (w : Watcher) (ds : list delivery)
  (Hds : Forall delivery_ok ds) :
  let k := position 0 ds in
  ∃ w' st, Start w (Ok (enc_list (mkList (version 0) pods))) = (w', Ok (version 0)) ∧
    watchLoop (mkLoop w' (version 0) minBackoff) (deliveries 0 ds) = inl st ∧
    lp_rv st = version k ∧ k ≤ length history ∧
    (∀ uid, ¬ touched (drop k history) uid →
       Lookup (lp_watcher st) uid =
       toPod <$> (after_changes (snapshot pods) (take k history) !! uid)) ∧
    (k = length history →
     ∀ uid, Lookup (lp_watcher st) uid =
            toPod <$> (after_changes (snapshot pods) history !! uid)).
Proof.
  intros k. unfold Start. rewrite list_pods_snapshot by done. eexists.
  destruct (settled_loop 0 ds (mkLoop {| byUID := toPod <$> snapshot pods; synced := true |}
                                 (version 0) minBackoff) Hds) as (st & Hst & Hs).
  { split; [done|]. split; [lia|]. eexists. split; [done|].
    intros uid _. unfold api_at. by rewrite take_0. }
  fold k in Hs. exists st. split; [done|]. split; [exact Hst|].
  destruct Hs as (Hrv & Hk & api & Hw & Hapi).
  assert (∀ uid, ¬ touched (drop k history) uid →
    Lookup (lp_watcher st) uid = toPod <$> (api_at k !! uid)) as H.
  { intros uid Hu. unfold Lookup. by rewrite Hw, lookup_fmap, Hapi. }
  do 2 (split; [done|]). split; [exact H|]. intros Heq uid. rewrite H.
  - unfold api_at. by rewrite take_ge by lia.
  - rewrite drop_ge by lia. apply not_elem_of_nil.
Qed.
End session.

(** A pod is deleted and another one appears while the connection breaks once. *)
Definition example_object (uid rv : string) : podObject :=
  mkObject uid ("pod-" +:+ uid) "shop" {[ "app" := uid ]} rv
    [mkStatus "main" ("containerd://00" +:+ uid)] [] [].

Definition example_version (i : nat) : string := fmt.d (Z.of_nat (100 + i)).

Definition example_history : list change :=
  [Added (example_object "bb" "101"); Deleted (example_object "aa" "102")].

Lemma cache_converges_witness :
  ∃ w' st,
    Start empty_watcher (Ok (enc_list (mkList "100" [example_object "aa" "99"])))
      = (w', Ok "100") ∧
    watchLoop (mkLoop w' "100" minBackoff)
      (deliveries [example_object "aa" "99"] example_history example_version 0
         [Delivered 2 ReadError; Unanswered OtherError; Relisted (APIError 410) 1;
          Delivered 1 UnexpectedEOF]) = inl st ∧
    lp_rv st = "102" ∧
    ∀ uid, Lookup (lp_watcher st) uid =
      toPod <$> (after_changes (snapshot [example_object "aa" "99"]) example_history !! uid).
Proof.
  destruct (cache_converges [example_object "aa" "99"] example_history example_version)
    with (w := empty_watcher)
         (ds := [Delivered 2 ReadError; Unanswered OtherError; Relisted (APIError 410) 1;
                 Delivered 1 UnexpectedEOF]) as (w' & st & H1 & H2 & H3 & _ & _ & H4).
  - by repeat constructor.
  - repeat constructor. apply not_elem_of_nil.
  - by repeat constructor.
  - intros [|[|[|i]]] c [= <-]; reflexivity.
  - intros i. apply strconv.FormatUint_nonempty.
  - by repeat constructor.
  - exists w', st. split; [exact H1|]. split; [exact H2|]. split; [exact H3|].
    apply H4. reflexivity.
Defined.

(** ** When the watch has expired *)

(** The object of an ERROR event: a [Status], whose own [status] field is the
    string Failure. *)
Definition status_object (code message : string) : json :=
  JObj [("kind", JStr "Status"); ("apiVersion", JStr "v1"); ("metadata", JObj []);
        ("status", JStr "Failure"); ("message", JStr message);
        ("reason", JStr "Expired"); ("code", JNum code)].

Definition error_event (code message : string) : json :=
  JObj [("type", JStr "ERROR"); ("object", status_object code message)].

Lemma dec_error_event code message : dec_event (error_event code message) = None.
Proof. reflexivity. Qed.

(** An expired watch announced the way the API server announces it inside a
    stream, as an ERROR event carrying a Status, does not lead to a re-list:
    the Status' string field [status] does not decode into the pod's struct, so
    the turn ends as an ordinary failure that keeps the expired version and
    leaves the cache as it was before the event.  Only the 410 status code of
    a response is recognised as an expiry. *)
Theorem error_event_not_relisted (st : loop_state) (cs : list change) (vals : list json)
    (code message : string) (fin : stream_end) (resp : result json werr)
    (api : gmap string podObject)
  (Hrv : lp_rv st ≠ "") (Hcs : Forall (λ c, change_uid c ≠ Some "") cs)
  (Hapi : byUID (lp_watcher st) = toPod <$> api) :
  let body := (enc_event <$> (announce <$> cs)) ++ error_event code message :: vals in
  ∃ st', loop_turn st (mkTurn false (Ok (mkBody body fin)) false false resp)
           = Continue false st' ∧
    lp_rv st' = lp_rv st ∧ byUID (lp_watcher st') = toPod <$> after_changes api cs.
Proof.
  intros body. unfold loop_turn, body. cbn [t_done_before t_watch watchOnce body_values body_end].
  assert (∀ w rv api, byUID w = toPod <$> api →
    ∃ w' rv', watch_events w rv ((enc_event <$> (announce <$> cs)) ++
                error_event code message :: vals) fin = (w', rv', Some DecodeError) ∧
              byUID w' = toPod <$> after_changes api cs) as H.
  { clear Hapi api. induction Hcs as [|c cs Hc _ IH]; intros w rv api Hw.
    - cbn [app fmap list_fmap watch_events]. rewrite dec_error_event. eauto.
    - rewrite !fmap_cons. cbn [app watch_events]. rewrite dec_enc_event.
      destruct (apply_announce w api c Hc Hw) as (w1 & -> & Hw1). by apply IH. }
  destruct (H (lp_watcher st) (lp_rv st) api Hapi) as (w' & rv' & -> & Hw').
  simpl. rewrite decide_False by done. eexists. by split.
Qed.

Lemma error_event_not_relisted_witness :
  ∃ st', loop_turn (mkLoop empty_watcher "7" minBackoff)
           (mkTurn false (Ok (mkBody [error_event "410" "too old resource version: 7 (900)"] EOF))
              false false (Ok (enc_list (mkList "900" [])))) = Continue false st' ∧
    lp_rv st' = "7" ∧ byUID (lp_watcher st') = toPod <$> (∅ : gmap string podObject).
Proof.
  apply (error_event_not_relisted (mkLoop empty_watcher "7" minBackoff) [] []).
  - done.
  - constructor.
  - symmetry. apply fmap_empty.
Defined.

(** A response with status 410 clears the version and asks for a list; when
    that list fails, the loop goes on to watch without a version, and a stream
    that then ends cleanly is resumed from where it ended: no list happens
    until another failure, and a pod that was deleted in the meantime stays in
    the cache. *)
Theorem expired_list_failure_not_retried (st : loop_state) (cs : list change) (e : werr)
    (api : gmap string podObject) (ignored : result json werr)
  (Hcs : Forall (λ c, change_uid c ≠ Some "") cs)
  (Hapi : byUID (lp_watcher st) = toPod <$> api) :
  ∃ st', watchLoop st
           [mkTurn false (Err (APIError 410)) false false (Err e);
            mkTurn false (Ok (mkBody (enc_event <$> (announce <$> cs)) EOF)) false false ignored]
           = inl st' ∧
    lp_rv st' = foldl next_rv "" (announce <$> cs) ∧
    ∀ uid, ¬ touched cs uid → Lookup (lp_watcher st') uid = Lookup (lp_watcher st) uid.
Proof.
  destruct (watch_changes (lp_watcher st) "" api cs EOF Hcs Hapi) as (w' & Hw & Hw').
  cbn [watchLoop].
  change (loop_turn st (mkTurn false (Err (APIError 410)) false false (Err e)))
    with (Continue false (mkLoop (lp_watcher st) "" (Z.min (lp_backoff st * 2) maxBackoff))).
  cbn [loop_turn t_done_before t_watch t_done_after watchOnce lp_watcher lp_rv
       body_values body_end].
  rewrite Hw. eexists. split; [done|]. split; [done|].
  intros uid Hu. unfold Lookup. simpl. rewrite Hw', Hapi, !lookup_fmap.
  by rewrite after_untouched.
Qed.

(** The pod aa is deleted while the watch is down; the server then announces the
    pods that exist, bb among them, and aa is served from the cache. *)
Lemma expired_list_failure_not_retried_witness :
  ∃ st', watchLoop (mkLoop {| byUID := toPod <$> {[ "aa" := example_object "aa" "99" ]};
                              synced := true |} "100" minBackoff)
           [mkTurn false (Err (APIError 410)) false false (Err OtherError);
            mkTurn false (Ok (mkBody (enc_event <$> (announce <$> [Added (example_object "bb" "205")]))
                                EOF)) false false (Err OtherError)]
           = inl st' ∧
    lp_rv st' = "205" ∧
    ∀ uid, ¬ touched [Added (example_object "bb" "205")] uid →
      Lookup (lp_watcher st') uid =
      Lookup {| byUID := toPod <$> {[ "aa" := example_object "aa" "99" ]}; synced := true |} uid.
Proof.
  apply (expired_list_failure_not_retried
           (mkLoop {| byUID := toPod <$> {[ "aa" := example_object "aa" "99" ]};
                      synced := true |} "100" minBackoff)
           [Added (example_object "bb" "205")] OtherError {[ "aa" := example_object "aa" "99" ]}).
  - by repeat constructor.
  - done.
Defined.

End kube.
