(* ===== verification/Json.v ===== *)
(** * JSON text ([encoding/json])

    What Go's encoder writes for a value and what its decoder reads: the quoting
    of strings, with the replacement of bytes that are not UTF-8, and a parser
    for whole values.  [parse] of what [print] writes is the value again, up to
    that replacement, and no part of an object's text is taken for the whole.
    The limit of 10000 on nesting is left out. *)

From S2P Require Import Prelude GoStrings Effects Os Kube.
Import kube.

Module json.

(** ** UTF-8

    A text cut into the encodings of runes, of one to four bytes, and bytes that
    belong to none, as [utf8.DecodeRune] does. *)
Inductive chunk :=
| C1 (a : ascii)
| C2 (a b : ascii)
| C3 (a b c : ascii)
| C4 (a b c d : ascii)
| Bad (a : ascii).

Definition between (lo hi : N) (c : ascii) : bool := (lo <=? code c)%N && (code c <=? hi)%N.

Definition one (a : ascii) : bool := (code a <? 128)%N.
Definition cont (c : ascii) : bool := between 128 191 c.
Definition two (a b : ascii) : bool := between 194 223 a && cont b.
Definition three (a b c : ascii) : bool :=
  (between 224 224 a && between 160 191 b || between 225 236 a && cont b
   || between 237 237 a && between 128 159 b || between 238 239 a && cont b) && cont c.
Definition four (a b c d : ascii) : bool :=
  (between 240 240 a && between 144 191 b || between 241 243 a && cont b
   || between 244 244 a && between 128 143 b) && cont c && cont d.

Fixpoint runes (s : string) : list chunk :=
  match s with
  | "" => []
  | String a s1 =>
      if one a then C1 a :: runes s1
      else match s1 with
           | "" => [Bad a]
           | String b s2 =>
               if two a b then C2 a b :: runes s2
               else match s2 with
                    | "" => Bad a :: runes s1
                    | String c s3 =>
                        if three a b c then C3 a b c :: runes s3
                        else match s3 with
                             | "" => Bad a :: runes s1
                             | String d s4 =>
                                 if four a b c d then C4 a b c d :: runes s4
                                 else Bad a :: runes s1
                             end
                    end
           end
  end.

Definition wf_chunk (c : chunk) : bool :=
  match c with
  | C1 a => one a
  | C2 a b => two a b
  | C3 a b c => three a b c
  | C4 a b c d => four a b c d
  | Bad _ => false
  end.

(** The bytes of the rune that is read: U+FFFD for a byte that is none. *)
Definition rune_bytes (c : chunk) : string :=
  match c with
  | C1 a => String a ""
  | C2 a b => String a (String b "")
  | C3 a b c => String a (String b (String c ""))
  | C4 a b c d => String a (String b (String c (String d "")))
  | Bad _ => String (byte 239) (String (byte 191) (String (byte 189) ""))
  end.

Definition cat (l : list string) : string := foldr String.append "" l.

(** The text with every byte that is not part of a rune replaced. *)
Definition repair (s : string) : string := cat (rune_bytes <$> runes s).

Definition valid (s : string) : bool := forallb wf_chunk (runes s).

(** ** Writing *)

Definition quote_mark : ascii := byte 34.
Definition backslash : ascii := byte 92.

Definition hex_digit (n : N) : ascii := byte (if (n <? 10)%N then 48 + n else 87 + n).

(** [\u] and the code in four digits. *)
Definition u_escape (n : N) : string :=
  String backslash (String "u" (String (hex_digit (n / 4096)) (String (hex_digit (n / 256 mod 16))
    (String (hex_digit (n / 16 mod 16)) (String (hex_digit (n mod 16)) ""))))).

(** A byte below 128: the ones with a short escape, control characters and the
    three that matter in HTML. *)
Definition short_escape (a : ascii) : option ascii :=
  match code a with
  | 34 | 92 => Some a
  | 8 => Some "b"%char
  | 12 => Some "f"%char
  | 10 => Some "n"%char
  | 13 => Some "r"%char
  | 9 => Some "t"%char
  | _ => None
  end%N.

Definition html (a : ascii) : bool :=
  (code a =? 60)%N || (code a =? 62)%N || (code a =? 38)%N.

Definition quote_ascii (a : ascii) : string :=
  match short_escape a with
  | Some e => String backslash (String e "")
  | None => if (code a <? 32)%N || html a then u_escape (code a) else String a ""
  end.

(** U+2028 and U+2029 are escaped too. *)
Definition separator (a b c : ascii) : option N :=
  if (code a =? 226)%N && (code b =? 128)%N then
    if (code c =? 168)%N then Some 8232%N else if (code c =? 169)%N then Some 8233%N else None
  else None.

Definition quote_chunk (c : chunk) : string :=
  match c with
  | C1 a => quote_ascii a
  | C3 a b c =>
      match separator a b c with Some n => u_escape n | None => rune_bytes (C3 a b c) end
  | Bad _ => u_escape 65533
  | c => rune_bytes c
  end.

(** [appendString] *)
Definition quote (s : string) : string :=
  String quote_mark (cat (quote_chunk <$> runes s) +:+ String quote_mark "").

(** A list with a comma between its elements. *)
Fixpoint commas (l : list string) : string :=
  match l with
  | [] => ""
  | [x] => x
  | x :: l => x +:+ String "," (commas l)
  end.

Fixpoint print (j : json) : string :=
  match j with
  | JNull => "null"
  | JBool b => if b then "true" else "false"
  | JNum t => t
  | JStr s => quote s
  | JArr l => String "[" (commas (print <$> l) +:+ "]")
  | JObj l => String "{" (commas ((λ kv, quote kv.1 +:+ String ":" (print kv.2)) <$> l) +:+ "}")
  end.

(** ** Reading *)

Definition space (c : ascii) : bool :=
  (code c =? 32)%N || (code c =? 9)%N || (code c =? 10)%N || (code c =? 13)%N.

Fixpoint skip (s : string) : string :=
  match s with
  | String c r => if space c then skip r else s
  | "" => ""
  end.

Definition hex_val (c : ascii) : option N :=
  if between 48 57 c then Some (code c - 48)%N
  else if between 97 102 c then Some (code c - 87)%N
  else if between 65 70 c then Some (code c - 55)%N
  else None.

Definition hex4 (a b c d : ascii) : option N :=
  x ← hex_val a; y ← hex_val b; z ← hex_val c; w ← hex_val d;
  Some (4096 * x + 256 * y + 16 * z + w)%N.

(** [utf8.EncodeRune]; a surrogate is no rune. *)
Definition encode_rune (n : N) : string :=
  if (n <? 128)%N then String (byte n) ""
  else if (n <? 2048)%N then String (byte (192 + n / 64)) (String (byte (128 + n mod 64)) "")
  else if (55296 <=? n)%N && (n <? 57344)%N || (1114111 <? n)%N
  then String (byte 239) (String (byte 191) (String (byte 189) ""))
  else if (n <? 65536)%N
  then String (byte (224 + n / 4096)) (String (byte (128 + n / 64 mod 64))
         (String (byte (128 + n mod 64)) ""))
  else String (byte (240 + n / 262144)) (String (byte (128 + n / 4096 mod 64))
         (String (byte (128 + n / 64 mod 64)) (String (byte (128 + n mod 64)) ""))).

Definition unescape (c : ascii) : option ascii :=
  match code c with
  | 34 | 92 | 47 => Some c
  | 98 => Some (byte 8)
  | 102 => Some (byte 12)
  | 110 => Some (byte 10)
  | 114 => Some (byte 13)
  | 116 => Some (byte 9)
  | _ => None
  end%N.

Definition prepend (x : string) (r : option (string * string)) : option (string * string) :=
  '(t, rest) ← r; Some (x +:+ t, rest).

(** The low half of a surrogate pair whose high half is [n]. *)
Definition pair_rune (n m : N) : option N :=
  if (55296 <=? n)%N && (n <? 56320)%N && (56320 <=? m)%N && (m <? 57344)%N
  then Some (65536 + (n - 55296) * 1024 + (m - 56320))%N else None.

(** The rune of the escape at the head of [s] together with the one before it. *)
Definition low (n : N) (s : string) : option N :=
  match s with
  | String b (String u (String k1 (String k2 (String k3 (String k4 _))))) =>
      if Ascii.eqb b backslash && Ascii.eqb u "u" then m ← hex4 k1 k2 k3 k4; pair_rune n m else None
  | _ => None
  end.

(** The text after an opening quote up to the closing one, with the escapes
    resolved, and what follows. *)
Fixpoint unquote (s : string) : option (string * string) :=
  match s with
  | "" => None
  | String c r =>
      if Ascii.eqb c quote_mark then Some ("", r)
      else if Ascii.eqb c backslash then
        match r with
        | "" => None
        | String e r =>
            match unescape e with
            | Some x => prepend (String x "") (unquote r)
            | None =>
                if Ascii.eqb e "u" then
                  match r with
                  | String h1 (String h2 (String h3 (String h4 r))) =>
                      match hex4 h1 h2 h3 h4 with
                      | None => None
                      | Some n =>
                          match low n r, r with
                          | Some x, String _ (String _ (String _ (String _ (String _ (String _ r'))))) =>
                              prepend (encode_rune x) (unquote r')
                          | _, _ => prepend (encode_rune n) (unquote r)
                          end
                      end
                  | _ => None
                  end
                else None
            end
        end
      else if (code c <? 32)%N then None
      else prepend (String c "") (unquote r)
  end.

(** A string literal after its opening quote.  An escape stands for whole runes,
    so bytes that are none can be replaced after the escapes are resolved. *)
Definition read_string (s : string) : option (string * string) :=
  '(t, rest) ← unquote s; Some (repair t, rest).

(** Digits, at least one. *)
Fixpoint span_digits (s : string) : string * string :=
  match s with
  | String c r => if strconv.is_digit c then let '(d, r) := span_digits r in (String c d, r) else ("", s)
  | "" => ("", "")
  end.

Definition digits1 (s : string) : option (string * string) :=
  match span_digits s with ("", _) => None | x => Some x end.

Definition exponent (s : string) : option (string * string) :=
  match s with
  | String e r =>
      if Ascii.eqb e "e" || Ascii.eqb e "E" then
        match r with
        | String sg r' =>
            if Ascii.eqb sg "+" || Ascii.eqb sg "-"
            then '(d, r) ← digits1 r'; Some (String e (String sg d), r)
            else '(d, r) ← digits1 r; Some (String e d, r)
        | "" => None
        end
      else Some ("", s)
  | "" => Some ("", "")
  end.

Definition fraction (s : string) : option (string * string) :=
  match s with
  | String c r =>
      if Ascii.eqb c "." then
        '(d, r) ← digits1 r; '(e, r) ← exponent r; Some (String "." (d +:+ e), r)
      else exponent s
  | "" => Some ("", "")
  end.

Definition unsigned (s : string) : option (string * string) :=
  match s with
  | String c r =>
      if Ascii.eqb c "0" then '(f, r) ← fraction r; Some (String "0" f, r)
      else '(d, r) ← digits1 s; '(f, r) ← fraction r; Some (d +:+ f, r)
  | "" => None
  end.

Definition number (s : string) : option (string * string) :=
  match s with
  | String c r =>
      if Ascii.eqb c "-" then '(t, r) ← unsigned r; Some (String "-" t, r) else unsigned s
  | "" => None
  end.

(** The text of a keyword, taken away. *)
Fixpoint keyword (w s : string) : option string :=
  match w, s with
  | "", _ => Some s
  | String c w, String d s => if Ascii.eqb c d then keyword w s else None
  | _, "" => None
  end.

(** The next byte that is no space, when it is [c], taken away. *)
Definition next (c : ascii) (s : string) : option string :=
  match skip s with
  | String d r => if Ascii.eqb c d then Some r else None
  | "" => None
  end.

Fixpoint parse (fuel : nat) (s : string) : option (json * string) :=
  match fuel with
  | 0 => None
  | S fuel =>
      match skip s with
      | "" => None
      | String c r =>
          if Ascii.eqb c quote_mark then '(t, r) ← read_string r; Some (JStr t, r)
          else if Ascii.eqb c "{" then
            match next "}" r with
            | Some r => Some (JObj [], r)
            | None => '(l, r) ← members fuel r; Some (JObj l, r)
            end
          else if Ascii.eqb c "[" then
            match next "]" r with
            | Some r => Some (JArr [], r)
            | None => '(l, r) ← elements fuel r; Some (JArr l, r)
            end
          else if Ascii.eqb c "t" then r ← keyword "rue" r; Some (JBool true, r)
          else if Ascii.eqb c "f" then r ← keyword "alse" r; Some (JBool false, r)
          else if Ascii.eqb c "n" then r ← keyword "ull" r; Some (JNull, r)
          else '(t, r) ← number (String c r); Some (JNum t, r)
      end
  end
with members (fuel : nat) (s : string) : option (list (string * json) * string) :=
  match fuel with
  | 0 => None
  | S fuel =>
      match skip s with
      | String c r =>
          if Ascii.eqb c quote_mark then
            '(k, r) ← read_string r; r ← next ":" r; '(v, r) ← parse fuel r;
            match next "," r with
            | Some r => '(l, r) ← members fuel r; Some ((k, v) :: l, r)
            | None => r ← next "}" r; Some ([(k, v)], r)
            end
          else None
      | "" => None
      end
  end
with elements (fuel : nat) (s : string) : option (list json * string) :=
  match fuel with
  | 0 => None
  | S fuel =>
      '(v, r) ← parse fuel s;
      match next "," r with
      | Some r => '(l, r) ← elements fuel r; Some (v :: l, r)
      | None => r ← next "]" r; Some ([v], r)
      end
  end.

(** The first value of a text: every value that is read takes a byte of it. *)
Definition decode (s : string) : option (json * string) := parse (S (2 * String.length s)) s.

(** ** UTF-8, proved *)

Lemma between_iff lo hi c : between lo hi c = true ↔ (lo ≤ code c ≤ hi)%N.
Proof. unfold between. rewrite andb_true_iff, !N.leb_le. done. Qed.

Lemma one_iff a : one a = true ↔ (code a < 128)%N.
Proof. apply N.ltb_lt. Qed.

(** Turn the byte classes of the context into inequalities. *)
Ltac classes :=
  unfold two, three, four, cont in *;
  repeat match goal with
  | H : _ && _ = true |- _ => apply andb_true_iff in H as [? ?]
  | H : _ || _ = true |- _ => apply orb_true_iff in H as [?|?]
  | H : between _ _ _ = true |- _ => apply between_iff in H
  | H : one _ = true |- _ => apply one_iff in H
  end.

Lemma two_lead a b : two a b = true → (194 ≤ code a ≤ 223)%N.
Proof. intros H. classes. lia. Qed.
Lemma three_lead a b c : three a b c = true → (224 ≤ code a ≤ 239)%N.
Proof. intros H. classes; lia. Qed.
Lemma four_lead a b c d : four a b c d = true → (240 ≤ code a ≤ 244)%N.
Proof. intros H. classes; lia. Qed.

(** A rune at the head of a text is found there. *)
Lemma runes_cons c t : wf_chunk c = true → runes (rune_bytes c +:+ t) = c :: runes t.
Proof.
  destruct c as [a|a b|a b c|a b c d|a]; cbn [wf_chunk rune_bytes]; intros H; rewrite ?app_cons_str, ?app_nil_l_str.
  - cbn [runes]. by rewrite H.
  - pose proof (two_lead _ _ H). cbn [runes]. destruct (one a) eqn:E; [classes; lia|]. by rewrite H.
  - pose proof (three_lead _ _ _ H). cbn [runes]. destruct (one a) eqn:E; [classes; lia|].
    destruct (two a b) eqn:E2; [apply two_lead in E2; lia|]. by rewrite H.
  - pose proof (four_lead _ _ _ _ H). cbn [runes]. destruct (one a) eqn:E; [classes; lia|].
    destruct (two a b) eqn:E2; [apply two_lead in E2; lia|].
    destruct (three a b c) eqn:E3; [apply three_lead in E3; lia|]. by rewrite H.
  - done.
Qed.

(** The chunk that is read for it. *)
Definition good (c : chunk) : chunk :=
  match c with Bad _ => C3 (byte 239) (byte 191) (byte 189) | c => c end.

Definition is_bad (c : chunk) : bool := match c with Bad _ => true | _ => false end.

(** The bytes it was cut from. *)
Definition raw (c : chunk) : string := match c with Bad a => String a "" | c => rune_bytes c end.

Lemma cat_cons x l : cat (x :: l) = x +:+ cat l.
Proof. reflexivity. Qed.

Lemma cat_app l k : cat (l ++ k) = cat l +:+ cat k.
Proof. induction l as [|x l IH]; [done|]. cbn [app]. by rewrite !cat_cons, IH, app_assoc_str. Qed.

(** Every chunk is a rune or a bad byte, and they are the text. *)
Lemma runes_spec s :
  Forall (λ c, is_bad c || wf_chunk c = true) (runes s) ∧ cat (raw <$> runes s) = s.
Proof.
  remember (String.length s) as n eqn:Hn. revert s Hn.
  induction (lt_wf n) as [n _ IH]; intros s ->.
  assert (∀ c t, is_bad c || wf_chunk c = true → String.length t < String.length s →
    s = raw c +:+ t → Forall (λ c, is_bad c || wf_chunk c = true) (c :: runes t) ∧
    cat (raw <$> (c :: runes t)) = s) as Hstep.
  { intros c t Hc Hlt ->. destruct (IH _ Hlt t eq_refl) as [H1 H2].
    split; [by constructor|]. cbn [fmap list_fmap]. by rewrite cat_cons, H2. }
  destruct s as [|a s1]; [done|]. cbn [runes].
  destruct (one a) eqn:E1; [apply (Hstep (C1 a)); cbn; auto|].
  destruct s1 as [|b s2]; [by split; [repeat constructor|]|].
  destruct (two a b) eqn:E2; [apply (Hstep (C2 a b)); cbn; auto|].
  destruct s2 as [|c s3]; [by apply (Hstep (Bad a)); cbn; auto|].
  destruct (three a b c) eqn:E3; [apply (Hstep (C3 a b c)); cbn; auto|].
  destruct s3 as [|d s4]; [by apply (Hstep (Bad a)); cbn; auto|].
  destruct (four a b c d) eqn:E4; [apply (Hstep (C4 a b c d)); cbn; auto|].
  by apply (Hstep (Bad a)); cbn; auto.
Qed.

Lemma runes_ok s : Forall (λ c, is_bad c || wf_chunk c = true) (runes s).
Proof. apply runes_spec. Qed.

(** A text of runes is read as it is. *)
Lemma repair_valid s : valid s = true → repair s = s.
Proof.
  intros Hv. destruct (runes_spec s) as [_ Hs]. unfold repair. rewrite <-Hs at 2. f_equal.
  unfold valid in Hv. rewrite forallb_forall in Hv.
  apply list_fmap_ext. intros i c Hi. apply list_elem_of_lookup_2, list_elem_of_In, Hv in Hi.
  by destruct c.
Qed.

(** What has been repaired is not changed again. *)
Lemma runes_cat cs :
  Forall (λ c, is_bad c || wf_chunk c = true) cs → runes (cat (rune_bytes <$> cs)) = good <$> cs.
Proof.
  induction 1 as [|c cs Hc _ IH]; [done|]. cbn [fmap list_fmap]. rewrite cat_cons.
  replace (rune_bytes c) with (rune_bytes (good c)) by (by destruct c).
  rewrite runes_cons by (by destruct c). by rewrite IH.
Qed.

Lemma repair_repair s : repair (repair s) = repair s.
Proof.
  unfold repair at 1. unfold repair at 1. rewrite runes_cat by apply runes_ok.
  unfold repair. f_equal. rewrite <-list_fmap_compose. apply list_fmap_ext. by intros i [].
Qed.

(** ** Strings *)

Lemma hex_val_digit n : (n < 16)%N → hex_val (hex_digit n) = Some n.
Proof.
  intros H. assert (n ∈ below 16) as Hin by (apply elem_of_below; lia). cbn in Hin.
  repeat (apply elem_of_cons in Hin as [->|Hin]; [reflexivity|]). by apply not_elem_of_nil in Hin.
Qed.

Lemma hex4_digits n :
  (n < 65536)%N →
  hex4 (hex_digit (n / 4096)) (hex_digit (n / 256 mod 16)) (hex_digit (n / 16 mod 16))
    (hex_digit (n mod 16)) = Some n.
Proof.
  intros H. unfold hex4.
  rewrite !hex_val_digit by (first [apply N.mod_lt; lia | apply N.Div0.div_lt_upper_bound; lia]).
  cbn. f_equal.
  assert (n / 4096 = n / 16 / 16 / 16)%N as -> by (by rewrite !N.Div0.div_div).
  assert (n / 256 = n / 16 / 16)%N as -> by (by rewrite !N.Div0.div_div).
  pose proof (N.div_mod' n 16). pose proof (N.div_mod' (n / 16) 16).
  pose proof (N.div_mod' (n / 16 / 16) 16). lia.
Qed.

Lemma unquote_u n t :
  (n < 65536)%N → (n < 55296 ∨ 57344 ≤ n)%N →
  unquote (u_escape n +:+ t) = prepend (encode_rune n) (unquote t).
Proof.
  intros H1 H2. assert (∀ m, pair_rune n m = None) as Hp.
  { intros m. unfold pair_rune. destruct (_ && _ && _ && _) eqn:E; [|done].
    rewrite !andb_true_iff, !N.leb_le, !N.ltb_lt in E. lia. }
  assert (low n t = None) as Hlow.
  { unfold low. destruct t as [|b [|u [|k1 [|k2 [|k3 [|k4 t]]]]]]; try done.
    destruct (_ && _); [|done]. destruct (hex4 k1 k2 k3 k4); [apply Hp|done]. }
  unfold u_escape. rewrite !app_cons_str, app_nil_l_str.
  cbn [unquote]. change (Ascii.eqb backslash quote_mark) with false.
  change (Ascii.eqb backslash backslash) with true. change (unescape "u") with (@None ascii).
  change (Ascii.eqb "u" "u") with true. cbn iota. rewrite hex4_digits by done.
  by rewrite Hlow.
Qed.

(** A byte that stands for itself. *)
Definition plain (c : ascii) : bool :=
  negb (Ascii.eqb c quote_mark) && negb (Ascii.eqb c backslash) && negb (code c <? 32)%N.

Lemma unquote_plain c t : plain c = true → unquote (String c t) = prepend (String c "") (unquote t).
Proof.
  unfold plain. intros H. breflect. cbn [unquote].
  destruct (Ascii.eqb c quote_mark); [done|]. destruct (Ascii.eqb c backslash); [done|].
  by destruct (code c <? 32)%N.
Qed.

Lemma high_plain c : (128 ≤ code c)%N → plain c = true.
Proof.
  intros H. pose proof (forall_bytes (λ c, (code c <? 128)%N || plain c) eq_refl c) as Hc.
  apply orb_true_iff in Hc as [Hc%N.ltb_lt|Hc]; [lia|done].
Qed.

Lemma prepend_app x y r : prepend (x +:+ y) r = prepend x (prepend y r).
Proof. destruct r as [[t rest]|]; [|done]. cbn. by rewrite app_assoc_str. Qed.

Lemma unquote_ascii a t :
  one a = true → unquote (quote_ascii a +:+ t) = prepend (String a "") (unquote t).
Proof.
  intros Ha. unfold quote_ascii.
  pose proof (forall_bytes (λ a, match short_escape a with
    | Some e => bool_decide (unescape e = Some a)
    | None => (negb (one a) || ((code a <? 32)%N || html a) || plain a)
              && (negb (one a) || bool_decide (encode_rune (code a) = String a ""))
    end) eq_refl a) as H. cbn beta in H.
  destruct (short_escape a) as [e|].
  - apply bool_decide_eq_true in H. rewrite !app_cons_str, app_nil_l_str. cbn [unquote].
    change (Ascii.eqb backslash quote_mark) with false.
    change (Ascii.eqb backslash backslash) with true. cbn iota. by rewrite H.
  - rewrite Ha in H. cbn [negb orb] in H. apply andb_true_iff in H as [Hp He].
    apply bool_decide_eq_true in He. apply one_iff in Ha.
    destruct ((code a <? 32)%N || html a); cbn [orb] in Hp.
    + rewrite unquote_u by lia. by rewrite He.
    + rewrite app_cons_str, app_nil_l_str. by apply unquote_plain.
Qed.

Lemma unquote_high x t :
  all_bytes (λ c, (128 <=? code c)%N) x = true → unquote (x +:+ t) = prepend x (unquote t).
Proof.
  induction x as [|c x IH]; cbn [all_bytes].
  - intros _. rewrite app_nil_l_str. by destruct (unquote t) as [[]|].
  - intros [Hc%N.leb_le Hx]%andb_true_iff. rewrite app_cons_str, unquote_plain by (by apply high_plain).
    rewrite IH by done. by rewrite <-prepend_app.
Qed.

Lemma high_bytes c : wf_chunk c = true → match c with C1 _ => True | _ =>
  all_bytes (λ c, (128 <=? code c)%N) (rune_bytes c) = true end.
Proof.
  destruct c as [a|a b|a b c|a b c d|a]; cbn [wf_chunk rune_bytes all_bytes]; intros H; try done;
    rewrite ?andb_true_iff, ?N.leb_le; classes; lia.
Qed.

(** What is written for a chunk is read as its rune. *)
Lemma unquote_chunk c t :
  is_bad c || wf_chunk c = true → unquote (quote_chunk c +:+ t) = prepend (rune_bytes c) (unquote t).
Proof.
  destruct c as [a|a b|a b c|a b c d|a]; cbn [is_bad orb quote_chunk]; intros H.
  - by apply unquote_ascii.
  - apply unquote_high, (high_bytes _ H).
  - destruct (separator a b c) as [n|] eqn:E; [|apply unquote_high, (high_bytes _ H)].
    unfold separator in E. destruct (_ && _) eqn:Eab; [|done].
    apply andb_true_iff in Eab as [Ea%N.eqb_eq Eb%N.eqb_eq].
    rewrite <-(byte_code a), <-(byte_code b), <-(byte_code c), Ea, Eb.
    destruct (N.eqb_spec (code c) 168) as [Ec|_];
      [|destruct (N.eqb_spec (code c) 169) as [Ec|_]; [|done]];
      injection E as <-; rewrite Ec, unquote_u by lia; reflexivity.
  - apply unquote_high, (high_bytes _ H).
  - rewrite unquote_u by lia. reflexivity.
Qed.

(** A string that is written is read again, with the bytes that are no runes
    replaced. *)
Lemma read_quote s rest :
  read_string (cat (quote_chunk <$> runes s) +:+ String quote_mark rest) = Some (repair s, rest).
Proof.
  unfold read_string.
  assert (∀ cs, Forall (λ c, is_bad c || wf_chunk c = true) cs →
    unquote (cat (quote_chunk <$> cs) +:+ String quote_mark rest)
    = Some (cat (rune_bytes <$> cs), rest)) as H.
  { induction 1 as [|c cs Hc _ IH]; [done|]. cbn [fmap list_fmap].
    rewrite !cat_cons, app_assoc_str, unquote_chunk by done. setoid_rewrite IH. done. }
  rewrite H by apply runes_ok. cbn. fold (repair s). by rewrite repair_repair.
Qed.

(** ** Values *)

(** A value as it is read after it was written. *)
Fixpoint seen (j : json) : json :=
  match j with
  | JStr s => JStr (repair s)
  | JArr l => JArr (seen <$> l)
  | JObj l => JObj ((λ kv, (repair kv.1, seen kv.2)) <$> l)
  | j => j
  end.

(** Values without numbers, the ones the program writes. *)
Fixpoint numberless (j : json) : bool :=
  match j with
  | JNum _ => false
  | JArr l => forallb numberless l
  | JObj l => forallb (λ kv, numberless kv.2) l
  | _ => true
  end.

Fixpoint size (j : json) : nat :=
  match j with
  | JArr l => S (sum_list_with (λ j, S (size j)) l)
  | JObj l => S (sum_list_with (λ kv, S (size kv.2)) l)
  | _ => 1
  end.

Lemma json_ind_strong (P : json → Prop) :
  P JNull → (∀ b, P (JBool b)) → (∀ t, P (JNum t)) → (∀ s, P (JStr s)) →
  (∀ l, Forall P l → P (JArr l)) → (∀ l, Forall (λ kv, P kv.2) l → P (JObj l)) →
  ∀ j, P j.
Proof.
  intros H1 H2 H3 H4 H5 H6. fix IH 1. intros [|b|t|s|l|l]; [exact H1|apply H2|apply H3|apply H4|apply H5|apply H6].
  - induction l as [|j l IHl]; constructor; [apply IH|exact IHl].
  - induction l as [|[k j] l IHl]; constructor; [apply IH|exact IHl].
Qed.

Lemma skip_quote s t : skip (quote s +:+ t) = quote s +:+ t.
Proof. reflexivity. Qed.

Lemma quote_app s t :
  quote s +:+ t = String quote_mark (cat (quote_chunk <$> runes s) +:+ String quote_mark t).
Proof. unfold quote. by rewrite app_cons_str, app_assoc_str. Qed.

Lemma commas_cons x y l : commas (x :: y :: l) = x +:+ String "," (commas (y :: l)).
Proof. reflexivity. Qed.

(** The members of an object, written with commas, are read again. *)
Lemma members_print l fuel rest :
  l ≠ [] → sum_list_with (λ kv, S (size kv.2)) l ≤ fuel →
  Forall (λ kv, ∀ fuel rest, size kv.2 ≤ fuel →
            parse fuel (print kv.2 +:+ rest) = Some (seen kv.2, rest)) l →
  members fuel (commas ((λ kv, quote kv.1 +:+ String ":" (print kv.2)) <$> l) +:+ String "}" rest)
  = Some ((λ kv, (repair kv.1, seen kv.2)) <$> l, rest).
Proof.
  revert fuel. induction l as [|[k v] l IH]; intros fuel Hne Hf Hl; [done|].
  apply Forall_cons in Hl as [Hv Hl]. cbn [sum_list_with fst snd] in *. destruct fuel as [|fuel]; [lia|].
  assert (∀ t, members (S fuel) (quote k +:+ String ":" (print v +:+ t)) =
    match next "," t with
    | Some r => '(l, r) ← members fuel r; Some ((repair k, seen v) :: l, r)
    | None => r ← next "}" t; Some ([(repair k, seen v)], r)
    end) as Hm.
  { intros t. cbn [members]. rewrite skip_quote, quote_app.
    change (Ascii.eqb quote_mark quote_mark) with true. cbn iota. rewrite read_quote. cbn [mbind option_bind].
    change (next ":" (String ":" (print v +:+ t))) with (Some (print v +:+ t)). cbn [mbind option_bind].
    rewrite Hv by lia. reflexivity. }
  destruct l as [|kv l].
  - cbn [fmap list_fmap commas fst snd]. rewrite app_assoc_str, app_cons_str, Hm. reflexivity.
  - rewrite !fmap_cons, commas_cons, !app_assoc_str, !app_cons_str. cbn [fst snd]. rewrite Hm.
    change (next "," (String "," ?x)) with (Some x). cbn iota.
    specialize (IH fuel). rewrite fmap_cons in IH. rewrite IH; [reflexivity|done|lia|done].
Qed.

Lemma elements_print l fuel rest :
  l ≠ [] → sum_list_with (λ j, S (size j)) l ≤ fuel →
  Forall (λ j, ∀ fuel rest, size j ≤ fuel →
            parse fuel (print j +:+ rest) = Some (seen j, rest)) l →
  elements fuel (commas (print <$> l) +:+ String "]" rest) = Some (seen <$> l, rest).
Proof.
  revert fuel. induction l as [|v l IH]; intros fuel Hne Hf Hl; [done|].
  apply Forall_cons in Hl as [Hv Hl]. cbn [sum_list_with] in *. destruct fuel as [|fuel]; [lia|].
  destruct l as [|j l]; cbn [elements].
  - cbn [fmap list_fmap commas]. rewrite Hv by lia. reflexivity.
  - rewrite !fmap_cons, commas_cons, app_assoc_str, Hv by lia. cbn [mbind option_bind]. rewrite app_cons_str.
    change (next "," (String "," ?x)) with (Some x). cbn iota.
    specialize (IH fuel). rewrite fmap_cons in IH. rewrite IH; [reflexivity|done|lia|done].
Qed.

Lemma commas_quote_head l rest :
  l ≠ [] → ∃ r, commas ((λ kv : string * json, quote kv.1 +:+ String ":" (print kv.2)) <$> l)
                +:+ rest = String quote_mark r.
Proof.
  destruct l as [|kv [|kv' l]]; [done|..]; intros _.
  - cbn. by eexists.
  - rewrite !fmap_cons, commas_cons. cbn. by eexists.
Qed.

(** The first byte of a value is no space and closes nothing. *)
Lemma print_head j :
  numberless j = true →
  ∃ c r, print j = String c r ∧ space c = false ∧ Ascii.eqb c "]" = false.
Proof. destruct j as [|[]|t|s|l|l]; intros H; try done; cbn; by do 2 eexists. Qed.

(** *** Round trip *)

Lemma parse_print j :
  numberless j = true → ∀ fuel rest, size j ≤ fuel →
  parse fuel (print j +:+ rest) = Some (seen j, rest).
Proof.
  induction j as [|b|t|s|l IH|l IH] using json_ind_strong; intros Hn [|fuel] rest Hf;
    try (cbn in Hf; lia); cbn [numberless size] in *.
  - reflexivity.
  - by destruct b.
  - done.
  - cbn [print]. rewrite quote_app. cbn [parse]. change (skip (String quote_mark ?x)) with (String quote_mark x).
    change (Ascii.eqb quote_mark quote_mark) with true. cbn iota. rewrite read_quote. reflexivity.
  - destruct l as [|j l]; [reflexivity|]. cbn [print]. rewrite app_cons_str, app_assoc_str.
    change ("]" +:+ rest) with (String "]" rest).
    assert (next "]" (commas (print <$> j :: l) +:+ String "]" rest) = None) as Hx.
    { destruct (print_head j) as (c & r & Hp & Hs & Hc); [by apply andb_true_iff in Hn as [? _]|].
      destruct l as [|j' l]; [cbn [fmap list_fmap commas]|rewrite !fmap_cons, commas_cons, app_assoc_str];
        rewrite Hp, app_cons_str; unfold next; cbn [skip]; by rewrite Hs, Ascii.eqb_sym, Hc. }
    assert (∀ x, parse (S fuel) (String "[" x) = match next "]" x with
      | Some r => Some (JArr [], r)
      | None => '(l, r) ← elements fuel x; Some (JArr l, r) end) as -> by reflexivity.
    rewrite Hx, (elements_print (j :: l)); [reflexivity|done|lia|].
    rewrite forallb_forall in Hn. rewrite Forall_forall in IH |- *.
    intros j' Hj'. apply IH; [done|]. by apply Hn, list_elem_of_In.
  - destruct l as [|kv l]; [reflexivity|]. cbn [print]. rewrite app_cons_str, app_assoc_str.
    change ("}" +:+ rest) with (String "}" rest). set (text := commas _ +:+ _).
    assert (next "}" text = None) as Hx.
    { destruct (commas_quote_head (kv :: l) (String "}" rest)) as [r Hr]; [done|].
      unfold text. by rewrite Hr. }
    assert (∀ x, parse (S fuel) (String "{" x) = match next "}" x with
      | Some r => Some (JObj [], r)
      | None => '(l, r) ← members fuel x; Some (JObj l, r) end) as -> by reflexivity.
    rewrite Hx. unfold text. rewrite (members_print (kv :: l)); [reflexivity|done|lia|].
    rewrite forallb_forall in Hn. rewrite Forall_forall in IH |- *.
    intros kv' Hkv'. apply IH; [done|]. by apply (Hn kv'), list_elem_of_In.
Qed.

Lemma size_length j : numberless j = true → size j ≤ 2 * String.length (print j).
Proof.
  induction j as [|b|t|s|l IH|l IH] using json_ind_strong; intros Hn; cbn [size print numberless] in *.
  - cbn. lia.
  - destruct b; cbn; lia.
  - done.
  - unfold quote. cbn. lia.
  - cbn [String.length]. rewrite length_app_str. cbn [String.length].
    assert (sum_list_with (λ j, S (size j)) l ≤ 2 * String.length (commas (print <$> l)) + 1); [|lia].
    induction l as [|j l IHl]; [cbn; lia|]. apply Forall_cons in IH as [Hj IH].
    apply andb_true_iff in Hn as [Hnj Hn]. specialize (Hj Hnj). specialize (IHl IH Hn).
    destruct l as [|j' l]; [cbn [fmap list_fmap commas sum_list_with]; lia|].
    rewrite !fmap_cons, commas_cons, length_app_str. rewrite fmap_cons in IHl.
    cbn [sum_list_with String.length] in *. lia.
  - cbn [String.length]. rewrite length_app_str. cbn [String.length].
    assert (sum_list_with (λ kv, S (size kv.2)) l ≤ 2 * String.length
      (commas ((λ kv, quote kv.1 +:+ String ":" (print kv.2)) <$> l)) + 1); [|lia].
    induction l as [|[k j] l IHl]; [cbn; lia|]. apply Forall_cons in IH as [Hj IH].
    apply andb_true_iff in Hn as [Hnj Hn]. specialize (Hj Hnj). specialize (IHl IH Hn). cbn [snd] in Hj.
    destruct l as [|kv' l].
    + cbn [fmap list_fmap commas sum_list_with fst snd]. rewrite length_app_str. cbn [String.length]. lia.
    + rewrite !fmap_cons, commas_cons, !length_app_str. rewrite fmap_cons in IHl.
      cbn [sum_list_with String.length fst snd] in *. lia.
Qed.

(** What is written is read again, whatever follows. *)
Lemma decode_print j rest :
  numberless j = true → decode (print j +:+ rest) = Some (seen j, rest).
Proof.
  intros Hn. unfold decode. apply parse_print; [done|].
  pose proof (size_length j Hn). rewrite length_app_str. lia.
Qed.

(** ** Nothing short of a value is taken for one

    Reading more text after a value that was read does not change it. *)

Lemma skip_ext s t c r : skip s = String c r → skip (s +:+ t) = String c (r +:+ t).
Proof.
  induction s as [|d s IH]; [done|]. rewrite app_cons_str. cbn [skip].
  destruct (space d); [done|]. by intros [= -> ->].
Qed.

Lemma next_ext c s t r : next c s = Some r → next c (s +:+ t) = Some (r +:+ t).
Proof.
  unfold next. destruct (skip s) as [|d r'] eqn:E; [done|]. rewrite (skip_ext _ _ _ _ E).
  destruct (Ascii.eqb c d); [|done]. by intros [= ->].
Qed.

Lemma next_none c s t : skip s ≠ "" → next c s = None → next c (s +:+ t) = None.
Proof.
  unfold next. destruct (skip s) as [|d r'] eqn:E; [done|]. rewrite (skip_ext _ _ _ _ E).
  by destruct (Ascii.eqb c d).
Qed.

Lemma next_skip c s r : next c s = Some r → skip s ≠ "".
Proof. unfold next. by destruct (skip s). Qed.

Lemma skip_nonempty s : skip s ≠ "" → s ≠ "".
Proof. by destruct s. Qed.

Lemma keyword_ext w s t r : keyword w s = Some r → keyword w (s +:+ t) = Some (r +:+ t).
Proof.
  revert s. induction w as [|c w IH]; intros s; cbn [keyword]; [by intros [= ->]|].
  destruct s as [|d s]; [done|]. rewrite app_cons_str. destruct (Ascii.eqb c d); [|done]. apply IH.
Qed.

Lemma prepend_some x r y rest :
  prepend x r = Some (y, rest) → ∃ y', r = Some (y', rest) ∧ y = x +:+ y'.
Proof. destruct r as [[t q]|]; [|done]. cbn. intros [= <- <-]. by eexists. Qed.

Lemma low_ext n s t : unquote s ≠ None → low n (s +:+ t) = low n s.
Proof.
  intros Hs. destruct s as [|b s]; [done|]. cbn [unquote] in Hs.
  destruct (Ascii.eqb b backslash) eqn:Eb.
  - apply Ascii.eqb_eq in Eb. subst b. change (Ascii.eqb backslash quote_mark) with false in Hs. cbn iota in Hs.
    destruct s as [|u s]; [done|]. destruct (Ascii.eqb u "u") eqn:Eu.
    + apply Ascii.eqb_eq in Eu. subst u. change (unescape "u") with (@None ascii) in Hs. cbn iota in Hs.
      by destruct s as [|k1 [|k2 [|k3 [|k4 s]]]].
    + unfold low. rewrite !app_cons_str.
      destruct s as [|k1 [|k2 [|k3 [|k4 s]]]], t as [|t1 [|t2 [|t3 [|t4 t]]]]; cbn [String.append];
        rewrite ?Eu, ?andb_false_r; done.
  - unfold low. rewrite app_cons_str.
    destruct s as [|u [|k1 [|k2 [|k3 [|k4 s]]]]], t as [|t0 [|t1 [|t2 [|t3 [|t4 t]]]]]; cbn [String.append];
      rewrite ?Eb; done.
Qed.

Lemma unquote_ext s t x r : unquote s = Some (x, r) → unquote (s +:+ t) = Some (x, r +:+ t).
Proof.
  remember (String.length s) as n eqn:Hn. revert s Hn x r.
  induction (lt_wf n) as [n _ IH]; intros s -> x r.
  assert (∀ p s', String.length s' < String.length s → prepend p (unquote s') = Some (x, r) →
    prepend p (unquote (s' +:+ t)) = Some (x, r +:+ t)) as Hp.
  { intros p s' Hlt (y & Hy & ->)%prepend_some. by rewrite (IH _ Hlt s' eq_refl _ _ Hy). }
  destruct s as [|c s]; [done|]. rewrite app_cons_str. cbn [unquote].
  destruct (Ascii.eqb c quote_mark); [by intros [= <- <-]|].
  destruct (Ascii.eqb c backslash).
  2: { destruct (code c <? 32)%N; [done|]. apply Hp. cbn. lia. }
  destruct s as [|e s]; [done|]. rewrite app_cons_str.
  destruct (unescape e) as [u|]; [apply Hp; cbn; lia|].
  destruct (Ascii.eqb e "u"); [|done].
  destruct s as [|h1 [|h2 [|h3 [|h4 s]]]]; try done. rewrite !app_cons_str.
  destruct (hex4 h1 h2 h3 h4) as [m|]; [|done].
  destruct (low m s) as [z|] eqn:Elow.
  - assert (low m (s +:+ t) = Some z) as ->.
    { unfold low in *. by destruct s as [|b [|u [|k1 [|k2 [|k3 [|k4 s]]]]]]. }
    destruct s as [|b [|u [|k1 [|k2 [|k3 [|k4 s]]]]]]; try done. rewrite !app_cons_str.
    apply Hp. cbn. lia.
  - intros H. assert (unquote s ≠ None) as Hs by (intros E; by rewrite E in H).
    rewrite low_ext, Elow by done. apply Hp; [cbn; lia|done].
Qed.

Lemma read_string_ext s t x r :
  read_string s = Some (x, r) → read_string (s +:+ t) = Some (x, r +:+ t).
Proof.
  unfold read_string. destruct (unquote s) as [[y q]|] eqn:E; [|done]. cbn. intros [= <- <-].
  by rewrite (unquote_ext _ t _ _ E).
Qed.

(** A number ends where something else begins. *)
Lemma span_ext s t : (span_digits s).2 ≠ "" →
  span_digits (s +:+ t) = ((span_digits s).1, (span_digits s).2 +:+ t).
Proof.
  induction s as [|c s IH]; [done|]. rewrite app_cons_str. cbn [span_digits].
  destruct (strconv.is_digit c); [|done].
  destruct (span_digits s) as [d r]. cbn in *. intros H. by rewrite IH.
Qed.

Lemma digits1_ext s t d r : digits1 s = Some (d, r) → r ≠ "" → digits1 (s +:+ t) = Some (d, r +:+ t).
Proof.
  unfold digits1. pose proof (span_ext s t) as H. destruct (span_digits s) as [[|c d'] r']; [done|].
  intros [= <- <-] Hr. cbn in H. by rewrite H.
Qed.

Lemma digits1_rest s d r : digits1 s = Some (d, r) → s ≠ "".
Proof. by destruct s. Qed.

Lemma exponent_ext s t e r : exponent s = Some (e, r) → r ≠ "" → exponent (s +:+ t) = Some (e, r +:+ t).
Proof.
  destruct s as [|c s]; [by intros [= <- <-]|]. rewrite app_cons_str. cbn [exponent].
  destruct (Ascii.eqb c "e" || Ascii.eqb c "E"); [|by intros [= <- <-]].
  destruct s as [|g s]; [done|]. rewrite app_cons_str.
  destruct (Ascii.eqb g "+" || Ascii.eqb g "-").
  - destruct (digits1 s) as [[d q]|] eqn:E; [|done]. cbn. intros [= <- <-] Hr.
    by rewrite (digits1_ext _ t _ _ E Hr).
  - destruct (digits1 (String g s)) as [[d q]|] eqn:E; [|done]. cbn. intros [= <- <-] Hr.
    rewrite <-app_cons_str. by rewrite (digits1_ext _ t _ _ E Hr).
Qed.

Lemma exponent_end s e r : exponent s = Some (e, r) → r ≠ "" → s ≠ "".
Proof. destruct s; [|done]. by intros [= <- <-]. Qed.

Lemma fraction_ext s t f r : fraction s = Some (f, r) → r ≠ "" → fraction (s +:+ t) = Some (f, r +:+ t).
Proof.
  destruct s as [|c s]; [by intros [= <- <-]|]. rewrite app_cons_str. cbn [fraction].
  destruct (Ascii.eqb c "."); [|rewrite <-app_cons_str; apply exponent_ext].
  destruct (digits1 s) as [[d q]|] eqn:E; [|done]. cbn.
  destruct (exponent q) as [[e q']|] eqn:E'; [|done]. cbn. intros [= <- <-] Hr.
  rewrite (digits1_ext _ t _ _ E) by (by eapply exponent_end). cbn.
  by rewrite (exponent_ext _ t _ _ E' Hr).
Qed.

Lemma fraction_end s f r : fraction s = Some (f, r) → r ≠ "" → s ≠ "".
Proof. destruct s; [|done]. by intros [= <- <-]. Qed.

Lemma unsigned_ext s t u r : unsigned s = Some (u, r) → r ≠ "" → unsigned (s +:+ t) = Some (u, r +:+ t).
Proof.
  destruct s as [|c s]; [done|]. rewrite app_cons_str. cbn [unsigned]. destruct (Ascii.eqb c "0").
  - destruct (fraction s) as [[f q]|] eqn:E; [|done]. cbn. intros [= <- <-] Hr.
    by rewrite (fraction_ext _ t _ _ E Hr).
  - destruct (digits1 (String c s)) as [[d q]|] eqn:E; [|done]. cbn.
    destruct (fraction q) as [[f q']|] eqn:E'; [|done]. cbn. intros [= <- <-] Hr.
    rewrite <-app_cons_str, (digits1_ext _ t _ _ E) by (by eapply fraction_end). cbn.
    by rewrite (fraction_ext _ t _ _ E' Hr).
Qed.

Lemma number_ext s t u r : number s = Some (u, r) → r ≠ "" → number (s +:+ t) = Some (u, r +:+ t).
Proof.
  destruct s as [|c s]; [done|]. rewrite app_cons_str. cbn [number]. destruct (Ascii.eqb c "-").
  - destruct (unsigned s) as [[f q]|] eqn:E; [|done]. cbn. intros [= <- <-] Hr.
    by rewrite (unsigned_ext _ t _ _ E Hr).
  - rewrite <-app_cons_str. apply unsigned_ext.
Qed.

Definition is_num (j : json) : bool := match j with JNum _ => true | _ => false end.

Lemma members_skip n s x : members n s = Some x → skip s ≠ "".
Proof. destruct n; [done|]. cbn [members]. by destruct (skip s). Qed.

Lemma parse_skip n s x : parse n s = Some x → skip s ≠ "".
Proof. destruct n; [done|]. cbn [parse]. by destruct (skip s). Qed.

Lemma elements_skip n s x : elements n s = Some x → skip s ≠ "".
Proof.
  destruct n as [|n]; [done|]. cbn [elements]. destruct (parse n s) as [[v r]|] eqn:E; [|done].
  intros _. by eapply parse_skip.
Qed.

Lemma nonempty_of_next c s r : next c s = Some r → s ≠ "".
Proof. by destruct s. Qed.

(** Reading with more text, and with more fuel, gives the same: what a reader with
    fuel [n] finds, the one with fuel [m] finds before [t]. *)
Definition parse_extends (n m : nat) (t : string) : Prop :=
  ∀ s j r, parse n s = Some (j, r) → r ≠ "" ∨ is_num j = false →
    parse m (s +:+ t) = Some (j, r +:+ t).

Definition members_extends (n m : nat) (t : string) : Prop :=
  ∀ s l r, members n s = Some (l, r) → members m (s +:+ t) = Some (l, r +:+ t).

Definition elements_extends (n m : nat) (t : string) : Prop :=
  ∀ s l r, elements n s = Some (l, r) → elements m (s +:+ t) = Some (l, r +:+ t).

Lemma parse_step_ext n m t :
  members_extends n m t → elements_extends n m t → parse_extends (S n) (S m) t.
Proof.
  intros IHm IHe.
  intros s j r. cbn [parse]. destruct (skip s) as [|c q] eqn:Es; [done|].
  rewrite (skip_ext _ t _ _ Es).
  destruct (Ascii.eqb c quote_mark).
  { destruct (read_string q) as [[x q']|] eqn:E; [|done]. cbn. intros [= <- <-] _.
    by rewrite (read_string_ext _ t _ _ E). }
  destruct (Ascii.eqb c "{").
  { destruct (next "}" q) as [q'|] eqn:E.
    - intros [= <- <-] _. by rewrite (next_ext _ _ t _ E).
    - destruct (members n q) as [[l q']|] eqn:E'; [|done]. cbn. intros [= <- <-] _.
      rewrite next_none by (done || by eapply members_skip). by rewrite (IHm _ _ _ E'). }
  destruct (Ascii.eqb c "[").
  { destruct (next "]" q) as [q'|] eqn:E.
    - intros [= <- <-] _. by rewrite (next_ext _ _ t _ E).
    - destruct (elements n q) as [[l q']|] eqn:E'; [|done]. cbn. intros [= <- <-] _.
      rewrite next_none by (done || by eapply elements_skip). by rewrite (IHe _ _ _ E'). }
  destruct (Ascii.eqb c "t"); [|destruct (Ascii.eqb c "f"); [|destruct (Ascii.eqb c "n")]].
  1-3: match goal with |- context [keyword ?w ?y] => destruct (keyword w y) as [q'|] eqn:E end;
    [|done]; cbn [mbind option_bind]; intros [= <- <-] _; by rewrite (keyword_ext _ _ t _ E).
  destruct (number (String c q)) as [[x q']|] eqn:E; [|done].
  cbn [mbind option_bind]. intros [= <- <-] [Hr|Hr]; [|done].
  pose proof (number_ext _ t _ _ E Hr) as H. rewrite app_cons_str in H. by rewrite H.
Qed.

Lemma members_step_ext n m t :
  parse_extends n m t → members_extends n m t → members_extends (S n) (S m) t.
Proof.
  intros IHp IHm.
  intros s l r. cbn [members]. destruct (skip s) as [|c q] eqn:Es; [done|].
  rewrite (skip_ext _ t _ _ Es). destruct (Ascii.eqb c quote_mark); [|done].
  destruct (read_string q) as [[k q1]|] eqn:E1; [|done]. rewrite (read_string_ext _ t _ _ E1).
  cbn [mbind option_bind].
  destruct (next ":" q1) as [q2|] eqn:E2; [|done]. rewrite (next_ext _ _ t _ E2). cbn [mbind option_bind].
  destruct (parse n q2) as [[v q3]|] eqn:E3; [|done]. cbn [mbind option_bind].
  destruct (next "," q3) as [q4|] eqn:E4.
  - rewrite (IHp _ _ _ E3) by (left; by eapply nonempty_of_next). cbn [mbind option_bind].
    rewrite (next_ext _ _ t _ E4).
    destruct (members n q4) as [[l' q5]|] eqn:E5; [|done]. cbn. intros [= <- <-].
    by rewrite (IHm _ _ _ E5).
  - destruct (next "}" q3) as [q4|] eqn:E5; [|done]. cbn. intros [= <- <-].
    rewrite (IHp _ _ _ E3) by (left; by eapply nonempty_of_next). cbn [mbind option_bind].
    rewrite next_none by (done || by eapply next_skip). by rewrite (next_ext _ _ t _ E5).
Qed.

Lemma elements_step_ext n m t :
  parse_extends n m t → elements_extends n m t → elements_extends (S n) (S m) t.
Proof.
  intros IHp IHe.
  intros s l r. cbn [elements]. destruct (parse n s) as [[v q]|] eqn:E1; [|done]. cbn [mbind option_bind].
  destruct (next "," q) as [q1|] eqn:E2.
  - rewrite (IHp _ _ _ E1) by (left; by eapply nonempty_of_next). cbn [mbind option_bind].
    rewrite (next_ext _ _ t _ E2).
    destruct (elements n q1) as [[l' q2]|] eqn:E3; [|done]. cbn. intros [= <- <-].
    by rewrite (IHe _ _ _ E3).
  - destruct (next "]" q) as [q1|] eqn:E3; [|done]. cbn. intros [= <- <-].
    rewrite (IHp _ _ _ E1) by (left; by eapply nonempty_of_next). cbn [mbind option_bind].
    rewrite next_none by (done || by eapply next_skip). by rewrite (next_ext _ _ t _ E3).
Qed.

Lemma parse_ext n m t :
  n ≤ m → parse_extends n m t ∧ members_extends n m t ∧ elements_extends n m t.
Proof.
  revert m. induction n as [|n IH]; intros m Hm; [done|]. destruct m as [|m]; [lia|].
  destruct (IH m) as (IHp & IHm & IHe); [lia|].
  by auto using parse_step_ext, members_step_ext, elements_step_ext.
Qed.

(** No proper part of the text of an object or array, from its beginning, is read
    as a value. *)
Lemma decode_prefix j p q :
  numberless j = true → match j with JArr _ | JObj _ => True | _ => False end →
  print j = p +:+ q → q ≠ "" → decode p = None.
Proof.
  intros Hn Hj Hpq Hq. destruct (decode p) as [[j' r]|] eqn:E; [|done]. exfalso.
  pose proof (decode_print j "" Hn) as Hd. rewrite app_nil_r_str, Hpq in Hd.
  unfold decode in *. set (n := S _) in E. set (m := S _) in Hd.
  assert (n ≤ m) as Hnm by (unfold n, m; rewrite length_app_str; lia).
  destruct (parse_ext n m q Hnm) as [Hext _].
  destruct (is_num j') eqn:Ej.
  - unfold n in E. cbn [parse] in E.
    assert (∃ c t, p +:+ q = String c t ∧ (c = "{"%char ∨ c = "["%char)) as (c & t & Hc & Hcc).
    { rewrite <-Hpq. destruct j; try done; cbn [print]; eauto 10. }
    destruct p as [|c' p]; [done|]. rewrite app_cons_str in Hc. injection Hc as -> _.
    destruct Hcc as [-> | ->].
    + change (skip (String "{" p)) with (String "{" p) in E. cbn iota in E.
      change (Ascii.eqb "{" quote_mark) with false in E. change (Ascii.eqb "{" "{") with true in E. cbn iota in E.
      destruct (next "}" p); [by simplify_eq/=|].
      destruct (members _ p) as [[l x]|]; [|done]. cbn in E. by simplify_eq/=.
    + change (skip (String "[" p)) with (String "[" p) in E. cbn iota in E.
      change (Ascii.eqb "[" quote_mark) with false in E. change (Ascii.eqb "[" "{") with false in E.
      change (Ascii.eqb "[" "[") with true in E. cbn iota in E.
      destruct (next "]" p); [by simplify_eq/=|].
      destruct (elements _ p) as [[l x]|]; [|done]. cbn in E. by simplify_eq/=.
  - rewrite (Hext _ _ _ E) in Hd by (by right). injection Hd as _ Hr.
    apply app_eq_nil_str in Hr as [_ ?]. done.
Qed.

(** A value all of whose text is UTF-8 is read as it was. *)
Fixpoint valid_tree (j : json) : bool :=
  match j with
  | JStr s => valid s
  | JArr l => forallb valid_tree l
  | JObj l => forallb (λ kv, valid kv.1 && valid_tree kv.2) l
  | _ => true
  end.

Lemma seen_valid j : valid_tree j = true → seen j = j.
Proof.
  induction j as [|b|t|s|l IH|l IH] using json_ind_strong; intros Hv; cbn [valid_tree seen] in *; try done.
  - by rewrite repair_valid.
  - f_equal. induction IH as [|j l Hj _ IHl]; [done|]. apply andb_true_iff in Hv as [H1 H2].
    cbn [fmap list_fmap]. rewrite Hj by done. f_equal. by apply IHl.
  - f_equal. induction IH as [|[k j] l Hj _ IHl]; [done|]. apply andb_true_iff in Hv as [H1 H2].
    apply andb_true_iff in H1 as [Hk H1]. cbn [fmap list_fmap fst snd] in *.
    rewrite Hj, repair_valid by done. f_equal. by apply IHl.
Qed.

End json.
