(* ===== verification/Api.v ===== *)
(** * Requests to the API server ([src/internal/kube/pods.go])

    [do], [apiError] and [list] as programs over the files and the HTTP exchanges
    they make, with the JSON text of a response decoded as in [Json].  TLS and
    the HTTP transport are the exchange: a request with its headers is answered
    with a status and the text of a body, or fails. *)

From S2P Require Import Prelude GoStrings Effects Os Kube Json.
Import kube.

Module api.

Local Open Scope prog_scope.

(** A response: its status, the text of its body, and the error that ends it
    when the connection breaks. *)
Record response := mkResponse {
  r_status : Z;
  r_body : string;
  r_broken : option error;
}.

Inductive call :=
| OS (c : os.call)
| NewRequest (url : string)                       (** [http.NewRequestWithContext] *)
| RoundTrip (url authorization accept : string)   (** [w.client.Do] of a GET *)
| CloseBody.

Definition answer (c : call) : Type :=
  match c with
  | OS c => os.answer c
  | NewRequest _ => option error
  | RoundTrip _ _ _ => result response error
  | CloseBody => unit
  end.

Definition API : sig := Sig call answer.

Definition do_ (c : call) : prog API (answer c) := Effects.call (Σ:=API) c.

Definition lift_os {A} (p : prog os.OS A) : prog API A :=
  interp (Σ1:=os.OS) (Σ2:=API) (λ c, do_ (OS c)) p.

(** An [*apiError] or any other error. *)
Inductive do_error := Plain (e : error) | APIErr (code : Z) (body : string).

(** [Error] of an [apiError] *)
Definition apiError_Error (code : Z) (body : string) : error :=
  "API server returned " +:+ fmt.d code +:+ ": " +:+ body.

(** The explanation of a rejection: at most 2048 bytes of the body. *)
Definition rejection (r : response) : string :=
  let body :=
    match r_broken r with
    | Some e =>
        if bool_decide (String.length (r_body r) < 2048) then "<body unreadable: " +:+ e +:+ ">"
        else String.substring 0 2048 (r_body r)
    | None => String.substring 0 2048 (r_body r)
    end in
  strings.TrimSpace body.

Definition do (cfg : Config) (rawURL : string) : prog API (result response do_error) :=
  token <- lift_os (bearer cfg) ;;
  match token with
  | Err e => Ret (Err (Plain e))
  | Ok token =>
      err <- do_ (NewRequest rawURL) ;;
      match err with
      | Some e => Ret (Err (Plain e))
      | None =>
          resp <- do_ (RoundTrip rawURL ("Bearer " +:+ token) "application/json") ;;
          match resp with
          | Err e => Ret (Err (Plain e))
          | Ok resp =>
              if negb (r_status resp =? 200)%Z then
                do_ CloseBody ;;;
                Ret (Err (APIErr (r_status resp) (rejection resp)))
              else Ret (Ok resp)
          end
      end
  end.



(** ** The token *)

Notation ev c x := (Event (Σ:=API) c x).

(** Where the token of a run comes from. *)
Definition token_of (cfg : Config) (tr : trace API) (token : string) : Prop :=
  Token cfg ≠ "" ∧ token = Token cfg ∨
  Token cfg = "" ∧ ∃ data, ev (OS (os.ReadFile tokenFile)) (Ok data) ∈ tr ∧
                           token = strings.TrimSpace data.

Lemma bearer_runs cfg tr r :
  runs (lift_os (bearer cfg)) tr r →
  Forall (λ x : event API, ∃ c, ev_op x = OS c) tr ∧
  match r with Ok token => token_of cfg tr token | Err _ => True end.
Proof.
  unfold bearer, lift_os. destruct (decide (Token cfg ≠ "")) as [Ht|Ht%dec_stable]; cbn.
  - intros [-> ->]. split; [done|]. by left.
  - intros (x & tr' & -> & -> & ->). split; [repeat constructor; by eexists|].
    destruct x as [data|e]; [|done]. right. split; [done|]. exists data. split; [left|done].
Qed.

(** C29. Every request to the API server carries the token that is current then.
    Whatever happens, [do] makes at most one request; its Authorization header is
    the bearer token configured or, without one, the service account's, read from
    its file in the same call; the token goes nowhere else; and without a token
    no request is made. *)
Theorem requests_carry_current_token (cfg : Config) (rawURL : string) (tr : trace API)
    (r : result response do_error)
  (Hrun : runs (do cfg rawURL) tr r) :
  (∃ tr1 token x tr2,
     tr = tr1 ++ ev (RoundTrip rawURL ("Bearer " +:+ token) "application/json") x :: tr2 ∧
     token_of cfg tr1 token ∧
     Forall (λ y : event API, ∀ u h a, ev_op y ≠ RoundTrip u h a) (tr1 ++ tr2)) ∨
  Forall (λ y : event API, ∀ u h a, ev_op y ≠ RoundTrip u h a) tr ∧
  ∃ e, r = Err (Plain e).
Proof.
  unfold do in Hrun. apply runs_bind in Hrun as (t1 & t2 & token & -> & Ht & Hrun).
  apply bearer_runs in Ht as [Hos Ht].
  assert (Forall (λ y : event API, ∀ u h a, ev_op y ≠ RoundTrip u h a) t1) as Hq.
  { eapply Forall_impl; [exact Hos|]. intros y [c Hc]. by rewrite Hc. }
  destruct token as [token|e]; [|destruct Hrun as [-> ->]; right; rewrite app_nil_r; eauto].
  cbn [bind do_ Effects.call runs] in Hrun. destruct Hrun as (x & t3 & -> & Hrun).
  destruct x as [e|]; cbn [bind do_ Effects.call runs] in Hrun.
  { destruct Hrun as [-> ->]. right. split; [|eauto]. apply Forall_app. by repeat constructor. }
  destruct Hrun as (x & t4 & -> & Hrun). left. exists (t1 ++ [ev (NewRequest rawURL) None]), token, x, t4.
  split; [by rewrite <-app_assoc|]. split.
  - destruct Ht as [Ht|(H0 & data & Hin & Heq)]; [by left|right]. split; [done|]. exists data.
    split; [|done]. apply elem_of_app. by left.
  - rewrite !Forall_app. split; [split; [done|by repeat constructor]|].
    destruct x as [resp|e]; [destruct (negb _)|]; cbn [bind do_ Effects.call runs] in Hrun.
    + destruct Hrun as (u & t5 & -> & -> & _). by repeat constructor.
    + destruct Hrun as [-> _]. constructor.
    + destruct Hrun as [-> _]. constructor.
Qed.

(** ** Reading a query back *)








(** ** Listing over HTTP *)












Definition configured : Config := mkConfig "https://10.0.0.1:443" "node-1" "t0k3n" "" false.

Lemma requests_carry_current_token_witness :
  ∃ tr r, runs (do configured "https://x/") tr r ∧
    (∃ tr1 token x tr2,
       tr = tr1 ++ ev (RoundTrip "https://x/" ("Bearer " +:+ token) "application/json") x :: tr2 ∧
       token = "t0k3n").
Proof.
  pose proof (requests_carry_current_token configured "https://x/"
    [ev (NewRequest "https://x/") None;
     ev (RoundTrip "https://x/" "Bearer t0k3n" "application/json") (Err "refused")]
    (Err (Plain "refused"))) as H.
  exists [ev (NewRequest "https://x/") None;
     ev (RoundTrip "https://x/" "Bearer t0k3n" "application/json") (Err "refused")], (Err (Plain "refused")).
  assert (runs (do configured "https://x/")
    [ev (NewRequest "https://x/") None;
     ev (RoundTrip "https://x/" "Bearer t0k3n" "application/json") (Err "refused")]
    (Err (Plain "refused"))) as Hr.
  { exists None. eexists. split; [reflexivity|]. exists (Err "refused"). eexists. split; [reflexivity|].
    by split. }
  split; [exact Hr|]. destruct (H Hr) as [(tr1 & token & x & tr2 & Heq & Htok & _)|[Hf _]].
  - exists tr1, token, x, tr2. split; [exact Heq|]. destruct Htok as [[_ ->]|[? _]]; [reflexivity|discriminate].
  - exfalso. apply Forall_cons in Hf as [_ [Hf _]%Forall_cons]. by eapply Hf.
Defined.

End api.
