(* ===== verification/Secrets.v ===== *)
(** * Package secrets: bindings and the authorization decision
    ([src/internal/secrets/registry.go])

    A registry is a list of bindings; [Lookup] walks it for one binary name and
    one caller.  The theorems give [admits] its meaning as a conjunction of
    constraints, show that a caller without a pod is never admitted by a
    pod-scoped constraint, and refine [Lookup]'s loop to filters over the
    bindings. *)

From S2P Require Import Prelude GoStrings Kube.

Module secrets.

(** ** Data *)

Record Secret := mkSecret { sec_Name : string; sec_Value : string }.

Record Selector := mkSelector {
  sel_Binary : string;
  sel_Container : string;
  sel_Namespace : string;
  sel_Labels : gmap string string;
  sel_CgroupPath : string;
}.

Record Caller := mkCaller {
  caller_CgroupPath : string;
  caller_CgroupID : Z;
  caller_CgroupPathRelative : bool;
  caller_PodUID : string;
  caller_ContainerID : string;
  caller_Pod : option kube.Pod;
}.

Record Binding := mkBinding {
  b_Name : string;
  b_Selector : Selector;
  b_Secrets : list Secret;
  b_Unresolved : list string;
  b_Rejected : string;
}.

Record Match := mkMatch {
  m_Secrets : list Secret;
  m_Unresolved : list string;
  m_Refused : list string;
  m_Rejected : list string;
}.

Record Registry := mkRegistry { bindings : list Binding }.

#[export] Instance Secret_eq_dec : EqDecision Secret.
Proof. solve_decision. Defined.
#[export] Instance Selector_eq_dec : EqDecision Selector.
Proof. solve_decision. Defined.
#[export] Instance Binding_eq_dec : EqDecision Binding.
Proof. solve_decision. Defined.

(** ** Operations *)

Definition IsPodScoped (s : Selector) : bool :=
  bool_decide (sel_Namespace s ≠ "") || bool_decide (0 < size (sel_Labels s))
  || bool_decide (sel_CgroupPath s ≠ "") || bool_decide (sel_Container s ≠ "").

Definition cgroupPathMatches (want got : string) : bool :=
  let want := strings.TrimSuffix want "/" in
  if decide (want = "") then false
  else bool_decide (got = want) || strings.HasPrefix got (want +:+ "/").

Definition relative_reason : string :=
  "cgroupPath (agent is in its own cgroup namespace, so caller paths are not comparable)".

(** [m[k]] on a Go map: the zero value when the key is missing. *)
Definition get (m : gmap string string) (k : string) : string := default "" (m !! k).

(** The body of the loop over the labels accepts [k] and [v]. *)
Definition label_ok (c : Caller) (kv : string * string) : bool :=
  match caller_Pod c with
  | None => false
  | Some p => bool_decide (get (kube.pod_Labels p) kv.1 = kv.2)
  end.

Definition admits (s : Selector) (c : Caller) : bool * string :=
  if bool_decide (sel_CgroupPath s ≠ "") && caller_CgroupPathRelative c
  then (false, relative_reason)
  else if bool_decide (sel_CgroupPath s ≠ "")
          && negb (cgroupPathMatches (sel_CgroupPath s) (caller_CgroupPath c))
  then (false, "cgroupPath")
  else if bool_decide (sel_Namespace s ≠ "")
          && match caller_Pod c with
             | None => true
             | Some p => bool_decide (kube.pod_Namespace p ≠ sel_Namespace s)
             end
  then (false, "namespace")
  else if negb (forallb (label_ok c) (map_to_list (sel_Labels s)))
  then (false, "labels")
  else if bool_decide (sel_Container s ≠ "")
          && match caller_Pod c with
             | None => true
             | Some p =>
                 bool_decide (caller_ContainerID c = "")
                 || bool_decide (get (kube.pod_Containers p) (caller_ContainerID c)
                                 ≠ sel_Container s)
             end
  then (false, "container")
  else (true, "").

Definition Empty (m : Match) : bool :=
  bool_decide (m_Secrets m = []) && bool_decide (m_Unresolved m = [])
  && bool_decide (m_Refused m = []) && bool_decide (m_Rejected m = []).

Definition NewRegistry : Registry := {| bindings := [] |}.

Definition Replace (r : Registry) (bs : list Binding) : Registry := {| bindings := bs |}.

Definition empty_match : Match :=
  {| m_Secrets := []; m_Unresolved := []; m_Refused := []; m_Rejected := [] |}.

(** The body of [Lookup]'s loop. *)
Definition lookup_step (binaryName : string) (caller : Caller) (m : Match)
    (b : Binding) : Match :=
  if bool_decide (sel_Binary (b_Selector b) ≠ "")
     && bool_decide (sel_Binary (b_Selector b) ≠ binaryName)
  then m
  else if bool_decide (b_Rejected b ≠ "") then
    {| m_Secrets := m_Secrets m; m_Unresolved := m_Unresolved m;
       m_Refused := m_Refused m; m_Rejected := m_Rejected m ++ [b_Name b] |}
  else
    let '(ok, why) := admits (b_Selector b) caller in
    if negb ok then
      {| m_Secrets := m_Secrets m; m_Unresolved := m_Unresolved m;
         m_Refused := m_Refused m ++ [b_Name b +:+ " (" +:+ why +:+ ")"];
         m_Rejected := m_Rejected m |}
    else
      {| m_Secrets := m_Secrets m ++ b_Secrets b;
         m_Unresolved := m_Unresolved m ++ b_Unresolved b;
         m_Refused := m_Refused m; m_Rejected := m_Rejected m |}.

Definition Lookup (r : Registry) (binaryName : string) (caller : Caller) : Match :=
  let m := foldl (lookup_step binaryName caller) empty_match (bindings r) in
  {| m_Secrets := m_Secrets m;
     m_Unresolved := sort.Strings (m_Unresolved m);
     m_Refused := m_Refused m;
     m_Rejected := m_Rejected m |}.

(** The body of [TargetBinaries]' loop: the names seen and the output. *)
Definition target_step (acc : gset string * list string) (b : Binding)
    : gset string * list string :=
  let '(seen, out) := acc in
  let name := sel_Binary (b_Selector b) in
  if decide (name = "" ∨ name ∈ seen) then acc
  else ({[name]} ∪ seen, out ++ [name]).

Definition TargetBinaries (r : Registry) : list string :=
  sort.Strings (foldl target_step (∅, []) (bindings r)).2.

(** ** Specification

    What each constraint of a selector means for a caller. *)

Definition cgroup_constraint (s : Selector) (c : Caller) : Prop :=
  sel_CgroupPath s = "" ∨
  (caller_CgroupPathRelative c = false ∧
   ∃ base rest,
     strings.TrimSuffix (sel_CgroupPath s) "/" = base ∧ base ≠ "" ∧
     caller_CgroupPath c = base +:+ rest ∧
     (rest = "" ∨ ∃ r, rest = "/" +:+ r)).

Definition pod_satisfies (P : kube.Pod → Prop) (c : Caller) : Prop :=
  ∃ p, caller_Pod c = Some p ∧ P p.

Definition namespace_constraint (s : Selector) (c : Caller) : Prop :=
  sel_Namespace s = "" ∨
  pod_satisfies (λ p, kube.pod_Namespace p = sel_Namespace s) c.

Definition labels_constraint (s : Selector) (c : Caller) : Prop :=
  ∀ k v, sel_Labels s !! k = Some v →
    pod_satisfies (λ p, get (kube.pod_Labels p) k = v) c.

Definition container_constraint (s : Selector) (c : Caller) : Prop :=
  sel_Container s = "" ∨
  (caller_ContainerID c ≠ "" ∧
   pod_satisfies
     (λ p, kube.pod_Containers p !! caller_ContainerID c = Some (sel_Container s)) c).

Definition admitted (s : Selector) (c : Caller) : Prop :=
  cgroup_constraint s c ∧ namespace_constraint s c ∧
  labels_constraint s c ∧ container_constraint s c.

(** The bindings a request names: those without a binary and those with it. *)
Definition names_binary (binaryName : string) (b : Binding) : bool :=
  bool_decide (sel_Binary (b_Selector b) = "")
  || bool_decide (sel_Binary (b_Selector b) = binaryName).

Inductive verdict := Unrelated | Rejects | Refuses (why : string) | Serves.

Definition judge (binaryName : string) (c : Caller) (b : Binding) : verdict :=
  if names_binary binaryName b then
    if bool_decide (b_Rejected b ≠ "") then Rejects
    else let '(ok, why) := admits (b_Selector b) c in
         if ok then Serves else Refuses why
  else Unrelated.

Definition serves (binaryName : string) (c : Caller) (b : Binding) : bool :=
  match judge binaryName c b with Serves => true | _ => false end.

(** ** The constraints, decided *)

Lemma cgroupPathMatches_iff want got :
  cgroupPathMatches want got = true ↔
  let base := strings.TrimSuffix want "/" in
  base ≠ "" ∧ ∃ rest, got = base +:+ rest ∧ (rest = "" ∨ ∃ r, rest = "/" +:+ r).
Proof.
  unfold cgroupPathMatches. set (base := strings.TrimSuffix want "/"). cbv zeta.
  destruct (decide (base = "")) as [->|Hne]; [naive_solver|].
  rewrite orb_true_iff, bool_decide_eq_true, strings.HasPrefix_spec. split.
  - intros [->|[r ->]]; split; try done.
    + exists "". by rewrite app_nil_r_str; auto.
    + exists ("/" +:+ r). rewrite app_assoc_str. eauto.
  - intros (_ & rest & -> & [->|[r ->]]).
    + left. by rewrite app_nil_r_str.
    + right. exists r. by rewrite app_assoc_str.
Qed.

Lemma cgroup_constraint_iff s c :
  cgroup_constraint s c ↔
  bool_decide (sel_CgroupPath s ≠ "") && caller_CgroupPathRelative c = false ∧
  bool_decide (sel_CgroupPath s ≠ "")
    && negb (cgroupPathMatches (sel_CgroupPath s) (caller_CgroupPath c)) = false.
Proof.
  unfold cgroup_constraint.
  destruct (decide (sel_CgroupPath s = "")) as [He|He].
  { rewrite bool_decide_eq_false_2 by auto. naive_solver. }
  rewrite bool_decide_eq_true_2 by auto. simpl.
  rewrite negb_false_iff, cgroupPathMatches_iff. naive_solver.
Qed.

Lemma namespace_constraint_iff s c :
  namespace_constraint s c ↔
  bool_decide (sel_Namespace s ≠ "")
    && match caller_Pod c with
       | None => true
       | Some p => bool_decide (kube.pod_Namespace p ≠ sel_Namespace s)
       end = false.
Proof.
  unfold namespace_constraint, pod_satisfies.
  destruct (decide (sel_Namespace s = "")) as [He|He].
  { rewrite bool_decide_eq_false_2 by auto. naive_solver. }
  rewrite bool_decide_eq_true_2 by auto. simpl.
  destruct (caller_Pod c) as [p|]; [|naive_solver].
  rewrite bool_decide_eq_false. destruct (decide (kube.pod_Namespace p = sel_Namespace s));
    naive_solver.
Qed.

Lemma label_ok_iff c k v :
  label_ok c (k, v) = true ↔ pod_satisfies (λ p, get (kube.pod_Labels p) k = v) c.
Proof.
  unfold label_ok, pod_satisfies. destruct (caller_Pod c); simpl; [|naive_solver].
  rewrite bool_decide_eq_true. naive_solver.
Qed.

Lemma labels_constraint_iff s c :
  labels_constraint s c ↔
  negb (forallb (label_ok c) (map_to_list (sel_Labels s))) = false.
Proof.
  unfold labels_constraint. rewrite negb_false_iff, forallb_forall. split.
  - intros H [k v] Hin. apply list_elem_of_In, elem_of_map_to_list in Hin.
    apply label_ok_iff. eauto.
  - intros H k v Hk. apply label_ok_iff, H. by apply list_elem_of_In, elem_of_map_to_list.
Qed.

Lemma container_constraint_iff s c :
  container_constraint s c ↔
  bool_decide (sel_Container s ≠ "")
    && match caller_Pod c with
       | None => true
       | Some p =>
           bool_decide (caller_ContainerID c = "")
           || bool_decide (get (kube.pod_Containers p) (caller_ContainerID c)
                           ≠ sel_Container s)
       end = false.
Proof.
  unfold container_constraint, pod_satisfies, get.
  destruct (decide (sel_Container s = "")) as [He|He].
  { rewrite bool_decide_eq_false_2 by auto. naive_solver. }
  rewrite bool_decide_eq_true_2 by auto. simpl.
  destruct (caller_Pod c) as [p|]; [|naive_solver].
  rewrite orb_false_iff, !bool_decide_eq_false.
  destruct (kube.pod_Containers p !! caller_ContainerID c) as [n|] eqn:E; simpl.
  - destruct (decide (n = sel_Container s)); naive_solver.
  - naive_solver.
Qed.

(** The cascade of [admits], branch by branch. *)
Inductive admits_spec (s : Selector) (c : Caller) : bool * string → Prop :=
| adm_cgroup r : ¬ cgroup_constraint s c →
    r = relative_reason ∨ r = "cgroupPath" →
    (r = relative_reason ↔ caller_CgroupPathRelative c = true) →
    admits_spec s c (false, r)
| adm_namespace : cgroup_constraint s c → ¬ namespace_constraint s c →
    admits_spec s c (false, "namespace")
| adm_labels : cgroup_constraint s c → namespace_constraint s c →
    ¬ labels_constraint s c → admits_spec s c (false, "labels")
| adm_container : cgroup_constraint s c → namespace_constraint s c →
    labels_constraint s c → ¬ container_constraint s c →
    admits_spec s c (false, "container")
| adm_ok : admitted s c → admits_spec s c (true, "").

Lemma admits_sound s c : admits_spec s c (admits s c).
Proof.
  unfold admits.
  destruct (_ && caller_CgroupPathRelative c) eqn:E1.
  { breflect. apply adm_cgroup; [|by auto|done].
    rewrite cgroup_constraint_iff, bool_decide_eq_true_2 by done. simpl. intros [H' _].
    congruence. }
  destruct (_ && negb (cgroupPathMatches _ _)) eqn:E2.
  { apply adm_cgroup; [|by auto|].
    - rewrite cgroup_constraint_iff, E2. by intros [_ ?].
    - breflect. rewrite bool_decide_eq_true_2 in E1 by done. simpl in E1. by rewrite E1. }
  assert (cgroup_constraint s c) as Hc by (by apply cgroup_constraint_iff).
  clear E1 E2.
  destruct (_ && match caller_Pod c with Some _ => _ | None => _ end) eqn:E3.
  { apply adm_namespace; [done|]. rewrite namespace_constraint_iff, E3. done. }
  apply namespace_constraint_iff in E3.
  destruct (negb (forallb _ _)) eqn:E4.
  { apply adm_labels; [done..|]. rewrite labels_constraint_iff, E4. done. }
  apply labels_constraint_iff in E4.
  destruct (_ && match caller_Pod c with Some _ => _ | None => _ end) eqn:E5.
  { apply adm_container; [done..|]. rewrite container_constraint_iff, E5. done. }
  apply container_constraint_iff in E5. by apply adm_ok.
Qed.

Lemma admits_true s c : (admits s c).1 = true ↔ admitted s c.
Proof.
  destruct (admits_sound s c); simpl; unfold admitted in *; split; try done;
    by intros (? & ? & ? & ?).
Qed.

(** A caller without a pod meets no constraint on the pod. *)
Lemma without_pod s c :
  admitted s c → caller_Pod c = None →
  sel_Namespace s = "" ∧ sel_Labels s = ∅ ∧ sel_Container s = "".
Proof.
  intros (_ & Hn & Hl & Hc) Hp. unfold namespace_constraint, labels_constraint,
    container_constraint, pod_satisfies in *. rewrite Hp in *.
  split; [by destruct Hn as [?|(? & ? & _)]|].
  split; [|by destruct Hc as [?|(_ & ? & ? & _)]].
  apply map_eq. intros k. rewrite lookup_empty.
  destruct (sel_Labels s !! k) as [v|] eqn:E; [|done].
  by destruct (Hl k v E) as (? & ? & _).
Qed.

(** ** The lookup loop as filters *)

Definition rejects (binaryName : string) (c : Caller) (b : Binding) : option string :=
  match judge binaryName c b with Rejects => Some (b_Name b) | _ => None end.

Definition refuses (binaryName : string) (c : Caller) (b : Binding) : option string :=
  match judge binaryName c b with
  | Refuses why => Some (b_Name b +:+ " (" +:+ why +:+ ")")
  | _ => None
  end.

Lemma names_binary_neg bin b :
  names_binary bin b =
  negb (bool_decide (sel_Binary (b_Selector b) ≠ "")
        && bool_decide (sel_Binary (b_Selector b) ≠ bin)).
Proof.
  unfold names_binary.
  repeat case_bool_decide; simpl; done.
Qed.

Lemma lookup_step_judge bin c m b :
  lookup_step bin c m b =
  match judge bin c b with
  | Unrelated => m
  | Rejects =>
      mkMatch (m_Secrets m) (m_Unresolved m) (m_Refused m) (m_Rejected m ++ [b_Name b])
  | Refuses why =>
      mkMatch (m_Secrets m) (m_Unresolved m)
        (m_Refused m ++ [b_Name b +:+ " (" +:+ why +:+ ")"]) (m_Rejected m)
  | Serves =>
      mkMatch (m_Secrets m ++ b_Secrets b) (m_Unresolved m ++ b_Unresolved b)
        (m_Refused m) (m_Rejected m)
  end.
Proof.
  unfold lookup_step, judge. rewrite names_binary_neg.
  destruct (_ && _); simpl; [done|].
  case_bool_decide; [done|]. by destruct (admits (b_Selector b) c) as [[] why].
Qed.

(** What [Lookup] returns, without its loop. *)
Definition lookup_spec (bs : list Binding) (bin : string) (c : Caller) : Match :=
  let served := filter (λ b, serves bin c b = true) bs in
  {| m_Secrets := served ≫= b_Secrets;
     m_Unresolved := sort.Strings (served ≫= b_Unresolved);
     m_Refused := omap (refuses bin c) bs;
     m_Rejected := omap (rejects bin c) bs |}.

Lemma lookup_loop bin c bs m :
  foldl (lookup_step bin c) m bs =
  let served := filter (λ b, serves bin c b = true) bs in
  {| m_Secrets := m_Secrets m ++ (served ≫= b_Secrets);
     m_Unresolved := m_Unresolved m ++ (served ≫= b_Unresolved);
     m_Refused := m_Refused m ++ omap (refuses bin c) bs;
     m_Rejected := m_Rejected m ++ omap (rejects bin c) bs |}.
Proof.
  revert m. induction bs as [|b bs IH]; intros m; simpl.
  { rewrite !app_nil_r. by destruct m. }
  rewrite IH, lookup_step_judge, filter_cons.
  unfold serves, refuses, rejects. destruct (judge bin c b); simpl;
    rewrite ?app_nil_r, <-?app_assoc; done.
Qed.

Lemma Lookup_spec r bin c : Lookup r bin c = lookup_spec (bindings r) bin c.
Proof. unfold Lookup. by rewrite lookup_loop. Qed.

Lemma serves_iff bin c b :
  serves bin c b = true ↔
  (sel_Binary (b_Selector b) = "" ∨ sel_Binary (b_Selector b) = bin) ∧
  b_Rejected b = "" ∧ admitted (b_Selector b) c.
Proof.
  unfold serves, judge.
  rewrite <-admits_true. destruct (admits (b_Selector b) c) as [[] why]; simpl;
    unfold names_binary; repeat case_bool_decide; naive_solver.
Qed.

Lemma elem_of_lookup_Secrets r bin c sec :
  sec ∈ m_Secrets (Lookup r bin c) ↔
  ∃ b, b ∈ bindings r ∧ serves bin c b = true ∧ sec ∈ b_Secrets b.
Proof.
  rewrite Lookup_spec. simpl. rewrite list_elem_of_bind.
  setoid_rewrite list_elem_of_filter. naive_solver.
Qed.

Lemma lookup_Refused_nil r bin c :
  m_Refused (Lookup r bin c) = [] ↔
  ∀ b, b ∈ bindings r → refuses bin c b = None.
Proof.
  rewrite Lookup_spec. simpl. induction (bindings r) as [|b bs IH]; simpl.
  { split; [intros _ b Hb; by apply not_elem_of_nil in Hb|done]. }
  destruct (refuses bin c b) eqn:E.
  - split; [done|]. intros H. rewrite H in E; [done|by left].
  - rewrite IH. split; [|intros H b' Hb'; apply H; by right].
    intros H b' Hb'. apply elem_of_cons in Hb' as [->|Hb']; auto.
Qed.

(** ** The names for the kernel-side filter *)

Lemma target_loop bs seen out :
  NoDup out →
  (∀ x, x ∈ out ↔ x ∈ seen) →
  let r := foldl target_step (seen, out) bs in
  NoDup r.2 ∧
  ∀ x, x ∈ r.2 ↔ x ∈ out ∨ (x ≠ "" ∧ ∃ b, b ∈ bs ∧ sel_Binary (b_Selector b) = x).
Proof.
  revert seen out. induction bs as [|b bs IH]; intros seen out Hnd Hseen; simpl.
  { split; [done|]. intros x. split; [auto|]. intros [?|(_ & b & Hb & _)]; [done|].
    by apply not_elem_of_nil in Hb. }
  set (n := sel_Binary (b_Selector b)).
  destruct (decide (n = "" ∨ n ∈ seen)) as [Hskip|Hadd].
  - destruct (IH seen out) as [Hnd' Hin]; [done..|]. split; [done|].
    intros x. rewrite Hin. setoid_rewrite elem_of_cons.
    destruct Hskip as [Hn|Hn]; [naive_solver|].
    apply Hseen in Hn. naive_solver.
  - destruct (IH ({[n]} ∪ seen) (out ++ [n])) as [Hnd' Hin].
    + apply NoDup_app. split; [done|]. split; [|by apply NoDup_singleton].
      intros x Hx ->%list_elem_of_singleton. apply Hseen in Hx. tauto.
    + intros x. rewrite elem_of_app, list_elem_of_singleton, Hseen. set_solver.
    + split; [done|]. intros x. rewrite Hin, elem_of_app, list_elem_of_singleton.
      setoid_rewrite elem_of_cons. split.
      * intros [[?| ->]|(? & b' & ? & ?)]; [by left| |right; split; [done|]; by exists b'; auto].
        right. split; [tauto|]. exists b. auto.
      * intros [?|(Hx & b' & [->|?] & Hb')]; [by auto|left; right; by rewrite <-Hb'|].
        right. split; [done|]. by exists b'.
Qed.

(** ** Properties *)

(** C20. [admits] decides exactly the conjunction of the selector's cgroup,
    namespace, label and container constraints, and when it refuses, the reason
    it reports names the first constraint in that order that fails. *)
Theorem admits_decides s c :
  ((admits s c).1 = true ↔ admitted s c) ∧
  (∀ why, admits s c = (false, why) →
     (why = "namespace" ∧ cgroup_constraint s c ∧ ¬ namespace_constraint s c) ∨
     (why = "labels" ∧ cgroup_constraint s c ∧ namespace_constraint s c ∧
        ¬ labels_constraint s c) ∨
     (why = "container" ∧ cgroup_constraint s c ∧ namespace_constraint s c ∧
        labels_constraint s c ∧ ¬ container_constraint s c) ∨
     ((why = relative_reason ∨ why = "cgroupPath") ∧ ¬ cgroup_constraint s c)).
Proof.
  split; [apply admits_true|]. intros why Hw.
  pose proof (admits_sound s c) as H. rewrite Hw in H. inversion H; subst; auto 10.
Qed.

(** What is unknown never widens what a selector admits: a caller that
    could not be mapped to a pod and is admitted all the same meets a selector
    with no namespace, label or container constraint, and would be admitted
    whatever pod it turned out to be in. *)
Theorem unknown_pod_never_widens s c :
  caller_Pod c = None → admitted s c →
  (sel_Namespace s = "" ∧ sel_Labels s = ∅ ∧ sel_Container s = "") ∧
  ∀ pod cid,
    (admits s (mkCaller (caller_CgroupPath c) (caller_CgroupID c)
                 (caller_CgroupPathRelative c) (caller_PodUID c) cid pod)).1 = true.
Proof.
  intros Hp (Hc & Hn & Hl & Hk).
  assert (sel_Namespace s = "") as En.
  { destruct Hn as [?|(p & ? & _)]; [done|congruence]. }
  assert (sel_Container s = "") as Ek.
  { destruct Hk as [?|(_ & p & ? & _)]; [done|congruence]. }
  assert (sel_Labels s = ∅) as El.
  { apply map_eq. intros k. rewrite lookup_empty.
    destruct (sel_Labels s !! k) as [v|] eqn:E; [|done].
    destruct (Hl k v E) as (p & ? & _). congruence. }
  split; [done|]. intros pod cid. apply admits_true.
  split; [done|]. split; [by left|]. split; [|by left].
  intros k v. simpl. by rewrite El, lookup_empty.
Qed.

Example unknown_pod_never_widens_witness :
  let s := mkSelector "psql" "" "" ∅ "/system.slice/db.service/" in
  let c := mkCaller "/system.slice/db.service" 7 false "" "" None in
  (admits s (mkCaller "/system.slice/db.service" 7 false "" "abc"
     (Some (kube.mkPod "u" "p" "ns" ∅ ∅)))).1 = true.
Proof.
  apply (unknown_pod_never_widens
           (mkSelector "psql" "" "" ∅ "/system.slice/db.service/")
           (mkCaller "/system.slice/db.service" 7 false "" "" None));
    [reflexivity|]. apply admits_true. vm_compute. reflexivity.
Defined.

(** C21. A [cgroupPath] selector matches by whole path segments: the selector,
    less one trailing slash, is not empty and its segments are a prefix of the
    caller's; a sibling such as [/a/bc] never matches [/a/b]. *)
Theorem cgroupPathMatches_by_segment want got :
  cgroupPathMatches want got = true ↔
  strings.TrimSuffix want "/" ≠ "" ∧
  strings.Split (strings.TrimSuffix want "/") "/" `prefix_of` strings.Split got "/".
Proof.
  rewrite cgroupPathMatches_iff, strings.Split_prefix. done.
Qed.

(** C22. [Lookup]'s loop computes, for every registry, binary and caller: the
    secrets of the bindings that serve the request in configuration order, the
    sorted unresolved names of those bindings, and the names of the refusing
    and of the rejected bindings; and it is [Empty] exactly when every binding
    is unrelated to the request or serves it with nothing. *)
Theorem Lookup_refines_filters r bin c :
  Lookup r bin c = lookup_spec (bindings r) bin c ∧
  (Empty (Lookup r bin c) = true ↔
   ∀ b, b ∈ bindings r →
     judge bin c b = Unrelated ∨
     (judge bin c b = Serves ∧ b_Secrets b = [] ∧ b_Unresolved b = [])).
Proof.
  split; [apply Lookup_spec|]. rewrite Lookup_spec. unfold Empty. simpl.
  rewrite !andb_true_iff, !bool_decide_eq_true, sort.Strings_nil, <-Forall_forall.
  induction (bindings r) as [|b bs IH]; simpl; [by rewrite Forall_nil|].
  rewrite Forall_cons, <-IH, filter_cons. clear IH.
  destruct (decide (serves bin c b = true)) as [Hs|Hs]; unfold serves in Hs;
    unfold refuses at 1, rejects at 1;
    destruct (judge bin c b) eqn:E; try congruence; simpl; rewrite ?app_nil;
    intuition congruence.
Qed.

(** Every secret [Lookup] returns comes from a binding of the registry that
    names the requested binary (or none), that the policy did not reject, and
    whose every constraint the caller satisfies. *)
Theorem Lookup_releases_only_admitted r bin c sec :
  sec ∈ m_Secrets (Lookup r bin c) →
  ∃ b, b ∈ bindings r ∧ sec ∈ b_Secrets b ∧ b_Rejected b = "" ∧
    (sel_Binary (b_Selector b) = "" ∨ sel_Binary (b_Selector b) = bin) ∧
    admitted (b_Selector b) c.
Proof.
  intros (b & Hb & Hs & Hsec)%elem_of_lookup_Secrets. apply serves_iff in Hs.
  exists b. naive_solver.
Qed.

Definition example_binding : Binding :=
  mkBinding "db" (mkSelector "psql" "" "prod" ∅ "") [mkSecret "PW" "x"] [] "".

Definition example_caller : Caller :=
  mkCaller "/kubepods/pod1" 3 false "1" "" (Some (kube.mkPod "1" "p" "prod" ∅ ∅)).

Example Lookup_releases_only_admitted_witness :
  ∃ b, b ∈ [example_binding] ∧ mkSecret "PW" "x" ∈ b_Secrets b ∧ b_Rejected b = "" ∧
    (sel_Binary (b_Selector b) = "" ∨ sel_Binary (b_Selector b) = "psql") ∧
    admitted (b_Selector b) example_caller.
Proof.
  apply (Lookup_releases_only_admitted (mkRegistry [example_binding]) "psql"
           example_caller (mkSecret "PW" "x")).
  vm_compute. left.
Defined.

(** [TargetBinaries] lists every non-empty binary name a binding selects on,
    once each and in byte order. *)
Theorem TargetBinaries_correct r :
  StronglySorted String.le (TargetBinaries r) ∧ NoDup (TargetBinaries r) ∧
  ∀ x, x ∈ TargetBinaries r ↔
       x ≠ "" ∧ ∃ b, b ∈ bindings r ∧ sel_Binary (b_Selector b) = x.
Proof.
  unfold TargetBinaries.
  destruct (target_loop (bindings r) ∅ []) as [Hnd Hin];
    [constructor|set_solver|].
  split; [apply sort.Strings_sorted|]. split; [by rewrite sort.Strings_perm|].
  intros x. rewrite sort.elem_of_Strings, Hin, elem_of_nil. naive_solver.
Qed.

End secrets.
