(* ===== verification/Protocol.v ===== *)
(** * Package protocol: the shim's request and the agent's answer
    ([src/internal/protocol/protocol.go])

    The messages as decoded; [Wire] has the JSON text they travel as. *)

From S2P Require Import Prelude.

Module protocol.

Definition DefaultSocketPath : string := "/run/kernelseal/kernelseal.sock".

Definition MaxMessageSize : Z := Z.shiftl 1 20.

Record Request := mkRequest { req_Binary : string }.

(** An absent [env] and an empty one are the same message. *)
Record Response := mkResponse {
  resp_OK : bool;
  resp_Env : gmap string string;
  resp_Protected : bool;
  resp_Error : string;
  resp_Warning : string;
}.

(** [protocol.Response{Error: e}] *)
Definition Refusal (e : string) : Response := mkResponse false ∅ false e "".

End protocol.
