(* ===== verification/Wire.v ===== *)
(** * The messages on the wire ([src/internal/protocol/protocol.go])

    The request and the answer as the JSON text that is sent: what
    [json.NewEncoder(conn).Encode] writes for them and what
    [json.NewDecoder(io.LimitReader(conn, MaxMessageSize)).Decode] makes of it,
    on either side of the socket. *)

From S2P Require Import Prelude GoStrings Effects Os Kube Json Protocol.
Import kube.

Module wire.

(** ** Encoding *)

Definition newline : string := String (byte 10) "".

Definition enc_request (r : protocol.Request) : json :=
  JObj [("binary", JStr (protocol.req_Binary r))].

(** A map is written sorted by key. *)
Definition env_pairs (env : gmap string string) : list (string * string) :=
  (λ k, (k, default "" (env !! k))) <$> sort.Strings (map_to_list env).*1.

Definition enc_env (env : gmap string string) : json :=
  JObj ((λ kv, (kv.1, JStr kv.2)) <$> env_pairs env).

(** Empty [env], [error] and [warning] are left out. *)
Definition enc_response (r : protocol.Response) : json :=
  JObj ([("ok", JBool (protocol.resp_OK r))]
        ++ (if decide (protocol.resp_Env r = ∅) then [] else [("env", enc_env (protocol.resp_Env r))])
        ++ [("protected", JBool (protocol.resp_Protected r))]
        ++ (if decide (protocol.resp_Error r = "") then []
            else [("error", JStr (protocol.resp_Error r))])
        ++ (if decide (protocol.resp_Warning r = "") then []
            else [("warning", JStr (protocol.resp_Warning r))])).

Definition encode_request (r : protocol.Request) : string := json.print (enc_request r) +:+ newline.
Definition encode_response (r : protocol.Response) : string := json.print (enc_response r) +:+ newline.

(** ** Decoding *)

(** [io.LimitReader] *)
Definition limited (n : nat) (data : string) : string := String.substring 0 n data.

Definition max_message : nat := Z.to_nat protocol.MaxMessageSize.

Definition dec_bool (old : bool) (j : json) : option bool :=
  match j with JBool b => Some b | JNull => Some old | _ => None end.

Definition set_request (r : protocol.Request) (k : string) (j : json) : option protocol.Request :=
  if same_field k "binary" then b ← dec_string (protocol.req_Binary r) j; Some (protocol.mkRequest b)
  else Some r.

Definition set_response (r : protocol.Response) (k : string) (j : json) : option protocol.Response :=
  let 'protocol.mkResponse ok env prot err warn := r in
  if same_field k "ok" then ok ← dec_bool ok j; Some (protocol.mkResponse ok env prot err warn)
  else if same_field k "env" then
    env ← dec_labels env j; Some (protocol.mkResponse ok env prot err warn)
  else if same_field k "protected" then
    prot ← dec_bool prot j; Some (protocol.mkResponse ok env prot err warn)
  else if same_field k "error" then
    err ← dec_string err j; Some (protocol.mkResponse ok env prot err warn)
  else if same_field k "warning" then
    warn ← dec_string warn j; Some (protocol.mkResponse ok env prot err warn)
  else Some r.

Definition dec_request (j : json) : option protocol.Request :=
  dec_struct set_request (protocol.mkRequest "") j.

Definition dec_response (j : json) : option protocol.Response :=
  dec_struct set_response (protocol.mkResponse false ∅ false "" "") j.

(** Reading a message of at most [n] bytes. *)
Definition decode_request (n : nat) (data : string) : option protocol.Request :=
  '(j, _) ← json.decode (limited n data); dec_request j.

Definition decode_response (n : nat) (data : string) : option protocol.Response :=
  '(j, _) ← json.decode (limited n data); dec_response j.

(** ** What arrives *)

(** A message after its text was read: what is not UTF-8 is replaced. *)
Definition received_request (r : protocol.Request) : protocol.Request :=
  protocol.mkRequest (json.repair (protocol.req_Binary r)).

Definition received_env (env : gmap string string) : gmap string string :=
  foldl (λ m kv, <[json.repair kv.1 := json.repair kv.2]> m) ∅ (env_pairs env).

Definition received_response (r : protocol.Response) : protocol.Response :=
  protocol.mkResponse (protocol.resp_OK r) (received_env (protocol.resp_Env r))
    (protocol.resp_Protected r) (json.repair (protocol.resp_Error r))
    (json.repair (protocol.resp_Warning r)).

Lemma env_pairs_keys env : (env_pairs env).*1 = sort.Strings (map_to_list env).*1.
Proof.
  unfold env_pairs. rewrite <-list_fmap_compose. rewrite <-(list_fmap_id (sort.Strings _)) at 2.
  by apply list_fmap_ext.
Qed.

Lemma env_pairs_nodup env : NoDup (env_pairs env).*1.
Proof. rewrite env_pairs_keys, sort.Strings_perm. apply NoDup_fst_map_to_list. Qed.

Lemma env_pairs_map env : list_to_map (env_pairs env) = env.
Proof.
  apply map_eq. intros k. destruct (env !! k) as [v|] eqn:E.
  - apply elem_of_list_to_map_1; [apply env_pairs_nodup|]. unfold env_pairs.
    apply list_elem_of_fmap. exists k. rewrite E. split; [done|].
    rewrite sort.elem_of_Strings. apply list_elem_of_fmap. exists (k, v).
    by rewrite elem_of_map_to_list.
  - apply not_elem_of_list_to_map_1. rewrite env_pairs_keys, sort.elem_of_Strings.
    intros ([k' v] & -> & Hin)%list_elem_of_fmap. apply elem_of_map_to_list in Hin. cbn in *. congruence.
Qed.

Lemma env_pairs_empty env : env_pairs env = [] ↔ env = ∅.
Proof.
  split; [|by intros ->]. intros H. by rewrite <-(env_pairs_map env), H.
Qed.

(** A foldl of insertions in the order they were written. *)
Lemma dec_env_pairs l acc :
  foldl (λ (a : option (gmap string string)) kv,
           m ← a; v ← dec_string "" kv.2; Some (<[kv.1 := v]> m)) (Some acc)
    ((λ kv : string * json, (json.repair kv.1, json.seen kv.2)) <$>
       ((λ kv : string * string, (kv.1, JStr kv.2)) <$> l))
  = Some (foldl (λ m kv, <[json.repair kv.1 := json.repair kv.2]> m) acc l).
Proof. revert acc. induction l as [|[k v] l IH]; intros acc; [done|]. apply IH. Qed.

Lemma dec_seen_env env : dec_labels ∅ (json.seen (enc_env env)) = Some (received_env env).
Proof. apply dec_env_pairs. Qed.

(** Valid text arrives as it is. *)
Definition valid_env (env : gmap string string) : Prop :=
  map_Forall (λ k v, json.valid k = true ∧ json.valid v = true) env.

Lemma received_env_valid env : valid_env env → received_env env = env.
Proof.
  intros Hv. pose proof (dec_env_pairs (env_pairs env) ∅) as H.
  assert ((λ kv : string * json, (json.repair kv.1, json.seen kv.2)) <$>
            ((λ kv : string * string, (kv.1, JStr kv.2)) <$> env_pairs env)
          = (λ kv, (kv.1, JStr kv.2)) <$> env_pairs env) as Heq.
  { rewrite <-list_fmap_compose. apply list_fmap_ext. intros i [k v] Hi. unfold compose. cbn [fst snd json.seen].
    apply list_elem_of_lookup_2, (elem_of_list_to_map_1 (M:=gmap string)) in Hi; [|apply env_pairs_nodup].
    rewrite env_pairs_map in Hi. destruct (Hv k v Hi). by rewrite !json.repair_valid. }
  rewrite Heq in H.
  pose proof (dec_labels_pairs (env_pairs env) (env_pairs_nodup env)) as H'. cbn in H'.
  rewrite H in H'. injection H' as H'. rewrite env_pairs_map in H'. exact H'.
Qed.

Definition valid_response (r : protocol.Response) : Prop :=
  valid_env (protocol.resp_Env r) ∧ json.valid (protocol.resp_Error r) = true ∧
  json.valid (protocol.resp_Warning r) = true.

Lemma received_response_valid r : valid_response r → received_response r = r.
Proof.
  destruct r as [ok env prot err warn]. intros (H1 & H2 & H3). unfold received_response.
  cbn [protocol.resp_OK protocol.resp_Env protocol.resp_Protected protocol.resp_Error
       protocol.resp_Warning] in *.
  by rewrite received_env_valid, !json.repair_valid.
Qed.

Lemma enc_response_numberless r : json.numberless (enc_response r) = true.
Proof.
  unfold enc_response. cbn. rewrite !forallb_app. repeat case_decide; cbn; rewrite ?andb_true_r; try done;
    (induction (env_pairs _) as [|kv l IH]; [done|exact IH]).
Qed.

Lemma dec_enc_request r : dec_request (json.seen (enc_request r)) = Some (received_request r).
Proof. reflexivity. Qed.

Lemma dec_enc_response r : dec_response (json.seen (enc_response r)) = Some (received_response r).
Proof.
  destruct r as [ok env prot err warn]. unfold enc_response, dec_response, received_response.
  cbn [json.seen protocol.resp_OK protocol.resp_Env protocol.resp_Protected protocol.resp_Error
       protocol.resp_Warning dec_struct].
  rewrite !fmap_app, !foldl_app.
  set (f := λ (acc : option protocol.Response) (kv : string * json), _).
  set (g := λ kv : string * json, (json.repair kv.1, json.seen kv.2)).
  assert (∀ a b c d e j, f (Some (protocol.mkResponse a b c d e)) (g ("env", j)) =
    env ← dec_labels b (json.seen j); Some (protocol.mkResponse a env c d e)) as Henv by reflexivity.
  assert (∀ b c d e, foldl f (Some (protocol.mkResponse false b c d e)) (g <$> [("ok", JBool ok)])
    = Some (protocol.mkResponse ok b c d e)) as -> by reflexivity.
  assert (foldl f (Some (protocol.mkResponse ok ∅ false "" ""))
            (g <$> if decide (env = ∅) then [] else [("env", enc_env env)])
          = Some (protocol.mkResponse ok (received_env env) false "" "")) as ->.
  { case_decide as He; [by rewrite He|]. cbn [fmap list_fmap foldl]. by rewrite Henv, dec_seen_env. }
  assert (∀ a b d e, foldl f (Some (protocol.mkResponse a b false d e)) (g <$> [("protected", JBool prot)])
    = Some (protocol.mkResponse a b prot d e)) as -> by reflexivity.
  assert (∀ a b c e, foldl f (Some (protocol.mkResponse a b c "" e))
            (g <$> if decide (err = "") then [] else [("error", JStr err)])
    = Some (protocol.mkResponse a b c (json.repair err) e)) as ->.
  { intros a b c e. case_decide as He; [by rewrite He|reflexivity]. }
  case_decide as He; [by rewrite He|reflexivity].
Qed.

(** ** The limit *)

Lemma limited_all n data : String.length data ≤ n → limited n data = data.
Proof.
  unfold limited. revert n. induction data as [|c data IH]; intros [|n] H; cbn in *; try done; [lia|].
  f_equal. apply IH. lia.
Qed.

Lemma limited_prefix n data : ∃ q, data = limited n data +:+ q ∧ String.length (limited n data) ≤ n.
Proof.
  unfold limited. revert n. induction data as [|c data IH]; intros [|n].
  - exists "". split; [done|cbn; lia].
  - exists "". split; [done|cbn; lia].
  - exists (String c data). split; [done|cbn; lia].
  - destruct (IH n) as (q & Hq & Hl). exists q. cbn. rewrite app_cons_str. split; [by f_equal|lia].
Qed.

(** A text that fits is read, with the newline or without it. *)
Lemma decode_limited n j :
  json.numberless j = true → String.length (json.print j) ≤ n →
  ∃ rest, json.decode (limited n (json.print j +:+ newline)) = Some (json.seen j, rest).
Proof.
  intros Hj Hn. assert (∃ q, limited n (json.print j +:+ newline) = json.print j +:+ q) as [q ->].
  { destruct (decide (String.length (json.print j +:+ newline) ≤ n)) as [H|H].
    - exists newline. by apply limited_all.
    - exists "". rewrite app_nil_r_str. rewrite length_app_str in H. cbn in H.
      replace n with (String.length (json.print j)) by lia.
      generalize (json.print j) as x. intros x. clear. unfold limited.
      induction x as [|c x IH]; [done|].
      change (String c (String.substring 0 (String.length x) (x +:+ newline)) = String c x). by rewrite IH. }
  exists q. by apply json.decode_print.
Qed.

Lemma decode_cut n j :
  json.numberless j = true → match j with JArr _ | JObj _ => True | _ => False end →
  n < String.length (json.print j) → json.decode (limited n (json.print j +:+ newline)) = None.
Proof.
  intros Hj Hobj Hn. destruct (limited_prefix n (json.print j +:+ newline)) as (q & Hq & Hl).
  set (p := limited _ _) in *.
  destruct (app_suffix_str _ _ _ _ (eq_sym Hq)) as [x Hx].
  { apply (f_equal String.length) in Hq. rewrite !length_app_str in Hq. cbn in *. lia. }
  apply (json.decode_prefix j p x Hj Hobj).
  - rewrite Hx, <-app_assoc_str in Hq. by apply app_inj_r_str in Hq.
  - intros ->. rewrite app_nil_l_str in Hx. rewrite Hx in Hq. apply app_inj_r_str in Hq.
    rewrite Hq in Hn. lia.
Qed.

Lemma response_arrives n r :
  String.length (json.print (enc_response r)) ≤ n →
  decode_response n (encode_response r) = Some (received_response r).
Proof.
  intros H. unfold decode_response, encode_response.
  destruct (decode_limited n _ (enc_response_numberless r) H) as [rest ->]. apply dec_enc_response.
Qed.

Lemma request_arrives n r :
  String.length (json.print (enc_request r)) ≤ n →
  decode_request n (encode_request r) = Some (received_request r).
Proof.
  intros H. unfold decode_request, encode_request.
  destruct (decode_limited n (enc_request r) eq_refl H) as [rest ->]. apply dec_enc_request.
Qed.

Lemma received_request_valid r :
  json.valid (protocol.req_Binary r) = true → received_request r = r.
Proof. destruct r as [b]. intros H. unfold received_request. by rewrite json.repair_valid. Qed.

(** C15. What the agent answers is what the shim reads, or nothing is.  For every
    answer: if its text is within the limit, what is decoded is the answer, with
    the bytes of names and values that are not UTF-8 replaced, and so the answer
    itself when all its text is UTF-8; if it is longer, decoding fails, and no
    part of the environment is ever taken for the whole. *)
Theorem response_over_the_wire (n : nat) (r : protocol.Response) :
  decode_response n (encode_response r)
  = (if decide (String.length (json.print (enc_response r)) ≤ n)
     then Some (received_response r) else None) ∧
  (valid_response r → received_response r = r).
Proof.
  split; [|apply received_response_valid]. case_decide as H; [by apply response_arrives|].
  unfold decode_response, encode_response.
  by rewrite (decode_cut n _ (enc_response_numberless r)) by (done || lia).
Qed.

Lemma response_over_the_wire_witness :
  decode_response 100 (encode_response (protocol.mkResponse true {[ "PW" := "a<b" ]} true "" ""))
  = Some (protocol.mkResponse true {[ "PW" := "a<b" ]} true "" "").
Proof.
  destruct (response_over_the_wire 100 (protocol.mkResponse true {[ "PW" := "a<b" ]} true "" ""))
    as [-> Hv].
  rewrite decide_True by (apply Nat.leb_le; vm_compute; reflexivity). rewrite Hv; [reflexivity|].
  split; [|split; reflexivity]. apply map_Forall_singleton. split; reflexivity.
Defined.

(** The request survives the way to the agent in the same manner. *)
Theorem request_over_the_wire (n : nat) (r : protocol.Request)
  (Hvalid : json.valid (protocol.req_Binary r) = true)
  (Hfits : String.length (json.print (enc_request r)) ≤ n) :
  decode_request n (encode_request r) = Some r.
Proof. by rewrite request_arrives, received_request_valid. Qed.

Lemma request_over_the_wire_witness :
  decode_request 100 (encode_request (protocol.mkRequest "/usr/bin/psql")) = Some (protocol.mkRequest "/usr/bin/psql").
Proof.
  apply request_over_the_wire; [vm_compute; reflexivity|].
  apply Nat.leb_le. vm_compute. reflexivity.
Defined.

(** A secret that is not UTF-8 does not arrive.  There is a secret value for
    which the shim reads an answer that is OK, without an error or a warning, and
    holds another value. *)
Theorem binary_secret_replaced :
  ∃ (r r' : protocol.Response) (name value : string),
    protocol.resp_Env r !! name = Some value ∧
    decode_response 1000 (encode_response r) = Some r' ∧
    protocol.resp_OK r' = true ∧ protocol.resp_Error r' = "" ∧ protocol.resp_Warning r' = "" ∧
    ∃ value', protocol.resp_Env r' !! name = Some value' ∧ value' ≠ value.
Proof.
  exists (protocol.mkResponse true {[ "KEY" := String (byte 255) "A" ]} true "" ""),
    (protocol.mkResponse true {[ "KEY" := json.rune_bytes (json.Bad "A") +:+ "A" ]} true "" ""),
    "KEY", (String (byte 255) "A").
  split; [reflexivity|]. split; [vm_compute; reflexivity|]. do 3 (split; [done|]).
  eexists. split; [reflexivity|]. vm_compute. discriminate.
Qed.

End wire.
