(* ===== verification/Cgroup.v ===== *)
(** * Package cgroup: which cgroup a caller belongs to ([src/internal/cgroup])

    [Resolver.Resolve] over the system calls it makes, and the parser of
    Kubernetes' cgroup paths with its two regular expressions.  The claims
    characterise the expressions by the segments they accept, show that the
    parser inverts both cgroup drivers' renderings of a pod and a container,
    that what it reports is in the API server's normal form, and that no path
    the kernel prints makes the resolver look outside the cgroup mount. *)

From S2P Require Import Prelude GoStrings Effects Regexp Os.

Module cgroup.

Local Open Scope prog_scope.
Import regexp.

(** ** Data *)

Definition DefaultRoot : string := "/sys/fs/cgroup".
Definition DefaultProcRoot : string := "/proc".

Record Identity := mkIdentity {
  Path : string;
  ID : Z;
  PodUID : string;
  ContainerID : string;
  Relative : bool;
}.

Definition IsPod (i : Identity) : bool := bool_decide (PodUID i ≠ "").

Record Resolver := mkResolver { procRoot : string; cgroupRoot : string }.

Definition NewResolver (proc cgroup : string) : Resolver :=
  {| procRoot := if decide (proc = "") then DefaultProcRoot else proc;
     cgroupRoot := if decide (cgroup = "") then DefaultRoot else cgroup |}.

(** [Resolve]'s error: the caller has no readable cgroup, or only the number
    of its cgroup is missing ([ErrNoID]). *)
Inductive resolve_error :=
| Unplaced (msg : error)
| ErrNoID (path : string) (msg : error).

Definition ErrNoID_text : error := "cgroup id unavailable".

Definition resolve_text (e : resolve_error) : error :=
  match e with
  | Unplaced m => m
  | ErrNoID path m => ErrNoID_text +:+ " for " +:+ path +:+ ": " +:+ m
  end.

(** ** Kubernetes' cgroup paths *)

Definition hex (c : ascii) : bool :=
  ((48 <=? code c) && (code c <=? 57) || (97 <=? code c) && (code c <=? 102)
   || (65 <=? code c) && (code c <=? 70))%N.

Definition dash_or_underscore (c : ascii) : bool :=
  Ascii.eqb c "-" || Ascii.eqb c "_".

Definition hexes (n : nat) : re := Rep (Cls hex) n 0.

Definition uuid_re : re :=
  Seq (hexes 8) (Seq (Cls dash_or_underscore)
  (Seq (hexes 4) (Seq (Cls dash_or_underscore)
  (Seq (hexes 4) (Seq (Cls dash_or_underscore)
  (Seq (hexes 4) (Seq (Cls dash_or_underscore) (hexes 12)))))))).

Definition podUIDSegment : re :=
  Seq (Alt Bol (chr "-")) (Seq (lit "pod") (Seq (Grp uuid_re) (Seq (opt (lit ".slice")) Eol))).

Definition runtime_re : re :=
  Alt (lit "cri-containerd-") (Alt (lit "crio-") (Alt (lit "docker-") (lit "libpod-"))).

Definition containerIDSegment : re :=
  Seq Bol (Seq (opt runtime_re)
  (Seq (Grp (Rep (Cls hex) 12 52)) (Seq (opt (lit ".scope")) Eol))).

Definition isRelative (cgroupPath : string) : bool :=
  existsb (λ seg, bool_decide (seg = "..")) (strings.Split cgroupPath "/").

Fixpoint scan_segments (segments : list string) : string * string :=
  match segments with
  | [] => ("", "")
  | seg :: rest =>
      match FindStringSubmatch podUIDSegment seg with
      | None => scan_segments rest
      | Some m1 =>
          (strings.ToLower (strings.ReplaceAll m1 "_" "-"),
           match rest with
           | [] => ""
           | next :: _ =>
               match FindStringSubmatch containerIDSegment next with
               | Some c1 => strings.ToLower c1
               | None => ""
               end
           end)
      end
  end.

Definition ParsePod (cgroupPath : string) : string * string :=
  scan_segments (strings.Split cgroupPath "/").

(** ** Resolution *)

Definition newline : ascii := "010".

(** The two loops of [pathFor]. *)
Fixpoint unified_entry (lines : list string) : option string :=
  match lines with
  | [] => None
  | l :: lines =>
      if strings.HasPrefix l "0::" then Some (strings.TrimPrefix l "0::")
      else unified_entry lines
  end.

Fixpoint controller_entry (lines : list string) : option string :=
  match lines with
  | [] => None
  | l :: lines =>
      match strings.SplitN l ":" 3 with
      | [_; _; p] => if decide (p ≠ "") then Some p else controller_entry lines
      | _ => controller_entry lines
      end
  end.

Definition parse_membership (data : string) : option string :=
  let lines := strings.Split (strings.TrimSpace data) newline in
  match unified_entry lines with
  | Some p => Some p
  | None => controller_entry lines
  end.

Definition pathFor (r : Resolver) (pid : Z) : prog os.OS (result string error) :=
  let name := filepath.Join [procRoot r; fmt.d pid; "cgroup"] in
  data <- os.readFile name ;;
  Ret (match data with
       | Err e => Err ("reading " +:+ name +:+ ": " +:+ os.errno_text e)
       | Ok data =>
           match parse_membership data with
           | Some p => Ok p
           | None => Err ("no cgroup membership in " +:+ name)
           end
       end).

(** [binary.LittleEndian.Uint64] of the first eight bytes. *)
Definition le_uint64 (b : list ascii) : Z :=
  binary.get (take 8 b).

Definition id_dir (r : Resolver) (cgroupPath : string) : string :=
  filepath.Join [cgroupRoot r; filepath.Clean ("/" +:+ cgroupPath)].

Definition stat_failed (dir : string) (e : os.errno) : error :=
  "stat " +:+ dir +:+ ": " +:+ os.errno_text e.

Definition idFor (r : Resolver) (cgroupPath : string) : prog os.OS (result Z error) :=
  let dir := id_dir r cgroupPath in
  handle <- os.nameToHandleAt dir ;;
  match handle with
  | Ok b =>
      if bool_decide (8 ≤ length b) then Ret (Ok (le_uint64 b))
      else
        st <- os.statIno dir ;;
        Ret (match st with Err serr => Err (stat_failed dir serr) | Ok ino => Ok ino end)
  | Err err =>
      st <- os.statIno dir ;;
      Ret (match st with Err _ => Err (stat_failed dir err) | Ok ino => Ok ino end)
  end.

Definition no_identity : Identity := mkIdentity "" 0 "" "" false.

Definition Resolve (r : Resolver) (pid : Z)
    : prog os.OS (Identity * option resolve_error) :=
  path <- pathFor r pid ;;
  match path with
  | Err e => Ret (no_identity, Some (Unplaced e))
  | Ok path =>
      let '(podUID, containerID) := ParsePod path in
      id <- idFor r path ;;
      Ret (match id with
           | Err e => (mkIdentity path 0 podUID containerID (isRelative path),
                       Some (ErrNoID path e))
           | Ok id => (mkIdentity path id podUID containerID (isRelative path), None)
           end)
  end.

(** ** What the expressions accept *)

Definition uuid_shape (digit sep : ascii → bool) : list (ascii → bool) :=
  replicate 8 digit ++ sep :: replicate 4 digit ++ sep :: replicate 4 digit ++ sep ::
  replicate 4 digit ++ sep :: replicate 12 digit.

(** The UID of a pod as a cgroup path spells it. *)
Definition raw_uid (w : string) : bool := shaped (uuid_shape hex dash_or_underscore) w.

Definition pod_segment (seg uid : string) : Prop :=
  raw_uid uid = true ∧
  ∃ lead tail, seg = lead +:+ "pod" +:+ uid +:+ tail ∧
    (lead = "" ∨ ∃ x, lead = x +:+ "-") ∧ (tail = "" ∨ tail = ".slice").

Definition runtimes : list string :=
  [""; "cri-containerd-"; "crio-"; "docker-"; "libpod-"].

Definition raw_container (w : string) : bool :=
  all_bytes hex w && bool_decide (12 ≤ String.length w ≤ 64).

Definition container_segment (seg id : string) : Prop :=
  raw_container id = true ∧
  ∃ lead tail, seg = lead +:+ id +:+ tail ∧ lead ∈ runtimes ∧
    (tail = "" ∨ tail = ".scope").

(** The API server's spelling of a UID and the runtime's of a container. *)
Definition lower_hex (c : ascii) : bool :=
  ((48 <=? code c) && (code c <=? 57) || (97 <=? code c) && (code c <=? 102))%N.

Definition canonical_uid (w : string) : bool :=
  shaped (uuid_shape lower_hex (Ascii.eqb "-")) w.

Definition canonical_container (w : string) : bool :=
  all_bytes lower_hex w && bool_decide (12 ≤ String.length w ≤ 64).

Lemma denotes_uuid : denotes uuid_re (λ w, raw_uid w = true).
Proof.
  unfold uuid_re, raw_uid, uuid_shape, hexes.
  do 4 (refine (denotes_shape_Seq _ _ (replicate _ _) _ (denotes_shape_Rep _ _) _);
        refine (denotes_shape_Seq _ _ [_] _ (denotes_shape_Cls _) _)).
  apply denotes_shape_Rep.
Qed.

(** One attempt of either expression at an offset. *)
Lemma elem_of_group_tail r L tail st st' :
  denotes r L →
  st' ∈ run (Seq (Grp r) (Seq (opt (lit tail)) Eol)) st ↔
  ∃ w t, L w ∧ (t = tail ∨ t = "") ∧ rest st = w +:+ t ∧
         st' = mkState (String.rev (w +:+ t) +:+ pre st) "" (Some w).
Proof.
  intros Hr. rewrite elem_of_Seq. setoid_rewrite elem_of_Seq.
  setoid_rewrite elem_of_Grp. setoid_rewrite elem_of_Eol.
  pose proof (denotes_opt _ _ (denotes_lit tail)) as Ht. split.
  - intros (st1 & (st0 & Hw & Hp & Hs & Hc) & st2 & (t & HL & [Ct1 Ct2] & Kt)%Ht & -> & Hend).
    apply Hr in Hw as (w & Lw & Cw & Kw). rewrite (captured_consumes _ _ _ Cw) in Hc.
    destruct Cw as [C1 C2]. exists w, t. rewrite Hend, app_nil_r_str in Ct1.
    split; [done|]. split; [done|]. split; [by rewrite C1, <-Hs, Ct1|].
    destruct st2 as [u s k]. simpl in *.
    by rewrite Kt, Hc, Hend, Ct2, Hp, C2, rev_app_str, app_assoc_str.
  - intros (w & t & Lw & Lt & Hs & ->).
    assert (consumes w st (mkState (String.rev w +:+ pre st) t (cap st))) as Cw by done.
    exists (mkState (String.rev w +:+ pre st) t (Some w)). split.
    + eexists. split; [apply Hr; exists w; split; [done|]; split; [exact Cw|done]|].
      by rewrite (captured_consumes _ _ _ Cw).
    + eexists. split; [|split; reflexivity]. apply Ht. exists t.
      split; [done|]. split; [|done]. split; simpl; [by rewrite app_nil_r_str|].
      by rewrite rev_app_str, app_assoc_str.
Qed.

Lemma elem_of_podUIDSegment p s st :
  st ∈ run podUIDSegment (mkState p s None) ↔
  ∃ d uid t, raw_uid uid = true ∧ (d = "" ∧ p = "" ∨ d = "-") ∧ (t = ".slice" ∨ t = "") ∧
    s = d +:+ "pod" +:+ uid +:+ t ∧
    st = mkState (String.rev (d +:+ "pod" +:+ uid +:+ t) +:+ p) "" (Some uid).
Proof.
  unfold podUIDSegment. rewrite elem_of_Seq. setoid_rewrite elem_of_Seq.
  setoid_rewrite (elem_of_group_tail _ _ _ _ _ denotes_uuid).
  setoid_rewrite elem_of_lit. setoid_rewrite elem_of_Alt. setoid_rewrite elem_of_Bol.
  change (chr "-") with (Cls (Ascii.eqb "-")). setoid_rewrite elem_of_Cls.
  unfold consumes. split.
  - intros (st1 & H1 & st2 & ([H2 H3] & Hc) & uid & t & Hu & Ht & H4 & ->).
    rewrite H4 in H2. destruct H1 as [[-> H1]|(c & <-%Ascii.eqb_eq & [H5 H6] & H7)]; simpl in *.
    + exists "", uid, t. rewrite app_nil_l_str, H3, H1, !rev_app_str, !app_assoc_str. auto 10.
    + exists "-", uid, t. rewrite H5, H2, H3, H6, !rev_app_str, !app_assoc_str. auto 10.
  - intros (d & uid & t & Hu & Hd & Ht & -> & ->).
    exists (mkState (String.rev d +:+ p) ("pod" +:+ uid +:+ t) None). split.
    + destruct Hd as [[-> ->]| ->]; [by left|right]. exists "-"%char. done.
    + exists (mkState (String.rev (d +:+ "pod") +:+ p) (uid +:+ t) None).
      simpl. rewrite !rev_app_str, !app_assoc_str. split; [done|].
      exists uid, t. rewrite !rev_app_str, !app_assoc_str. auto 10.
Qed.

(** A search whose matches all agree returns what they agree on. *)
Lemma FindStringSubmatch_iff r s (spec : string → Prop) :
  (∀ u t st, s = u +:+ t → st ∈ run r (mkState (String.rev u) t None) →
     ∃ m, cap st = Some m ∧ spec m) →
  (∀ m, spec m → ∃ u t st, s = u +:+ t ∧ st ∈ run r (mkState (String.rev u) t None)) →
  (∀ m m', spec m → spec m' → m = m') →
  ∀ m, FindStringSubmatch r s = Some m ↔ spec m.
Proof.
  intros Hsound Hcomplete Huniq m. unfold FindStringSubmatch.
  destruct (find_from r "" s) as [st|] eqn:E; simpl.
  - apply find_from_Some in E as (u & t & Hs & Hin). rewrite app_nil_r_str in Hin.
    destruct (Hsound _ _ _ Hs Hin) as (m' & -> & Hm'). simpl. split.
    + by intros [= <-].
    + intros Hm. f_equal. eauto.
  - split; [done|]. intros (u & t & st & Hs & Hin)%Hcomplete.
    destruct (find_from_None _ _ _ u t st E Hs). by rewrite app_nil_r_str.
Qed.

Lemma raw_uid_length w : raw_uid w = true → String.length w = 36.
Proof. intros H. by apply shaped_length in H. Qed.

Lemma shaped_impl l (p : ascii → bool) w :
  Forall (λ q, ∀ c, q c = true → p c = true) l → shaped l w = true → all_bytes p w = true.
Proof.
  intros Hl. revert w. induction Hl as [|q l Hq Hl IH]; intros [|c w]; simpl; try done.
  intros H. breflect. apply andb_true_iff. auto.
Qed.

Definition uid_byte (c : ascii) : bool := hex c || dash_or_underscore c.

Lemma raw_uid_bytes w : raw_uid w = true → all_bytes uid_byte w = true.
Proof.
  apply shaped_impl. unfold uuid_shape, uid_byte.
  repeat first [apply Forall_replicate|apply Forall_app; split|apply Forall_cons; split];
    cbv beta; intros c ->; by rewrite ?orb_true_r.
Qed.

Lemma all_bytes_no_suffix p a b (x : string) :
  a = b +:+ x → all_bytes p a = true → all_bytes p x = true.
Proof. intros ->. rewrite all_bytes_app. by intros [? ?]%andb_true_iff. Qed.

(** The last bytes of a text decide where the UID starts. *)
Lemma pod_segment_unique seg u u' : pod_segment seg u → pod_segment seg u' → u = u'.
Proof.
  intros (Hu & l & t & -> & _ & Ht) (Hu' & l' & t' & Heq & _ & Ht').
  rewrite <-!app_assoc_str in Heq.
  assert (t = t') as <-.
  { destruct Ht as [-> | ->], Ht' as [-> | ->]; [done|exfalso|exfalso|done];
      rewrite ?app_nil_r_str in Heq.
    - destruct (app_suffix_str _ _ _ _ Heq) as [x ->].
      { rewrite (raw_uid_length u) by done. simpl. lia. }
      apply raw_uid_bytes in Hu. rewrite all_bytes_app in Hu. by breflect.
    - symmetry in Heq. destruct (app_suffix_str _ _ _ _ Heq) as [x ->].
      { rewrite (raw_uid_length u') by done. simpl. lia. }
      apply raw_uid_bytes in Hu'. rewrite all_bytes_app in Hu'. by breflect. }
  apply app_inj_r_str in Heq.
  apply app_inj_end_str in Heq as [_ ->]; [done|].
  by rewrite !raw_uid_length.
Qed.

Lemma find_pod seg uid :
  FindStringSubmatch podUIDSegment seg = Some uid ↔ pod_segment seg uid.
Proof.
  revert uid. apply FindStringSubmatch_iff; [..|apply pod_segment_unique].
  - intros u t st -> (d & uid & tl & Hu & Hd & Ht & -> & ->)%elem_of_podUIDSegment.
    exists uid. split; [done|]. split; [done|].
    exists (u +:+ d), tl. rewrite app_assoc_str. split; [done|].
    split; [|tauto]. destruct Hd as [[-> Hr]| ->]; [|eauto]. left.
    rewrite <-(rev_involutive_str u), Hr. done.
  - intros uid (Hu & lead & tl & -> & Hl & Ht).
    assert (∃ u d, lead = u +:+ d ∧ (d = "" ∧ String.rev u = "" ∨ d = "-"))
      as (u & d & -> & Hd).
    { destruct Hl as [-> |[x ->]]; [exists "", ""|exists x, "-"]; auto. }
    eexists u, _, _. rewrite app_assoc_str. split; [done|].
    apply elem_of_podUIDSegment. exists d, uid, tl. split; [done|]. split; [done|].
    split; [tauto|]. done.
Qed.

Lemma denotes_runtime : denotes (opt runtime_re) (λ w, w ∈ runtimes).
Proof.
  eapply denotes_ext.
  - apply denotes_opt. repeat (apply denotes_Alt; [apply denotes_lit|]). apply denotes_lit.
  - intros w. unfold runtimes. rewrite !elem_of_cons, elem_of_nil. tauto.
Qed.

Lemma denotes_container : denotes (Rep (Cls hex) 12 52) (λ w, raw_container w = true).
Proof.
  eapply denotes_ext; [apply denotes_Rep|]. intros w. unfold raw_container.
  by rewrite andb_true_iff, bool_decide_eq_true.
Qed.

Lemma elem_of_containerIDSegment p s st :
  st ∈ run containerIDSegment (mkState p s None) ↔
  ∃ d id t, raw_container id = true ∧ d ∈ runtimes ∧ (t = ".scope" ∨ t = "") ∧
    p = "" ∧ s = d +:+ id +:+ t ∧
    st = mkState (String.rev (d +:+ id +:+ t)) "" (Some id).
Proof.
  unfold containerIDSegment. rewrite elem_of_Seq. setoid_rewrite elem_of_Seq.
  setoid_rewrite (elem_of_group_tail _ _ _ _ _ denotes_container).
  setoid_rewrite elem_of_Bol. setoid_rewrite (denotes_runtime _ _). unfold consumes. split.
  - intros (st1 & [-> Hp] & st2 & (d & Hd & [H1 H2] & Hc) & id & t & Hid & Ht & H3 & ->).
    simpl in *. exists d, id, t. rewrite H1, H3, H2, Hp, !rev_app_str, !app_assoc_str.
    rewrite app_nil_r_str. auto 10.
  - intros (d & id & t & Hid & Hd & Ht & -> & -> & ->).
    exists (mkState "" (d +:+ id +:+ t) None). split; [done|].
    exists (mkState (String.rev d) (id +:+ t) None). simpl. split.
    + exists d. by rewrite app_nil_r_str.
    + exists id, t. rewrite !rev_app_str, !app_assoc_str. auto 10.
Qed.

Lemma container_tail_unique id t id' t' :
  id +:+ t = id' +:+ t' → all_bytes hex id = true → all_bytes hex id' = true →
  (t = "" ∨ t = ".scope") → (t' = "" ∨ t' = ".scope") → id = id'.
Proof.
  intros Heq Hi Hi' [-> | ->] [-> | ->];
    rewrite ?app_nil_r_str in Heq; try (by apply app_inj_r_str in Heq); try done; exfalso.
  - subst. rewrite all_bytes_app in Hi. by breflect.
  - subst. rewrite all_bytes_app in Hi'. by breflect.
Qed.

(** No runtime prefix but the empty one starts with two hexadecimal digits. *)
Lemma runtime_not_hex lead id t x :
  lead ∈ runtimes → lead ≠ "" → id +:+ t = lead +:+ x → all_bytes hex id = true →
  2 ≤ String.length id → False.
Proof.
  intros Hl Hne Heq Hh Hlen. destruct id as [|a [|b id]]; simpl in Hlen; try lia.
  simpl in Hh. breflect. unfold runtimes in Hl. rewrite !elem_of_cons, elem_of_nil in Hl.
  rewrite !app_cons_str in Heq.
  destruct Hl as [->|[->|[->|[->|[->|[]]]]]]; try done;
    rewrite !app_cons_str in Heq; simplify_eq; done.
Qed.

Lemma runtime_unique lead x lead' x' :
  lead ∈ runtimes → lead' ∈ runtimes → lead ≠ "" → lead' ≠ "" →
  lead +:+ x = lead' +:+ x' → lead = lead' ∧ x = x'.
Proof.
  unfold runtimes. rewrite !elem_of_cons, !elem_of_nil.
  intros [->|[->|[->|[->|[->|[]]]]]] [->|[->|[->|[->|[->|[]]]]]] ? ? Heq; try done;
    rewrite ?app_cons_str, ?app_nil_l_str in Heq; by simplify_eq.
Qed.

Lemma container_segment_unique seg i i' :
  container_segment seg i → container_segment seg i' → i = i'.
Proof.
  unfold container_segment, raw_container.
  intros (Hi & l & t & -> & Hl & Ht) (Hi' & l' & t' & Heq & Hl' & Ht'). breflect.
  destruct (decide (l = "")) as [-> |Hne], (decide (l' = "")) as [-> |Hne'].
  - rewrite !app_nil_l_str in Heq. by eapply container_tail_unique.
  - destruct (runtime_not_hex l' i t _ Hl' Hne' Heq); [done|lia].
  - symmetry in Heq. destruct (runtime_not_hex l i' t' _ Hl Hne Heq); [done|lia].
  - apply runtime_unique in Heq as [_ Heq]; try done. by eapply container_tail_unique.
Qed.

Lemma find_container seg id :
  FindStringSubmatch containerIDSegment seg = Some id ↔ container_segment seg id.
Proof.
  revert id. apply FindStringSubmatch_iff; [..|apply container_segment_unique].
  - intros u s st -> (d & id & t & Hid & Hd & Ht & Hu & -> & ->)%elem_of_containerIDSegment.
    exists id. split; [done|]. split; [done|]. exists d, t.
    assert (u = "") as -> by (by rewrite <-(rev_involutive_str u), Hu).
    rewrite app_nil_l_str. tauto.
  - intros id (Hid & d & t & -> & Hd & Ht). eexists "", _, _. split; [done|].
    apply elem_of_containerIDSegment. exists d, id, t. tauto.
Qed.

(** ** Normal forms *)

Fixpoint map_bytes (f : ascii → ascii) (s : string) : string :=
  match s with "" => "" | String c s => String (f c) (map_bytes f s) end.

Lemma ReplaceAll_map s old new :
  strings.ReplaceAll s old new = map_bytes (λ c, if Ascii.eqb c old then new else c) s.
Proof. induction s; simpl; congruence. Qed.

Lemma ToLower_map s :
  all_bytes (λ c, code c <? 128)%N s = true →
  strings.ToLower s = map_bytes strings.lower_byte s.
Proof.
  induction s as [|c s IH]; [done|]. simpl. intros H. breflect.
  rewrite H. f_equal. auto.
Qed.

Lemma map_bytes_compose f g s : map_bytes f (map_bytes g s) = map_bytes (f ∘ g) s.
Proof. induction s; simpl; congruence. Qed.

Lemma map_bytes_id f s :
  all_bytes (λ c, Ascii.eqb (f c) c) s = true → map_bytes f s = s.
Proof.
  induction s as [|c s IH]; [done|]. simpl. intros H. breflect.
  rewrite IH by done. f_equal. by apply Ascii.eqb_eq.
Qed.

Lemma all_bytes_map P f s : all_bytes P (map_bytes f s) = all_bytes (P ∘ f) s.
Proof. induction s as [|c s IH]; [done|]. simpl. by rewrite IH. Qed.

Lemma length_map_bytes f s : String.length (map_bytes f s) = String.length s.
Proof. induction s; simpl; congruence. Qed.

Lemma shaped_map f l l' w :
  Forall2 (λ p q : ascii → bool, ∀ c, p c = true → q (f c) = true) l l' →
  shaped l w = true → shaped l' (map_bytes f w) = true.
Proof.
  intros H. revert w. induction H as [|p q l l' Hpq H IH]; intros [|c w]; simpl; try done.
  intros Hw. breflect. apply andb_true_iff. auto.
Qed.

Lemma uuid_shape_map f (d s d' s' : ascii → bool) :
  (∀ c, d c = true → d' (f c) = true) → (∀ c, s c = true → s' (f c) = true) →
  Forall2 (λ p q : ascii → bool, ∀ c, p c = true → q (f c) = true)
    (uuid_shape d s) (uuid_shape d' s').
Proof. intros Hd Hs. unfold uuid_shape. simpl. repeat constructor; done. Qed.

Lemma bytes_impl (P Q : ascii → bool) :
  (∀ c, (negb (P c) || Q c)%bool = true) → ∀ c, P c = true → Q c = true.
Proof. intros H c Hc. specialize (H c). by rewrite Hc in H. Qed.

(** Check an implication between byte classes on all 256 bytes. *)
Ltac byte_cases := apply bytes_impl, forall_bytes; vm_compute; reflexivity.

(** What [ParsePod] does to a UID. *)
Definition normalize (raw : string) : string :=
  strings.ToLower (strings.ReplaceAll raw "_" "-").

Definition dash (c : ascii) : ascii := if Ascii.eqb c "_" then "-"%char else c.

Lemma ascii_uid_byte c : uid_byte c = true → (code (dash c) <? 128)%N = true.
Proof. revert c. byte_cases. Qed.

Lemma normalize_map raw :
  all_bytes uid_byte raw = true →
  normalize raw = map_bytes (strings.lower_byte ∘ dash) raw.
Proof.
  intros H. unfold normalize. rewrite ReplaceAll_map, ToLower_map, map_bytes_compose; [done|].
  rewrite all_bytes_map. revert H. apply all_bytes_impl. apply ascii_uid_byte.
Qed.

Lemma normalize_canonical raw : raw_uid raw = true → canonical_uid (normalize raw) = true.
Proof.
  intros H. rewrite normalize_map by by apply raw_uid_bytes. revert H.
  apply shaped_map, uuid_shape_map; byte_cases.
Qed.

Lemma canonical_uid_raw uid : canonical_uid uid = true → raw_uid uid = true.
Proof.
  assert (map_bytes id uid = uid) as Hid by (induction uid; simpl; congruence).
  rewrite <-Hid at 2. apply shaped_map, uuid_shape_map; byte_cases.
Qed.

(** The systemd driver's spelling of a UID. *)
Definition escape (uid : string) : string := strings.ReplaceAll uid "-" "_".

Definition plain_uid_byte (c : ascii) : bool := lower_hex c || Ascii.eqb c "-".

Lemma canonical_uid_bytes w : canonical_uid w = true → all_bytes plain_uid_byte w = true.
Proof.
  apply shaped_impl. unfold uuid_shape.
  repeat first [apply Forall_replicate|apply Forall_app; split|apply Forall_cons; split];
    cbv beta; byte_cases.
Qed.

Lemma escape_raw uid : canonical_uid uid = true → raw_uid (escape uid) = true.
Proof.
  unfold escape. rewrite ReplaceAll_map. apply shaped_map, uuid_shape_map; byte_cases.
Qed.

Lemma normalize_escape uid : canonical_uid uid = true → normalize (escape uid) = uid.
Proof.
  intros H. rewrite normalize_map by by apply raw_uid_bytes, escape_raw.
  unfold escape. rewrite ReplaceAll_map, map_bytes_compose. apply map_bytes_id.
  apply canonical_uid_bytes in H. revert H. apply all_bytes_impl. byte_cases.
Qed.

Lemma normalize_id uid : canonical_uid uid = true → normalize uid = uid.
Proof.
  intros H. rewrite normalize_map by by apply raw_uid_bytes, canonical_uid_raw.
  apply map_bytes_id. apply canonical_uid_bytes in H. revert H.
  apply all_bytes_impl. byte_cases.
Qed.

Lemma lower_hex_map w :
  all_bytes hex w = true → strings.ToLower w = map_bytes strings.lower_byte w.
Proof. intros H. apply ToLower_map. revert H. apply all_bytes_impl. byte_cases. Qed.

Lemma lower_container w :
  raw_container w = true → canonical_container (strings.ToLower w) = true.
Proof.
  unfold raw_container, canonical_container. intros H. breflect.
  rewrite lower_hex_map, all_bytes_map, length_map_bytes by done.
  rewrite bool_decide_true by done. apply andb_true_iff. split; [|done].
  eapply all_bytes_impl; [|done]. byte_cases.
Qed.

Lemma canonical_container_raw w :
  canonical_container w = true → raw_container w = true ∧ strings.ToLower w = w.
Proof.
  unfold raw_container, canonical_container. intros H. breflect.
  assert (all_bytes hex w = true) as Hh.
  { eapply all_bytes_impl; [|done]. byte_cases. }
  rewrite Hh, bool_decide_true by done. split; [done|].
  rewrite lower_hex_map by done. apply map_bytes_id.
  revert H. apply all_bytes_impl. byte_cases.
Qed.

(** ** The parser *)

Definition not_pod (seg : string) : Prop := ∀ uid, ¬ pod_segment seg uid.

(** The container named directly below the pod. *)
Definition container_below (below : list string) (c : string) : Prop :=
  match below with
  | [] => c = ""
  | next :: _ =>
      (∃ raw, container_segment next raw ∧ c = strings.ToLower raw) ∨
      ((∀ raw, ¬ container_segment next raw) ∧ c = "")
  end.

(** What a list of segments says about pod and container. *)
Inductive placed : list string → string → string → Prop :=
| placed_host segs : Forall not_pod segs → placed segs "" ""
| placed_pod above seg below raw c :
    Forall not_pod above → pod_segment seg raw → container_below below c →
    placed (above ++ seg :: below) (normalize raw) c.

Lemma find_pod_None seg : FindStringSubmatch podUIDSegment seg = None ↔ not_pod seg.
Proof.
  unfold not_pod. setoid_rewrite <-find_pod.
  destruct (FindStringSubmatch podUIDSegment seg); naive_solver.
Qed.

Lemma find_container_None seg :
  FindStringSubmatch containerIDSegment seg = None ↔ ∀ raw, ¬ container_segment seg raw.
Proof.
  setoid_rewrite <-find_container.
  destruct (FindStringSubmatch containerIDSegment seg); naive_solver.
Qed.

Lemma container_below_iff below c :
  match below with
  | [] => ""
  | next :: _ =>
      match FindStringSubmatch containerIDSegment next with
      | Some c1 => strings.ToLower c1
      | None => ""
      end
  end = c ↔ container_below below c.
Proof.
  destruct below as [|next rest]; simpl; [done|].
  destruct (FindStringSubmatch _ _) as [raw|] eqn:E.
  - apply find_container in E. split.
    + intros <-. left. eauto.
    + intros [(raw' & H & ->)|[H _]]; [|by destruct (H raw)].
      by rewrite (container_segment_unique _ _ _ E H).
  - pose proof (proj1 (find_container_None next) E) as H. split.
    + intros <-. by right.
    + intros [(raw & H' & _)|[_ ->]]; [by destruct (H raw)|done].
Qed.

Lemma scan_host segs : Forall not_pod segs → scan_segments segs = ("", "").
Proof.
  induction 1 as [|seg segs H _ IH]; [done|]. simpl.
  by rewrite (proj2 (find_pod_None seg) H).
Qed.

Lemma scan_pod above seg below raw c :
  Forall not_pod above → pod_segment seg raw → container_below below c →
  scan_segments (above ++ seg :: below) = (normalize raw, c).
Proof.
  intros Ha Hs Hc. induction Ha as [|x above Hx _ IH]; cbn [app scan_segments].
  - rewrite (proj2 (find_pod seg raw) Hs). apply container_below_iff in Hc. by rewrite Hc.
  - by rewrite (proj2 (find_pod_None x) Hx).
Qed.

Lemma scan_placed segs : placed segs (scan_segments segs).1 (scan_segments segs).2.
Proof.
  assert (∀ above, Forall not_pod above →
    placed (above ++ segs) (scan_segments segs).1 (scan_segments segs).2) as H;
    [|by apply (H [])].
  induction segs as [|seg segs IH]; intros above Ha; cbn [scan_segments].
  - rewrite app_nil_r. by constructor.
  - destruct (FindStringSubmatch podUIDSegment seg) as [raw|] eqn:E.
    + apply placed_pod; [done|by apply find_pod|by apply container_below_iff].
    + replace (above ++ seg :: segs) with ((above ++ [seg]) ++ segs)
        by by rewrite <-app_assoc.
      apply IH. apply Forall_app. split; [done|]. constructor; [|constructor].
      by apply find_pod_None.
Qed.

(** C25. [ParsePod] returns what the path's segments say and nothing else: the
    UID of the first segment that a pod's cgroup can be named by (the letters
    pod at the start of the segment or after a dash, a UUID with dashes or
    underscores, an optional .slice, the end), normalized, with the container
    named by the very next segment; and two empty strings when no segment names
    a pod. *)
Theorem ParsePod_decides (path uid cid : string) :
  ParsePod path = (uid, cid) ↔ placed (strings.Split path "/") uid cid.
Proof.
  unfold ParsePod. split.
  - intros H. pose proof (scan_placed (strings.Split path "/")) as Hp. by rewrite H in Hp.
  - intros [segs H|above seg below raw c Ha Hs Hc]; [by apply scan_host|by apply scan_pod].
Qed.

(** Whatever path the kernel prints, the result is in the API server's
    normal form: either no pod and no container, or a lower case UUID with
    dashes and a container that is absent or 12 to 64 lower case hexadecimal
    digits.  A spelling that differs in case or separator can therefore not
    make one pod look like two. *)
Theorem ParsePod_canonical (path : string) :
  ParsePod path = ("", "") ∨
  canonical_uid (ParsePod path).1 = true ∧
  ((ParsePod path).2 = "" ∨ canonical_container (ParsePod path).2 = true).
Proof.
  unfold ParsePod.
  destruct (scan_placed (strings.Split path "/")) as [segs H|above seg below raw c Ha Hs Hc].
  - left. by apply scan_host.
  - right. destruct Hs as [Hr ?]. split; [by apply normalize_canonical|].
    destruct below as [|next rest]; [by left|].
    destruct Hc as [(w & [Hw _] & ->)|[_ ->]]; [right|by left].
    by apply lower_container.
Qed.

(** *** The two drivers *)

Inductive driver :=
| systemd (slice runtime : string)  (** [slice-pod<uid>.slice/<runtime><id>.scope] *)
| cgroupfs.                         (** [pod<uid>/<id>] *)

Definition render (d : driver) (uid cid : string) : list string :=
  match d with
  | systemd slice runtime =>
      [slice +:+ "-pod" +:+ escape uid +:+ ".slice"; runtime +:+ cid +:+ ".scope"]
  | cgroupfs => ["pod" +:+ uid; cid]
  end.

Definition slash_free (s : string) : bool := byte_free "/" s.

Definition driver_ok (d : driver) : Prop :=
  match d with
  | systemd slice runtime => slash_free slice = true ∧ runtime ∈ runtimes
  | cgroupfs => True
  end.

Lemma render_pod d uid cid :
  canonical_uid uid = true → canonical_container cid = true → driver_ok d →
  ∃ seg next raw, render d uid cid = [seg; next] ∧ pod_segment seg raw ∧
    normalize raw = uid ∧ container_segment next cid.
Proof.
  intros Hu Hc Hd. destruct (canonical_container_raw _ Hc) as [Hr _].
  destruct d as [slice rt|]; simpl in *.
  - eexists _, _, (escape uid). split; [done|]. split; [|split].
    + split; [by apply escape_raw|]. exists (slice +:+ "-"), ".slice".
      rewrite !app_assoc_str. split; [done|]. split; [eauto|by right].
    + by apply normalize_escape.
    + split; [done|]. exists rt, ".scope". split; [done|]. tauto.
  - eexists _, _, uid. split; [done|]. split; [|split].
    + split; [by apply canonical_uid_raw|]. exists "", "". rewrite app_nil_r_str. auto.
    + by apply normalize_id.
    + split; [done|]. exists "", "". rewrite app_nil_r_str. split; [done|].
      split; [by left|by left].
Qed.

Lemma slash_free_app s t : slash_free (s +:+ t) = slash_free s && slash_free t.
Proof. apply all_bytes_app. Qed.

Lemma render_slash_free d uid cid :
  canonical_uid uid = true → canonical_container cid = true → driver_ok d →
  Forall (λ s, slash_free s = true) (render d uid cid).
Proof.
  intros Hu Hc Hd.
  assert (slash_free cid = true) as Hcid.
  { unfold canonical_container in Hc. breflect. revert H. apply all_bytes_impl. byte_cases. }
  assert (∀ w, raw_uid w = true → slash_free w = true) as Hraw.
  { intros w Hw%raw_uid_bytes. revert Hw. apply all_bytes_impl. byte_cases. }
  destruct d as [slice rt|]; simpl in *; repeat constructor; rewrite ?slash_free_app.
  - destruct Hd as [-> _]. by rewrite (Hraw (escape uid)) by by apply escape_raw.
  - destruct Hd as [_ Hrt]. rewrite Hcid. unfold runtimes in Hrt.
    rewrite !elem_of_cons, elem_of_nil in Hrt.
    by destruct Hrt as [->|[->|[->|[->|[->|[]]]]]].
  - by rewrite (Hraw uid) by by apply canonical_uid_raw.
  - done.
Qed.

Lemma ParsePod_rendered d above below uid cid :
  canonical_uid uid = true → canonical_container cid = true → driver_ok d →
  Forall not_pod above → Forall (λ s, slash_free s = true) (above ++ below) →
  ParsePod (strings.Join (above ++ render d uid cid ++ below) "/") = (uid, cid).
Proof.
  intros Hu Hc Hd Ha Hs.
  pose proof (render_slash_free d uid cid Hu Hc Hd) as Hf.
  destruct (render_pod d uid cid Hu Hc Hd) as (seg & next & raw & Hr & Hp & Hn & Hcs).
  rewrite Hr in *. apply Forall_app in Hs as [Hs1 Hs2]. unfold ParsePod.
  rewrite strings.Split_Join; [|by destruct above|].
  - simpl app. rewrite (scan_pod above seg (next :: below) raw cid); [by rewrite Hn|done|done|].
    left. exists cid. split; [done|]. symmetry. by apply canonical_container_raw.
  - apply Forall_app. split; [done|]. by apply Forall_app.
Qed.

(** The parser inverts both cgroup drivers: wherever the kubelet roots its
    tree, whatever the QoS slice and the runtime's prefix, and however deep the
    container's own cgroups go below, a path rendered for a pod and a container
    parses back to that pod and that container. *)
Theorem ParsePod_render (d : driver) (above below : list string) (uid cid : string)
  (Hu : canonical_uid uid = true) (Hc : canonical_container cid = true)
  (Hd : driver_ok d) (Ha : Forall not_pod above)
  (Hs : Forall (λ s, slash_free s = true) (above ++ below)) :
  ParsePod (strings.Join (above ++ render d uid cid ++ below) "/") = (uid, cid).
Proof. by apply ParsePod_rendered. Qed.

(** The example of the code's comment, under a parent slice. *)
Lemma ParsePod_render_witness :
  ParsePod "/kubepods.slice/kubepods-burstable.slice/kubepods-burstable-pod0d8f1a2b_1111_2222_3333_0123456789ab.slice/cri-containerd-0123456789abcdef.scope/init"
  = ("0d8f1a2b-1111-2222-3333-0123456789ab", "0123456789abcdef").
Proof.
  apply (ParsePod_render (systemd "kubepods-burstable" "cri-containerd-")
           [""; "kubepods.slice"; "kubepods-burstable.slice"] ["init"]
           "0d8f1a2b-1111-2222-3333-0123456789ab" "0123456789abcdef").
  - reflexivity.
  - reflexivity.
  - split; [reflexivity|]. apply (bool_decide_eq_true_1 _). reflexivity.
  - repeat constructor; apply find_pod_None; vm_compute; reflexivity.
  - repeat constructor.
Defined.

(** ** Where the resolver looks *)

(** A segment [Clean] keeps as it is. *)
Definition solid (seg : string) : Prop :=
  seg ≠ "" ∧ seg ≠ "." ∧ seg ≠ ".." ∧ byte_free "/" seg = true.

Lemma clean_step_solid st seg : solid seg → filepath.clean_step true st seg = seg :: st.
Proof.
  intros (H1 & H2 & H3 & _). unfold filepath.clean_step.
  rewrite decide_False by tauto. by rewrite decide_False.
Qed.

Lemma clean_step_empty st : filepath.clean_step true st "" = st.
Proof. reflexivity. Qed.

Lemma clean_segs_solid segs :
  Forall (λ x, byte_free "/" x = true) segs → Forall solid (filepath.clean_segs true segs).
Proof.
  intros Hf. unfold filepath.clean_segs. apply Forall_reverse.
  assert (∀ st, Forall solid st →
    Forall solid (foldl (filepath.clean_step true) st segs)) as H; [|by apply H].
  induction Hf as [|s segs Hs _ IH]; intros st Hst; simpl; [done|]. apply IH.
  unfold filepath.clean_step. case_decide; [done|].
  case_decide; [|constructor; [unfold solid; tauto|done]].
  destruct Hst as [|x st Hx Hst]; [done|]. case_decide; [|done].
  by destruct Hx as (_ & _ & ? & _).
Qed.

Lemma foldl_clean_solid st segs :
  Forall solid segs → foldl (filepath.clean_step true) st segs = reverse segs ++ st.
Proof.
  intros H. revert st. induction H as [|s segs Hs _ IH]; intros st; simpl; [done|].
  rewrite clean_step_solid, IH, reverse_cons, <-app_assoc by done. done.
Qed.

(** A rooted path cleaned: its segments after resolving dots, slash first. *)
Lemma Clean_rooted p :
  filepath.Clean ("/" +:+ p) =
  "/" +:+ strings.Join (filepath.clean_segs true (strings.Split p "/")) "/".
Proof. reflexivity. Qed.

(** Joining a rooted mount point and a cleaned rooted path appends segments. *)
Lemma Join_rooted root p :
  filepath.Join ["/" +:+ root; filepath.Clean ("/" +:+ p)] =
  "/" +:+ strings.Join (filepath.clean_segs true (strings.Split root "/") ++
                        filepath.clean_segs true (strings.Split p "/")) "/".
Proof.
  set (segs := filepath.clean_segs true (strings.Split p "/")).
  assert (Forall solid segs) as Hs by apply clean_segs_solid, strings.Split_pieces.
  cbn [filepath.Join]. rewrite decide_False by done. rewrite Clean_rooted. fold segs.
  cbn [strings.Join].
  replace (("/" +:+ root) +:+ "/" +:+ "/" +:+ strings.Join segs "/")
    with ("/" +:+ (root +:+ String "/" (String "/" (strings.Join segs "/"))))
    by by rewrite !app_assoc_str.
  rewrite Clean_rooted, strings.Split_app_sep. do 2 f_equal.
  unfold filepath.clean_segs at 1. rewrite foldl_app.
  change (strings.Split (String "/" ?s) "/") with ("" :: strings.Split s "/").
  cbn [foldl]. rewrite clean_step_empty.
  destruct (decide (segs = [])) as [Hnil|Hne].
  { rewrite Hnil. simpl. rewrite app_nil_r. done. }
  rewrite strings.Split_Join; [|done|].
  - rewrite foldl_clean_solid by done. rewrite reverse_app, reverse_involutive. done.
  - eapply Forall_impl; [done|]. by intros x (_ & _ & _ & ?).
Qed.

(** The directories a resolver rooted at [/root] may look at: those below it. *)
Definition below_root (root dir : string) : Prop :=
  ∃ segs, Forall solid segs ∧
    dir = "/" +:+ strings.Join (filepath.clean_segs true (strings.Split root "/") ++ segs) "/".

(** C26. Whatever a cgroup path contains, [..] segments included, every system
    call [idFor] makes is on the cgroup mount or on a directory below it: the
    path appends ordinary segments to the mount's own. *)
Theorem idFor_confined (r : Resolver) (root path : string)
  (Hroot : cgroupRoot r = "/" +:+ root) :
  only (Σ:=os.OS) (λ c, ∃ dir, below_root root dir ∧ (c = os.NameToHandleAt dir ∨ c = os.StatIno dir))
    (idFor r path).
Proof.
  assert (below_root root (id_dir r path)) as Hd.
  { unfold id_dir. rewrite Hroot, Join_rooted. eexists. split; [|done].
    apply clean_segs_solid, strings.Split_pieces. }
  unfold idFor. simpl. split; [eauto|].
  intros [b|e]; [case_bool_decide|]; simpl; eauto.
Qed.

Lemma idFor_confined_witness :
  only (Σ:=os.OS) (λ c, ∃ dir, below_root "sys/fs/cgroup" dir ∧
                    (c = os.NameToHandleAt dir ∨ c = os.StatIno dir))
    (idFor (NewResolver "" "") "/../../etc/shadow").
Proof. apply (idFor_confined (NewResolver "" "")). reflexivity. Defined.

(** ** Reading the membership *)

Definition unified (line p : string) : Prop := line = "0::" +:+ p.

(** [h:controllers:p] with a path. *)
Definition controller (line p : string) : Prop :=
  ∃ h c, byte_free ":" h = true ∧ byte_free ":" c = true ∧
    line = h +:+ ":" +:+ c +:+ ":" +:+ p ∧ p ≠ "".

(** The first line that [R] holds of. *)
Definition first_of (R : string → string → Prop) (lines : list string) (p : string) : Prop :=
  ∃ l1 x l2, lines = l1 ++ x :: l2 ∧ R x p ∧ Forall (λ y, ∀ q, ¬ R y q) l1.

Definition none_of (R : string → string → Prop) (lines : list string) : Prop :=
  Forall (λ y, ∀ q, ¬ R y q) lines.

(** A scan by a partial function finds the first line of its graph. *)
Fixpoint scan_lines (f : string → option string) (lines : list string) : option string :=
  match lines with
  | [] => None
  | l :: lines => match f l with Some p => Some p | None => scan_lines f lines end
  end.

Lemma scan_lines_spec f R lines :
  (∀ l p, f l = Some p ↔ R l p) →
  (∀ p, scan_lines f lines = Some p ↔ first_of R lines p) ∧
  (scan_lines f lines = None ↔ none_of R lines).
Proof.
  intros Hf. induction lines as [|l lines [IH1 IH2]]; simpl.
  - split; [|split; [constructor|done]]. intros p. split; [done|].
    by intros ([|] & x & l2 & ? & _).
  - destruct (f l) as [q|] eqn:E.
    + assert (R l q) as HR by by apply Hf. split.
      * intros p. split.
        -- intros [= <-]. exists [], l, lines. split; [done|]. by split.
        -- intros ([|y l1] & x & l2 & [= <- Hl] & HR' & Hn).
           ++ apply Hf in HR'. congruence.
           ++ inversion Hn as [|? ? Hy]. by destruct (Hy q).
      * split; [done|]. intros Hn. inversion Hn as [|? ? Hy]. by destruct (Hy q).
    + assert (∀ q, ¬ R l q) as HR by (intros q ?%Hf; congruence). split.
      * intros p. rewrite IH1. split.
        -- intros (l1 & x & l2 & -> & HR' & Hn). exists (l :: l1), x, l2.
           split; [done|]. split; [done|]. by constructor.
        -- intros ([|y l1] & x & l2 & [= <- Hl] & HR' & Hn); [by destruct (HR p)|].
           exists l1, x, l2. inversion Hn. auto.
      * rewrite IH2. unfold none_of. rewrite Forall_cons. tauto.
Qed.

Lemma unified_entry_scan lines :
  unified_entry lines = scan_lines (strings.strip_prefix "0::") lines.
Proof.
  induction lines as [|l lines IH]; [done|]. cbn [unified_entry scan_lines].
  unfold strings.HasPrefix, strings.TrimPrefix. rewrite IH.
  by destruct (strings.strip_prefix "0::" l).
Qed.

Definition controller_path (l : string) : option string :=
  match strings.SplitN l ":" 3 with
  | [_; _; p] => if decide (p ≠ "") then Some p else None
  | _ => None
  end.

Lemma controller_entry_scan lines :
  controller_entry lines = scan_lines controller_path lines.
Proof.
  induction lines as [|l lines IH]; [done|]. cbn [controller_entry scan_lines].
  unfold controller_path. rewrite IH.
  destruct (strings.SplitN l ":" 3) as [|a [|b [|c [|]]]]; try done. by case_decide.
Qed.

Lemma controller_path_spec l p : controller_path l = Some p ↔ controller l p.
Proof.
  unfold controller_path, controller. cbn [strings.SplitN]. split.
  - destruct (strings.Cut l ":") as [[h r]|] eqn:E1; [|done].
    destruct (strings.Cut r ":") as [[c q]|] eqn:E2; [|done].
    case_decide; [|done]. intros [= ->].
    apply strings.Cut_Some in E1 as [-> Hh]. apply strings.Cut_Some in E2 as [-> Hc].
    by exists h, c.
  - intros (h & c & Hh & Hc & -> & Hp). rewrite !app_cons_str, !app_nil_l_str.
    rewrite !strings.Cut_app by done. by rewrite decide_True.
Qed.

(** The membership read from procfs is the unified hierarchy's: the first
    [0::] entry wins wherever it stands among the v1 controllers' lines, an
    empty path included; only without one is it the first controller line that
    has a path, and only without either is the read an error. *)
Theorem parse_membership_decides (data : string) :
  let lines := strings.Split (strings.TrimSpace data) newline in
  (∀ p, parse_membership data = Some p ↔
     first_of unified lines p ∨ none_of unified lines ∧ first_of controller lines p) ∧
  (parse_membership data = None ↔ none_of unified lines ∧ none_of controller lines).
Proof.
  intros lines. unfold parse_membership. fold lines.
  rewrite unified_entry_scan, controller_entry_scan.
  destruct (scan_lines_spec (strings.strip_prefix "0::") unified lines) as [U1 U2];
    [intros; apply strings.strip_prefix_Some|].
  destruct (scan_lines_spec controller_path controller lines) as [K1 K2];
    [intros; apply controller_path_spec|].
  destruct (scan_lines (strings.strip_prefix "0::") lines) as [q|] eqn:E.
  - assert (¬ none_of unified lines) by (rewrite <-U2; done).
    split; [|split; [done|tauto]]. intros p. rewrite U1. tauto.
  - pose proof (proj1 U2 eq_refl). split; [|rewrite K2; tauto].
    intros p. rewrite <-(U1 p), K1. split; [by right|]. by intros [?|[_ ?]].
Qed.

(** ** Resolution *)

Lemma isRelative_spec p : isRelative p = true ↔ ".." ∈ strings.Split p "/".
Proof.
  unfold isRelative. rewrite existsb_exists. setoid_rewrite <-list_elem_of_In.
  setoid_rewrite bool_decide_eq_true. split; [by intros (x & ? & ->)|eauto].
Qed.

(** The file procfs describes the membership of process [pid] in. *)
Definition membership_file (r : Resolver) (pid : Z) : string :=
  filepath.Join [procRoot r; fmt.d pid; "cgroup"].

Lemma runs_pathFor r pid tr a :
  runs (pathFor r pid) tr a →
  ∃ data, tr = [Event (Σ:=os.OS) (os.ReadFile (membership_file r pid)) data] ∧
    match a with
    | Ok p => ∃ text, data = Ok text ∧ parse_membership text = Some p
    | Err _ => ∀ text p, data = Ok text → parse_membership text ≠ Some p
    end.
Proof.
  unfold pathFor. cbn [bind os.readFile Effects.call]. intros (data & tr' & -> & -> & ->).
  exists data. split; [done|]. destruct data as [text|e]; [|by intros ? ? ?].
  destruct (parse_membership text) eqn:E; [eauto|].
  intros t p [= <-]. congruence.
Qed.

(** The two ways a cgroup's number can be read, and what [Resolve] reports
    when neither works. *)
Definition numbered (tr : trace os.OS) (id : Z) : Prop :=
  (∃ dir b, Event (Σ:=os.OS) (os.NameToHandleAt dir) (Ok b) ∈ tr ∧
            8 ≤ length b ∧ id = le_uint64 b) ∨
  (∃ dir, Event (Σ:=os.OS) (os.StatIno dir) (Ok id) ∈ tr).

Lemma runs_idFor r path tr a :
  runs (idFor r path) tr a → match a with Ok id => numbered tr id | Err _ => True end.
Proof.
  unfold idFor. cbn [bind os.nameToHandleAt Effects.call].
  intros (h & tr' & -> & Hr). destruct h as [b|e].
  - case_bool_decide.
    + destruct Hr as [-> ->]. left. eexists _, b. split; [by left|done].
    + destruct Hr as ([ino|e] & tr'' & -> & -> & ->); [|done].
      right. eexists. by right; left.
  - destruct Hr as ([ino|e'] & tr'' & -> & -> & ->); [|done].
    right. eexists. by right; left.
Qed.

(** What a trace of [Resolve] for process [pid] says about its result. *)
Definition reported (r : Resolver) (pid : Z) (tr : trace os.OS) (i : Identity)
    (e : option resolve_error) : Prop :=
  match e with
  | Some (Unplaced _) => i = no_identity ∧ length tr = 1
  | _ =>
      ∃ text rest,
        tr = Event (Σ:=os.OS) (os.ReadFile (membership_file r pid)) (Ok text) :: rest ∧
        parse_membership text = Some (Path i) ∧
        placed (strings.Split (Path i) "/") (PodUID i) (ContainerID i) ∧
        (Relative i = true ↔ ".." ∈ strings.Split (Path i) "/") ∧
        match e with None => numbered rest (ID i) | _ => ID i = 0%Z end
  end.

Lemma runs_Resolve r pid tr i e : runs (Resolve r pid) tr (i, e) → reported r pid tr i e.
Proof.
  intros Hrun.
  unfold Resolve in Hrun. apply runs_bind in Hrun as (t1 & t2 & a & -> & H1 & H2).
  apply runs_pathFor in H1 as (data & -> & Ha).
  destruct a as [path|err]; [|by destruct H2 as [-> [= -> ->]]].
  destruct Ha as (text & -> & Hm).
  pose proof (scan_placed (strings.Split path "/")) as Hp. fold (ParsePod path) in Hp.
  destruct (ParsePod path) as [uid cid]. simpl in Hp.
  apply runs_bind in H2 as (t2' & t3 & id & -> & Hid & Hr).
  apply runs_idFor in Hid. destruct Hr as [-> Hr]. rewrite app_nil_r.
  destruct id as [id|msg]; injection Hr as -> ->; simpl;
    exists text, t2'; rewrite isRelative_spec; auto.
Qed.

(** What [Resolve] reports is what procfs said.  When no membership can be
    read the identity is empty, so nothing about it can be mistaken for a host
    process or a pod; otherwise the path is the one procfs named, the pod and
    container are the ones its segments name, [Relative] is set exactly when it
    has a [..] segment, and only the numeric ID may be missing ([ErrNoID], ID
    zero); an ID that is reported is the one the kernel returned. *)
Theorem Resolve_reports (r : Resolver) (pid : Z) (tr : trace os.OS)
    (i : Identity) (e : option resolve_error)
  (Hrun : runs (Resolve r pid) tr (i, e)) :
  reported r pid tr i e.
Proof. by eapply runs_Resolve. Qed.

(** A caller in a pod whose cgroup directory is still there. *)
Definition example_world : os.world :=
  os.mkWorld {[ "/proc/42/cgroup" := "0::/kubepods/pod0d8f1a2b-1111-2222-3333-0123456789ab/0123456789ab" ]}
    ∅ ∅ ∅ ∅
    {[ "/sys/fs/cgroup/kubepods/pod0d8f1a2b-1111-2222-3333-0123456789ab/0123456789ab" := 7%Z ]}.

Lemma Resolve_reports_witness :
  ∃ tr i, runs (Resolve (NewResolver "" "") 42) tr (i, None) ∧
    PodUID i = "0d8f1a2b-1111-2222-3333-0123456789ab" ∧ ID i = 7%Z ∧
    reported (NewResolver "" "") 42 tr i None.
Proof.
  pose proof (traced_runs os.serve (Resolve (NewResolver "" "") 42) example_world) as H.
  remember (traced os.serve (Resolve (NewResolver "" "") 42) example_world) as x eqn:Hx.
  vm_compute in Hx. subst x. cbn [fst snd] in H.
  eexists _, _. split; [exact H|]. split; [reflexivity|]. split; [reflexivity|].
  exact (Resolve_reports (NewResolver "" "") 42 _ _ None H).
Defined.

End cgroup.
