(* ===== verification/Identity.v ===== *)
(** * Package identity: from a PID to a caller ([src/internal/identity])

    [Identify] joins the kernel's half (package cgroup) and the API server's
    half (package kube).  The pod cache is used through the interface
    [PodLookup]: a program can be interleaved with the watcher, so the two
    questions it asks are effects, and what the cache promises about its
    answers is the law of the class [PodCache]. *)

From S2P Require Import Prelude GoStrings Effects Os Kube Secrets Cgroup.
Import secrets.

Module identity.

Local Open Scope prog_scope.

(** ** The interface *)

Inductive call :=
| OS (c : os.call)
| HasSynced
| Lookup (uid : string).

Definition answer (c : call) : Type :=
  match c with
  | OS c => os.answer c
  | HasSynced => bool
  | Lookup _ => option kube.Pod
  end.

Definition ID : sig := Sig call answer.

Definition do (c : call) : prog ID (answer c) := Effects.call (Σ:=ID) c.

Definition lift_os {A} (p : prog os.OS A) : prog ID A :=
  interp (Σ1:=os.OS) (Σ2:=ID) (λ c, do (OS c)) p.

(** [PodLookup] *)
Class PodLookup (P : Type) := {
  pl_Lookup : P → string → option kube.Pod;
  pl_HasSynced : P → bool;
}.

(** What the cache promises: a pod it returns has the UID it was asked for. *)
Class PodCache (P : Type) `{PodLookup P} (inv : P → Prop) :=
  pl_filed : ∀ p uid pod, inv p → pl_Lookup p uid = Some pod → kube.pod_UID pod = uid.

#[global] Instance Watcher_PodLookup : PodLookup kube.Watcher :=
  {| pl_Lookup := kube.Lookup; pl_HasSynced := kube.HasSynced |}.

#[global] Instance Watcher_PodCache : PodCache kube.Watcher kube.wf.
Proof. intros w uid pod Hw H. by apply Hw in H as [? _]. Qed.

(** ** The operation *)

(** [New]: the cgroup resolver and whether there is a pod cache. *)
Record Resolver := New { cgroups : cgroup.Resolver; pods : bool }.

Definition caller_of (id : cgroup.Identity) (pod : option kube.Pod) : Caller :=
  mkCaller (cgroup.Path id) (cgroup.ID id) (cgroup.Relative id)
    (cgroup.PodUID id) (cgroup.ContainerID id) pod.

(** [errors.Is(err, cgroup.ErrNoID)] *)
Definition is_ErrNoID (e : cgroup.resolve_error) : bool :=
  match e with cgroup.ErrNoID _ _ => true | cgroup.Unplaced _ => false end.

Definition unresolved (pid : Z) (e : cgroup.resolve_error) : error :=
  "resolving cgroup for pid " +:+ fmt.d pid +:+ ": " +:+ cgroup.resolve_text e.
Definition not_synced (pid : Z) (uid : string) : error :=
  "pod cache is not synced, cannot attribute pid " +:+ fmt.d pid +:+ " to pod " +:+ uid.
Definition not_cached (pid : Z) (uid : string) : error :=
  "pid " +:+ fmt.d pid +:+ " is in pod " +:+ uid +:+ ", which is not in this node's pod cache".

(** The part of [Identify] after the cgroup is resolved. *)
Definition attribute (r : Resolver) (pid : Z) (id : cgroup.Identity)
    : prog ID (Caller * option error) :=
  let caller := caller_of id None in
  if negb (pods r) || negb (cgroup.IsPod id) then Ret (caller, None)
  else
    synced <- do HasSynced ;;
    if negb synced then Ret (caller, Some (not_synced pid (cgroup.PodUID id)))
    else
      pod <- do (Lookup (cgroup.PodUID id)) ;;
      Ret (match pod with
           | None => (caller, Some (not_cached pid (cgroup.PodUID id)))
           | Some pod => (caller_of id (Some pod), None)
           end).

Definition Identify (r : Resolver) (pid : Z) : prog ID (Caller * option error) :=
  res <- lift_os (cgroup.Resolve (cgroups r) pid) ;;
  let '(id, err) := res in
  match err with
  | Some e =>
      if is_ErrNoID e then attribute r pid id
      else Ret (caller_of id None, Some (unresolved pid e))
  | None => attribute r pid id
  end.

(** ** Running it against a world and a cache *)

Definition serve {P} `{PodLookup P} : handler ID (os.world * P) := λ c s,
  match c return answer c * (os.world * P) with
  | OS c => let '(x, w) := os.serve c s.1 in (x, (w, s.2))
  | HasSynced => (pl_HasSynced s.2, s)
  | Lookup uid => (pl_Lookup s.2 uid, s)
  end.

Definition eval {P A} `{PodLookup P} (p : prog ID A) (w : os.world) (cache : P) : A :=
  (exec serve p (w, cache)).1.

(** ** What a successful identification means *)

(** Every answer of the cache is a pod with the UID that was asked for. *)
Definition honest (e : event ID) : Prop :=
  match ev_op e as o return ans ID o → Prop with
  | Lookup uid => λ x, match x with Some pod => kube.pod_UID pod = uid | None => True end
  | _ => λ _, True
  end (ev_ans e).

Definition cache_honest (tr : trace ID) : Prop := Forall honest tr.

(** A cache that keeps its law answers honestly, whatever the rest of the world
    does between two calls. *)
Lemma serve_honest {P} `{PodCache P inv} w (cache : P) (o : op ID) :
  inv cache → honest (Event o (serve o (w, cache)).1).
Proof.
  intros Hi. destruct o as [c| |uid]; simpl; [by destruct (os.serve c w)|done|].
  unfold honest. simpl. destruct (pl_Lookup cache uid) eqn:E; [|done]. by eapply pl_filed.
Qed.

(** The law of the cache makes every trace against it honest. *)
Lemma traced_honest {P A} `{PodCache P inv} (p : prog ID A) w (cache : P) :
  inv cache → cache_honest (traced serve p (w, cache)).1.1.
Proof.
  intros Hi. revert w. induction p as [a|o k IH]; intros w; simpl; [constructor|].
  pose proof (serve_honest w cache o Hi) as Ho.
  assert ((serve o (w, cache)).2.2 = cache) as Hs.
  { destruct o as [c| |uid]; simpl; [by destruct (os.serve c w)|done|done]. }
  destruct (serve o (w, cache)) as [x [w' cache']]. simpl in Ho, Hs. subst cache'.
  specialize (IH x w'). destruct (traced serve (k x) (w', cache)) as [[tr a] s''].
  simpl in *. by constructor.
Qed.

Lemma runs_attribute r pid id tr caller err :
  runs (attribute r pid id) tr (caller, err) → cache_honest tr →
  caller_PodUID caller = cgroup.PodUID id ∧
  caller_ContainerID caller = cgroup.ContainerID id ∧
  caller_CgroupPath caller = cgroup.Path id ∧
  caller_CgroupPathRelative caller = cgroup.Relative id ∧
  match err with
  | Some _ => caller_Pod caller = None
  | None =>
      match caller_Pod caller with
      | Some pod => kube.pod_UID pod = cgroup.PodUID id ∧ cgroup.PodUID id ≠ "" ∧
                    Event (Σ:=ID) HasSynced true ∈ tr
      | None => pods r = false ∨ cgroup.PodUID id = ""
      end
  end.
Proof.
  unfold attribute. intros Hr Hc.
  destruct (negb (pods r) || negb (cgroup.IsPod id)) eqn:E.
  { destruct Hr as [-> [= -> ->]]. simpl. do 4 (split; [done|]).
    apply orb_true_iff in E as [E|E]; breflect; [by left|right].
    unfold cgroup.IsPod in E. breflect. by apply dec_stable in E. }
  breflect. unfold cgroup.IsPod in *. breflect.
  destruct Hr as (synced & tr1 & -> & Hr). destruct synced; simpl in Hr.
  - destruct Hr as (pod & tr2 & -> & -> & Hr).
    destruct pod as [pod|]; injection Hr as -> ->; simpl; do 4 (split; [done|]); [|done].
    split; [|split; [done|left]]. inversion_clear Hc as [|? ? _ Hc']. by inversion_clear Hc'.
  - destruct Hr as [-> [= -> ->]]. by simpl.
Qed.

Lemma runs_lift_os {A} (p : prog os.OS A) tr a :
  runs (lift_os p) tr a →
  ∃ tr', runs p tr' a ∧ tr = (λ e : event os.OS, Event (Σ:=ID) (OS (ev_op e)) (ev_ans e)) <$> tr'.
Proof.
  unfold lift_os. revert tr. induction p as [x|o k IH]; intros tr; simpl.
  - intros [-> ->]. by exists [].
  - intros (x & tr' & -> & H). destruct (IH x tr' H) as (t & Ht & ->).
    exists (Event o x :: t). split; [by exists x, t|done].
Qed.

(** The membership of process [pid] was read, from its own file, as [path]. *)
Definition membership_read (r : Resolver) (pid : Z) (tr : trace ID) (path : string) : Prop :=
  ∃ text,
    Event (Σ:=ID) (OS (os.ReadFile (cgroup.membership_file (cgroups r) pid))) (Ok text) ∈ tr ∧
    cgroup.parse_membership text = Some path.

(** C23. An identification without an error is sound: the caller's cgroup path is
    the one read from the membership file of the process that was asked about
    ([<proc>/<pid>/cgroup]), its pod UID and container are the ones
    that path names, and it either carries a pod record with exactly that UID,
    from a cache that had synchronised, or carries none because the path names
    no pod or there is no cache at all.  With an error the caller never carries
    a pod: neither a cold cache nor an unknown pod reads as a host process. *)
Theorem Identify_sound (r : Resolver) (pid : Z) (tr : trace ID) (caller : Caller)
    (err : option error)
  (Hrun : runs (Identify r pid) tr (caller, err)) (Hcache : cache_honest tr) :
  match err with
  | Some _ => caller_Pod caller = None
  | None =>
      membership_read r pid tr (caller_CgroupPath caller) ∧
      cgroup.placed (strings.Split (caller_CgroupPath caller) "/")
        (caller_PodUID caller) (caller_ContainerID caller) ∧
      match caller_Pod caller with
      | Some pod => kube.pod_UID pod = caller_PodUID caller ∧ caller_PodUID caller ≠ "" ∧
                    Event (Σ:=ID) HasSynced true ∈ tr
      | None => pods r = false ∨ caller_PodUID caller = ""
      end
  end.
Proof.
  unfold Identify in Hrun. apply runs_bind in Hrun as (t1 & t2 & [id e] & -> & H1 & H2).
  apply runs_lift_os in H1 as (t & Ht & ->). apply cgroup.runs_Resolve in Ht.
  assert (cache_honest t2) as Hc2.
  { by apply Forall_app in Hcache as [_ ?]. }
  assert ((caller_Pod caller = None ∧ err ≠ None) ∨
    runs (attribute r pid id) t2 (caller, err) ∧
    ∃ text rest, t = Event (Σ:=os.OS)
        (os.ReadFile (cgroup.membership_file (cgroups r) pid)) (Ok text) :: rest ∧
      cgroup.parse_membership text = Some (cgroup.Path id) ∧
      cgroup.placed (strings.Split (cgroup.Path id) "/") (cgroup.PodUID id)
        (cgroup.ContainerID id))
    as [[Hn He]|[Ha (text & rest & -> & Hm & Hp)]].
  { destruct e as [[m|p m]|]; [left; by destruct H2 as [_ [= -> ->]]|right; split; [done|]..];
      destruct Ht as (text & rest & -> & ? & ? & _); eauto 10. }
  { by destruct err. }
  apply runs_attribute in Ha as (Hu & Hci & Hpath & _ & Hres); [|done].
  destruct err; [done|]. rewrite Hpath, Hu, Hci. split; [|split; [done|]].
  - exists text. split; [by left|done].
  - destruct (caller_Pod caller); [|done]. destruct Hres as (? & ? & ?).
    split; [done|]. split; [done|]. apply elem_of_app. by right.
Qed.

(** ** Completeness *)

Lemma exec_lift_os {P A} `{PodLookup P} (p : prog os.OS A) w (cache : P) :
  exec serve (lift_os p) (w, cache) = (os.eval p w, (w, cache)).
Proof.
  unfold lift_os, os.eval. induction p as [a|o k IH]; simpl; [done|].
  pose proof (os.serve_pure o w). destruct (os.serve o w) as [x w']. simpl in *. subst.
  apply IH.
Qed.

(** A colon-free scheme in front of a container ID is stripped. *)
Lemma Index_scheme scheme rest :
  byte_free ":" scheme = true →
  strings.Index (scheme +:+ "://" +:+ rest) "://" = Some (String.length scheme).
Proof.
  unfold byte_free. induction scheme as [|c s IH]; intros H; simpl in H.
  - rewrite app_nil_l_str, !app_cons_str, app_nil_l_str. reflexivity.
  - breflect. rewrite app_cons_str. cbn [strings.Index].
    assert (strings.HasPrefix (String c (s +:+ "://" +:+ rest)) "://" = false) as ->.
    { unfold strings.HasPrefix. cbn [strings.strip_prefix].
      by rewrite Ascii.eqb_sym, H. }
    by rewrite IH.
Qed.

Lemma stripRuntimePrefix_scheme scheme cid :
  byte_free ":" scheme = true → cgroup.canonical_container cid = true →
  kube.stripRuntimePrefix (scheme +:+ "://" +:+ cid) = cid.
Proof.
  intros Hs Hc. unfold kube.stripRuntimePrefix. rewrite Index_scheme by done.
  replace (String.length scheme + 3) with (String.length (scheme +:+ "://"))
    by (rewrite length_app_str; done).
  rewrite <-app_assoc_str, drop_str_app. by apply cgroup.canonical_container_raw.
Qed.

Lemma add_containers_keep m l cid name :
  m !! cid = Some name →
  (∀ cs, cs ∈ l → kube.stripRuntimePrefix (kube.cs_ContainerID cs) = cid →
     kube.cs_Name cs = name) →
  foldl kube.add_container m l !! cid = Some name.
Proof.
  revert m. induction l as [|cs l IH]; intros m Hm Hl; simpl; [done|].
  apply IH; [|intros; apply Hl; [by right|done]].
  unfold kube.add_container. case_decide; [done|].
  destruct (decide (kube.stripRuntimePrefix (kube.cs_ContainerID cs) = cid)) as [E|E].
  - rewrite E, lookup_insert_eq. f_equal. apply Hl; [by left|done].
  - by rewrite lookup_insert_ne.
Qed.

(** The name of a container, by the ID its status reports. *)
Lemma toPod_container o cs cid :
  cs ∈ kube.all_statuses o →
  kube.stripRuntimePrefix (kube.cs_ContainerID cs) = cid → cid ≠ "" → kube.cs_Name cs ≠ "" →
  (∀ cs', cs' ∈ kube.all_statuses o →
     kube.stripRuntimePrefix (kube.cs_ContainerID cs') = cid →
     kube.cs_Name cs' = kube.cs_Name cs) →
  kube.pod_Containers (kube.toPod o) !! cid = Some (kube.cs_Name cs).
Proof.
  unfold kube.toPod. simpl. generalize (∅ : gmap string string).
  induction (kube.all_statuses o) as [|x l IH]; intros m Hin Hs Hc Hn Hu;
    [by apply not_elem_of_nil in Hin|].
  simpl. apply elem_of_cons in Hin as [<-|Hin].
  - apply add_containers_keep; [|intros; apply Hu; [by right|done]].
    unfold kube.add_container. rewrite Hs, decide_False by (intros [?|?]; done).
    by rewrite lookup_insert_eq.
  - apply IH; try done. intros; apply Hu; [by right|done].
Qed.

(** C24. The two halves meet: for a process whose cgroup path is the kubelet's
    rendering of a pod and a container (either driver), with the pod in a
    synchronised cache and the container's status in the pod under any runtime
    scheme, [Identify] succeeds, whether or not the numeric cgroup ID can be
    read, and gives the pod's record and the container's name, which is what
    the selectors of a binding are matched against. *)
Theorem Identify_complete (r : Resolver) (pid : Z) (w : os.world) (cache : kube.Watcher)
    (d : cgroup.driver) (above below : list string) (uid cid scheme data : string)
    (o : kube.podObject) (cs : kube.containerStatus)
  (Hpods : pods r = true)
  (Hfile : os.w_files w !! filepath.Join [cgroup.procRoot (cgroups r); fmt.d pid; "cgroup"]
           = Some data)
  (Hdata : cgroup.parse_membership data =
           Some (strings.Join (above ++ cgroup.render d uid cid ++ below) "/"))
  (Hu : cgroup.canonical_uid uid = true) (Hc : cgroup.canonical_container cid = true)
  (Hd : cgroup.driver_ok d) (Ha : Forall cgroup.not_pod above)
  (Hs : Forall (λ s, cgroup.slash_free s = true) (above ++ below))
  (Hsync : kube.HasSynced cache = true)
  (Hpod : kube.Lookup cache uid = Some (kube.toPod o))
  (Hcs : cs ∈ kube.all_statuses o)
  (Hid : kube.cs_ContainerID cs = scheme +:+ "://" +:+ cid)
  (Hscheme : byte_free ":" scheme = true) (Hname : kube.cs_Name cs ≠ "")
  (Huniq : ∀ cs', cs' ∈ kube.all_statuses o →
     kube.stripRuntimePrefix (kube.cs_ContainerID cs') = cid →
     kube.cs_Name cs' = kube.cs_Name cs) :
  ∃ caller, eval (Identify r pid) w cache = (caller, None) ∧
    caller_PodUID caller = uid ∧ caller_ContainerID caller = cid ∧
    caller_Pod caller = Some (kube.toPod o) ∧
    get (kube.pod_Containers (kube.toPod o)) cid = kube.cs_Name cs.
Proof.
  set (path := strings.Join _ _) in Hdata.
  assert (cgroup.ParsePod path = (uid, cid)) as Hparse
    by by apply cgroup.ParsePod_rendered.
  assert (∃ i, cgroup.PodUID i = uid ∧ cgroup.ContainerID i = cid ∧
    ∃ e, os.eval (cgroup.Resolve (cgroups r) pid) w = (i, e) ∧
         (e = None ∨ ∃ p m, e = Some (cgroup.ErrNoID p m))) as (i & Hi1 & Hi2 & e & He & Hcase).
  { unfold cgroup.Resolve. rewrite os.eval_bind.
    assert (os.eval (cgroup.pathFor (cgroups r) pid) w = Ok path) as ->.
    { unfold os.eval, cgroup.pathFor. cbn [os.readFile Effects.call bind exec os.serve].
      rewrite Hfile. cbn. by rewrite Hdata. }
    rewrite Hparse, os.eval_bind.
    destruct (os.eval (cgroup.idFor (cgroups r) path) w);
      (eexists; split; [|split; [|eexists; split; [reflexivity|]]]; [done|done|eauto]). }
  unfold eval, Identify. rewrite exec_bind, exec_lift_os, He.
  assert (cgroup.IsPod i = true) as Hip.
  { apply bool_decide_eq_true. rewrite Hi1. by intros ->. }
  assert (exec serve (attribute r pid i) (w, cache) =
    ((caller_of i (Some (kube.toPod o)), None), (w, cache))) as Hattr.
  { unfold attribute. rewrite Hpods, Hip. cbn. rewrite Hsync. cbn.
    by rewrite Hi1, Hpod. }
  exists (caller_of i (Some (kube.toPod o))).
  split; [by destruct Hcase as [-> |(p & m & ->)]; simpl; rewrite Hattr|].
  split; [done|]. split; [done|]. split; [done|].
  unfold get. rewrite (toPod_container o cs); try done.
  - by rewrite Hid, stripRuntimePrefix_scheme.
  - intros ->. done.
Qed.

(** A process in a pod of the cache. *)
Definition example_uid : string := "0d8f1a2b-1111-2222-3333-0123456789ab".

Definition example_object : kube.podObject :=
  kube.mkObject example_uid "web-1" "shop" {[ "app" := "web" ]} "12"
    [kube.mkStatus "main" "containerd://0123456789AB"] [] [].

Definition example_cache : kube.Watcher :=
  {| kube.byUID := {[ example_uid := kube.toPod example_object ]}; kube.synced := true |}.

Definition example_resolver : Resolver := New (cgroup.NewResolver "" "") true.

Lemma Identify_sound_witness :
  ∃ tr caller pod, runs (Identify example_resolver 42) tr (caller, None) ∧
    caller_Pod caller = Some pod ∧
    membership_read example_resolver 42 tr (caller_CgroupPath caller) ∧
    cgroup.placed (strings.Split (caller_CgroupPath caller) "/")
      (caller_PodUID caller) (caller_ContainerID caller) ∧
    (kube.pod_UID pod = caller_PodUID caller ∧ caller_PodUID caller ≠ "" ∧
     Event (Σ:=ID) HasSynced true ∈ tr).
Proof.
  pose proof (traced_runs serve (Identify example_resolver 42)
                (cgroup.example_world, example_cache)) as H.
  remember (traced serve (Identify example_resolver 42)
              (cgroup.example_world, example_cache)) as x eqn:Hx.
  vm_compute in Hx. subst x. cbn [fst snd] in H.
  eexists _, _, _. split; [exact H|]. split; [reflexivity|].
  refine (Identify_sound example_resolver 42 _ _ None H _).
  repeat constructor.
Defined.

Lemma Identify_complete_witness :
  ∃ caller, eval (Identify example_resolver 42) cgroup.example_world
              {| kube.byUID := {[ example_uid := kube.toPod
                   (kube.mkObject example_uid "web-1" "shop" ∅ "12"
                      [kube.mkStatus "main" "containerd://0123456789ab"] [] []) ]};
                 kube.synced := true |} = (caller, None) ∧
    caller_PodUID caller = example_uid ∧ caller_ContainerID caller = "0123456789ab" ∧
    caller_Pod caller = Some (kube.toPod (kube.mkObject example_uid "web-1" "shop" ∅ "12"
                      [kube.mkStatus "main" "containerd://0123456789ab"] [] [])) ∧
    get (kube.pod_Containers (kube.toPod (kube.mkObject example_uid "web-1" "shop" ∅ "12"
           [kube.mkStatus "main" "containerd://0123456789ab"] [] []))) "0123456789ab" = "main".
Proof.
  apply (Identify_complete example_resolver 42 cgroup.example_world _ cgroup.cgroupfs
           [""; "kubepods"] [] example_uid "0123456789ab" "containerd"
           "0::/kubepods/pod0d8f1a2b-1111-2222-3333-0123456789ab/0123456789ab" _
           (kube.mkStatus "main" "containerd://0123456789ab")); try reflexivity.
  - repeat constructor; apply cgroup.find_pod_None; vm_compute; reflexivity.
  - repeat constructor.
  - left.
  - done.
  - intros cs' Hin _. apply list_elem_of_singleton in Hin as ->. reflexivity.
Defined.

End identity.
