(* ===== verification/Server.v ===== *)
(** * Package server: secret delivery ([src/internal/server])

    [handle] decides one request.  It is an effectful program over the
    interfaces the server is built on (Resolver, Identifier, Protector), the
    two callbacks, procfs and the log; the log lines are kept as the values the
    code passes to the formatter.  The properties quantify over every trace,
    that is over every behaviour of those interfaces and of the processes the
    server observes. *)

From S2P Require Import Prelude GoStrings Effects Os Protocol Kube Secrets.
Import secrets.

Module server.

Local Open Scope prog_scope.

(** ** Data *)

Record Config := mkConfig {
  SocketPath : string;
  SocketMode : Z;
  SocketGroup : string;
  RequireProtection : bool;
  IdentifyCallers : bool;
  RequirePodIdentity : bool;
}.

(** The fields of [Server] that [handle] reads: the configuration, whether an
    identifier was supplied and whether the callbacks are registered. *)
Record Server := mkServer {
  cfg : Config;
  has_identifier : bool;
  has_onIssued : bool;
  has_onDenied : bool;
}.

(** [New]'s defaults. *)
Definition New (c : Config) (identifier : bool) : Server :=
  {| cfg := {| SocketPath := if decide (SocketPath c = "")
                             then protocol.DefaultSocketPath else SocketPath c;
               SocketMode := if (SocketMode c =? 0)%Z then 432 (* 0o660 *) else SocketMode c;
               SocketGroup := SocketGroup c;
               RequireProtection := RequireProtection c;
               IdentifyCallers := IdentifyCallers c;
               RequirePodIdentity := RequirePodIdentity c |};
     has_identifier := identifier;
     has_onIssued := false;
     has_onDenied := false |}.

Definition SetIssuedCallback (s : Server) : Server :=
  mkServer (cfg s) (has_identifier s) true (has_onDenied s).

Definition SetDeniedCallback (s : Server) : Server :=
  mkServer (cfg s) (has_identifier s) (has_onIssued s) true.

(** [syscall.Ucred]; [Pid] is an [int32]. *)
Record Ucred := mkUcred { Pid : Z; Uid : Z; Gid : Z }.

Inductive log_line :=
| DenyUnidentified (pid : Z) (err : error) (peer : string)
| DenyNotInPod (pid : Z) (peer : string)
| DebugUnidentified (pid : Z) (err : error)
| DebugNoSecrets (bin peer : string)
| DenyRefused (bin : string) (pid : Z) (refused : list string) (peer : string)
| DenyRejected (bin : string) (pid : Z) (rejected : list string) (peer : string)
| DenyAllUnresolved (bin : string) (n : nat) (unresolved : list string) (peer : string)
| WarnAllUnresolved (bin : string) (n : nat) (unresolved : list string) (peer : string)
| DenyVanished (pid : Z) (err : error)
| WarnProtect (pid : Z) (err : error)
| WarnTrack (pid : Z) (err : error)
| WarnRollback (pid : Z) (err : error)
| DenyRecycled (pid : Z)
| DenyUnprotected (pid : Z)
| Protected (pid : Z) (peer : string)
| Issued (n : nat) (bin : string) (names : list string) (peer : string)
| WarnUnresolved (bin : string) (n : nat) (unresolved : list string)
| WarnRejected (bin : string) (rejected : list string)
| WarnDeadline (err : error)
| WarnNotUnix
| WarnNoPeer (err : error)
| WarnMalformed (pid : Z) (err : error)
| WarnReply (err : error).

(** ** The interfaces the server is built on *)

Inductive call :=
| OS (c : os.call)
| Identify (pid : Z)
| Lookup (binaryName : string) (caller : Caller)
| ProtectPID (pid : Z)
| UnprotectPID (pid : Z)
| TrackPID (pid : Z)
| OnIssued (pid : Z) (names : list string)
| OnDenied (pid : Z) (reason : string)
| Log (l : log_line).

Definition answer (c : call) : Type :=
  match c with
  | OS c => os.answer c
  | Identify _ => Caller * option error
  | Lookup _ _ => Match
  | ProtectPID _ | UnprotectPID _ | TrackPID _ => option error
  | OnIssued _ _ | OnDenied _ _ | Log _ => unit
  end.

Definition SRV : sig := Sig call answer.

Definition do (c : call) : prog SRV (answer c) := Effects.call (Σ:=SRV) c.

Definition lift_os {A} (p : prog os.OS A) : prog SRV A :=
  interp (Σ1:=os.OS) (Σ2:=SRV) (λ c, do (OS c)) p.

Definition log (l : log_line) : prog SRV unit := do (Log l).

(** Every operation has an answer. *)
Lemma srv_answers (o : op SRV) : inhabited (ans SRV o).
Proof.
  destruct o as [[]| | | | | | | |]; simpl; constructor;
    first [exact "" | exact (Err os.ENOENT) | exact (mkCaller "" 0 false "" "" None, None)
          | exact secrets.empty_match | exact None | exact tt].
Qed.

(** ** procfs ([peer.go]) *)

Definition proc_file (pid : Z) (name : string) : string :=
  "/proc/" +:+ fmt.d pid +:+ "/" +:+ name.

Definition startTimeIndex : nat := 22 - 3.

(** The text of [strconv.ParseUint]'s error, found at the first byte that is not a
    digit or takes the number out of range. *)
Fixpoint uint_error (n : Z) (s : string) : error :=
  match s with
  | "" => "invalid syntax"
  | String c s =>
      if negb (strconv.is_digit c) then "invalid syntax"
      else
        let n := (n * 10 + strconv.digit_val c)%Z in
        if (2 ^ 64 <=? n)%Z then "value out of range" else uint_error n s
  end.

(** [processStartTime] on the contents of [/proc/<pid>/stat]. *)
Definition parse_stat (pid : Z) (data : string) : result Z error :=
  let file := proc_file pid "stat" in
  match strings.LastIndexByte data ")" with
  | None => Err ("malformed " +:+ file)
  | Some idx =>
      if bool_decide (String.length data ≤ idx + 2) then Err ("malformed " +:+ file) else
      let fields := strings.Fields (drop_str (idx + 2) data) in
      match fields !! startTimeIndex with
      | None =>
          Err (file +:+ " has " +:+ fmt.d (Z.of_nat (length fields))
               +:+ " fields after comm, need " +:+ fmt.d (Z.of_nat (startTimeIndex + 1)))
      | Some f =>
          match strconv.ParseUint f with
          | Some z => Ok z
          | None => Err ("strconv.ParseUint: parsing " +:+ fmt.q f +:+ ": " +:+ uint_error 0 f)
          end
      end
  end.

Definition processStartTime (pid : Z) : prog os.OS (result Z error) :=
  r <- os.readFile (proc_file pid "stat") ;;
  Ret (match r with
       | Err e => Err (os.errno_text e)
       | Ok data => parse_stat pid data
       end).

Definition processExe (pid : Z) : prog os.OS string :=
  r <- os.readlink (proc_file pid "exe") ;;
  Ret (match r with Err _ => "unknown" | Ok target => target end).

(** The first line with the prefix, without it. *)
Fixpoint unified_entry (lines : list string) : option string :=
  match lines with
  | [] => None
  | l :: lines =>
      if strings.HasPrefix l "0::" then Some (strings.TrimPrefix l "0::")
      else unified_entry lines
  end.

Definition newline : ascii := "010".

Definition parse_peer_cgroup (data : string) : string :=
  let text := strings.TrimSpace data in
  match unified_entry (strings.Split text newline) with
  | Some p => p
  | None =>
      let first := List.hd "" (strings.SplitN text newline 2) in
      match strings.SplitN first ":" 3 with
      | [_; _; p] => p
      | _ => "unknown"
      end
  end.

Definition processCgroup (pid : Z) : prog os.OS string :=
  r <- os.readFile (proc_file pid "cgroup") ;;
  Ret (match r with Err _ => "unknown" | Ok data => parse_peer_cgroup data end).

(** [uint32(cred.Pid)] *)
Definition cred_pid (cred : Ucred) : Z := uint32 (Pid cred).

Definition describePeer (cred : Ucred) : prog os.OS string :=
  let pid := cred_pid cred in
  exe <- processExe pid ;;
  cg <- processCgroup pid ;;
  Ret ("pid=" +:+ fmt.d pid +:+ " uid=" +:+ fmt.d (Uid cred) +:+ " gid="
       +:+ fmt.d (Gid cred) +:+ " exe=" +:+ exe +:+ " cgroup=" +:+ cg).

Definition describeCaller (peer : string) (caller : Caller) : string :=
  match caller_Pod caller with
  | Some p =>
      peer +:+ " pod=" +:+ kube.pod_Namespace p +:+ "/" +:+ kube.pod_Name p
      +:+ " poduid=" +:+ caller_PodUID caller +:+ " container="
      +:+ get (kube.pod_Containers p) (caller_ContainerID caller)
  | None =>
      if decide (caller_PodUID caller ≠ "")
      then peer +:+ " poduid=" +:+ caller_PodUID caller
           +:+ " (not in this node's pod cache)"
      else peer +:+ " pod=none"
  end.

(** [peerCred]: the three places it can fail. *)
Definition peerCred (raw ctrl : option error) (sockopt : result Ucred error)
    : result Ucred error :=
  match raw, ctrl, sockopt with
  | Some e, _, _ => Err ("obtaining raw conn: " +:+ e)
  | None, Some e, _ => Err ("control: " +:+ e)
  | None, None, Err e => Err ("SO_PEERCRED: " +:+ e)
  | None, None, Ok cred => Ok cred
  end.

(** ** Deciding a request ([server.go]) *)

Definition identify (s : Server) (pid : Z) : prog SRV (Caller * option error) :=
  let nobody := mkCaller "" 0 false "" "" None in
  if negb (IdentifyCallers (cfg s)) then Ret (nobody, None)
  else if negb (has_identifier s) then
    Ret (nobody,
         Some "caller identification is enabled but no identifier is configured")
  else do (Identify pid).

Definition denied (s : Server) (pid : Z) (reason : string) : prog SRV unit :=
  if has_onDenied s then do (OnDenied pid reason) else Ret tt.

Definition issued (s : Server) (pid : Z) (names : list string) : prog SRV unit :=
  if has_onIssued s then do (OnIssued pid names) else Ret tt.

(** The loop that fills [env] and [names]. *)
Definition env_of (l : list Secret) : gmap string string :=
  foldl (λ m sec, <[sec_Name sec := sec_Value sec]> m) ∅ l.

Definition names_of (l : list Secret) : list string := sort.Strings (sec_Name <$> l).

Definition no_admit (bin : string) : string :=
  "no secret binding for " +:+ fmt.q bin +:+ " admits this caller".
Definition rejected_text (rejected : list string) (bin : string) : string :=
  "secret binding(s) " +:+ fmt.v rejected +:+ " for " +:+ fmt.q bin
  +:+ " are rejected by policy".
Definition all_unresolved_error (unresolved : list string) (bin : string) : string :=
  "all " +:+ fmt.d (Z.of_nat (length unresolved)) +:+ " configured secret(s) for " +:+ fmt.q bin
  +:+ " failed to resolve: " +:+ fmt.v unresolved.
Definition all_unresolved_warning (unresolved : list string) : string :=
  "all " +:+ fmt.d (Z.of_nat (length unresolved)) +:+ " configured secret(s) failed to resolve: "
  +:+ fmt.v unresolved.
Definition unresolved_warning (unresolved : list string) : string :=
  fmt.d (Z.of_nat (length unresolved)) +:+ " configured secret(s) failed to resolve: "
  +:+ fmt.v unresolved.
Definition rejected_warning (rejected : list string) : string :=
  "binding(s) " +:+ fmt.v rejected +:+ " are rejected by policy".

(** The last part of [handle]: the environment, the callback and the warnings
    of a partial delivery. *)
Definition release (s : Server) (pid : Z) (peer bin : string) (protected : bool)
    (matched : Match) : prog SRV protocol.Response :=
  let env := env_of (m_Secrets matched) in
  let names := names_of (m_Secrets matched) in
  (if protected then log (Protected pid peer) else Ret tt) ;;;
  log (Issued (length names) bin names peer) ;;;
  issued s pid names ;;;
  w1 <- (if decide (m_Unresolved matched = []) then Ret []
         else log (WarnUnresolved bin (length (m_Unresolved matched)) (m_Unresolved matched)) ;;;
              Ret [unresolved_warning (m_Unresolved matched)]) ;;
  w2 <- (if decide (m_Rejected matched = []) then Ret []
         else log (WarnRejected bin (m_Rejected matched)) ;;;
              Ret [rejected_warning (m_Rejected matched)]) ;;
  Ret (protocol.mkResponse true env protected "" (strings.Join (w1 ++ w2) "; ")).

(** What [handle] does once the second start time is read: roll back when the
    two differ, withhold when protection is required and failed, release
    otherwise. *)
Definition after_protect (s : Server) (pid : Z) (peer bin : string) (matched : Match)
    (before : Z) (perr : option error) (startAfter : result Z error)
    : prog SRV protocol.Response :=
  if match startAfter with Err _ => true | Ok after => negb (after =? before)%Z end
  then
    uerr <- do (UnprotectPID pid) ;;
    (match uerr with Some e => log (WarnRollback pid e) | None => Ret tt end) ;;;
    denied s pid "pid recycled" ;;;
    log (DenyRecycled pid) ;;;
    Ret (protocol.Refusal "caller no longer exists")
  else
    let protected := match perr with None => true | Some _ => false end in
    if negb protected && RequireProtection (cfg s) then
      denied s pid "protection unavailable" ;;;
      log (DenyUnprotected pid) ;;;
      Ret (protocol.Refusal "kernel protection unavailable and policy requires it")
    else release s pid peer bin protected matched.

(** The middle of [handle]: protect the caller between two readings of its
    start time. *)
Definition protect_and_release (s : Server) (pid : Z) (peer bin : string)
    (matched : Match) : prog SRV protocol.Response :=
  startBefore <- lift_os (processStartTime pid) ;;
  match startBefore with
  | Err e =>
      denied s pid "caller vanished" ;;;
      log (DenyVanished pid e) ;;;
      Ret (protocol.Refusal "caller no longer exists")
  | Ok before =>
      perr <- do (ProtectPID pid) ;;
      (match perr with Some e => log (WarnProtect pid e) | None => Ret tt end) ;;;
      terr <- do (TrackPID pid) ;;
      (match terr with Some e => log (WarnTrack pid e) | None => Ret tt end) ;;;
      startAfter <- lift_os (processStartTime pid) ;;
      after_protect s pid peer bin matched before perr startAfter
  end.

(** What [handle] does with the outcome of the lookup. *)
Definition deliver (s : Server) (pid : Z) (peer bin : string) (matched : Match)
    : prog SRV protocol.Response :=
  if Empty matched then
    log (DebugNoSecrets bin peer) ;;;
    Ret (protocol.mkResponse true ∅ false "" "")
  else if bool_decide (m_Secrets matched = []) && bool_decide (m_Refused matched ≠ []) then
    denied s pid "pod identity refused" ;;;
    log (DenyRefused bin pid (m_Refused matched) peer) ;;;
    Ret (protocol.Refusal (no_admit bin))
  else if bool_decide (m_Secrets matched = []) && bool_decide (m_Rejected matched ≠ []) then
    denied s pid "binding rejected by policy" ;;;
    log (DenyRejected bin pid (m_Rejected matched) peer) ;;;
    Ret (protocol.Refusal (rejected_text (m_Rejected matched) bin))
  else if bool_decide (m_Secrets matched = []) then
    let unresolved := m_Unresolved matched in
    if RequireProtection (cfg s) then
      denied s pid "all secrets unresolved" ;;;
      log (DenyAllUnresolved bin (length unresolved) unresolved peer) ;;;
      Ret (protocol.Refusal (all_unresolved_error unresolved bin))
    else
      log (WarnAllUnresolved bin (length unresolved) unresolved peer) ;;;
      Ret (protocol.mkResponse true ∅ false "" (all_unresolved_warning unresolved))
  else protect_and_release s pid peer bin matched.

(** The identity gate of [handle]; [None] lets the request through. *)
Definition identity_gate (s : Server) (pid : Z) (peer : string) (caller : Caller)
    (identErr : option error) : prog SRV (option protocol.Response) :=
  let refuse := protocol.Refusal "caller could not be attributed to a pod" in
  if RequirePodIdentity (cfg s) then
    match identErr, caller_Pod caller with
    | Some e, _ =>
        denied s pid "caller unidentified" ;;;
        log (DenyUnidentified pid e peer) ;;;
        Ret (Some refuse)
    | None, None =>
        denied s pid "caller not in a pod" ;;;
        log (DenyNotInPod pid peer) ;;;
        Ret (Some refuse)
    | None, Some _ => Ret None
    end
  else
    match identErr with
    | Some e => log (DebugUnidentified pid e) ;;; Ret None
    | None => Ret None
    end.

Definition handle (s : Server) (cred : Ucred) (req : protocol.Request)
    : prog SRV protocol.Response :=
  let pid := cred_pid cred in
  peer0 <- lift_os (describePeer cred) ;;
  let bin := filepath.Base (protocol.req_Binary req) in
  if bool_decide (protocol.req_Binary req = "") || bool_decide (bin = ".")
     || bool_decide (bin = "/")
  then
    denied s pid "empty binary" ;;;
    Ret (protocol.Refusal "request did not name a binary")
  else
    ident <- identify s pid ;;
    let caller := ident.1 in
    let peer := describeCaller peer0 caller in
    gate <- identity_gate s pid peer caller ident.2 ;;
    match gate with
    | Some refusal => Ret refusal
    | None =>
        matched <- do (Lookup bin caller) ;;
        deliver s pid peer bin matched
    end.

(** ** One connection

    What a connection's goroutine does besides the server's own operations: it
    sets the deadline, checks that the connection is a unix socket, asks for the
    peer's credentials, decodes the request from the connection and encodes the
    answer to it.  Reading the request and writing the answer block until the peer
    does its part, or the deadline passes if one is set. *)
Inductive conn_call :=
| Ask (c : call)
| SetDeadline (after : Z)
| AsUnix
| PeerCred
| ReadRequest
| WriteResponse (resp : protocol.Response)
| CloseConn.

Definition conn_answer (c : conn_call) : Type :=
  match c with
  | Ask c => answer c
  | SetDeadline _ => option error
  | AsUnix => bool
  | PeerCred => result Ucred error
  | ReadRequest => result protocol.Request error
  | WriteResponse _ => option error
  | CloseConn => unit
  end.

Definition CONN : sig := Sig conn_call conn_answer.

Definition on_conn (c : conn_call) : prog CONN (conn_answer c) := Effects.call (Σ:=CONN) c.

Definition lift_srv {A} (p : prog SRV A) : prog CONN A :=
  interp (Σ1:=SRV) (Σ2:=CONN) (λ c, on_conn (Ask c)) p.

Definition handshakeTimeout : Z := 10000000000. (* nanoseconds *)

Definition reply (resp : protocol.Response) : prog CONN unit :=
  err <- on_conn (WriteResponse resp) ;;
  match err with
  | Some e => lift_srv (log (WarnReply e))
  | None => Ret tt
  end.

(** The body of [handleConn]. *)
Definition exchange (s : Server) : prog CONN unit :=
  err <- on_conn (SetDeadline handshakeTimeout) ;;
  match err with
  | Some e => lift_srv (log (WarnDeadline e))
  | None =>
    ok <- on_conn AsUnix ;;
    if negb ok then lift_srv (log WarnNotUnix) else
    cred <- on_conn PeerCred ;;
    match cred with
    | Err e =>
        lift_srv (log (WarnNoPeer e)) ;;; reply (protocol.Refusal "peer identification failed")
    | Ok cred =>
        req <- on_conn ReadRequest ;;
        match req with
        | Err e =>
            lift_srv (log (WarnMalformed (Pid cred) e)) ;;;
            reply (protocol.Refusal "malformed request")
        | Ok req => resp <- lift_srv (handle s cred req) ;; reply resp
        end
    end
  end.

(** [handleConn]: the connection is closed on every way out. *)
Definition handleConn (s : Server) : prog CONN unit :=
  exchange s ;;; on_conn CloseConn.

(** ** The decision table

    What can be seen of a handled request: every interface call, the callbacks
    and the two readings of the caller's start time.  Log lines and the other
    readings of procfs, which only feed the log, are left out. *)

Definition loud (pid : Z) (c : call) : bool :=
  match c with
  | Log _ => false
  | OS (os.ReadFile p) => bool_decide (p = proc_file pid "stat")
  | OS _ => false
  | _ => true
  end.

Definition visible (pid : Z) (tr : trace SRV) : trace SRV :=
  List.filter (λ e : event SRV, loud pid (ev_op e)) tr.

Notation ev c x := (Event (Σ:=SRV) c x).

Definition stat_ev (pid : Z) (r : result string os.errno) : event SRV :=
  ev (OS (os.ReadFile (proc_file pid "stat"))) r.

Definition start_of (pid : Z) (r : result string os.errno) : result Z error :=
  match r with Err e => Err (os.errno_text e) | Ok data => parse_stat pid data end.

Definition denied_trace (s : Server) (pid : Z) (reason : string) : trace SRV :=
  if has_onDenied s then [ev (OnDenied pid reason) tt] else [].

Definition issued_trace (s : Server) (pid : Z) (names : list string) : trace SRV :=
  if has_onIssued s then [ev (OnIssued pid names) tt] else [].

Definition nobody : Caller := mkCaller "" 0 false "" "" None.

(** How the caller came to be identified. *)
Inductive identified (s : Server) (pid : Z) : trace SRV → Caller → option error → Prop :=
| id_off : IdentifyCallers (cfg s) = false → identified s pid [] nobody None
| id_missing : IdentifyCallers (cfg s) = true → has_identifier s = false →
    identified s pid [] nobody
      (Some "caller identification is enabled but no identifier is configured")
| id_asked c e : IdentifyCallers (cfg s) = true → has_identifier s = true →
    identified s pid [ev (Identify pid) (c, e)] c e.

Definition warnings (m : Match) : string :=
  strings.Join
    ((if decide (m_Unresolved m = []) then [] else [unresolved_warning (m_Unresolved m)])
     ++ (if decide (m_Rejected m = []) then [] else [rejected_warning (m_Rejected m)])) "; ".

Definition released (m : Match) (protected : bool) : protocol.Response :=
  protocol.mkResponse true (env_of (m_Secrets m)) protected "" (warnings m).

(** What follows a lookup that returned [m]. *)
Inductive delivered (s : Server) (pid : Z) (bin : string) (m : Match)
    : trace SRV → protocol.Response → Prop :=
| del_empty : Empty m = true →
    delivered s pid bin m [] (protocol.mkResponse true ∅ false "" "")
| del_refused : m_Secrets m = [] → m_Refused m ≠ [] →
    delivered s pid bin m (denied_trace s pid "pod identity refused")
      (protocol.Refusal (no_admit bin))
| del_rejected : m_Secrets m = [] → m_Refused m = [] → m_Rejected m ≠ [] →
    delivered s pid bin m (denied_trace s pid "binding rejected by policy")
      (protocol.Refusal (rejected_text (m_Rejected m) bin))
| del_unresolved : m_Secrets m = [] → m_Refused m = [] → m_Rejected m = [] →
    m_Unresolved m ≠ [] → RequireProtection (cfg s) = true →
    delivered s pid bin m (denied_trace s pid "all secrets unresolved")
      (protocol.Refusal (all_unresolved_error (m_Unresolved m) bin))
| del_unresolved_warn : m_Secrets m = [] → m_Refused m = [] → m_Rejected m = [] →
    m_Unresolved m ≠ [] → RequireProtection (cfg s) = false →
    delivered s pid bin m []
      (protocol.mkResponse true ∅ false "" (all_unresolved_warning (m_Unresolved m)))
| del_vanished r e : m_Secrets m ≠ [] → start_of pid r = Err e →
    delivered s pid bin m (stat_ev pid r :: denied_trace s pid "caller vanished")
      (protocol.Refusal "caller no longer exists")
| del_recycled r1 t perr terr r2 uerr :
    m_Secrets m ≠ [] → start_of pid r1 = Ok t → start_of pid r2 ≠ Ok t →
    delivered s pid bin m
      (stat_ev pid r1 :: ev (ProtectPID pid) perr :: ev (TrackPID pid) terr
       :: stat_ev pid r2 :: ev (UnprotectPID pid) uerr
       :: denied_trace s pid "pid recycled")
      (protocol.Refusal "caller no longer exists")
| del_unprotected r1 t e terr r2 :
    m_Secrets m ≠ [] → start_of pid r1 = Ok t → start_of pid r2 = Ok t →
    RequireProtection (cfg s) = true →
    delivered s pid bin m
      (stat_ev pid r1 :: ev (ProtectPID pid) (Some e) :: ev (TrackPID pid) terr
       :: stat_ev pid r2 :: denied_trace s pid "protection unavailable")
      (protocol.Refusal "kernel protection unavailable and policy requires it")
| del_released r1 t perr terr r2 :
    m_Secrets m ≠ [] → start_of pid r1 = Ok t → start_of pid r2 = Ok t →
    perr = None ∨ RequireProtection (cfg s) = false →
    delivered s pid bin m
      (stat_ev pid r1 :: ev (ProtectPID pid) perr :: ev (TrackPID pid) terr
       :: stat_ev pid r2 :: issued_trace s pid (names_of (m_Secrets m)))
      (released m (match perr with None => true | Some _ => false end)).

Definition names_a_binary (req : protocol.Request) : Prop :=
  protocol.req_Binary req ≠ "" ∧ filepath.Base (protocol.req_Binary req) ≠ "." ∧
  filepath.Base (protocol.req_Binary req) ≠ "/".

(** The whole of [handle]. *)
Inductive handled (s : Server) (cred : Ucred) (req : protocol.Request)
    : trace SRV → protocol.Response → Prop :=
| h_no_binary : ¬ names_a_binary req →
    handled s cred req (denied_trace s (cred_pid cred) "empty binary")
      (protocol.Refusal "request did not name a binary")
| h_unattributed t c e reason :
    names_a_binary req → identified s (cred_pid cred) t c e →
    RequirePodIdentity (cfg s) = true → e ≠ None ∨ caller_Pod c = None →
    reason = (if e then "caller unidentified" else "caller not in a pod") →
    handled s cred req (t ++ denied_trace s (cred_pid cred) reason)
      (protocol.Refusal "caller could not be attributed to a pod")
| h_looked_up t c e m t' r :
    names_a_binary req → identified s (cred_pid cred) t c e →
    (RequirePodIdentity (cfg s) = true → e = None ∧ caller_Pod c ≠ None) →
    delivered s (cred_pid cred) (filepath.Base (protocol.req_Binary req)) m t' r →
    handled s cred req
      (t ++ ev (Lookup (filepath.Base (protocol.req_Binary req)) c) m :: t') r.

(** *** Runs, seen *)

Lemma visible_app pid t1 t2 : visible pid (t1 ++ t2) = visible pid t1 ++ visible pid t2.
Proof. apply List.filter_app. Qed.

Lemma runs_log l tr r : runs (log l) tr r ↔ tr = [ev (Log l) tt].
Proof. destruct r. apply (runs_call (Σ:=SRV) (Log l) tr tt). Qed.

Lemma runs_denied s pid reason tr r :
  runs (denied s pid reason) tr r ↔ tr = denied_trace s pid reason.
Proof.
  unfold denied, denied_trace. destruct r, (has_onDenied s).
  - apply (runs_call (Σ:=SRV) (OnDenied pid reason) tr tt).
  - simpl. naive_solver.
Qed.

Lemma runs_issued s pid names tr r :
  runs (issued s pid names) tr r ↔ tr = issued_trace s pid names.
Proof.
  unfold issued, issued_trace. destruct r, (has_onIssued s).
  - apply (runs_call (Σ:=SRV) (OnIssued pid names) tr tt).
  - simpl. naive_solver.
Qed.

Lemma visible_denied s pid reason pid' :
  visible pid' (denied_trace s pid reason) = denied_trace s pid reason.
Proof. unfold denied_trace. by destruct (has_onDenied s). Qed.

Lemma visible_issued s pid names pid' :
  visible pid' (issued_trace s pid names) = issued_trace s pid names.
Proof. unfold issued_trace. by destruct (has_onIssued s). Qed.

Lemma visible_stat pid r tr :
  visible pid (stat_ev pid r :: tr) = stat_ev pid r :: visible pid tr.
Proof. unfold visible. simpl. by rewrite bool_decide_eq_true_2. Qed.

Lemma runs_start pid tr r :
  runs (lift_os (processStartTime pid)) tr r ↔
  ∃ a, tr = [stat_ev pid a] ∧ r = start_of pid a.
Proof.
  cbn. split.
  - by intros (x & tr' & -> & -> & ->); eauto.
  - intros (x & -> & ->). eauto.
Qed.

Lemma proc_file_inj pid n1 n2 : proc_file pid n1 = proc_file pid n2 → n1 = n2.
Proof. unfold proc_file. intros H. by do 3 apply app_inj_l_str in H. Qed.

Lemma visible_peer cred tr r :
  runs (lift_os (describePeer cred)) tr r → visible (cred_pid cred) tr = [].
Proof.
  cbn. intros (x & tr' & -> & y & tr'' & -> & -> & _). simpl.
  rewrite bool_decide_eq_false_2; [done|]. by intros ?%proc_file_inj.
Qed.

Create Rewrite HintDb visible.
#[local] Hint Rewrite visible_app visible_denied visible_issued visible_stat : visible.

(** Take a run apart at its binds and basic operations. *)
Ltac take_apart :=
  repeat match goal with
  | H : runs (bind (do _) _) _ _ |- _ =>
      apply runs_call_bind in H as (? & ? & -> & H); cbn [ans SRV answer] in *
  | H : runs (bind _ _) _ _ |- _ =>
      apply runs_bind in H as (? & ? & ? & -> & ? & H)
  | H : runs (Ret _) _ _ |- _ => apply runs_ret in H as [-> ->]
  | H : runs (log _) _ _ |- _ => apply runs_log in H as ->
  | H : runs (denied _ _ _) _ _ |- _ => apply runs_denied in H as ->
  | H : runs (issued _ _ _) _ _ |- _ => apply runs_issued in H as ->
  | H : runs (lift_os (processStartTime _)) _ _ |- _ =>
      apply runs_start in H as (? & -> & ->)
  | u : unit |- _ => destruct u
  end.

Lemma release_visible s pid peer bin protected m tr r :
  runs (release s pid peer bin protected m) tr r →
  r = released m protected ∧
  visible pid tr = issued_trace s pid (names_of (m_Secrets m)).
Proof.
  unfold release, released, warnings. intros H.
  destruct protected; case_decide; case_decide; take_apart; (split; [done|]);
    autorewrite with visible; simpl; by rewrite app_nil_r.
Qed.

Lemma visible_log_option {E} pid (o : option E) (f : E → log_line) tr r :
  runs (match o with Some e => log (f e) | None => Ret tt end) tr r →
  visible pid tr = [].
Proof.
  destruct o as [e|]; [rewrite runs_log|rewrite runs_ret]; naive_solver.
Qed.

Lemma visible_cons pid c (x : answer c) tr :
  visible pid (ev c x :: tr) = (if loud pid c then [ev c x] else []) ++ visible pid tr.
Proof. unfold visible. simpl. by destruct (loud pid c). Qed.

(** Compute the visible part of a trace taken apart. *)
Ltac see :=
  repeat match goal with
  | |- context [visible _ (_ ++ _)] => rewrite visible_app
  | |- context [visible _ (ev _ _ :: _)] => rewrite visible_cons; cbn [loud app]
  | |- context [visible _ (stat_ev _ _ :: _)] => rewrite visible_stat; cbn [app]
  | |- context [visible _ (denied_trace _ _ _)] => rewrite visible_denied
  | |- context [visible _ (issued_trace _ _ _)] => rewrite visible_issued
  | |- context [visible _ []] => change (visible _ []) with (@nil (event SRV))
  | H : runs (match _ with Some _ => log _ | None => Ret tt end) _ _
    |- context [visible ?p _] => apply (visible_log_option p) in H
  | H : visible _ ?t = _ |- context [visible _ ?t] => rewrite H
  end;
  cbn [app]; rewrite ?app_nil_r.

Lemma protect_visible s pid peer bin m tr r :
  m_Secrets m ≠ [] →
  runs (protect_and_release s pid peer bin m) tr r →
  delivered s pid bin m (visible pid tr) r.
Proof.
  intros Hm H. unfold protect_and_release in H. take_apart.
  destruct (start_of _ _) as [t|e] eqn:E1; take_apart.
  2: { see. by eapply del_vanished. }
  unfold after_protect in *.
  match goal with H : runs (if ?b then _ else _) _ _ |- _ => destruct b eqn:Hb end.
  { take_apart. see. eapply del_recycled; [done..|].
    intros Heq. rewrite Heq in Hb. by rewrite Z.eqb_refl in Hb. }
  match type of Hb with context [start_of ?p ?x] =>
    destruct (start_of p x) as [t'|e'] eqn:E2; [|done] end.
  apply negb_false_iff, Z.eqb_eq in Hb as ->.
  match goal with H : runs (if ?b then _ else _) _ _ |- _ => destruct b eqn:Hp end.
  - take_apart. see. breflect.
    match goal with |- context [ev (ProtectPID pid) ?p] => destruct p; [|done] end.
    by eapply del_unprotected.
  - match goal with H : runs (release _ _ _ _ _ _) _ _ |- _ =>
      apply release_visible in H as [-> Hv] end.
    see. eapply del_released; [done..|].
    match goal with |- ?p = None ∨ _ => destruct p; [right|by left] end.
    by destruct (RequireProtection (cfg s)).
Qed.

Lemma deliver_visible s pid peer bin m tr r :
  runs (deliver s pid peer bin m) tr r → delivered s pid bin m (visible pid tr) r.
Proof.
  unfold deliver. destruct (Empty m) eqn:He.
  { intros H. take_apart. see. by apply del_empty. }
  destruct (decide (m_Secrets m = [])) as [Hs|Hs].
  2: { rewrite bool_decide_eq_false_2 by done. cbn [andb]. by apply protect_visible. }
  rewrite bool_decide_eq_true_2 by done. cbn [andb].
  case_bool_decide as Hr; [intros H; take_apart; see; by apply del_refused|].
  case_bool_decide as Hj; [intros H; take_apart; see; by apply del_rejected|].
  assert (m_Unresolved m ≠ []) as Hu.
  { intros Hu. unfold Empty in He. by rewrite Hs, Hr, Hj, Hu in He. }
  destruct (RequireProtection (cfg s)) eqn:Hp; intros H; take_apart; see.
  - by apply del_unresolved.
  - by apply del_unresolved_warn.
Qed.

Lemma identify_visible s pid tr c e :
  runs (identify s pid) tr (c, e) → identified s pid (visible pid tr) c e.
Proof.
  unfold identify.
  destruct (IdentifyCallers (cfg s)) eqn:E1; simpl.
  2: { intros [-> [= -> ->]]. by apply id_off. }
  destruct (has_identifier s) eqn:E2; simpl.
  2: { intros [-> [= -> ->]]. by apply id_missing. }
  intros (x & tr' & -> & -> & <-). by apply id_asked.
Qed.

(** The gate either ends the request or lets it pass unseen. *)
Lemma gate_visible s pid peer c e tr g :
  runs (identity_gate s pid peer c e) tr g →
  match g with
  | Some r =>
      RequirePodIdentity (cfg s) = true ∧ (e ≠ None ∨ caller_Pod c = None) ∧
      r = protocol.Refusal "caller could not be attributed to a pod" ∧
      visible pid tr =
        denied_trace s pid (if e then "caller unidentified" else "caller not in a pod")
  | None =>
      (RequirePodIdentity (cfg s) = true → e = None ∧ caller_Pod c ≠ None) ∧
      visible pid tr = []
  end.
Proof.
  unfold identity_gate. destruct (RequirePodIdentity (cfg s)).
  - destruct e as [e|], (caller_Pod c) as [p|]; intros H; take_apart; see; auto 10.
  - destruct e as [e|]; intros H; take_apart; see; done.
Qed.

(** [handle] refines the decision table: what can be seen of any of its runs is
    one of the table's rows. *)
Lemma handle_visible s cred req tr r :
  runs (handle s cred req) tr r →
  handled s cred req (visible (cred_pid cred) tr) r.
Proof.
  unfold handle. intros H. apply runs_bind in H as (t0 & t1 & peer0 & -> & Hpeer & H).
  rewrite visible_app, (visible_peer _ _ _ Hpeer). simpl. clear Hpeer.
  match type of H with runs (if ?b then _ else _) _ _ => destruct b eqn:Hb end.
  { take_apart. see. apply h_no_binary. unfold names_a_binary.
    rewrite !orb_true_iff, !bool_decide_eq_true in Hb. tauto. }
  assert (names_a_binary req) as Hn.
  { unfold names_a_binary. rewrite !orb_false_iff, !bool_decide_eq_false in Hb. tauto. }
  apply runs_bind in H as (t2 & t3 & [c e] & -> & Hid & H). cbn [fst snd] in H.
  apply identify_visible in Hid.
  apply runs_bind in H as (t4 & t5 & g & -> & Hg & H). apply gate_visible in Hg.
  destruct g as [refusal|].
  - destruct Hg as (Hreq & He & -> & Hv). take_apart. see.
    by eapply h_unattributed.
  - destruct Hg as [Hreq Hv]. take_apart. see.
    eapply h_looked_up; [done..|]. eapply deliver_visible; eassumption.
Qed.

(** *** Every row of the table is reached

    [shows pid p v r]: some run of [p] returns [r] and is seen as [v]. *)
Definition shows {A} (pid : Z) (p : prog SRV A) (v : trace SRV) (r : A) : Prop :=
  ∃ tr, runs p tr r ∧ visible pid tr = v.

Lemma shows_bind {A B} pid (p : prog SRV A) (f : A → prog SRV B) v1 v2 a r :
  shows pid p v1 a → shows pid (f a) v2 r → shows pid (bind p f) (v1 ++ v2) r.
Proof.
  intros (t1 & H1 & <-) (t2 & H2 & <-). exists (t1 ++ t2). rewrite visible_app.
  split; [|done]. apply runs_bind. eauto 10.
Qed.

Lemma shows_ret {A} pid (a : A) : shows pid (Ret a) [] a.
Proof. by exists []. Qed.

Lemma shows_do pid c (x : answer c) :
  shows pid (do c) (if loud pid c then [ev c x] else []) x.
Proof.
  exists [ev c x]. split; [by apply (runs_call (Σ:=SRV))|].
  unfold visible. simpl. by destruct (loud pid c).
Qed.

Lemma shows_log pid l : shows pid (log l) [] tt.
Proof. apply (shows_do pid (Log l)). Qed.

Lemma shows_denied pid s pid' reason :
  shows pid (denied s pid' reason) (denied_trace s pid' reason) tt.
Proof.
  exists (denied_trace s pid' reason). rewrite visible_denied. split; [|done].
  by apply runs_denied.
Qed.

Lemma shows_issued pid s pid' names :
  shows pid (issued s pid' names) (issued_trace s pid' names) tt.
Proof.
  exists (issued_trace s pid' names). rewrite visible_issued. split; [|done].
  by apply runs_issued.
Qed.

Lemma shows_start pid a :
  shows pid (lift_os (processStartTime pid)) [stat_ev pid a] (start_of pid a).
Proof.
  exists [stat_ev pid a]. rewrite visible_stat. split; [|done]. apply runs_start. eauto.
Qed.

Lemma shows_log_option {E} pid (o : option E) (f : E → log_line) :
  shows pid (match o with Some e => log (f e) | None => Ret tt end) [] tt.
Proof. destruct o; [apply shows_log|apply shows_ret]. Qed.

Lemma shows_peer cred : ∃ p, shows (cred_pid cred) (lift_os (describePeer cred)) [] p.
Proof.
  set (gone := Err os.ENOENT : result string os.errno).
  set (tr := [ev (OS (os.Readlink (proc_file (cred_pid cred) "exe"))) gone;
              ev (OS (os.ReadFile (proc_file (cred_pid cred) "cgroup"))) gone]).
  assert (∃ p, runs (lift_os (describePeer cred)) tr p) as [p Hp].
  { cbn. eauto 10. }
  exists p, tr. split; [exact Hp|]. by apply (visible_peer cred tr p).
Qed.

Lemma shows_quiet_bind {A} pid (p : prog SRV unit) (q : prog SRV A) v r :
  shows pid p [] tt → shows pid q v r → shows pid (p ;;; q) v r.
Proof. intros Hp Hq. by apply (shows_bind pid p (λ _, q) [] v tt r). Qed.

Lemma shows_do_bind {A} pid c (f : answer c → prog SRV A) x v r :
  loud pid c = true → shows pid (f x) v r → shows pid (bind (do c) f) (ev c x :: v) r.
Proof.
  intros Hl Hf. pose proof (shows_do pid c x) as Hd. rewrite Hl in Hd.
  exact (shows_bind pid (do c) f _ _ x r Hd Hf).
Qed.

Lemma shows_refuse {A} pid s reason l (r : A) :
  shows pid (denied s pid reason ;;; log l ;;; Ret r) (denied_trace s pid reason) r.
Proof.
  rewrite <-(app_nil_r (denied_trace _ _ _)).
  apply (shows_bind pid (denied s pid reason) _ _ _ tt); [apply shows_denied|].
  apply shows_quiet_bind; [apply shows_log|apply shows_ret].
Qed.

Lemma release_shows s pid peer bin protected m :
  shows pid (release s pid peer bin protected m)
    (issued_trace s pid (names_of (m_Secrets m))) (released m protected).
Proof.
  unfold release, released, warnings.
  apply shows_quiet_bind; [destruct protected; [apply shows_log|apply shows_ret]|].
  apply shows_quiet_bind; [apply shows_log|].
  rewrite <-(app_nil_r (issued_trace _ _ _)).
  eapply (shows_bind pid (issued _ _ _)); [apply shows_issued|].
  case_decide; case_decide; repeat first
    [ apply shows_ret
    | apply shows_quiet_bind; [apply shows_log|]
    | eapply (shows_bind pid _ _ [] []) ].
Qed.

Lemma shows_protected s pid peer bin m t r1 perr terr r2 v r :
  start_of pid r1 = Ok t →
  shows pid (after_protect s pid peer bin m t perr (start_of pid r2)) v r →
  shows pid (protect_and_release s pid peer bin m)
    (stat_ev pid r1 :: ev (ProtectPID pid) perr :: ev (TrackPID pid) terr
     :: stat_ev pid r2 :: v) r.
Proof.
  intros H1 H. eapply (shows_bind pid _ _ [_]); [apply shows_start|].
  rewrite H1. apply shows_do_bind; [done|].
  apply shows_quiet_bind; [apply (shows_log_option pid perr)|].
  apply shows_do_bind; [done|].
  apply shows_quiet_bind; [apply (shows_log_option pid terr)|].
  eapply (shows_bind pid _ _ [_]); [apply shows_start|exact H].
Qed.

Lemma delivered_shows s pid peer bin m v r :
  delivered s pid bin m v r → shows pid (deliver s pid peer bin m) v r.
Proof.
  assert (∀ v r, m_Secrets m ≠ [] →
    shows pid (protect_and_release s pid peer bin m) v r →
    shows pid (deliver s pid peer bin m) v r) as Hprot.
  { intros v' r' Hs H. unfold deliver, Empty.
    by rewrite (bool_decide_eq_false_2 (m_Secrets m = [])). }
  assert (m_Secrets m = [] → m_Unresolved m ≠ [] ∨ m_Refused m ≠ [] ∨ m_Rejected m ≠ [] →
    Empty m = false) as Hne.
  { intros Hs Ho. unfold Empty.
    repeat case_bool_decide; naive_solver. }
  destruct 1 as [He|Hs Hr|Hs Hr Hj|Hs Hr Hj Hu Hp|Hs Hr Hj Hu Hp|r e Hs H1
    |r1 t perr terr r2 uerr Hs H1 H2|r1 t e terr r2 Hs H1 H2 Hp|r1 t perr terr r2 Hs H1 H2 Hp].
  1-5: unfold deliver.
  - rewrite He. apply shows_quiet_bind; [apply shows_log|apply shows_ret].
  - rewrite Hne by auto. rewrite !bool_decide_eq_true_2 by done. apply shows_refuse.
  - rewrite Hne by auto. rewrite Hs, Hr. rewrite (bool_decide_eq_true_2 (m_Rejected m ≠ [])) by done.
    apply shows_refuse.
  - rewrite Hne by auto. rewrite Hs, Hr, Hj, Hp. apply shows_refuse.
  - rewrite Hne by auto. rewrite Hs, Hr, Hj, Hp.
    apply shows_quiet_bind; [apply shows_log|apply shows_ret].
  - apply Hprot; [done|]. eapply (shows_bind pid _ _ [_]); [apply shows_start|].
    rewrite H1. apply shows_refuse.
  - apply Hprot; [done|]. apply (shows_protected _ _ _ _ _ t); [done|].
    unfold after_protect.
    assert (match start_of pid r2 with Ok after => negb (after =? t)%Z | Err _ => true end = true)
      as ->.
    { destruct (start_of pid r2) as [t'|]; [|done]. apply negb_true_iff, Z.eqb_neq. congruence. }
    apply shows_do_bind; [done|].
    apply shows_quiet_bind; [apply (shows_log_option pid uerr)|]. apply shows_refuse.
  - apply Hprot; [done|]. apply (shows_protected _ _ _ _ _ t); [done|].
    unfold after_protect. rewrite H2, Z.eqb_refl. cbn [negb andb]. rewrite Hp.
    apply shows_refuse.
  - apply Hprot; [done|]. apply (shows_protected _ _ _ _ _ t); [done|].
    unfold after_protect. rewrite H2, Z.eqb_refl. cbn [negb].
    assert (negb (match perr with None => true | Some _ => false end)
            && RequireProtection (cfg s) = false) as ->.
    { destruct Hp as [->| ->]; [done|]. by rewrite andb_false_r. }
    apply release_shows.
Qed.

Lemma identified_shows s pid t c e :
  identified s pid t c e → shows pid (identify s pid) t (c, e).
Proof.
  unfold identify. intros [H|H1 H2|c' e' H1 H2].
  - rewrite H. apply shows_ret.
  - rewrite H1, H2. apply shows_ret.
  - rewrite H1, H2. apply (shows_do pid (Identify pid) (c', e')).
Qed.

Lemma handled_shows s cred req v r :
  handled s cred req v r → shows (cred_pid cred) (handle s cred req) v r.
Proof.
  intros H. unfold handle. destruct (shows_peer cred) as [peer0 Hpeer].
  eapply (shows_bind _ _ _ []); [exact Hpeer|]. clear Hpeer.
  destruct H as [Hn|t c e reason Hn Hid Hreq He ->|t c e m t' r Hn Hid Hreq Hd].
  { match goal with |- context [if ?b then _ else _] => assert (b = true) as -> end.
    { unfold names_a_binary in Hn. rewrite !orb_true_iff, !bool_decide_eq_true.
      destruct (decide (protocol.req_Binary req = "")); [tauto|].
      destruct (decide (filepath.Base (protocol.req_Binary req) = ".")); [tauto|].
      destruct (decide (filepath.Base (protocol.req_Binary req) = "/")); tauto. }
    rewrite <-(app_nil_r (denied_trace _ _ _)).
    eapply shows_bind; [apply shows_denied|apply shows_ret]. }
  all: match goal with |- context [if ?b then _ else _] => assert (b = false) as -> end;
    [unfold names_a_binary in Hn; rewrite !orb_false_iff, !bool_decide_eq_false; tauto|].
  all: apply identified_shows in Hid; eapply shows_bind; [exact Hid|]; cbn [fst snd].
  - rewrite <-(app_nil_r (denied_trace _ _ _)).
    eapply (shows_bind _ _ _ _ _ (Some _)); [|apply shows_ret].
    unfold identity_gate. rewrite Hreq.
    destruct e; [apply shows_refuse|]. destruct He as [?| ->]; [done|]. apply shows_refuse.
  - apply (shows_bind _ _ _ [] _ None).
    + unfold identity_gate. destruct (RequirePodIdentity (cfg s)).
      * destruct (Hreq eq_refl) as [-> Hp]. destruct (caller_Pod c); [|done]. apply shows_ret.
      * destruct e; [|apply shows_ret]. apply shows_quiet_bind; [apply shows_log|apply shows_ret].
    + apply shows_do_bind; [done|]. by apply delivered_shows.
Qed.

(** ** Facts the properties share *)

Lemma visible_split pid tr v1 e v2 :
  visible pid tr = v1 ++ e :: v2 →
  ∃ t1 t2, tr = t1 ++ e :: t2 ∧ visible pid t1 = v1 ∧ visible pid t2 = v2.
Proof.
  revert v1. induction tr as [|e' tr IH]; intros v1 H; simpl in H.
  { by destruct v1. }
  destruct (loud pid (ev_op e')) eqn:E.
  - destruct v1 as [|e1 v1]; injection H as -> H.
    + by exists [], tr.
    + destruct (IH v1 H) as (t1 & t2 & -> & <- & <-).
      exists (e1 :: t1), t2. unfold visible. simpl. by rewrite E.
  - destruct (IH v1 H) as (t1 & t2 & -> & <- & <-).
    exists (e' :: t1), t2. unfold visible. simpl. by rewrite E.
Qed.

Lemma elem_of_visible pid tr (e : event SRV) :
  loud pid (ev_op e) = true → e ∈ tr ↔ e ∈ visible pid tr.
Proof.
  intros He. unfold visible. rewrite !list_elem_of_In, List.filter_In. tauto.
Qed.

Lemma visible_incl pid tr (e : event SRV) : e ∈ visible pid tr → e ∈ tr.
Proof. unfold visible. rewrite !list_elem_of_In, List.filter_In. tauto. Qed.

Lemma elem_of_denied_trace s pid reason (e : event SRV) :
  e ∈ denied_trace s pid reason ↔
  has_onDenied s = true ∧ e = ev (OnDenied pid reason) tt.
Proof.
  unfold denied_trace. destruct (has_onDenied s).
  - rewrite list_elem_of_singleton. tauto.
  - rewrite elem_of_nil. naive_solver.
Qed.

Lemma elem_of_issued_trace s pid names (e : event SRV) :
  e ∈ issued_trace s pid names ↔
  has_onIssued s = true ∧ e = ev (OnIssued pid names) tt.
Proof.
  unfold issued_trace. destruct (has_onIssued s).
  - rewrite list_elem_of_singleton. tauto.
  - rewrite elem_of_nil. naive_solver.
Qed.

Lemma env_of_app l sec :
  env_of (l ++ [sec]) = <[sec_Name sec := sec_Value sec]> (env_of l).
Proof. unfold env_of. by rewrite foldl_app. Qed.

Lemma env_of_elem l k v : env_of l !! k = Some v → mkSecret k v ∈ l.
Proof.
  induction l as [|sec l IH] using rev_ind; [done|].
  rewrite env_of_app, elem_of_app, list_elem_of_singleton.
  destruct (decide (sec_Name sec = k)) as [<-|Hne].
  - rewrite lookup_insert_eq. intros [= <-]. right. by destruct sec.
  - rewrite lookup_insert_ne by done. auto.
Qed.

Lemma env_of_nonempty l : l ≠ [] → env_of l ≠ ∅.
Proof.
  destruct l as [|sec l _] using rev_ind; [done|]. intros _.
  rewrite env_of_app. apply insert_non_empty.
Qed.

Lemma env_of_dom l k : is_Some (env_of l !! k) ↔ k ∈ sec_Name <$> l.
Proof.
  induction l as [|sec l IH] using rev_ind.
  { unfold env_of. simpl. rewrite elem_of_nil, lookup_empty. split; [|done].
    by intros [? [=]]. }
  rewrite env_of_app, fmap_app, elem_of_app, lookup_insert_is_Some', IH. simpl.
  rewrite list_elem_of_singleton. naive_solver.
Qed.

(** The row of a response that carries an environment. *)
Lemma handled_released s cred req v r :
  handled s cred req v r → protocol.resp_Env r ≠ ∅ →
  ∃ t c e m r1 r2 n perr terr,
    identified s (cred_pid cred) t c e ∧
    (RequirePodIdentity (cfg s) = true → e = None ∧ caller_Pod c ≠ None) ∧
    v = (t ++ ev (Lookup (filepath.Base (protocol.req_Binary req)) c) m
           :: [stat_ev (cred_pid cred) r1])
        ++ ev (ProtectPID (cred_pid cred)) perr
           :: ev (TrackPID (cred_pid cred)) terr :: stat_ev (cred_pid cred) r2
           :: issued_trace s (cred_pid cred) (names_of (m_Secrets m)) ∧
    start_of (cred_pid cred) r1 = Ok n ∧ start_of (cred_pid cred) r2 = Ok n ∧
    (perr = None ∨ RequireProtection (cfg s) = false) ∧
    r = released m (match perr with None => true | Some _ => false end).
Proof.
  intros H He. destruct H as [|? ? ? ? _ _ _ _ _|t c e m t' r Hn Hid Hreq Hd]; [done..|].
  destruct Hd as [| | | | | | | |r1 n perr terr r2 Hs H1 H2 Hp]; try done.
  exists t, c, e, m, r1, r2, n, perr, terr. by rewrite <-app_assoc.
Qed.

Lemma identified_incl s pid t c e ev0 :
  identified s pid t c e → ev0 ∈ t → ev0 = ev (Identify pid) (c, e).
Proof.
  intros Hid Hin. destruct Hid; [by apply not_elem_of_nil in Hin..|].
  by apply list_elem_of_singleton in Hin.
Qed.

(** Where in its trace a request that released something protected and tracked
    the caller. *)
Lemma release_trace s cred req tr r :
  runs (handle s cred req) tr r → protocol.resp_Env r ≠ ∅ →
  ∃ t1 t2 t3 perr terr,
    tr = t1 ++ ev (ProtectPID (cred_pid cred)) perr
            :: t2 ++ ev (TrackPID (cred_pid cred)) terr :: t3 ∧
    (perr = None ∨ RequireProtection (cfg s) = false) ∧
    protocol.resp_Protected r = (match perr with None => true | Some _ => false end) ∧
    Forall (λ x : event SRV, ∀ p, ev_op x ≠ UnprotectPID p)
      (t2 ++ ev (TrackPID (cred_pid cred)) terr :: t3) ∧
    Forall (λ x : event SRV, ∀ p, ev_op x ≠ TrackPID p) t3.
Proof.
  intros H%handle_visible He.
  destruct (handled_released _ _ _ _ _ H He)
    as (t & c & e & m & r1 & r2 & n & perr & terr & _ & _ & Hv & _ & _ & Hperr & ->).
  apply visible_split in Hv as (t1 & t' & -> & _ & Hv).
  pose proof (visible_split (cred_pid cred) t' [] _ _ Hv) as (t2 & t3 & -> & _ & Hv3).
  exists t1, t2, t3, perr, terr. do 3 (split; [done|]). split; apply Forall_forall;
    intros x Hx p Hp; (apply (elem_of_visible (cred_pid cred)) in Hx; [|by rewrite Hp]);
    [rewrite Hv in Hx|rewrite Hv3 in Hx]; clear -Hx Hp;
    repeat (apply elem_of_cons in Hx as [->|Hx]; [done|]);
    apply elem_of_issued_trace in Hx as [_ ->]; done.
Qed.

(** A protection is only ever asked for the caller. *)
Lemma protects_caller s cred req tr r p x :
  runs (handle s cred req) tr r → ev (ProtectPID p) x ∈ tr → p = cred_pid cred.
Proof.
  intros H%handle_visible Hin. apply (elem_of_visible (cred_pid cred)) in Hin; [|done].
  revert Hin. destruct H as [_|t c e reason _ Hid _ _ _|t c e m t' r _ Hid _ Hd];
    rewrite ?elem_of_app, ?elem_of_cons, ?elem_of_denied_trace.
  - by intros [_ ?].
  - intros [Hin|[_ ?]]; [|done]. by apply (identified_incl _ _ _ _ _ _ Hid) in Hin.
  - intros [Hin|[?|Hin]]; [|done|]; [by apply (identified_incl _ _ _ _ _ _ Hid) in Hin|].
    destruct Hd; rewrite ?elem_of_cons, ?elem_of_denied_trace, ?elem_of_issued_trace,
      ?elem_of_nil in Hin; destruct_or?; destruct_and?; try done; congruence.
Qed.

Definition is_rollback (e : event SRV) : Prop :=
  match ev_op e : call with UnprotectPID _ => True | _ => False end.

Lemma no_rollback_denied s pid reason :
  Forall (λ e, ¬ is_rollback e) (denied_trace s pid reason).
Proof. unfold denied_trace. destruct (has_onDenied s); repeat constructor; by intros []. Qed.

Lemma no_rollback_issued s pid names :
  Forall (λ e, ¬ is_rollback e) (issued_trace s pid names).
Proof. unfold issued_trace. destruct (has_onIssued s); repeat constructor; by intros []. Qed.

Lemma no_rollback_identified s pid t c e :
  identified s pid t c e → Forall (λ e, ¬ is_rollback e) t.
Proof. intros []; repeat constructor; by intros []. Qed.

(** A rolled back protection is the last but one thing of its row. *)
Lemma handled_rollback s cred req v p x v' r :
  handled s cred req (v ++ ev (UnprotectPID p) x :: v') r →
  p = cred_pid cred ∧
  ∃ r1 r2 n, stat_ev (cred_pid cred) r1 ∈ v ∧ stat_ev (cred_pid cred) r2 ∈ v ∧
    start_of (cred_pid cred) r1 = Ok n ∧ start_of (cred_pid cred) r2 ≠ Ok n.
Proof.
  intros H. remember (v ++ _ :: v') as w eqn:Hw.
  assert (¬ Forall (λ e, ¬ is_rollback e) w) as Hin.
  { rewrite Hw. intros [_ [[] _]%Forall_cons]%Forall_app. exact I. }
  destruct H as [_|t c e reason _ Hid _ _ _|t c e m t' r _ Hid _ Hd].
  - destruct Hin. apply no_rollback_denied.
  - destruct Hin. apply Forall_app. split; [by eapply no_rollback_identified|].
    apply no_rollback_denied.
  - destruct Hd as [| | | | | |r1 n perr terr r2 uerr Hs H1 H2| |].
    7: { symmetry in Hw.
         destruct (split_unique is_rollback v (ev (UnprotectPID p) x) v'
           (t ++ [ev (Lookup (filepath.Base (protocol.req_Binary req)) c) m;
              stat_ev (cred_pid cred) r1; ev (ProtectPID (cred_pid cred)) perr;
              ev (TrackPID (cred_pid cred)) terr; stat_ev (cred_pid cred) r2])
           (ev (UnprotectPID (cred_pid cred)) uerr)
           (denied_trace s (cred_pid cred) "pid recycled")) as (-> & Heq & _).
         - by rewrite <-app_assoc.
         - exact I.
         - apply Forall_app. split; [by eapply no_rollback_identified|].
           repeat (constructor; [by intros []|]). constructor.
         - apply no_rollback_denied.
         - split; [by injection Heq|]. exists r1, r2, n. split; [set_solver|].
           split; [set_solver|done]. }
    all: destruct Hin; apply Forall_app; (split; [by eapply no_rollback_identified|]);
      repeat (constructor; [by intros []|]);
      first [apply no_rollback_denied|apply no_rollback_issued|constructor].
Qed.

(** A protection is rolled back only after the caller's start time was read
    twice, with different outcomes. *)
Lemma rollback_trace s cred req tr tr' r p x :
  runs (handle s cred req) (tr ++ ev (UnprotectPID p) x :: tr') r →
  p = cred_pid cred ∧
  ∃ r1 r2 n, stat_ev (cred_pid cred) r1 ∈ tr ∧ stat_ev (cred_pid cred) r2 ∈ tr ∧
    start_of (cred_pid cred) r1 = Ok n ∧ start_of (cred_pid cred) r2 ≠ Ok n.
Proof.
  intros H%handle_visible. rewrite visible_app in H.
  change (visible (cred_pid cred) (ev (UnprotectPID p) x :: tr'))
    with (ev (UnprotectPID p) x :: visible (cred_pid cred) tr') in H.
  destruct (handled_rollback _ _ _ _ _ _ _ _ H) as (-> & r1 & r2 & n & H1 & H2 & ? & ?).
  split; [done|]. exists r1, r2, n.
  split; [by eapply visible_incl|]. split; [by eapply visible_incl|done].
Qed.

Definition is_callback (e : event SRV) : bool :=
  match ev_op e : call with OnIssued _ _ | OnDenied _ _ => true | _ => false end.

Lemma callbacks_visible pid tr :
  List.filter is_callback tr = List.filter is_callback (visible pid tr).
Proof.
  induction tr as [|[c x] tr IH]; [done|]. unfold visible. simpl. rewrite IH.
  by destruct c as [[]| | | | | | | |]; simpl; try case_bool_decide.
Qed.

(** The resolver behind a trace is the registry [reg]. *)
Definition resolved_by (reg : Registry) (e : event SRV) : Prop :=
  match ev_op e as c return answer c → Prop with
  | Lookup b c => λ m, m = secrets.Lookup reg b c
  | _ => λ _, True
  end (ev_ans e).

(** *** Renaming the values of secrets

    [f] changes the values of secrets and nothing else. *)

Definition revalue (f : Secret → Secret) (m : Match) : Match :=
  mkMatch (f <$> m_Secrets m) (m_Unresolved m) (m_Refused m) (m_Rejected m).

Definition relabel (f : Secret → Secret) (e : event SRV) : event SRV :=
  match ev_op e as c return answer c → event SRV with
  | Lookup b c => λ m, ev (Lookup b c) (revalue f m)
  | c => λ x, ev c x
  end (ev_ans e).

(** Two answers that agree on everything but the values delivered. *)
Definition same_but_values (r r' : protocol.Response) : Prop :=
  protocol.resp_OK r' = protocol.resp_OK r ∧
  protocol.resp_Protected r' = protocol.resp_Protected r ∧
  protocol.resp_Error r' = protocol.resp_Error r ∧
  protocol.resp_Warning r' = protocol.resp_Warning r ∧
  dom (protocol.resp_Env r') = dom (protocol.resp_Env r).

Definition no_lookup (c : op SRV) : Prop :=
  match c : call with Lookup _ _ => False | _ => True end.

Lemma relabel_other f (e : event SRV) : no_lookup (ev_op e) → relabel f e = e.
Proof. by destruct e as [[] x]. Qed.

Lemma relabel_no_lookup f (tr : trace SRV) :
  Forall (λ e, no_lookup (ev_op e)) tr → relabel f <$> tr = tr.
Proof.
  intros H. rewrite <-(list_fmap_id tr) at 2. apply list_fmap_ext.
  intros i e He. rewrite Forall_lookup in H. by apply relabel_other, (H i).
Qed.

Ltac no_lookups :=
  repeat first
  [ exact I | progress cbn [only no_lookup] | apply only_bind | progress intros
  | apply interp_only; by intros
  | match goal with
    | |- only _ (denied _ _ _) => unfold denied
    | |- only _ (issued _ _ _) => unfold issued
    | |- only _ (log _) => by split
    | |- only _ (do _) => by split
    | |- only _ (lift_os _) => apply interp_only; intros; by split
    | |- only _ (if ?b then _ else _) => destruct b
    | |- only _ (match ?o with _ => _ end) => destruct o
    end ].

Lemma deliver_no_lookup s pid peer bin m : only no_lookup (deliver s pid peer bin m).
Proof. unfold deliver, protect_and_release, after_protect, release. no_lookups. Qed.

Lemma gate_no_lookup s pid peer c e : only no_lookup (identity_gate s pid peer c e).
Proof. unfold identity_gate. no_lookups. Qed.

Lemma identify_no_lookup s pid : only no_lookup (identify s pid).
Proof. unfold identify. no_lookups. Qed.

Lemma refuse_no_lookup {A} s pid reason (r : A) :
  only no_lookup (denied s pid reason ;;; Ret r).
Proof. no_lookups. Qed.

Lemma peer_no_lookup cred : only no_lookup (lift_os (describePeer cred)).
Proof. no_lookups. Qed.

Section revalue.
Context (f : Secret → Secret) (f_name : ∀ sec, sec_Name (f sec) = sec_Name sec).

Lemma revalue_nil m : m_Secrets (revalue f m) = [] ↔ m_Secrets m = [].
Proof. simpl. by destruct (m_Secrets m). Qed.

Lemma revalue_names m : sec_Name <$> m_Secrets (revalue f m) = sec_Name <$> m_Secrets m.
Proof. simpl. rewrite <-list_fmap_compose. apply list_fmap_ext. intros. apply f_name. Qed.

Lemma revalue_dom m :
  dom (env_of (m_Secrets (revalue f m))) = dom (env_of (m_Secrets m)).
Proof.
  apply set_eq. intros k. rewrite !elem_of_dom, !env_of_dom. by rewrite revalue_names.
Qed.

Lemma revalue_released m b : same_but_values (released m b) (released (revalue f m) b).
Proof. repeat split. simpl. apply revalue_dom. Qed.

Lemma same_refl r : same_but_values r r.
Proof. by repeat split. Qed.

Lemma release_revalue s pid peer bin b m :
  sim same_but_values (release s pid peer bin b m)
    (release s pid peer bin b (revalue f m)).
Proof.
  unfold release. unfold names_of. rewrite revalue_names.
  repeat (apply sim_bind_same; intros ?). constructor.
  repeat split. simpl. apply revalue_dom.
Qed.

Lemma protect_revalue s pid peer bin m :
  sim same_but_values (protect_and_release s pid peer bin m)
    (protect_and_release s pid peer bin (revalue f m)).
Proof.
  unfold protect_and_release. apply sim_bind_same. intros [before|e].
  2: { apply sim_refl, same_refl. }
  repeat (apply sim_bind_same; intros ?). unfold after_protect.
  do 2 (match goal with |- sim _ (if ?b then _ else _) _ => destruct b end;
        [apply sim_refl, same_refl|]).
  apply release_revalue.
Qed.

Lemma deliver_revalue s pid peer bin m :
  sim same_but_values (deliver s pid peer bin m) (deliver s pid peer bin (revalue f m)).
Proof.
  unfold deliver, Empty.
  rewrite (bool_decide_ext _ _ (revalue_nil m)).
  change (m_Unresolved (revalue f m)) with (m_Unresolved m).
  change (m_Refused (revalue f m)) with (m_Refused m).
  change (m_Rejected (revalue f m)) with (m_Rejected m).
  repeat (match goal with |- sim _ (if ?b then _ else _) _ => destruct b end;
          [apply sim_refl, same_refl|]).
  apply protect_revalue.
Qed.

(** [q] repeats the runs of [p] under the renaming, with related results. *)
Definition carries {A B} (R : A → B → Prop) (p : prog SRV A) (q : prog SRV B) : Prop :=
  ∀ tr a, runs p tr a → ∃ b, runs q (relabel f <$> tr) b ∧ R a b.

Lemma carries_bind {A B A' B'} (R : A → B → Prop) (Q : A' → B' → Prop) p q F G :
  carries R p q → (∀ a b, R a b → carries Q (F a) (G b)) →
  carries Q (bind p F) (bind q G).
Proof.
  intros Hp HF tr a' H. apply runs_bind in H as (t1 & t2 & a & -> & H1 & H2).
  destruct (Hp _ _ H1) as (b & Hb & HR). destruct (HF a b HR _ _ H2) as (b' & Hb' & HQ).
  exists b'. split; [|done]. rewrite fmap_app. apply runs_bind. eauto 10.
Qed.

Lemma carries_sim {A B} (R : A → B → Prop) p q :
  only no_lookup p → sim R p q → carries R p q.
Proof.
  intros Hp Hs tr a H. rewrite (relabel_no_lookup f tr) by (by eapply only_runs).
  by apply (sim_runs R p).
Qed.

Lemma carries_same {A} (R : A → A → Prop) p :
  only no_lookup p → (∀ a, R a a) → carries R p p.
Proof. intros Hp HR. by apply carries_sim, sim_refl. Qed.

Lemma carries_lookup b c :
  carries (λ m m', m' = revalue f m) (do (Lookup b c)) (do (Lookup b c)).
Proof.
  intros tr m H. apply (runs_call (Σ:=SRV)) in H as ->. eexists. split; [|done].
  by apply (runs_call (Σ:=SRV)).
Qed.

Lemma handle_carries s cred req :
  carries same_but_values (handle s cred req) (handle s cred req).
Proof.
  unfold handle. apply (carries_bind eq); [apply carries_same; [|done]; apply peer_no_lookup|].
  intros peer0 ? <-. match goal with |- context [if ?b then _ else _] => destruct b end.
  { apply carries_same; [apply refuse_no_lookup|apply same_refl]. }
  apply (carries_bind eq); [apply carries_same; [|done]; apply identify_no_lookup|].
  intros ce ? <-.
  apply (carries_bind eq); [apply carries_same; [|done]; apply gate_no_lookup|].
  intros g ? <-. destruct g as [refusal|].
  { apply carries_same; [done|apply same_refl]. }
  eapply carries_bind; [apply carries_lookup|]. intros m ? ->.
  apply carries_sim; [apply deliver_no_lookup|apply deliver_revalue].
Qed.
End revalue.

(** An interface the examples run against: one binding, one caller in the pod
    it selects, a readable [stat] file and a protector that always succeeds. *)
Definition example_stat : string :=
  "42 (ps (ql) S 1 42 42 0 -1 4194304 100 0 0 0 0 0 0 0 20 0 1 0 777 0 0".

Definition example_handler : handler SRV unit := λ c u,
  match c return answer c * unit with
  | OS (os.ReadFile _) => (Ok example_stat, u)
  | OS (os.Readlink _) => (Err os.ENOENT, u)
  | OS (os.Stat _) => (Err os.ENOENT, u)
  | OS (os.Getenv _) => ("", u)
  | OS (os.NameToHandleAt _) => (Err os.ENOENT, u)
  | OS (os.StatIno _) => (Err os.ENOENT, u)
  | Identify _ => ((example_caller, None), u)
  | Lookup b c => (secrets.Lookup (mkRegistry [example_binding]) b c, u)
  | ProtectPID _ | UnprotectPID _ | TrackPID _ => (None, u)
  | OnIssued _ _ | OnDenied _ _ | Log _ => (tt, u)
  end.

Definition example_server : Server :=
  mkServer (mkConfig "" 0 "" true true true) true true true.

Definition example_run (req : protocol.Request) : trace SRV * protocol.Response :=
  (traced example_handler (handle example_server (mkUcred 42 0 0) req) tt).1.

Lemma example_run_runs req :
  runs (handle example_server (mkUcred 42 0 0) req) (example_run req).1 (example_run req).2.
Proof. apply traced_runs. Qed.

Definition psql_request : protocol.Request := protocol.mkRequest "/usr/bin/psql".

(** ** Properties *)

(** C3. [handle] implements its decision table exactly: for every configuration,
    caller and request, the pairs of a visible trace and a response that some
    run of the code produces are the rows of [handled], no more and no fewer. *)
Theorem handle_refines_table s cred req v r :
  (∃ tr, runs (handle s cred req) tr r ∧ visible (cred_pid cred) tr = v) ↔
  handled s cred req v r.
Proof.
  split; [|apply handled_shows]. intros (tr & H & <-). by apply handle_visible.
Qed.

(** C4. Protection comes before release: whenever protection is required and a
    run of [handle] answers with a non-empty environment, the caller's PID was
    marked protected successfully, the answer says so, nothing was announced as
    issued before that point, nothing unprotected any PID after it, and the
    caller's start time was read as the same value before and after. *)
Theorem protected_before_release s cred req tr r :
  runs (handle s cred req) tr r →
  RequireProtection (cfg s) = true →
  protocol.resp_Env r ≠ ∅ →
  let pid := cred_pid cred in
  protocol.resp_Protected r = true ∧
  ∃ t1 t2 start r1 r2,
    tr = t1 ++ ev (ProtectPID pid) None :: t2 ∧
    (∀ p names, ev (OnIssued p names) tt ∉ t1) ∧
    (∀ p x, ev (UnprotectPID p) x ∉ t2) ∧
    stat_ev pid r1 ∈ t1 ∧ start_of pid r1 = Ok start ∧
    stat_ev pid r2 ∈ t2 ∧ start_of pid r2 = Ok start.
Proof.
  intros H Hp He. cbv zeta.
  apply handle_visible in H.
  destruct (handled_released _ _ _ _ _ H He)
    as (t & c & e & m & r1 & r2 & n & perr & terr & Hid & _ & Hv & H1 & H2 & Hperr & ->).
  destruct Hperr as [->|]; [|congruence]. split; [done|].
  apply visible_split in Hv as (t1 & t2 & -> & Hv1 & Hv2).
  exists t1, t2, n, r1, r2. split; [done|].
  split; [intros p names Hin|split; [intros p x Hin|]].
  - apply (elem_of_visible (cred_pid cred)) in Hin; [|done]. rewrite Hv1 in Hin.
    apply elem_of_app in Hin as [Hin|Hin]; [by apply (identified_incl _ _ _ _ _ _ Hid) in Hin|].
    by repeat (apply elem_of_cons in Hin as [Hin|Hin]; [done|]);
      apply not_elem_of_nil in Hin.
  - apply (elem_of_visible (cred_pid cred)) in Hin; [|done]. rewrite Hv2 in Hin.
    repeat (apply elem_of_cons in Hin as [Hin|Hin]; [done|]).
    by apply elem_of_issued_trace in Hin as [_ ?].
  - split; [|split; [done|split; [|done]]]; apply (visible_incl (cred_pid cred)).
    + rewrite Hv1. apply elem_of_app. right. by right; left.
    + rewrite Hv2. by right; left.
Qed.

Example protected_before_release_witness :
  protocol.resp_Protected (example_run psql_request).2 = true.
Proof.
  apply (protected_before_release example_server (mkUcred 42 0 0) psql_request
           (example_run psql_request).1);
    [apply example_run_runs|reflexivity|vm_compute; discriminate].
Defined.

(** C19. The response type's invariant: a refusal carries no environment, claims
    no protection and says why; an answer that is OK has no error, and claims
    protection only together with a non-empty environment. *)
Theorem response_invariant s cred req tr r :
  runs (handle s cred req) tr r →
  if protocol.resp_OK r
  then protocol.resp_Error r = "" ∧
       (protocol.resp_Protected r = true → protocol.resp_Env r ≠ ∅)
  else protocol.resp_Env r = ∅ ∧ protocol.resp_Protected r = false ∧
       protocol.resp_Error r ≠ "" ∧ protocol.resp_Warning r = "".
Proof.
  intros H%handle_visible. destruct H as [| |t c e m t' r _ _ _ Hd]; [done..|].
  destruct Hd; simpl; try done. split; [done|]. intros _. by apply env_of_nonempty.
Qed.

Example response_invariant_witness :
  protocol.resp_Error (example_run psql_request).2 = "".
Proof.
  pose proof (response_invariant example_server (mkUcred 42 0 0) psql_request _ _
                (example_run_runs psql_request)) as H.
  vm_compute in H |- *. apply H.
Defined.

(** C5. Only an admitted caller is served: when the resolver is the registry,
    every variable of every answer is a secret of a binding of that registry
    which names the requested binary (or none), is not rejected, and whose
    selector admits the caller the request was identified as. *)
Theorem released_only_to_admitted s cred req reg tr r k v :
  runs (handle s cred req) tr r →
  Forall (resolved_by reg) tr →
  protocol.resp_Env r !! k = Some v →
  ∃ t c e b,
    identified s (cred_pid cred) t c e ∧ (∀ x, x ∈ t → x ∈ tr) ∧
    b ∈ bindings reg ∧ mkSecret k v ∈ b_Secrets b ∧ b_Rejected b = "" ∧
    (sel_Binary (b_Selector b) = "" ∨
     sel_Binary (b_Selector b) = filepath.Base (protocol.req_Binary req)) ∧
    admitted (b_Selector b) c.
Proof.
  intros H Hreg Hk. apply handle_visible in H.
  assert (protocol.resp_Env r ≠ ∅) as He by (intros He; by rewrite He in Hk).
  destruct (handled_released _ _ _ _ _ H He)
    as (t & c & e & m & r1 & r2 & n & perr & terr & Hid & _ & Hv & _ & _ & _ & ->).
  assert (∀ x, x ∈ t ++ [ev (Lookup (filepath.Base (protocol.req_Binary req)) c) m] → x ∈ tr)
    as Hin.
  { intros x Hx. apply (visible_incl (cred_pid cred)). rewrite Hv. set_solver. }
  assert (m = secrets.Lookup reg (filepath.Base (protocol.req_Binary req)) c) as ->.
  { rewrite Forall_forall in Hreg.
    apply (Hreg (ev (Lookup (filepath.Base (protocol.req_Binary req)) c) m)), Hin.
    set_solver. }
  apply env_of_elem, elem_of_lookup_Secrets in Hk as (b & Hb & Hs & Hsec).
  apply serves_iff in Hs as (Hbin & Hrej & Hadm).
  exists t, c, e, b. split; [done|]. split; [set_solver|]. done.
Qed.

Example released_only_to_admitted_witness :
  ∃ t c e b,
    identified example_server 42 t c e ∧
    (∀ x, x ∈ t → x ∈ (example_run psql_request).1) ∧
    b ∈ [example_binding] ∧ mkSecret "PW" "x" ∈ b_Secrets b ∧ b_Rejected b = "" ∧
    (sel_Binary (b_Selector b) = "" ∨ sel_Binary (b_Selector b) = "psql") ∧
    admitted (b_Selector b) c.
Proof.
  apply (released_only_to_admitted example_server (mkUcred 42 0 0) psql_request
           (mkRegistry [example_binding]) (example_run psql_request).1
           (example_run psql_request).2 "PW" "x").
  - apply example_run_runs.
  - apply traced_Forall. intros [[]| | | | | | | |] []; done.
  - vm_compute. reflexivity.
Defined.

(** C6. In required mode nothing is served to a caller the identifier did not
    place in a pod: any OK answer follows an [Identify] of the caller's PID that
    returned no error and a pod. *)
Theorem required_mode_needs_a_pod s cred req tr r :
  runs (handle s cred req) tr r →
  RequirePodIdentity (cfg s) = true →
  protocol.resp_OK r = true →
  ∃ c, ev (Identify (cred_pid cred)) (c, None) ∈ tr ∧ is_Some (caller_Pod c).
Proof.
  intros H%handle_visible Hreq Hok. revert H.
  generalize (visible_incl (cred_pid cred) tr). generalize (visible (cred_pid cred) tr).
  intros v Hincl H. destruct H as [| |t c e m t' r _ Hid Hpod _]; [done..|].
  destruct (Hpod Hreq) as [-> Hp]. exists c. split.
  - apply Hincl, elem_of_app. left. destruct Hid; [done..|]. by left.
  - by apply not_eq_None_Some.
Qed.

Example required_mode_needs_a_pod_witness :
  ∃ c, ev (Identify 42) (c, None) ∈ (example_run psql_request).1 ∧
       is_Some (caller_Pod c).
Proof.
  apply (required_mode_needs_a_pod example_server (mkUcred 42 0 0) psql_request
           (example_run psql_request).1 (example_run psql_request).2);
    [apply example_run_runs|reflexivity|vm_compute; reflexivity].
Defined.

(** C7. Secret values never reach the log, the callbacks or any interface: if the
    registry held other values under the same names, the same run would log,
    announce, protect and read exactly the same, and answer the same but for
    the values in the environment. *)
Theorem handle_independent_of_values s cred req tr r f :
  runs (handle s cred req) tr r →
  (∀ sec, sec_Name (f sec) = sec_Name sec) →
  ∃ r', runs (handle s cred req) (relabel f <$> tr) r' ∧ same_but_values r r'.
Proof.
  intros H Hf. by apply (handle_carries f Hf).
Qed.

Example handle_independent_of_values_witness :
  ∃ r', runs (handle example_server (mkUcred 42 0 0) psql_request)
          (relabel (λ sec, mkSecret (sec_Name sec) "other") <$> (example_run psql_request).1) r' ∧
        same_but_values (example_run psql_request).2 r'.
Proof.
  apply (handle_independent_of_values example_server (mkUcred 42 0 0) psql_request
           (example_run psql_request).1 (example_run psql_request).2
           (λ sec, mkSecret (sec_Name sec) "other"));
    [apply example_run_runs|reflexivity].
Defined.

(** The callbacks tell the truth: with both registered, the denied callback
    runs (once, for the caller's PID) exactly when the answer is a refusal, and
    the issued callback runs (once, with the sorted names of the variables)
    exactly when an environment is released; so the denied and issued counters
    count refusals and releases. *)
Theorem callbacks_match_answer s cred req tr r :
  runs (handle s cred req) tr r →
  has_onIssued s = true → has_onDenied s = true →
  let calls := List.filter is_callback tr in
  if protocol.resp_OK r
  then if decide (protocol.resp_Env r = ∅) then calls = []
       else ∃ names, calls = [ev (OnIssued (cred_pid cred) names) tt] ∧
              StronglySorted String.le names ∧
              (∀ k, k ∈ names ↔ is_Some (protocol.resp_Env r !! k))
  else ∃ reason, calls = [ev (OnDenied (cred_pid cred) reason) tt].
Proof.
  intros H Hi Hd. cbv zeta. rewrite (callbacks_visible (cred_pid cred)).
  apply handle_visible in H.
  assert (∀ reason, denied_trace s (cred_pid cred) reason
    = [ev (OnDenied (cred_pid cred) reason) tt]) as Hden.
  { intros. unfold denied_trace. by rewrite Hd. }
  assert (∀ t c e, identified s (cred_pid cred) t c e → List.filter is_callback t = []) as Hident.
  { by intros t c e []. }
  destruct H as [_|t c e reason _ Hid _ _ ->|t c e m t' r _ Hid _ Hdel].
  - simpl. rewrite Hden. simpl. eauto.
  - simpl. rewrite List.filter_app, (Hident _ _ _ Hid), Hden. simpl. eauto.
  - rewrite List.filter_app, (Hident _ _ _ Hid). simpl. clear Hid Hident.
    destruct Hdel; simpl; rewrite ?Hden; simpl; eauto; try (by rewrite decide_True).
    rewrite decide_False by (by apply env_of_nonempty).
    exists (names_of (m_Secrets m)). unfold issued_trace. rewrite Hi. split; [done|].
    split; [apply sort.Strings_sorted|]. intros k. unfold names_of.
    by rewrite sort.elem_of_Strings, env_of_dom.
Qed.

Example callbacks_match_answer_witness :
  ∃ reason,
    List.filter is_callback (example_run (protocol.mkRequest "///")).1 = [ev (OnDenied 42 reason) tt].
Proof.
  apply (callbacks_match_answer example_server (mkUcred 42 0 0) (protocol.mkRequest "///")
           _ (example_run (protocol.mkRequest "///")).2);
    [apply example_run_runs|reflexivity|reflexivity].
Defined.

(** The text of [/proc/<pid>/stat]: the PID, the command in parentheses and the
    remaining fields separated by spaces. *)
Definition stat_text (pid : Z) (comm : string) (fields : list string) : string :=
  fmt.d pid +:+ " (" +:+ comm +:+ ") " +:+ strings.Join fields " "
  +:+ String newline "".

(** A word of it after the command. *)
Definition stat_word (f : string) : Prop :=
  f ≠ "" ∧ all_bytes strings.plain f = true ∧ byte_free ")" f = true.

Lemma parse_stat_text pid comm fields v :
  Forall stat_word fields →
  fields !! startTimeIndex = Some (strconv.FormatUint v) →
  (0 ≤ v < 2 ^ 64)%Z →
  parse_stat pid (stat_text pid comm fields) = Ok v.
Proof.
  intros Hf Hv Hr. unfold parse_stat, stat_text.
  set (before := fmt.d pid +:+ " (" +:+ comm).
  set (after := " " +:+ strings.Join fields " " +:+ String newline "").
  assert (fmt.d pid +:+ " (" +:+ comm +:+ ") " +:+ strings.Join fields " "
    +:+ String newline "" = before +:+ String ")" after) as ->.
  { unfold before, after. by rewrite !app_assoc_str. }
  assert (byte_free ")" after = true) as Hfree.
  { unfold after, byte_free. rewrite !all_bytes_app, !andb_true_iff. split; [done|].
    split; [|done]. clear Hv after. induction Hf as [|f fs (_ & _ & Hff) Hfs IH]; [done|].
    destruct fs as [|f' fs]; [done|]. rewrite strings.Join_cons, !all_bytes_app by done.
    unfold byte_free in Hff. by rewrite Hff, IH. }
  rewrite strings.LastIndexByte_app by done.
  rewrite bool_decide_eq_false_2.
  2: { rewrite length_app_str. cbn [String.length]. unfold after.
       rewrite !length_app_str. cbn [String.length]. lia. }
  replace (String.length before + 2)
    with (String.length (before +:+ ") ")) by (rewrite length_app_str; simpl; lia).
  replace (before +:+ String ")" after)
    with ((before +:+ ") ") +:+ strings.Join fields " " +:+ String newline "")
    by (unfold after; by rewrite app_assoc_str).
  rewrite drop_str_app, strings.Fields_Join; [|by eapply Forall_impl; [exact Hf|intros f (? & ? & ?)]|done].
  by rewrite Hv, strconv.ParseUint_FormatUint.
Qed.

(** The start time is read right whatever the command is called: for every
    command name, parentheses, spaces and newlines included, parsing a [stat]
    line whose later fields are plain words without a closing parenthesis gives
    the number printed as field 22. *)
Theorem parse_stat_any_comm pid comm fields v :
  Forall stat_word fields →
  fields !! startTimeIndex = Some (strconv.FormatUint v) →
  (0 ≤ v < 2 ^ 64)%Z →
  parse_stat pid (stat_text pid comm fields) = Ok v.
Proof. intros Hf Hv Hr. by apply parse_stat_text. Qed.

Example parse_stat_any_comm_witness :
  parse_stat 7 (stat_text 7 "evil) R 1 1 (" (replicate 19 "0" ++ ["4242"; "9"])) = Ok 4242%Z.
Proof.
  apply parse_stat_any_comm.
  - unfold stat_word. repeat (constructor; [repeat split; [discriminate|vm_compute; reflexivity..]|]).
    constructor.
  - reflexivity.
  - lia.
Defined.

End server.
