(* ===== verification/Socket.v ===== *)
(** * Package server: the socket ([src/internal/server/server.go])

    [Listen], [lookupGID] and the end of [Close], as programs over the system
    calls they make, and a file system with owners, groups, modes and a umask to
    run them on.  The claims are about who can connect, at every moment while
    the socket is being set up and after it, and about what is left behind. *)

From S2P Require Import Prelude GoStrings Effects Os Protocol Kube Secrets Server.

Module socket.

Local Open Scope prog_scope.

(** ** The code *)

Inductive line :=
| ListeningGroup (path : string) (mode : Z) (group : string) (gid : Z)
| ListeningOwner (path : string) (mode : Z) (euid : Z)
| OnlyRoot
| WarnRemove (path : string) (err : os.errno).

Inductive call :=
| MkdirAll (path : string) (perm : Z)
| LookupGroup (name : string)        (** [user.LookupGroup]; answers its [Gid] *)
| Chown (path : string) (uid gid : Z)
| Chmod (path : string) (mode : Z)
| Remove (path : string)
| ListenUnix (path : string)         (** [net.Listen] of a unix socket *)
| CloseListener                      (** [ln.Close] *)
| Geteuid
| Log (l : line).

Definition answer (c : call) : Type :=
  match c with
  | MkdirAll _ _ | Chown _ _ _ | Chmod _ _ | Remove _ | ListenUnix _ => option os.errno
  | LookupGroup _ => result string error
  | Geteuid => Z
  | CloseListener | Log _ => unit
  end.

Definition SOCK : sig := Sig call answer.

Definition do (c : call) : prog SOCK (answer c) := Effects.call (Σ:=SOCK) c.

Definition lookupGID (group : string) : prog SOCK (result Z error) :=
  match strconv.Atoi group with
  | Some gid => Ret (Ok gid)
  | None =>
      grp <- do (LookupGroup group) ;;
      Ret (match grp with
           | Err e => Err ("resolving socket group " +:+ fmt.q group +:+ ": " +:+ e)
           | Ok text =>
               match strconv.Atoi text with
               | None => Err ("group " +:+ fmt.q group +:+ " has non-numeric gid " +:+ fmt.q text)
               | Some gid => Ok gid
               end
           end)
  end.

Definition setting_group (group path : string) (e : os.errno) : error :=
  "setting group " +:+ fmt.q group +:+ " on " +:+ path +:+ ": " +:+ os.errno_text e.

Definition setting_mode (path : string) (e : os.errno) : error :=
  "setting mode on " +:+ path +:+ ": " +:+ os.errno_text e.

(** The group of the socket, with which its directory is shared; [-1] for none. *)
Definition share_dir (c : server.Config) (dir : string) : prog SOCK (result Z error) :=
  if decide (server.SocketGroup c = "") then Ret (Ok (-1)%Z)
  else
    resolved <- lookupGID (server.SocketGroup c) ;;
    match resolved with
    | Err e => Ret (Err e)
    | Ok gid =>
        e <- do (Chown dir (-1) gid) ;;
        match e with
        | Some e => Ret (Err (setting_group (server.SocketGroup c) dir e))
        | None =>
            e <- do (Chmod dir 488 (* 0o750 *)) ;;
            Ret (match e with Some e => Err (setting_mode dir e) | None => Ok gid end)
        end
    end.

(** [Listen] up to [net.Listen]. *)
Definition prepare (c : server.Config) : prog SOCK (result Z error) :=
  let path := server.SocketPath c in
  let dir := filepath.Dir path in
  e <- do (MkdirAll dir 488 (* 0o750 *)) ;;
  match e with
  | Some e => Ret (Err ("creating socket directory " +:+ dir +:+ ": " +:+ os.errno_text e))
  | None =>
      gid <- share_dir c dir ;;
      match gid with
      | Err e => Ret (Err e)
      | Ok gid =>
          e <- do (Remove path) ;;
          Ret (match e with
               | Some (os.EOther m) => Err ("removing stale socket " +:+ path +:+ ": " +:+ m)
               | _ => Ok gid
               end)
      end
  end.

(** The lines it logs when it succeeds. *)
Definition announce (c : server.Config) (gid : Z) : prog SOCK unit :=
  let path := server.SocketPath c in
  let mode := server.SocketMode c in
  if (0 <=? gid)%Z then do (Log (ListeningGroup path mode (server.SocketGroup c) gid))
  else
    euid <- do Geteuid ;;
    do (Log (ListeningOwner path mode euid)) ;;;
    euid <- do Geteuid ;;
    if ((euid : Z) =? 0)%Z && (Z.land mode 6 =? 0)%Z then do (Log OnlyRoot) else Ret tt.

(** The mode of the socket, the last thing to be set. *)
Definition set_mode (c : server.Config) (gid : Z) : prog SOCK (option error) :=
  let path := server.SocketPath c in
  e <- do (Chmod path (server.SocketMode c)) ;;
  match e with
  | Some e => do CloseListener ;;; Ret (Some (setting_mode path e))
  | None => announce c gid ;;; Ret None
  end.

(** [Listen] from [net.Listen] on. *)
Definition open_socket (c : server.Config) (gid : Z) : prog SOCK (option error) :=
  let path := server.SocketPath c in
  e <- do (ListenUnix path) ;;
  match e with
  | Some e => Ret (Some ("listening on " +:+ path +:+ ": " +:+ os.errno_text e))
  | None =>
      if (0 <=? gid)%Z then
        e <- do (Chown path (-1) gid) ;;
        match e with
        | Some e => do CloseListener ;;; Ret (Some (setting_group (server.SocketGroup c) path e))
        | None => set_mode c gid
        end
      else set_mode c gid
  end.

(** [Listen]; without an error the server has its listener. *)
Definition Listen (c : server.Config) : prog SOCK (option error) :=
  gid <- prepare c ;;
  match gid with
  | Err e => Ret (Some e)
  | Ok gid => open_socket c gid
  end.

(** What [Close] does to the socket, before and after it waits for the
    requests in flight. *)
Definition close_listener : prog SOCK unit := do CloseListener.

Definition remove_socket (c : server.Config) : prog SOCK unit :=
  e <- do (Remove (server.SocketPath c)) ;;
  match e with
  | Some (os.EOther m) => do (Log (WarnRemove (server.SocketPath c) (os.EOther m)))
  | _ => Ret tt
  end.

(** ** The file system *)

Record inode := mkInode { i_uid : Z; i_gid : Z; i_mode : Z }.

(** What is at the socket's path, with the listener it belongs to; a file left
    behind has none that is open. *)
Record node := mkNode { n_inode : inode; n_listener : option nat }.

Record fs := mkFs {
  f_dir : option inode;
  f_sock : option node;
  f_listeners : gset nat;
}.

(** The process: its umask and identity, the groups database, and the calls the
    system refuses it. *)
Record host := mkHost {
  h_umask : Z;
  h_euid : Z;
  h_egid : Z;
  h_groups : string → result string error;
  h_fails : call → option os.errno;
}.

Definition chown (i : inode) (uid gid : Z) : inode :=
  mkInode (if (uid =? -1)%Z then i_uid i else uint32 uid)
          (if (gid =? -1)%Z then i_gid i else uint32 gid) (i_mode i).

(** The mode [os.Chmod] passes on: the permission bits, and the set-user-ID,
    set-group-ID and sticky bits, which an [os.FileMode] has elsewhere. *)
Definition syscallMode (mode : Z) : Z :=
  let flag b v := if Z.testbit mode b then v else 0%Z in
  Z.lor (Z.land mode 511) (Z.lor (flag 23 2048) (Z.lor (flag 22 1024) (flag 20 512)))%Z.

Definition chmod (i : inode) (mode : Z) : inode :=
  mkInode (i_uid i) (i_gid i) (syscallMode mode).

(** The permissions a new file asks for, less the umask. *)
Definition masked (h : host) (perm : Z) : Z := Z.land perm (Z.lnot (h_umask h)).

Definition new_dir (h : host) (perm : Z) : inode :=
  mkInode (h_euid h) (h_egid h) (masked h perm).

(** A socket's inode as [bind] makes it: the group is the directory's when that
    has the set-group-ID bit. *)
Definition new_sock (h : host) (d : inode) : inode :=
  mkInode (h_euid h) (if Z.testbit (i_mode d) 10 then i_gid d else h_egid h) (masked h 511).

Section serve.
Context (h : host) (path : string) (me : nat).

(** The attributes of the directory or of the socket. *)
Definition on_path (s : fs) (p : string) (f : inode → inode) : option os.errno * fs :=
  if decide (p = path) then
    match f_sock s with
    | None => (Some os.ENOENT, s)
    | Some n => (None, mkFs (f_dir s) (Some (mkNode (f (n_inode n)) (n_listener n))) (f_listeners s))
    end
  else
    match f_dir s with
    | None => (Some os.ENOENT, s)
    | Some d => (None, mkFs (Some (f d)) (f_sock s) (f_listeners s))
    end.

Definition attempt (c : call) (s : fs) (k : option os.errno * fs) : option os.errno * fs :=
  match h_fails h c with Some e => (Some e, s) | None => k end.

Definition serve : handler SOCK fs := λ c s,
  match c return answer c * fs with
  | MkdirAll _ perm =>
      attempt c s (None, match f_dir s with
                         | Some _ => s
                         | None => mkFs (Some (new_dir h perm)) (f_sock s) (f_listeners s)
                         end)
  | LookupGroup n => (h_groups h n, s)
  | Chown p uid gid => attempt c s (on_path s p (λ i, chown i uid gid))
  | Chmod p mode => attempt c s (on_path s p (λ i, chmod i mode))
  | Remove _ =>
      attempt c s (match f_sock s with
                   | None => (Some os.ENOENT, s)
                   | Some _ => (None, mkFs (f_dir s) None (f_listeners s))
                   end)
  | ListenUnix _ =>
      attempt c s
        (match f_dir s, f_sock s with
         | None, _ => (Some os.ENOENT, s)
         | _, Some _ => (Some (os.EOther "bind: address already in use"), s)
         | Some d, None =>
             (None, mkFs (f_dir s) (Some (mkNode (new_sock h d) (Some me)))
                      ({[ me ]} ∪ f_listeners s))
         end)
  | CloseListener =>
      (* the listener unlinks the path it was given, then closes its socket *)
      (tt, if decide (me ∈ f_listeners s)
           then mkFs (f_dir s) None (f_listeners s ∖ {[ me ]}) else s)
  | Geteuid => (h_euid h, s)
  | Log _ => (tt, s)
  end.

End serve.

(** What the calls answer when the system refuses nothing. *)
Definition granted (euid : Z) (c : call) : answer c :=
  match c return answer c with
  | LookupGroup _ => Err "unknown group"
  | Geteuid => euid
  | CloseListener | Log _ => tt
  | _ => None
  end.

(** *** Who can connect *)

Record who := mkWho { w_uid : Z; w_gids : list Z }.

(** The permission bit of the class the process is in: 0 execute, 1 write, 2 read. *)
Definition allows (i : inode) (bit : Z) (w : who) : bool :=
  if decide (w_uid w = i_uid i) then Z.testbit (i_mode i) (6 + bit)
  else if decide (i_gid i ∈ w_gids w) then Z.testbit (i_mode i) (3 + bit)
  else Z.testbit (i_mode i) bit.

(** Connecting takes search permission on the directory and write permission on
    the socket, which root has anyway, and a listener. *)
Definition can_connect (s : fs) (w : who) : bool :=
  match f_dir s, f_sock s with
  | Some d, Some (mkNode i (Some l)) =>
      bool_decide (l ∈ f_listeners s) &&
      (bool_decide (w_uid w = 0%Z) || allows d 0 w && allows i 1 w)
  | _, _ => false
  end.

(** ** Setting the socket up *)

Section listen.
Context (h : host) (c : server.Config) (me : nat).
Abbreviation path := (server.SocketPath c).
Abbreviation sv := (serve h path me).
Context (Hdir : filepath.Dir path ≠ path).

(** The directory after [MkdirAll], and shared with the group. *)
Definition made_dir (s : fs) : inode := default (new_dir h 488) (f_dir s).
Definition shared_dir (d : inode) (gid : Z) : inode := chmod (chown d (-1) gid) 488.

Lemma lookupGID_state group s : (exec sv (lookupGID group) s).2 = s.
Proof. unfold lookupGID. by destruct (strconv.Atoi group). Qed.

(** What is done before [net.Listen]. *)
Definition no_listen (o : op SOCK) : Prop :=
  match o with
  | ListenUnix _ | CloseListener => False
  | Chown p _ _ | Chmod p _ => p ≠ path
  | _ => True
  end.

Lemma prepare_no_listen : only no_listen (prepare c).
Proof.
  unfold prepare, share_dir, lookupGID. cbn [bind do Effects.call only]. split; [done|].
  intros [e|]; [done|]. apply only_bind.
  - destruct (decide _); [done|]. apply only_bind.
    + destruct (strconv.Atoi _); [done|]. by split; [|intros [?|?]].
    + intros [gid|e]; [|done]. cbn [bind do Effects.call only]. split; [exact Hdir|].
      intros [e|]; [done|]. cbn [bind do Effects.call only]. by split; [exact Hdir|].
  - intros [gid|e]; [|done]. by split.
Qed.

(** Until [net.Listen] there is no new listener. *)
Lemma prepare_idle s s' :
  f_listeners s = ∅ → s' ∈ visits sv (prepare c) s → f_listeners s' = ∅.
Proof.
  intros Hs. apply (visits_only sv no_listen (λ s, f_listeners s = ∅)); [|by apply prepare_no_listen|done].
  intros o s1 Ho H1. destruct o; simpl in *; try done;
    unfold attempt, on_path; by repeat (case_match; simpl; try done).
Qed.

Lemma idle_unreachable s w : f_listeners s = ∅ → can_connect s w = false.
Proof.
  intros H. unfold can_connect. rewrite H.
  destruct (f_dir s) as [d|], (f_sock s) as [[i [l|]]|]; done.
Qed.

(** What [prepare] leaves when it succeeds. *)
Lemma prepare_done s gid s' :
  exec sv (prepare c) s = (Ok gid, s') →
  f_listeners s' = f_listeners s ∧
  (server.SocketGroup c = "" ∧ gid = (-1)%Z ∧ f_dir s' = Some (made_dir s) ∨
   server.SocketGroup c ≠ "" ∧ (exec sv (lookupGID (server.SocketGroup c)) s).1 = Ok gid ∧
   f_dir s' = Some (shared_dir (made_dir s) gid)).
Proof.
  unfold prepare. rewrite exec_bind. cbn [do Effects.call exec serve]. unfold attempt at 1.
  destruct (h_fails h (MkdirAll _ _)) as [?|]; [done|].
  set (s1 := match f_dir s with Some _ => s | None => _ end).
  assert (f_dir s1 = Some (made_dir s) ∧ f_listeners s1 = f_listeners s) as [Hd1 Hl1].
  { unfold s1, made_dir. destruct (f_dir s) eqn:E; simpl; by rewrite ?E. }
  assert ((exec sv (lookupGID (server.SocketGroup c)) s1).1
          = (exec sv (lookupGID (server.SocketGroup c)) s).1) as Hlk.
  { unfold lookupGID. by destruct (strconv.Atoi _). }
  clearbody s1. rewrite exec_bind. unfold share_dir.
  destruct (decide (server.SocketGroup c = "")) as [Hg|Hg].
  - cbn [exec bind do Effects.call]. destruct (sv (Remove path) s1) as [e s2] eqn:Er.
    assert (f_dir s2 = f_dir s1 ∧ f_listeners s2 = f_listeners s1) as [Hd2 Hl2].
    { cbn in Er. unfold attempt in Er. repeat case_match; by simplify_eq/=. }
    rewrite Hd1 in Hd2. rewrite Hl1 in Hl2.
    intros H. destruct e as [[]|]; simplify_eq; (split; [done|by left]).
  - rewrite exec_bind. pose proof (lookupGID_state (server.SocketGroup c) s1) as Hst.
    destruct (exec sv (lookupGID _) s1) as [r s1']. cbn in Hst, Hlk. subst s1'.
    destruct r as [g|e]; [|done]. cbn [bind do Effects.call exec serve].
    unfold attempt at 1, on_path at 1. rewrite decide_False, Hd1 by done.
    destruct (h_fails h (Chown _ _ _)); [done|].
    cbn [bind do Effects.call exec serve]. unfold attempt at 1, on_path at 1.
    rewrite decide_False by done. cbn [f_dir].
    destruct (h_fails h (Chmod _ _)); [done|]. cbn [bind do Effects.call exec].
    set (s2 := mkFs _ _ _). destruct (sv (Remove path) s2) as [e s3] eqn:Er.
    assert (f_dir s3 = f_dir s2 ∧ f_listeners s3 = f_listeners s2) as [Hd2 Hl2].
    { cbn [serve] in Er. unfold attempt in Er. repeat case_match; by simplify_eq/=. }
    cbn [s2 f_dir f_listeners] in Hd2, Hl2. rewrite Hl1 in Hl2.
    intros H. destruct e as [[]|]; simplify_eq; (split; [done|right; split; [done|split; [congruence|done]]]).
Qed.

(** The inodes the socket goes through. *)
Definition grouped (gid : Z) (i : inode) : inode :=
  if (0 <=? gid)%Z then chown i (-1) gid else i.

Definition live (d i : inode) (ls : gset nat) : fs :=
  mkFs (Some d) (Some (mkNode i (Some me))) ({[ me ]} ∪ ls).

Definition no_effect (o : op SOCK) : Prop :=
  match o with Geteuid | Log _ => True | _ => False end.

Lemma announce_only gid : only no_effect (announce c gid).
Proof.
  unfold announce. destruct (0 <=? gid)%Z; [done|]. cbn [bind do Effects.call only].
  split; [done|]. intros e. split; [done|]. intros ?. split; [done|]. intros e'. by destruct (_ && _).
Qed.

Lemma no_effect_keeps o s0 s : no_effect o → s = s0 → (sv o s).2 = s0.
Proof. by destruct o. Qed.

(** What [open_socket] leaves when it succeeds, and every state on the way. *)
Lemma set_mode_done gid s s' d i ls :
  s = live d i ls → exec sv (set_mode c gid) s = (None, s') →
  s' = live d (chmod i (server.SocketMode c)) ls ∧
  ∀ s1, s1 ∈ visits sv (set_mode c gid) s → s1 = s ∨ s1 = s'.
Proof.
  intros ->. unfold set_mode. cbn [bind do Effects.call exec visits serve].
  unfold attempt, on_path. rewrite decide_True by done. cbn [live f_sock f_dir n_inode n_listener f_listeners].
  destruct (h_fails h _) as [e|]; [done|]. cbn [bind do Effects.call exec visits].
  fold (live d (chmod i (server.SocketMode c)) ls). set (s2 := live d _ ls). rewrite exec_bind.
  assert ((exec sv (announce c gid) s2).2 = s2) as Ha.
  { pose proof (triple_only sv no_effect (λ s, s = s2) (announce c gid)) as H.
    apply H; [intros o s; apply no_effect_keeps|apply announce_only|done]. }
  destruct (exec sv (announce c gid) s2) as [u s2'] eqn:Ea. cbn in Ha. subst s2'.
  intros [= <-]. split; [done|]. intros s1 [->|Hin]%elem_of_cons; [by left|right].
  apply visits_bind in Hin as [Hin|Hin].
  - eapply (visits_only sv no_effect (λ s, s = s2)); [|apply announce_only|done|exact Hin].
    intros o s. apply no_effect_keeps.
  - rewrite Ea in Hin. cbn in Hin. by apply list_elem_of_singleton in Hin.
Qed.

Lemma open_done gid s s' :
  exec sv (open_socket c gid) s = (None, s') →
  ∃ d, f_dir s = Some d ∧
    s' = live d (chmod (grouped gid (new_sock h d)) (server.SocketMode c)) (f_listeners s) ∧
    ∀ s1, s1 ∈ visits sv (open_socket c gid) s →
      s1 = s ∨ s1 = s' ∨ s1 = live d (new_sock h d) (f_listeners s) ∨
      s1 = live d (grouped gid (new_sock h d)) (f_listeners s).
Proof.
  unfold open_socket, grouped. cbn [bind do Effects.call exec visits serve]. unfold attempt.
  destruct (h_fails h (ListenUnix _)) as [e|]; [done|].
  destruct (f_dir s) as [d|] eqn:Ed; [|done]. destruct (f_sock s) as [n|]; [done|].
  fold (live d (new_sock h d) (f_listeners s)). intros H. exists d. split; [done|].
  destruct (0 <=? gid)%Z.
  - cbn [bind do Effects.call exec visits serve] in *. unfold attempt, on_path in *.
    rewrite decide_True in * by done. cbn [live f_sock f_dir n_inode n_listener f_listeners] in *.
    destruct (h_fails h (Chown _ _ _)) as [e|]; [done|].
    fold (live d (chown (new_sock h d) (-1) gid) (f_listeners s)) in *.
    apply (set_mode_done _ _ _ _ _ _ eq_refl) in H as [-> Hv]. split; [done|].
    intros s1 [->|[->|Hin]%elem_of_cons]%elem_of_cons; [by auto..|].
    destruct (Hv _ Hin) as [->| ->]; auto.
  - apply (set_mode_done _ _ _ _ _ _ eq_refl) in H as [-> Hv]. split; [done|].
    intros s1 [->|Hin]%elem_of_cons; [by auto|]. destruct (Hv _ Hin) as [->| ->]; auto.
Qed.

(** *** Permission bits *)

Lemma masked_bit perm b : (0 ≤ b)%Z → Z.testbit (masked h perm) b = true → Z.testbit perm b = true.
Proof. intros Hb. unfold masked. rewrite Z.land_spec. by intros [? _]%andb_true_iff. Qed.

Lemma masked_off perm m b :
  (0 ≤ b)%Z → Z.land (h_umask h) m = m → Z.testbit m b = true → Z.testbit (masked h perm) b = false.
Proof.
  intros Hb Hm Ht. unfold masked. rewrite Z.land_spec, Z.lnot_spec by done.
  rewrite <-Hm, Z.land_spec, andb_true_iff in Ht. destruct Ht as [-> _]. by rewrite andb_false_r.
Qed.

Lemma chmod_bit i mode b : (0 ≤ b < 9)%Z → Z.testbit (i_mode (chmod i mode)) b = Z.testbit mode b.
Proof.
  intros Hb. unfold chmod, syscallMode. cbn [i_mode]. change 511%Z with (Z.ones 9).
  rewrite !Z.lor_spec, Z.land_ones, Z.mod_pow2_bits_low by lia.
  assert (∀ (x : bool) n, (9 ≤ n)%Z → Z.testbit (if x then 2 ^ n else 0) b = false) as H.
  { intros [] n Hn; [apply Z.pow2_bits_false; lia|apply Z.testbit_0_l]. }
  change 2048%Z with (2 ^ 11)%Z. change 1024%Z with (2 ^ 10)%Z. change 512%Z with (2 ^ 9)%Z.
  rewrite !H by lia. by rewrite !orb_false_r.
Qed.

(** The owner and the group of the socket can write to it when its mode says so. *)
Lemma chmod_allows i mode w :
  Z.testbit mode 7 = true → Z.testbit mode 4 = true →
  w_uid w = i_uid i ∨ i_gid i ∈ w_gids w → allows (chmod i mode) 1 w = true.
Proof.
  intros H7 H4 Hw. unfold allows. cbn [chmod i_uid i_gid].
  repeat case_decide; rewrite ?chmod_bit by lia; try done. naive_solver.
Qed.

(** A directory without permissions for others lets its owner and group through. *)
Lemma dir_allows d w :
  Z.testbit (i_mode d) 0 = false → allows d 0 w = true → w_uid w = i_uid d ∨ i_gid d ∈ w_gids w.
Proof. unfold allows. intros H0. repeat case_decide; auto. by rewrite H0. Qed.

(** What keeps the socket's first permissions from mattering: a umask without
    write for group and others, or a directory that others cannot search. *)
Definition sheltered (s : fs) : Prop :=
  Z.land (h_umask h) 18 (* 0o022 *) = 18%Z ∨
  server.SocketGroup c = "" ∧ f_dir s = None ∨
  ∃ gid, server.SocketGroup c ≠ "" ∧ (0 ≤ gid)%Z ∧
         (exec sv (lookupGID (server.SocketGroup c)) s).1 = Ok gid ∧
         ∀ d, f_dir s = Some d → i_uid d = h_euid h.

Lemma new_sock_masked d w :
  Z.land (h_umask h) 18 = 18%Z → allows (new_sock h d) 1 w = true → w_uid w = h_euid h.
Proof.
  intros Hu. unfold allows. cbn [new_sock i_uid i_gid i_mode]. case_decide; [done|].
  case_decide; by rewrite (masked_off 511 18) by done.
Qed.

Lemma grouped_masked gid d w :
  Z.land (h_umask h) 18 = 18%Z → allows (grouped gid (new_sock h d)) 1 w = true → w_uid w = h_euid h.
Proof.
  intros Hu. unfold grouped. destruct (0 <=? gid)%Z; [|by apply new_sock_masked].
  unfold allows. cbn [chown new_sock i_uid i_gid i_mode Z.eqb]. case_decide; [done|].
  case_decide; by rewrite (masked_off 511 18) by done.
Qed.

(** Everybody who gets through to the socket on the way is its owner or in the
    group it ends up with. *)
Lemma audience s gid s1 d w :
  sheltered s → exec sv (prepare c) s = (Ok gid, s1) → f_dir s1 = Some d → allows d 0 w = true →
  ∀ i, i = new_sock h d ∨ i = grouped gid (new_sock h d) → allows i 1 w = true →
  w_uid w = i_uid (grouped gid (new_sock h d)) ∨ i_gid (grouped gid (new_sock h d)) ∈ w_gids w.
Proof.
  intros Hs Hp Hd Hw i Hi Ha. apply prepare_done in Hp as [_ Hp].
  assert (i_uid (grouped gid (new_sock h d)) = h_euid h) as ->
    by (unfold grouped; by destruct (0 <=? gid)%Z).
  destruct Hs as [Hu|[[Hg Hn]|(g & Hg & Hpos & Hl & Hown)]].
  - left. by destruct Hi as [->| ->]; [eapply new_sock_masked|eapply grouped_masked].
  - destruct Hp as [(_ & -> & Hd')|(? & _)]; [|done]. rewrite Hd' in Hd. injection Hd as <-.
    unfold made_dir in *. rewrite Hn in *. cbn [default] in *.
    apply dir_allows in Hw; [|unfold new_dir, masked; cbn [i_mode]; by rewrite Z.land_spec].
    unfold grouped, new_sock. cbn [Z.leb Z.compare i_gid new_dir i_mode] in *.
    unfold masked. rewrite Z.land_spec. by destruct Hw; [left|right].
  - destruct Hp as [(? & _)|(_ & Hl' & Hd')]; [done|]. rewrite Hl in Hl'. injection Hl' as <-.
    rewrite Hd' in Hd. injection Hd as <-.
    apply dir_allows in Hw; [|done]. unfold grouped. rewrite (proj2 (Z.leb_le _ _) Hpos).
    cbn [chown new_sock i_gid shared_dir chmod i_uid] in *.
    rewrite (proj2 (Z.eqb_neq g (-1))) in * by lia. destruct Hw as [->|Hw]; [left|by right].
    unfold made_dir, chown. cbn. destruct (f_dir s) as [d0|] eqn:E; [|done]. by apply Hown.
Qed.

End listen.

(** C16. While it is being set up, the socket is not reachable by anyone who cannot
    reach it in the end.  Let the configured mode let the owner and the group
    write, no listener be open before, and one of these shelter the socket: the
    umask denies group and others write access; the directory is new and no group
    is configured; or a group is configured, and the directory, if it exists, is
    the agent's.  Then, when [Listen] succeeds, whoever could have connected in any
    state it went through, from the moment the socket was bound with the
    permissions the umask left and the group of the process, can connect at the
    end.  With a mode that does not let the group write this fails: see
    [Listen_briefly_grouped]. *)
Theorem Listen_never_wider (h : host) (c : server.Config) (me : nat) (s s' s1 : fs) (w : who)
  (Hdir : filepath.Dir (server.SocketPath c) ≠ server.SocketPath c)
  (Hidle : f_listeners s = ∅)
  (Hmode : Z.testbit (server.SocketMode c) 7 = true ∧ Z.testbit (server.SocketMode c) 4 = true)
  (Hshelter : sheltered h c me s)
  (Hrun : exec (serve h (server.SocketPath c) me) (Listen c) s = (None, s'))
  (Hon : s1 ∈ visits (serve h (server.SocketPath c) me) (Listen c) s)
  (Hconn : can_connect s1 w = true) :
  can_connect s' w = true.
Proof.
  unfold Listen in *. rewrite exec_bind in Hrun. apply visits_bind in Hon.
  destruct Hon as [Hon|Hon].
  { eapply prepare_idle in Hon; [|done..]. by rewrite idle_unreachable in Hconn. }
  destruct (exec _ (prepare c) s) as [[gid|e] s0] eqn:Ep; [|done]. cbn [fst snd] in Hon.
  pose proof (prepare_done h c me Hdir s gid s0 Ep) as [Hl _]. rewrite Hidle in Hl.
  destruct (open_done h c me gid s0 s' Hrun) as (d & Hd & -> & Hv).
  pose proof (audience h c me Hdir s gid s0 d w Hshelter Ep Hd) as Haud.
  assert (∀ i, can_connect (live me d i (f_listeners s0)) w
               = bool_decide (w_uid w = 0%Z) || allows d 0 w && allows i 1 w) as Hcan.
  { intros i. unfold can_connect, live. cbn. by rewrite bool_decide_true by set_solver. }
  rewrite Hcan. destruct (Hv _ Hon) as [->|[->|Hi]].
  - by rewrite idle_unreachable in Hconn.
  - by rewrite <-Hcan.
  - apply orb_true_iff. assert (∃ i, (i = new_sock h d ∨ i = grouped gid (new_sock h d)) ∧
      can_connect (live me d i (f_listeners s0)) w = true) as (i & Hi' & Hc)
      by (destruct Hi as [->| ->]; eauto).
    rewrite Hcan in Hc. apply orb_true_iff in Hc as [?|[H1 H2]%andb_true_iff]; [by left|right].
    rewrite H1. destruct Hmode. apply chmod_allows; [done..|]. by eapply Haud.
Qed.

(** *** What is left when it fails *)

Section failure.
Context (h : host) (c : server.Config) (me : nat).
Abbreviation path := (server.SocketPath c).
Abbreviation sv := (serve h path me).
Context (Hdir : filepath.Dir path ≠ path).

(** What is done before [net.Listen] opens no listener, and leaves at the path
    what was there, or nothing. *)
Lemma prepare_keeps s :
  let s' := (exec sv (prepare c) s).2 in
  f_listeners s' = f_listeners s ∧ (f_sock s' = f_sock s ∨ f_sock s' = None).
Proof.
  pose proof (triple_only sv (no_listen c) (λ s1, f_listeners s1 = f_listeners s ∧
    (f_sock s1 = f_sock s ∨ f_sock s1 = None)) (prepare c)) as H.
  apply H; [|by apply prepare_no_listen|auto].
  intros o s1 Ho H1. destruct o; simpl in *; try done; unfold attempt, on_path;
    rewrite ?decide_False by done; repeat (case_match; simpl; try done);
    (split; [apply H1|by right]).
Qed.

Lemma close_live d i ls :
  me ∉ ls → sv CloseListener (live me d i ls) = (tt, mkFs (Some d) None ls).
Proof.
  intros Hme. cbn [serve live f_listeners f_dir]. rewrite decide_True by set_solver.
  do 2 f_equal. set_solver.
Qed.

(** A socket that was opened and could not be set up is closed and unlinked. *)
Lemma set_mode_failed gid d i ls e s' :
  me ∉ ls → exec sv (set_mode c gid) (live me d i ls) = (Some e, s') →
  s' = mkFs (Some d) None ls.
Proof.
  intros Hme. unfold set_mode. cbn [bind do Effects.call exec].
  destruct (sv (Chmod _ _) _) as [[err|] s1] eqn:Ec.
  - assert (s1 = live me d i ls) as ->.
    { cbn [serve] in Ec. unfold attempt, on_path in Ec. rewrite decide_True in Ec by done.
      destruct (h_fails h _); by simplify_eq/=. }
    cbn [bind do Effects.call exec]. rewrite close_live by done. by intros [= _ <-].
  - rewrite exec_bind. by destruct (exec sv (announce c gid) s1).
Qed.

Lemma open_failed gid s e s' :
  me ∉ f_listeners s → exec sv (open_socket c gid) s = (Some e, s') →
  f_listeners s' = f_listeners s ∧ (f_sock s' = f_sock s ∨ f_sock s' = None).
Proof.
  intros Hme. unfold open_socket. cbn [bind do Effects.call exec serve]. unfold attempt at 1.
  destruct (h_fails h (ListenUnix _)) as [?|]; [intros [= _ <-]; auto|].
  destruct (f_dir s) as [d|] eqn:Ed; [|intros [= _ <-]; auto].
  destruct (f_sock s) as [n|] eqn:Es; [intros [= _ <-]; rewrite Es; auto|].
  fold (live me d (new_sock h d) (f_listeners s)).
  cbv beta iota. destruct (0 <=? gid)%Z; [|intros H; apply set_mode_failed in H as ->; auto].
  cbn [bind do Effects.call exec]. destruct (sv (Chown _ _ _) _) as [x s1] eqn:Ec.
  assert (∃ i, s1 = live me d i (f_listeners s)) as [i ->].
  { cbn [serve] in Ec. unfold attempt, on_path in Ec. rewrite decide_True in Ec by done.
    destruct (h_fails h _); injection Ec as <- <-; by eexists. }
  destruct x as [err|]; [|intros H; apply set_mode_failed in H as ->; auto].
  cbn [bind do Effects.call exec]. rewrite close_live by done. intros [= _ <-]. auto.
Qed.

End failure.

(** C17. [Listen] either opens the socket as configured or leaves nothing open.
    Without an error, the path is a socket of this agent's open listener with the
    configured mode, owned by the agent, and its group is the one
    configured (where that is a valid one); with a group, the directory has that
    group and the mode 0750.  With an error, whichever call failed, the open
    listeners are the ones there were before, and what is at the path is what was
    there, or nothing. *)
Theorem Listen_all_or_nothing (h : host) (c : server.Config) (me : nat) (s s' : fs)
    (r : option error)
  (Hdir : filepath.Dir (server.SocketPath c) ≠ server.SocketPath c)
  (Hme : me ∉ f_listeners s)
  (Hrun : exec (serve h (server.SocketPath c) me) (Listen c) s = (r, s')) :
  match r with
  | None =>
      ∃ i d, f_sock s' = Some (mkNode i (Some me)) ∧ f_listeners s' = {[ me ]} ∪ f_listeners s ∧
        f_dir s' = Some d ∧ i_uid i = h_euid h ∧ i_mode i = syscallMode (server.SocketMode c) ∧
        (server.SocketGroup c ≠ "" → ∃ gid,
           (exec (serve h (server.SocketPath c) me) (lookupGID (server.SocketGroup c)) s).1 = Ok gid ∧
           i_mode d = 488%Z ∧
           ((0 ≤ gid)%Z → i_gid i = uint32 gid ∧ i_gid d = uint32 gid))
  | Some _ =>
      f_listeners s' = f_listeners s ∧
      (f_sock s' = f_sock s ∨ f_sock s' = None)
  end.
Proof.
  unfold Listen in Hrun. rewrite exec_bind in Hrun.
  pose proof (prepare_keeps h c me Hdir s) as [Hl Hs].
  destruct (exec _ (prepare c) s) as [[gid|e] s0] eqn:Ep; cbn [snd] in Hl, Hs.
  - destruct r as [e|].
    + apply open_failed in Hrun as [Hl' Ho]; [|congruence..]. split; [congruence|].
      destruct Ho as [->| ->]; auto.
    + apply open_done in Hrun as (d & Hd & -> & _). rewrite Hl.
      exists (chmod (grouped gid (new_sock h d)) (server.SocketMode c)), d.
      do 3 (split; [done|]). split; [unfold grouped; by destruct (0 <=? gid)%Z|]. split; [done|].
      intros Hg. apply (prepare_done h c me Hdir) in Ep as [_ [(? & _)|(_ & Hlk & Hd')]]; [done|].
      rewrite Hd' in Hd. injection Hd as <-. exists gid. do 2 (split; [done|]). intros Hpos.
      unfold grouped. rewrite (proj2 (Z.leb_le _ _) Hpos). cbn.
      by rewrite (proj2 (Z.eqb_neq gid (-1))) by lia.
  - injection Hrun as <- <-. done.
Qed.

(** ** Two agents at one path *)

Definition Close_socket (c : server.Config) : prog SOCK unit :=
  close_listener ;;; remove_socket c.

Lemma Close_unlinks h c me s :
  me ∈ f_listeners s →
  let s' := (exec (serve h (server.SocketPath c) me) (Close_socket c) s).2 in
  f_sock s' = None ∧ f_listeners s' = f_listeners s ∖ {[ me ]}.
Proof.
  intros Hme. unfold Close_socket, close_listener, remove_socket.
  cbn [bind do Effects.call exec serve]. rewrite decide_True by done. unfold attempt. cbn [f_sock].
  destruct (h_fails h (Remove _)) as [[|m]|]; done.
Qed.

(** C40. Closing one agent takes the socket of the agent that replaced it.  When a
    second agent opens the socket while the first is still running (its [Listen]
    removes the path without asking whether anyone listens there) and the first
    is then closed, the second is listening and nobody can connect to it, root
    included: [Close] removes the path, whoever it belongs to. *)
Theorem Close_unlinks_successor (h : host) (c : server.Config) (a b : nat) (s0 s1 s2 s3 : fs) (w : who)
  (Hdir : filepath.Dir (server.SocketPath c) ≠ server.SocketPath c)
  (Hab : a ≠ b) (Hidle : f_listeners s0 = ∅)
  (Ha : exec (serve h (server.SocketPath c) a) (Listen c) s0 = (None, s1))
  (Hb : exec (serve h (server.SocketPath c) b) (Listen c) s1 = (None, s2))
  (Hclose : exec (serve h (server.SocketPath c) a) (Close_socket c) s2 = (tt, s3)) :
  b ∈ f_listeners s3 ∧ can_connect s2 (mkWho 0 []) = true ∧ can_connect s3 w = false.
Proof.
  assert (∀ me s s', exec (serve h (server.SocketPath c) me) (Listen c) s = (None, s') →
    ∃ i d, s' = mkFs (Some d) (Some (mkNode i (Some me))) ({[ me ]} ∪ f_listeners s)) as Hopen.
  { intros me s s' H. unfold Listen in H. rewrite exec_bind in H.
    pose proof (prepare_keeps h c me Hdir s) as [Hl _].
    destruct (exec _ (prepare c) s) as [[gid|e] sp]; [|done]. cbn in Hl.
    apply open_done in H as (d & _ & -> & _). rewrite Hl. by do 2 eexists. }
  apply Hopen in Ha as (i1 & d1 & ->). apply Hopen in Hb as (i2 & d2 & ->). cbn [f_listeners] in *.
  pose proof (Close_unlinks h c a (mkFs (Some d2) (Some (mkNode i2 (Some b)))
    ({[b]} ∪ ({[a]} ∪ f_listeners s0)))) as Hc.
  rewrite Hclose in Hc. destruct Hc as [Hs Hl]; [set_solver|]. cbn [snd f_listeners] in *.
  split; [set_solver|]. split.
  - unfold can_connect. cbn. by rewrite bool_decide_true by set_solver.
  - unfold can_connect. rewrite Hs. by destruct (f_dir s3).
Qed.

(** ** Examples *)

Definition permissive : host := mkHost 0 0 0 (λ _, Err "unknown group") (λ _, None).

(** A host where the directory is there already, for everyone to search. *)
Definition public_dir : fs := mkFs (Some (mkInode 0 0 493 (* 0o755 *))) None ∅.

Definition example_config (group : string) : server.Config :=
  server.mkConfig "/run/kernelseal/kernelseal.sock" 432 (* 0o660 *) group true true true.

Definition example_listen (group : string) (me : nat) (s : fs) : option error * fs :=
  exec (serve permissive (server.SocketPath (example_config group)) me)
    (Listen (example_config group)) s.

Lemma Listen_never_wider_witness :
  can_connect (example_listen "1001" 0 public_dir).2 (mkWho 1000 [1001%Z]) = true.
Proof.
  apply (Listen_never_wider permissive (example_config "1001") 0 public_dir
           (example_listen "1001" 0 public_dir).2
           (mkFs (Some (mkInode 0 1001 488))
              (Some (mkNode (mkInode 0 0 511) (Some 0))) {[ 0 ]})).
  - vm_compute. discriminate.
  - reflexivity.
  - split; reflexivity.
  - right. right. exists 1001%Z. split; [discriminate|]. split; [discriminate|].
    split; [reflexivity|]. by intros d [= <-].
  - vm_compute. reflexivity.
  - vm_compute. repeat first [by left | right].
  - vm_compute. reflexivity.
Defined.

Lemma Listen_all_or_nothing_witness :
  i_gid <$> (n_inode <$> f_sock (example_listen "1001" 0 public_dir).2) = Some 1001%Z.
Proof.
  pose proof (Listen_all_or_nothing permissive (example_config "1001") 0 public_dir
                (example_listen "1001" 0 public_dir).2 None) as H.
  destruct H as (i & d & Hs & _ & _ & _ & _ & Hg).
  - vm_compute. discriminate.
  - set_solver.
  - vm_compute. reflexivity.
  - destruct Hg as (gid & Hl & _ & Hi); [discriminate|]. vm_compute in Hl. injection Hl as <-.
    rewrite Hs. cbn. f_equal. apply Hi. discriminate.
Defined.

Definition replaced : fs := (example_listen "" 1 (example_listen "" 0 public_dir).2).2.

Definition after_close : fs :=
  (exec (serve permissive (server.SocketPath (example_config "")) 0)
     (Close_socket (example_config "")) replaced).2.

Lemma Close_unlinks_successor_witness : can_connect after_close (mkWho 0 []) = false.
Proof.
  apply (Close_unlinks_successor permissive (example_config "") 0 1 public_dir
           (example_listen "" 0 public_dir).2 replaced after_close).
  - vm_compute. discriminate.
  - discriminate.
  - reflexivity.
  - vm_compute. reflexivity.
  - vm_compute. reflexivity.
  - vm_compute. reflexivity.
Defined.

(** Without the shelter of a umask or of the directory, strangers can connect
    until the mode is set: the order of group and mode alone does not prevent it. *)
Theorem Listen_briefly_open :
  ∃ (h : host) (c : server.Config) (s s' s1 : fs) (w : who),
    f_listeners s = ∅ ∧ server.SocketMode c = 432%Z ∧
    exec (serve h (server.SocketPath c) 0) (Listen c) s = (None, s') ∧
    s1 ∈ visits (serve h (server.SocketPath c) 0) (Listen c) s ∧
    can_connect s1 w = true ∧ can_connect s' w = false.
Proof.
  exists permissive, (example_config ""), public_dir, (example_listen "" 0 public_dir).2,
    (mkFs (f_dir public_dir) (Some (mkNode (mkInode 0 0 511) (Some 0))) {[ 0 ]}), (mkWho 1000 [1000%Z]).
  do 2 (split; [reflexivity|]). split; [vm_compute; reflexivity|].
  split; [|split; vm_compute; reflexivity]. vm_compute. repeat first [by left | right].
Qed.

(** With a mode that shuts the group out, members of the configured group can
    connect until the mode is set, in a new directory too. *)
Theorem Listen_briefly_grouped :
  ∃ (h : host) (c : server.Config) (s s' s1 : fs) (w : who),
    f_listeners s = ∅ ∧ f_dir s = None ∧ server.SocketMode c = 384%Z (* 0o600 *) ∧
    exec (serve h (server.SocketPath c) 0) (Listen c) s = (None, s') ∧
    s1 ∈ visits (serve h (server.SocketPath c) 0) (Listen c) s ∧
    can_connect s1 w = true ∧ can_connect s' w = false.
Proof.
  set (c := server.mkConfig "/run/kernelseal/kernelseal.sock" 384 "1001" true true true).
  exists permissive, c, (mkFs None None ∅),
    (exec (serve permissive (server.SocketPath c) 0) (Listen c) (mkFs None None ∅)).2,
    (mkFs (Some (mkInode 0 1001 488)) (Some (mkNode (mkInode 0 0 511) (Some 0))) {[ 0 ]}),
    (mkWho 1000 [1001%Z]).
  do 3 (split; [reflexivity|]). split; [vm_compute; reflexivity|].
  split; [|split; vm_compute; reflexivity]. vm_compute. repeat first [by left | right].
Qed.

(** A negative number is taken for a group and then ignored: the socket keeps the
    group it was made with. *)
Theorem Listen_ignores_negative_group (h : host) (c : server.Config) (s s' : fs) (gid : Z)
  (Hdir : filepath.Dir (server.SocketPath c) ≠ server.SocketPath c)
  (Hgroup : server.SocketGroup c ≠ "")
  (Hgid : strconv.Atoi (server.SocketGroup c) = Some gid) (Hneg : (gid < 0)%Z)
  (Hrun : exec (serve h (server.SocketPath c) 0) (Listen c) s = (None, s')) :
  ∃ i, f_sock s' = Some (mkNode i (Some 0)) ∧ i_gid i = h_egid h.
Proof.
  unfold Listen in Hrun. rewrite exec_bind in Hrun.
  destruct (exec _ (prepare c) s) as [[g|e] s0] eqn:Ep; [|done].
  apply (prepare_done h c 0 Hdir) in Ep as [_ [(? & _)|(_ & Hl & Hd)]]; [done|].
  unfold lookupGID in Hl. rewrite Hgid in Hl. cbn in Hl. injection Hl as <-.
  apply open_done in Hrun as (d & Hd' & -> & _). rewrite Hd in Hd'. injection Hd' as <-.
  eexists. split; [reflexivity|]. unfold grouped.
  by rewrite (proj2 (Z.leb_gt 0 gid)) by lia.
Qed.

End socket.
