(* ===== verification/Types.v ===== *)
(** * Packages types and logging ([src/internal/types], [src/internal/logging])

    The structures shared with the BPF programs and their decoding from the
    bytes the kernel writes.  The kernel's bytes follow the C rules of
    [bpf/kernelseal_common.h] (alignment padding included); Go's
    [binary.Read] knows no padding, so its struct spells it out.  The claims
    show that the two agree for every value. *)

From S2P Require Import Prelude GoStrings.

Module types.

(** ** Enumerations *)

(** [EventType], [AccessType] and [EnforceMode] are bytes. *)
Definition EventExec : Z := 1.
Definition EventExit : Z := 2.
Definition EventBlocked : Z := 3.
Definition EventAudit : Z := 4.

Definition EventType_String (e : Z) : string :=
  if (e =? EventExec)%Z then "EXEC"
  else if (e =? EventExit)%Z then "EXIT"
  else if (e =? EventBlocked)%Z then "BLOCKED"
  else if (e =? EventAudit)%Z then "AUDIT"
  else "UNKNOWN".

Definition AccessEnviron : Z := 0.
Definition AccessMem : Z := 1.
Definition AccessMaps : Z := 2.
Definition AccessPtrace : Z := 3.

Definition AccessType_String (a : Z) : string :=
  if (a =? AccessEnviron)%Z then "environ"
  else if (a =? AccessMem)%Z then "mem"
  else if (a =? AccessMaps)%Z then "maps"
  else if (a =? AccessPtrace)%Z then "ptrace"
  else "unknown".

Definition ModeDisabled : Z := 0.
Definition ModeAudit : Z := 1.
Definition ModeEnforce : Z := 2.

Definition EnforceMode_String (m : Z) : string :=
  if (m =? ModeDisabled)%Z then "disabled"
  else if (m =? ModeAudit)%Z then "audit"
  else if (m =? ModeEnforce)%Z then "enforce"
  else "unknown".

(** ** Structures *)

Record ExecEvent := mkExec {
  ex_Timestamp : Z; ex_PID : Z; ex_TID : Z; ex_PPID : Z; ex_UID : Z; ex_GID : Z;
  ex_Pad0 : Z; ex_CgroupID : Z; ex_EventType : Z; ex_Pad1 : list ascii;
  ex_Comm : list ascii; ex_Filename : list ascii;
}.

Record LSMEvent := mkLSM {
  ls_Timestamp : Z; ls_PID : Z; ls_TID : Z; ls_UID : Z; ls_TargetPID : Z;
  ls_EventType : Z; ls_AccessType : Z; ls_Pad : list ascii;
  ls_Comm : list ascii; ls_Path : list ascii;
}.

Record PolicyConfig := mkPolicy {
  EnforceMode : Z; BlockEnviron : Z; BlockMem : Z; BlockMaps : Z;
  BlockPtrace : Z; AllowSelfRead : Z; AuditAll : Z; Reserved : Z;
}.

Definition NewDefaultPolicy : PolicyConfig := mkPolicy ModeEnforce 1 1 0 1 1 0 0.

Fixpoint cStringToGo (b : list ascii) : string :=
  match b with
  | [] => ""
  | c :: b => if Ascii.eqb c "000" then "" else String c (cStringToGo b)
  end.

Definition Exec_GetComm (e : ExecEvent) : string := cStringToGo (ex_Comm e).
Definition Exec_GetFilename (e : ExecEvent) : string := cStringToGo (ex_Filename e).
Definition LSM_GetComm (e : LSMEvent) : string := cStringToGo (ls_Comm e).
Definition LSM_GetPath (e : LSMEvent) : string := cStringToGo (ls_Path e).

(** ** [binary.Read] with [binary.LittleEndian]

    Fields are read one after the other; a sample that is too short is an
    error. *)

Fixpoint chunks (sizes : list nat) (b : list ascii) : option (list (list ascii)) :=
  match sizes with
  | [] => Some []
  | n :: sizes =>
      if bool_decide (n ≤ length b)
      then l ← chunks sizes (drop n b); Some (take n b :: l)
      else None
  end.

Definition read_ExecEvent (b : list ascii) : option ExecEvent :=
  match chunks [8; 4; 4; 4; 4; 4; 4; 8; 1; 3; 16; 256] b with
  | Some [ts; pid; tid; ppid; uid; gid; pad0; cg; ty; pad1; comm; file] =>
      Some (mkExec (binary.get ts) (binary.get pid) (binary.get tid) (binary.get ppid)
              (binary.get uid) (binary.get gid) (binary.get pad0) (binary.get cg)
              (binary.get ty) pad1 comm file)
  | _ => None
  end.

Definition read_LSMEvent (b : list ascii) : option LSMEvent :=
  match chunks [8; 4; 4; 4; 4; 1; 1; 2; 16; 256] b with
  | Some [ts; pid; tid; uid; target; ty; acc; pad; comm; path] =>
      Some (mkLSM (binary.get ts) (binary.get pid) (binary.get tid) (binary.get uid)
              (binary.get target) (binary.get ty) (binary.get acc) pad comm path)
  | _ => None
  end.

(** [Map.Put] of the policy: its bytes in field order. *)
Definition policy_bytes (p : PolicyConfig) : list ascii :=
  binary.put 1 (EnforceMode p) ++ binary.put 1 (BlockEnviron p) ++ binary.put 1 (BlockMem p)
  ++ binary.put 1 (BlockMaps p) ++ binary.put 1 (BlockPtrace p)
  ++ binary.put 1 (AllowSelfRead p) ++ binary.put 1 (AuditAll p) ++ binary.put 1 (Reserved p).

(** ** The kernel's side: C structs *)

(** The C structs' members; [comm], [filename] and [path] are byte arrays. *)
Record ks_exec_event := mkKsExec {
  kx_timestamp : Z; kx_pid : Z; kx_tid : Z; kx_ppid : Z; kx_uid : Z; kx_gid : Z;
  kx_cgroup_id : Z; kx_event_type : Z; kx_reserved : list ascii;
  kx_comm : list ascii; kx_filename : list ascii;
}.

Record ks_lsm_event := mkKsLsm {
  kl_timestamp : Z; kl_pid : Z; kl_tid : Z; kl_uid : Z; kl_target_pid : Z;
  kl_event_type : Z; kl_access_type : Z; kl_reserved : list ascii;
  kl_comm : list ascii; kl_path : list ascii;
}.

Record ks_policy_config := mkKsPolicy {
  enforce_mode : Z; block_environ : Z; block_mem : Z; block_maps : Z;
  block_ptrace : Z; allow_self_read : Z; audit_all : Z; reserved : Z;
}.

(** The memory of a C struct: each member at the next multiple of its alignment,
    the whole rounded up to the largest one; [junk] is what the padding holds. *)
Definition pad_to (align off : nat) : nat := (align - off mod align) mod align.

Fixpoint c_members (junk : nat → ascii) (off : nat) (l : list (nat * list ascii)) : list ascii :=
  match l with
  | [] => []
  | (align, bytes) :: l =>
      let pad := pad_to align off in
      (junk <$> seq off pad) ++ bytes ++ c_members junk (off + pad + length bytes) l
  end.

Definition c_struct (junk : nat → ascii) (align : nat) (l : list (nat * list ascii)) : list ascii :=
  let body := c_members junk 0 l in
  body ++ (junk <$> seq (length body) (pad_to align (length body))).

Definition exec_bytes (junk : nat → ascii) (e : ks_exec_event) : list ascii :=
  c_struct junk 8
    [(8, binary.put 8 (kx_timestamp e)); (4, binary.put 4 (kx_pid e)); (4, binary.put 4 (kx_tid e));
     (4, binary.put 4 (kx_ppid e)); (4, binary.put 4 (kx_uid e)); (4, binary.put 4 (kx_gid e));
     (8, binary.put 8 (kx_cgroup_id e)); (1, binary.put 1 (kx_event_type e));
     (1, kx_reserved e); (1, kx_comm e); (1, kx_filename e)].

Definition lsm_bytes (junk : nat → ascii) (e : ks_lsm_event) : list ascii :=
  c_struct junk 8
    [(8, binary.put 8 (kl_timestamp e)); (4, binary.put 4 (kl_pid e)); (4, binary.put 4 (kl_tid e));
     (4, binary.put 4 (kl_uid e)); (4, binary.put 4 (kl_target_pid e));
     (1, binary.put 1 (kl_event_type e)); (1, binary.put 1 (kl_access_type e));
     (1, kl_reserved e); (1, kl_comm e); (1, kl_path e)].

(** The kernel's reading of the value of the policy map. *)
Definition read_policy (b : list ascii) : option ks_policy_config :=
  match b with
  | [m; e; me; ma; pt; se; au; re] =>
      let z := λ c, Z.of_N (code c) in
      Some (mkKsPolicy (z m) (z e) (z me) (z ma) (z pt) (z se) (z au) (z re))
  | _ => None
  end.

(** ** Agreement *)

Definition fits (n : nat) (z : Z) : Prop := (0 ≤ z < 256 ^ Z.of_nat n)%Z.

Definition exec_ok (e : ks_exec_event) : Prop :=
  fits 8 (kx_timestamp e) ∧ fits 4 (kx_pid e) ∧ fits 4 (kx_tid e) ∧ fits 4 (kx_ppid e) ∧
  fits 4 (kx_uid e) ∧ fits 4 (kx_gid e) ∧ fits 8 (kx_cgroup_id e) ∧ fits 1 (kx_event_type e) ∧
  length (kx_reserved e) = 3 ∧ length (kx_comm e) = 16 ∧ length (kx_filename e) = 256.

Definition lsm_ok (e : ks_lsm_event) : Prop :=
  fits 8 (kl_timestamp e) ∧ fits 4 (kl_pid e) ∧ fits 4 (kl_tid e) ∧ fits 4 (kl_uid e) ∧
  fits 4 (kl_target_pid e) ∧ fits 1 (kl_event_type e) ∧ fits 1 (kl_access_type e) ∧
  length (kl_reserved e) = 2 ∧ length (kl_comm e) = 16 ∧ length (kl_path e) = 256.

Lemma get_put_fits n z : fits n z → binary.get (binary.put n z) = z.
Proof. intros H. rewrite binary.get_put. by apply Z.mod_small. Qed.

Lemma chunks_cons n sizes b rest :
  length b = n → chunks (n :: sizes) (b ++ rest) = (l ← chunks sizes rest; Some (b :: l)).
Proof.
  intros <-. cbn [chunks]. rewrite bool_decide_true by (rewrite length_app; lia).
  by rewrite drop_app_length, take_app_length.
Qed.

Lemma c_members_step junk off align bytes l pad :
  pad_to align off = pad →
  c_members junk off ((align, bytes) :: l) =
  (junk <$> seq off pad) ++ bytes ++ c_members junk (off + pad + length bytes) l.
Proof. by intros <-. Qed.

(** Lay out the next member, at an offset that is a numeral. *)
Ltac c_step :=
  erewrite c_members_step by (vm_compute; reflexivity);
  rewrite ?binary.length_put;
  repeat match goal with H : length _ = _ |- _ => rewrite H end;
  cbn [Nat.add seq fmap list_fmap app].

(** The members of the two events as the compiler places them. *)
Lemma exec_layout junk e :
  length (kx_reserved e) = 3 → length (kx_comm e) = 16 → length (kx_filename e) = 256 →
  ∃ tail, exec_bytes junk e =
    (binary.put 8 (kx_timestamp e) ++ binary.put 4 (kx_pid e) ++ binary.put 4 (kx_tid e) ++
     binary.put 4 (kx_ppid e) ++ binary.put 4 (kx_uid e) ++ binary.put 4 (kx_gid e) ++
     [junk 28; junk 29; junk 30; junk 31] ++ binary.put 8 (kx_cgroup_id e) ++
     binary.put 1 (kx_event_type e) ++ kx_reserved e ++ kx_comm e ++ kx_filename e) ++ tail.
Proof.
  intros H1 H2 H3. unfold exec_bytes, c_struct.
  match goal with |- context [c_members junk 0 ?l] =>
    remember (c_members junk 0 l) as body eqn:Hbody end.
  revert Hbody. do 11 c_step. cbn [c_members]. rewrite app_nil_r. intros ->. by eexists.
Qed.

Lemma lsm_layout junk e :
  length (kl_reserved e) = 2 → length (kl_comm e) = 16 → length (kl_path e) = 256 →
  ∃ tail, lsm_bytes junk e =
    (binary.put 8 (kl_timestamp e) ++ binary.put 4 (kl_pid e) ++ binary.put 4 (kl_tid e) ++
     binary.put 4 (kl_uid e) ++ binary.put 4 (kl_target_pid e) ++
     binary.put 1 (kl_event_type e) ++ binary.put 1 (kl_access_type e) ++
     kl_reserved e ++ kl_comm e ++ kl_path e) ++ tail.
Proof.
  intros H1 H2 H3. unfold lsm_bytes, c_struct.
  match goal with |- context [c_members junk 0 ?l] =>
    remember (c_members junk 0 l) as body eqn:Hbody end.
  revert Hbody. do 10 c_step. cbn [c_members]. rewrite app_nil_r. intros ->. by eexists.
Qed.

(** The Go event that carries the members of the C event. *)
Definition exec_of (junk : nat → ascii) (e : ks_exec_event) : ExecEvent :=
  mkExec (kx_timestamp e) (kx_pid e) (kx_tid e) (kx_ppid e) (kx_uid e) (kx_gid e)
    (binary.get [junk 28; junk 29; junk 30; junk 31]) (kx_cgroup_id e) (kx_event_type e)
    (kx_reserved e) (kx_comm e) (kx_filename e).

Definition lsm_of (e : ks_lsm_event) : LSMEvent :=
  mkLSM (kl_timestamp e) (kl_pid e) (kl_tid e) (kl_uid e) (kl_target_pid e)
    (kl_event_type e) (kl_access_type e) (kl_reserved e) (kl_comm e) (kl_path e).

Ltac take_chunk :=
  rewrite chunks_cons by (rewrite ?binary.length_put; first [done|reflexivity]).

Lemma read_exec_bytes junk x :
  exec_ok x → read_ExecEvent (exec_bytes junk x) = Some (exec_of junk x).
Proof.
  intros (?&?&?&?&?&?&?&?& H1 & H2 & H3).
  destruct (exec_layout junk x H1 H2 H3) as [tail ->]. unfold read_ExecEvent.
  rewrite <-!app_assoc. do 12 take_chunk. cbn [chunks mbind option_bind].
  rewrite !get_put_fits by done. reflexivity.
Qed.

Lemma read_lsm_bytes junk l :
  lsm_ok l → read_LSMEvent (lsm_bytes junk l) = Some (lsm_of l).
Proof.
  intros (?&?&?&?&?&?&?& H1 & H2 & H3).
  destruct (lsm_layout junk l H1 H2 H3) as [tail ->]. unfold read_LSMEvent.
  rewrite <-!app_assoc. do 10 take_chunk. cbn [chunks mbind option_bind].
  rewrite !get_put_fits by done. reflexivity.
Qed.

(** C30. For every event the kernel can write, with anything in the padding the C
    compiler inserts, [binary.Read] gives the Go struct whose fields are the
    members of the C struct: the one hole of the exec event is where [Pad0]
    is, and the trailing alignment bytes are left unread. *)
Theorem events_decode (junk : nat → ascii) (x : ks_exec_event) (l : ks_lsm_event)
  (Hx : exec_ok x) (Hl : lsm_ok l) :
  read_ExecEvent (exec_bytes junk x) = Some (exec_of junk x) ∧
  read_LSMEvent (lsm_bytes junk l) = Some (lsm_of l).
Proof. split; [by apply read_exec_bytes|by apply read_lsm_bytes]. Qed.

Definition nul (n : nat) : list ascii := replicate n "000"%char.

Lemma events_decode_witness :
  let x := mkKsExec 5 42 43 1 1000 1000 7 EventExec (nul 3) (nul 16) (nul 256) in
  let l := mkKsLsm 5 42 43 0 77 EventBlocked AccessMem (nul 2) (nul 16) (nul 256) in
  read_ExecEvent (exec_bytes (λ _, "255"%char) x) = Some (exec_of (λ _, "255"%char) x) ∧
  read_LSMEvent (lsm_bytes (λ _, "255"%char) l) = Some (lsm_of l).
Proof.
  apply events_decode; repeat split; by vm_compute.
Defined.

(** A sample that is too short is refused, so no field is ever invented. *)
Lemma chunks_short sizes b : length b < sum_list sizes → chunks sizes b = None.
Proof.
  revert b. induction sizes as [|n sizes IH]; intros b Hb; simpl in *; [lia|].
  case_bool_decide; [|done]. by rewrite IH by (rewrite length_drop; lia).
Qed.

(** ** Names *)

Lemma cStringToGo_nul (s : string) rest :
  byte_free "000" s = true →
  cStringToGo (String.list_ascii_of_string s ++ "000"%char :: rest) = s.
Proof.
  unfold byte_free. induction s as [|c s IH]; [done|]. simpl. intros H. breflect.
  rewrite H. f_equal. auto.
Qed.

Lemma cStringToGo_full (s : string) :
  byte_free "000" s = true → cStringToGo (String.list_ascii_of_string s) = s.
Proof.
  unfold byte_free. induction s as [|c s IH]; [done|]. simpl. intros H. breflect.
  rewrite H. f_equal. auto.
Qed.

End types.

Module logging.

(** [Level] *)
Definition LevelDebug : Z := 0.
Definition LevelInfo : Z := 1.
Definition LevelWarn : Z := 2.
Definition LevelError : Z := 3.

Definition Level_String (l : Z) : string :=
  if (l =? LevelDebug)%Z then "debug"
  else if (l =? LevelInfo)%Z then "info"
  else if (l =? LevelWarn)%Z then "warn"
  else if (l =? LevelError)%Z then "error"
  else "unknown".

Definition Parse (s : string) : Z * option error :=
  let t := strings.ToLower (strings.TrimSpace s) in
  if decide (t = "debug") then (LevelDebug, None)
  else if decide (t = "info" ∨ t = "") then (LevelInfo, None)
  else if decide (t = "warn" ∨ t = "warning") then (LevelWarn, None)
  else if decide (t = "error") then (LevelError, None)
  else (LevelInfo,
        Some ("unknown log level " +:+ fmt.q s +:+ ": want debug, info, warn or error")).

(** The package variable [current]; [init] sets it to info. *)
Definition initial : Z := LevelInfo.
Definition SetLevel (current l : Z) : Z := l.
Definition GetLevel (current : Z) : Z := current.
Definition Enabled (current l : Z) : bool := (GetLevel current <=? l)%Z.

(** [emit]: the line, when the level is enabled. *)
Definition emit {A} (current l : Z) (line : A) : option A :=
  if negb (Enabled current l) then None else Some line.

Definition Debugf {A} (current : Z) (line : A) := emit current LevelDebug line.
Definition Infof {A} (current : Z) (line : A) := emit current LevelInfo line.
Definition Warnf {A} (current : Z) (line : A) := emit current LevelWarn line.
Definition Errorf {A} (current : Z) (line : A) := emit current LevelError line.

(** The level a configuration selects. *)
Definition configured (s : string) : Z := SetLevel initial (Parse s).1.

(** Whatever the configuration says, and however it is misspelled, an error
    is always written, and a configured name selects its own level: its printed
    form parses back to it without an error. *)
Theorem Parse_safe (s : string) :
  Enabled (configured s) LevelError = true ∧
  ((Parse s).2 ≠ None → configured s = LevelInfo) ∧
  Parse (Level_String (Parse s).1) = ((Parse s).1, None).
Proof.
  assert (∃ l, (Parse s).1 = l ∧ l ∈ [LevelDebug; LevelInfo; LevelWarn; LevelError] ∧
               ((Parse s).2 ≠ None → l = LevelInfo)) as (l & Hl & Hin & He).
  { unfold Parse. repeat case_decide; eexists; (split; [reflexivity|]);
      (split; [apply (bool_decide_unpack _); by vm_compute|done]). }
  unfold configured, SetLevel. rewrite Hl. clear Hl. split; [|split; [done|]];
    clear He; revert l Hin; apply Forall_forall; repeat constructor.
Qed.

End logging.
