(* ===== verification/Policy.v ===== *)
(** * The policy manager ([src/internal/policy.go])

    Configuration, pod identity modes, resolution of secret values, and the
    bindings the registry is loaded with.  The YAML and JSON parsers are not
    part of the repository: each is an argument that, like the library call,
    updates its target and may report an error.  Log lines are left out. *)

From S2P Require Import Prelude GoStrings Effects Os Kube Secrets Types.
Import secrets.

Module policy.

Local Open Scope prog_scope.

(** ** Configuration *)

Record PolicySpec := mkSpec {
  Mode : string;
  BlockEnviron : bool; BlockMem : bool; BlockMaps : bool; BlockPtrace : bool;
  AllowSelfRead : bool; AuditAll : bool; KernelBinaryFilter : bool;
  PodIdentity : string;
}.

Record SecretKeyRef := mkKeyRef { kr_Name : string; kr_Key : string; kr_Namespace : string }.
Record VaultRef := mkVault { vr_Path : string; vr_Key : string }.

Record SecretSource := mkSource {
  src_Value : string;
  src_SecretKeyRef : option SecretKeyRef;
  src_FileRef : string;
  src_EnvRef : string;
  src_VaultRef : option VaultRef;
}.

Record SecretRef := mkRef { ref_Name : string; ref_Source : SecretSource }.

Record ProcessSelector := mkProc {
  ps_Binary : string; ps_Container : string; ps_Labels : gmap string string;
  ps_Namespace : string; ps_CgroupPath : string;
}.

Record SecretBinding := mkSB {
  sb_Name : string; sb_Selector : ProcessSelector; sb_SecretRefs : list SecretRef;
}.

Record MonitoringConfig := mkMon {
  Enabled : bool; MetricsPort : Z; LogLevel : string; AuditLog : string;
}.

Record KernelSealConfig := mkKSC {
  Version : string; cfg_Policy : PolicySpec;
  cfg_Secrets : list SecretBinding; Monitoring : MonitoringConfig;
}.

(** The manager; [registry] is [None] for nil, [has_callback] whether one is set. *)
Record PolicyManager := mkPM {
  config : KernelSealConfig;
  configPath : string;
  registry : option Registry;
  has_callback : bool;
}.

Definition DefaultConfig : KernelSealConfig := {|
  Version := "v1";
  cfg_Policy := mkSpec "enforce" true true false true true false true "preferred";
  cfg_Secrets := [];
  Monitoring := mkMon true 9090 "info" "/var/log/kernelseal/audit.log";
|}.

Definition NewPolicyManager (r : option Registry) : PolicyManager :=
  mkPM DefaultConfig "" r false.

Definition SetPolicyUpdateCallback (pm : PolicyManager) : PolicyManager :=
  mkPM (config pm) (configPath pm) (registry pm) true.

(** ** Pod identity modes *)

Inductive PodIdentityMode := PodIdentityPreferred | PodIdentityRequired | PodIdentityDisabled.

#[global] Instance PodIdentityMode_eq_dec : EqDecision PodIdentityMode.
Proof. solve_decision. Defined.

Definition Mode_String (m : PodIdentityMode) : string :=
  match m with
  | PodIdentityRequired => "required"
  | PodIdentityDisabled => "disabled"
  | PodIdentityPreferred => "preferred"
  end.

Definition parsePodIdentity (s : string) : PodIdentityMode * option error :=
  let t := strings.ToLower (strings.TrimSpace s) in
  if decide (t = "" ∨ t = "preferred") then (PodIdentityPreferred, None)
  else if decide (t = "required") then (PodIdentityRequired, None)
  else if decide (t = "disabled") then (PodIdentityDisabled, None)
  else (PodIdentityRequired,
        Some ("unknown podIdentity " +:+ fmt.q s +:+ "; want required, preferred or disabled")).

(** [pm.PodIdentityMode()] *)
Definition identityMode (pm : PolicyManager) : PodIdentityMode :=
  (parsePodIdentity (PodIdentity (cfg_Policy (config pm)))).1.

(** ** The policy for the kernel *)

Definition boolToUint8 (b : bool) : Z := if b then 1 else 0.

Definition enforce_mode_of (mode : string) : Z :=
  let t := strings.ToLower mode in
  if decide (t = "disabled") then types.ModeDisabled
  else if decide (t = "audit") then types.ModeAudit
  else if decide (t = "enforce") then types.ModeEnforce
  else types.ModeEnforce.

Definition GetBPFPolicy (pm : PolicyManager) : types.PolicyConfig :=
  let p := cfg_Policy (config pm) in
  {| types.EnforceMode := enforce_mode_of (Mode p);
     types.BlockEnviron := boolToUint8 (BlockEnviron p);
     types.BlockMem := boolToUint8 (BlockMem p);
     types.BlockMaps := boolToUint8 (BlockMaps p);
     types.BlockPtrace := boolToUint8 (BlockPtrace p);
     types.AllowSelfRead := boolToUint8 (AllowSelfRead p);
     types.AuditAll := boolToUint8 (AuditAll p);
     types.Reserved := 0 |}.

Definition GetConfig (pm : PolicyManager) : KernelSealConfig := config pm.

Definition IsKernelBinaryFilterEnabled (pm : PolicyManager) : bool :=
  KernelBinaryFilter (cfg_Policy (config pm)).

(** The loop of [GetTargetBinaries]; [seen] is the map of the names emitted. *)
Definition target_step (acc : gset string * list string) (b : SecretBinding)
    : gset string * list string :=
  let '(seen, out) := acc in
  let name := ps_Binary (sb_Selector b) in
  if decide (name ≠ "" ∧ name ∉ seen) then ({[name]} ∪ seen, out ++ [name]) else acc.

Definition GetTargetBinaries (pm : PolicyManager) : list string :=
  (foldl target_step (∅, []) (cfg_Secrets (config pm))).2.

Definition SecretsFor (pm : PolicyManager) (binaryName : string) (caller : Caller) : Match :=
  match registry pm with
  | None => empty_match
  | Some r => Lookup r binaryName caller
  end.

(** ** Which bindings can serve *)

Definition names_nothing : string :=
  "the selector names neither a binary nor a pod, so it matches nothing".
Definition selects_root : string :=
  "cgroupPath selects the root cgroup, which every process on the host is under; name the pod's own cgroup, or select on namespace and labels instead".
Definition no_pod_required : string :=
  "policy.podIdentity is required, but this selector names no pod; add namespace, labels, container or cgroupPath so the binding cannot be claimed by any pod that reaches the socket".
Definition pod_disabled : string :=
  "policy.podIdentity is disabled, so pod selectors cannot be evaluated and this binding would never match; set podIdentity to preferred or required".
Definition binary_only : string :=
  "policy.podIdentity is disabled, so only the binary selector is usable".

Definition rejectionFor (s : Selector) (mode : PodIdentityMode) : string :=
  if bool_decide (sel_Binary s = "") && negb (IsPodScoped s) then names_nothing
  else if bool_decide (sel_CgroupPath s ≠ "")
          && bool_decide (strings.TrimSuffix (strings.TrimSpace (sel_CgroupPath s)) "/" = "")
  then selects_root
  else match mode with
       | PodIdentityRequired => if negb (IsPodScoped s) then no_pod_required else ""
       | PodIdentityDisabled =>
           if IsPodScoped s then pod_disabled
           else if decide (sel_Binary s = "") then binary_only else ""
       | PodIdentityPreferred => ""
       end.

(** ** Effects: the operating system and the update callback *)

Inductive call :=
| OS (c : os.call)
| OnPolicyUpdate (p : types.PolicyConfig).

Definition answer (c : call) : Type :=
  match c with OS c => os.answer c | OnPolicyUpdate _ => unit end.

Definition POL : sig := Sig call answer.

Definition lift_os {A} (p : prog os.OS A) : prog POL A :=
  interp (Σ1:=os.OS) (Σ2:=POL) (λ c, Effects.call (Σ:=POL) (OS c)) p.

(** ** Values *)

Definition resolveSecretValue (source : SecretSource) : prog os.OS (result string error) :=
  if decide (src_Value source ≠ "") then Ret (Ok (src_Value source))
  else if decide (src_EnvRef source ≠ "") then
    value <- os.getenv (src_EnvRef source) ;;
    Ret (if decide (value = "")
         then Err ("environment variable " +:+ src_EnvRef source +:+ " not set")
         else Ok value)
  else if decide (src_FileRef source ≠ "") then
    data <- os.readFile (src_FileRef source) ;;
    Ret (match data with
         | Err e => Err ("failed to read file " +:+ src_FileRef source +:+ ": "
                         +:+ os.errno_text e)
         | Ok data => Ok (strings.TrimSpace data)
         end)
  else match src_SecretKeyRef source with
  | Some ref =>
      mounted <- os.readFile ("/var/run/secrets/kernelseal/" +:+ kr_Name ref +:+ "/" +:+ kr_Key ref) ;;
      match mounted with
      | Ok data => Ret (Ok (strings.TrimSpace data))
      | Err _ =>
          alt <- os.readFile ("/var/run/secrets/kubernetes.io/serviceaccount/" +:+ kr_Key ref) ;;
          Ret (match alt with
               | Ok data => Ok (strings.TrimSpace data)
               | Err _ => Err ("kubernetes secret " +:+ kr_Name ref +:+ "/" +:+ kr_Key ref
                               +:+ " not found")
               end)
      end
  | None =>
      match src_VaultRef source with
      | Some _ => Ret (Err "vault integration not yet implemented")
      | None => Ret (Err "no valid secret source specified")
      end
  end.

(** The inner loop of [loadSecrets]. *)
Fixpoint resolve_refs (refs : list SecretRef) (secs : list Secret) (unresolved : list string)
    : prog os.OS (list Secret * list string) :=
  match refs with
  | [] => Ret (secs, unresolved)
  | ref :: refs =>
      value <- resolveSecretValue (ref_Source ref) ;;
      match value with
      | Err _ => resolve_refs refs secs (unresolved ++ [ref_Name ref])
      | Ok v => resolve_refs refs (secs ++ [mkSecret (ref_Name ref) v]) unresolved
      end
  end.

Definition selector_of (p : ProcessSelector) : Selector :=
  mkSelector (ps_Binary p) (ps_Container p) (ps_Namespace p) (ps_Labels p) (ps_CgroupPath p).

Definition binding_name (i : nat) (b : SecretBinding) : string :=
  if decide (sb_Name b = "") then "secrets[" +:+ fmt.d (Z.of_nat i) +:+ "]" else sb_Name b.

Fixpoint build (mode : PodIdentityMode) (i : nat) (bs : list SecretBinding)
    : prog os.OS (list Binding) :=
  match bs with
  | [] => Ret []
  | b :: bs =>
      r <- resolve_refs (sb_SecretRefs b) [] [] ;;
      let '(secs, unresolved) := r in
      let selector := selector_of (sb_Selector b) in
      let out := mkBinding (binding_name i b) selector secs unresolved
                   (rejectionFor selector mode) in
      rest <- build mode (S i) bs ;;
      Ret (out :: rest)
  end.

Definition loadSecrets (pm : PolicyManager) : prog os.OS PolicyManager :=
  match registry pm with
  | None => Ret pm
  | Some r =>
      built <- build (identityMode pm) 0 (cfg_Secrets (config pm)) ;;
      Ret (mkPM (config pm) (configPath pm) (Some (Replace r built)) (has_callback pm))
  end.

Definition applyPolicy (pm : PolicyManager) : prog POL unit :=
  if has_callback pm then Effects.call (Σ:=POL) (OnPolicyUpdate (GetBPFPolicy pm))
  else Ret tt.

(** ** Loading *)

Section loading.
Context (yaml_config json_config :
  string → KernelSealConfig → KernelSealConfig * option error).
Context (yaml_policy : string → PolicySpec → PolicySpec * option error).
Context (yaml_bindings : string → list SecretBinding * option error).
Context (yaml_monitoring : string → MonitoringConfig → MonitoringConfig * option error).

(** [Unmarshal(data, config)] followed by the check of its error. *)
Definition parsed (what : string) (r : KernelSealConfig * option error)
    : result KernelSealConfig error :=
  match r with
  | (c, None) => Ok c
  | (_, Some e) => Err ("failed to parse " +:+ what +:+ " config: " +:+ e)
  end.

Definition loadConfigFromFile (path : string) : prog os.OS (result KernelSealConfig error) :=
  data <- os.readFile path ;;
  Ret (match data with
       | Err e => Err (os.errno_text e)
       | Ok data =>
           let ext := strings.ToLower (filepath.Ext path) in
           if decide (ext = ".yaml" ∨ ext = ".yml")
           then parsed "YAML" (yaml_config data DefaultConfig)
           else if decide (ext = ".json")
           then parsed "JSON" (json_config data DefaultConfig)
           else Err ("unsupported config format: " +:+ ext)
       end).

Definition loadConfigFromDir (dir : string) : prog os.OS (result KernelSealConfig error) :=
  let d := DefaultConfig in
  pol <- os.readFile (filepath.Join [dir; "policy.yaml"]) ;;
  let policy := match pol with
                | Ok data => (yaml_policy data (cfg_Policy d)).1
                | Err _ => cfg_Policy d
                end in
  sec <- os.readFile (filepath.Join [dir; "secrets.yaml"]) ;;
  let secs := match sec with
              | Ok data => match yaml_bindings data with
                           | (l, None) => l
                           | (_, Some _) => cfg_Secrets d
                           end
              | Err _ => cfg_Secrets d
              end in
  mon <- os.readFile (filepath.Join [dir; "monitoring.yaml"]) ;;
  let monitoring := match mon with
                    | Ok data => (yaml_monitoring data (Monitoring d)).1
                    | Err _ => Monitoring d
                    end in
  Ret (Ok (mkKSC (Version d) policy secs monitoring)).

Definition LoadConfig (pm : PolicyManager) (path : string)
    : prog POL (PolicyManager * option error) :=
  info <- lift_os (os.stat path) ;;
  match info with
  | Err e => Ret (pm, Some ("failed to stat config path: " +:+ os.errno_text e))
  | Ok isDir =>
      c <- lift_os (if (isDir : bool) then loadConfigFromDir path else loadConfigFromFile path) ;;
      match c with
      | Err e => Ret (pm, Some e)
      | Ok c =>
          let pm := mkPM c path (registry pm) (has_callback pm) in
          applyPolicy pm ;;;
          pm <- lift_os (loadSecrets pm) ;;
          Ret (pm, None)
      end
  end.

End loading.

(** ** What makes a binding servable under a mode *)

Definition servable (s : Selector) (mode : PodIdentityMode) : Prop :=
  (sel_Binary s ≠ "" ∨ IsPodScoped s = true) ∧
  (sel_CgroupPath s = "" ∨
   strings.TrimSuffix (strings.TrimSpace (sel_CgroupPath s)) "/" ≠ "") ∧
  match mode with
  | PodIdentityRequired => IsPodScoped s = true
  | PodIdentityDisabled => IsPodScoped s = false
  | PodIdentityPreferred => True
  end.

Lemma rejectionFor_iff s mode : rejectionFor s mode = "" ↔ servable s mode.
Proof.
  unfold rejectionFor, servable.
  destruct (IsPodScoped s); repeat case_bool_decide; simpl;
    destruct mode; simpl; repeat case_decide; simpl;
    split; intros; repeat split; try done; intuition congruence.
Qed.

(** ** Loading the registry *)

(** The references of a binding, in order, each resolved to a value or not. *)
Inductive sorted_out : list SecretRef → list Secret → list string → Prop :=
| so_nil : sorted_out [] [] []
| so_value ref refs v tr secs un :
    runs (resolveSecretValue (ref_Source ref)) tr (Ok v) → sorted_out refs secs un →
    sorted_out (ref :: refs) (mkSecret (ref_Name ref) v :: secs) un
| so_missing ref refs e tr secs un :
    runs (resolveSecretValue (ref_Source ref)) tr (Err e) → sorted_out refs secs un →
    sorted_out (ref :: refs) secs (ref_Name ref :: un).

Lemma runs_resolve_refs refs secs un tr secs' un' :
  runs (resolve_refs refs secs un) tr (secs', un') →
  ∃ s u, secs' = secs ++ s ∧ un' = un ++ u ∧ sorted_out refs s u.
Proof.
  revert secs un tr. induction refs as [|ref refs IH]; intros secs un tr; cbn [resolve_refs].
  - intros [-> [= -> ->]]. exists [], []. rewrite !app_nil_r. split; [done|].
    split; [done|constructor].
  - intros (t1 & t2 & [v|e] & -> & H1 & H2)%runs_bind.
    + destruct (IH _ _ _ H2) as (s & u & -> & -> & H).
      exists (mkSecret (ref_Name ref) v :: s), u. rewrite <-app_assoc.
      split; [done|]. split; [done|]. by eapply so_value.
    + destruct (IH _ _ _ H2) as (s & u & -> & -> & H).
      exists s, (ref_Name ref :: u). rewrite <-app_assoc.
      split; [done|]. split; [done|]. by eapply so_missing.
Qed.

Lemma sorted_out_names refs s u :
  sorted_out refs s u → (sec_Name <$> s) ++ u ≡ₚ ref_Name <$> refs.
Proof.
  induction 1; simpl; [done|by f_equiv|]. rewrite <-Permutation_middle. by f_equiv.
Qed.

(** The registry's binding for the [i]th binding of the configuration. *)
Definition loaded (mode : PodIdentityMode) (i : nat) (b : SecretBinding) (out : Binding) : Prop :=
  b_Name out = binding_name i b ∧ b_Selector out = selector_of (sb_Selector b) ∧
  sorted_out (sb_SecretRefs b) (b_Secrets out) (b_Unresolved out) ∧
  (b_Rejected out = "" ↔ servable (b_Selector out) mode).

Lemma runs_build mode i bs tr outs :
  runs (build mode i bs) tr outs →
  length outs = length bs ∧
  ∀ k b out, bs !! k = Some b → outs !! k = Some out → loaded mode (i + k) b out.
Proof.
  revert i tr outs. induction bs as [|b bs IH]; intros i tr outs; cbn [build].
  - intros [-> ->]. split; [done|]. intros k b out. by rewrite lookup_nil.
  - intros (t1 & t2 & [secs un] & -> & H1 & H2)%runs_bind.
    apply runs_bind in H2 as (t3 & t4 & rest & -> & H3 & -> & ->).
    destruct (IH _ _ _ H3) as [Hlen Hk]. split; [simpl; by rewrite Hlen|].
    intros [|k] b' out; simpl.
    + intros [= <-] [= <-]. rewrite Nat.add_0_r.
      apply runs_resolve_refs in H1 as (s & u & -> & -> & Hs).
      split; [done|]. split; [done|]. split; [done|]. apply rejectionFor_iff.
    + intros Hb Ho. rewrite Nat.add_succ_r. by apply (Hk k).
Qed.

Lemma runs_loadSecrets pm tr pm' r :
  runs (loadSecrets pm) tr pm' → registry pm = Some r →
  config pm' = config pm ∧ ∃ outs, registry pm' = Some (mkRegistry outs) ∧
    length outs = length (cfg_Secrets (config pm)) ∧
    ∀ k b out, cfg_Secrets (config pm) !! k = Some b → outs !! k = Some out →
      loaded (identityMode pm) k b out.
Proof.
  unfold loadSecrets. intros H Hr. rewrite Hr in H.
  apply runs_bind in H as (t1 & t2 & outs & -> & H1 & -> & ->).
  apply runs_build in H1 as [Hlen Hk]. split; [done|]. by exists outs.
Qed.

(** Loading never drops a binding: the registry holds one entry per binding
    of the configuration, in order, with its name (or its index) and selector,
    every one of its references either a secret or listed as unresolved and
    never both, and the mark that keeps it from serving set exactly when the
    binding cannot serve under the active identity mode. *)
Theorem loadSecrets_keeps_bindings (pm pm' : PolicyManager) (tr : trace os.OS) (r : Registry)
  (Hrun : runs (loadSecrets pm) tr pm') (Hr : registry pm = Some r) :
  ∃ outs, registry pm' = Some (mkRegistry outs) ∧
    length outs = length (cfg_Secrets (config pm)) ∧
    ∀ k b out, cfg_Secrets (config pm) !! k = Some b → outs !! k = Some out →
      b_Name out = binding_name k b ∧ b_Selector out = selector_of (sb_Selector b) ∧
      (sec_Name <$> b_Secrets out) ++ b_Unresolved out ≡ₚ ref_Name <$> sb_SecretRefs b ∧
      (b_Rejected out = "" ↔ servable (b_Selector out) (identityMode pm)).
Proof.
  destruct (runs_loadSecrets _ _ _ _ Hrun Hr) as (_ & outs & Ho & Hlen & Hk).
  exists outs. split; [done|]. split; [done|]. intros k b out Hb Hout.
  destruct (Hk k b out Hb Hout) as (? & ? & Hs & ?).
  split; [done|]. split; [done|]. split; [by apply sorted_out_names|done].
Qed.

(** An example configuration: a binding without a pod, and one with. *)
Definition example_source (value env : string) : SecretSource :=
  mkSource value None "" env None.

Definition example_config (identity : string) : KernelSealConfig :=
  mkKSC "v1" (mkSpec "enforce" true true false true true false true identity)
    [mkSB "" (mkProc "psql" "" ∅ "" "") [mkRef "A" (example_source "a" "")];
     mkSB "db" (mkProc "psql" "" ∅ "shop" "")
       [mkRef "B" (example_source "" "B_VALUE"); mkRef "C" (example_source "" "UNSET")]]
    (mkMon true 9090 "info" "").

Definition example_pm (identity : string) : PolicyManager :=
  mkPM (example_config identity) "/etc/kernelseal/config.yaml" (Some NewRegistry) false.

Definition example_world : os.world :=
  os.mkWorld ∅ ∅ ∅ {[ "B_VALUE" := "b" ]} ∅ ∅.

Lemma loadSecrets_keeps_bindings_witness :
  ∃ pm' outs, registry pm' = Some (mkRegistry outs) ∧
    b_Name <$> outs = ["secrets[0]"; "db"] ∧ length outs = 2 ∧
    ∀ k b out, cfg_Secrets (example_config "required") !! k = Some b → outs !! k = Some out →
      b_Name out = binding_name k b ∧ b_Selector out = selector_of (sb_Selector b) ∧
      (sec_Name <$> b_Secrets out) ++ b_Unresolved out ≡ₚ ref_Name <$> sb_SecretRefs b ∧
      (b_Rejected out = "" ↔ servable (b_Selector out) (identityMode (example_pm "required"))).
Proof.
  pose proof (traced_runs os.serve (loadSecrets (example_pm "required")) example_world) as H.
  remember (traced os.serve (loadSecrets (example_pm "required")) example_world) as x eqn:Hx.
  vm_compute in Hx. subst x. cbn [fst snd] in H.
  destruct (loadSecrets_keeps_bindings (example_pm "required") _ _ NewRegistry H eq_refl)
    as (outs & Ho & Hlen & Hk).
  eexists _, outs. split; [exact Ho|]. injection Ho as <-.
  split; [reflexivity|]. split; [reflexivity|]. exact Hk.
Defined.

(** C31. Required mode holds through the whole path from the configuration to the
    lookup: once the bindings are loaded under it, a secret is released to a
    caller only through a configured binding that constrains the pod and whose
    constraints that caller meets; a caller without a pod can only be admitted
    by its cgroup path. *)
Theorem required_mode_releases (pm pm' : PolicyManager) (tr : trace os.OS) (r : Registry)
    (bin : string) (caller : Caller) (sec : Secret)
  (Hrun : runs (loadSecrets pm) tr pm') (Hr : registry pm = Some r)
  (Hmode : identityMode pm = PodIdentityRequired)
  (Hsec : sec ∈ m_Secrets (SecretsFor pm' bin caller)) :
  ∃ b, b ∈ cfg_Secrets (config pm) ∧ sec_Name sec ∈ ref_Name <$> sb_SecretRefs b ∧
    let s := selector_of (sb_Selector b) in
    IsPodScoped s = true ∧ admitted s caller ∧
    (caller_Pod caller = None →
       sel_CgroupPath s ≠ "" ∧ sel_Namespace s = "" ∧ sel_Labels s = ∅ ∧ sel_Container s = "").
Proof.
  destruct (runs_loadSecrets _ _ _ _ Hrun Hr) as (_ & outs & Ho & Hlen & Hk).
  unfold SecretsFor in Hsec. rewrite Ho in Hsec.
  apply elem_of_lookup_Secrets in Hsec as (out & Hout & Hserves & Hin).
  apply list_elem_of_lookup_1 in Hout as [k Hkout]. simpl in Hkout.
  destruct (lookup_lt_is_Some_2 (cfg_Secrets (config pm)) k) as [b Hb].
  { rewrite <-Hlen. by eapply lookup_lt_Some. }
  destruct (Hk k b out Hb Hkout) as (_ & Hsel & Hs & Hrej).
  apply serves_iff in Hserves as (_ & Hr0 & Hadm). apply Hrej in Hr0 as (_ & _ & Hscoped).
  rewrite Hmode in Hscoped. rewrite Hsel in Hscoped, Hadm.
  exists b. split; [by eapply list_elem_of_lookup_2|]. split.
  { rewrite <-(sorted_out_names _ _ _ Hs). apply elem_of_app. left.
    by apply list_elem_of_fmap_2. }
  split; [done|]. split; [done|]. intros Hnone.
  destruct (without_pod _ _ Hadm Hnone) as (Hn & Hl & Hc). split; [|done].
  unfold IsPodScoped in Hscoped. rewrite Hn, Hl, Hc, map_size_empty in Hscoped.
  simpl in Hscoped. rewrite !orb_false_r in Hscoped. simpl in Hscoped.
  by apply bool_decide_eq_true in Hscoped.
Qed.

Definition example_caller : Caller :=
  mkCaller "/kubepods/podX/c1" 7 false "X" "c1" (Some (kube.mkPod "X" "web" "shop" ∅ ∅)).

Lemma required_mode_releases_witness :
  ∃ pm', runs (loadSecrets (example_pm "requierd")) (traced os.serve
           (loadSecrets (example_pm "requierd")) example_world).1.1 pm' ∧
    m_Secrets (SecretsFor pm' "psql" example_caller) = [mkSecret "B" "b"] ∧
    ∃ b, b ∈ cfg_Secrets (example_config "requierd") ∧
      "B" ∈ ref_Name <$> sb_SecretRefs b ∧
      let s := selector_of (sb_Selector b) in
      IsPodScoped s = true ∧ admitted s example_caller ∧
      (caller_Pod example_caller = None →
         sel_CgroupPath s ≠ "" ∧ sel_Namespace s = "" ∧ sel_Labels s = ∅ ∧ sel_Container s = "").
Proof.
  pose proof (traced_runs os.serve (loadSecrets (example_pm "requierd")) example_world) as H.
  eexists. split; [exact H|]. split; [vm_compute; reflexivity|].
  apply (required_mode_releases (example_pm "requierd") _ _ NewRegistry "psql"
           example_caller (mkSecret "B" "b") H eq_refl).
  - vm_compute. reflexivity.
  - apply (bool_decide_unpack _). vm_compute. exact I.
Defined.

(** ** Loading a configuration *)

Lemma only_lift_os {A} (p : prog os.OS A) :
  only (Σ:=POL) (λ c, ∃ o, c = OS o) (lift_os p).
Proof.
  unfold lift_os. apply interp_only. intros o. simpl. split; [eauto|done].
Qed.

Lemma runs_policy_os {A} (p : prog os.OS A) tr a :
  runs (lift_os p) tr a →
  ∃ tr', runs p tr' a ∧
    tr = (λ e : event os.OS, Event (Σ:=POL) (OS (ev_op e)) (ev_ans e)) <$> tr'.
Proof.
  unfold lift_os. revert tr. induction p as [x|o k IH]; intros tr; simpl.
  - intros [-> ->]. by exists [].
  - intros (x & tr' & -> & H). destruct (IH x tr' H) as (t & Ht & ->).
    exists (Event o x :: t). split; [by exists x, t|done].
Qed.

(** The policies handed to the callback, in order. *)
Definition updates (tr : trace POL) : list types.PolicyConfig :=
  omap (λ e : event POL, match ev_op e with OnPolicyUpdate p => Some p | OS _ => None end) tr.

Lemma updates_lift_os {A} (p : prog os.OS A) tr a :
  runs (lift_os p) tr a → updates tr = [].
Proof.
  intros H. pose proof (only_runs _ _ _ _ (only_lift_os p) H) as Hall.
  clear H. induction Hall as [|e tr [o He] _ IH]; [done|]. unfold updates in *. simpl.
  by rewrite He.
Qed.

Lemma updates_app tr1 tr2 : updates (tr1 ++ tr2) = updates tr1 ++ updates tr2.
Proof. apply omap_app. Qed.

Section loading_props.
Context (yaml_config json_config :
  string → KernelSealConfig → KernelSealConfig * option error).
Context (yaml_policy : string → PolicySpec → PolicySpec * option error).
Context (yaml_bindings : string → list SecretBinding * option error).
Context (yaml_monitoring : string → MonitoringConfig → MonitoringConfig * option error).

(** What was read of a file or a path during a load. *)
Definition stat_of (path : string) (a : result bool os.errno) : event POL :=
  Event (Σ:=POL) (OS (os.Stat path)) a.
Definition read_of (path : string) (a : result string os.errno) : event POL :=
  Event (Σ:=POL) (OS (os.ReadFile path)) a.

Definition stat_answer (e : event POL) : option (result bool os.errno) :=
  match e with
  | Event o x =>
      match o return answer o → option (result bool os.errno) with
      | OS (os.Stat _) => Some
      | _ => λ _, None
      end x
  end.

Definition read_answer (e : event POL) : option (result string os.errno) :=
  match e with
  | Event o x =>
      match o return answer o → option (result string os.errno) with
      | OS (os.ReadFile _) => Some
      | _ => λ _, None
      end x
  end.

(** The configuration a file stands for: what the parser of its extension makes
    of its text, starting from the defaults. *)
Definition file_config (path text : string) (c : KernelSealConfig) : Prop :=
  let ext := strings.ToLower (filepath.Ext path) in
  (ext = ".yaml" ∨ ext = ".yml") ∧ yaml_config text DefaultConfig = (c, None) ∨
  ext = ".json" ∧ json_config text DefaultConfig = (c, None).

(** The configuration a directory stands for, member by member: a file that
    cannot be read leaves the default, and so do bindings that do not parse. *)
Definition dir_config (pol sec mon : result string os.errno) (c : KernelSealConfig) : Prop :=
  Version c = Version DefaultConfig ∧
  match pol with
  | Ok text => cfg_Policy c = (yaml_policy text (cfg_Policy DefaultConfig)).1
  | Err _ => cfg_Policy c = cfg_Policy DefaultConfig
  end ∧
  match sec with
  | Ok text => match yaml_bindings text with
               | (l, None) => cfg_Secrets c = l
               | (_, Some _) => cfg_Secrets c = []
               end
  | Err _ => cfg_Secrets c = []
  end ∧
  match mon with
  | Ok text => Monitoring c = (yaml_monitoring text (Monitoring DefaultConfig)).1
  | Err _ => Monitoring c = Monitoring DefaultConfig
  end.

(** What the trace [tr] shows to be configured at [path]. *)
Definition configured (path : string) (tr : trace POL) (c : KernelSealConfig) : Prop :=
  (∃ text, stat_of path (Ok false) ∈ tr ∧ read_of path (Ok text) ∈ tr ∧ file_config path text c) ∨
  (∃ pol sec mon, stat_of path (Ok true) ∈ tr ∧
     read_of (filepath.Join [path; "policy.yaml"]) pol ∈ tr ∧
     read_of (filepath.Join [path; "secrets.yaml"]) sec ∈ tr ∧
     read_of (filepath.Join [path; "monitoring.yaml"]) mon ∈ tr ∧ dir_config pol sec mon c).

Abbreviation load :=
  (LoadConfig yaml_config json_config yaml_policy yaml_bindings yaml_monitoring).

Lemma runs_loadFile path tr c :
  runs (lift_os (loadConfigFromFile yaml_config json_config path)) tr c →
  ∃ a, tr = [read_of path a] ∧
    match c with
    | Ok c => ∃ text, a = Ok text ∧ file_config path text c
    | Err _ => ∀ text c, a = Ok text → ¬ file_config path text c
    end.
Proof.
  unfold loadConfigFromFile, lift_os. cbn [os.readFile Effects.call interp bind].
  intros (a & tr' & -> & -> & ->). exists a. split; [done|].
  destruct a as [text|e]; [|by intros]. unfold file_config, parsed. cbv zeta.
  set (ext := strings.ToLower (filepath.Ext path)). case_decide as Hy.
  - assert (ext ≠ ".json") as Hj by (by destruct Hy as [-> | ->]).
    destruct (yaml_config text DefaultConfig) as [c [e|]] eqn:E; [|by eauto].
    intros t c' [= <-]. rewrite E. intros [[_ ?]|[? _]]; congruence.
  - case_decide as Hj.
    + destruct (json_config text DefaultConfig) as [c [e|]] eqn:E; [|by eauto].
      intros t c' [= <-]. rewrite E. intros [[? _]|[_ ?]]; [done|congruence].
    + intros t c' [= <-] [[? _]|[? _]]; done.
Qed.

Lemma runs_loadDir dir tr c :
  runs (lift_os (loadConfigFromDir yaml_policy yaml_bindings yaml_monitoring dir)) tr c →
  ∃ pol sec mon c', c = Ok c' ∧ dir_config pol sec mon c' ∧
    tr = [read_of (filepath.Join [dir; "policy.yaml"]) pol;
          read_of (filepath.Join [dir; "secrets.yaml"]) sec;
          read_of (filepath.Join [dir; "monitoring.yaml"]) mon].
Proof.
  unfold loadConfigFromDir, lift_os. cbn [os.readFile Effects.call interp bind].
  intros (pol & t1 & -> & sec & t2 & -> & mon & t3 & -> & -> & ->).
  exists pol, sec, mon. eexists. split; [done|]. split; [|done].
  split; [done|]. split; [by destruct pol|]. split; [|by destruct mon].
  destruct sec as [text|]; [|done]. cbn. by destruct (yaml_bindings text) as [l []].
Qed.

Lemma runs_loadSecrets_config pm tr pm' :
  runs (loadSecrets pm) tr pm' →
  config pm' = config pm ∧ configPath pm' = configPath pm ∧ has_callback pm' = has_callback pm ∧
  match registry pm, registry pm' with
  | None, None => True
  | Some _, Some r =>
      length (bindings r) = length (cfg_Secrets (config pm)) ∧
      ∀ k b out, cfg_Secrets (config pm) !! k = Some b → bindings r !! k = Some out →
        loaded (identityMode pm) k b out
  | _, _ => False
  end.
Proof.
  unfold loadSecrets. destruct (registry pm) as [r|] eqn:Er.
  - intros (t1 & t2 & outs & -> & H & -> & ->)%runs_bind.
    apply runs_build in H as [Hlen Hk]. done.
  - intros [-> ->]. by rewrite Er.
Qed.

Lemma runs_configured path (isDir : bool) tr c :
  runs (lift_os (if isDir
                 then loadConfigFromDir yaml_policy yaml_bindings yaml_monitoring path
                 else loadConfigFromFile yaml_config json_config path)) tr c →
  match c with
  | Ok c => ∀ rest, configured path (stat_of path (Ok isDir) :: tr ++ rest) c
  | Err _ => ∀ c, ¬ configured path (stat_of path (Ok isDir) :: tr) c
  end.
Proof.
  intros H3.
  destruct isDir.
  - apply runs_loadDir in H3 as (pol & sec & mon & c' & -> & Hd & ->). intros t4. right.
    exists pol, sec, mon. set_solver.
  - apply runs_loadFile in H3 as (a & -> & Hf). destruct c as [c|e].
    + destruct Hf as (text & -> & Hf). intros t4. left. exists text. set_solver.
    + intros c [(text & Hs & Hr & Hc)|(pol & sec & mon & Hs & _)].
      * apply elem_of_cons in Hr as [Hr|Hr%list_elem_of_singleton];
          apply (f_equal read_answer) in Hr; [discriminate Hr|]. injection Hr as <-.
        by apply (Hf text c).
      * apply elem_of_cons in Hs as [Hs|Hs%list_elem_of_singleton];
          apply (f_equal stat_answer) in Hs; discriminate Hs.
Qed.

(** C32. Loading a configuration is all or nothing.  When it reports an error no
    configuration could be had from the path (it cannot be examined, or is a file
    that cannot be read, has an unknown extension or does not parse), the manager
    is untouched, registry included, and no policy is handed out.  When it does
    not, the manager has the configuration the path stands for (the parsed file,
    or for a directory its three files member by member), the callback, if one is
    registered, has been given that configuration's kernel policy exactly once,
    and the registry, if there is one, has been rebuilt from its bindings. *)
Theorem LoadConfig_atomic (pm pm' : PolicyManager) (path : string) (err : option error)
    (tr : trace POL)
  (Hrun : runs (load pm path) tr (pm', err)) :
  match err with
  | Some _ => (∀ c, ¬ configured path tr c) ∧ pm' = pm ∧ updates tr = []
  | None =>
      configured path tr (config pm') ∧
      configPath pm' = path ∧ has_callback pm' = has_callback pm ∧
      updates tr = (if has_callback pm then [GetBPFPolicy pm'] else []) ∧
      match registry pm, registry pm' with
      | None, None => True
      | Some _, Some r =>
          length (bindings r) = length (cfg_Secrets (config pm')) ∧
          ∀ k b out, cfg_Secrets (config pm') !! k = Some b → bindings r !! k = Some out →
            loaded (identityMode pm') k b out
      | _, _ => False
      end
  end.
Proof.
  unfold LoadConfig in Hrun.
  apply runs_bind in Hrun as (t1 & t2 & info & -> & H1 & H2).
  destruct H1 as (a & t & -> & -> & <-). change (_ ++ t2) with (stat_of path info :: t2).
  destruct info as [isDir|e].
  2:{ destruct H2 as [-> [= -> ->]]. split; [|done].
      intros c [(text & H & _)|(pol & sec & mon & H & _)];
        apply list_elem_of_singleton, (f_equal stat_answer) in H; discriminate H. }
  apply runs_bind in H2 as (t3 & t4 & c & -> & H3 & H4).
  pose proof (updates_lift_os _ _ _ H3) as Hup.
  apply runs_configured in H3.
  destruct c as [c|e]; [|destruct H4 as [-> [= -> ->]]; rewrite app_nil_r; by split; [exact H3|]].
  cbv zeta in H4. set (pm1 := mkPM c path (registry pm) (has_callback pm)) in H4.
  apply runs_bind in H4 as (t5 & t6 & u & -> & H5 & H6).
  apply runs_bind in H6 as (t7 & t8 & pm2 & -> & H7 & -> & Hres). injection Hres as -> ->.
  pose proof (updates_lift_os _ _ _ H7) as Hup7.
  apply runs_policy_os in H7 as (t & H7 & _).
  apply runs_loadSecrets_config in H7 as (Hcfg & Hpath & Hcb & Hreg). cbn in Hcfg, Hpath, Hcb, Hreg.
  unfold identityMode, GetBPFPolicy. rewrite Hcfg. split; [done|]. do 2 (split; [done|]).
  split; [|done]. change (stat_of path (Ok isDir) :: ?l) with ([stat_of path (Ok isDir)] ++ l).
  rewrite !updates_app, Hup, Hup7. unfold applyPolicy in H5. cbn in H5.
  destruct (has_callback pm).
  - by destruct H5 as (x & t' & -> & -> & _).
  - by destruct H5 as [-> _].
Qed.
End loading_props.

(** A parser that reads nothing and reports nothing, and one that refuses. *)
Definition accepting {A} (data : string) (a : A) : A * option error := (a, None).
Definition refusing {A} (data : string) (a : A) : A * option error :=
  (a, Some "yaml: line 3: did not find expected key").

Lemma LoadConfig_atomic_witness :
  ∃ tr pm', runs (LoadConfig accepting accepting accepting (λ _, ([], None)) accepting
                    (SetPolicyUpdateCallback (example_pm "required")) "/etc/ks.yaml") tr (pm', None) ∧
    configPath pm' = "/etc/ks.yaml" ∧ has_callback pm' = true ∧
    updates tr = [GetBPFPolicy pm'].
Proof.
  set (w := os.mkWorld {[ "/etc/ks.yaml" := "" ]} ∅ ∅ ∅ ∅ ∅).
  set (h := (λ c w, match c return answer c * os.world with
                    | OS c => os.serve c w | OnPolicyUpdate _ => (tt, w) end) : handler POL os.world).
  set (p := LoadConfig accepting accepting accepting (λ _, ([], None)) accepting
              (SetPolicyUpdateCallback (example_pm "required")) "/etc/ks.yaml").
  pose proof (traced_runs h p w) as H.
  remember (traced h p w) as x eqn:Hx. vm_compute in Hx. subst x. cbn [fst snd] in H.
  destruct (LoadConfig_atomic _ _ _ _ _ _ _ _ None _ H) as (H0 & H1 & H2 & H3 & _).
  eexists _, _. split; [exact H|]. split; [exact H1|]. split; [exact H2|exact H3].
Defined.

(** ** Directories *)

(** What the file system answers: [dir] is a directory, and its policy.yaml, if
    it can be read, is a text the parser refuses. *)
Definition unparsable (dir : string) (yp : string → PolicySpec → PolicySpec * option error)
    (e : event POL) : Prop :=
  match ev_op e as o return ans POL o → Prop with
  | OS (os.Stat p) => λ a, p = dir → a = Ok true
  | OS (os.ReadFile p) => λ a,
      p = filepath.Join [dir; "policy.yaml"] →
      ∀ data, a = Ok data → (yp data (cfg_Policy DefaultConfig)).2 ≠ None
  | _ => λ _, True
  end (ev_ans e).

(** A policy.yaml that does not parse is not an error of a directory load:
    when the parser refuses the file and leaves its target as it was, the agent
    comes up in the default [preferred] mode whatever the file asked for, and
    the bindings that name a binary and no pod, which [required] rejects, are
    served. *)
Theorem unparsable_policy_widens (yc jc : string → KernelSealConfig → KernelSealConfig * option error)
    (yp : string → PolicySpec → PolicySpec * option error)
    (yb : string → list SecretBinding * option error)
    (ym : string → MonitoringConfig → MonitoringConfig * option error)
    (pm pm' : PolicyManager) (dir : string) (err : option error) (tr : trace POL) (s : Selector)
  (Hyaml : ∀ data spec, (yp data spec).2 ≠ None → (yp data spec).1 = spec)
  (Hdir : Forall (unparsable dir yp) tr)
  (Hrun : runs (LoadConfig yc jc yp yb ym pm dir) tr (pm', err))
  (Hs : sel_Binary s ≠ "" ∧ IsPodScoped s = false) :
  err = None ∧ identityMode pm' = PodIdentityPreferred ∧
  rejectionFor s (identityMode pm') = "" ∧ rejectionFor s PodIdentityRequired ≠ "".
Proof.
  unfold LoadConfig in Hrun. cbn [os.stat Effects.call lift_os interp bind] in Hrun.
  destruct Hrun as (info & t1 & -> & H).
  apply Forall_cons in Hdir as [Hinfo Hdir]. unfold unparsable in Hinfo. simpl in Hinfo.
  rewrite (Hinfo eq_refl) in H.
  simpl in H. destruct H as (pol & t2 & -> & sec & t3 & -> & mon & t4 & -> & H).
  apply runs_bind in H as (t5 & t6 & u & -> & _ & H).
  apply runs_bind in H as (t7 & t8 & pm2 & -> & H7 & -> & Hres). injection Hres as -> ->.
  split; [done|]. apply runs_policy_os in H7 as (t & H7 & _).
  destruct Hs as [Hbin Hscope].
  assert (identityMode pm2 = PodIdentityPreferred) as ->; [|split; [done|]; split;
    [apply rejectionFor_iff|intros ?%rejectionFor_iff]; unfold servable in *].
  2: { split; [by left|]. split; [left|done]. unfold IsPodScoped in Hscope. breflect.
       by apply dec_stable. }
  2: { destruct_and?. congruence. }
  assert (config pm2 = mkKSC "v1" (match pol with
            | Ok data => (yp data (cfg_Policy DefaultConfig)).1
            | Err _ => cfg_Policy DefaultConfig end)
            (match sec with
             | Ok data => match yb data with (l, None) => l | (_, Some _) => [] end
             | Err _ => [] end)
            (match mon with
             | Ok data => (ym data (Monitoring DefaultConfig)).1
             | Err _ => Monitoring DefaultConfig end)) as Hc.
  { unfold loadSecrets in H7. simpl in H7. destruct (registry pm).
    - apply runs_bind in H7 as (t9 & t10 & outs & -> & _ & -> & ->). done.
    - by destruct H7 as [-> ->]. }
  unfold identityMode. rewrite Hc. simpl.
  destruct pol as [data|]; [|reflexivity]. rewrite Hyaml; [reflexivity|].
  apply Forall_cons in Hdir as [Hpol _]. by apply Hpol.
Qed.

Definition example_selector : Selector := mkSelector "psql" "" "" ∅ "".

Lemma unparsable_policy_widens_witness :
  ∃ tr pm' err, runs (LoadConfig accepting accepting refusing (λ _, ([], None)) accepting
                    (example_pm "required") "/etc/kernelseal") tr (pm', err) ∧
    err = None ∧ identityMode pm' = PodIdentityPreferred ∧
    rejectionFor example_selector (identityMode pm') = "" ∧
    rejectionFor example_selector PodIdentityRequired ≠ "".
Proof.
  set (w := os.mkWorld {[ "/etc/kernelseal/policy.yaml" := "podIdentity: required : x" ]} ∅
              {[ "/etc/kernelseal" ]} ∅ ∅ ∅).
  set (h := (λ c w, match c return answer c * os.world with
                    | OS c => os.serve c w | OnPolicyUpdate _ => (tt, w) end) : handler POL os.world).
  set (p := LoadConfig accepting accepting refusing (λ _, ([], None)) accepting
              (example_pm "required") "/etc/kernelseal").
  pose proof (traced_runs h p w) as H.
  remember (traced h p w) as x eqn:Hx. vm_compute in Hx. subst x. cbn [fst snd] in H.
  eexists _, _, _. split; [exact H|].
  refine (unparsable_policy_widens accepting accepting refusing (λ _, ([], None)) accepting
            _ _ _ _ _ example_selector (λ _ _ _, eq_refl) _ H _).
  - repeat constructor; by intros _ data [= <-].
  - split; [done|reflexivity].
Defined.

(** ** The binaries the exec monitor is told about *)

Lemma config_target_loop bs seen out :
  (∀ x, x ∈ seen ↔ x ∈ out) → NoDup out →
  let r := foldl target_step (seen, out) bs in
  out `prefix_of` r.2 ∧ NoDup r.2 ∧
  ∀ x, x ∈ r.2 ↔ x ∈ out ∨ x ≠ "" ∧ ∃ b, b ∈ bs ∧ ps_Binary (sb_Selector b) = x.
Proof.
  revert seen out. induction bs as [|b bs IH]; intros seen out Hseen Hnd; simpl.
  { split; [done|]. split; [done|]. intros x. split; [auto|].
    intros [?|(_ & b & Hb & _)]; [done|]. by apply not_elem_of_nil in Hb. }
  set (name := ps_Binary (sb_Selector b)). case_decide as E.
  - destruct (IH ({[name]} ∪ seen) (out ++ [name])) as (Hp & Hn & Hx).
    { intros x. rewrite elem_of_union, elem_of_singleton, elem_of_app, list_elem_of_singleton,
        Hseen. tauto. }
    { apply NoDup_app. split; [done|]. split; [|apply NoDup_singleton].
      intros x Hx ->%list_elem_of_singleton. apply Hseen in Hx. tauto. }
    split; [by etrans; [apply prefix_app_r|]|]. split; [done|]. intros x. rewrite Hx.
    rewrite elem_of_app, list_elem_of_singleton. setoid_rewrite elem_of_cons. split.
    + intros [[?| ->]|(? & b' & ? & ?)]; [by left|right|right; eauto].
      split; [tauto|]. exists b. auto.
    + intros [?|(? & b' & [-> |?] & ?)]; [auto|auto|right; eauto].
  - destruct (IH seen out Hseen Hnd) as (Hp & Hn & Hx). split; [done|]. split; [done|].
    intros x. rewrite Hx. setoid_rewrite elem_of_cons. split.
    + intros [?|(? & b' & ? & ?)]; [by left|right; eauto].
    + intros [?|(? & b' & [-> |?] & Hb)]; [by left|left|right; eauto].
      apply Hseen. fold name in Hb. destruct (decide (name ∈ seen)); [by subst|].
      destruct E. split; [congruence|done].
Qed.

(** The names the exec monitor filters on are the binaries the bindings
    select by, each once, without the empty name of a binding that selects by
    pod alone. *)
Theorem GetTargetBinaries_correct (pm : PolicyManager) :
  NoDup (GetTargetBinaries pm) ∧
  ∀ x, x ∈ GetTargetBinaries pm ↔
       x ≠ "" ∧ ∃ b, b ∈ cfg_Secrets (config pm) ∧ ps_Binary (sb_Selector b) = x.
Proof.
  unfold GetTargetBinaries.
  destruct (config_target_loop (cfg_Secrets (config pm)) ∅ []) as (_ & Hn & Hx).
  - intros x. rewrite elem_of_nil. set_solver.
  - constructor.
  - split; [done|]. intros x. rewrite Hx, elem_of_nil. tauto.
Qed.

End policy.
