(* ===== verification/Kernel.v ===== *)
(** * The BPF programs ([src/bpf])

    The two LSM hooks and the three tracepoints, on the BPF maps they share
    with the agent.  What the helpers return is the input: the current task,
    the names in the dentry of the opened file, the clock, whether the ring
    buffer has room, which entry a full LRU map gives up.  The bytes of an event that a program leaves unset (after
    the NUL of a string, and the reserved members) are zero here; no reader
    looks at them.  An LSM hook returns 0 to allow and -EPERM to refuse, with
    the event it submitted, if any. *)

From S2P Require Import Prelude GoStrings Types.

Module kernel.
Import types.

(** ** Maps *)

(** The maps of both objects.  Array maps have one element, zero at first. *)
Record maps := mkMaps {
  policy_config : ks_policy_config;
  ks_allowed_pids : gmap Z Z;
  protected_pids : gmap Z Z;
  seen_pids : gmap Z Z;
  target_cgroups : gmap Z Z;
  cgroup_filter_enabled : Z;
  target_binaries : gmap (list ascii) Z;
  binary_filter_enabled : Z;
}.

Definition zero_policy : ks_policy_config := mkKsPolicy 0 0 0 0 0 0 0 0.

Definition no_maps : maps := mkMaps zero_policy ∅ ∅ ∅ ∅ 0 ∅ 0.

Definition EPERM : Z := 1.
Definition KS_ACCESS_ENVIRON : Z := 0.
Definition KS_ACCESS_MEM : Z := 1.
Definition KS_ACCESS_MAPS : Z := 2.
Definition KS_ACCESS_PTRACE : Z := 3.
Definition KS_EVENT_EXEC : Z := 1.
Definition KS_EVENT_EXIT : Z := 2.
Definition KS_EVENT_BLOCKED : Z := 3.
Definition KS_EVENT_AUDIT : Z := 4.
Definition KS_MODE_DISABLED : Z := 0.
Definition KS_MODE_AUDIT : Z := 1.
Definition KS_MODE_ENFORCE : Z := 2.
Definition MAX_PROC_FILE_LEN : nat := 16.

(** The task a program runs for: [bpf_get_current_pid_tgid],
    [bpf_get_current_uid_gid], [bpf_get_current_comm] (16 bytes),
    [bpf_get_current_cgroup_id], the parent's pid when it can be read. *)
Record task := mkTask {
  t_pid : Z; t_tid : Z; t_uid : Z; t_gid : Z;
  t_comm : list ascii; t_cgroup : Z; t_ppid : option Z;
}.

(** ** Strings in a program's buffer *)

Definition NUL : ascii := "000".

(** [bpf_probe_read_kernel_str] into a zeroed buffer of [size] bytes: the text
    up to its NUL, cut to [size - 1] bytes; the buffer and the length with the
    NUL. *)
Definition read_str (size : nat) (s : string) : list ascii :=
  let l := take (size - 1) (String.list_ascii_of_string s) in
  l ++ replicate (size - length l) NUL.

Definition read_len (size : nat) (s : string) : nat :=
  S (Nat.min (size - 1) (String.length s)).

Definition at_ (f : list ascii) (i : nat) (c : ascii) : bool :=
  match f !! i with Some b => Ascii.eqb b c | None => false end.

Definition classify_proc_file (f : list ascii) : Z :=
  if at_ f 0 "e" && at_ f 1 "n" && at_ f 2 "v" && at_ f 3 "i" && at_ f 4 "r"
     && at_ f 5 "o" && at_ f 6 "n" && at_ f 7 NUL then KS_ACCESS_ENVIRON
  else if at_ f 0 "m" && at_ f 1 "e" && at_ f 2 "m" && at_ f 3 NUL then KS_ACCESS_MEM
  else if at_ f 0 "m" && at_ f 1 "a" && at_ f 2 "p" && at_ f 3 "s" && at_ f 4 NUL
  then KS_ACCESS_MAPS
  else (-1)%Z.

(** The loop of [get_proc_dir_pid] over the first 15 bytes. *)
Fixpoint digits_u32 (fuel : nat) (pid : Z) (s : list ascii) : Z :=
  match fuel, s with
  | S fuel, c :: s =>
      if Ascii.eqb c NUL then pid
      else if negb (strconv.is_digit c) then 0
      else digits_u32 fuel (uint32 (pid * 10 + strconv.digit_val c)) s
  | _, _ => pid
  end.

(** [get_proc_dir_pid]: the name of the parent directory, when the pointers to
    it can be read. *)
Definition get_proc_dir_pid (parent : option string) : Z :=
  match parent with
  | None => 0
  | Some name =>
      if bool_decide (read_len 16 name ≤ 1) then 0
      else digits_u32 15 0 (read_str 16 name)
  end.

(** ** The LSM hooks *)

Definition allowed (m : maps) (pid : Z) : bool :=
  match ks_allowed_pids m !! pid with Some v => (v =? 1)%Z | None => false end.

Definition is_protected (m : maps) (pid : Z) : bool :=
  match protected_pids m !! pid with Some v => (v =? 1)%Z | None => false end.

(** [send_audit_event], when the ring buffer has room ([room]). *)
Definition send_audit_event (room : bool) (now : Z) (t : task) (target event access : Z)
    (path : string) : option ks_lsm_event :=
  if negb room then None
  else Some (mkKsLsm now (t_pid t) (t_tid t) (t_uid t) target event access [NUL; NUL]
               (t_comm t) (read_str 256 path)).

(** The dentry of the opened file: its own name and its parent's. *)
Record dentry := mkDentry { d_name : option string; d_parent : option string }.

(** The name as [filename] holds it. *)
Definition buffer_text (f : list ascii) : string := cStringToGo f.

Definition ks_file_open (m : maps) (t : task) (file : option dentry) (room : bool) (now : Z)
    : Z * option ks_lsm_event :=
  let policy := policy_config m in
  if (enforce_mode policy =? KS_MODE_DISABLED)%Z then (0%Z, None)
  else if allowed m (t_pid t) then (0%Z, None)
  else match file with
  | None => (0%Z, None)
  | Some d =>
      match d_name d with
      | None => (0%Z, None)
      | Some name =>
          let filename := read_str MAX_PROC_FILE_LEN name in
          let access_type := classify_proc_file filename in
          if (access_type <? 0)%Z then (0%Z, None) else
          let guarded := if (access_type =? KS_ACCESS_ENVIRON)%Z then block_environ policy
                         else if (access_type =? KS_ACCESS_MEM)%Z then block_mem policy
                         else if (access_type =? KS_ACCESS_MAPS)%Z then block_maps policy
                         else 0%Z in
          let target_pid := get_proc_dir_pid (d_parent d) in
          if (target_pid =? 0)%Z then (0%Z, None)
          else if negb (is_protected m target_pid) then (0%Z, None)
          else
            let self_read := negb (allow_self_read policy =? 0)%Z && (t_pid t =? target_pid)%Z in
            let send := send_audit_event room now t target_pid in
            if negb (guarded =? 0)%Z && negb self_read then
              if (enforce_mode policy =? KS_MODE_ENFORCE)%Z
              then ((- EPERM)%Z, send KS_EVENT_BLOCKED access_type (buffer_text filename))
              else (0%Z, send KS_EVENT_AUDIT access_type (buffer_text filename))
            else if negb (audit_all policy =? 0)%Z
            then (0%Z, send KS_EVENT_AUDIT access_type (buffer_text filename))
            else (0%Z, None)
      end
  end.

Definition ks_ptrace_access_check (m : maps) (t : task) (child_tgid : Z) (room : bool) (now : Z)
    : Z * option ks_lsm_event :=
  let policy := policy_config m in
  if ((enforce_mode policy =? KS_MODE_DISABLED) || (block_ptrace policy =? 0))%Z
  then (0%Z, None)
  else if allowed m (t_pid t) then (0%Z, None)
  else if negb (is_protected m child_tgid) then (0%Z, None)
  else if negb (allow_self_read policy =? 0)%Z && (t_pid t =? child_tgid)%Z then (0%Z, None)
  else
    let send := send_audit_event room now t child_tgid in
    if (enforce_mode policy =? KS_MODE_ENFORCE)%Z
    then ((- EPERM)%Z, send KS_EVENT_BLOCKED KS_ACCESS_PTRACE "ptrace")
    else (0%Z, send KS_EVENT_AUDIT KS_ACCESS_PTRACE "ptrace").

(** ** The exec monitor *)

Definition should_monitor_cgroup (m : maps) (cgid : Z) : bool :=
  if (cgroup_filter_enabled m =? 0)%Z then true
  else match target_cgroups m !! cgid with Some v => (v =? 1)%Z | None => false end.

Definition should_monitor_binary (m : maps) (comm : list ascii) : bool :=
  if (binary_filter_enabled m =? 0)%Z then true
  else match target_binaries m !! comm with Some v => (v =? 1)%Z | None => false end.

Definition set_seen (m : maps) (seen : gmap Z Z) : maps :=
  mkMaps (policy_config m) (ks_allowed_pids m) (protected_pids m) seen (target_cgroups m)
    (cgroup_filter_enabled m) (target_binaries m) (binary_filter_enabled m).

Lemma set_seen_same m : set_seen m (seen_pids m) = m.
Proof. by destruct m. Qed.

(** [bpf_map_update_elem] on an LRU map: a new key in a full map takes the place
    of another entry, which the kernel picks. *)
Definition lru_put (victim : gmap Z Z → Z) (cap : nat) (m : gmap Z Z) (k v : Z) : gmap Z Z :=
  if decide (is_Some (m !! k) ∨ size m < cap) then <[k := v]> m
  else <[k := v]> (base.delete (victim m) m).

Definition SEEN_MAX : nat := 8192.

(** Seen less than 100 ms ago, in the unsigned arithmetic of the code. *)
Definition recently_seen (m : maps) (pid now : Z) : bool :=
  match seen_pids m !! pid with
  | Some ts => (uint64 (now - ts) <? 100000000)%Z
  | None => false
  end.

Definition exec_event (now : Z) (t : task) (event ppid : Z) (comm filename : list ascii)
    : ks_exec_event :=
  mkKsExec now (t_pid t) (t_tid t) ppid (t_uid t) (t_gid t) (t_cgroup t) event
    [NUL; NUL; NUL] comm filename.

(** [handle_sys_enter_execve]: [filename] is the path passed to execve. *)
Definition handle_sys_enter_execve (victim : gmap Z Z → Z) (m : maps) (t : task)
    (filename : option string) (room : bool) (now : Z) : maps * option ks_exec_event :=
  if (binary_filter_enabled m =? 1)%Z then (m, None)
  else if negb (should_monitor_cgroup m (t_cgroup t)) then (m, None)
  else if recently_seen m (t_pid t) now then (m, None)
  else
    let m := set_seen m (lru_put victim SEEN_MAX (seen_pids m) (t_pid t) now) in
    (m, if negb room then None
        else Some (exec_event now t KS_EVENT_EXEC (default 0%Z (t_ppid t)) (t_comm t)
                     (read_str 256 (default "" filename)))).

Definition handle_sched_process_exec (victim : gmap Z Z → Z) (m : maps) (t : task)
    (room : bool) (now : Z) : maps * option ks_exec_event :=
  if (binary_filter_enabled m =? 0)%Z then (m, None)
  else if negb (should_monitor_cgroup m (t_cgroup t)) then (m, None)
  else if negb (should_monitor_binary m (t_comm t)) then (m, None)
  else if recently_seen m (t_pid t) now then (m, None)
  else
    let m := set_seen m (lru_put victim SEEN_MAX (seen_pids m) (t_pid t) now) in
    (m, if negb room then None
        else Some (exec_event now t KS_EVENT_EXEC (default 0%Z (t_ppid t)) (t_comm t)
                     (read_str 256 (cStringToGo (take 15 (t_comm t)))))).

(** [thread_group_dead]: the count of live threads, when it can be read. *)
Definition thread_group_dead (live : option Z) : bool :=
  match live with None => true | Some n => (n =? 0)%Z end.

Definition handle_sched_process_exit (m : maps) (t : task) (live : option Z)
    (room : bool) (now : Z) : maps * option ks_exec_event :=
  if negb (thread_group_dead live) then (m, None)
  else match seen_pids m !! t_pid t with
  | None => (m, None)
  | Some _ =>
      let m := set_seen m (base.delete (t_pid t) (seen_pids m)) in
      (m, if negb (should_monitor_cgroup m (t_cgroup t)) then None
          else if negb room then None
          else Some (exec_event now t KS_EVENT_EXIT 0 (t_comm t) (read_str 256 "")))
  end.

(** ** File names *)

(** The buffer spells the text and then a NUL. *)
Fixpoint spells (f : list ascii) (w : string) : bool :=
  match w, f with
  | "", c :: _ => Ascii.eqb c NUL
  | String a w, c :: f => Ascii.eqb c a && spells f w
  | _, [] => false
  end.

Lemma classify_spells f :
  classify_proc_file f =
  if spells f "environ" then KS_ACCESS_ENVIRON
  else if spells f "mem" then KS_ACCESS_MEM
  else if spells f "maps" then KS_ACCESS_MAPS else (-1)%Z.
Proof.
  unfold classify_proc_file, at_.
  destruct f as [|c0 [|c1 [|c2 [|c3 [|c4 [|c5 [|c6 [|c7 f]]]]]]]]; simpl;
    rewrite ?andb_false_r, <-?andb_assoc; reflexivity.
Qed.

Definition nul_free (s : string) : bool := byte_free NUL s.

Lemma nul_free_chars s :
  nul_free s = true → Forall (λ c, c ≠ NUL) (String.list_ascii_of_string s).
Proof.
  unfold nul_free, byte_free. induction s as [|c s IH]; simpl; [constructor|].
  intros H. breflect. constructor; [|auto]. intros ->. by rewrite Ascii.eqb_refl in H.
Qed.

Lemma spells_buffer l n w :
  Forall (λ c, c ≠ NUL) l → nul_free w = true → 0 < n →
  spells (l ++ replicate n NUL) w = true ↔ l = String.list_ascii_of_string w.
Proof.
  intros Hl Hw Hn. revert w Hw. induction Hl as [|c l Hc Hl IH]; intros w Hw.
  - destruct n as [|n]; [lia|].
    destruct w as [|a w]; cbn [replicate app spells String.list_ascii_of_string]; [done|].
    split; [|done]. intros H. breflect. apply nul_free_chars in Hw.
    inversion Hw; subst. apply Ascii.eqb_eq in H. congruence.
  - destruct w as [|a w]; simpl.
    + split; [|done]. by intros ?%Ascii.eqb_eq.
    + unfold nul_free, byte_free in Hw. simpl in Hw. breflect.
      rewrite andb_true_iff, Ascii.eqb_eq, IH by done.
      split; [by intros [-> ->]|by intros [= -> ->]].
Qed.

Lemma chars_inj s t :
  String.list_ascii_of_string s = String.list_ascii_of_string t → s = t.
Proof.
  intros H. by rewrite <-(String.string_of_list_ascii_of_string s), H,
    String.string_of_list_ascii_of_string.
Qed.

Lemma length_chars s : length (String.list_ascii_of_string s) = String.length s.
Proof. induction s; simpl; auto. Qed.

Lemma length_read_str size s : 0 < size → length (read_str size s) = size.
Proof. intros H. unfold read_str. rewrite length_app, length_take, length_replicate. lia. Qed.

Lemma spells_read_str size name w :
  nul_free name = true → nul_free w = true → S (String.length w) < size →
  spells (read_str size name) w = true ↔ name = w.
Proof.
  intros Hn Hw Hlen. unfold read_str. rewrite spells_buffer; [|..|done|].
  - split; [|intros ->; apply take_ge; rewrite length_chars; lia].
    intros H. apply chars_inj. rewrite <-H. symmetry. apply take_ge.
    apply (f_equal length) in H. rewrite length_take, !length_chars in H.
    rewrite length_chars. lia.
  - by apply Forall_take, nul_free_chars.
  - rewrite length_take. lia.
Qed.

(** Two texts without a NUL that fill a buffer alike are the same. *)
Lemma padded_inj size l1 l2 :
  Forall (λ c, c ≠ NUL) l1 → Forall (λ c, c ≠ NUL) l2 →
  l1 ++ replicate (size - length l1) NUL = l2 ++ replicate (size - length l2) NUL → l1 = l2.
Proof.
  intros H1 H2. revert size l2 H2. induction H1 as [|c l1 Hc _ IH]; intros size l2 H2 Heq.
  - destruct H2 as [|c l2 Hc _]; [done|]. simpl in Heq.
    destruct (size - 0); simplify_eq/=.
  - destruct H2 as [|d l2 Hd H2]; simpl in Heq.
    + destruct (size - 0); simplify_eq/=.
    + injection Heq as -> Heq. f_equal. destruct size as [|size].
      * simpl in Heq. by rewrite !app_nil_r in Heq.
      * by apply (IH size).
Qed.

(** The guarded files, by name. *)
Definition access_of (name : string) : option Z :=
  if decide (name = "environ") then Some KS_ACCESS_ENVIRON
  else if decide (name = "mem") then Some KS_ACCESS_MEM
  else if decide (name = "maps") then Some KS_ACCESS_MAPS
  else None.

Lemma classify_access name :
  nul_free name = true →
  classify_proc_file (read_str MAX_PROC_FILE_LEN name) = default (-1)%Z (access_of name).
Proof.
  intros Hn. rewrite classify_spells. unfold access_of.
  assert (∀ w, nul_free w = true → S (String.length w) < MAX_PROC_FILE_LEN →
    spells (read_str MAX_PROC_FILE_LEN name) w = bool_decide (name = w)) as H.
  { intros w Hw Hl. apply eq_true_iff_eq. rewrite bool_decide_eq_true.
    by apply spells_read_str. }
  rewrite !H by (reflexivity || (simpl; unfold MAX_PROC_FILE_LEN; lia)).
  unfold bool_decide. by repeat case_decide.
Qed.

(** ** Directory names *)

Lemma digit_nonneg c : strconv.is_digit c = true → (0 ≤ strconv.digit_val c)%Z.
Proof.
  unfold strconv.is_digit, strconv.digit_val. intros H. breflect.
  apply N.leb_le in H. lia.
Qed.

(** The process a directory's name stands for: its first 15 bytes are digits, and
    it is their value as a 32-bit number. *)
Definition dir_target (dir : string) : option Z :=
  if decide (dir = "") then None
  else uint32 <$> strconv.digits 0 (String.substring 0 15 dir).

Lemma chars_substring n s :
  String.list_ascii_of_string (String.substring 0 n s) = take n (String.list_ascii_of_string s).
Proof. revert n. induction s as [|c s IH]; intros [|n]; simpl; [done..|]. by rewrite IH. Qed.

Lemma uint32_step acc d : uint32 (uint32 acc * 10 + d) = uint32 (acc * 10 + d).
Proof. unfold uint32. by rewrite <-Z.add_mod_idemp_l, Z.mul_mod_idemp_l, Z.add_mod_idemp_l. Qed.

Lemma digits_u32_spec fuel acc s rest :
  Forall (λ c, c ≠ NUL) (String.list_ascii_of_string s) → String.length s ≤ fuel →
  digits_u32 fuel (uint32 acc) (String.list_ascii_of_string s ++ NUL :: rest)
  = default 0%Z (uint32 <$> strconv.digits acc s).
Proof.
  revert fuel acc. induction s as [|c s IH]; intros fuel acc Hs Hf; simpl in *.
  - by destruct fuel.
  - destruct fuel as [|fuel]; [lia|]. inversion Hs; subst. simpl.
    rewrite (proj2 (Ascii.eqb_neq c NUL)) by done.
    destruct (strconv.is_digit c); [|done]. simpl. rewrite uint32_step. apply IH; [done|lia].
Qed.

Lemma get_proc_dir_pid_spec dir :
  nul_free dir = true → get_proc_dir_pid (Some dir) = default 0%Z (dir_target dir).
Proof.
  intros Hd%nul_free_chars. unfold get_proc_dir_pid, dir_target.
  destruct dir as [|c dir]; [by rewrite bool_decide_true by (unfold read_len; simpl; lia)|].
  rewrite bool_decide_false by (unfold read_len; simpl; lia). rewrite decide_False by done.
  unfold read_str. change (16 - 1) with 15. rewrite <-chars_substring.
  set (s := String.substring 0 15 (String c dir)).
  assert (Forall (λ c, c ≠ NUL) (String.list_ascii_of_string s)) as Hs
    by (unfold s; rewrite chars_substring; by apply Forall_take).
  assert (String.length s ≤ 15) as Hl.
  { rewrite <-length_chars. unfold s. rewrite chars_substring, length_take. lia. }
  rewrite length_chars. destruct (16 - String.length s) as [|n] eqn:E; [lia|].
  cbn [replicate]. change 0%Z with (uint32 0) at 1. by apply digits_u32_spec.
Qed.

Lemma length_pretty_go k x s :
  (x < 10 ^ N.of_nat k)%N → String.length (pretty_N_go x s) ≤ k + String.length s.
Proof.
  revert x s. induction k as [|k IH]; intros x s Hx.
  - rewrite N.pow_0_r in Hx. assert (x = 0)%N as -> by lia. by rewrite pretty_N_go_0.
  - destruct (decide (x = 0%N)) as [->|Hne]; [rewrite pretty_N_go_0; lia|].
    rewrite pretty_N_go_step by lia. etrans; [apply IH|simpl; lia].
    rewrite Nat2N.inj_succ, N.pow_succ_r' in Hx. apply N.Div0.div_lt_upper_bound. lia.
Qed.

Lemma length_FormatUint z : (0 ≤ z < 2 ^ 32)%Z → String.length (fmt.d z) ≤ 10.
Proof.
  intros Hz. unfold fmt.d, strconv.FormatUint. destruct z as [|x|x]; [simpl; lia| |lia].
  cbn [pretty pretty_Z]. unfold pretty, pretty_positive, pretty, pretty_N.
  rewrite decide_False by done. etrans; [apply (length_pretty_go 10)|simpl; lia].
  simpl. lia.
Qed.

Lemma substring_all n s : String.length s ≤ n → String.substring 0 n s = s.
Proof.
  intros H. apply chars_inj. rewrite chars_substring. apply take_ge. by rewrite length_chars.
Qed.

(** The directory of a process, as procfs names it, stands for that process. *)
Lemma dir_target_pid pid : (0 ≤ pid < 2 ^ 32)%Z → dir_target (fmt.d pid) = Some pid.
Proof.
  intros Hp. pose proof (length_FormatUint pid Hp). unfold dir_target.
  rewrite decide_False by apply strconv.FormatUint_nonempty.
  rewrite substring_all by lia. unfold fmt.d. rewrite strconv.digits_FormatUint by lia.
  cbn. by rewrite uint32_id.
Qed.

Lemma nul_free_dir pid : (0 ≤ pid)%Z → nul_free (fmt.d pid) = true.
Proof.
  intros Hp. pose proof (strconv.all_digits_FormatUint pid Hp) as H.
  unfold nul_free, byte_free. eapply all_bytes_impl; [|exact H]. intros c Hc.
  destruct (Ascii.eqb_spec c NUL) as [->|]; [discriminate Hc|done].
Qed.

(** ** What the hooks decide *)

(** The switch of the policy that guards a file. *)
Definition guard (p : ks_policy_config) (access : Z) : Z :=
  if (access =? KS_ACCESS_ENVIRON)%Z then block_environ p
  else if (access =? KS_ACCESS_MEM)%Z then block_mem p
  else block_maps p.

Definition exempt (m : maps) (reader target : Z) : Prop :=
  allowed m reader = true ∨ allow_self_read (policy_config m) ≠ 0%Z ∧ reader = target.

(** The file [name] in the directory of process [target]. *)
Definition proc_entry (target : Z) (name : string) : option dentry :=
  Some (mkDentry (Some name) (Some (fmt.d target))).

Lemma access_of_range name a :
  access_of name = Some a → (0 ≤ a)%Z ∧
  (if (a =? KS_ACCESS_ENVIRON)%Z then block_environ
   else if (a =? KS_ACCESS_MEM)%Z then block_mem
   else if (a =? KS_ACCESS_MAPS)%Z then block_maps else λ _, 0%Z) = λ p, guard p a.
Proof. unfold access_of. repeat case_decide; intros [= <-]; by split. Qed.

(** Which hook refuses, as a boolean. *)
Definition refused (m : maps) (reader target guard : Z) : bool :=
  let p := policy_config m in
  (enforce_mode p =? KS_MODE_ENFORCE)%Z && is_protected m target && negb (guard =? 0)%Z
  && negb (allowed m reader)
  && negb (negb (allow_self_read p =? 0)%Z && (reader =? target)%Z).

Lemma refused_iff m reader target g :
  refused m reader target g = true ↔
  enforce_mode (policy_config m) = KS_MODE_ENFORCE ∧ is_protected m target = true ∧
  ¬ exempt m reader target ∧ g ≠ 0%Z.
Proof.
  unfold refused, exempt.
  destruct (Z.eqb_spec (enforce_mode (policy_config m)) KS_MODE_ENFORCE),
    (is_protected m target), (Z.eqb_spec g 0), (allowed m reader),
    (Z.eqb_spec (allow_self_read (policy_config m)) 0), (Z.eqb_spec reader target);
    simpl; intuition congruence.
Qed.

(** What can be read of an opened file: names are C strings. *)
Definition file_ok (file : option dentry) : Prop :=
  ∀ d s, file = Some d → d_name d = Some s ∨ d_parent d = Some s → nul_free s = true.

(** The process an open is for and the kind of access, on any file system: the
    hook sees the name of the file and of its directory, and no more. *)
Definition aims_at (file : option dentry) : option (Z * Z) :=
  d ← file; name ← d_name d; access ← access_of name; dir ← d_parent d; target ← dir_target dir;
  if decide (target = 0%Z) then None else Some (target, access).

Lemma ks_file_open_ignored m t file room now :
  file_ok file → aims_at file = None → ks_file_open m t file room now = (0%Z, None).
Proof.
  intros Hok Haim. unfold ks_file_open. cbv zeta.
  destruct (_ =? KS_MODE_DISABLED)%Z; [done|]. destruct (allowed m (t_pid t)); [done|].
  destruct file as [[[name|] dir]|]; [|done..]. cbn [d_name d_parent].
  rewrite classify_access by (eapply Hok; [done|by left]). revert Haim. unfold aims_at. cbn.
  destruct (access_of name) as [a|] eqn:Ea; [|done]. cbn.
  destruct (access_of_range _ _ Ea) as [Ha _]. rewrite (proj2 (Z.ltb_ge a 0)) by lia.
  assert (get_proc_dir_pid dir = default 0%Z (dir ≫= dir_target)) as ->.
  { destruct dir as [dir|]; [|done]. apply get_proc_dir_pid_spec. eapply Hok; [done|by right]. }
  destruct (dir ≫= dir_target) as [z|] eqn:Ez; [|done].
  destruct dir as [dir|]; [|done]. cbn in *. rewrite Ez. cbn. by case_decide as H; [subst|].
Qed.

Lemma ks_file_open_aimed m t file room now target access :
  file_ok file → aims_at file = Some (target, access) →
  let r := ks_file_open m t file room now in
  let blocked := refused m (t_pid t) target (guard (policy_config m) access) in
  r.1 = (if blocked then (- EPERM)%Z else 0%Z) ∧
  (blocked = true → ∃ path,
     r.2 = send_audit_event room now t target KS_EVENT_BLOCKED access path).
Proof.
  intros Hok. unfold aims_at. destruct file as [[[name|] [dir|]]|]; cbn; try done;
    destruct (access_of name) as [a|] eqn:Ea; cbn; try done.
  destruct (dir_target dir) as [z|] eqn:Ez; cbn; [|done]. case_decide as Hz; [done|].
  intros [= -> ->]. unfold ks_file_open. cbv zeta. cbn [d_name d_parent].
  rewrite classify_access by (eapply Hok; [done|by left]).
  rewrite get_proc_dir_pid_spec by (eapply Hok; [done|by right]). rewrite Ea, Ez. cbn [from_option]. unfold id.
  destruct (access_of_range _ _ Ea) as [Ha Hg].
  rewrite (proj2 (Z.ltb_ge access 0)), (proj2 (Z.eqb_neq target 0)) by (done || lia).
  assert (∀ p, (if (access =? KS_ACCESS_ENVIRON)%Z then block_environ p
           else if (access =? KS_ACCESS_MEM)%Z then block_mem p
           else if (access =? KS_ACCESS_MAPS)%Z then block_maps p else 0%Z) = guard p access) as ->.
  { intros p. apply (f_equal (λ f, f p)) in Hg. rewrite <-Hg. by repeat destruct (_ =? _)%Z. }
  unfold refused. set (p := policy_config m). destruct (_ =? KS_MODE_DISABLED)%Z eqn:E.
  { apply Z.eqb_eq in E. by rewrite E. }
  destruct (allowed m (t_pid t)), (is_protected m target), (_ =? KS_MODE_ENFORCE)%Z,
    (guard p access =? 0)%Z, (allow_self_read p =? 0)%Z, (t_pid t =? target)%Z,
    (audit_all p =? 0)%Z; (split; [reflexivity|]); intros Hb; first [discriminate Hb|by eexists].
Qed.

Lemma aims_at_Some file target a :
  aims_at file = Some (target, a) →
  ∃ name dir, file = Some (mkDentry (Some name) (Some dir)) ∧
    access_of name = Some a ∧ dir_target dir = Some target ∧ target ≠ 0%Z.
Proof.
  unfold aims_at. destruct file as [[[name|] [dir|]]|]; cbn; try done;
    destruct (access_of name) as [b|] eqn:Ea; cbn; try done.
  destruct (dir_target dir) as [z|] eqn:Ez; cbn; [|done]. case_decide; [done|].
  intros [= -> ->]. eauto 10.
Qed.

(** The directory procfs has for a process. *)
Lemma proc_entry_aims target name a :
  (0 < target < 2 ^ 32)%Z → access_of name = Some a →
  file_ok (proc_entry target name) ∧ aims_at (proc_entry target name) = Some (target, a).
Proof.
  intros Ht Ha. split.
  - intros d s [= <-] [[= <-]|[= <-]]; [|apply nul_free_dir; lia].
    revert Ha. unfold access_of. by repeat case_decide; subst.
  - unfold aims_at, proc_entry. cbn. rewrite Ha. cbn. rewrite dir_target_pid by lia. cbn.
    by rewrite decide_False by lia.
Qed.

(** C33. What the file hook refuses, exactly, whatever is opened on whatever file
    system: a file named environ, mem or maps in a directory whose name is made
    of digits (its first 15 bytes, read as a 32-bit number that is not 0) when
    that number is the PID of a protected process, the switch of the policy for
    that file is on, the mode is enforce, and the opener is neither on the allow
    list nor (when the policy lets it) the process itself.  Everything else is
    allowed, audit mode included.  What is refused is reported, with the opener,
    the target and the kind of access, when the ring buffer has room.  The
    directory of process [pid] in procfs stands for [pid]. *)
Theorem ks_file_open_refuses (m : maps) (t : task) (file : option dentry)
    (room : bool) (now : Z) (Hok : file_ok file) :
  let r := ks_file_open m t file room now in
  (r.1 = (- EPERM)%Z ∨ r.1 = 0%Z) ∧
  (r.1 = (- EPERM)%Z ↔
     ∃ name dir target a,
       file = Some (mkDentry (Some name) (Some dir)) ∧
       access_of name = Some a ∧ dir_target dir = Some target ∧ target ≠ 0%Z ∧
       enforce_mode (policy_config m) = KS_MODE_ENFORCE ∧ is_protected m target = true ∧
       ¬ exempt m (t_pid t) target ∧ guard (policy_config m) a ≠ 0%Z) ∧
  (r.1 = (- EPERM)%Z → room = true →
     ∃ e, r.2 = Some e ∧ kl_event_type e = KS_EVENT_BLOCKED ∧ kl_pid e = t_pid t ∧
       aims_at file = Some (kl_target_pid e, kl_access_type e)) ∧
  (∀ pid, (0 ≤ pid < 2 ^ 32)%Z → dir_target (fmt.d pid) = Some pid).
Proof.
  intros r. assert (∀ P Q R S, P ∧ Q ∧ R → S → P ∧ Q ∧ R ∧ S) as Hand by tauto.
  apply Hand; [|apply dir_target_pid]. clear Hand. subst r.
  destruct (aims_at file) as [[target a]|] eqn:Haim.
  - destruct (ks_file_open_aimed m t file room now target a Hok Haim) as [-> Hev].
    pose proof (refused_iff m (t_pid t) target (guard (policy_config m) a)) as Hiff.
    apply aims_at_Some in Haim as (name & dir & -> & Ha & Hd & Hz).
    destruct (refused _ _ _ _).
    + split; [by left|]. split; [|intros _ ->; destruct (Hev eq_refl) as [path ->]; by eexists].
      split; [|done]. intros _. exists name, dir, target, a.
      destruct (proj1 Hiff eq_refl) as (? & ? & ? & ?). done.
    + split; [by right|]. split; [|done]. split; [done|].
      intros (n & d & z & b & [= <- <-] & Hb & Hd' & ? & ? & ? & ? & ?). simplify_eq.
      by discriminate (proj2 Hiff).
  - rewrite ks_file_open_ignored by done. split; [by right|]. split; [|done]. split; [done|].
    intros (name & dir & target & a & -> & Ha & Hd & Hz & _). exfalso. revert Haim.
    unfold aims_at. cbn. rewrite Ha. cbn. rewrite Hd. cbn. by rewrite decide_False.
Qed.

(** An agent's usual policy: enforce, with environ, mem and ptrace guarded. *)
Definition example_maps : maps :=
  mkMaps (mkKsPolicy 2 1 1 0 1 1 0 0) {[ 7%Z := 1%Z ]} {[ 42%Z := 1%Z ]} {[ 42%Z := 0%Z ]}
    ∅ 0 ∅ 0.

Definition example_task (pid : Z) : task := mkTask pid pid 0 0 (nul 16) 1 (Some 1%Z).

Lemma ks_file_open_refuses_witness :
  (ks_file_open example_maps (example_task 99) (proc_entry 42 "environ") true 5).1 = (- EPERM)%Z ∧
  (ks_file_open example_maps (example_task 99)
     (Some (mkDentry (Some "environ") (Some "42abc"))) true 5).1 ≠ (- EPERM)%Z.
Proof.
  split.
  - apply (ks_file_open_refuses example_maps (example_task 99) (proc_entry 42 "environ") true 5).
    + by apply (proc_entry_aims 42 "environ" KS_ACCESS_ENVIRON).
    + exists "environ", (fmt.d 42), 42%Z, KS_ACCESS_ENVIRON.
      repeat (split; [first [reflexivity|vm_compute; discriminate]|]).
      split; [intros [H|[_ H]]; vm_compute in H; discriminate H|vm_compute; discriminate].
  - intros H. apply ks_file_open_refuses in H as (n & d & z & a & [= <- <-] & _ & Hd & _).
    + vm_compute in Hd. discriminate Hd.
    + intros d s [= <-] [[= <-]|[= <-]]; reflexivity.
Defined.

(** C34. The ptrace hook keeps the same line: it refuses exactly the attaches to
    a protected process, any of its threads (the target is given by its thread
    group), in enforce mode with the ptrace switch on, by a process that is
    neither on the allow list nor (when the policy lets it) the target itself.
    What it refuses it reports, with the tracer, the target and the kind of
    access, when the ring buffer has room. *)
Theorem ks_ptrace_refuses (m : maps) (t : task) (child : Z) (room : bool) (now : Z) :
  let r := ks_ptrace_access_check m t child room now in
  (r.1 = (- EPERM)%Z ∨ r.1 = 0%Z) ∧
  (r.1 = (- EPERM)%Z ↔
     enforce_mode (policy_config m) = KS_MODE_ENFORCE ∧ is_protected m child = true ∧
     ¬ exempt m (t_pid t) child ∧ block_ptrace (policy_config m) ≠ 0%Z) ∧
  (r.1 = (- EPERM)%Z → room = true →
     ∃ e, r.2 = Some e ∧ kl_event_type e = KS_EVENT_BLOCKED ∧
       kl_access_type e = KS_ACCESS_PTRACE ∧ kl_pid e = t_pid t ∧ kl_target_pid e = child).
Proof.
  intros r. rewrite <-refused_iff.
  assert (r.1 = if refused m (t_pid t) child (block_ptrace (policy_config m))
                then (- EPERM)%Z else 0%Z) as Hr.
  { unfold r, ks_ptrace_access_check, refused. set (p := policy_config m).
    destruct (enforce_mode p =? KS_MODE_DISABLED)%Z eqn:E.
    { apply Z.eqb_eq in E. by rewrite E. }
    destruct (block_ptrace p =? 0)%Z, (allowed m (t_pid t)), (is_protected m child),
      (_ =? KS_MODE_ENFORCE)%Z, (allow_self_read p =? 0)%Z, (t_pid t =? child)%Z; reflexivity. }
  rewrite Hr. destruct (refused _ _ _ _) eqn:E; [|split; [by right|done]].
  split; [by left|]. split; [done|]. intros _ ->.
  apply refused_iff in E as (Hm & Hp & He & Hb). unfold r, ks_ptrace_access_check.
  rewrite Hm, Hp. rewrite (proj2 (Z.eqb_neq _ _) Hb). unfold exempt in He.
  destruct (allowed m (t_pid t)); [by destruct He; left|].
  destruct (allow_self_read _ =? 0)%Z eqn:E1, (t_pid t =? child)%Z eqn:E2; simpl;
    try (eexists; split; [reflexivity|]; done).
  destruct He. right. by apply Z.eqb_neq in E1; apply Z.eqb_eq in E2.
Qed.

(** ** Exits *)

Lemma monitor_set_seen m seen cg :
  should_monitor_cgroup (set_seen m seen) cg = should_monitor_cgroup m cg.
Proof. reflexivity. Qed.

(** Protection follows the process, not its threads: the exit tracepoint
    reports an exit, which is what makes the agent release protection, only
    when the last thread of a tracked process exits; the exit of any other
    thread changes no map and reports nothing.  A reported exit is the
    process's own, and the process is then no longer tracked. *)
Theorem exit_reported_once (m : maps) (t : task) (live : option Z) (room : bool) (now : Z) :
  let '(m', e) := handle_sched_process_exit m t live room now in
  (e ≠ None ↔ (live = None ∨ live = Some 0%Z) ∧ is_Some (seen_pids m !! t_pid t) ∧
              should_monitor_cgroup m (t_cgroup t) = true ∧ room = true) ∧
  (∀ ev, e = Some ev → kx_event_type ev = KS_EVENT_EXIT ∧ kx_pid ev = t_pid t) ∧
  ((∃ n, live = Some n ∧ n ≠ 0%Z) → m' = m) ∧
  ((live = None ∨ live = Some 0%Z) → seen_pids m' !! t_pid t = None) ∧
  protected_pids m' = protected_pids m.
Proof.
  unfold handle_sched_process_exit, thread_group_dead.
  destruct live as [n|]; [destruct (Z.eqb_spec n 0) as [->|Hn]|]; simpl.
  2:{ split; [split; [done|intros ([?|[= ?]] & _); done]|]. split; [done|].
      split; [done|]. split; [intros [?|[= ?]]; done|done]. }
  all: destruct (seen_pids m !! t_pid t) as [ts|] eqn:E; simpl.
  2,4: split; [split; [done|intros (_ & [? ?] & _); done]|]; split; [done|];
       split; [done|]; split; [done|done].
  all: rewrite monitor_set_seen.
  all: destruct (should_monitor_cgroup m (t_cgroup t)), room; simpl;
       (split; [split; [by intros ?; repeat split; eauto|by intros (_ & _ & ? & ?)]|]);
       (split; [intros ev Hev; first [discriminate Hev|injection Hev as <-; split; reflexivity]|]);
       (split; [intros (k & ? & ?); by simplify_eq|]);
       (split; [intros _; apply lookup_delete_eq|done]).
Qed.

End kernel.
