(* ===== verification/Loader.v ===== *)
(** * Package bpf: the agent's side of the BPF maps ([src/internal/bpf/loader.go])

    The manager loads and attaches the programs and reads and writes their
    maps.  The kernel and the ebpf library are effects; [serve] implements the
    map operations on the maps of [Kernel], with their capacities, so that what
    the manager writes is what the hooks read. *)

From S2P Require Import Prelude GoStrings Effects Os Types Kernel.

Module bpf.

Local Open Scope prog_scope.

(** ** Effects *)

Inductive object := ExecObject | LSMObject.
Inductive hook := FileOpen | PtraceAccessCheck.

#[global] Instance hook_eq_dec : EqDecision hook.
Proof. solve_decision. Defined.

Inductive map_error := ErrKeyNotExist | MapError (msg : error).

Definition map_error_text (e : map_error) : error :=
  match e with ErrKeyNotExist => "key does not exist" | MapError m => m end.

Inductive call :=
| ReadFile (path : string)
| RemoveMemlock
| LoadCollectionSpec (path : string)
| LoadAndAssign (o : object)
| Tracepoint (group name : string)
| AttachLSM (h : hook)
| NewReader (o : object)
| PutPolicy (bytes : list ascii)
| PutAllowed (pid value : Z)
| PutProtected (pid value : Z)
| DeleteProtected (pid : Z)
| ProtectedKeys
| PutSeen (pid value : Z)
| PutCgroup (cgroup value : Z)
| PutCgroupFilter (value : Z)
| PutBinary (key : list ascii) (value : Z)
| DeleteBinary (key : list ascii)
| BinaryKeys
| PutBinaryFilter (value : Z).

Definition answer (c : call) : Type :=
  match c with
  | ReadFile _ => result string os.errno
  | RemoveMemlock | LoadCollectionSpec _ | LoadAndAssign _ | Tracepoint _ _
  | AttachLSM _ | NewReader _ => option error
  | ProtectedKeys => list Z * option error
  | BinaryKeys => list (list ascii)
  | _ => option map_error
  end.

Definition BPF : sig := Sig call answer.

Definition do (c : call) : prog BPF (answer c) := Effects.call (Σ:=BPF) c.

(** ** The manager

    The objects' maps are nil until [LoadAndAssign] succeeds, all of them at
    once; [exec_loaded] and [lsm_loaded] say whether it has. *)
Record Manager := mkManager {
  exec_loaded : bool;
  lsm_loaded : bool;
  execLinks : list string;
  lsmLinks : list hook;
  execReader : bool;
  lsmReader : bool;
  execHandler : bool;
  lsmHandler : bool;
}.

Definition NewManager : Manager := mkManager false false [] [] false false false false.

Definition SetExecHandler (m : Manager) : Manager :=
  mkManager (exec_loaded m) (lsm_loaded m) (execLinks m) (lsmLinks m) (execReader m)
    (lsmReader m) true (lsmHandler m).

Definition SetLSMHandler (m : Manager) : Manager :=
  mkManager (exec_loaded m) (lsm_loaded m) (execLinks m) (lsmLinks m) (execReader m)
    (lsmReader m) (execHandler m) true.

Definition with_exec (m : Manager) (loaded : bool) (links : list string) (reader : bool) : Manager :=
  mkManager loaded (lsm_loaded m) links (lsmLinks m) reader (lsmReader m)
    (execHandler m) (lsmHandler m).

Definition with_lsm (m : Manager) (links : list hook) (reader : bool) : Manager :=
  mkManager (exec_loaded m) true (execLinks m) links (execReader m) reader
    (execHandler m) (lsmHandler m).

(** The three attachments of [LoadExecMonitor], in order; an error stops it with
    the links made so far kept. *)
Definition tracepoints : list (string * string * string) :=
  [("syscalls", "sys_enter_execve", "failed to attach execve tracepoint: ");
   ("sched", "sched_process_exec", "failed to attach sched_process_exec tracepoint: ");
   ("sched", "sched_process_exit", "failed to attach exit tracepoint: ")].

Fixpoint attach_all (tps : list (string * string * string)) (links : list string)
    : prog BPF (list string * option error) :=
  match tps with
  | [] => Ret (links, None)
  | (group, name, msg) :: tps =>
      e <- do (Tracepoint group name) ;;
      match e with
      | Some e => Ret (links, Some (msg +:+ e))
      | None => attach_all tps (links ++ [name])
      end
  end.

(** [removeMemlock] runs its call once per process; asking it again gives the
    first answer, which the caller of the model supplies again. *)
Definition removeMemlock : prog BPF (option error) :=
  e <- do RemoveMemlock ;;
  Ret (match e with Some e => Some ("removing memlock rlimit: " +:+ e) | None => None end).

Definition LoadExecMonitor (m : Manager) (objectPath : string)
    : prog BPF (Manager * option error) :=
  e <- removeMemlock ;;
  match e with
  | Some e => Ret (m, Some e)
  | None =>
      e <- do (LoadCollectionSpec objectPath) ;;
      match e with
      | Some e => Ret (m, Some ("failed to load exec monitor spec: " +:+ e))
      | None =>
          e <- do (LoadAndAssign ExecObject) ;;
          match e with
          | Some e => Ret (m, Some ("failed to load exec monitor objects: " +:+ e))
          | None =>
              r <- attach_all tracepoints (execLinks m) ;;
              let '(links, e) := r in
              match e with
              | Some e => Ret (with_exec m true links (execReader m), Some e)
              | None =>
                  e <- do (NewReader ExecObject) ;;
                  match e with
                  | Some e => Ret (with_exec m true links false,
                                   Some ("failed to create exec ring buffer reader: " +:+ e))
                  | None => Ret (with_exec m true links true, None)
                  end
              end
          end
      end
  end.

(** [isLSMAvailable] *)
Definition isLSMAvailable : prog BPF bool :=
  data <- do (ReadFile "/sys/kernel/security/lsm") ;;
  Ret (match data with
       | Err _ => false
       | Ok data => match strings.Index data "bpf" with Some _ => true | None => false end
       end).

Definition attach_hook (h : hook) (links : list hook) : prog BPF (list hook) :=
  e <- do (AttachLSM h) ;;
  Ret (match e with Some _ => links | None => links ++ [h] end).

Definition LoadLSM (m : Manager) (objectPath : string) : prog BPF (Manager * option error) :=
  available <- isLSMAvailable ;;
  if negb available then Ret (m, None)
  else
    e <- removeMemlock ;;
    match e with
    | Some e => Ret (m, Some e)
    | None =>
        e <- do (LoadCollectionSpec objectPath) ;;
        match e with
        | Some e => Ret (m, Some ("failed to load LSM spec: " +:+ e))
        | None =>
            e <- do (LoadAndAssign LSMObject) ;;
            match e with
            | Some _ => Ret (m, None)
            | None =>
                links <- attach_hook FileOpen (lsmLinks m) ;;
                links <- attach_hook PtraceAccessCheck links ;;
                e <- do (NewReader LSMObject) ;;
                match e with
                | Some e => Ret (with_lsm m links false,
                                 Some ("failed to create LSM ring buffer reader: " +:+ e))
                | None => Ret (with_lsm m links true, None)
                end
            end
        end
    end.

Definition wrap (msg : string) (e : option map_error) : option error :=
  match e with Some e => Some (msg +:+ map_error_text e) | None => None end.

Definition ConfigurePolicy (m : Manager) (policy : types.PolicyConfig) : prog BPF (option error) :=
  if negb (lsm_loaded m) then Ret (Some "LSM not loaded")
  else
    e <- do (PutPolicy (types.policy_bytes policy)) ;;
    Ret (wrap "failed to update policy config: " e).

Definition AllowPID (m : Manager) (pid : Z) : prog BPF (option error) :=
  if negb (lsm_loaded m) then Ret None
  else
    e <- do (PutAllowed pid 1) ;;
    Ret (wrap ("failed to add allowed PID " +:+ fmt.d pid +:+ ": ") e).

Definition ErrLSMUnavailable : error := "BPF-LSM not loaded".

Definition IsLSMLoaded (m : Manager) : bool := lsm_loaded m.

Definition ProtectPID (m : Manager) (pid : Z) : prog BPF (option error) :=
  if negb (lsm_loaded m) then Ret (Some ErrLSMUnavailable)
  else
    e <- do (PutProtected pid 1) ;;
    Ret (wrap ("failed to protect PID " +:+ fmt.d pid +:+ ": ") e).

Definition UnprotectPID (m : Manager) (pid : Z) : prog BPF (option error) :=
  if negb (lsm_loaded m) then Ret None
  else
    e <- do (DeleteProtected pid) ;;
    Ret (match e with
         | Some ErrKeyNotExist => None
         | Some (MapError msg) => Some ("failed to unprotect PID " +:+ fmt.d pid +:+ ": " +:+ msg)
         | None => None
         end).

Definition TrackPID (m : Manager) (pid : Z) : prog BPF (option error) :=
  if negb (exec_loaded m) then Ret (Some "exec monitor not loaded")
  else
    e <- do (PutSeen pid 0) ;;
    Ret (wrap ("failed to track PID " +:+ fmt.d pid +:+ ": ") e).

Definition ListProtectedPIDs (m : Manager) : prog BPF (result (list Z) error) :=
  if negb (lsm_loaded m) then Ret (Ok [])
  else
    r <- do ProtectedKeys ;;
    let '(keys, e) := r in
    Ret (match e with
         | Some e => Err ("iterating protected PIDs: " +:+ e)
         | None => Ok keys
         end).

Definition AddTargetCgroup (m : Manager) (cgroupID : Z) : prog BPF (option error) :=
  if negb (exec_loaded m) then Ret (Some "exec monitor not loaded")
  else
    e <- do (PutCgroup cgroupID 1) ;;
    Ret (wrap ("failed to add target cgroup " +:+ fmt.d cgroupID +:+ ": ") e).

Definition bit (b : bool) : Z := if b then 1 else 0.

Definition EnableCgroupFilter (m : Manager) (enabled : bool) : prog BPF (option error) :=
  if negb (exec_loaded m) then Ret (Some "exec monitor not loaded")
  else
    e <- do (PutCgroupFilter (bit enabled)) ;;
    Ret (wrap "failed to set cgroup filter: " e).

(** The 16-byte key: [copy] fills it from the name. *)
Definition binary_key (binaryName : string) : list ascii :=
  let l := take 16 (String.list_ascii_of_string binaryName) in
  l ++ replicate (16 - length l) kernel.NUL.

Definition AddTargetBinary (m : Manager) (binaryName : string) : prog BPF (option error) :=
  if negb (exec_loaded m) then Ret (Some "exec monitor not loaded")
  else
    e <- do (PutBinary (binary_key binaryName) 1) ;;
    Ret (wrap ("failed to add target binary " +:+ binaryName +:+ ": ") e).

Definition RemoveTargetBinary (m : Manager) (binaryName : string) : prog BPF (option error) :=
  if negb (exec_loaded m) then Ret (Some "exec monitor not loaded")
  else
    e <- do (DeleteBinary (binary_key binaryName)) ;;
    Ret (wrap ("failed to remove target binary " +:+ binaryName +:+ ": ") e).

Definition EnableBinaryFilter (m : Manager) (enabled : bool) : prog BPF (option error) :=
  if negb (exec_loaded m) then Ret (Some "exec monitor not loaded")
  else
    e <- do (PutBinaryFilter (bit enabled)) ;;
    Ret (wrap "failed to set binary filter: " e).

Definition GetTargetBinaryCount (m : Manager) : prog BPF nat :=
  if negb (exec_loaded m) then Ret 0
  else keys <- do BinaryKeys ;; Ret (length keys).

(** ** Event loops

    [processExecEvents] and [processLSMEvents] on what each read returns and
    whether the stop channel was closed before it; the events handed to the
    handler. *)
Inductive read := Record_ (bytes : list ascii) | Closed | ReadFailed (e : error).

Fixpoint process {E} (decode : list ascii → option E) (handler : bool)
    (reads : list (bool * read)) : list E :=
  match reads with
  | [] => []
  | (stopped, r) :: reads =>
      if (stopped : bool) then []
      else match r with
           | Closed => []
           | ReadFailed _ => process decode handler reads
           | Record_ b =>
               match decode b with
               | None => process decode handler reads
               | Some e => (if handler then [e] else []) ++ process decode handler reads
               end
           end
  end.

Definition processExecEvents (m : Manager) (reads : list (bool * read)) : list types.ExecEvent :=
  process types.read_ExecEvent (execHandler m) reads.

Definition processLSMEvents (m : Manager) (reads : list (bool * read)) : list types.LSMEvent :=
  process types.read_LSMEvent (lsmHandler m) reads.

(** [Start]: which loops run. *)
Definition Start (m : Manager) : list object :=
  ExecObject :: (if lsmReader m then [LSMObject] else []).

(** ** The kernel's side

    How loading goes on a host, which key an LRU map gives up when it is full,
    and the maps themselves. *)
Record host := mkHost {
  h_lsm : result string os.errno;
  h_memlock : option error;
  h_spec : string → option error;
  h_assign : object → option error;
  h_tracepoint : string → option error;
  h_attach : hook → option error;
  h_reader : object → option error;
  h_victim : gmap Z Z → Z;
}.

Record state := mkState { st_host : host; st_maps : kernel.maps }.

Definition E2BIG : map_error := MapError "argument list too long".

Definition hash_put {K} `{Countable K} (cap : nat) (m : gmap K Z) (k : K) (v : Z)
    : option map_error * gmap K Z :=
  if decide (is_Some (m !! k) ∨ size m < cap) then (None, <[k := v]> m) else (Some E2BIG, m).

Definition hash_delete {K} `{Countable K} (m : gmap K Z) (k : K) : option map_error * gmap K Z :=
  match m !! k with
  | Some _ => (None, base.delete k m)
  | None => (Some ErrKeyNotExist, m)
  end.

Definition set_maps (s : state) (k : kernel.maps) : state := mkState (st_host s) k.

Definition upd_policy (k : kernel.maps) (p : types.ks_policy_config) : kernel.maps :=
  kernel.mkMaps p (kernel.ks_allowed_pids k) (kernel.protected_pids k) (kernel.seen_pids k)
    (kernel.target_cgroups k) (kernel.cgroup_filter_enabled k) (kernel.target_binaries k)
    (kernel.binary_filter_enabled k).
Definition upd_allowed (k : kernel.maps) (x : gmap Z Z) : kernel.maps :=
  kernel.mkMaps (kernel.policy_config k) x (kernel.protected_pids k) (kernel.seen_pids k)
    (kernel.target_cgroups k) (kernel.cgroup_filter_enabled k) (kernel.target_binaries k)
    (kernel.binary_filter_enabled k).
Definition upd_protected (k : kernel.maps) (x : gmap Z Z) : kernel.maps :=
  kernel.mkMaps (kernel.policy_config k) (kernel.ks_allowed_pids k) x (kernel.seen_pids k)
    (kernel.target_cgroups k) (kernel.cgroup_filter_enabled k) (kernel.target_binaries k)
    (kernel.binary_filter_enabled k).
Definition upd_exec (k : kernel.maps) (cgroups : gmap Z Z) (cg_on : Z)
    (binaries : gmap (list ascii) Z) (bin_on : Z) : kernel.maps :=
  kernel.mkMaps (kernel.policy_config k) (kernel.ks_allowed_pids k) (kernel.protected_pids k)
    (kernel.seen_pids k) cgroups cg_on binaries bin_on.

Definition serve : handler BPF state := λ c s,
  let h := st_host s in
  let k := st_maps s in
  match c return answer c * state with
  | ReadFile _ => (h_lsm h, s)
  | RemoveMemlock => (h_memlock h, s)
  | LoadCollectionSpec p => (h_spec h p, s)
  | LoadAndAssign o => (h_assign h o, s)
  | Tracepoint _ n => (h_tracepoint h n, s)
  | AttachLSM x => (h_attach h x, s)
  | NewReader o => (h_reader h o, s)
  | PutPolicy b =>
      match types.read_policy b with
      | Some p => (None, set_maps s (upd_policy k p))
      | None => (Some (MapError "invalid argument"), s)
      end
  | PutAllowed pid v =>
      let '(e, x) := hash_put 64 (kernel.ks_allowed_pids k) pid v in
      (e, set_maps s (upd_allowed k x))
  | PutProtected pid v =>
      let '(e, x) := hash_put 4096 (kernel.protected_pids k) pid v in
      (e, set_maps s (upd_protected k x))
  | DeleteProtected pid =>
      let '(e, x) := hash_delete (kernel.protected_pids k) pid in
      (e, set_maps s (upd_protected k x))
  | ProtectedKeys => (((map_to_list (kernel.protected_pids k)).*1, None), s)
  | PutSeen pid v =>
      (None, set_maps s (kernel.set_seen k (kernel.lru_put (h_victim h) kernel.SEEN_MAX (kernel.seen_pids k) pid v)))
  | PutCgroup cg v =>
      let '(e, x) := hash_put 256 (kernel.target_cgroups k) cg v in
      (e, set_maps s (upd_exec k x (kernel.cgroup_filter_enabled k) (kernel.target_binaries k)
                        (kernel.binary_filter_enabled k)))
  | PutCgroupFilter v =>
      (None, set_maps s (upd_exec k (kernel.target_cgroups k) v (kernel.target_binaries k)
                           (kernel.binary_filter_enabled k)))
  | PutBinary key v =>
      let '(e, x) := hash_put 256 (kernel.target_binaries k) key v in
      (e, set_maps s (upd_exec k (kernel.target_cgroups k) (kernel.cgroup_filter_enabled k) x
                        (kernel.binary_filter_enabled k)))
  | DeleteBinary key =>
      let '(e, x) := hash_delete (kernel.target_binaries k) key in
      (e, set_maps s (upd_exec k (kernel.target_cgroups k) (kernel.cgroup_filter_enabled k) x
                        (kernel.binary_filter_enabled k)))
  | BinaryKeys => ((map_to_list (kernel.target_binaries k)).*1, s)
  | PutBinaryFilter v =>
      (None, set_maps s (upd_exec k (kernel.target_cgroups k) (kernel.cgroup_filter_enabled k)
                           (kernel.target_binaries k) v))
  end.

(** ** The protected set

    What the map of protected processes promises to the server and to the
    reconciler.  The abstraction is the set of its keys. *)

Definition protected_set (k : kernel.maps) : gset Z := dom (kernel.protected_pids k).

(** Every entry was written by [ProtectPID]. *)
Definition marked (k : kernel.maps) : Prop :=
  map_Forall (λ _ v, v = 1%Z) (kernel.protected_pids k).

Lemma marked_protected k pid :
  marked k → kernel.is_protected k pid = true ↔ pid ∈ protected_set k.
Proof.
  intros Hm. unfold kernel.is_protected, protected_set.
  destruct (kernel.protected_pids k !! pid) as [v|] eqn:E.
  - rewrite (Hm _ _ E). split; [|done]. intros _. by eapply elem_of_dom_2.
  - split; [done|]. by intros ?%not_elem_of_dom.
Qed.

(** What an operation on the protected set may do: the result and the new set. *)
Class ProtectedSet (S : Type) := {
  ps_protect : Z → S → option error * S;
  ps_unprotect : Z → S → option error * S;
  ps_list : S → result (list Z) error;
  ps_view : S → gset Z;
  ps_ok : S → Prop;
}.

Class ProtectedSetLaws (S : Type) `{ProtectedSet S} := {
  ps_protect_ok : ∀ pid s, ps_ok s → ps_ok (ps_protect pid s).2;
  ps_unprotect_ok : ∀ pid s, ps_ok s → ps_ok (ps_unprotect pid s).2;
  ps_protect_spec : ∀ pid s, ps_ok s →
    match (ps_protect pid s).1 with
    | None => ps_view (ps_protect pid s).2 = {[pid]} ∪ ps_view s
    | Some _ => ps_view (ps_protect pid s).2 = ps_view s
    end;
  ps_unprotect_spec : ∀ pid s, ps_ok s →
    (ps_unprotect pid s).1 = None ∧ ps_view (ps_unprotect pid s).2 = ps_view s ∖ {[pid]};
  ps_list_spec : ∀ s, ps_ok s →
    ∃ l, ps_list s = Ok l ∧ NoDup l ∧ ∀ pid, pid ∈ l ↔ pid ∈ ps_view s;
}.

(** The manager of a loaded LSM, over the kernel's maps. *)
Record loaded_manager := mkLoaded { lm_manager : Manager; lm_state : state }.

#[global] Instance Manager_ProtectedSet : ProtectedSet loaded_manager := {|
  ps_protect pid x :=
    let '(e, s) := exec serve (ProtectPID (lm_manager x) pid) (lm_state x) in
    (e, mkLoaded (lm_manager x) s);
  ps_unprotect pid x :=
    let '(e, s) := exec serve (UnprotectPID (lm_manager x) pid) (lm_state x) in
    (e, mkLoaded (lm_manager x) s);
  ps_list x := (exec serve (ListProtectedPIDs (lm_manager x)) (lm_state x)).1;
  ps_view x := protected_set (st_maps (lm_state x));
  ps_ok x := lsm_loaded (lm_manager x) = true ∧ marked (st_maps (lm_state x));
|}.

#[global] Instance Manager_ProtectedSetLaws : ProtectedSetLaws loaded_manager.
Proof.
  split.
  - intros pid [m s] [Hl Hm]. simpl in *. unfold ProtectPID. rewrite Hl. simpl.
    unfold hash_put. case_decide; simpl; (split; [done|]); [|done].
    by apply map_Forall_insert_2.
  - intros pid [m s] [Hl Hm]. simpl in *. unfold UnprotectPID. rewrite Hl. simpl.
    unfold hash_delete. destruct (_ !! pid); simpl; (split; [done|]); [|done].
    by apply map_Forall_delete.
  - intros pid [m s] [Hl Hm]. simpl in *. unfold ProtectPID. rewrite Hl. simpl.
    unfold hash_put, protected_set. case_decide; simpl; [|done]. by rewrite dom_insert_L.
  - intros pid [m s] [Hl Hm]. simpl in *. unfold UnprotectPID. rewrite Hl. simpl.
    unfold hash_delete, protected_set. destruct (_ !! pid) eqn:E; simpl; (split; [done|]).
    + by rewrite dom_delete_L.
    + apply not_elem_of_dom in E. set_solver.
  - intros [m s] [Hl Hm]. simpl in *. unfold ListProtectedPIDs. rewrite Hl. simpl.
    eexists. split; [done|]. split; [apply NoDup_fst_map_to_list|].
    intros pid. unfold protected_set. rewrite elem_of_dom. split.
    + intros ([k v] & -> & Hin)%list_elem_of_fmap. apply elem_of_map_to_list in Hin. by exists v.
    + intros [v Hv]. apply list_elem_of_fmap. exists (pid, v). split; [done|].
      by apply elem_of_map_to_list.
Qed.

(** ** The policy in the kernel *)

Definition byte_ok (z : Z) : Prop := (0 ≤ z < 256)%Z.

Definition policy_ok (p : types.PolicyConfig) : Prop :=
  byte_ok (types.EnforceMode p) ∧ byte_ok (types.BlockEnviron p) ∧ byte_ok (types.BlockMem p) ∧
  byte_ok (types.BlockMaps p) ∧ byte_ok (types.BlockPtrace p) ∧
  byte_ok (types.AllowSelfRead p) ∧ byte_ok (types.AuditAll p) ∧ byte_ok (types.Reserved p).

(** The C struct with the same fields. *)
Definition kernel_policy (p : types.PolicyConfig) : types.ks_policy_config :=
  types.mkKsPolicy (types.EnforceMode p) (types.BlockEnviron p) (types.BlockMem p)
    (types.BlockMaps p) (types.BlockPtrace p) (types.AllowSelfRead p) (types.AuditAll p)
    (types.Reserved p).

Lemma put_byte z : byte_ok z → binary.put 1 z = [byte (Z.to_N z)].
Proof. intros H. simpl. by rewrite Z.mod_small by (unfold byte_ok in H; lia). Qed.

Lemma policy_roundtrip p :
  policy_ok p → types.read_policy (types.policy_bytes p) = Some (kernel_policy p).
Proof.
  intros (H1 & H2 & H3 & H4 & H5 & H6 & H7 & H8). unfold types.policy_bytes.
  rewrite !put_byte by done. simpl. unfold kernel_policy, byte_ok in *.
  rewrite !code_byte by lia. rewrite !Z2N.id by lia. done.
Qed.

(** What the agent configures is what the hooks read: with the LSM loaded,
    [ConfigurePolicy] succeeds and leaves the kernel's policy with every field
    of the Go struct in the C member of the same meaning, and no other map
    changed; without it, it is an error and nothing changes. *)
Theorem ConfigurePolicy_installs (m : Manager) (p : types.PolicyConfig) (s : state)
  (Hp : policy_ok p) :
  exec serve (ConfigurePolicy m p) s =
  if lsm_loaded m
  then (None, set_maps s (upd_policy (st_maps s) (kernel_policy p)))
  else (Some "LSM not loaded", s).
Proof.
  unfold ConfigurePolicy. destruct (lsm_loaded m); [|done].
  cbn [negb bind do Effects.call exec serve]. by rewrite policy_roundtrip.
Qed.

Definition example_host (attach : hook → option error) : host :=
  mkHost (Ok "lockdown,capability,bpf") None (λ _, None) (λ _, None) (λ _, None) attach
    (λ _, None) (λ _, 0%Z).

Definition example_state : state := mkState (example_host (λ _, None)) kernel.no_maps.

Definition example_manager : Manager := mkManager true true [] [] true true true true.

Lemma ConfigurePolicy_installs_witness :
  exec serve (ConfigurePolicy example_manager types.NewDefaultPolicy) example_state =
  (None, set_maps example_state
           (upd_policy kernel.no_maps (types.mkKsPolicy 2 1 1 0 1 1 0 0))).
Proof.
  apply (ConfigurePolicy_installs example_manager types.NewDefaultPolicy example_state).
  repeat split; by vm_compute.
Defined.

(** ** Loading *)

(** Whether the manager counts the LSM as loaded depends on the loading of
    its objects alone.  Neither a hook that could not be attached nor a ring
    buffer that could not be opened changes it: protection requests then
    succeed, and [IsLSMLoaded] is true, while the hooks that would enforce them
    may not be attached at all. *)
Theorem LoadLSM_ignores_attachment (m : Manager) (path lsm : string) (s : state) (pid : Z)
  (Hlsm : h_lsm (st_host s) = Ok lsm) (Hbpf : strings.Index lsm "bpf" ≠ None)
  (Hmem : h_memlock (st_host s) = None) (Hspec : h_spec (st_host s) path = None)
  (Hassign : h_assign (st_host s) LSMObject = None)
  (Hattach : ∀ h, h_attach (st_host s) h ≠ None)
  (Hroom : size (kernel.protected_pids (st_maps s)) < 4096)
  (Hlinks : lsmLinks m = []) :
  ∃ m' e, exec serve (LoadLSM m path) s = ((m', e), s) ∧
    IsLSMLoaded m' = true ∧ lsmLinks m' = [] ∧
    (e = None ↔ h_reader (st_host s) LSMObject = None) ∧
    (exec serve (ProtectPID m' pid) s).1 = None.
Proof.
  unfold LoadLSM, isLSMAvailable, removeMemlock, attach_hook.
  cbn [bind do Effects.call exec serve]. rewrite Hlsm.
  destruct (strings.Index lsm "bpf") as [i|]; [|done].
  cbn. rewrite Hmem. cbn. rewrite Hspec. cbn. rewrite Hassign. cbn.
  pose proof (Hattach FileOpen) as H1. pose proof (Hattach PtraceAccessCheck) as H2.
  destruct (h_attach (st_host s) FileOpen), (h_attach (st_host s) PtraceAccessCheck); try done.
  destruct (h_reader (st_host s) LSMObject); eexists _, _; (split; [reflexivity|]);
    (split; [done|]); (split; [done|]); (split; [done|]);
    unfold ProtectPID; simpl; unfold hash_put; rewrite decide_True by auto; done.
Qed.

Lemma LoadLSM_ignores_attachment_witness :
  let s := mkState (example_host (λ _, Some "operation not permitted")) kernel.no_maps in
  ∃ m' e, exec serve (LoadLSM NewManager "bpf/lsm_file_protect.bpf.o") s = ((m', e), s) ∧
    IsLSMLoaded m' = true ∧ lsmLinks m' = [] ∧
    (e = None ↔ h_reader (st_host s) LSMObject = None) ∧
    (exec serve (ProtectPID m' 42) s).1 = None.
Proof.
  apply (LoadLSM_ignores_attachment NewManager "bpf/lsm_file_protect.bpf.o"
           "lockdown,capability,bpf"); try reflexivity; try done.
  apply Nat.ltb_lt. reflexivity.
Defined.

(** ** The binary filter *)

(** The comm the kernel gives a program: the file's name cut to 15 bytes. *)
Definition comm_of (basename : string) : list ascii := kernel.read_str 16 basename.

Lemma binary_key_short name :
  String.length name ≤ 15 → binary_key name = comm_of name.
Proof.
  intros H. unfold binary_key, comm_of, kernel.read_str.
  rewrite !take_ge by (rewrite kernel.length_chars; simpl; lia). done.
Qed.

Lemma comm_last basename : comm_of basename !! 15 = Some kernel.NUL.
Proof.
  unfold comm_of, kernel.read_str.
  rewrite lookup_app_r by (rewrite length_take; lia).
  apply lookup_replicate. split; [done|]. rewrite length_take, kernel.length_chars. lia.
Qed.

Lemma binary_key_last name :
  15 < String.length name → kernel.nul_free name = true →
  ∃ c, binary_key name !! 15 = Some c ∧ c ≠ kernel.NUL.
Proof.
  intros Hl Hn%kernel.nul_free_chars.
  destruct (lookup_lt_is_Some_2 (String.list_ascii_of_string name) 15) as [c Hc].
  { by rewrite kernel.length_chars. }
  exists c. split; [|by eapply Forall_lookup_1 in Hc; [|exact Hn]].
  unfold binary_key. rewrite lookup_app_l by (rewrite length_take, kernel.length_chars; lia).
  by rewrite lookup_take_lt by lia.
Qed.

Lemma binary_key_fits name basename :
  kernel.nul_free name = true → binary_key name = comm_of basename → String.length name ≤ 15.
Proof.
  intros Hn Heq. destruct (decide (String.length name ≤ 15)) as [?|Hl]; [done|].
  destruct (binary_key_last name) as (c & Hc & Hne); [lia|done|].
  rewrite Heq, comm_last in Hc. congruence.
Qed.

Lemma comm_of_prefix basename name :
  kernel.nul_free basename = true → kernel.nul_free name = true → String.length name ≤ 15 →
  comm_of basename = comm_of name ↔ String.substring 0 15 basename = name.
Proof.
  intros Hb Hn Hl. unfold comm_of, kernel.read_str. change (16 - 1) with 15.
  rewrite <-!kernel.chars_substring, (kernel.substring_all 15 name) by done.
  split; [|by intros ->]. intros H. apply kernel.chars_inj.
  eapply (kernel.padded_inj 16); [..|exact H].
  - rewrite kernel.chars_substring. by apply Forall_take, kernel.nul_free_chars.
  - by apply kernel.nul_free_chars.
Qed.

(** C35. What adding a binary to the filter does in the kernel, whatever is in the
    filter already (with room for one more): the processes matched afterwards are
    those matched before and, for a name of at most 15 bytes, those whose program
    name, cut to 15 bytes, is that name; a 15-byte entry so matches every longer
    name that begins with it.  A name of 16 bytes or more is stored as a key
    without a final NUL, which no comm is equal to: it matches no process, not
    even one of that name. *)
Theorem target_binary_matches (m : Manager) (s : state) (name basename : string)
  (Hm : exec_loaded m = true)
  (Hn : kernel.nul_free name = true) (Hb : kernel.nul_free basename = true)
  (Hroom : size (kernel.target_binaries (st_maps s)) < 256)
  (Hon : kernel.binary_filter_enabled (st_maps s) = 1%Z) :
  let k := st_maps (exec serve (AddTargetBinary m name) s).2 in
  kernel.should_monitor_binary k (comm_of basename) = true ↔
  kernel.should_monitor_binary (st_maps s) (comm_of basename) = true ∨
  String.length name ≤ 15 ∧ String.substring 0 15 basename = name.
Proof.
  unfold AddTargetBinary. rewrite Hm.
  cbn [negb bind do Effects.call exec serve]. unfold hash_put.
  rewrite decide_True by auto. cbn [fst snd st_maps set_maps]. unfold kernel.should_monitor_binary.
  cbn [kernel.binary_filter_enabled kernel.target_binaries upd_exec]. rewrite Hon. cbn [Z.eqb].
  destruct (decide (binary_key name = comm_of basename)) as [Heq|Hne].
  - rewrite Heq, lookup_insert_eq. split; [|done]. intros _. right.
    assert (String.length name ≤ 15) as Hl by by apply (binary_key_fits name basename).
    split; [done|]. apply comm_of_prefix; try done. by rewrite <-Heq, binary_key_short.
  - rewrite lookup_insert_ne by done. split; [by left|]. intros [H|[Hl H]]; [done|].
    destruct Hne. rewrite binary_key_short by done. symmetry. by apply comm_of_prefix.
Qed.

Lemma target_binary_matches_witness :
  let s := mkState (example_host (λ _, None))
             (kernel.mkMaps kernel.zero_policy ∅ ∅ ∅ ∅ 0 ∅ 1) in
  let k name := st_maps (exec serve (AddTargetBinary example_manager name) s).2 in
  kernel.should_monitor_binary (k "postgres-exporter") (comm_of "postgres-exporter") ≠ true ∧
  kernel.should_monitor_binary (k "postgres-export") (comm_of "postgres-exporter") = true.
Proof.
  intros s k. split.
  - intros H. apply (target_binary_matches example_manager s "postgres-exporter" "postgres-exporter")
      in H as [H|[H _]].
    + vm_compute in H. discriminate H.
    + apply Nat.leb_le in H. vm_compute in H. discriminate H.
    + reflexivity.
    + reflexivity.
    + reflexivity.
    + apply Nat.ltb_lt. reflexivity.
    + reflexivity.
  - apply (target_binary_matches example_manager s "postgres-export" "postgres-exporter");
      try reflexivity.
    + apply Nat.ltb_lt. reflexivity.
    + right. split; [apply Nat.leb_le|]; reflexivity.
Defined.

(** ** Events *)

(** What a read of the ring buffer can bring before the reader is closed: an
    event the kernel submitted, a sample that is too short, a failed read. *)
Inductive incoming :=
| Submitted (junk : nat → ascii) (e : types.ks_exec_event)
| Truncated (bytes : list ascii)
| Failed (e : error).

Definition read_of (i : incoming) : bool * read :=
  (false, match i with
          | Submitted junk e => Record_ (types.exec_bytes junk e)
          | Truncated b => Record_ b
          | Failed e => ReadFailed e
          end).

Definition incoming_ok (i : incoming) : Prop :=
  match i with
  | Submitted _ e => types.exec_ok e
  | Truncated b => length b < 316
  | Failed _ => True
  end.

Definition submitted (i : incoming) : option types.ExecEvent :=
  match i with Submitted junk e => Some (types.exec_of junk e) | _ => None end.

(** The handler is given every event the kernel submitted, in order, with
    the values the kernel wrote: short samples and failed reads are skipped
    without ending the loop, and nothing after the reader is closed is
    delivered. *)
Theorem events_delivered (m : Manager) (l : list incoming) (after : list (bool * read))
  (Hh : execHandler m = true) (Hl : Forall incoming_ok l) :
  processExecEvents m ((read_of <$> l) ++ (false, Closed) :: after) = omap submitted l.
Proof.
  unfold processExecEvents. rewrite Hh.
  induction Hl as [|i l Hi _ IH]; [done|]. cbn [fmap list_fmap app].
  destruct i as [junk e|b|e]; cbn [read_of process].
  - rewrite types.read_exec_bytes by done. simpl. by rewrite IH.
  - assert (types.read_ExecEvent b = None) as ->; [|done].
    unfold types.read_ExecEvent. by rewrite types.chunks_short.
  - done.
Qed.

Lemma events_delivered_witness :
  processExecEvents example_manager
    ((read_of <$> [Failed "interrupted"; Truncated (types.nul 8);
                   Submitted (λ _, "001"%char)
                     (types.mkKsExec 5 42 43 1 0 0 7 types.EventExit (types.nul 3)
                        (types.nul 16) (types.nul 256))])
     ++ [(false, Closed); (false, Record_ [])])
  = omap submitted [Submitted (λ _, "001"%char)
                     (types.mkKsExec 5 42 43 1 0 0 7 types.EventExit (types.nul 3)
                        (types.nul 16) (types.nul 256))].
Proof.
  apply (events_delivered example_manager
           [Failed "interrupted"; Truncated (types.nul 8);
            Submitted (λ _, "001"%char)
              (types.mkKsExec 5 42 43 1 0 0 7 types.EventExit (types.nul 3)
                 (types.nul 16) (types.nul 256))]).
  - reflexivity.
  - repeat constructor; try (by vm_compute); apply Nat.ltb_lt; reflexivity.
Defined.

End bpf.
