(* ===== verification/Reconcile.v ===== *)
(** * Package reconcile: the periodic sweep ([src/internal/reconcile])

    [Sweep] over the two interfaces it uses: the store of protected processes
    and the check that a process exists.  The ordering claim holds whatever
    they answer; the refinement claim is proved against the laws of
    [bpf.ProtectedSet] and so holds of the BPF manager. *)

From S2P Require Import Prelude GoStrings Effects Os Kernel Loader.

Module reconcile.

Local Open Scope prog_scope.

Definition DefaultInterval : Z := 30. (* seconds *)

(** ** Effects *)

Inductive call :=
| ListProtectedPIDs
| UnprotectPID (pid : Z)
| Alive (pid : Z).

Definition answer (c : call) : Type :=
  match c with
  | ListProtectedPIDs => result (list Z) error
  | UnprotectPID _ => option error
  | Alive _ => bool
  end.

Definition REC : sig := Sig call answer.

Definition do (c : call) : prog REC (answer c) := Effects.call (Σ:=REC) c.

Lemma rec_answers (o : op REC) : inhabited (ans REC o).
Proof. destruct o; simpl; constructor; first [exact (Ok []) | exact None | exact false]. Qed.

(** ** The reconciler *)

Record Reconciler := mkReconciler { interval : Z; reclaimed : Z }.

Definition New (interval : Z) : Reconciler :=
  mkReconciler (if (interval <=? 0)%Z then DefaultInterval else interval) 0.

Definition Reclaimed (r : Reconciler) : Z := reclaimed r.

(** [processAlive] *)
Definition processAlive (pid : Z) : prog os.OS bool :=
  st <- os.stat ("/proc/" +:+ strconv.FormatUint pid) ;;
  Ret (match st with Ok _ => true | Err _ => false end).

(** The loop of [Sweep]. *)
Fixpoint sweep_loop (pids : list Z) (removed : nat) : prog REC nat :=
  match pids with
  | [] => Ret removed
  | pid :: pids =>
      alive <- do (Alive pid) ;;
      if (alive : bool) then sweep_loop pids removed
      else
        e <- do (UnprotectPID pid) ;;
        match e with
        | Some _ => sweep_loop pids removed
        | None => sweep_loop pids (S removed)
        end
  end.

Definition Sweep (r : Reconciler) : prog REC (Reconciler * result nat error) :=
  pids <- do ListProtectedPIDs ;;
  match pids with
  | Err e => Ret (r, Err e)
  | Ok pids =>
      removed <- sweep_loop pids 0 ;;
      Ret (if bool_decide (0 < removed)
           then mkReconciler (interval r) (uint64 (reclaimed r + Z.of_nat removed))
           else r, Ok removed)
  end.

(** The ticker's loop: one sweep per tick until the stop channel is closed. *)
Fixpoint run (r : Reconciler) (ticks : nat) : prog REC Reconciler :=
  match ticks with
  | 0 => Ret r
  | S ticks => x <- Sweep r ;; run x.1 ticks
  end.

(** *** Where a release comes from *)

Notation ev c x := (Event (Σ:=REC) c x).

Lemma sweep_loop_release pids n tr p x tr' m :
  runs (sweep_loop pids n) (tr ++ ev (UnprotectPID p) x :: tr') m →
  p ∈ pids ∧ ev (Alive p) false ∈ tr.
Proof.
  revert n tr. induction pids as [|q pids IH]; intros n tr; cbn [sweep_loop].
  - intros [Heq _]. by destruct tr.
  - cbn [bind do Effects.call runs]. intros (alive & t1 & Heq & H).
    destruct tr as [|e1 tr]; [done|]. injection Heq as -> <-.
    destruct alive.
    { destruct (IH _ _ H) as [Hp Hin]. split; by right. }
    cbn [bind do Effects.call runs] in H. destruct H as (e & t2 & Heq & H).
    destruct tr as [|e2 tr]; simplify_eq/=; [split; left|].
    destruct e; destruct (IH _ _ H) as [Hp Hin]; (split; [by right|]); by do 2 right.
Qed.

Lemma sweep_loop_look pids n tr p x tr' m :
  runs (sweep_loop pids n) (tr ++ ev (Alive p) x :: tr') m → p ∈ pids.
Proof.
  revert n tr. induction pids as [|q pids IH]; intros n tr; cbn [sweep_loop].
  - intros [Heq _]. by destruct tr.
  - cbn [bind do Effects.call runs]. intros (alive & t1 & Heq & H).
    destruct tr as [|e1 tr]; simplify_eq/=; [left|right].
    destruct alive; [by eapply IH|].
    cbn [bind do Effects.call runs] in H. destruct H as (e & t2 & Heq & H).
    destruct tr as [|e2 tr]; simplify_eq/=. by destruct e; eapply IH.
Qed.

(** Only processes that were listed are looked for. *)
Lemma Sweep_look r tr p x tr' res :
  runs (Sweep r) (tr ++ ev (Alive p) x :: tr') res →
  ∃ pids, ev ListProtectedPIDs (Ok pids) ∈ tr ∧ p ∈ pids.
Proof.
  unfold Sweep. cbn [bind do Effects.call runs]. intros (l & t1 & Heq & H).
  destruct tr as [|e1 tr]; [done|]. injection Heq as -> <-.
  destruct l as [pids|e]; [|destruct H as [Heq _]; by destruct tr].
  apply runs_bind in H as (t2 & t3 & n & Heq & H & -> & _). rewrite app_nil_r in Heq.
  rewrite <-Heq in H. apply sweep_loop_look in H.
  exists pids. split; [by left|done].
Qed.

(** A release follows a look that did not find the process, and concerns one of
    the processes listed. *)
Lemma Sweep_release r tr p x tr' res :
  runs (Sweep r) (tr ++ ev (UnprotectPID p) x :: tr') res →
  ev (Alive p) false ∈ tr ∧ ∃ pids, ev ListProtectedPIDs (Ok pids) ∈ tr ∧ p ∈ pids.
Proof.
  unfold Sweep. cbn [bind do Effects.call runs]. intros (l & t1 & Heq & H).
  destruct tr as [|e1 tr]; [done|]. injection Heq as -> <-.
  destruct l as [pids|e]; [|destruct H as [Heq _]; by destruct tr].
  apply runs_bind in H as (t2 & t3 & n & Heq & H & -> & _). rewrite app_nil_r in Heq.
  rewrite <-Heq in H. apply sweep_loop_release in H as [Hp Hin].
  split; [by right|]. exists pids. split; [by left|done].
Qed.

(** ** Only processes that are gone lose their protection *)

Definition unprotected (tr : trace REC) : list (Z * option error) :=
  omap (λ e : event REC,
          match ev_op e as o return ans REC o → option (Z * option error) with
          | UnprotectPID pid => λ x, Some (pid, x)
          | _ => λ _, None
          end (ev_ans e)) tr.

Definition dead (tr : trace REC) : list Z :=
  omap (λ e : event REC,
          match ev_op e as o return ans REC o → option Z with
          | Alive pid => λ x, if (x : bool) then None else Some pid
          | _ => λ _, None
          end (ev_ans e)) tr.

Definition succeeded (l : list (Z * option error)) : nat :=
  length (filter (λ x, x.2 = None) l).

Lemma succeeded_cons pid e l :
  succeeded ((pid, e) :: l) = match e with None => 1 | Some _ => 0 end + succeeded l.
Proof. by destruct e. Qed.

Lemma sweep_loop_spec pids n tr r :
  runs (sweep_loop pids n) tr r →
  (unprotected tr).*1 = dead tr ∧ dead tr ⊆ pids ∧ r = n + succeeded (unprotected tr).
Proof.
  revert n tr. induction pids as [|pid pids IH]; intros n tr; simpl.
  { intros [-> ->]. split; [done|]. split; [done|]. unfold succeeded. simpl. lia. }
  intros (alive & t1 & -> & H). destruct alive.
  - destruct (IH _ _ H) as (H1 & H2 & H3). split; [done|]. split; [set_solver|done].
  - destruct H as (e & t2 & -> & H).
    change (unprotected (_ :: _ :: t2)) with ((pid, e) :: unprotected t2).
    change (dead (_ :: _ :: t2)) with (pid :: dead t2).
    rewrite succeeded_cons. cbn [fmap list_fmap fst].
    destruct e as [e|]; destruct (IH _ _ H) as (-> & H2 & H3);
      (split; [done|]); (split; [set_solver|lia]).
Qed.

(** The sweep releases exactly the listed processes it has just found gone:
    the releases it asks for are, in order, the processes whose check failed, a
    process found running is never released, and the count it reports, and adds
    to the total, is that of the releases that succeeded. *)
Theorem Sweep_releases_dead (r r' : Reconciler) (tr : trace REC) (n : nat)
  (Hrun : runs (Sweep r) tr (r', Ok n)) :
  ∃ pids rest, tr = Event (Σ:=REC) ListProtectedPIDs (Ok pids) :: rest ∧
    (unprotected rest).*1 = dead rest ∧ dead rest ⊆ pids ∧
    n = succeeded (unprotected rest) ∧
    reclaimed r' = (if bool_decide (0 < n) then uint64 (reclaimed r + Z.of_nat n) else reclaimed r).
Proof.
  unfold Sweep in Hrun. cbn [bind do Effects.call runs] in Hrun.
  destruct Hrun as (pids & t1 & -> & H). destruct pids as [pids|e]; [|by destruct H as [_ [= _ ?]]].
  apply runs_bind in H as (t2 & t3 & removed & -> & H2 & -> & Hr).
  injection Hr as -> ->. apply sweep_loop_spec in H2 as (H1 & H2 & H3).
  exists pids, t2. rewrite app_nil_r. split; [done|]. split; [done|]. split; [done|].
  split; [done|]. by case_bool_decide.
Qed.

(** ** The sweep as an operation on a set *)

Section refinement.
Context {S} `{L : bpf.ProtectedSetLaws S}.
Context (alive : Z → bool).

Definition serve : handler REC S := λ c s,
  match c return answer c * S with
  | ListProtectedPIDs => (bpf.ps_list s, s)
  | UnprotectPID pid => bpf.ps_unprotect pid s
  | Alive pid => (alive pid, s)
  end.

Lemma sweep_loop_set pids n s :
  bpf.ps_ok s → NoDup pids → (∀ pid, pid ∈ pids → pid ∈ bpf.ps_view s) →
  let '(r, s') := exec serve (sweep_loop pids n) s in
  bpf.ps_ok s' ∧
  bpf.ps_view s' = bpf.ps_view s ∖ list_to_set (filter (λ p, alive p = false) pids) ∧
  r = n + length (filter (λ p, alive p = false) pids).
Proof.
  revert n s. induction pids as [|pid pids IH]; intros n s Hok Hnd Hin; cbn [sweep_loop exec].
  { split; [done|]. split; [set_solver|simpl; lia]. }
  apply NoDup_cons in Hnd as [Hpid Hnd]. cbn [bind do Effects.call exec serve].
  destruct (alive pid) eqn:Ea.
  - rewrite filter_cons_False by congruence. apply IH; [done|done|]. set_solver.
  - rewrite filter_cons_True by done. cbn [bind do Effects.call exec serve].
    pose proof (bpf.ps_unprotect_ok pid s Hok) as Hok'.
    destruct (bpf.ps_unprotect_spec pid s Hok) as [He Hv].
    destruct (bpf.ps_unprotect pid s) as [e s']. simpl in *. subst e.
    specialize (IH (Datatypes.S n) s' Hok' Hnd).
    destruct (exec serve (sweep_loop pids (Datatypes.S n)) s') as [r s''].
    destruct IH as (H1 & H2 & H3).
    { intros p Hp. rewrite Hv. set_solver. }
    split; [done|]. split; [rewrite H2, Hv; set_solver|lia].
Qed.

(** C36. Against any store that keeps the promises of the protected set, and a
    set of running processes that does not change during it, one sweep leaves
    exactly the protected processes that still run, reports how many it
    dropped, and never fails. *)
Theorem Sweep_refines_filter (r : Reconciler) (s : S)
  (Hok : bpf.ps_ok s) :
  let '((r', n), s') := exec serve (Sweep r) s in
  bpf.ps_ok s' ∧
  bpf.ps_view s' = filter (λ pid, alive pid = true) (bpf.ps_view s) ∧
  n = Ok (size (filter (λ pid, alive pid = false) (bpf.ps_view s))).
Proof.
  destruct (bpf.ps_list_spec s Hok) as (l & Hl & Hnd & Hin).
  unfold Sweep. cbn [bind do Effects.call exec serve]. rewrite Hl, exec_bind.
  pose proof (sweep_loop_set l 0 s Hok Hnd (λ pid, proj1 (Hin pid))) as Hloop.
  destruct (exec serve (sweep_loop l 0) s) as [k s']. destruct Hloop as (H1 & H2 & ->). simpl.
  split; [done|]. split.
  - rewrite H2. apply set_eq. intros pid. rewrite elem_of_difference, elem_of_list_to_set,
      list_elem_of_filter, elem_of_filter, Hin. destruct (alive pid); intuition congruence.
  - f_equal. assert (bpf.ps_view s = list_to_set l) as ->.
    { apply set_eq. intros pid. by rewrite elem_of_list_to_set, Hin. }
    rewrite <-(size_list_to_set (C:=gset Z)) by by apply NoDup_filter. f_equal.
    apply set_eq. intros pid. rewrite elem_of_filter, !elem_of_list_to_set, list_elem_of_filter.
    done.
Qed.
End refinement.

(** A manager with two protected processes, one of them gone. *)
Definition example_loaded : bpf.loaded_manager :=
  bpf.mkLoaded bpf.example_manager
    (bpf.mkState (bpf.example_host (λ _, None))
       (bpf.upd_protected kernel.no_maps {[ 42%Z := 1%Z; 77%Z := 1%Z ]})).

Definition example_alive (pid : Z) : bool := (pid =? 42)%Z.

Lemma Sweep_releases_dead_witness :
  ∃ r' tr, runs (Sweep (New 0)) tr (r', Ok 1) ∧
    ∃ pids rest, tr = Event (Σ:=REC) ListProtectedPIDs (Ok pids) :: rest ∧
      (unprotected rest).*1 = dead rest ∧ dead rest ⊆ pids ∧
      1 = succeeded (unprotected rest) ∧
      reclaimed r' = (if bool_decide (0 < 1) then uint64 (0 + Z.of_nat 1) else 0%Z).
Proof.
  pose proof (traced_runs (serve example_alive) (Sweep (New 0)) example_loaded) as H.
  remember (traced (serve example_alive) (Sweep (New 0)) example_loaded) as x eqn:Hx.
  vm_compute in Hx. subst x. cbn [fst snd] in H.
  eexists _, _. split; [exact H|].
  exact (Sweep_releases_dead (New 0) _ _ 1 H).
Defined.

Lemma Sweep_refines_filter_witness :
  let '((r', n), s') := exec (serve example_alive) (Sweep (New 0)) example_loaded in
  bpf.ps_ok s' ∧
  bpf.ps_view s' = filter (λ pid, example_alive pid = true) (bpf.ps_view example_loaded) ∧
  n = Ok (size (filter (λ pid, example_alive pid = false) (bpf.ps_view example_loaded))).
Proof.
  apply (Sweep_refines_filter (S:=bpf.loaded_manager) example_alive (New 0) example_loaded).
  split; [reflexivity|]. simpl. unfold bpf.marked. simpl.
  apply map_Forall_insert_2; [done|]. by apply map_Forall_singleton.
Defined.

End reconcile.
