(* ===== verification/Shim.v ===== *)
(** * kernelseal-exec: the shim ([src/cmd/kernelseal-exec/main.go])

    The command that fetches the secrets and execs the target with them in its
    environment, as a program over the clock, the connection to the agent and
    the process it becomes.  Times are nanoseconds; diagnostics are kept as the
    values the code passes to the formatter. *)

From S2P Require Import Prelude GoStrings Effects Protocol.

Module shim.

Local Open Scope prog_scope.

(** ** Errors of the connection

    [OpError] stands for a [*net.OpError], which is what dialing, writing and
    reading report for a failure of the connection itself. *)
Inductive neterr := OpError (msg : string) | ENOENT | ECONNREFUSED | Other (msg : string).

(** An error and what it wraps: [errors.As] and [errors.Is] look through the
    wrappers at the cause. *)
Inductive context :=
| Bare                                   (** returned as it is *)
| TimedOut (path : string)               (** timed out connecting to path *)
| Sending | Reading                      (** sending request, reading response *)
| Refused (msg : string)                 (** the agent's own error *)
| Unreachable (path : string) (timeout : Z) (last : context).

Record err := mkErr { e_context : context; e_cause : neterr }.

Definition isConnectError (e : err) : bool :=
  match e_cause e with
  | OpError _ | ENOENT | ECONNREFUSED => true
  | Other _ => false
  end.

(** ** Effects *)

Inductive line :=
| NoCommand
| BadFlag (e : error)
| NotFound (e : error)
| RefusingToStart (binary : string) (e : err)
| PassContinue
| Continuing (e : err)
| AgentWarning (w : string)
| Unprotected (n : nat)
| ExecFailed (binary : string) (e : error).

Inductive call :=
| Now
| Sleep (d : Z)
| Dial (path : string) (timeout : Z)
| SetDeadline (t : Z)
| Send (req : protocol.Request)
| Receive
| LookPath (file : string)
| Environ
| Warn (l : line)
| Exec (path : string) (argv env : list string).

Definition answer (c : call) : Type :=
  match c with
  | Now => Z
  | Sleep _ => unit
  | Dial _ _ => option neterr
  | SetDeadline _ => option neterr
  | Send _ => option neterr
  | Receive => result protocol.Response neterr
  | LookPath _ => result string error
  | Environ => list string
  | Warn _ => unit
  | Exec _ _ _ => error          (** execve returns only when it fails *)
  end.

Definition SHIM : sig := Sig call answer.

Definition do (c : call) : prog SHIM (answer c) := Effects.call (Σ:=SHIM) c.

Definition warn (l : line) : prog SHIM unit := do (Warn l).

(** ** Pure parts *)

Definition parseOnError (v : string) : result bool error :=
  if decide (v = "fail") then Ok true
  else if decide (v = "continue") then Ok false
  else Err ("invalid -on-error " +:+ fmt.q v +:+ ": want " +:+ fmt.q "fail" +:+ " or " +:+ fmt.q "continue").

(** An entry of the environment that an overlaid variable replaces. *)
Definition shadowed (overlay : gmap string string) (kv : string) : bool :=
  match strings.Cut kv "=" with
  | Some (name, _) => bool_decide (is_Some (overlay !! name))
  | None => false
  end.

(** [mergeEnv]; the overlay is a Go map, iterated in some order. *)
Definition mergeEnv (base : list string) (overlay : gmap string string) : list string :=
  if bool_decide (size overlay = 0) then base
  else List.filter (λ kv, negb (shadowed overlay kv)) base
       ++ ((λ kv : string * string, kv.1 +:+ "=" +:+ kv.2) <$> map_to_list overlay).

(** ** Talking to the agent *)

Definition requestOnce (socketPath binaryPath : string) (remaining : Z)
    : prog SHIM (result protocol.Response err) :=
  if (remaining <=? 0)%Z
  then Ret (Err (mkErr (TimedOut socketPath) (Other "")))
  else
    e <- do (Dial socketPath remaining) ;;
    match e with
    | Some e => Ret (Err (mkErr Bare e))
    | None =>
        now <- do Now ;;
        e <- do (SetDeadline (now + remaining)%Z) ;;
        match e with
        | Some e => Ret (Err (mkErr Bare e))
        | None =>
            e <- do (Send (protocol.mkRequest binaryPath)) ;;
            match e with
            | Some e => Ret (Err (mkErr Sending e))
            | None =>
                r <- do Receive ;;
                Ret (match r with
                     | Err e => Err (mkErr Reading e)
                     | Ok resp =>
                         if negb (protocol.resp_OK resp) then
                           let msg := protocol.resp_Error resp in
                           Err (mkErr (Refused (if decide (msg = "")
                                                then "agent refused the request" else msg))
                                      (Other ""))
                         else Ok resp
                     end)
            end
        end
    end.

Definition unreachable (socketPath : string) (timeout : Z) (last : err) : err :=
  mkErr (Unreachable socketPath timeout (e_context last)) (e_cause last).

(** The loop of [fetchSecrets]; [None] when the fuel runs out. *)
Fixpoint fetch_loop (fuel : nat) (socketPath binaryPath : string)
    (deadline timeout retryInterval : Z) : prog SHIM (option (result protocol.Response err)) :=
  match fuel with
  | 0 => Ret None
  | S fuel =>
      now <- do Now ;;
      r <- requestOnce socketPath binaryPath (deadline - now)%Z ;;
      match r with
      | Ok resp => Ret (Some (Ok resp))
      | Err e =>
          if negb (isConnectError e) then Ret (Some (Err e))
          else
            now <- do Now ;;
            if negb (now + retryInterval <? deadline)%Z
            then Ret (Some (Err (unreachable socketPath timeout e)))
            else
              do (Sleep retryInterval) ;;;
              fetch_loop fuel socketPath binaryPath deadline timeout retryInterval
      end
  end.

Definition fetchSecrets (fuel : nat) (socketPath binaryPath : string)
    (timeout retryInterval : Z) : prog SHIM (option (result protocol.Response err)) :=
  now <- do Now ;;
  fetch_loop fuel socketPath binaryPath (now + timeout)%Z timeout retryInterval.

(** ** The command *)

Definition exitUsage : Z := 2.
Definition exitFailure : Z := 1.

Record flags := mkFlags {
  f_socket : string; f_timeout : Z; f_retry : Z; f_onError : string; f_argv : list string;
}.

Definition no_secrets : protocol.Response := protocol.mkResponse true ∅ false "" "".

(** The part of [main] from the response on; the result is the exit code. *)
Definition start (binaryPath : string) (argv : list string) (resp : protocol.Response)
    : prog SHIM Z :=
  environ <- do Environ ;;
  let env := mergeEnv environ (protocol.resp_Env resp) in
  (if decide (protocol.resp_Warning resp ≠ "")
   then warn (AgentWarning (protocol.resp_Warning resp)) else Ret tt) ;;;
  (if bool_decide (0 < size (protocol.resp_Env resp)) && negb (protocol.resp_Protected resp)
   then warn (Unprotected (size (protocol.resp_Env resp)))
   else Ret tt) ;;;
  e <- do (Exec binaryPath argv env) ;;
  warn (ExecFailed binaryPath e) ;;;
  Ret exitFailure.

(** [main] after flag parsing; [None] when the fuel runs out. *)
Definition main (fuel : nat) (fl : flags) : prog SHIM (option Z) :=
  match f_argv fl with
  | [] => warn NoCommand ;;; Ret (Some exitUsage)
  | cmd :: _ =>
      match parseOnError (f_onError fl) with
      | Err e => warn (BadFlag e) ;;; Ret (Some exitUsage)
      | Ok failClosed =>
          p <- do (LookPath cmd) ;;
          match p with
          | Err e => warn (NotFound e) ;;; Ret (Some exitFailure)
          | Ok binaryPath =>
              r <- fetchSecrets fuel (f_socket fl) binaryPath (f_timeout fl) (f_retry fl) ;;
              match r with
              | None => Ret None
              | Some (Ok resp) => c <- start binaryPath (f_argv fl) resp ;; Ret (Some c)
              | Some (Err e) =>
                  if (failClosed : bool) then
                    warn (RefusingToStart binaryPath e) ;;;
                    warn PassContinue ;;;
                    Ret (Some exitFailure)
                  else
                    warn (Continuing e) ;;;
                    c <- start binaryPath (f_argv fl) no_secrets ;; Ret (Some c)
              end
          end
      end
  end.

(** ** The environment of the target *)

(** The value a program finds for a variable: its first entry. *)
Fixpoint getenv (env : list string) (name : string) : option string :=
  match env with
  | [] => None
  | kv :: env =>
      match strings.Cut kv "=" with
      | Some (n, v) => if decide (n = name) then Some v else getenv env name
      | None => getenv env name
      end
  end.

Lemma getenv_app env1 env2 name :
  getenv (env1 ++ env2) name =
  match getenv env1 name with Some v => Some v | None => getenv env2 name end.
Proof.
  induction env1 as [|kv env1 IH]; simpl; [done|].
  destruct (strings.Cut kv "=") as [[n v]|]; [|done]. by case_decide.
Qed.

Lemma getenv_filter overlay env name :
  getenv (List.filter (λ kv, negb (shadowed overlay kv)) env) name =
  if decide (is_Some (overlay !! name)) then None else getenv env name.
Proof.
  induction env as [|kv env IH]; simpl; [by case_decide|].
  unfold shadowed at 1. destruct (strings.Cut kv "=") as [[n v]|] eqn:E; simpl; [|by rewrite E].
  case_bool_decide as Hn; simpl.
  - rewrite IH. case_decide as Ho; [done|]. rewrite decide_False; [done|]. by intros ->.
  - rewrite E, IH. case_decide as Ho; [|done]. by rewrite decide_False by (by intros ->).
Qed.

Lemma getenv_pairs l name :
  Forall (λ kv : string * string, byte_free "=" kv.1 = true) l → NoDup l.*1 →
  getenv ((λ kv : string * string, kv.1 +:+ "=" +:+ kv.2) <$> l) name =
  (list_to_map l : gmap string string) !! name.
Proof.
  intros Hl. induction Hl as [|[k v] l Hk Hl IH]; intros Hnd; [done|].
  apply NoDup_cons in Hnd as [_ Hnd]. cbn [fmap list_fmap getenv fst snd list_to_map foldr curry].
  rewrite app_cons_str, app_nil_l_str, strings.Cut_app by done.
  destruct (decide (k = name)) as [->|Hne]; [by rewrite lookup_insert_eq|].
  rewrite lookup_insert_ne by done. by apply IH.
Qed.

Lemma mergeEnv_lookup (base : list string) (overlay : gmap string string) (name : string) :
  map_Forall (λ k _, byte_free "=" k = true) overlay →
  getenv (mergeEnv base overlay) name =
  match overlay !! name with Some v => Some v | None => getenv base name end.
Proof.
  intros Hnames.
  unfold mergeEnv. case_bool_decide as Hs.
  { apply map_size_empty_inv in Hs as ->. by rewrite lookup_empty. }
  rewrite getenv_app, getenv_filter, getenv_pairs, list_to_map_to_list;
    [|by apply map_Forall_to_list in Hnames; eapply Forall_impl; [done|intros []]
     |apply NoDup_fst_map_to_list].
  destruct (overlay !! name) as [v|] eqn:E.
  - by rewrite decide_True by eauto.
  - rewrite decide_False by (by intros [? ?]). by destruct (getenv base name).
Qed.

(** In the environment the target starts with, every secret has its
    delivered value whatever the inherited environment held under that name,
    and every other variable has the value it had: a variable the shim
    inherited can neither shadow a secret nor be lost.  (A name with an equals
    sign is not a variable name and is excluded.) *)
Theorem mergeEnv_correct (base : list string) (overlay : gmap string string) (name : string)
  (Hnames : map_Forall (λ k _, byte_free "=" k = true) overlay) :
  getenv (mergeEnv base overlay) name =
  match overlay !! name with Some v => Some v | None => getenv base name end.
Proof. by apply mergeEnv_lookup. Qed.

Lemma mergeEnv_correct_witness :
  getenv (mergeEnv ["PATH=/bin"; "TOKEN=stale"; "odd"] {[ "TOKEN" := "fresh" ]}) "TOKEN"
  = Some "fresh".
Proof.
  rewrite (mergeEnv_correct ["PATH=/bin"; "TOKEN=stale"; "odd"] {[ "TOKEN" := "fresh" ]} "TOKEN").
  - by rewrite lookup_singleton_eq.
  - by apply map_Forall_singleton.
Defined.

(** ** The retry loop ends *)

Section clock.
Context {S : Type} (h : handler SHIM S) (clock : S → Z).
(** Time does not run backwards, [Now] reads it and [Sleep] lets at least the
    time asked for pass. *)
Context (Hnow : ∀ s, (h Now s).1 = clock s).
Context (Hmono : ∀ c s, (clock s ≤ clock (h c s).2)%Z).
Context (Hsleep : ∀ d s, (clock s + d ≤ clock (h (Sleep d) s).2)%Z).

Lemma exec_mono {A} (p : prog SHIM A) s : (clock s ≤ clock (exec h p s).2)%Z.
Proof.
  revert s. induction p as [a|c k IH]; intros s; simpl; [done|].
  pose proof (Hmono c s). destruct (h c s) as [x s']. simpl in *.
  etrans; [done|]. apply IH.
Qed.

Lemma fetch_loop_ends fuel socket binary deadline timeout retry s :
  (deadline - clock s ≤ Z.of_nat fuel * retry)%Z → (0 < retry)%Z →
  (exec h (fetch_loop (Datatypes.S fuel) socket binary deadline timeout retry) s).1 ≠ None.
Proof.
  intros Hf Hr. revert s Hf. induction fuel as [|fuel IH]; intros s Hf;
    cbn [fetch_loop bind do Effects.call exec].
  all: pose proof (Hmono Now s) as M1; pose proof (Hnow s) as N1;
    destruct (h Now s) as [now1 s1]; simpl in M1, N1; rewrite exec_bind;
    pose proof (exec_mono (requestOnce socket binary (deadline - now1)) s1) as M2;
    destruct (exec h (requestOnce socket binary (deadline - now1)) s1) as [r s2];
    simpl in M2; destruct r as [resp|e]; [done|];
    destruct (isConnectError e); [|done]; cbn [negb bind do Effects.call exec];
    pose proof (Hmono Now s2) as M3; pose proof (Hnow s2) as N2;
    destruct (h Now s2) as [now2 s3]; simpl in M3, N2;
    destruct (Z.ltb_spec (now2 + retry) deadline); [|done].
  { lia. }
  cbn [negb bind do Effects.call exec]. pose proof (Hsleep retry s3) as M4.
  destruct (h (Sleep retry) s3) as [u s4]. simpl in M4. apply IH. lia.
Qed.

(** C38. The shim does not hang: with a positive retry interval, whatever the
    agent and the network do, [fetchSecrets] returns a response or an error
    after at most one attempt more than the timeout divided by the interval,
    rounded up. *)
Theorem fetchSecrets_terminates (socket binary : string) (timeout retry : Z) (s : S) (fuel : nat)
  (Hr : (0 < retry)%Z) (Hf : (timeout ≤ Z.of_nat fuel * retry)%Z) :
  (exec h (fetchSecrets (Datatypes.S fuel) socket binary timeout retry) s).1 ≠ None.
Proof.
  unfold fetchSecrets. cbn [bind do Effects.call exec].
  pose proof (Hmono Now s) as M. pose proof (Hnow s) as N.
  destruct (h Now s) as [now s1]. simpl in M, N. apply fetch_loop_ends; lia.
Qed.
End clock.

(** An agent that never comes up, on a clock that sleeping moves. *)
Definition down : handler SHIM Z := λ c s,
  match c return answer c * Z with
  | Now => (s, s)
  | Sleep d => (tt, (s + Z.max d 0)%Z)
  | Dial _ _ => (Some ECONNREFUSED, (s + 1)%Z)
  | SetDeadline _ => (None, s)
  | Send _ => (None, s)
  | Receive => (Err (Other "EOF"), s)
  | LookPath f => (Ok f, s)
  | Environ => (["PATH=/bin"], s)
  | Warn _ => (tt, s)
  | Exec _ _ _ => ("", s)
  end.

Lemma fetchSecrets_terminates_witness :
  (exec down (fetchSecrets 61 "/run/ks.sock" "/bin/app" 15000 250) 100%Z).1 ≠ None.
Proof.
  apply (fetchSecrets_terminates down (λ s, s)).
  - done.
  - intros c s. destruct c; simpl; lia.
  - intros d s. simpl. lia.
  - lia.
  - lia.
Defined.

(** ** What is started *)

Definition execs (tr : trace SHIM) : list (string * list string * list string) :=
  omap (λ e : event SHIM,
          match ev_op e with Exec p a env => Some (p, a, env) | _ => None end) tr.

Definition received (tr : trace SHIM) : list protocol.Response :=
  omap (λ e : event SHIM,
          match ev_op e as c return ans SHIM c → option protocol.Response with
          | Receive => λ x, match x with Ok r => Some r | Err _ => None end
          | _ => λ _, None
          end (ev_ans e)) tr.

Definition inherited (tr : trace SHIM) : list (list string) :=
  omap (λ e : event SHIM,
          match ev_op e as c return ans SHIM c → option (list string) with
          | Environ => λ x, Some x
          | _ => λ _, None
          end (ev_ans e)) tr.

Definition sends (tr : trace SHIM) : list protocol.Request :=
  omap (λ e : event SHIM, match ev_op e with Send r => Some r | _ => None end) tr.

(** Programs that do not exec. *)
Definition quiet (c : op SHIM) : Prop :=
  match c with Exec _ _ _ => False | _ => True end.

Lemma execs_quiet {A} (p : prog SHIM A) tr a :
  only quiet p → runs p tr a → execs tr = [].
Proof.
  intros Hp Hr. pose proof (only_runs _ _ _ _ Hp Hr) as Hall. clear Hp Hr.
  induction Hall as [|e tr He _ IH]; [done|]. unfold execs in *. simpl.
  by destruct (ev_op e).
Qed.

Lemma quiet_requestOnce socket binary remaining : only quiet (requestOnce socket binary remaining).
Proof.
  unfold requestOnce. destruct (remaining <=? 0)%Z; [done|].
  split; [done|]. intros [e|]; [done|]. split; [done|]. intros now.
  split; [done|]. intros [e|]; [done|]. split; [done|]. intros [e|]; [done|]. by split.
Qed.

Lemma quiet_fetch_loop fuel socket binary deadline timeout retry :
  only quiet (fetch_loop fuel socket binary deadline timeout retry).
Proof.
  induction fuel as [|fuel IH]; [done|]. cbn [fetch_loop].
  apply only_bind; [by split|]. intros now.
  apply only_bind; [apply quiet_requestOnce|]. intros [r|e]; [done|].
  destruct (isConnectError e); [|done]. apply only_bind; [by split|]. intros now'.
  destruct (now' + retry <? deadline)%Z; [|done].
  apply only_bind; [by split|]. intros []. apply IH.
Qed.

Lemma received_app tr1 tr2 : received (tr1 ++ tr2) = received tr1 ++ received tr2.
Proof. apply omap_app. Qed.

Lemma execs_app tr1 tr2 : execs (tr1 ++ tr2) = execs tr1 ++ execs tr2.
Proof. apply omap_app. Qed.

Lemma inherited_app tr1 tr2 : inherited (tr1 ++ tr2) = inherited tr1 ++ inherited tr2.
Proof. apply omap_app. Qed.

Lemma requestOnce_received socket binary remaining tr resp :
  runs (requestOnce socket binary remaining) tr (Ok resp) →
  resp ∈ received tr ∧ protocol.resp_OK resp = true.
Proof.
  unfold requestOnce. destruct (remaining <=? 0)%Z; [by intros [_ ?]|].
  intros (e & t1 & -> & H). destruct e; [by destruct H|].
  destruct H as (now & t2 & -> & H). destruct H as (e & t3 & -> & H).
  destruct e; [by destruct H|]. destruct H as (e & t4 & -> & H). destruct e; [by destruct H|].
  destruct H as (r & t5 & -> & -> & H). destruct r as [r|e]; [|done].
  destruct (protocol.resp_OK r) eqn:E; [|done]. injection H as ->. split; [by left|done].
Qed.

Lemma fetch_loop_received fuel socket binary deadline timeout retry tr resp :
  runs (fetch_loop fuel socket binary deadline timeout retry) tr (Some (Ok resp)) →
  resp ∈ received tr ∧ protocol.resp_OK resp = true.
Proof.
  revert tr. induction fuel as [|fuel IH]; intros tr; [by intros [_ ?]|].
  cbn [fetch_loop]. intros (t1 & t' & now & -> & _ & H)%runs_bind.
  apply runs_bind in H as (t2 & t3 & r & -> & H1 & H2).
  rewrite !received_app, !elem_of_app.
  destruct r as [r|e].
  - destruct H2 as [-> [= ->]]. apply requestOnce_received in H1 as [? ?]. tauto.
  - destruct (isConnectError e); cbn [negb bind do Effects.call runs] in H2;
      [|by destruct H2 as [_ ?]].
    destruct H2 as (now' & t4 & -> & H2).
    destruct (now' + retry <? deadline)%Z; cbn [negb bind do Effects.call runs] in H2;
      [|by destruct H2 as [_ ?]].
    destruct H2 as (u & t5 & -> & H2). destruct (IH _ H2) as [Hin ?].
    split; [|done]. right; right. exact Hin.
Qed.

Lemma start_execs binary argv resp tr c :
  runs (start binary argv resp) tr c →
  ∃ base, base ∈ inherited tr ∧ execs tr = [(binary, argv, mergeEnv base (protocol.resp_Env resp))].
Proof.
  unfold start. intros H. cbn [bind do Effects.call] in H.
  destruct H as (base & t1 & -> & H). exists base. split; [by left|].
  apply runs_bind in H as (t2 & t3 & u & -> & H1 & H).
  apply runs_bind in H as (t4 & t5 & u' & -> & H2 & H).
  destruct H as (e & t6 & -> & H). apply runs_bind in H as (t7 & t8 & u'' & -> & H3 & -> & ->).
  assert (∀ l tr (b : bool) u, runs (if b then warn l else Ret tt) tr u → execs tr = []) as Hw.
  { intros l tr b v Hr. eapply execs_quiet; [|exact Hr]. destruct b; [by split|done]. }
  change (execs (Event (Σ:=SHIM) Environ base :: ?t)) with (execs t).
  rewrite !execs_app.
  assert (execs t2 = []) as ->.
  { eapply execs_quiet; [|exact H1]. case_decide; [by split|done]. }
  rewrite (Hw _ _ _ _ H2).
  change (execs (Event (Σ:=SHIM) (Exec ?p ?a ?env) ?x :: ?t)) with ((p, a, env) :: execs t).
  rewrite execs_app. by assert (execs t7 = []) as -> by by (eapply execs_quiet; [|exact H3]; split).
Qed.

Lemma fetch_quiet fuel socket binary timeout retry tr r :
  runs (fetchSecrets fuel socket binary timeout retry) tr r → execs tr = [].
Proof.
  apply execs_quiet. unfold fetchSecrets. apply only_bind; [by split|].
  intros now. apply quiet_fetch_loop.
Qed.

Lemma fetch_received fuel socket binary timeout retry tr resp :
  runs (fetchSecrets fuel socket binary timeout retry) tr (Some (Ok resp)) →
  resp ∈ received tr ∧ protocol.resp_OK resp = true.
Proof.
  unfold fetchSecrets. intros (t1 & t2 & now & -> & _ & H)%runs_bind.
  apply fetch_loop_received in H as [? ?]. rewrite received_app, elem_of_app. tauto.
Qed.

(** C37. Failing closed: under the default -on-error=fail, in whatever way the
    agent, the connection and the file system behave, the target is started at
    most once, only with the command line given, and only after an answer of
    the agent that says OK, whose variables are what is overlaid on the
    inherited environment.  Without such an answer nothing is started. *)
Theorem main_fails_closed (fuel : nat) (fl : flags) (tr : trace SHIM) (code : option Z)
  (Hrun : runs (main fuel fl) tr code) (Hfail : f_onError fl = "fail") :
  execs tr = [] ∨
  ∃ binary resp base, execs tr = [(binary, f_argv fl, mergeEnv base (protocol.resp_Env resp))] ∧
    protocol.resp_OK resp = true ∧ resp ∈ received tr ∧ base ∈ inherited tr.
Proof.
  unfold main in Hrun. destruct (f_argv fl) as [|cmd args] eqn:Eargv.
  { left. eapply execs_quiet; [|exact Hrun]. by split. }
  rewrite Hfail in Hrun. change (parseOnError "fail") with (@Ok bool string true) in Hrun.
  cbv iota in Hrun. apply runs_bind in Hrun as (t1 & t2 & p & -> & H1 & H2).
  assert (execs t1 = []) as E1 by (eapply execs_quiet; [|exact H1]; by split).
  rewrite !execs_app, E1. destruct p as [binary|e].
  2:{ left. eapply execs_quiet; [|exact H2]. by split. }
  apply runs_bind in H2 as (t3 & t4 & r & -> & H3 & H4).
  rewrite execs_app, (fetch_quiet _ _ _ _ _ _ _ H3). destruct r as [[resp|e]|].
  - right. apply fetch_received in H3 as [Hin Hok].
    apply runs_bind in H4 as (t5 & t6 & c & Ht & H5 & H6). destruct H6 as [-> _].
    rewrite app_nil_r in Ht. subst t4.
    apply start_execs in H5 as (base & Hb & ->). exists binary, resp, base.
    split; [done|]. split; [done|]. rewrite !received_app, !inherited_app, !elem_of_app. tauto.
  - left. eapply execs_quiet; [|exact H4]. split; [done|]. intros ?. by split.
  - left. by destruct H4 as [-> _].
Qed.

(** An agent that answers with one variable. *)
Definition serving (resp : protocol.Response) : handler SHIM Z := λ c s,
  match c return answer c * Z with
  | Dial _ _ => (None, s)
  | Receive => (Ok resp, s)
  | c => down c s
  end.

Definition example_response : protocol.Response :=
  protocol.mkResponse true {[ "TOKEN" := "s3cr3t" ]} true "" "".

Definition example_flags : flags :=
  mkFlags "/run/ks.sock" 15000 250 "fail" ["app"; "-v"].

Lemma main_fails_closed_witness :
  ∃ tr code, runs (main 1 example_flags) tr code ∧
    execs tr = [("app", ["app"; "-v"], ["PATH=/bin"; "TOKEN=s3cr3t"])] ∧
    (execs tr = [] ∨
     ∃ binary resp base,
       execs tr = [(binary, ["app"; "-v"], mergeEnv base (protocol.resp_Env resp))] ∧
       protocol.resp_OK resp = true ∧ resp ∈ received tr ∧ base ∈ inherited tr).
Proof.
  pose proof (traced_runs (serving example_response) (main 1 example_flags) 0%Z) as H.
  remember (traced (serving example_response) (main 1 example_flags) 0%Z) as x eqn:Hx.
  vm_compute in Hx. subst x. cbn [fst snd] in H.
  eexists _, _. split; [exact H|]. split; [reflexivity|].
  exact (main_fails_closed 1 example_flags _ _ H eq_refl).
Defined.

(** ** What is retried *)

Lemma sends_app tr1 tr2 : sends (tr1 ++ tr2) = sends tr1 ++ sends tr2.
Proof. apply omap_app. Qed.

(** A single attempt whose answer is a refusal. *)
Definition refusal (resp : protocol.Response) : err :=
  mkErr (Refused (if decide (protocol.resp_Error resp = "") then "agent refused the request"
                  else protocol.resp_Error resp)) (Other "").

Lemma requestOnce_answer socket binary remaining tr a :
  runs (requestOnce socket binary remaining) tr a →
  (received tr = [] ∧ ∃ e, a = Err e) ∨
  ∃ tr1 resp, tr = tr1 ++ [Event (Σ:=SHIM) Receive (Ok resp)] ∧ received tr = [resp] ∧
    a = if protocol.resp_OK resp then Ok resp else Err (refusal resp).
Proof.
  unfold requestOnce. destruct (remaining <=? 0)%Z; [intros [-> ->]; eauto|].
  intros (e & t1 & -> & H). destruct e; [destruct H as [-> ->]; eauto|].
  destruct H as (now & t2 & -> & H). destruct H as (e & t3 & -> & H).
  destruct e; [destruct H as [-> ->]; eauto|].
  destruct H as (e & t4 & -> & H). destruct e; [destruct H as [-> ->]; eauto|].
  destruct H as (r & t5 & -> & -> & ->). destruct r as [resp|e]; [|eauto].
  right. eexists [_; _; _; _], resp. split; [reflexivity|]. split; [done|].
  by destruct (protocol.resp_OK resp).
Qed.

(** A refusal by the agent is final: in every run of the retry loop an
    answer of the agent, granted or refused, is the last thing that happens,
    and a refusal's text is the error reported.  Only attempts that brought no
    answer are followed by another. *)
Theorem answer_is_final (fuel : nat) (socket binary : string) (deadline timeout retry : Z)
    (tr : trace SHIM) (r : option (result protocol.Response err)) (resp : protocol.Response)
  (Hrun : runs (fetch_loop fuel socket binary deadline timeout retry) tr r)
  (Hin : resp ∈ received tr) :
  received tr = [resp] ∧ (∃ tr1, tr = tr1 ++ [Event (Σ:=SHIM) Receive (Ok resp)]) ∧
  r = Some (if protocol.resp_OK resp then Ok resp else Err (refusal resp)).
Proof.
  revert tr Hrun Hin. induction fuel as [|fuel IH]; intros tr; cbn [fetch_loop].
  { intros [-> _] Hin. by apply not_elem_of_nil in Hin. }
  intros (t1 & t' & now & -> & H0 & H)%runs_bind Hin.
  destruct H0 as (x & t0 & -> & -> & _).
  apply runs_bind in H as (t2 & t3 & a & -> & H1 & H2).
  apply requestOnce_answer in H1 as [(Hr & e & ->)|(tr1 & resp' & -> & Hr & ->)].
  - rewrite !received_app, Hr in Hin |- *. cbn [received omap list_omap app] in Hin |- *.
    destruct (isConnectError e); cbn [negb bind do Effects.call runs] in H2;
      [|by destruct H2 as [-> _]; apply not_elem_of_nil in Hin].
    destruct H2 as (now' & t4 & -> & H2).
    destruct (now' + retry <? deadline)%Z; cbn [negb bind do Effects.call runs] in H2;
      [|by destruct H2 as [-> _]; apply not_elem_of_nil in Hin].
    destruct H2 as (u & t5 & -> & H2). destruct (IH _ H2 Hin) as (Hone & [t6 ->] & ->).
    split; [done|]. split; [|done]. eexists (_ :: t2 ++ _ :: _ :: t6).
    by rewrite <-!app_comm_cons, <-app_assoc.
  - assert (t3 = [] ∧ r = Some (if protocol.resp_OK resp' then Ok resp' else Err (refusal resp')))
      as [-> ->].
    { destruct (protocol.resp_OK resp'); by destruct H2 as [-> ->]. }
    rewrite app_nil_r in *. rewrite received_app in Hin |- *. rewrite Hr in Hin |- *.
    cbn [received omap list_omap app] in Hin |- *.
    apply list_elem_of_singleton in Hin as ->. split; [done|]. split; [|done].
    by eexists (_ :: tr1).
Qed.

Lemma answer_is_final_witness :
  let resp := protocol.Refusal "no secret binding admits this caller" in
  ∃ tr r, runs (fetch_loop 5 "/run/ks.sock" "app" 15000 15000 250) tr r ∧
    received tr = [resp] ∧ (∃ tr1, tr = tr1 ++ [Event (Σ:=SHIM) Receive (Ok resp)]) ∧
    r = Some (Err (refusal resp)).
Proof.
  set (resp := protocol.Refusal "no secret binding admits this caller").
  pose proof (traced_runs (serving resp) (fetch_loop 5 "/run/ks.sock" "app" 15000 15000 250) 0%Z) as H.
  remember (traced (serving resp) (fetch_loop 5 "/run/ks.sock" "app" 15000 15000 250) 0%Z) as x eqn:Hx.
  vm_compute in Hx. subst x. cbn [fst snd] in H.
  eexists _, _. split; [exact H|].
  apply (answer_is_final 5 "/run/ks.sock" "app" 15000 15000 250 _ _ resp H). left.
Defined.

(** A connection that breaks after the request was sent, and works the second
    time. *)
Definition resetting (msg : string) (resp : protocol.Response) : handler SHIM (bool * Z) := λ c s,
  match c return answer c * (bool * Z) with
  | Receive => if s.1 then (Ok resp, s) else (Err (OpError msg), (true, s.2))
  | c => let '(x, z) := serving resp c s.2 in (x, (s.1, z))
  end.

(** A failure while reading the answer counts as a failure to reach the
    agent: when the connection breaks after the request went out, the loop
    sleeps and sends the request a second time, so the agent may release the
    same secrets twice for one start. *)
Theorem broken_read_is_resent (msg socket binary : string) (timeout retry : Z)
    (resp : protocol.Response)
  (Hok : protocol.resp_OK resp = true) (Hr : (0 ≤ retry)%Z) (Ht : (retry < timeout)%Z) :
  let '(tr, r, _) := traced (resetting msg resp)
                       (fetchSecrets 2 socket binary timeout retry) (false, 0%Z) in
  sends tr = [protocol.mkRequest binary; protocol.mkRequest binary] ∧ r = Some (Ok resp).
Proof.
  unfold fetchSecrets. cbn [fetch_loop]. unfold requestOnce.
  cbn -[Z.add Z.sub Z.leb Z.ltb Z.max]. rewrite Z.add_0_l, Z.sub_0_r.
  rewrite (proj2 (Z.leb_gt timeout 0)) by lia. cbn -[Z.add Z.sub Z.leb Z.ltb Z.max].
  rewrite Z.add_0_l, (proj2 (Z.ltb_lt retry timeout)) by lia.
  cbn -[Z.add Z.sub Z.leb Z.ltb Z.max].
  rewrite (proj2 (Z.leb_gt (timeout - _) 0)) by lia. cbn -[Z.add Z.sub Z.leb Z.ltb Z.max].
  rewrite Hok. done.
Qed.

Lemma broken_read_is_resent_witness :
  let '(tr, r, _) := traced (resetting "connection reset by peer" example_response)
                       (fetchSecrets 2 "/run/ks.sock" "app" 15000 250) (false, 0%Z) in
  sends tr = [protocol.mkRequest "app"; protocol.mkRequest "app"] ∧ r = Some (Ok example_response).
Proof.
  apply (broken_read_is_resent "connection reset by peer" "/run/ks.sock" "app" 15000 250);
    [reflexivity|lia|lia].
Defined.

End shim.
