(* ===== verification/Metrics.v ===== *)
(** * Package metrics ([src/internal/metrics/metrics.go])

    Counters, gauges and the three endpoints.  Counters are 64-bit and wrap;
    a sampled value is a whole number here, which covers every gauge the agent
    registers, and is printed as [formatValue] prints a float64 that holds it
    exactly (up to 2^53); fractions are not modelled.  Of the HTTP server there
    is its address, its routes and whether it listens; the exchanges are
    [net/http]'s. *)

From S2P Require Import Prelude GoStrings Effects Os Kube.

Module metrics.

(** ** The collector *)

Record Collector := mkCollector {
  execEvents : Z; secretsIssued : Z; secretsDenied : Z;
  accessBlocked : Z; accessAudited : Z;
  gauges : gmap string Z;  (** what each gauge function returns when sampled *)
}.

Definition NewCollector : Collector := mkCollector 0 0 0 0 0 ∅.

Definition RecordExecEvent (c : Collector) : Collector :=
  mkCollector (uint64 (execEvents c + 1)) (secretsIssued c) (secretsDenied c)
    (accessBlocked c) (accessAudited c) (gauges c).

Definition RecordSecretsIssued (c : Collector) (n : Z) : Collector :=
  if (0 <? n)%Z then
    mkCollector (execEvents c) (uint64 (secretsIssued c + n)) (secretsDenied c)
      (accessBlocked c) (accessAudited c) (gauges c)
  else c.

Definition RecordSecretsDenied (c : Collector) : Collector :=
  mkCollector (execEvents c) (secretsIssued c) (uint64 (secretsDenied c + 1))
    (accessBlocked c) (accessAudited c) (gauges c).

Definition RecordAccessBlocked (c : Collector) : Collector :=
  mkCollector (execEvents c) (secretsIssued c) (secretsDenied c)
    (uint64 (accessBlocked c + 1)) (accessAudited c) (gauges c).

Definition RecordAccessAudited (c : Collector) : Collector :=
  mkCollector (execEvents c) (secretsIssued c) (secretsDenied c)
    (accessBlocked c) (uint64 (accessAudited c + 1)) (gauges c).

(** [SetGauge]; [None] is a nil function. *)
Definition SetGauge (c : Collector) (name : string) (fn : option Z) : Collector :=
  mkCollector (execEvents c) (secretsIssued c) (secretsDenied c) (accessBlocked c)
    (accessAudited c)
    (match fn with
     | None => base.delete name (gauges c)
     | Some v => <[name := v]> (gauges c)
     end).

(** ** Exposition *)

Record metric := mkMetric { name : string; help : string; kind : string; value : Z }.

Definition snapshot (c : Collector) : list metric :=
  [mkMetric "kernelseal_exec_events_total" "Total process execution events processed."
     "counter" (execEvents c);
   mkMetric "kernelseal_secrets_issued_total" "Total secrets released to target processes."
     "counter" (secretsIssued c);
   mkMetric "kernelseal_secrets_denied_total" "Total secret requests refused."
     "counter" (secretsDenied c);
   mkMetric "kernelseal_access_blocked_total" "Total access attempts blocked by BPF-LSM."
     "counter" (accessBlocked c);
   mkMetric "kernelseal_access_audit_total" "Total access attempts audited but allowed."
     "counter" (accessAudited c)]
  ++ ((λ n, mkMetric n "KernelSeal runtime gauge." "gauge" (default 0%Z (gauges c !! n)))
        <$> sort.Strings (map_to_list (gauges c)).*1).

Definition newline : string := String "010" "".

(** [strconv.FormatInt]; [pretty] prints the sign of a negative number. *)
Definition formatValue (v : Z) : string := pretty v.

Definition metric_lines (m : metric) : list string :=
  ["# HELP " +:+ name m +:+ " " +:+ help m; "# TYPE " +:+ name m +:+ " " +:+ kind m;
   name m +:+ " " +:+ formatValue (value m)].

(** [WriteText]: every line is ended by a newline. *)
Definition WriteText (c : Collector) : string :=
  foldr (λ l acc, l +:+ newline +:+ acc) "" (snapshot c ≫= metric_lines).

(** ** Endpoints: the status and the body *)

Definition handleMetrics (c : Collector) : Z * string := (200%Z, WriteText c).

Definition handleHealthz : Z * string := (200%Z, "ok" +:+ newline).

(** [ready] is [None] for a nil function, else what it returns. *)
Definition handleReady (ready : option (option error)) : Z * string :=
  match ready with
  | Some (Some e) => (503%Z, "not ready: " +:+ e +:+ newline)
  | _ => (200%Z, "ready" +:+ newline)
  end.

(** ** The server *)

Record Server := mkServer {
  httpAddr : string;
  ln : option string;   (** the address of the listener *)
  serving : bool;
}.

Definition NewServer (port : Z) : Server :=
  mkServer (kube.JoinHostPort "" (fmt.d port)) None false.

(** The handler of a path, as registered with the multiplexer. *)
Definition route (c : Collector) (ready : option (option error)) (path : string) : Z * string :=
  if decide (path = "/metrics") then handleMetrics c
  else if decide (path = "/healthz") then handleHealthz
  else if decide (path = "/ready") then handleReady ready
  else (404%Z, "404 page not found" +:+ newline).

(** [Start], on what [net.Listen] returns. *)
Definition Start (s : Server) (listen : result string error) : Server * option error :=
  match listen with
  | Err e => (s, Some ("binding metrics listener on " +:+ httpAddr s +:+ ": " +:+ e))
  | Ok addr => (mkServer (httpAddr s) (Some addr) true, None)
  end.

Definition Addr (s : Server) : string := default "" (ln s).

(** [Stop]: [Shutdown] closes the listener at once and then waits for the requests
    being served, as long as its context lets it; its error is only logged. *)
Definition shutdownTimeout : Z := 5. (* seconds *)

Definition shutdown_context : context.t :=
  context.WithTimeout context.Background shutdownTimeout.

Definition Stop (s : Server) : Server := mkServer (httpAddr s) (ln s) false.

(** ** What a scraper reads *)

(** The samples of an exposition: the lines that are not comments, cut at their
    space. *)
Definition sample (line : string) : option (string * string) :=
  if strings.HasPrefix line "#" then None else strings.Cut line " ".

Definition scrape (text : string) : list (string * string) :=
  omap sample (strings.Split text "010").

Definition line_ok (l : string) : Prop := byte_free "010" l = true.

Lemma Split_lines ls :
  Forall line_ok ls →
  strings.Split (foldr (λ l acc, l +:+ newline +:+ acc) "" ls) "010" = ls ++ [""].
Proof.
  induction 1 as [|l ls Hl _ IH]; [done|]. cbn [foldr].
  unfold newline at 1. rewrite app_cons_str, app_nil_l_str, strings.Split_app_sep.
  by rewrite strings.Split_byte_free, IH.
Qed.

Lemma free_app c s t : byte_free c (s +:+ t) = byte_free c s && byte_free c t.
Proof. apply all_bytes_app. Qed.

Lemma free_pretty c (v : Z) : c ≠ "-"%char → strconv.is_digit c = false → byte_free c (pretty v) = true.
Proof.
  intros Hm Hd. assert (∀ z, (0 ≤ z)%Z → byte_free c (pretty z) = true) as Hpos.
  { intros z Hz. pose proof (strconv.all_digits_FormatUint z Hz) as H. unfold strconv.FormatUint in H.
    revert H. apply all_bytes_impl. intros b Hb. apply negb_true_iff, Ascii.eqb_neq.
    intros ->. congruence. }
  destruct v as [|p|p]; [by apply Hpos|by apply Hpos|].
  change (pretty (Z.neg p)) with (String "-" (pretty (Z.pos p))).
  unfold byte_free. cbn [all_bytes]. fold (byte_free c (pretty (Z.pos p))).
  rewrite Hpos by done. rewrite andb_true_r. apply negb_true_iff, Ascii.eqb_neq. congruence.
Qed.

(** A name Prometheus accepts as far as lines go. *)
Definition name_ok (n : string) : Prop :=
  byte_free "010" n = true ∧ byte_free " " n = true ∧ n ≠ "" ∧ ∀ r, n ≠ String "#" r.

Lemma sample_line n v : name_ok n → sample (n +:+ " " +:+ formatValue v) = Some (n, formatValue v).
Proof.
  intros (_ & Hs & Hne & Hh). unfold sample.
  assert (strings.HasPrefix (n +:+ " " +:+ formatValue v) "#" = false) as ->.
  { destruct n as [|a n]; [done|]. unfold strings.HasPrefix. rewrite app_cons_str.
    cbn [strings.strip_prefix]. destruct (Ascii.eqb_spec "#" a) as [<-|]; [|done].
    by destruct (Hh n). }
  rewrite app_cons_str, app_nil_l_str. by apply strings.Cut_app.
Qed.

Definition metric_ok (m : metric) : Prop :=
  name_ok (name m) ∧ byte_free "010" (help m) = true ∧ byte_free "010" (kind m) = true.

Lemma scrape_metrics ms :
  Forall metric_ok ms →
  scrape (foldr (λ l acc, l +:+ newline +:+ acc) "" (ms ≫= metric_lines)) =
  (λ m, (name m, formatValue (value m))) <$> ms.
Proof.
  intros Hms. unfold scrape. rewrite Split_lines.
  - rewrite omap_app. cbn [omap list_omap sample strings.Cut]. rewrite app_nil_r.
    induction Hms as [|m ms (Hn & _) _ IH]; [done|].
    cbn [mbind list_bind metric_lines app]. cbn [omap list_omap].
    change (sample ("# HELP " +:+ _)) with (@None (string * string)).
    change (sample ("# TYPE " +:+ _)) with (@None (string * string)). cbv iota.
    rewrite sample_line by done. cbn [fmap list_fmap]. by rewrite <-IH.
  - induction Hms as [|m ms (Hn & Hh & Hk) _ IH]; [constructor|].
    cbn [mbind list_bind metric_lines app]. destruct Hn as (Hn & _).
    repeat constructor; try done; unfold line_ok; rewrite !free_app, ?Hn, ?Hh, ?Hk; [done|done|].
    by rewrite (free_pretty _ (value m)).
Qed.

(** A scrape of the exposition gives back the collector: the five counters
    under their names, in a fixed order, then every registered gauge once, in
    the order of the names, each with its current value. *)
Theorem scrape_reports (c : Collector)
  (Hg : map_Forall (λ n _, name_ok n) (gauges c)) :
  (scrape (WriteText c) =
   [("kernelseal_exec_events_total", formatValue (execEvents c));
    ("kernelseal_secrets_issued_total", formatValue (secretsIssued c));
    ("kernelseal_secrets_denied_total", formatValue (secretsDenied c));
    ("kernelseal_access_blocked_total", formatValue (accessBlocked c));
    ("kernelseal_access_audit_total", formatValue (accessAudited c))]
   ++ ((λ n, (n, formatValue (default 0%Z (gauges c !! n))))
         <$> sort.Strings (map_to_list (gauges c)).*1)) ∧
  ∀ n, n ∈ sort.Strings (map_to_list (gauges c)).*1 ↔ is_Some (gauges c !! n).
Proof.
  assert (∀ n, n ∈ sort.Strings (map_to_list (gauges c)).*1 ↔ is_Some (gauges c !! n)) as Hin.
  { intros n. rewrite sort.elem_of_Strings, list_elem_of_fmap. split.
    - intros ([k v] & -> & H%elem_of_map_to_list). eauto.
    - intros [v Hv]. exists (n, v). by rewrite elem_of_map_to_list. }
  split; [|done]. unfold WriteText. rewrite scrape_metrics.
  - unfold snapshot. rewrite fmap_app. f_equal. rewrite <-list_fmap_compose. done.
  - unfold snapshot. apply Forall_app. split.
    + repeat constructor; done.
    + apply Forall_fmap, Forall_forall. intros n [v Hv]%Hin. split; [|done]. by eapply Hg.
Qed.

Lemma scrape_reports_witness :
  let c := SetGauge (RecordSecretsIssued NewCollector 2) "kernelseal_lsm_loaded" (Some 1%Z) in
  scrape (WriteText c) =
  [("kernelseal_exec_events_total", "0"); ("kernelseal_secrets_issued_total", "2");
   ("kernelseal_secrets_denied_total", "0"); ("kernelseal_access_blocked_total", "0");
   ("kernelseal_access_audit_total", "0"); ("kernelseal_lsm_loaded", "1")].
Proof.
  intros c. destruct (scrape_reports c) as [H _].
  - apply map_Forall_singleton. repeat split; done.
  - rewrite H. vm_compute. reflexivity.
Defined.

End metrics.
