(* ===== verification/Lifecycle.v ===== *)
(** * Running and stopping

    The goroutines of the agent and how it stops: the accept loop and one
    goroutine per connection ([Serve] and [Close] in
    [src/internal/server/server.go]), the sweep loop ([Start] and [Stop] in
    [src/internal/reconcile/reconcile.go]), the event loops ([Stop] in
    [src/internal/bpf/loader.go]), the pod watch ([Start] and [Stop] in
    [src/internal/kube/pods.go]) and the shutdown at the end of [main].  Each
    component is a step relation on its own state; [step] interleaves them.
    A call that blocks is answered from outside, or gives up by itself when its
    deadline or its context says so.  The claims: what has ended when the kernel
    hooks are detached, and that stopping ends. *)

From S2P Require Import Prelude GoStrings Effects Os Protocol Kube Secrets Server Socket.
From S2P Require Import Types Policy Kernel Loader Reconcile Metrics.

Module lifecycle.

Local Open Scope prog_scope.

(** ** How long a connection takes

    The operations of one connection are bounded, whatever they answer. *)
Section bounds.
Import secrets server.

Lemma denied_within s pid reason : within any_answer 1 (denied s pid reason).
Proof. unfold denied. by destruct (has_onDenied s). Qed.

Lemma refused_within s pid reason l (r : protocol.Response) :
  within any_answer 2 (denied s pid reason ;;; log l ;;; Ret r).
Proof. apply (within_bind _ 1 1); [apply denied_within|done]. Qed.

Lemma warn_within (e : option error) l :
  within any_answer 1 (match e with Some e => log (l e) | None => Ret tt end).
Proof. by destruct e. Qed.

Lemma release_within s pid peer bin b m : within any_answer 5 (release s pid peer bin b m).
Proof.
  unfold release, issued. destruct b, (has_onIssued s); repeat case_decide; cbn; auto.
Qed.

Lemma after_protect_within s pid peer bin m b perr r :
  within any_answer 5 (after_protect s pid peer bin m b perr r).
Proof.
  unfold after_protect. destruct (match r with Ok _ => _ | Err _ => _ end).
  - apply (within_bind _ 1 4); [done|]. intros e.
    apply (within_bind _ 1 3); [apply warn_within|]. intros _.
    eapply within_mono; [|apply refused_within]. lia.
  - destruct (_ && _); [|apply release_within].
    eapply within_mono; [|apply refused_within]. lia.
Qed.

Lemma protect_within s pid peer bin m : within any_answer 11 (protect_and_release s pid peer bin m).
Proof.
  unfold protect_and_release. apply (within_bind _ 1 10); [done|]. intros [n|e].
  - apply (within_bind _ 1 9); [done|]. intros perr.
    apply (within_bind _ 1 8); [apply warn_within|]. intros _.
    apply (within_bind _ 1 7); [done|]. intros terr.
    apply (within_bind _ 1 6); [apply warn_within|]. intros _.
    apply (within_bind _ 1 5); [done|]. intros r. apply after_protect_within.
  - eapply within_mono; [|apply refused_within]. lia.
Qed.

Lemma deliver_within s pid peer bin m : within any_answer 11 (deliver s pid peer bin m).
Proof.
  unfold deliver.
  destruct (Empty m); [done|]. destruct (_ && _).
  { eapply within_mono; [|apply refused_within]. lia. }
  destruct (_ && _).
  { eapply within_mono; [|apply refused_within]. lia. }
  destruct (bool_decide _); [|apply protect_within].
  destruct (RequireProtection _); [|done]. eapply within_mono; [|apply refused_within]. lia.
Qed.

Lemma handle_within s cred req : within any_answer 17 (handle s cred req).
Proof.
  unfold handle. apply (within_bind _ 2 15); [done|]. intros peer.
  destruct (_ || _).
  { apply (within_bind _ 1 14); [apply denied_within|done]. }
  apply (within_bind _ 1 14).
  { unfold identify. by do 2 (destruct (negb _); [done|]). }
  intros [caller identErr]. apply (within_bind _ 2 12).
  { unfold identity_gate. destruct (RequirePodIdentity _).
    - destruct identErr as [e|], (caller_Pod _); try done;
        (apply (within_bind _ 1 1); [apply denied_within|done]).
    - by destruct identErr. }
  intros [r|]; [done|]. apply (within_bind _ 1 11); [done|]. intros m. apply deliver_within.
Qed.

Definition conn_ops : nat := 24.

Lemma lift_srv_within {A} n (p : prog SRV A) :
  within any_answer n p → within any_answer n (lift_srv p).
Proof.
  unfold lift_srv. revert n. induction p as [a|o k IH]; intros n; [done|].
  destruct n as [|n]; [done|]. cbn. intros H x _. by apply IH, H.
Qed.

Lemma reply_within resp : within any_answer 2 (reply resp).
Proof. unfold reply. apply (within_bind _ 1 1); [done|]. by intros [e|]. Qed.

Lemma exchange_within s : within any_answer 23 (exchange s).
Proof.
  unfold exchange. apply (within_bind _ 1 22); [done|]. intros [e|]; [done|].
  apply (within_bind _ 1 21); [done|]. intros [|]; [|done]. cbn [negb].
  apply (within_bind _ 1 20); [done|]. intros [cred|e].
  - apply (within_bind _ 1 19); [done|]. intros [req|e].
    + apply (within_bind _ 17 2); [apply lift_srv_within, handle_within|]. intros resp.
      apply reply_within.
    + apply (within_bind _ 1 18); [done|]. intros _. eapply within_mono; [|apply reply_within]. lia.
  - apply (within_bind _ 1 19); [done|]. intros _. eapply within_mono; [|apply reply_within]. lia.
Qed.

Lemma handleConn_within s : within any_answer conn_ops (handleConn s).
Proof. apply (within_bind _ 23 1); [apply exchange_within|done]. Qed.

(** The calls that wait for the peer, and what they answer when the deadline has
    passed. *)
Definition blocking (o : op CONN) : bool :=
  match o with ReadRequest | WriteResponse _ => true | _ => false end.

Definition timed_out (o : op CONN) : ans CONN o → Prop :=
  match o return ans CONN o → Prop with
  | ReadRequest => λ x, ∃ e, x = Err e
  | WriteResponse _ => λ x, x ≠ None
  | _ => λ _, False
  end.

Definition deadline_set (tr : trace CONN) : Prop :=
  ∃ d, Event (Σ:=CONN) (SetDeadline d) None ∈ tr.

(** Whatever waits for the peer does so with a deadline. *)
Lemma blocks_with_deadline s tr o k :
  performs (handleConn s) tr (Do o k) → blocking o = true → deadline_set tr.
Proof.
  intros H Hb. apply performs_inv in H. destruct tr as [|e tr].
  { unfold handleConn, exchange in H. cbn in H. injection H as -> _. done. }
  destruct H as (x & -> & H). destruct x as [err|]; [|exists handshakeTimeout; by left].
  apply (performs_only (λ o, blocking o = false)) in H as [H _]; [congruence|].
  cbn. by repeat split.
Qed.

Lemma conn_answers (o : op CONN) : inhabited (ans CONN o).
Proof. destruct o; try (by repeat constructor). apply srv_answers. Qed.

Lemma timed_out_answers (o : op CONN) : blocking o = true → ∃ x, timed_out o x.
Proof.
  destruct o; try done; intros _; [by exists (Err "i/o timeout"), "i/o timeout"|by exists (Some "i/o timeout")].
Qed.

End bounds.

(** ** The secret server

    Accepting, and a goroutine for every connection.  Steps are the program's
    own, its timers among them, or, when they need something from outside, the
    environment's. *)
Inductive who := Own | Env.

Module serving.

(** Where the accept loop is: in [Accept]; with its error, [net.ErrClosed] or
    another; with a connection; returned. *)
Inductive acceptor :=
| AtAccept
| Failed (closed : bool)
| Accepted
| Returned.

(** A connection: what its goroutine has done and what it has left to do. *)
Inductive thread :=
| Serving (tr : trace server.CONN) (rest : prog server.CONN unit)
| Ended.

(** [stopCh] and the listener are open or closed; [wg] is the counter of the wait
    group, which would panic below zero. *)
Record state := mkState {
  stopped : bool;
  fs : socket.fs;
  wg : Z;
  loop : acceptor;
  conns : list thread;
}.

Section server.
Context (srv : server.Server) (me : nat).

Definition listening (s : state) : bool := bool_decide (me ∈ socket.f_listeners (fs s)).

(** [Serve] *)
Definition Serve (s : state) : state :=
  mkState (stopped s) (fs s) (wg s + 1) AtAccept (conns s).

Inductive step : who → state → state → Prop :=
| accept_conn s :
    loop s = AtAccept → listening s = true →
    step Env s (mkState (stopped s) (fs s) (wg s) Accepted (conns s))
| accept_fails s :
    loop s = AtAccept → listening s = true →
    step Env s (mkState (stopped s) (fs s) (wg s) (Failed false) (conns s))
| accept_closed s :
    loop s = AtAccept → listening s = false →
    step Own s (mkState (stopped s) (fs s) (wg s) (Failed true) (conns s))
| loop_returns s closed :
    loop s = Failed closed → stopped s || closed = true →
    step Own s (mkState (stopped s) (fs s) (wg s - 1) Returned (conns s))
| loop_continues s :
    loop s = Failed false → stopped s = false →
    step Own s (mkState (stopped s) (fs s) (wg s) AtAccept (conns s))
| loop_spawns s :
    loop s = Accepted →
    step Own s (mkState (stopped s) (fs s) (wg s + 1) AtAccept
                  (conns s ++ [Serving [] (server.handleConn srv)]))
| conn_works s i tr o k x :
    conns s !! i = Some (Serving tr (Do o k)) → blocking o = false →
    step Own s (mkState (stopped s) (fs s) (wg s) (loop s)
                  (<[i := Serving (tr ++ [Event o x]) (k x)]> (conns s)))
| conn_hears s i tr o k x :
    conns s !! i = Some (Serving tr (Do o k)) → blocking o = true →
    step Env s (mkState (stopped s) (fs s) (wg s) (loop s)
                  (<[i := Serving (tr ++ [Event o x]) (k x)]> (conns s)))
| conn_times_out s i tr o k x :
    conns s !! i = Some (Serving tr (Do o k)) → deadline_set tr → timed_out o x →
    step Own s (mkState (stopped s) (fs s) (wg s) (loop s)
                  (<[i := Serving (tr ++ [Event o x]) (k x)]> (conns s)))
| conn_ends s i tr :
    conns s !! i = Some (Serving tr (Ret tt)) →
    step Own s (mkState (stopped s) (fs s) (wg s - 1) (loop s) (<[i := Ended]> (conns s))).

(** What is still running, for the wait group. *)
Definition loop_alive (l : acceptor) : Z := match l with Returned => 0 | _ => 1 end.
Definition alive (t : thread) : Z := match t with Serving _ _ => 1 | Ended => 0 end.
Definition in_flight (ts : list thread) : Z := foldr (λ t n, alive t + n)%Z 0%Z ts.

(** A connection's goroutine is somewhere in [handleConn], and the operations it
    has left are bounded by those it has done. *)
Definition thread_ok (t : thread) : Prop :=
  match t with
  | Serving tr rest =>
      performs (server.handleConn srv) tr rest ∧
      length tr ≤ conn_ops ∧ within any_answer (conn_ops - length tr) rest
  | Ended => True
  end.

Record inv (s : state) : Prop := mkInv {
  inv_wg : wg s = (loop_alive (loop s) + in_flight (conns s))%Z;
  inv_threads : Forall thread_ok (conns s);
}.

Lemma in_flight_cons t ts : in_flight (t :: ts) = (alive t + in_flight ts)%Z.
Proof. reflexivity. Qed.

Lemma in_flight_nonneg ts : (0 ≤ in_flight ts)%Z.
Proof. induction ts as [|[] ts IH]; rewrite ?in_flight_cons; cbn [alive]; [done|lia..]. Qed.

Lemma in_flight_app ts t : in_flight (ts ++ [t]) = (in_flight ts + alive t)%Z.
Proof.
  induction ts as [|t' ts IH]; cbn [app]; rewrite !in_flight_cons; [cbn; lia|]. rewrite IH. lia.
Qed.

Lemma in_flight_insert ts i t t' :
  ts !! i = Some t → in_flight (<[i := t']> ts) = (in_flight ts - alive t + alive t')%Z.
Proof.
  revert i. induction ts as [|t0 ts IH]; intros [|i] Hi; [done..| |]; cbn in Hi.
  - simplify_eq. cbn [insert list_insert]. rewrite !in_flight_cons. lia.
  - cbn [insert list_insert]. rewrite !in_flight_cons. setoid_rewrite (IH i Hi). lia.
Qed.

Lemma in_flight_ended ts : in_flight ts = 0%Z ↔ Forall (λ t, t = Ended) ts.
Proof.
  induction ts as [|t ts IH]; [done|]. pose proof (in_flight_nonneg ts).
  rewrite Forall_cons, <-IH, in_flight_cons. destruct t; cbn [alive]; [|intuition lia].
  split; [lia|]. by intros [? _].
Qed.

Lemma in_flight_serving ts :
  in_flight ts ≠ 0%Z → ∃ i tr rest, ts !! i = Some (Serving tr rest).
Proof.
  induction ts as [|[tr rest|] ts IH]; [done|by exists 0, tr, rest|].
  rewrite in_flight_cons. intros (i & H)%IH. by exists (S i).
Qed.

Lemma thread_works tr o k x :
  thread_ok (Serving tr (Do o k)) → thread_ok (Serving (tr ++ [Event o x]) (k x)) ∧
                                   length tr < conn_ops.
Proof.
  unfold thread_ok. rewrite length_app. cbn [length]. intros (Hp & Hl & Hw).
  destruct (conn_ops - length tr) as [|n] eqn:E; [done|]. split; [|lia].
  split; [by constructor|]. split; [lia|].
  replace (conn_ops - (length tr + 1)) with n by lia. by apply Hw.
Qed.

(** One operation of a connection, whoever answers it. *)
Lemma thread_step_inv s i tr o k x :
  conns s !! i = Some (Serving tr (Do o k)) → inv s →
  inv (mkState (stopped s) (fs s) (wg s) (loop s)
         (<[i := Serving (tr ++ [Event o x]) (k x)]> (conns s))).
Proof.
  intros Hi [Hw Ht]. split; cbn [wg loop conns].
  - rewrite (in_flight_insert _ _ _ _ Hi). cbn. lia.
  - apply Forall_insert; [done|]. eapply Forall_lookup_1 in Hi; [|exact Ht]. by apply thread_works.
Qed.

Lemma serve_step_inv l s s' : step l s s' → inv s → inv s'.
Proof.
  destruct 1 as [s Hl Ho|s Hl Ho|s Hl Ho|s b Hl Ho|s Hl Ho|s Hl|s i tr o k x Hi Hb|s i tr o k x Hi Hb
                |s i tr o k x Hi Hd Hx|s i tr Hi]; try (by eapply thread_step_inv);
    intros [Hw Ht]; split; cbn [wg loop conns]; try done.
  1-5: rewrite Hw, Hl; cbn; try lia.
  - rewrite Hw, Hl, in_flight_app. cbn. lia.
  - apply Forall_app. split; [done|]. apply Forall_singleton. split; [constructor|].
    cbn. split; [lia|]. apply handleConn_within.
  - rewrite (in_flight_insert _ _ _ _ Hi). cbn. lia.
  - by apply Forall_insert.
Qed.

(** When the wait group is at zero, everything it waits for has ended. *)
Lemma waited s : inv s → wg s = 0%Z → loop s = Returned ∧ Forall (λ t, t = Ended) (conns s).
Proof.
  intros [Hw _] H0. pose proof (in_flight_nonneg (conns s)). rewrite <-in_flight_ended.
  destruct (loop s); cbn in Hw; intuition lia.
Qed.

(** *** Progress and termination *)

Definition loop_work (l : acceptor) : nat :=
  match l with
  | AtAccept => 3
  | Failed true => 2
  | Failed false => 4
  | Accepted => conn_ops + 5
  | Returned => 0
  end.

Definition thread_work (t : thread) : nat :=
  match t with Serving tr _ => 1 + (conn_ops - length tr) | Ended => 0 end.

Definition work (s : state) : nat := loop_work (loop s) + sum_list_with thread_work (conns s).

Lemma serve_work_insert ts i t t' :
  ts !! i = Some t →
  sum_list_with thread_work (<[i := t']> ts) + thread_work t
  = sum_list_with thread_work ts + thread_work t'.
Proof.
  revert i. induction ts as [|t0 ts IH]; intros [|i] Hi; simplify_eq/=; [lia|].
  specialize (IH i Hi). lia.
Qed.

Lemma thread_step_work s i tr o k x :
  inv s → conns s !! i = Some (Serving tr (Do o k)) →
  sum_list_with thread_work (<[i := Serving (tr ++ [Event o x]) (k x)]> (conns s))
  < sum_list_with thread_work (conns s).
Proof.
  intros [_ Ht] Hi. pose proof (serve_work_insert _ _ _ (Serving (tr ++ [Event o x]) (k x)) Hi) as Hs.
  eapply Forall_lookup_1 in Ht; [|exact Hi]. apply (thread_works tr o k x) in Ht as [_ Hlen].
  cbn [thread_work] in Hs. rewrite length_app in Hs. cbn [length] in Hs. lia.
Qed.

Lemma serve_step_work s s' : inv s → step Own s s' → work s' < work s.
Proof.
  intros Hinv H. unfold work. remember Own as l eqn:El.
  destruct H as [s Hl Ho|s Hl Ho|s Hl Ho|s b Hl Ho|s Hl Ho|s Hl|s i tr o k x Hi Hb|s i tr o k x Hi Hb
                |s i tr o k x Hi Hd Hx|s i tr Hi]; try done; cbn [loop conns].
  - rewrite Hl. cbn. lia.
  - rewrite Hl. destruct b; cbn; lia.
  - rewrite Hl. cbn. lia.
  - rewrite Hl, sum_list_with_app. cbn. lia.
  - pose proof (thread_step_work s i tr o k x Hinv Hi). lia.
  - pose proof (thread_step_work s i tr o k x Hinv Hi). lia.
  - pose proof (serve_work_insert _ _ _ Ended Hi) as Hs. cbn [thread_work] in Hs. lia.
Qed.

(** Once the listener is closed, something moves until the wait group is at zero:
    a peer that does nothing is given up on when the deadline passes. *)
Lemma serve_progress s :
  inv s → stopped s = true → listening s = false → wg s ≠ 0%Z → ∃ s', step Own s s'.
Proof.
  intros [Hw Ht] Hs Hl Hne. destruct (loop s) as [|closed| |] eqn:El.
  - eexists. by eapply accept_closed.
  - eexists. eapply loop_returns; [done|]. by rewrite Hs.
  - eexists. by eapply loop_spawns.
  - destruct (in_flight_serving (conns s)) as (i & tr & rest & Hi); [cbn in Hw; lia|].
    pose proof (Forall_lookup_1 _ _ _ _ Ht Hi) as (Hp & _).
    destruct rest as [[]|o k]; [eexists; by eapply conn_ends|].
    destruct (blocking o) eqn:Hb.
    + destruct (timed_out_answers o Hb) as [x Hx]. eexists.
      eapply (conn_times_out s i tr o k x); [done|by eapply blocks_with_deadline|done].
    + destruct (conn_answers o) as [x]. eexists. by eapply (conn_works s i tr o k x).
Qed.

End server.
End serving.

(** ** The sweep loop *)
Module sweeping.

Inductive position :=
| Waiting
| Sweeping (tr : trace reconcile.REC)
    (rest : prog reconcile.REC (reconcile.Reconciler * result nat error))
| Returned.

Record state := mkState {
  stopped : bool;
  wg : Z;
  reconciler : reconcile.Reconciler;
  loop : position;
}.

(** [Start] *)
Definition Start (r : reconcile.Reconciler) : state := mkState false 1 r Waiting.

Section sweeper.
(** The capacity of the map of protected processes. *)
Context (cap : nat).

Definition listed (o : op reconcile.REC) : ans reconcile.REC o → Prop :=
  match o return ans reconcile.REC o → Prop with
  | reconcile.ListProtectedPIDs => λ x, match x with Ok pids => length pids ≤ cap | Err _ => True end
  | _ => λ _, True
  end.

(** When the stop channel is closed and the ticker has ticked, either may be
    taken. *)
Inductive step : who → state → state → Prop :=
| ticks s :
    loop s = Waiting →
    step Env s (mkState (stopped s) (wg s) (reconciler s)
                  (Sweeping [] (reconcile.Sweep (reconciler s))))
| returns s :
    loop s = Waiting → stopped s = true →
    step Own s (mkState (stopped s) (wg s - 1) (reconciler s) Returned)
| works s tr o k x :
    loop s = Sweeping tr (Do o k) → listed o x →
    step Own s (mkState (stopped s) (wg s) (reconciler s) (Sweeping (tr ++ [Event o x]) (k x)))
| finishes s tr r res :
    loop s = Sweeping tr (Ret (r, res)) →
    step Own s (mkState (stopped s) (wg s) r Waiting).

Definition sweep_ops : nat := 1 + 2 * cap.

Lemma sweep_loop_within pids n : within listed (2 * length pids) (reconcile.sweep_loop pids n).
Proof.
  revert n. induction pids as [|pid pids IH]; intros n; [done|].
  replace (2 * length (pid :: pids)) with (S (S (2 * length pids))) by (rewrite length_cons; lia).
  cbn [reconcile.sweep_loop bind reconcile.do Effects.call within]. intros [|] _.
  - eapply within_mono; [|apply IH]. lia.
  - cbn [within bind reconcile.do Effects.call]. intros [e|] _; apply IH.
Qed.

Lemma Sweep_within r : within listed sweep_ops (reconcile.Sweep r).
Proof.
  unfold sweep_ops. cbn [reconcile.Sweep bind reconcile.do Effects.call within].
  intros [pids|e] Hx; [|done]. cbn in Hx.
  apply (within_mono _ (2 * length pids + 0)); [lia|].
  apply within_bind; [apply sweep_loop_within|done].
Qed.

Definition alive (p : position) : Z := match p with Returned => 0 | _ => 1 end.

Definition position_ok (p : position) : Prop :=
  match p with
  | Sweeping tr rest => length tr ≤ sweep_ops ∧ within listed (sweep_ops - length tr) rest
  | _ => True
  end.

Definition inv (s : state) : Prop := wg s = alive (loop s) ∧ position_ok (loop s).

Definition work (s : state) : nat :=
  match loop s with
  | Waiting => 1
  | Sweeping tr _ => 2 + (sweep_ops - length tr)
  | Returned => 0
  end.

Lemma position_works tr o k x :
  position_ok (Sweeping tr (Do o k)) → listed o x →
  position_ok (Sweeping (tr ++ [Event o x]) (k x)) ∧ length tr < sweep_ops.
Proof.
  unfold position_ok. rewrite length_app. cbn [length]. intros [Hl Hw] Hx.
  destruct (sweep_ops - length tr) as [|n] eqn:E; [done|]. split; [|lia]. split; [lia|].
  replace (sweep_ops - (length tr + 1)) with n by lia. by apply Hw.
Qed.

Lemma sweep_step_inv l s s' : step l s s' → inv s → inv s'.
Proof.
  destruct 1 as [s Hl|s Hl Hs|s tr o k x Hl Hx|s tr r res Hl]; intros [Hw Hp];
    rewrite Hl in *; split; cbn [wg loop alive] in *; try lia; try done.
  - split; [cbn; lia|]. cbn [length]. rewrite Nat.sub_0_r. apply Sweep_within.
  - by apply position_works.
Qed.

Lemma sweep_step_work s s' : inv s → step Own s s' → work s' < work s.
Proof.
  intros [_ Hp] H. unfold work. remember Own as l eqn:El.
  destruct H as [s Hl|s Hl Hs|s tr o k x Hl Hx|s tr r res Hl]; [done|..]; cbn [loop]; rewrite Hl in *.
  - lia.
  - apply (position_works tr o k x) in Hp as [_ Hlen]; [|done]. rewrite length_app. cbn [length]. lia.
  - lia.
Qed.

Lemma listed_answers (o : op reconcile.REC) : ∃ x, listed o x.
Proof. destruct o; [exists (Ok []); cbn; lia|by exists None|by exists false]. Qed.

Lemma sweep_progress s : stopped s = true → loop s ≠ Returned → ∃ s', step Own s s'.
Proof.
  intros Hs Hne. destruct (loop s) as [|tr [[r res]|o k]|] eqn:El; [..|done].
  - eexists. by eapply returns.
  - eexists. by eapply finishes.
  - destruct (listed_answers o) as [x Hx]. eexists. by eapply works.
Qed.

End sweeper.
End sweeping.

(** ** The event loops *)
Module reading.

Inductive position := Top | AtRead | Handling (sample : list ascii) | Returned.

(** A ring buffer reader, open or closed, and the loop that reads it. *)
Record reader := mkReader { open : bool; at_ : position }.

(** [attached]: the links of the programs, the LSM hooks among them. *)
Record state := mkState {
  stopped : bool;
  attached : bool;
  wg : Z;
  readers : list reader;
}.

(** [Start]: a loop for every reader there is. *)
Definition Start (m : bpf.Manager) : state :=
  mkState false true (Z.of_nat (length (bpf.Start m))) ((λ _, mkReader true Top) <$> bpf.Start m).

Definition move (s : state) (i : nat) (r : reader) (p : position) : state :=
  mkState (stopped s) (attached s) (wg s) (<[i := mkReader (open r) p]> (readers s)).

Definition leave (s : state) (i : nat) (r : reader) : state :=
  mkState (stopped s) (attached s) (wg s - 1) (<[i := mkReader (open r) Returned]> (readers s)).

Inductive step : who → state → state → Prop :=
| stops s i r :
    readers s !! i = Some r → at_ r = Top → stopped s = true → step Own s (leave s i r)
| reads s i r :
    readers s !! i = Some r → at_ r = Top → stopped s = false → step Own s (move s i r AtRead)
| receives s i r sample :
    readers s !! i = Some r → at_ r = AtRead → open r = true →
    step Env s (move s i r (Handling sample))
| read_fails s i r :
    readers s !! i = Some r → at_ r = AtRead → open r = true → step Env s (move s i r Top)
| read_closed s i r :
    readers s !! i = Some r → at_ r = AtRead → open r = false → step Own s (leave s i r)
| handles s i r sample :
    readers s !! i = Some r → at_ r = Handling sample → step Own s (move s i r Top).

(** [i]th reader's [Close]. *)
Definition close_reader (i : nat) (s : state) : state :=
  mkState (stopped s) (attached s) (wg s) (alter (λ r, mkReader false (at_ r)) i (readers s)).

Definition reader_work (r : reader) : nat :=
  match at_ r with Handling _ => 3 | Top => 2 | AtRead => 1 | Returned => 0 end.

Definition work (s : state) : nat := sum_list_with reader_work (readers s).

Lemma read_work_insert rs i r r' :
  rs !! i = Some r →
  sum_list_with reader_work (<[i := r']> rs) + reader_work r
  = sum_list_with reader_work rs + reader_work r'.
Proof.
  revert i. induction rs as [|r0 rs IH]; intros [|i] Hi; simplify_eq/=; [lia|].
  specialize (IH i Hi). lia.
Qed.

Lemma read_step_work s s' : step Own s s' → work s' < work s.
Proof.
  inversion 1 as [? i r Hi Hp|? i r Hi Hp| | |? i r Hi Hp|? i r sample Hi Hp]; subst;
    unfold work, leave, move; cbn [readers];
    match goal with |- context [<[i := ?r']> _] => pose proof (read_work_insert _ _ _ r' Hi) as Hs end;
    unfold reader_work in Hs at 2 4; rewrite Hp in Hs; cbn [at_] in Hs; lia.
Qed.

Lemma close_reader_work i s : work (close_reader i s) = work s.
Proof.
  unfold work, close_reader. cbn [readers]. generalize (readers s) as rs. revert i.
  induction i as [|i IH]; intros [|r rs]; cbn; try done. f_equal. apply IH.
Qed.

Lemma step_attached l s s' : step l s s' → attached s' = attached s.
Proof. by destruct 1. Qed.

End reading.

(** ** The pod watch *)
Module watching.

(** Between turns of the loop, within a turn, with what it has done and what it
    has left to do, or returned with its cache. *)
Inductive position :=
| Idle (st : kube.loop_state)
| Turning (st : kube.loop_state) (tr : trace kube.WATCH) (rest : prog kube.WATCH kube.turn_result)
| Returned (w : kube.Watcher).

Record state := mkState { cancelled : bool; at_ : position }.

(** The context of the loop; [cancelled] says whether its cancel function was
    called. *)
Definition watchCtx : context.t := context.WithCancel context.Background.

(** [Start] when the first list succeeded, and [Stop]'s [cancel]. *)
Definition Start (w : kube.Watcher) (rv : string) : state :=
  mkState false (Idle (kube.mkLoop w rv kube.minBackoff)).
Definition cancel (s : state) : state := mkState true (at_ s).

Definition after (r : kube.turn_result) : position :=
  match r with kube.Returned w => Returned w | kube.Continue _ st => Idle st end.

(** What a call may answer without help from outside: the error of a context
    that has ended, and none while it cannot have; an interrupted request, if its
    context ends; a sleep that is over, or interrupted. *)
Definition alone (called : bool) (o : op kube.WATCH) : ans kube.WATCH o → Prop :=
  match o return ans kube.WATCH o → Prop with
  | kube.CtxErr c => λ x,
      (x = true → context.ends called c = true) ∧ (context.cancelled called c = true → x = true)
  | kube.Watch c _ => λ x,
      context.ends called c = true ∧
      match x with Ok b => kube.body_end b = kube.ReadError | Err _ => True end
  | kube.SleepCtx c _ => λ x, x = false → context.ends called c = true
  | kube.List c => λ x, context.ends called c = true ∧ ∃ e, x = Err e
  end.

(** The calls the API server answers. *)
Definition remote (o : op kube.WATCH) : bool :=
  match o with kube.Watch _ _ | kube.List _ => true | _ => false end.

Inductive step : who → state → state → Prop :=
| begins s st :
    at_ s = Idle st →
    step Own s (mkState (cancelled s) (Turning st [] (kube.watch_turn watchCtx st)))
| goes_on s st tr o k x :
    at_ s = Turning st tr (Do o k) → alone (cancelled s) o x →
    step Own s (mkState (cancelled s) (Turning st (tr ++ [Event o x]) (k x)))
| answered s st tr o k x :
    at_ s = Turning st tr (Do o k) → remote o = true →
    step Env s (mkState (cancelled s) (Turning st (tr ++ [Event o x]) (k x)))
| turned s st tr r :
    at_ s = Turning st tr (Ret r) → step Own s (mkState (cancelled s) (after r)).

Definition turn_ops : nat := 5.

Lemma watch_turn_within c st : within any_answer turn_ops (kube.watch_turn c st).
Proof.
  unfold kube.watch_turn, kube.relist. apply (within_bind _ 1 4); [done|]. intros [|]; [done|].
  apply (within_bind _ 1 3); [done|]. intros resp.
  destruct (kube.watchOnce _ _ _) as [[w next] [e|]];
    (apply (within_bind _ 1 2); [done|]; intros [|]; [done|]); [|done].
  apply (within_bind _ 1 1); [done|]. intros [|]; [|done]. cbn [negb].
  case_decide; [|done]. apply (within_bind _ 1 0); [done|]. intros l.
  by destruct (kube.list_pods w l) as [? []].
Qed.

(** Every request is made under a context that ends once the watch is cancelled. *)
Definition interruptible (o : op kube.WATCH) : Prop :=
  match o with
  | kube.Watch c _ | kube.List c => context.ends true c = true
  | _ => True
  end.

Lemma watch_turn_interruptible st : only interruptible (kube.watch_turn watchCtx st).
Proof.
  unfold kube.watch_turn, kube.relist. cbn. split; [done|]. intros [|]; [done|]. cbn.
  split; [done|]. intros resp. destruct (kube.watchOnce _ _ _) as [[w next] [e|]]; cbn;
    (split; [done|]; intros [|]; [done|]); [|done]. cbn. split; [done|]. intros [|]; [|done]. cbn.
  case_decide; [|done]. cbn. split; [done|]. intros l. by destruct (kube.list_pods w l) as [? []].
Qed.

Definition position_ok (p : position) : Prop :=
  match p with
  | Turning st tr rest =>
      performs (kube.watch_turn watchCtx st) tr rest ∧
      length tr ≤ turn_ops ∧ within any_answer (turn_ops - length tr) rest
  | _ => True
  end.

Definition inv (s : state) : Prop := position_ok (at_ s).

Lemma position_goes_on st tr o k x :
  position_ok (Turning st tr (Do o k)) →
  position_ok (Turning st (tr ++ [Event o x]) (k x)) ∧ length tr < turn_ops.
Proof.
  unfold position_ok. rewrite length_app. cbn [length]. intros (Hp & Hl & Hw).
  destruct (turn_ops - length tr) as [|n] eqn:E; [done|]. split; [|lia].
  split; [by constructor|]. split; [lia|].
  replace (turn_ops - (length tr + 1)) with n by lia. by apply Hw.
Qed.

Lemma watch_step_inv l s s' : step l s s' → inv s → inv s'.
Proof.
  unfold inv. destruct 1 as [s st Hp|s st tr o k x Hp Hx|s st tr o k x Hp Ho|s st tr r Hp]; rewrite Hp.
  - intros _. split; [constructor|]. cbn. split; [lia|]. apply watch_turn_within.
  - intros H. by apply position_goes_on.
  - intros H. by apply position_goes_on.
  - intros _. by destruct r.
Qed.

(** The work left: a watch in progress counts as waiting until it is cancelled. *)
Definition turn_work (called : bool) (done : nat) (rest : prog kube.WATCH kube.turn_result) : nat :=
  match done, rest with
  | 0, _ => 2
  | 1, Ret _ => 1
  | 1, Do _ _ => if called then 9 else 1
  | n, _ => 10 - n
  end.

Definition work (s : state) : nat :=
  match at_ s with
  | Idle _ => 3
  | Turning _ tr rest => turn_work (cancelled s) (length tr) rest
  | Returned _ => 0
  end.

(** The first call is the context's, the second the watch, if it goes on. *)
Lemma turn_starts st tr rest :
  performs (kube.watch_turn watchCtx st) tr rest →
  match tr with
  | [] => rest = kube.watch_turn watchCtx st
  | [e] => ∃ x, e = Event (Σ:=kube.WATCH) (kube.CtxErr watchCtx) x ∧
      if x then rest = Ret (kube.Returned (kube.lp_watcher st))
      else ∃ k, rest = Do (Σ:=kube.WATCH) (kube.Watch watchCtx (kube.lp_rv st)) k
  | _ => True
  end.
Proof.
  intros H. apply performs_inv in H. destruct tr as [|e [|e' tr]]; [done| |done].
  destruct H as (x & -> & H). apply performs_inv in H. exists x. split; [done|].
  destruct x; [done|]. rewrite H. cbn. by eexists.
Qed.

Lemma step_work_turning called st tr o k x :
  position_ok (Turning st tr (Do o k)) → alone called o x →
  turn_work called (length tr + 1) (k x) < turn_work called (length tr) (Do o k).
Proof.
  intros H Hx. pose proof (position_goes_on _ _ _ _ x H) as [(H' & _) Hl]. unfold turn_ops in Hl.
  destruct H as (H & _). apply turn_starts in H, H'.
  destruct tr as [|e [|e' tr]]; cbn [length app Nat.add turn_work] in *.
  - destruct H' as (y & Hy & H').
    assert (match Event o x with Event o x => alone called o x end) as Ha by done.
    rewrite Hy in Ha. destruct Ha as [_ Ha]. destruct y; [rewrite H'; lia|].
    destruct H' as [k' ->]. destruct called; [by specialize (Ha eq_refl)|lia].
  - destruct H as (y & _ & H). destruct y; [done|]. destruct H as [k' H]. injection H as -> _.
    destruct Hx as [Hc _]. cbn in Hc. destruct called; [lia|done].
  - destruct (length tr) as [|n]; cbn; lia.
Qed.

Lemma watch_step_work s s' : inv s → step Own s s' → work s' < work s.
Proof.
  unfold inv, work. intros Hinv H. remember Own as l eqn:El.
  destruct H as [s st Hp|s st tr o k x Hp Hx|s st tr o k x Hp Ho|s st tr r Hp]; cbn [at_ cancelled];
    rewrite Hp in *.
  - cbn. lia.
  - rewrite length_app. by eapply step_work_turning.
  - done.
  - destruct Hinv as (H & Hl & _). unfold turn_ops in Hl. apply turn_starts in H.
    destruct tr as [|e [|e' tr]]; cbn [length turn_work] in *; [done| |].
    + destruct H as ([] & _ & H); [injection H as ->; cbn; lia|by destruct H].
    + destruct (length tr) as [|[|[|[|n]]]]; destruct r; cbn; lia.
Qed.

(** Cancelling wakes a watch that was waiting. *)
Lemma cancel_work s : work (cancel s) ≤ 8 + work s.
Proof.
  unfold work. cbn [cancel at_ cancelled]. destruct (at_ s) as [|st tr rest|]; [lia| |lia].
  unfold turn_work. destruct (length tr) as [|[|n]], rest, (cancelled s); lia.
Qed.

Lemma cancelled_ends called c : context.cancelled called c = true → context.ends called c = true.
Proof.
  induction c as [|c IH|c IH d]; cbn; try done. intros [->|H]%orb_true_iff; [done|].
  by rewrite IH, orb_true_r.
Qed.

(** Once it is cancelled, the watch goes on by itself until it has returned. *)
Lemma watch_progress s :
  inv s → cancelled s = true → (∃ w, at_ s = Returned w) ∨ ∃ s', step Own s s'.
Proof.
  unfold inv. intros Hinv Hc. destruct (at_ s) as [st|st tr [r|o k]|w] eqn:E; [right..|left; by exists w].
  - eexists. by eapply begins.
  - eexists. by eapply turned.
  - assert (∃ x, alone (cancelled s) o x) as [x Hx]; [|eexists; by eapply (goes_on s st tr o k x)].
    destruct Hinv as (H & _). apply (performs_only interruptible) in H as [Ho _];
      [|apply watch_turn_interruptible].
    rewrite Hc. destruct o as [c|c rv|c d|c]; cbn in Ho |- *.
    + exists (context.cancelled true c). split; [apply cancelled_ends|done].
    + by exists (Err kube.OtherError).
    + by exists true.
    + exists (Err kube.OtherError). split; [done|]. by eexists.
Qed.

Lemma step_cancelled l s s' : step l s s' → cancelled s' = cancelled s.
Proof. by destruct 1. Qed.

End watching.

(** ** The end of [main] *)
Module shutdown.

(** What [main] does next: it waits for a signal, then stops the metrics server,
    the reconciler, the secret server, the BPF manager and, in its deferred
    call, the pod watch. *)
Inductive position :=
| Running
| StopMetrics | WaitMetrics
| CloseSweep | WaitSweep
| CloseStop | CloseListener | WaitServer | RemoveSocket
| CloseBPF | CloseExecReader | CloseLSMReader | WaitBPF | CloseLinks
| CancelPods | WaitPods
| Exited.

Definition rank (p : position) : nat :=
  match p with
  | Running => 0 | StopMetrics => 1 | WaitMetrics => 2 | CloseSweep => 3 | WaitSweep => 4
  | CloseStop => 5 | CloseListener => 6 | WaitServer => 7 | RemoveSocket => 8
  | CloseBPF => 9 | CloseExecReader => 10 | CloseLSMReader => 11 | WaitBPF => 12
  | CloseLinks => 13 | CancelPods => 14 | WaitPods => 15 | Exited => 16
  end.

(** [metrics]: its server takes requests; [scrapes]: those being answered. *)
Record state := mkState {
  pc : position;
  metrics : bool;
  scrapes : nat;
  srv : serving.state;
  sweep : sweeping.state;
  bpf_ : reading.state;
  pods : option watching.state;
}.

Section shutdown.
Context (server : server.Server) (h : socket.host) (me cap : nat).

Definition on_socket (p : prog socket.SOCK unit) (s : serving.state) : serving.state :=
  serving.mkState (serving.stopped s)
    (exec (socket.serve h (server.SocketPath (server.cfg server)) me) p (serving.fs s)).2
    (serving.wg s) (serving.loop s) (serving.conns s).

Definition stop_server (s : serving.state) : serving.state :=
  serving.mkState true (serving.fs s) (serving.wg s) (serving.loop s) (serving.conns s).

Definition stop_sweep (s : sweeping.state) : sweeping.state :=
  sweeping.mkState true (sweeping.wg s) (sweeping.reconciler s) (sweeping.loop s).

Definition stop_bpf (s : reading.state) : reading.state :=
  reading.mkState true (reading.attached s) (reading.wg s) (reading.readers s).

Definition close_links (s : reading.state) : reading.state :=
  reading.mkState (reading.stopped s) false (reading.wg s) (reading.readers s).

(** What [main] does at each place, when it does not have to wait there. *)
Definition next (st : state) : state :=
  let '(mkState pc m n s w b p) := st in
  match pc with
  | Running => mkState StopMetrics m n s w b p
  | StopMetrics => mkState WaitMetrics false n s w b p
  | WaitMetrics => mkState CloseSweep m n s w b p
  | CloseSweep => mkState WaitSweep m n s (stop_sweep w) b p
  | WaitSweep => mkState CloseStop m n s w b p
  | CloseStop => mkState CloseListener m n (stop_server s) w b p
  | CloseListener => mkState WaitServer m n (on_socket socket.close_listener s) w b p
  | WaitServer => mkState RemoveSocket m n s w b p
  | RemoveSocket =>
      mkState CloseBPF m n (on_socket (socket.remove_socket (server.cfg server)) s) w b p
  | CloseBPF => mkState CloseExecReader m n s w (stop_bpf b) p
  | CloseExecReader => mkState CloseLSMReader m n s w (reading.close_reader 0 b) p
  | CloseLSMReader => mkState WaitBPF m n s w (reading.close_reader 1 b) p
  | WaitBPF => mkState CloseLinks m n s w b p
  | CloseLinks => mkState CancelPods m n s w (close_links b) p
  | CancelPods => mkState WaitPods m n s w b (watching.cancel <$> p)
  | WaitPods => mkState Exited m n s w b p
  | Exited => st
  end.

(** Where it waits, and for what.  The wait for the event loops ends after a
    timeout whether they have returned or not; that for the requests to the
    metrics server when the context it is given ends. *)
Definition waits (st : state) : Prop :=
  match pc st with
  | WaitMetrics => scrapes st ≠ 0 ∧ context.ends false metrics.shutdown_context = false
  | WaitSweep => sweeping.wg (sweep st) ≠ 0%Z
  | WaitServer => serving.wg (srv st) ≠ 0%Z
  | WaitPods => ∃ p, pods st = Some p ∧ ∀ w, watching.at_ p ≠ watching.Returned w
  | Exited => True
  | _ => False
  end.

Inductive step : who → state → state → Prop :=
| signalled st : pc st = Running → step Env st (next st)
| proceeds st : pc st ≠ Running → ¬ waits st → step Own st (next st)
| by_server l st s' :
    pc st ≠ Exited → serving.step server me l (srv st) s' →
    step l st (mkState (pc st) (metrics st) (scrapes st) s' (sweep st) (bpf_ st) (pods st))
| by_sweep l st w' :
    pc st ≠ Exited → sweeping.step cap l (sweep st) w' →
    step l st (mkState (pc st) (metrics st) (scrapes st) (srv st) w' (bpf_ st) (pods st))
| by_bpf l st b' :
    pc st ≠ Exited → reading.step l (bpf_ st) b' →
    step l st (mkState (pc st) (metrics st) (scrapes st) (srv st) (sweep st) b' (pods st))
| by_pods l st p p' :
    pc st ≠ Exited → pods st = Some p → watching.step l p p' →
    step l st (mkState (pc st) (metrics st) (scrapes st) (srv st) (sweep st) (bpf_ st) (Some p'))
| scraped st :
    pc st ≠ Exited → metrics st = true →
    step Env st (mkState (pc st) (metrics st) (S (scrapes st)) (srv st) (sweep st) (bpf_ st) (pods st))
| scrape_ends st n :
    pc st ≠ Exited → scrapes st = S n →
    step Env st (mkState (pc st) (metrics st) n (srv st) (sweep st) (bpf_ st) (pods st)).

(** The agent as [main] has started it. *)
Definition initial (m : bpf.Manager) (fs : socket.fs) (r : reconcile.Reconciler)
    (metrics : bool) (w : option (kube.Watcher * string)) : state :=
  mkState Running metrics 0
    (serving.Serve (serving.mkState false fs 0 serving.Returned []))
    (sweeping.Start r) (reading.Start m)
    ((λ '(w, rv), watching.Start w rv) <$> w).

(** ** What has ended when *)

Record inv (st : state) : Prop := mkInv {
  inv_srv : serving.inv server (srv st);
  inv_sweep : sweeping.inv cap (sweep st);
  inv_metrics : 1 < rank (pc st) → metrics st = false;
  inv_sweep_stop : 3 < rank (pc st) → sweeping.stopped (sweep st) = true;
  inv_swept : 4 < rank (pc st) → sweeping.loop (sweep st) = sweeping.Returned;
  inv_stop : 5 < rank (pc st) → serving.stopped (srv st) = true;
  inv_closed : 6 < rank (pc st) →
    serving.listening me (srv st) = false ∧ socket.f_sock (serving.fs (srv st)) = None;
  inv_served : 7 < rank (pc st) →
    serving.loop (srv st) = serving.Returned ∧
    Forall (λ t, t = serving.Ended) (serving.conns (srv st));
  inv_links : reading.attached (bpf_ st) = false → 13 < rank (pc st);
  inv_listens : rank (pc st) ≤ 6 → serving.listening me (srv st) = true;
  inv_pods : 14 < rank (pc st) → ∀ p, pods st = Some p → watching.cancelled p = true;
  inv_watch : ∀ p, pods st = Some p → watching.inv p;
}.

Lemma shutdown_initial_inv m fs r mt w : me ∈ socket.f_listeners fs → inv (initial m fs r mt w).
Proof.
  intros Hme. split; cbn; try lia; try done; try by split.
  - intros _. unfold serving.listening. by apply bool_decide_eq_true.
  - intros p. destruct w as [[w rv]|]; [|done]. by intros [= <-].
Qed.

(** Threads of the secret server leave the listener and the stop channel alone,
    and none is left once all have ended. *)
Lemma serving_same l s s' :
  serving.step server me l s s' →
  serving.fs s' = serving.fs s ∧ serving.stopped s' = serving.stopped s ∧
  ¬ (serving.loop s = serving.Returned ∧ Forall (λ t, t = serving.Ended) (serving.conns s)).
Proof.
  destruct 1 as [s Hl Ho|s Hl Ho|s Hl Ho|s b Hl Ho|s Hl Ho|s Hl|s i tr o k x Hi Hb|s i tr o k x Hi Hb
                |s i tr o k x Hi Hd Hx|s i tr Hi];
    do 2 (split; [done|]); intros [Hr Hc]; try congruence;
    by pose proof (Forall_lookup_1 _ _ _ _ Hc Hi).
Qed.

Lemma sweeping_same l s s' :
  sweeping.step cap l s s' →
  sweeping.stopped s' = sweeping.stopped s ∧ sweeping.loop s ≠ sweeping.Returned.
Proof.
  destruct 1 as [s Hl|s Hl Hs|s tr o k x Hl Hx|s tr r res Hl]; rewrite Hl; done.
Qed.

Lemma on_close s :
  serving.listening me s = true →
  serving.listening me (on_socket socket.close_listener s) = false ∧
  socket.f_sock (serving.fs (on_socket socket.close_listener s)) = None.
Proof.
  unfold serving.listening. rewrite bool_decide_eq_true. intros Hme. cbn.
  rewrite decide_True by done. cbn. split; [|done]. apply bool_decide_eq_false. set_solver.
Qed.

Lemma on_remove s :
  serving.listening me s = false → socket.f_sock (serving.fs s) = None →
  let s' := on_socket (socket.remove_socket (server.cfg server)) s in
  serving.listening me s' = false ∧ socket.f_sock (serving.fs s') = None.
Proof.
  unfold serving.listening. intros Hl Hs. cbn. unfold socket.attempt. rewrite Hs.
  by destruct (socket.h_fails h _) as [[|]|].
Qed.

Lemma next_inv st : inv st → pc st = Running ∨ ¬ waits st → inv (next st).
Proof.
  destruct st as [p m n s w b q]. unfold waits. cbn [pc]. intros [Hs Hw Hm Hws Hwr Hst Hcl Hsv Hlk Hls Hp Hpi] Hgo.
  cbn [pc metrics scrapes srv sweep bpf_ pods] in *.
  destruct p; cbn [next pc rank] in *; (split; cbn [pc rank metrics scrapes srv sweep bpf_ pods] in *);
    try done; try lia; try (by destruct Hs); try (intros H%Hlk; lia);
    try (intros ?; first [apply Hm|apply Hws|apply Hwr|apply Hst|apply Hcl|apply Hsv|apply Hls
                         |apply Hp]; lia).
  - intros _. destruct Hgo as [?|Hgo]; [done|]. destruct Hw as [Hw _].
    destruct (sweeping.loop w); [|..|done]; destruct Hgo; rewrite Hw; done.
  - intros _. apply on_close, Hls. lia.
  - intros _. destruct Hgo as [?|Hgo]; [done|]. eapply serving.waited; [done|].
    by apply dec_stable.
  - intros _. destruct Hcl as [Hc1 Hc2]; [lia|]. by apply on_remove.
  - intros _ p. destruct q as [q|]; [|done]. by intros [= <-].
  - intros p. destruct q as [q|]; [|done]. intros [= <-]. by apply (Hpi q).
Qed.

Lemma shutdown_step_inv l st st' : step l st st' → inv st → inv st'.
Proof.
  destruct 1 as [st Hr|st Hr Hw|l st s' He H|l st w' He H|l st b' He H|l st p p' He Hq H
                |st He Hm|st n He Hn]; intros Hinv.
  - apply next_inv; auto.
  - apply next_inv; auto.
  - destruct (serving_same _ _ _ H) as (Hf & Hs & Hover).
    destruct Hinv as [I1 I2 I3 I4 I5 I6 I7 I8 I9 I10 I11 I12]. unfold serving.listening in *.
    split; cbn [pc metrics scrapes srv sweep bpf_ pods]; unfold serving.listening; rewrite ?Hf, ?Hs; try done.
    + by eapply serving.serve_step_inv.
    + intros Hlt. by destruct Hover; apply I8.
  - destruct (sweeping_same _ _ _ H) as (Hs & Hover).
    destruct Hinv as [I1 I2 I3 I4 I5 I6 I7 I8 I9 I10 I11 I12].
    split; cbn [pc metrics scrapes srv sweep bpf_ pods]; rewrite ?Hs; try done.
    + by eapply sweeping.sweep_step_inv.
    + intros Hlt. by destruct Hover; apply I5.
  - destruct Hinv as [I1 I2 I3 I4 I5 I6 I7 I8 I9 I10 I11 I12].
    split; cbn [pc metrics scrapes srv sweep bpf_ pods]; try done. by rewrite (reading.step_attached _ _ _ H).
  - destruct Hinv as [I1 I2 I3 I4 I5 I6 I7 I8 I9 I10 I11 I12].
    split; cbn [pc metrics scrapes srv sweep bpf_ pods]; try done.
    + intros Hlt q [= <-]. rewrite (watching.step_cancelled _ _ _ H). by apply I11.
    + intros q [= <-]. eapply watching.watch_step_inv; [exact H|by apply I12].
  - by destruct Hinv as [I1 I2 I3 I4 I5 I6 I7 I8 I9 I10 I11 I12].
  - by destruct Hinv as [I1 I2 I3 I4 I5 I6 I7 I8 I9 I10 I11 I12].
Qed.

(** A step of anyone. *)
Definition any (st st' : state) : Prop := ∃ l, step l st st'.
Definition own : state → state → Prop := step Own.

Lemma shutdown_reachable_inv st st' : rtc any st st' → inv st → inv st'.
Proof. induction 1 as [|st st1 st2 [l H] _ IH]; [done|]. intros Hi. by eapply IH, shutdown_step_inv. Qed.

(** ** Stopping ends *)

Definition work (st : state) : nat :=
  (10 * (16 - rank (pc st))) + serving.work (srv st) + sweeping.work cap (sweep st)
  + reading.work (bpf_ st) + match pods st with Some p => watching.work p | None => 0 end.

Lemma next_work st : pc st ≠ Running → pc st ≠ Exited → work (next st) < work st.
Proof.
  destruct st as [p m n s w b q]. unfold work. intros Hr He. cbn [pc] in *.
  destruct p; try done; cbn [next pc rank srv sweep bpf_ pods]; rewrite ?reading.close_reader_work;
    try (unfold serving.work, sweeping.work, reading.work; cbn; lia).
  destruct q as [q|]; cbn [fmap option_fmap option_map]; [|lia].
  pose proof (watching.cancel_work q). lia.
Qed.

Lemma shutdown_step_work st st' : inv st → own st st' → work st' < work st.
Proof.
  intros Hinv H. unfold own in H. remember Own as l eqn:El.
  destruct H as [st Hr|st Hr Hw|l st s' He H|l st w' He H|l st b' He H|l st p p' He Hq H
                |st He Hm|st n He Hn]; subst.
  - done.
  - apply next_work; [done|]. intros He. apply Hw. unfold waits. by rewrite He.
  - apply serving.serve_step_work in H; [|apply Hinv]. unfold work. cbn. lia.
  - apply sweeping.sweep_step_work in H; [|apply Hinv]. unfold work. cbn. lia.
  - apply reading.read_step_work in H. unfold work. cbn. lia.
  - apply watching.watch_step_work in H; [|by apply Hinv]. unfold work. cbn. rewrite Hq. lia.
  - done.
  - done.
Qed.

(** Whatever [main] waits for is on its way. *)
Lemma shutdown_progress st :
  inv st → pc st ≠ Running → pc st ≠ Exited → ∃ st', own st st'.
Proof.
  intros Hinv Hr He.
  assert (waits st ∨ ¬ waits st) as [Hw|Hw].
  { unfold waits. destruct (pc st); auto.
    - right. by intros [_ ?].
    - destruct (decide (sweeping.wg (sweep st) = 0%Z)); auto.
    - destruct (decide (serving.wg (srv st) = 0%Z)); auto.
    - destruct (pods st) as [q|]; [|right; by intros (p & ? & _)].
      destruct (watching.at_ q) eqn:E; [left|left|right]; [exists q..|intros (p & [= <-] & H)];
        rewrite ?E; [done..|by eapply H]. }
  2: { exists (next st). by apply proceeds. }
  unfold waits in Hw. destruct (pc st) eqn:Ep; try done; [by destruct Hw|..].
  - destruct (sweeping.sweep_progress cap (sweep st)) as [w' H].
    + apply Hinv. rewrite Ep. cbn. lia.
    + intros Hl. apply Hw. destruct (inv_sweep _ Hinv) as [-> _]. by rewrite Hl.
    + eexists. eapply by_sweep; [by rewrite Ep|exact H].
  - destruct (serving.serve_progress server me (srv st)) as [s' H]; [apply Hinv| | |done|].
    + apply Hinv. rewrite Ep. cbn. lia.
    + apply (inv_closed _ Hinv). rewrite Ep. cbn. lia.
    + eexists. eapply by_server; [by rewrite Ep|exact H].
  - destruct Hw as (q & Hq & Hn). destruct (watching.watch_progress q) as [[w Hx]|[q' H]].
    + by apply (inv_watch _ Hinv).
    + eapply (inv_pods _ Hinv); [|done]. rewrite Ep. cbn. lia.
    + by destruct (Hn w).
    + eexists. eapply by_pods; [by rewrite Ep|done|exact H].
Qed.

Lemma own_runs st st' n : inv st → nsteps own n st st' → n + work st' ≤ work st.
Proof.
  intros Hi H. revert Hi. induction H as [st|n st st1 st2 H _ IH]; intros Hi; [lia|].
  pose proof (shutdown_step_work _ _ Hi H). specialize (IH (shutdown_step_inv _ _ _ H Hi)). lia.
Qed.


End shutdown.

(** C8. The kernel hooks outlive every request.  In every state the running or
    stopping agent can reach, however its goroutines, its connections and the
    signal are interleaved: when the links of the BPF programs have been closed,
    the accept loop and every connection's goroutine have ended, the listener is
    closed and there is no socket at the path, the sweep loop has ended and the
    metrics server takes no more requests.  So no secret is handed out unguarded because the
    agent is stopping. *)
Theorem hooks_outlive_requests (srv0 : server.Server) (h : socket.host) (me cap : nat)
    (m : bpf.Manager) (fs : socket.fs) (r : reconcile.Reconciler) (metrics0 : bool)
    (w : option (kube.Watcher * string)) (st : state)
  (Hlisten : me ∈ socket.f_listeners fs)
  (Hrun : rtc (any srv0 h me cap) (initial m fs r metrics0 w) st)
  (Hdetached : reading.attached (bpf_ st) = false) :
  serving.loop (srv st) = serving.Returned ∧
  Forall (λ t, t = serving.Ended) (serving.conns (srv st)) ∧
  serving.listening me (srv st) = false ∧ socket.f_sock (serving.fs (srv st)) = None ∧
  sweeping.loop (sweep st) = sweeping.Returned ∧ metrics st = false.
Proof.
  assert (inv srv0 me cap st) as Hinv by (eapply shutdown_reachable_inv; [exact Hrun|by apply shutdown_initial_inv]).
  pose proof (inv_links _ _ _ _ Hinv Hdetached) as Hpc.
  destruct (inv_served _ _ _ _ Hinv) as [H1 H2]; [lia|].
  destruct (inv_closed _ _ _ _ Hinv) as [H3 H4]; [lia|].
  do 4 (split; [done|]). split; [apply (inv_swept _ _ _ _ Hinv); lia|].
  apply (inv_metrics _ _ _ _ Hinv). lia.
Qed.

(** C9. Stopping always ends, whatever the other side does.  From the signal on, in
    every state the agent can reach, its own steps are bounded by the work in
    hand, and until [main] has returned there is always one to take: it never
    waits for something that need not come.  Its own steps are those that need
    nothing from outside; among them are its timers: the deadline set on a
    connection, which ends a read or a write the client leaves hanging; the
    contexts of the pod watch, which end its requests when it is cancelled or
    when they take too long; that of the metrics server's [Shutdown]; and the
    timeout of the wait for the event loops.  So every run of its own steps that
    goes on as long as it can ends with [main] having returned, with clients,
    scrapers and an API server that stay silent. *)
Theorem shutdown_ends (srv0 : server.Server) (h : socket.host) (me cap : nat)
    (m : bpf.Manager) (fs : socket.fs) (r : reconcile.Reconciler) (metrics0 : bool)
    (w : option (kube.Watcher * string)) (st : state)
  (Hlisten : me ∈ socket.f_listeners fs)
  (Hrun : rtc (any srv0 h me cap) (initial m fs r metrics0 w) st)
  (Hsignal : pc st ≠ Running) :
  (∀ n st', nsteps (own srv0 h me cap) n st st' → n ≤ work cap st) ∧
  (∀ st', rtc (own srv0 h me cap) st st' →
     pc st' = Exited ∨ ∃ st'', own srv0 h me cap st' st'').
Proof.
  assert (inv srv0 me cap st) as Hinv by (eapply shutdown_reachable_inv; [exact Hrun|by apply shutdown_initial_inv]).
  split; [intros n st' H%own_runs; [lia|done]|].
  intros st' H. assert (inv srv0 me cap st' ∧ pc st' ≠ Running) as [Hinv' Hr'].
  { clear Hrun Hlisten. induction H as [|st st1 st2 H _ IH]; [done|].
    apply IH; [|by eapply shutdown_step_inv]. destruct H; cbn; try done. by destruct st as [[]]. }
  destruct (decide (rank (pc st') = 16)) as [E|E].
  - left. by destruct (pc st').
  - right. apply shutdown_progress; [done..|]. intros Hx. by rewrite Hx in E.
Qed.

(** C18. The wait group counts what it waits for: in every reachable state its
    counter is the accept loop, while it runs, and the connections in flight; it
    is never negative, and at zero, where [Close] goes on, nothing is left. *)
Theorem wait_group_exact (srv0 : server.Server) (h : socket.host) (me cap : nat)
    (m : bpf.Manager) (fs : socket.fs) (r : reconcile.Reconciler) (metrics0 : bool)
    (w : option (kube.Watcher * string)) (st : state)
  (Hlisten : me ∈ socket.f_listeners fs)
  (Hrun : rtc (any srv0 h me cap) (initial m fs r metrics0 w) st) :
  serving.wg (srv st)
  = (serving.loop_alive (serving.loop (srv st)) + serving.in_flight (serving.conns (srv st)))%Z ∧
  (0 ≤ serving.wg (srv st))%Z ∧
  (serving.wg (srv st) = 0%Z →
     serving.loop (srv st) = serving.Returned ∧
     Forall (λ t, t = serving.Ended) (serving.conns (srv st))).
Proof.
  assert (inv srv0 me cap st) as Hinv by (eapply shutdown_reachable_inv; [exact Hrun|by apply shutdown_initial_inv]).
  pose proof (inv_srv _ _ _ _ Hinv) as Hs. pose proof (serving.inv_wg _ _ Hs) as Hw.
  split; [done|]. split; [|by eapply serving.waited]. rewrite Hw.
  pose proof (serving.in_flight_nonneg (serving.conns (srv st))).
  destruct (serving.loop (srv st)); cbn; lia.
Qed.

(** ** A schedule

    What to do next, as far as it is needed to run an example. *)
Inductive choice :=
| Main
| Connect
| Loop
| Thread (i : nat)
| Sweeper.

Definition quiet_call (o : server.call) : server.answer o :=
  match o return server.answer o with
  | server.OS (os.Getenv _) => ""
  | server.OS (os.ReadFile _) | server.OS (os.Readlink _) | server.OS (os.Stat _)
  | server.OS (os.NameToHandleAt _) | server.OS (os.StatIno _) => Err os.ENOENT
  | server.Identify _ => (secrets.mkCaller "" 0 false "" "" None, None)
  | server.Lookup _ _ => secrets.empty_match
  | server.ProtectPID _ | server.UnprotectPID _ | server.TrackPID _ => None
  | server.OnIssued _ _ | server.OnDenied _ _ | server.Log _ => tt
  end.

(** A client that sends nothing. *)
Definition quiet_answer (o : op server.CONN) : ans server.CONN o :=
  match o return ans server.CONN o with
  | server.Ask c => quiet_call c
  | server.SetDeadline _ => None
  | server.AsUnix => true
  | server.PeerCred => Ok (server.mkUcred 42 1000 1000)
  | server.ReadRequest => Err "i/o timeout"
  | server.WriteResponse _ => None
  | server.CloseConn => tt
  end.

Section perform.
Context (server : server.Server) (h : socket.host) (me cap : nat).

(** Whether [main] has to wait. *)
Definition waiting (st : state) : bool :=
  match pc st with
  | WaitSweep => negb (sweeping.wg (sweep st) =? 0)%Z
  | WaitServer => negb (serving.wg (srv st) =? 0)%Z
  | WaitMetrics => negb (Nat.eqb (scrapes st) 0)
  | WaitPods =>
      match pods st with
      | Some (watching.mkState _ (watching.Returned _)) | None => false
      | _ => true
      end
  | Exited => true
  | _ => false
  end.

Definition perform_loop (s : serving.state) : serving.state :=
  match serving.loop s with
  | serving.AtAccept =>
      if serving.listening me s then s
      else serving.mkState (serving.stopped s) (serving.fs s) (serving.wg s) (serving.Failed true)
             (serving.conns s)
  | serving.Failed closed =>
      if serving.stopped s || closed
      then serving.mkState (serving.stopped s) (serving.fs s) (serving.wg s - 1) serving.Returned
             (serving.conns s)
      else serving.mkState (serving.stopped s) (serving.fs s) (serving.wg s) serving.AtAccept
             (serving.conns s)
  | serving.Accepted =>
      serving.mkState (serving.stopped s) (serving.fs s) (serving.wg s + 1) serving.AtAccept
        (serving.conns s ++ [serving.Serving [] (server.handleConn server)])
  | serving.Returned => s
  end.

Definition perform_thread (i : nat) (s : serving.state) : serving.state :=
  match serving.conns s !! i with
  | Some (serving.Serving tr (Do o k)) =>
      let x := quiet_answer o in
      serving.mkState (serving.stopped s) (serving.fs s) (serving.wg s) (serving.loop s)
        (<[i := serving.Serving (tr ++ [Event o x]) (k x)]> (serving.conns s))
  | Some (serving.Serving tr (Ret r)) =>
      serving.mkState (serving.stopped s) (serving.fs s) (serving.wg s - 1) (serving.loop s)
        (<[i := serving.Ended]> (serving.conns s))
  | _ => s
  end.

Definition with_srv (st : state) (s : serving.state) : state :=
  mkState (pc st) (metrics st) (scrapes st) s (sweep st) (bpf_ st) (pods st).

Definition perform (st : state) (c : choice) : state :=
  if decide (rank (pc st) = 16) then st else
  match c with
  | Main => if waiting st then st else next server h me st
  | Connect =>
      match serving.loop (srv st), serving.listening me (srv st) with
      | serving.AtAccept, true =>
          with_srv st (serving.mkState (serving.stopped (srv st)) (serving.fs (srv st))
                         (serving.wg (srv st)) serving.Accepted (serving.conns (srv st)))
      | _, _ => st
      end
  | Loop => with_srv st (perform_loop (srv st))
  | Thread i => with_srv st (perform_thread i (srv st))
  | Sweeper =>
      match sweeping.loop (sweep st), sweeping.stopped (sweep st) with
      | sweeping.Waiting, true =>
          mkState (pc st) (metrics st) (scrapes st) (srv st)
            (sweeping.mkState (sweeping.stopped (sweep st)) (sweeping.wg (sweep st) - 1)
               (sweeping.reconciler (sweep st)) sweeping.Returned) (bpf_ st) (pods st)
      | _, _ => st
      end
  end.

Lemma with_srv_same st : with_srv st (srv st) = st.
Proof. by destruct st. Qed.

Lemma waiting_waits st : waiting st = false → ¬ waits st.
Proof.
  unfold waiting, waits. destruct (pc st); try done; try (by intros _ []);
    try (intros H%negb_false_iff%Z.eqb_eq Hw; by apply Hw).
  destruct (pods st) as [[c []]|]; try done; intros _ (p & Hp & H); simplify_eq. by eapply H.
Qed.

Lemma perform_loop_steps s :
  perform_loop s = s ∨ ∃ l, serving.step server me l s (perform_loop s).
Proof.
  unfold perform_loop. destruct (serving.loop s) as [|closed| |] eqn:El; [| | |by left].
  - destruct (serving.listening me s) eqn:E; [by left|right]. eexists. by eapply serving.accept_closed.
  - right. destruct (serving.stopped s || closed) eqn:E.
    + eexists. by eapply serving.loop_returns.
    + apply orb_false_iff in E as [E ->]. eexists. by eapply serving.loop_continues.
  - right. eexists. by eapply serving.loop_spawns.
Qed.

Lemma perform_thread_steps i s :
  perform_thread i s = s ∨ ∃ l, serving.step server me l s (perform_thread i s).
Proof.
  unfold perform_thread. destruct (serving.conns s !! i) as [[tr [[]|o k]|]|] eqn:E; try (by left).
  - right. eexists. by eapply serving.conn_ends.
  - right. destruct (blocking o) eqn:Eb.
    + eexists. by eapply serving.conn_hears.
    + eexists. by eapply serving.conn_works.
Qed.

Lemma perform_steps st c : rtc (any server h me cap) st (perform st c).
Proof.
  unfold perform. case_decide as He; [done|].
  assert (pc st ≠ Exited) as Hpc by (intros Hx; by rewrite Hx in He).
  assert (∀ s', s' = srv st ∨ (∃ l, serving.step server me l (srv st) s') →
            rtc (any server h me cap) st (with_srv st s')) as Hsrv.
  { intros s' [->|[l H]]; [by rewrite with_srv_same|]. apply rtc_once. exists l. by eapply by_server. }
  destruct c as [| | |i|].
  - destruct (waiting st) eqn:E; [done|]. apply rtc_once.
    destruct (decide (rank (pc st) = 0)) as [H0|H0].
    + exists Env. apply signalled. by destruct (pc st).
    + exists Own. apply proceeds; [|by apply waiting_waits]. intros Hx. by rewrite Hx in H0.
  - destruct (serving.loop (srv st)) eqn:El; try done.
    destruct (serving.listening me (srv st)) eqn:E; [|done]. apply Hsrv. right. exists Env.
    by eapply serving.accept_conn.
  - apply Hsrv, perform_loop_steps.
  - apply Hsrv, perform_thread_steps.
  - destruct (sweeping.loop (sweep st)) eqn:El; try done.
    destruct (sweeping.stopped (sweep st)) eqn:E; [|done]. apply rtc_once. exists Own.
    eapply by_sweep; [done|]. rewrite <-E. by eapply sweeping.returns.
Qed.

Lemma performs_steps cs st : rtc (any server h me cap) st (foldl perform st cs).
Proof.
  revert st. induction cs as [|c cs IH]; intros st; [done|].
  etransitivity; [apply perform_steps|apply IH].
Qed.

End perform.

(** An agent without pods stopped while a connection, whose peer is silent, is in
    flight. *)
Definition example_server : server.Server :=
  server.New (socket.example_config "") false.

Definition example_initial : state :=
  initial bpf.example_manager (socket.example_listen "" 0 socket.public_dir).2 (reconcile.New 0)
    true None.

Definition example_schedule : list choice :=
  [Connect; Loop; Main; Main; Main; Main; Sweeper; Main; Main; Main; Thread 0; Thread 0; Thread 0;
   Loop; Loop; Thread 0; Thread 0; Thread 0; Thread 0; Thread 0] ++ replicate 20 Main.

Definition example_after (n : nat) : state :=
  foldl (perform example_server socket.permissive 0) example_initial (take n example_schedule).

Lemma example_reached n :
  rtc (any example_server socket.permissive 0 4) example_initial (example_after n).
Proof. apply performs_steps. Qed.

Lemma hooks_outlive_requests_witness :
  serving.conns (srv (example_after 40)) = [serving.Ended] ∧
  socket.f_sock (serving.fs (srv (example_after 40))) = None.
Proof.
  split; [vm_compute; reflexivity|].
  apply (hooks_outlive_requests example_server socket.permissive 0 4 bpf.example_manager
           (socket.example_listen "" 0 socket.public_dir).2 (reconcile.New 0) true None
           (example_after 40)).
  - vm_compute. reflexivity.
  - exact (example_reached 40).
  - vm_compute. reflexivity.
Defined.

(** [Close] is waiting for the connection, which is waiting for its peer: there is
    a step to take. *)
Lemma shutdown_ends_witness :
  match serving.conns (srv (example_after 13)) with
  | [serving.Serving _ (Do server.ReadRequest _)] => True
  | _ => False
  end ∧
  ∃ st', own example_server socket.permissive 0 4 (example_after 13) st'.
Proof.
  split; [vm_compute; exact I|].
  destruct (shutdown_ends example_server socket.permissive 0 4 bpf.example_manager
           (socket.example_listen "" 0 socket.public_dir).2 (reconcile.New 0) true None
           (example_after 13)) as [_ H].
  - vm_compute. reflexivity.
  - exact (example_reached 13).
  - vm_compute. discriminate.
  - destruct (H (example_after 13)) as [Hx|Hx]; [constructor| |exact Hx].
    vm_compute in Hx. discriminate Hx.
Defined.

Lemma wait_group_exact_witness :
  serving.wg (srv (example_after 13)) = 2%Z ∧
  serving.in_flight (serving.conns (srv (example_after 13))) = 1%Z.
Proof.
  destruct (wait_group_exact example_server socket.permissive 0 4 bpf.example_manager
           (socket.example_listen "" 0 socket.public_dir).2 (reconcile.New 0) true None
           (example_after 13)) as [H _].
  - vm_compute. reflexivity.
  - exact (example_reached 13).
  - split; [rewrite H|]; vm_compute; reflexivity.
Defined.

End shutdown.

End lifecycle.
