(* ===== verification/Agent.v ===== *)
(** * The agent ([src/cmd/main.go])

    Startup, and the wiring of the components: the server's interfaces are
    implemented by the identity resolver, the registry, the BPF manager and the
    metrics, and the manager writes the maps the hooks of [Kernel] read.  The
    claims here are about the whole: what has been set up when the agent runs,
    what the kernel refuses once a secret is released, and how protection
    ends.  Log lines are left out; [log.Fatal] is an outcome. *)

From S2P Require Import Prelude GoStrings Effects Os Kube Secrets Protocol Cgroup.
From S2P Require Import Identity Server Socket Types Policy Kernel Loader Metrics.

Module agent.

Local Open Scope prog_scope.

(** ** Effects of startup *)

Inductive call :=
| OS (c : os.call)
| BPF (c : bpf.call)
| Getpid
| ListPods               (** the response to the watcher's first list request *)
| Sock (c : socket.call)  (** opening the secret socket *)
| MetricsListen (addr : string).  (** answers the address it is bound to *)

Definition answer (c : call) : Type :=
  match c with
  | OS c => os.answer c
  | BPF c => bpf.answer c
  | Getpid => Z
  | ListPods => result kube.json kube.werr
  | Sock c => socket.answer c
  | MetricsListen _ => result string error
  end.

Definition AG : sig := Sig call answer.

Definition do (c : call) : prog AG (answer c) := Effects.call (Σ:=AG) c.

Definition lift_os {A} (p : prog os.OS A) : prog AG A :=
  interp (Σ1:=os.OS) (Σ2:=AG) (λ c, do (OS c)) p.

Definition lift_bpf {A} (p : prog bpf.BPF A) : prog AG A :=
  interp (Σ1:=bpf.BPF) (Σ2:=AG) (λ c, do (BPF c)) p.

Definition lift_sock {A} (p : prog socket.SOCK A) : prog AG A :=
  interp (Σ1:=socket.SOCK) (Σ2:=AG) (λ c, do (Sock c)) p.

(** The policy manager's effects; its callback is the one [main] registers. *)
Definition lift_policy {A} (m : bpf.Manager) (p : prog policy.POL A) : prog AG A :=
  interp (Σ1:=policy.POL) (Σ2:=AG) (λ c,
    match c return prog AG (policy.answer c) with
    | policy.OS c => do (OS c)
    | policy.OnPolicyUpdate pc => lift_bpf (bpf.ConfigurePolicy m pc) ;;; Ret tt
    end) p.

(** ** Helpers of [main] *)

Inductive cgroup_report :=
| CgroupUnreadable (e : cgroup.resolve_error)
| CgroupSeen (path : string)
| CgroupNamespaced (path : string).

Definition warnIfOwnCgroupNamespaced (cgroups : cgroup.Resolver) : prog AG cgroup_report :=
  pid <- do Getpid ;;
  r <- lift_os (cgroup.Resolve cgroups (uint32 pid)) ;;
  let '(own, err) := r in
  match err with
  | Some (cgroup.Unplaced m) => Ret (CgroupUnreadable (cgroup.Unplaced m))
  | _ =>
      if decide (cgroup.Path own ≠ "/") then Ret (CgroupSeen (cgroup.Path own))
      else
        inside <- lift_os kube.InCluster ;;
        Ret (if (inside : bool) then CgroupNamespaced (cgroup.Path own)
             else CgroupSeen (cgroup.Path own))
  end.

Definition fatal_not_in_cluster : error :=
  "policy.podIdentity is required but this agent is not running in a cluster, so no caller can be attributed to a pod and every request would be refused.".
Definition fatal_no_watcher (e : error) : error :=
  "policy.podIdentity is required but the pod watcher could not be created: " +:+ e.
Definition fatal_no_list : error :=
  "policy.podIdentity is required but the initial pod list failed".

(** [startIdentity]; an error is the text of a [log.Fatal]. *)
Definition startIdentity (AppendCertsFromPEM : string → bool) (mode : policy.PodIdentityMode)
    (procRoot cgroupRoot : string)
    : prog AG (result (option identity.Resolver * option kube.Watcher) error) :=
  if decide (mode = policy.PodIdentityDisabled) then Ret (Ok (None, None))
  else
    let cgroups := cgroup.NewResolver procRoot cgroupRoot in
    let by_cgroup := Ok (Some (identity.New cgroups false), None) in
    warnIfOwnCgroupNamespaced cgroups ;;;
    inside <- lift_os kube.InCluster ;;
    if negb inside then
      Ret (if decide (mode = policy.PodIdentityRequired) then Err fatal_not_in_cluster
           else by_cgroup)
    else
      node <- lift_os (os.getenv "NODE_NAME") ;;
      watcher <- lift_os (kube.NewWatcher AppendCertsFromPEM
                            (kube.mkConfig "" node "" "" false)) ;;
      match watcher with
      | Err e =>
          Ret (if decide (mode = policy.PodIdentityRequired) then Err (fatal_no_watcher e)
               else by_cgroup)
      | Ok (_, _, watcher) =>
          resp <- do ListPods ;;
          Ret (match kube.Start watcher resp with
               | (_, Err _) =>
                   if decide (mode = policy.PodIdentityRequired) then Err fatal_no_list
                   else by_cgroup
               | (watcher, Ok _) =>
                   Ok (Some (identity.New cgroups true), Some watcher)
               end)
      end.

(** [applyLogLevel]: the level set. *)
Definition applyLogLevel (pm : policy.PolicyManager) : Z :=
  logging.SetLevel logging.initial
    (logging.Parse (policy.LogLevel (policy.Monitoring (policy.GetConfig pm)))).1.

Fixpoint add_binaries (m : bpf.Manager) (binaries : list string) : prog AG unit :=
  match binaries with
  | [] => Ret tt
  | binary :: binaries =>
      lift_bpf (bpf.AddTargetBinary m binary) ;;; add_binaries m binaries
  end.

Definition configureBinaryFilter (pm : policy.PolicyManager) (m : bpf.Manager) : prog AG unit :=
  let targetBinaries := policy.GetTargetBinaries pm in
  if negb (policy.IsKernelBinaryFilterEnabled pm) then Ret tt
  else if decide (targetBinaries = []) then Ret tt
  else
    add_binaries m targetBinaries ;;;
    lift_bpf (bpf.EnableBinaryFilter m true) ;;; Ret tt.

(** The readiness check of [startMetrics]. *)
Definition ready (m : bpf.Manager) (requireProtection : bool) : option error :=
  if requireProtection && negb (bpf.IsLSMLoaded m)
  then Some "BPF-LSM required by policy but not loaded" else None.

(** [startMetrics]: the metrics server, if there is one. *)
Definition startMetrics (pm : policy.PolicyManager) : prog AG (option metrics.Server) :=
  let cfg := policy.Monitoring (policy.GetConfig pm) in
  if negb (policy.Enabled cfg) then Ret None
  else
    let srv := metrics.NewServer (policy.MetricsPort cfg) in
    listen <- do (MetricsListen (metrics.httpAddr srv)) ;;
    let '(srv, err) := metrics.Start srv listen in
    Ret (match err with Some _ => None | None => Some srv end).

(** ** [main] *)

Record flags := mkFlags {
  f_config : string; f_execMonitor : string; f_lsm : string;
  f_socket : string; f_socketMode : Z; f_socketGroup : string;
  f_procRoot : string; f_cgroupRoot : string; f_version : bool;
}.

Definition default_flags : flags :=
  mkFlags "/etc/kernelseal/config.yaml" "bpf/exec_monitor.bpf.o" "bpf/lsm_file_protect.bpf.o"
    protocol.DefaultSocketPath 432 (* 0o660 *) "" cgroup.DefaultProcRoot cgroup.DefaultRoot false.

(** The running agent: what [main] has built when it starts to wait for a signal. *)
Record agent := mkAgent {
  ag_pm : policy.PolicyManager;
  ag_bpf : bpf.Manager;
  ag_identifier : option identity.Resolver;
  ag_watcher : option kube.Watcher;
  ag_server : server.Server;
  ag_requireProtection : bool;
  ag_level : Z;
  ag_metrics : option metrics.Server;
}.

Inductive outcome := PrintedVersion | Fatal (e : error) | Running (a : agent).

(** The server's configuration for the modes of the policy. *)
Definition server_config (f : flags) (requireProtection : bool)
    (identityMode : policy.PodIdentityMode) : server.Config :=
  server.mkConfig (f_socket f) (f_socketMode f) (f_socketGroup f) requireProtection
    (bool_decide (identityMode ≠ policy.PodIdentityDisabled))
    (bool_decide (identityMode = policy.PodIdentityRequired)).

Section main.
Context (yaml_config json_config :
  string → policy.KernelSealConfig → policy.KernelSealConfig * option error).
Context (yaml_policy : string → policy.PolicySpec → policy.PolicySpec * option error).
Context (yaml_bindings : string → list policy.SecretBinding * option error).
Context (yaml_monitoring :
  string → policy.MonitoringConfig → policy.MonitoringConfig * option error).
Context (AppendCertsFromPEM : string → bool).

(** The configuration, or the defaults when it is absent or does not load. *)
Definition load_config (f : flags) : prog AG policy.PolicyManager :=
  let pm := policy.NewPolicyManager (Some secrets.NewRegistry) in
  st <- lift_os (os.stat (f_config f)) ;;
  match st with
  | Err _ => Ret pm
  | Ok _ =>
      r <- lift_policy bpf.NewManager
             (policy.LoadConfig yaml_config json_config yaml_policy yaml_bindings
                yaml_monitoring pm (f_config f)) ;;
      Ret r.1
  end.

(** The middle of [main]: the LSM, the agent's own PID and the policy. *)
Definition program_kernel (f : flags) (pm : policy.PolicyManager) (m : bpf.Manager)
    : prog AG bpf.Manager :=
  configureBinaryFilter pm m ;;;
  r <- lift_bpf (bpf.LoadLSM m (f_lsm f)) ;;
  let m := r.1 in
  own <- do Getpid ;;
  lift_bpf (bpf.AllowPID m (uint32 own)) ;;;
  lift_bpf (bpf.ConfigurePolicy m (policy.GetBPFPolicy pm)) ;;;
  Ret (bpf.SetLSMHandler (bpf.SetExecHandler m)).

(** The end of [main], with a manager whose loops run. *)
Definition start_serving (f : flags) (pm : policy.PolicyManager) (m : bpf.Manager)
    : prog AG outcome :=
  let identityMode := policy.identityMode pm in
  ident <- startIdentity AppendCertsFromPEM identityMode (f_procRoot f) (f_cgroupRoot f) ;;
  match ident with
  | Err e => Ret (Fatal e)
  | Ok (identifier, podWatcher) =>
      let requireProtection :=
        (types.EnforceMode (policy.GetBPFPolicy pm) =? types.ModeEnforce)%Z in
      let srv := server.New (server_config f requireProtection identityMode)
                   (match identifier with Some _ => true | None => false end) in
      let srv := server.SetDeniedCallback (server.SetIssuedCallback srv) in
      e <- lift_sock (socket.Listen (server.cfg srv)) ;;
      match e with
      | Some e => Ret (Fatal ("Failed to open secret socket: " +:+ e))
      | None =>
          metricsServer <- startMetrics pm ;;
          Ret (Running (mkAgent pm m identifier podWatcher srv requireProtection
                          (applyLogLevel pm) metricsServer))
      end
  end.

Definition main (f : flags) : prog AG outcome :=
  if f_version f then Ret PrintedVersion
  else
    pm <- load_config f ;;
    let pm := policy.SetPolicyUpdateCallback pm in
    r <- lift_bpf (bpf.LoadExecMonitor bpf.NewManager (f_execMonitor f)) ;;
    let '(m, e) := r in
    match e with
    | Some e => Ret (Fatal ("Failed to load exec monitor: " +:+ e))
    | None => m <- program_kernel f pm m ;; start_serving f pm m
    end.

End main.

(** ** Event handlers *)

(** [handleExecEvent]: the collector after it, and what is asked of the manager. *)
Definition handleExecEvent (m : bpf.Manager) (c : metrics.Collector) (event : types.ExecEvent)
    : prog bpf.BPF metrics.Collector :=
  if (types.ex_EventType event =? types.EventExec)%Z then Ret (metrics.RecordExecEvent c)
  else if (types.ex_EventType event =? types.EventExit)%Z then
    bpf.UnprotectPID m (types.ex_PID event) ;;; Ret c
  else Ret c.

(** [handleLSMEvent] *)
Definition handleLSMEvent (c : metrics.Collector) (event : types.LSMEvent) : metrics.Collector :=
  if (types.ls_EventType event =? types.EventBlocked)%Z then metrics.RecordAccessBlocked c
  else metrics.RecordAccessAudited c.

(** The line it logs, if its level is enabled: a block is a warning. *)
Definition lsm_line (level : Z) (event : types.LSMEvent) : option string :=
  let blocked := (types.ls_EventType event =? types.EventBlocked)%Z in
  let line := "[LSM " +:+ (if blocked then "BLOCKED" else "AUDIT") +:+ "] PID="
    +:+ fmt.d (types.ls_PID event) +:+ " (" +:+ types.LSM_GetComm event +:+ ") uid="
    +:+ fmt.d (types.ls_UID event) +:+ " attempted "
    +:+ types.AccessType_String (types.ls_AccessType event) +:+ " access to PID="
    +:+ fmt.d (types.ls_TargetPID event) in
  if blocked then logging.Warnf level line else logging.Infof level line.

(** The gauges [main] registers, sampled in a state of the BPF maps and of the
    pod cache. *)
Definition sampled (a : agent) (cache : kube.Watcher) (st : bpf.state) (c : metrics.Collector)
    : metrics.Collector :=
  let c := metrics.SetGauge c "kernelseal_lsm_loaded"
             (Some (if bpf.IsLSMLoaded (ag_bpf a) then 1%Z else 0%Z)) in
  let c := match ag_watcher a with
           | Some _ => metrics.SetGauge c "kernelseal_pods_watched"
                         (Some (Z.of_nat (kube.Len cache)))
           | None => c
           end in
  metrics.SetGauge c "kernelseal_protected_pids"
    (Some (match (exec bpf.serve (bpf.ListProtectedPIDs (ag_bpf a)) st).1 with
           | Err _ => (-1)%Z
           | Ok pids => Z.of_nat (length pids)
           end)).

(** ** The machine

    Everything outside the agent moves while it works: at every operation the
    file system, the pod cache and the part of the BPF maps that others write
    may be different ([worlds], [caches] and [others] are indexed by the
    operations performed so far). *)
Record surroundings := mkSurroundings {
  worlds : nat → os.world;
  caches : nat → kube.Watcher;
  others : nat → kernel.maps → kernel.maps;
  own_pid : Z;
  first_list : result kube.json kube.werr;
  sockets : ∀ c : socket.call, socket.answer c;
  metrics_listen : string → result string error;
}.

Record machine := mkMachine {
  now : nat;
  kern : bpf.state;
  counters : metrics.Collector;
}.

Definition maps_of (s : machine) : kernel.maps := bpf.st_maps (kern s).

Definition with_kern (s : machine) (k : bpf.state) : machine := mkMachine (now s) k (counters s).
Definition with_counters (s : machine) (c : metrics.Collector) : machine :=
  mkMachine (now s) (kern s) c.

(** Time passes: the others move. *)
Definition tick (e : surroundings) (s : machine) : machine :=
  mkMachine (S (now s)) (bpf.set_maps (kern s) (others e (now s) (maps_of s))) (counters s).

Definition boot (e : surroundings) : handler AG machine := λ c s,
  let s := tick e s in
  match c return answer c * machine with
  | OS c => ((os.serve c (worlds e (now s))).1, s)
  | BPF c => let '(x, k) := bpf.serve c (kern s) in (x, with_kern s k)
  | Getpid => (own_pid e, s)
  | ListPods => (first_list e, s)
  | Sock c => (sockets e c, s)
  | MetricsListen p => (metrics_listen e p, s)
  end.

(** A manager call made while a request is served. *)
Definition manage {A} (p : prog bpf.BPF A) (s : machine) : A * machine :=
  let '(x, k) := exec bpf.serve p (kern s) in (x, with_kern s k).

(** The server's interfaces, as [main] wires them. *)
Definition wired (e : surroundings) (a : agent) : handler server.SRV machine := λ c s,
  let s := tick e s in
  match c return server.answer c * machine with
  | server.OS c => ((os.serve c (worlds e (now s))).1, s)
  | server.Identify pid =>
      (match ag_identifier a with
       | Some r => identity.eval (identity.Identify r pid) (worlds e (now s)) (caches e (now s))
       | None => (server.nobody, None)
       end, s)
  | server.Lookup bin caller => (policy.SecretsFor (ag_pm a) bin caller, s)
  | server.ProtectPID pid => manage (bpf.ProtectPID (ag_bpf a) pid) s
  | server.UnprotectPID pid => manage (bpf.UnprotectPID (ag_bpf a) pid) s
  | server.TrackPID pid => manage (bpf.TrackPID (ag_bpf a) pid) s
  | server.OnIssued _ names =>
      (tt, with_counters s (metrics.RecordSecretsIssued (counters s) (Z.of_nat (length names))))
  | server.OnDenied _ _ => (tt, with_counters s (metrics.RecordSecretsDenied (counters s)))
  | server.Log _ => (tt, s)
  end.

(** ** What is configured stays configured *)

(** The part of the maps that only [main] writes. *)
Definition same_config (k k' : kernel.maps) : Prop :=
  kernel.policy_config k' = kernel.policy_config k ∧
  kernel.ks_allowed_pids k' = kernel.ks_allowed_pids k ∧
  kernel.cgroup_filter_enabled k' = kernel.cgroup_filter_enabled k.

#[global] Instance same_config_equiv : Equivalence same_config.
Proof.
  unfold same_config. split.
  - by intros k.
  - by intros k k' (-> & -> & ->).
  - by intros k1 k2 k3 (-> & -> & ->) (-> & -> & ->).
Qed.

(** What the agent's startup leaves in the kernel. *)
Definition programmed (a : agent) (own : Z) (k : kernel.maps) : Prop :=
  kernel.cgroup_filter_enabled k = 0%Z ∧
  (bpf.lsm_loaded (ag_bpf a) = true →
     kernel.policy_config k = bpf.kernel_policy (policy.GetBPFPolicy (ag_pm a)) ∧
     kernel.ks_allowed_pids k = {[ own := 1%Z ]}).

#[global] Instance programmed_proper a own :
  Proper (same_config ==> iff) (programmed a own).
Proof. by intros k k' (H1 & H2 & H3); unfold programmed; rewrite H1, H2, H3. Qed.

(** ** Startup *)

(** The operations that leave the configuration alone. *)
Definition keeps (c : call) : Prop :=
  match c with
  | BPF (bpf.PutPolicy _) | BPF (bpf.PutAllowed _ _) | BPF (bpf.PutCgroupFilter _) => False
  | _ => True
  end.

Definition bpf_keeps (c : bpf.call) : Prop := keeps (BPF c).

Lemma serve_keeps c k :
  bpf_keeps c → same_config (bpf.st_maps k) (bpf.st_maps (bpf.serve c k).2).
Proof.
  destruct c; simpl; try done; intros _; unfold bpf.hash_put, bpf.hash_delete;
    repeat case_match; simplify_eq; done.
Qed.

Lemma keeps_lift_os {A} (p : prog os.OS A) : only (Σ:=AG) keeps (lift_os p).
Proof. apply (interp_only (Σ1:=os.OS) (Σ2:=AG)). done. Qed.

Lemma keeps_lift_sock {A} (p : prog socket.SOCK A) : only (Σ:=AG) keeps (lift_sock p).
Proof. apply (interp_only (Σ1:=socket.SOCK) (Σ2:=AG)). done. Qed.

Lemma keeps_lift_bpf {A} (p : prog bpf.BPF A) :
  only (Σ:=bpf.BPF) bpf_keeps p → only (Σ:=AG) keeps (lift_bpf p).
Proof.
  unfold lift_bpf. induction p as [a|o k IH]; simpl; [done|].
  intros [Ho Hk]. split; [done|]. intros x. by apply IH.
Qed.

Lemma only_LoadExecMonitor m path : only (Σ:=bpf.BPF) bpf_keeps (bpf.LoadExecMonitor m path).
Proof.
  unfold bpf.LoadExecMonitor. apply only_bind; [simpl; done|]. intros [e|]; [done|].
  split; [done|]. intros [e|]; [done|]. split; [done|]. intros [e|]; [done|].
  cbn [bind]. apply only_bind; [|intros [links [e|]]; [done|]; split; [done|]; by intros [e|]].
  generalize (bpf.execLinks m).
  induction bpf.tracepoints as [|[[g n] msg] tps IH]; intros links; [done|].
  split; [done|]. intros [e|]; [done|]. apply IH.
Qed.

Lemma only_LoadLSM m path : only (Σ:=bpf.BPF) bpf_keeps (bpf.LoadLSM m path).
Proof.
  unfold bpf.LoadLSM. apply only_bind; [simpl; done|]. intros []; [|done]. cbn [negb].
  apply only_bind; [simpl; done|]. intros [e|]; [done|].
  split; [done|]. intros [e|]; [done|]. split; [done|]. intros [e|]; [done|].
  cbn [bind]. apply only_bind; [simpl; done|]. intros l1. apply only_bind; [simpl; done|]. intros l2.
  split; [done|]. by intros [e|].
Qed.

Lemma only_configureBinaryFilter pm m : only (Σ:=AG) keeps (configureBinaryFilter pm m).
Proof.
  unfold configureBinaryFilter. destruct (negb _); [done|]. case_decide as Hne; [done|].
  clear Hne. apply only_bind; [|intros _; apply only_bind; [|done]; apply keeps_lift_bpf;
                     unfold bpf.EnableBinaryFilter; by destruct (negb _)].
  induction (policy.GetTargetBinaries pm) as [|b l IH]; [done|]. cbn [add_binaries].
  apply only_bind; [|by intros _]. apply keeps_lift_bpf. unfold bpf.AddTargetBinary.
  by destruct (negb _).
Qed.

Lemma only_warn cgroups : only (Σ:=AG) keeps (warnIfOwnCgroupNamespaced cgroups).
Proof.
  split; [done|]. intros pid. cbn [bind]. apply only_bind; [apply keeps_lift_os|].
  intros [own [[]|]]; try done; case_decide; try done;
    (apply only_bind; [apply keeps_lift_os|done]).
Qed.

Lemma only_startIdentity pem mode pr cr : only (Σ:=AG) keeps (startIdentity pem mode pr cr).
Proof.
  unfold startIdentity. case_decide; [done|]. apply only_bind; [apply only_warn|]. intros _.
  apply only_bind; [apply keeps_lift_os|]. intros [|]; [|done]. cbn [negb].
  apply only_bind; [apply keeps_lift_os|]. intros node.
  apply only_bind; [apply keeps_lift_os|]. intros [[[? ?] ?]|]; [|done]. by split.
Qed.

Lemma keeps_lift_policy {A} (p : prog policy.POL A) :
  only (Σ:=AG) keeps (lift_policy bpf.NewManager p).
Proof. apply (interp_only (Σ1:=policy.POL) (Σ2:=AG)). by intros []. Qed.

Section startup.
Context (e : surroundings) (Hothers : ∀ n k, same_config k (others e n k)).

Lemma tick_config s : same_config (maps_of s) (maps_of (tick e s)).
Proof. apply Hothers. Qed.

Lemma boot_keeps c s : keeps c → same_config (maps_of s) (maps_of (boot e c s).2).
Proof.
  intros Hc. transitivity (maps_of (tick e s)); [apply tick_config|].
  destruct c as [c|c| | | |]; try done. unfold boot.
  pose proof (serve_keeps c (kern (tick e s)) Hc) as H.
  by destruct (bpf.serve c (kern (tick e s))).
Qed.

(** A program that leaves the configuration alone keeps what depends on it only. *)
Lemma triple_keeps {A} (P : kernel.maps → Prop) `{!Proper (same_config ==> iff) P}
    (p : prog AG A) :
  only (Σ:=AG) keeps p →
  triple (boot e) (λ s, P (maps_of s)) p (λ _ s, P (maps_of s)).
Proof.
  intros Hp. apply (triple_only (Σ:=AG) (boot e) keeps); [|done].
  intros o s Ho Hs. by rewrite <-(boot_keeps o s Ho).
Qed.

(** Facts about a result that hold on every run. *)
Lemma triple_result {A} P (p : prog AG A) Q (R : A → Prop) :
  triple (boot e) P p Q → (∀ tr r, runs p tr r → R r) →
  triple (boot e) P p (λ a s, Q a s ∧ R a).
Proof.
  intros H HR s Hs. split; [by apply H|].
  destruct (exec_runs (boot e) p s) as (tr & Hr & _). by eapply HR.
Qed.

(** The configuration before the LSM is loaded, and once the agent's PID is allowed. *)
Definition unprogrammed (k : kernel.maps) : Prop :=
  kernel.cgroup_filter_enabled k = 0%Z ∧ kernel.ks_allowed_pids k = ∅.

Definition admitted_self (m : bpf.Manager) (k : kernel.maps) : Prop :=
  kernel.cgroup_filter_enabled k = 0%Z ∧
  (bpf.lsm_loaded m = true → kernel.ks_allowed_pids k = {[ uint32 (own_pid e) := 1%Z ]}).

Definition programmed_for (pm : policy.PolicyManager) (m : bpf.Manager) (k : kernel.maps) : Prop :=
  kernel.cgroup_filter_enabled k = 0%Z ∧
  (bpf.lsm_loaded m = true →
     kernel.policy_config k = bpf.kernel_policy (policy.GetBPFPolicy pm) ∧
     kernel.ks_allowed_pids k = {[ uint32 (own_pid e) := 1%Z ]}).

#[local] Instance unprogrammed_proper : Proper (same_config ==> iff) unprogrammed.
Proof. by intros k k' (H1 & H2 & H3); unfold unprogrammed; rewrite H2, H3. Qed.

#[local] Instance admitted_self_proper m : Proper (same_config ==> iff) (admitted_self m).
Proof. by intros k k' (H1 & H2 & H3); unfold admitted_self; rewrite H2, H3. Qed.

#[local] Instance programmed_for_proper pm m : Proper (same_config ==> iff) (programmed_for pm m).
Proof. by intros k k' (H1 & H2 & H3); unfold programmed_for; rewrite H1, H2, H3. Qed.

Lemma AllowPID_stage m :
  triple (boot e) (λ s, unprogrammed (maps_of s)) (lift_bpf (bpf.AllowPID m (uint32 (own_pid e))))
    (λ _ s, admitted_self m (maps_of s)).
Proof.
  intros s Hs. unfold bpf.AllowPID. destruct (bpf.lsm_loaded m) eqn:E.
  - assert (unprogrammed (maps_of (tick e s))) as [Hc Ha] by by rewrite <-(tick_config s).
    cbn [negb bind lift_bpf interp bpf.do Effects.call do exec boot bpf.serve].
    change (bpf.st_maps (kern (tick e s))) with (maps_of (tick e s)).
    unfold bpf.hash_put. rewrite Ha, decide_True by (right; rewrite map_size_empty; lia).
    split; [exact Hc|done].
  - destruct Hs as [Hc _]. split; [exact Hc|]. by rewrite E.
Qed.

Lemma GetBPFPolicy_ok pm : bpf.policy_ok (policy.GetBPFPolicy pm).
Proof.
  assert (∀ b, bpf.byte_ok (policy.boolToUint8 b)) as Hb by by intros [].
  repeat split; simpl; try (by apply Hb); try done.
  all: unfold policy.enforce_mode_of; by repeat case_decide.
Qed.

Lemma ConfigurePolicy_stage pm m :
  triple (boot e) (λ s, admitted_self m (maps_of s))
    (lift_bpf (bpf.ConfigurePolicy m (policy.GetBPFPolicy pm)))
    (λ _ s, programmed_for pm m (maps_of s)).
Proof.
  intros s Hs. unfold bpf.ConfigurePolicy. destruct (bpf.lsm_loaded m) eqn:E.
  - assert (admitted_self m (maps_of (tick e s))) as [Hc Ha] by by rewrite <-(tick_config s).
    cbn [negb bind lift_bpf interp bpf.do Effects.call do exec boot bpf.serve].
    rewrite bpf.policy_roundtrip by apply GetBPFPolicy_ok. cbn.
    split; [exact Hc|]. intros _. split; [done|]. by apply Ha.
  - destruct Hs as [Hc _]. split; [exact Hc|]. by rewrite E.
Qed.

Lemma program_kernel_stage f pm m :
  triple (boot e) (λ s, unprogrammed (maps_of s)) (program_kernel f pm m)
    (λ m' s, programmed_for pm m' (maps_of s)).
Proof.
  unfold program_kernel.
  eapply triple_bind; [apply triple_keeps; [apply _|apply only_configureBinaryFilter]|].
  intros ?. eapply triple_bind; [apply triple_keeps; [apply _|]|].
  { apply keeps_lift_bpf, only_LoadLSM. }
  intros [m' err]. cbn [fst].
  eapply (triple_bind _ _ _ _ (λ own s, own = own_pid e ∧ unprogrammed (maps_of s))).
  { intros s Hs. split; [done|]. change (unprogrammed (maps_of (tick e s))).
    by rewrite <-(tick_config s). }
  intros own s [-> Hs]. revert s Hs. change (triple (boot e) (λ s, unprogrammed (maps_of s))
    (lift_bpf (bpf.AllowPID m' (uint32 (own_pid e))) ;;;
     lift_bpf (bpf.ConfigurePolicy m' (policy.GetBPFPolicy pm)) ;;;
     Ret (bpf.SetLSMHandler (bpf.SetExecHandler m')))
    (λ m' s, programmed_for pm m' (maps_of s))).
  eapply triple_bind; [apply AllowPID_stage|]. intros ?.
  eapply triple_bind; [apply ConfigurePolicy_stage|]. intros ?.
  by apply triple_ret.
Qed.

Lemma programmed_for_agent a :
  programmed a (uint32 (own_pid e)) = programmed_for (ag_pm a) (ag_bpf a).
Proof. done. Qed.

Lemma start_serving_stage pem f pm m :
  triple (boot e) (λ s, programmed_for pm m (maps_of s)) (start_serving pem f pm m)
    (λ r s, match r with
            | Running a => ag_pm a = pm ∧ ag_bpf a = m ∧ programmed_for pm m (maps_of s)
            | _ => True
            end).
Proof.
  unfold start_serving.
  eapply triple_bind; [apply triple_keeps; [apply _|apply only_startIdentity]|].
  intros [[identifier podWatcher]|err]; [|by apply triple_ret].
  eapply triple_bind; [apply triple_keeps; [apply _|apply keeps_lift_sock]|].
  intros [err|]; [by apply triple_ret|].
  eapply triple_bind; [apply triple_keeps; [apply _|]|].
  { unfold startMetrics. destruct (negb _); [done|]. split; [done|]. by intros [addr|err]. }
  intros b. by apply triple_ret.
Qed.

Lemma main_stage yc jc yp yb ym pem f :
  triple (boot e) (λ s, unprogrammed (maps_of s)) (main yc jc yp yb ym pem f)
    (λ r s, match r with
            | Running a => programmed a (uint32 (own_pid e)) (maps_of s)
            | _ => True
            end).
Proof.
  unfold main. destruct (f_version f); [by apply triple_ret|].
  eapply triple_bind; [apply triple_keeps; [apply _|]|].
  { unfold load_config. apply only_bind; [apply keeps_lift_os|]. intros [?|?]; [|done].
    apply only_bind; [apply keeps_lift_policy|done]. }
  intros pm. eapply triple_bind; [apply triple_keeps; [apply _|]|].
  { apply keeps_lift_bpf, only_LoadExecMonitor. }
  intros [m [err|]]; [by apply triple_ret|].
  eapply triple_bind; [apply program_kernel_stage|]. intros m'.
  eapply triple_conseq; [apply start_serving_stage|done|].
  intros [| |a]; try done. intros s (<- & <- & H). by rewrite programmed_for_agent.
Qed.
End startup.


(** *** What the agent is built from *)

(** How callers are identified in a running agent. *)
Definition identification (a : agent) : Prop :=
  match policy.identityMode (ag_pm a) with
  | policy.PodIdentityDisabled => ag_identifier a = None ∧ ag_watcher a = None
  | policy.PodIdentityPreferred =>
      ∃ r, ag_identifier a = Some r ∧
        (identity.pods r = true → ∃ w, ag_watcher a = Some w ∧ kube.HasSynced w = true ∧ kube.wf w)
  | policy.PodIdentityRequired =>
      ∃ r w, ag_identifier a = Some r ∧ identity.pods r = true ∧
        ag_watcher a = Some w ∧ kube.HasSynced w = true ∧ kube.wf w
  end.

(** The server and the manager of a running agent. *)
Definition built (a : agent) : Prop :=
  let c := server.cfg (ag_server a) in
  let mode := policy.identityMode (ag_pm a) in
  bpf.exec_loaded (ag_bpf a) = true ∧
  bpf.execHandler (ag_bpf a) = true ∧ bpf.lsmHandler (ag_bpf a) = true ∧
  server.has_onIssued (ag_server a) = true ∧ server.has_onDenied (ag_server a) = true ∧
  server.has_identifier (ag_server a) = bool_decide (ag_identifier a ≠ None) ∧
  server.RequireProtection c = ag_requireProtection a ∧
  (ag_requireProtection a = true ↔
     types.EnforceMode (policy.GetBPFPolicy (ag_pm a)) = types.ModeEnforce) ∧
  server.IdentifyCallers c = bool_decide (mode ≠ policy.PodIdentityDisabled) ∧
  server.RequirePodIdentity c = bool_decide (mode = policy.PodIdentityRequired) ∧
  identification a.

Lemma LoadExecMonitor_loaded m path tr m' :
  runs (bpf.LoadExecMonitor m path) tr (m', None) → bpf.exec_loaded m' = true.
Proof.
  unfold bpf.LoadExecMonitor. intros (t1 & t2 & [err|] & _ & _ & H)%runs_bind; [by destruct H|].
  apply runs_bind in H as (? & ? & [err|] & _ & _ & H); [by destruct H|].
  apply runs_bind in H as (? & ? & [err|] & _ & _ & H); [by destruct H|].
  apply runs_bind in H as (? & ? & [links [err|]] & _ & _ & H); [by destruct H|].
  apply runs_bind in H as (? & ? & [err|] & _ & _ & H); [by destruct H|].
  by destruct H as [_ [= ->]].
Qed.

Lemma LoadLSM_exec_loaded m path tr m' err :
  runs (bpf.LoadLSM m path) tr (m', err) → bpf.exec_loaded m' = bpf.exec_loaded m.
Proof.
  unfold bpf.LoadLSM. intros (t1 & t2 & [|] & _ & _ & H)%runs_bind;
    cbn [negb] in H; [|by destruct H as [_ [= -> ->]]].
  apply runs_bind in H as (? & ? & [?|] & _ & _ & H); [by destruct H as [_ [= -> ->]]|].
  apply runs_bind in H as (? & ? & [?|] & _ & _ & H); [by destruct H as [_ [= -> ->]]|].
  apply runs_bind in H as (? & ? & [?|] & _ & _ & H); [by destruct H as [_ [= -> ->]]|].
  apply runs_bind in H as (? & ? & l1 & _ & _ & H).
  apply runs_bind in H as (? & ? & l2 & _ & _ & H).
  by apply runs_bind in H as (? & ? & [?|] & _ & _ & H); destruct H as [_ [= -> ->]].
Qed.

Lemma Start_synced w resp w' rv :
  kube.wf w → kube.Start w resp = (w', Ok rv) → kube.HasSynced w' = true ∧ kube.wf w'.
Proof.
  intros Hw. unfold kube.Start. pose proof (kube.wf_list_pods w resp Hw) as H.
  destruct (kube.list_pods w resp) as [w1 [rv1|]]; [|done]. by intros [= <- <-].
Qed.

Lemma NewWatcher_empty pem c tr c' v w :
  runs (kube.NewWatcher pem c) tr (Ok (c', v, w)) → w = kube.empty_watcher.
Proof.
  unfold kube.NewWatcher. case_decide as Hd; [by intros [_ ?]|].
  intros (? & ? & [srv|] & _ & _ & H)%runs_bind; [|by destruct H].
  apply runs_bind in H as (? & ? & [?|] & _ & _ & H); by destruct H as [_ [=]].
Qed.

(** How identification was set up, for the mode it was set up for. *)
Lemma runs_startIdentity pem mode pr cr tr i w :
  runs (startIdentity pem mode pr cr) tr (Ok (i, w)) →
  match mode with
  | policy.PodIdentityDisabled => i = None ∧ w = None
  | policy.PodIdentityPreferred =>
      ∃ r, i = Some r ∧
        (identity.pods r = true → ∃ w', w = Some w' ∧ kube.HasSynced w' = true ∧ kube.wf w')
  | policy.PodIdentityRequired =>
      ∃ r w', i = Some r ∧ identity.pods r = true ∧ w = Some w' ∧ kube.HasSynced w' = true ∧ kube.wf w'
  end.
Proof.
  unfold startIdentity.
  assert (∀ c, Ok (E:=string) (i, w) = Ok (Some (identity.New c false), None) →
    ∃ r, i = Some r ∧ (identity.pods r = true →
      ∃ w', w = Some w' ∧ kube.HasSynced w' = true ∧ kube.wf w')) as Hby.
  { intros c [= -> ->]. by eexists. }
  destruct (decide (mode = policy.PodIdentityDisabled)) as [->|Hd]; [by intros [_ [= -> ->]]|].
  intros (? & ? & ? & _ & _ & H)%runs_bind.
  apply runs_bind in H as (? & ? & inside & _ & _ & H).
  destruct inside; cbn [negb] in H.
  2: { destruct H as [_ H], mode; [exact (Hby _ H)|discriminate H|done]. }
  apply runs_bind in H as (? & ? & node & _ & _ & H).
  apply runs_bind in H as (? & ? & nw & _ & Hw & H).
  destruct nw as [[[c v] w1]|err].
  2: { destruct H as [_ H], mode; [exact (Hby _ H)|discriminate H|done]. }
  apply interp_result in Hw as [? ->%NewWatcher_empty].
  apply runs_bind in H as (? & ? & resp & _ & _ & H). destruct H as [_ H].
  destruct (kube.Start kube.empty_watcher resp) as [w2 [rv|err]] eqn:E.
  - apply Start_synced in E as [Hsync Hwf]; [|apply kube.wf_empty]. injection H as -> ->.
    destruct mode; [|by eauto 10|done]. eexists. split; [done|]. eauto.
  - destruct mode; [exact (Hby _ H)|discriminate H|done].
Qed.

Lemma runs_main_built yc jc yp yb ym pem f tr a :
  runs (main yc jc yp yb ym pem f) tr (Running a) → built a.
Proof.
  unfold main. destruct (f_version f); [by intros [_ ?]|].
  intros (? & ? & pm & _ & _ & H)%runs_bind.
  apply runs_bind in H as (? & ? & [m [err|]] & _ & Hm & H); [by destruct H|].
  apply interp_result in Hm as [? Hm%LoadExecMonitor_loaded].
  apply runs_bind in H as (? & ? & m' & _ & Hm' & H).
  assert (bpf.exec_loaded m' = true ∧ bpf.execHandler m' = true ∧ bpf.lsmHandler m' = true)
    as (He & Hh & Hl).
  { unfold program_kernel in Hm'. apply runs_bind in Hm' as (? & ? & ? & _ & _ & Hm').
    apply runs_bind in Hm' as (? & ? & [m1 err] & _ & Hl & Hm').
    apply interp_result in Hl as [? Hl%LoadLSM_exec_loaded].
    apply runs_bind in Hm' as (? & ? & ? & _ & _ & Hm').
    apply runs_bind in Hm' as (? & ? & ? & _ & _ & Hm').
    apply runs_bind in Hm' as (? & ? & ? & _ & _ & Hm').
    destruct Hm' as [_ ->]. simpl in *. by rewrite Hl. }
  unfold start_serving in H.
  apply runs_bind in H as (? & ? & [[i w]|err] & _ & Hi & H); [|by destruct H].
  apply runs_startIdentity in Hi.
  apply runs_bind in H as (? & ? & [err|] & _ & _ & H); [by destruct H|].
  apply runs_bind in H as (? & ? & b & _ & _ & H). destruct H as [_ [= ->]].
  unfold built, identification. simpl.
  rewrite Z.eqb_eq. do 5 (split; [done|]). split; [by destruct i|]. repeat split; try done; tauto.
Qed.

(** C13. A running agent is wired the way its configuration asks: protection is
    required of the server exactly when the kernel policy is enforce, callers
    are identified unless that is disabled, a pod is required exactly in
    required mode, both counters' callbacks and both event handlers are in
    place and the exec monitor is loaded.  In required mode it has a pod cache
    that has synchronised: every other way of starting in that mode is fatal. *)
Theorem main_builds yc jc yp yb ym pem (f : flags) (tr : trace AG) (a : agent)
  (Hrun : runs (main yc jc yp yb ym pem f) tr (Running a)) :
  built a.
Proof. by eapply runs_main_built. Qed.

(** C12. What startup leaves in the kernel: from fresh maps, whatever the BPF
    programs and other processes write meanwhile, a running agent whose LSM
    object loaded has installed its own policy, field by field, and allowed its
    own PID and no other, and it has not enabled the cgroup filter. *)
Theorem main_programs_kernel yc jc yp yb ym pem (f : flags) (e : surroundings)
    (s s' : machine) (a : agent)
  (Hothers : ∀ n k, same_config k (others e n k))
  (Hfresh : maps_of s = kernel.no_maps)
  (Hrun : exec (boot e) (main yc jc yp yb ym pem f) s = (Running a, s')) :
  programmed a (uint32 (own_pid e)) (maps_of s').
Proof.
  pose proof (main_stage e Hothers yc jc yp yb ym pem f s) as H.
  rewrite Hrun in H. apply H. by rewrite Hfresh.
Qed.

(** ** Serving a request *)

Lemma manage_config {A} (p : prog bpf.BPF A) s :
  only (Σ:=bpf.BPF) bpf_keeps p → same_config (maps_of s) (maps_of (manage p s).2).
Proof.
  intros Hp.
  assert (triple bpf.serve (λ k, same_config (maps_of s) (bpf.st_maps k)) p
            (λ _ k, same_config (maps_of s) (bpf.st_maps k))) as H.
  { apply (triple_only (Σ:=bpf.BPF) bpf.serve bpf_keeps); [|done].
    intros o k Ho Hk. etransitivity; [exact Hk|by apply serve_keeps]. }
  specialize (H (kern s)). unfold manage. destruct (exec bpf.serve p (kern s)).
  apply H. reflexivity.
Qed.

Section request.
Context (e : surroundings) (a : agent).
Context (Hothers : ∀ n k, same_config k (others e n k)).

Lemma wired_config c s : same_config (maps_of s) (maps_of (wired e a c s).2).
Proof.
  transitivity (maps_of (tick e s)); [by apply tick_config|].
  destruct c; try done; unfold wired; apply manage_config.
  - unfold bpf.ProtectPID. by destruct (negb _).
  - unfold bpf.UnprotectPID. by destruct (negb _).
  - unfold bpf.TrackPID. by destruct (negb _).
Qed.

Lemma follows_config tr s s' :
  follows (wired e a) s tr s' → same_config (maps_of s) (maps_of s').
Proof.
  revert s. induction tr as [|x tr IH]; intros s; simpl; [by intros ->|].
  intros [_ H]. etransitivity; [apply wired_config|by apply IH].
Qed.

(** *** The mark of one process *)

Context (pid : Z).

Definition marks (k : kernel.maps) : Prop := kernel.is_protected k pid = true.
Definition tracks (k : kernel.maps) : Prop := is_Some (kernel.seen_pids k !! pid).

Lemma wired_ProtectPID s :
  (wired e a (server.ProtectPID pid) s).1 = None →
  bpf.lsm_loaded (ag_bpf a) = true ∧ marks (maps_of (wired e a (server.ProtectPID pid) s).2).
Proof.
  unfold wired, manage, bpf.ProtectPID, marks, kernel.is_protected.
  destruct (bpf.lsm_loaded (ag_bpf a)); [|done]. split; [done|].
  revert H. cbn [negb bind bpf.do Effects.call exec bpf.serve]. unfold bpf.hash_put.
  case_decide; cbn; [|done]. by rewrite lookup_insert_eq.
Qed.

Lemma wired_marks c s :
  (∀ n k, marks k → marks (others e n k)) →
  c ≠ server.UnprotectPID pid →
  marks (maps_of s) → marks (maps_of (wired e a c s).2).
Proof.
  intros Hkeep Hc Hs. assert (marks (maps_of (tick e s))) as Ht by by apply Hkeep.
  clear Hs. destruct c as [c|p|b c|p|p|p|p l|p r|l]; try done.
  - unfold wired, manage, bpf.ProtectPID. destruct (negb _); [done|].
    cbn [bind bpf.do Effects.call exec bpf.serve]. unfold bpf.hash_put.
    case_decide; [|done]. unfold marks, kernel.is_protected in *. cbn.
    destruct (decide (p = pid)) as [->|Hne]; [by rewrite lookup_insert_eq|].
    by rewrite lookup_insert_ne.
  - unfold wired, manage, bpf.UnprotectPID. destruct (negb _); [done|].
    cbn [bind bpf.do Effects.call exec bpf.serve]. unfold bpf.hash_delete.
    destruct (_ !! p); [|done]. unfold marks, kernel.is_protected in *. cbn.
    by rewrite lookup_delete_ne by congruence.
  - unfold wired, manage, bpf.TrackPID. by destruct (negb _).
Qed.

Lemma follows_marks tr s s' :
  (∀ n k, marks k → marks (others e n k)) →
  Forall (λ x : event server.SRV, ∀ p, ev_op x ≠ server.UnprotectPID p) tr →
  follows (wired e a) s tr s' → marks (maps_of s) → marks (maps_of s').
Proof.
  intros Hkeep Htr. revert s. induction Htr as [|x tr Hx _ IH]; intros s; simpl; [by intros ->|].
  intros [_ H] Hs. eapply IH; [exact H|]. by apply wired_marks.
Qed.

Lemma wired_TrackPID s :
  bpf.exec_loaded (ag_bpf a) = true →
  tracks (maps_of (wired e a (server.TrackPID pid) s).2).
Proof.
  intros Hl. unfold wired, manage, bpf.TrackPID, tracks. rewrite Hl. cbn.
  unfold kernel.lru_put. case_decide; rewrite lookup_insert_eq; by eexists.
Qed.

Lemma wired_tracks c s :
  (∀ n k, tracks k → tracks (others e n k)) →
  (∀ p, c ≠ server.TrackPID p) →
  tracks (maps_of s) → tracks (maps_of (wired e a c s).2).
Proof.
  intros Hkeep Hc Hs. assert (tracks (maps_of (tick e s))) as Ht by by apply Hkeep.
  clear Hs. destruct c as [c|p|b c|p|p|p|p l|p r|l]; try done; [| |by destruct (Hc p)].
  - unfold wired, manage, bpf.ProtectPID. destruct (negb _); [done|].
    cbn [bind bpf.do Effects.call exec bpf.serve]. by destruct (bpf.hash_put _ _ _ _).
  - unfold wired, manage, bpf.UnprotectPID. destruct (negb _); [done|].
    cbn [bind bpf.do Effects.call exec bpf.serve]. by destruct (bpf.hash_delete _ _).
Qed.

Lemma follows_tracks tr s s' :
  (∀ n k, tracks k → tracks (others e n k)) →
  Forall (λ x : event server.SRV, ∀ p, ev_op x ≠ server.TrackPID p) tr →
  follows (wired e a) s tr s' → tracks (maps_of s) → tracks (maps_of s').
Proof.
  intros Hkeep Htr. revert s. induction Htr as [|x tr Hx _ IH]; intros s; simpl; [by intros ->|].
  intros [_ H] Hs. eapply IH; [exact H|]. by apply wired_tracks.
Qed.
End request.

(** A response that carries an environment left its caller marked and tracked,
    as long as nothing else took the mark or the track away. *)
Lemma handle_marks e a cred req s r s' :
  let pid := server.cred_pid cred in
  exec (wired e a) (server.handle (ag_server a) cred req) s = (r, s') →
  protocol.resp_Env r ≠ ∅ →
  (server.RequireProtection (server.cfg (ag_server a)) = true →
   (∀ n k, marks pid k → marks pid (others e n k)) →
     protocol.resp_Protected r = true ∧ bpf.lsm_loaded (ag_bpf a) = true ∧
     marks pid (maps_of s')) ∧
  (bpf.exec_loaded (ag_bpf a) = true →
   (∀ n k, tracks pid k → tracks pid (others e n k)) → tracks pid (maps_of s')).
Proof.
  intros pid Hx He.
  destruct (exec_runs (wired e a) (server.handle (ag_server a) cred req) s) as (tr & Hr & Hf).
  rewrite Hx in Hr, Hf. cbn [fst snd] in Hr, Hf.
  destruct (server.release_trace _ _ _ _ _ Hr He)
    as (t1 & t2 & t3 & perr & terr & -> & Hperr & Hprot & Hun & Htr).
  apply follows_app in Hf as (s1 & _ & Hp & Hf). cbn [ev_op ev_ans] in *. split.
  - intros Hreq Hkeep. destruct Hperr as [->|]; [|congruence]. split; [done|].
    destruct (wired_ProtectPID e a pid s1 Hp) as [Hl Hm]. split; [done|].
    by eapply follows_marks.
  - intros Hl Hkeep. apply follows_app in Hf as (s2 & _ & _ & Hf). cbn [ev_op] in Hf.
    eapply follows_tracks; [done|exact Htr|exact Hf|by apply wired_TrackPID].
Qed.

(** ** End to end *)

(** What an open of a file, and an attempt to trace, come to: a hook decides
    only when it is attached. *)
Definition file_open (a : agent) (k : kernel.maps) (t : kernel.task)
    (file : option kernel.dentry) (room : bool) (clock : Z) : Z :=
  if decide (bpf.FileOpen ∈ bpf.lsmLinks (ag_bpf a))
  then (kernel.ks_file_open k t file room clock).1 else 0%Z.

Definition ptrace_access (a : agent) (k : kernel.maps) (t : kernel.task) (child : Z)
    (room : bool) (clock : Z) : Z :=
  if decide (bpf.PtraceAccessCheck ∈ bpf.lsmLinks (ag_bpf a))
  then (kernel.ks_ptrace_access_check k t child room clock).1 else 0%Z.

Lemma not_exempt a own k t pid :
  programmed a own k → bpf.lsm_loaded (ag_bpf a) = true →
  kernel.t_pid t ≠ own → kernel.t_pid t ≠ pid →
  ¬ kernel.exempt k (kernel.t_pid t) pid.
Proof.
  intros [_ Hprog] Hl Hown Hpid [Ha|[_ ?]]; [|done].
  destruct (Hprog Hl) as [_ Hall]. unfold kernel.allowed in Ha.
  by rewrite Hall, lookup_singleton_ne in Ha by done.
Qed.

Lemma ptrace_entry m t child room clock :
  kernel.refused m (kernel.t_pid t) child (types.block_ptrace (kernel.policy_config m)) = true →
  (kernel.ks_ptrace_access_check m t child room clock).1 = (- kernel.EPERM)%Z.
Proof.
  intros (Hm & Hp & He & Hb)%kernel.refused_iff. unfold kernel.ks_ptrace_access_check.
  rewrite Hm, Hp. rewrite (proj2 (Z.eqb_neq _ _) Hb). unfold kernel.exempt in He.
  destruct (kernel.allowed m (kernel.t_pid t)); [by destruct He; left|].
  destruct (Z.eqb_spec (types.allow_self_read (kernel.policy_config m)) 0),
    (Z.eqb_spec (kernel.t_pid t) child); simpl; try done. destruct He. by right.
Qed.

(** What the kernel does for a protected process under an enforce policy. *)
Lemma guarded (a : agent) (own : Z) (k : kernel.maps) (t : kernel.task) (cred : server.Ucred)
    (name : string) (acc : Z) (room : bool) (clock : Z) :
  let pid := server.cred_pid cred in
  let p := bpf.kernel_policy (policy.GetBPFPolicy (ag_pm a)) in
  programmed a own k → bpf.lsm_loaded (ag_bpf a) = true →
  bpf.FileOpen ∈ bpf.lsmLinks (ag_bpf a) ∧ bpf.PtraceAccessCheck ∈ bpf.lsmLinks (ag_bpf a) →
  types.EnforceMode (policy.GetBPFPolicy (ag_pm a)) = types.ModeEnforce →
  (0 < pid)%Z → kernel.t_pid t ≠ own → kernel.t_pid t ≠ pid →
  kernel.access_of name = Some acc → kernel.is_protected k pid = true →
  (kernel.guard p acc ≠ 0%Z →
     file_open a k t (kernel.proc_entry pid name) room clock = (- kernel.EPERM)%Z) ∧
  (types.block_ptrace p ≠ 0%Z →
     ptrace_access a k t pid room clock = (- kernel.EPERM)%Z).
Proof.
  intros pid p Hprog Hl Hattached Henforce Hpid Hown Hother Hacc Hpk.
  pose proof (not_exempt _ _ _ t pid Hprog Hl Hown Hother) as Hex.
  destruct (proj2 Hprog Hl) as [Hpol _].
  assert (∀ g, g ≠ 0%Z → kernel.refused k (kernel.t_pid t) pid g = true) as Href.
  { intros g Hg. apply kernel.refused_iff. rewrite Hpol. by split; [exact Henforce|]. }
  split; intros Hg; [unfold file_open|unfold ptrace_access]; rewrite decide_True by apply Hattached.
  - destruct (kernel.proc_entry_aims pid name acc) as [Hok Haim]; [|done|].
    { pose proof (uint32_range (server.Pid cred)). split; [done|]. unfold pid, server.cred_pid. lia. }
    destruct (kernel.ks_file_open_aimed k t _ room clock pid acc Hok Haim) as [-> _].
    rewrite Hpol. fold p. by rewrite Href.
  - apply ptrace_entry. rewrite Hpol. by apply Href.
Qed.

(** An agent started on fresh maps under an enforce policy requires protection,
    and the kernel has its policy. *)
Lemma started_enforcing yc jc yp yb ym pem (f : flags) (e : surroundings) s0 s1 (a : agent) :
  (∀ n k, same_config k (others e n k)) → maps_of s0 = kernel.no_maps →
  exec (boot e) (main yc jc yp yb ym pem f) s0 = (Running a, s1) →
  types.EnforceMode (policy.GetBPFPolicy (ag_pm a)) = types.ModeEnforce →
  server.RequireProtection (server.cfg (ag_server a)) = true ∧
  programmed a (uint32 (own_pid e)) (maps_of s1).
Proof.
  intros Hothers Hfresh Hmain Henforce.
  destruct (exec_runs (boot e) (main yc jc yp yb ym pem f) s0) as (tr & Hr & _).
  rewrite Hmain in Hr. apply runs_main_built in Hr as (_ & _ & _ & _ & _ & _ & Hrp & Hiff & _).
  pose proof (main_stage e Hothers yc jc yp yb ym pem f s0) as Hprog.
  rewrite Hmain, Hfresh in Hprog. specialize (Hprog (conj eq_refl eq_refl)). cbn [fst snd] in Hprog.
  split; [|done]. rewrite Hrp. by apply Hiff.
Qed.

(** Serving leaves the configuration alone. *)
Lemma handle_config (e : surroundings) (a : agent) (Hothers : ∀ n k, same_config k (others e n k))
    cred req s r s' :
  exec (wired e a) (server.handle (ag_server a) cred req) s = (r, s') →
  same_config (maps_of s) (maps_of s').
Proof.
  intros Hx. destruct (exec_runs (wired e a) (server.handle (ag_server a) cred req) s) as (t' & _ & Hf).
  rewrite Hx in Hf. by eapply follows_config.
Qed.

(** C10. The agent keeps its promise end to end.  Take an agent started on fresh
    maps under an enforce policy, with both hooks attached, and a request it
    answers with an environment, at any later time, while everything else that
    goes on leaves the agent's settings alone and does not take the caller's mark
    during the request.  Then the answer says the caller is protected, it is, and
    for as long as its mark stays, every other process but the agent itself is
    refused by the kernel when it opens a file of the caller whose switch (for
    environ, mem or maps) is on in the policy, and, if the switch for tracing is
    on, when it tries to trace the caller. *)
Theorem released_secrets_guarded yc jc yp yb ym pem (f : flags) (e : surroundings)
    (s0 s1 s2 s3 : machine) (a : agent) (cred : server.Ucred) (req : protocol.Request)
    (r : protocol.Response) (k : kernel.maps) (t : kernel.task) (name : string) (acc : Z)
    (room : bool) (clock : Z)
  (Hothers : ∀ n k, same_config k (others e n k))
  (Hmark : ∀ n k, kernel.is_protected k (server.cred_pid cred) = true →
                  kernel.is_protected (others e n k) (server.cred_pid cred) = true)
  (Hfresh : maps_of s0 = kernel.no_maps)
  (Hmain : exec (boot e) (main yc jc yp yb ym pem f) s0 = (Running a, s1))
  (Hattached : bpf.FileOpen ∈ bpf.lsmLinks (ag_bpf a) ∧
               bpf.PtraceAccessCheck ∈ bpf.lsmLinks (ag_bpf a))
  (Henforce : types.EnforceMode (policy.GetBPFPolicy (ag_pm a)) = types.ModeEnforce)
  (Hlater : same_config (maps_of s1) (maps_of s2))
  (Hreq : exec (wired e a) (server.handle (ag_server a) cred req) s2 = (r, s3))
  (Henv : protocol.resp_Env r ≠ ∅)
  (Hpid : (0 < server.cred_pid cred)%Z)
  (Hk : same_config (maps_of s3) k)
  (Hown : kernel.t_pid t ≠ uint32 (own_pid e))
  (Hother : kernel.t_pid t ≠ server.cred_pid cred)
  (Hacc : kernel.access_of name = Some acc) :
  let pid := server.cred_pid cred in
  let p := bpf.kernel_policy (policy.GetBPFPolicy (ag_pm a)) in
  protocol.resp_Protected r = true ∧ kernel.is_protected (maps_of s3) pid = true ∧
  (kernel.is_protected k pid = true →
   (kernel.guard p acc ≠ 0%Z →
      file_open a k t (kernel.proc_entry pid name) room clock = (- kernel.EPERM)%Z) ∧
   (types.block_ptrace p ≠ 0%Z →
      ptrace_access a k t pid room clock = (- kernel.EPERM)%Z)).
Proof.
  intros pid p.
  destruct (started_enforcing _ _ _ _ _ _ _ _ _ _ _ Hothers Hfresh Hmain Henforce) as [Hrp Hprog].
  destruct (handle_marks e a cred req s2 r s3 Hreq Henv) as [H _].
  destruct (H Hrp Hmark) as (Hp & Hl & Hm). do 2 (split; [done|]).
  rewrite Hlater, (handle_config e a Hothers _ _ _ _ _ Hreq), Hk in Hprog.
  intros Hpk. by eapply guarded.
Qed.

(** *** How protection ends *)

(** What an exit of a thread comes to: the tracepoint, the ring buffer, the
    event loop and the handler. *)
Definition exit_path (a : agent) (junk : nat → ascii) (c : metrics.Collector) (k : bpf.state)
    (t : kernel.task) (live : option Z) (room : bool) (clock : Z)
    : metrics.Collector * bpf.state :=
  let '(m, ev) := kernel.handle_sched_process_exit (bpf.st_maps k) t live room clock in
  let k := bpf.set_maps k m in
  match ev with
  | None => (c, k)
  | Some ev =>
      foldl (λ '(c, k) event, exec bpf.serve (handleExecEvent (ag_bpf a) c event) k) (c, k)
        (bpf.processExecEvents (ag_bpf a) [(false, bpf.Record_ (types.exec_bytes junk ev))])
  end.

(** A task as the helpers describe it. *)
Definition task_ok (t : kernel.task) : Prop :=
  types.fits 4 (kernel.t_pid t) ∧ types.fits 4 (kernel.t_tid t) ∧ types.fits 4 (kernel.t_uid t) ∧
  types.fits 4 (kernel.t_gid t) ∧ types.fits 8 (kernel.t_cgroup t) ∧
  length (kernel.t_comm t) = 16.

Lemma exit_event_ok t clock :
  task_ok t → types.fits 8 clock →
  types.exec_ok (kernel.exec_event clock t kernel.KS_EVENT_EXIT 0 (kernel.t_comm t)
                   (kernel.read_str 256 "")).
Proof.
  intros (? & ? & ? & ? & ? & ?) ?. unfold types.exec_ok. cbn -[types.fits].
  do 10 (split; [first [done|by split]|]). done.
Qed.

Lemma exit_path_releases a junk c k t live clock :
  bpf.exec_loaded (ag_bpf a) = true → bpf.execHandler (ag_bpf a) = true →
  bpf.lsm_loaded (ag_bpf a) = true →
  kernel.cgroup_filter_enabled (bpf.st_maps k) = 0%Z →
  task_ok t → types.fits 8 clock → live = None ∨ live = Some 0%Z →
  tracks (kernel.t_pid t) (bpf.st_maps k) →
  (exit_path a junk c k t live true clock).1 = c ∧
  kernel.protected_pids (bpf.st_maps (exit_path a junk c k t live true clock).2)
  = base.delete (kernel.t_pid t) (kernel.protected_pids (bpf.st_maps k)).
Proof.
  intros He Hh Hl Hcg Ht Hc Hlive [ts Hts]. unfold exit_path, kernel.handle_sched_process_exit.
  assert (kernel.thread_group_dead live = true) as -> by by destruct Hlive as [-> | ->].
  cbn [negb]. rewrite Hts, kernel.monitor_set_seen. unfold kernel.should_monitor_cgroup.
  rewrite Hcg. cbn [Z.eqb negb]. unfold bpf.processExecEvents. rewrite Hh.
  cbn [bpf.process]. rewrite types.read_exec_bytes by by apply exit_event_ok.
  cbn [app foldl]. unfold handleExecEvent, bpf.UnprotectPID. cbn [types.ex_EventType types.exec_of
    types.kx_event_type kernel.exec_event]. change (kernel.KS_EVENT_EXIT =? types.EventExec)%Z with false.
  change (kernel.KS_EVENT_EXIT =? types.EventExit)%Z with true. rewrite Hl.
  cbn [negb bind bpf.do Effects.call exec bpf.serve types.ex_PID types.exec_of types.kx_pid
       kernel.exec_event]. unfold bpf.hash_delete. cbn.
  destruct (kernel.protected_pids (bpf.st_maps k) !! kernel.t_pid t) eqn:E; cbn; [done|].
  split; [done|]. by rewrite delete_id.
Qed.

Lemma exit_path_lost a junk c k t live room clock :
  ¬ tracks (kernel.t_pid t) (bpf.st_maps k) ∨ room = false →
  (exit_path a junk c k t live room clock).1 = c ∧
  kernel.protected_pids (bpf.st_maps (exit_path a junk c k t live room clock).2)
  = kernel.protected_pids (bpf.st_maps k).
Proof.
  intros H. unfold exit_path, kernel.handle_sched_process_exit, tracks in *.
  destruct (negb _); [done|].
  destruct (kernel.seen_pids (bpf.st_maps k) !! kernel.t_pid t); [|done].
  destruct H as [H| ->]; [by destruct H|]. by destruct (negb _).
Qed.

(** C11. How the exit of a caller ends its protection, for a caller that was served
    with the LSM loaded, by an agent whose settings nobody else writes.  Serving put the caller in the table of tracked processes, an LRU
    map, where it is at the end of the request unless the other users of the map
    evicted it meanwhile.  When later its last thread exits: if the entry is still
    there and the ring buffer has room, the exit is reported, decoded and handled,
    and takes away the mark of that process and of no other; if the entry was
    evicted or the buffer is full, nothing is reported and every mark stays, which
    is what the sweep is for.  The counters stay as they are either way. *)
Theorem exit_releases_protection yc jc yp yb ym pem (f : flags) (e : surroundings)
    (s0 s1 s2 s3 : machine) (a : agent) (cred : server.Ucred) (req : protocol.Request)
    (r : protocol.Response) (k : bpf.state) (t : kernel.task) (live : option Z) (room : bool)
    (clock : Z) (junk : nat → ascii) (c : metrics.Collector)
  (Hothers : ∀ n k, same_config k (others e n k))
  (Hfresh : maps_of s0 = kernel.no_maps)
  (Hmain : exec (boot e) (main yc jc yp yb ym pem f) s0 = (Running a, s1))
  (Hlsm : bpf.lsm_loaded (ag_bpf a) = true)
  (Hlater : same_config (maps_of s1) (maps_of s2))
  (Hreq : exec (wired e a) (server.handle (ag_server a) cred req) s2 = (r, s3))
  (Henv : protocol.resp_Env r ≠ ∅)
  (Hk : same_config (maps_of s3) (bpf.st_maps k))
  (Ht : task_ok t) (Hpid : kernel.t_pid t = server.cred_pid cred)
  (Hclock : types.fits 8 clock) (Hlive : live = None ∨ live = Some 0%Z) :
  let pid := server.cred_pid cred in
  let '(c', k') := exit_path a junk c k t live room clock in
  ((∀ n k, tracks pid k → tracks pid (others e n k)) → tracks pid (maps_of s3)) ∧
  c' = c ∧
  (tracks pid (bpf.st_maps k) → room = true →
     kernel.protected_pids (bpf.st_maps k')
     = base.delete pid (kernel.protected_pids (bpf.st_maps k))) ∧
  (¬ tracks pid (bpf.st_maps k) ∨ room = false →
     kernel.protected_pids (bpf.st_maps k') = kernel.protected_pids (bpf.st_maps k)).
Proof.
  destruct (exec_runs (boot e) (main yc jc yp yb ym pem f) s0) as (tr & Hr & _).
  rewrite Hmain in Hr. apply runs_main_built in Hr as (He & Hh & _).
  pose proof (main_stage e Hothers yc jc yp yb ym pem f s0) as Hprog.
  rewrite Hmain, Hfresh in Hprog. specialize (Hprog (conj eq_refl eq_refl)). cbn [fst snd] in Hprog.
  destruct (handle_marks e a cred req s2 r s3 Hreq Henv) as [_ Htr].
  rewrite Hlater, (handle_config e a Hothers _ _ _ _ _ Hreq), Hk in Hprog. destruct Hprog as [Hcg _].
  intros pid. pose proof (exit_path_releases a junk c k t live clock He Hh Hlsm Hcg Ht Hclock Hlive) as H1.
  pose proof (exit_path_lost a junk c k t live room clock) as H2. rewrite Hpid in H1, H2.
  fold pid in H1, H2, Htr. destruct (exit_path a junk c k t live room clock) as [c' k'] eqn:Ex.
  split; [by apply Htr|]. split; [|split].
  - destruct (decide (is_Some (kernel.seen_pids (bpf.st_maps k) !! pid))) as [Hs|Hs].
    + destruct room; [|by apply H2; right]. rewrite Ex in H1. by apply H1.
    + by apply H2; left.
  - intros Hs ->. rewrite Ex in H1. by apply H1.
  - intros Hl. by apply H2.
Qed.

(** ** Readiness *)

(** C14. An agent that is not ready gives nothing away: when the readiness
    endpoint answers 503, the policy requires protection, the LSM is not
    loaded, and every request, whatever it names and whoever makes it, is
    answered without an environment. *)
Theorem not_ready_releases_nothing yc jc yp yb ym pem (f : flags) (tr : trace AG)
    (e : surroundings) (s s' : machine) (a : agent) (cred : server.Ucred)
    (req : protocol.Request) (r : protocol.Response)
  (Hmain : runs (main yc jc yp yb ym pem f) tr (Running a))
  (Hready : (metrics.handleReady
               (Some (ready (ag_bpf a) (ag_requireProtection a)))).1 = 503%Z)
  (Hreq : exec (wired e a) (server.handle (ag_server a) cred req) s = (r, s')) :
  protocol.resp_Env r = ∅ ∧ bpf.lsm_loaded (ag_bpf a) = false.
Proof.
  apply runs_main_built in Hmain as (_ & _ & _ & _ & _ & _ & Hrp & _).
  unfold ready, bpf.IsLSMLoaded in Hready. rewrite <-Hrp in Hready.
  destruct (server.RequireProtection _) eqn:Hp, (bpf.lsm_loaded (ag_bpf a)) eqn:Hl;
    try (by vm_compute in Hready). split; [|done].
  destruct (decide (protocol.resp_Env r = ∅)) as [?|He]; [done|exfalso].
  destruct (exec_runs (wired e a) (server.handle (ag_server a) cred req) s) as (tr' & Hr & Hf).
  rewrite Hreq in Hr, Hf. cbn [fst snd] in Hr, Hf.
  destruct (server.release_trace _ _ _ _ _ Hr He)
    as (t1 & t2 & t3 & perr & terr & -> & [->|] & _); [|congruence].
  apply follows_app in Hf as (s1 & _ & Hpr & _). cbn [ev_op ev_ans] in Hpr.
  apply wired_ProtectPID in Hpr as [? _]. congruence.
Qed.

(** ** An agent to compute with

    One binding, for psql in the namespace shop, under an enforce policy that
    requires a pod; the pod is in the first list. *)

Definition example_config : policy.KernelSealConfig :=
  policy.mkKSC "v1" (policy.mkSpec "enforce" true true false true true false true "required")
    [policy.mkSB "db" (policy.mkProc "psql" "" ∅ "shop" "")
       [policy.mkRef "PW" (policy.mkSource "x" None "" "" None)]]
    (policy.Monitoring policy.DefaultConfig).

Definition example_yaml (data : string) (c : policy.KernelSealConfig)
    : policy.KernelSealConfig * option error := (example_config, None).

Definition unchanged {A} (data : string) (c : A) : A * option error := (c, None).
Definition no_bindings (data : string) : list policy.SecretBinding * option error := ([], None).
Definition any_pem (data : string) : bool := true.

Definition example_main : prog AG outcome :=
  main example_yaml unchanged unchanged no_bindings unchanged any_pem default_flags.

(** The files of the host while process 42 has the given [stat]. *)
Definition example_world (stat : string) : os.world :=
  os.mkWorld
    (list_to_map
       [("/etc/kernelseal/config.yaml", "version: v1");
        (kube.tokenFile, "token"); (kube.caFile, "pem");
        ("/proc/7/cgroup", "0::/");
        ("/proc/42/stat", stat);
        ("/proc/42/cgroup", "0::/kubepods/pod" +:+ identity.example_uid +:+ "/0123456789ab")])
    ∅ ∅
    (list_to_map [("KUBERNETES_SERVICE_HOST", "10.0.0.1"); ("NODE_NAME", "node-1")])
    ∅ ∅.

Definition stat_at (start : string) : string :=
  "42 (psql) S 1 42 42 0 -1 4194304 100 0 0 0 0 0 0 0 20 0 1 0 " +:+ start +:+ " 0 0".

Definition example_surroundings (ws : nat → os.world) : surroundings :=
  mkSurroundings ws (λ _, identity.example_cache) (λ _ k, k) 7
    (Ok (kube.enc_list (kube.mkList "12" [identity.example_object])))
    (socket.granted 0) Ok.

Definition calm : surroundings := example_surroundings (λ _, example_world (stat_at "777")).

Definition fresh (attach : bpf.hook → option error) : machine :=
  mkMachine 0 (bpf.mkState (bpf.example_host attach) kernel.no_maps) metrics.NewCollector.

Definition example_start : outcome * machine := exec (boot calm) example_main (fresh (λ _, None)).

Definition fallback : agent :=
  mkAgent (policy.NewPolicyManager None) bpf.NewManager None None
    (server.New (server.mkConfig "" 0 "" true true true) false) true 0 None.

Definition example_agent : agent :=
  match example_start.1 with Running a => a | _ => fallback end.

Definition example_response : protocol.Response * machine :=
  exec (wired calm example_agent)
    (server.handle (ag_server example_agent) (server.mkUcred 42 0 0) server.psql_request)
    example_start.2.

Lemma example_start_eq : example_start = (Running example_agent, example_start.2).
Proof.
  assert (match example_start.1 with Running _ => True | _ => False end) as H
    by (vm_compute; exact I).
  unfold example_agent. destruct example_start as [[| |a] s]; done.
Qed.

Lemma example_start_runs : ∃ tr, runs example_main tr (Running example_agent).
Proof.
  destruct (exec_runs (boot calm) example_main (fresh (λ _, None))) as (tr & H & _).
  exists tr. pose proof example_start_eq as He. unfold example_start in He.
  by rewrite He in H.
Qed.

(** *** A process that inherits a PID *)

(** The worlds of a request during which process 42 exits and its PID is given
    to another process of the same pod. *)
Definition reuse : surroundings :=
  example_surroundings (λ n, example_world (stat_at (if bool_decide (n ≤ 7) then "777" else "888"))).

(** The first request up to its second look at the start time, all of the
    second one, the rest of the first. *)
Definition reuse_schedule : list nat := replicate 7 0 ++ replicate 20 1 ++ replicate 20 0.

Definition reuse_run : list (prog server.SRV protocol.Response) * machine :=
  let p := server.handle (ag_server example_agent) (server.mkUcred 42 0 0) server.psql_request in
  run_pool (wired reuse example_agent) reuse_schedule [p; p]
    (mkMachine 0 (kern example_start.2) metrics.NewCollector).

(** C39. The roll-back of a request whose caller went away can take the mark of a
    process that inherited its PID.  There is a running agent, and an
    interleaving of two requests with the same PID with nothing else touching
    the maps, in which the first is refused as recycled, the second is answered
    with secrets and told that it is protected, and its process, which is the one
    that has the PID at the end, is not protected. *)
Theorem rollback_unprotects_successor :
  ∃ (e : surroundings) (a : agent) (cred : server.Ucred) (req : protocol.Request)
    (s s' : machine) (ps : list (prog server.SRV protocol.Response)) (r1 r2 : protocol.Response),
    (∃ tr, runs example_main tr (Running a)) ∧
    (∀ n k, others e n k = k) ∧
    rtc (pool_step (wired e a))
      ([server.handle (ag_server a) cred req; server.handle (ag_server a) cred req], s) (ps, s') ∧
    returned <$> ps = [Some r1; Some r2] ∧
    protocol.resp_OK r1 = false ∧
    protocol.resp_OK r2 = true ∧ protocol.resp_Env r2 !! "PW" = Some "x" ∧
    protocol.resp_Protected r2 = true ∧
    os.w_files (worlds e (now s')) !! "/proc/42/stat" = Some (stat_at "888") ∧
    kernel.is_protected (maps_of s') (server.cred_pid cred) = false.
Proof.
  pose (result i := default (protocol.Refusal "")
          (match reuse_run.1 !! i with Some p => returned p | None => None end)).
  exists reuse, example_agent, (server.mkUcred 42 0 0), server.psql_request,
    (mkMachine 0 (kern example_start.2) metrics.NewCollector), reuse_run.2, reuse_run.1,
    (result 0), (result 1).
  split; [apply example_start_runs|]. split; [done|].
  split; [rewrite <-surjective_pairing; apply run_pool_steps|].
  repeat split; vm_compute; reflexivity.
Qed.

Lemma main_builds_witness :
  ∃ tr, runs example_main tr (Running example_agent) ∧ built example_agent.
Proof.
  destruct example_start_runs as [tr H]. exists tr. split; [exact H|].
  exact (main_builds example_yaml unchanged unchanged no_bindings unchanged any_pem
           default_flags tr example_agent H).
Defined.

Lemma main_programs_kernel_witness :
  programmed example_agent 7 (maps_of example_start.2).
Proof.
  apply (main_programs_kernel example_yaml unchanged unchanged no_bindings unchanged any_pem
           default_flags calm (fresh (λ _, None))
           example_start.2 example_agent).
  - reflexivity.
  - reflexivity.
  - exact example_start_eq.
Defined.

Definition intruder : kernel.task := kernel.mkTask 99 99 0 0 (replicate 16 kernel.NUL) 1 None.

Lemma released_secrets_guarded_witness :
  file_open example_agent (maps_of example_response.2) intruder
    (kernel.proc_entry 42 "environ") true 5 = (-1)%Z.
Proof.
  apply (released_secrets_guarded example_yaml unchanged unchanged no_bindings unchanged any_pem
           default_flags calm (fresh (λ _, None))
           example_start.2 example_start.2 example_response.2 example_agent
           (server.mkUcred 42 0 0) server.psql_request example_response.1
           (maps_of example_response.2) intruder "environ" kernel.KS_ACCESS_ENVIRON true 5).
  - reflexivity.
  - intros n k H; exact H.
  - reflexivity.
  - exact example_start_eq.
  - vm_compute. split; [left|right; left].
  - vm_compute. reflexivity.
  - reflexivity.
  - apply surjective_pairing.
  - intros H. apply (f_equal (λ m : gmap string string, m !! "PW")) in H.
    vm_compute in H. discriminate H.
  - vm_compute. reflexivity.
  - reflexivity.
  - vm_compute. discriminate.
  - vm_compute. discriminate.
  - reflexivity.
  - vm_compute. reflexivity.
  - vm_compute. discriminate.
Defined.

Lemma exit_releases_protection_witness :
  kernel.protected_pids
    (bpf.st_maps (exit_path example_agent (λ _, kernel.NUL) metrics.NewCollector
                    (kern example_response.2)
                    (kernel.mkTask 42 42 0 0 (replicate 16 kernel.NUL) 1 None)
                    (Some 0%Z) true 9).2) = ∅.
Proof.
  pose proof (exit_releases_protection example_yaml unchanged unchanged no_bindings unchanged any_pem
           default_flags calm (fresh (λ _, None))
           example_start.2 example_start.2 example_response.2 example_agent
           (server.mkUcred 42 0 0) server.psql_request example_response.1
           (kern example_response.2)
           (kernel.mkTask 42 42 0 0 (replicate 16 kernel.NUL) 1 None) (Some 0%Z) true 9
           (λ _, kernel.NUL) metrics.NewCollector) as H.
  destruct (exit_path _ _ _ _ _ _ _ _) as [c k]. cbn [snd]. destruct H as (Htr & _ & -> & _).
  - reflexivity.
  - reflexivity.
  - exact example_start_eq.
  - vm_compute. reflexivity.
  - reflexivity.
  - apply surjective_pairing.
  - intros H. apply (f_equal (λ m : gmap string string, m !! "PW")) in H.
    vm_compute in H. discriminate H.
  - reflexivity.
  - repeat split; vm_compute; congruence.
  - reflexivity.
  - split; vm_compute; congruence.
  - right. reflexivity.
  - vm_compute. reflexivity.
  - apply Htr. intros n k' Hk'; exact Hk'.
  - reflexivity.
Defined.

(** The same agent on a host where the LSM object does not load. *)
Definition unready_start : outcome * machine :=
  exec (boot calm) example_main
    (mkMachine 0 (bpf.mkState (bpf.mkHost (Ok "lockdown,capability") None (λ _, None) (λ _, None)
       (λ _, None) (λ _, None) (λ _, None) (λ _, 0%Z)) kernel.no_maps) metrics.NewCollector).

Definition unready_agent : agent :=
  match unready_start.1 with Running a => a | _ => fallback end.

Lemma unready_runs : ∃ tr, runs example_main tr (Running unready_agent).
Proof.
  assert (unready_start.1 = Running unready_agent) as He.
  { assert (match unready_start.1 with Running _ => True | _ => False end) as H
      by (vm_compute; exact I).
    unfold unready_agent. by destruct unready_start.1. }
  destruct (exec_runs (boot calm) example_main _ : ∃ tr, runs example_main tr unready_start.1 ∧ _)
    as (tr & H & _). exists tr. by rewrite He in H.
Qed.

Lemma not_ready_releases_nothing_witness :
  protocol.resp_Env
    (exec (wired calm unready_agent)
       (server.handle (ag_server unready_agent) (server.mkUcred 42 0 0) server.psql_request)
       unready_start.2).1 = ∅ ∧
  bpf.lsm_loaded (ag_bpf unready_agent) = false.
Proof.
  destruct unready_runs as [tr H].
  apply (not_ready_releases_nothing example_yaml unchanged unchanged no_bindings unchanged any_pem
           default_flags tr calm unready_start.2
    (exec (wired calm unready_agent)
       (server.handle (ag_server unready_agent) (server.mkUcred 42 0 0) server.psql_request)
       unready_start.2).2 unready_agent (server.mkUcred 42 0 0) server.psql_request).
  - exact H.
  - vm_compute. reflexivity.
  - apply surjective_pairing.
Defined.

End agent.
