(* ===== verification/System.v ===== *)
(** * The agent at work

    Everything that runs at the same time in one node: processes that start,
    connect, are served and exit; one goroutine per connection ([Serve] in
    [src/internal/server/server.go]); the sweep loop ([Start] in
    [src/internal/reconcile/reconcile.go]); the exec monitor's tracepoints, the
    ring buffer and the event loop with its handler.  A step is one operation of
    one of them, on the shared BPF maps.  A process that exits runs the exit
    tracepoint from inside [do_exit]: its entry in procfs is still there then, and
    goes later, before or after the agent has handled the event.  The claim is an
    invariant of every reachable state: what was promised to a process with its
    secrets holds until that process exits, as long as PIDs are not reused. *)

From S2P Require Import Prelude GoStrings Effects Os Kube Secrets Protocol Cgroup.
From S2P Require Import Identity Server Types Policy Kernel Loader Reconcile Metrics Agent.

Module system.
Import agent.

(** ** State *)









(** ** Steps *)

Section steps.
Context (a : agent).

(** What the sweep's operations do. *)
Definition look (ps : gmap Z Z) : handler reconcile.REC machine := λ c s,
  match c return reconcile.answer c * machine with
  | reconcile.ListProtectedPIDs => manage (bpf.ListProtectedPIDs (ag_bpf a)) s
  | reconcile.UnprotectPID pid => manage (bpf.UnprotectPID (ag_bpf a) pid) s
  | reconcile.Alive pid => (bool_decide (is_Some (ps !! pid)), s)
  end.








(** ** The invariant *)













(** *** What the operations do to the marks *)












(** *** Preservation *)




























End steps.


(** *** A run *)








Definition example_caller : server.Ucred := server.mkUcred 42 0 0.











(** ** When a PID is reused *)

(** A sweep can take the mark of a process that inherited a PID.  There is a
    running agent with a protected process that has exited, and a sweep that has
    listed it and found it gone; when another process is given its PID and is
    served before the sweep goes on, it is answered with secrets and told that it
    is protected, and the sweep then removes its mark: the check and the release
    are by PID. *)
Theorem sweep_unprotects_successor :
  ∃ (e : surroundings) (a : agent) (cred : server.Ucred) (req : protocol.Request)
    (r : reconcile.Reconciler)
    (k : option error → prog reconcile.REC (reconcile.Reconciler * result nat error))
    (m0 m1 m2 : machine) (resp : protocol.Response),
    let pid := server.cred_pid cred in
    (∃ tr, runs example_main tr (Running a)) ∧
    (∀ n k, others e n k = k) ∧
    (look a ∅ reconcile.ListProtectedPIDs m0).1 = Ok [pid] ∧
    (look a ∅ (reconcile.Alive pid) m0).1 = false ∧
    performs (reconcile.Sweep r)
      [Event (Σ:=reconcile.REC) reconcile.ListProtectedPIDs (Ok [pid]);
       Event (Σ:=reconcile.REC) (reconcile.Alive pid) false]
      (Do (Σ:=reconcile.REC) (reconcile.UnprotectPID pid) k) ∧
    exec (wired e a) (server.handle (ag_server a) cred req) m0 = (resp, m1) ∧
    protocol.resp_OK resp = true ∧ protocol.resp_Env resp ≠ ∅ ∧ protocol.resp_Protected resp = true ∧
    kernel.is_protected (maps_of m1) pid = true ∧
    look a {[ pid := 888%Z ]} (reconcile.UnprotectPID pid) m1 = (None, m2) ∧
    kernel.is_protected (maps_of m2) pid = false.
Proof.
  set (e := example_surroundings (λ _, example_world (stat_at "888"))).
  set (again := exec (wired e example_agent)
    (server.handle (ag_server example_agent) example_caller server.psql_request) example_response.2).
  exists e, example_agent, example_caller, server.psql_request, (reconcile.New 0).
  eexists. exists example_response.2, again.2,
    (look example_agent {[ 42%Z := 888%Z ]} (reconcile.UnprotectPID 42) again.2).2, again.1.
  split; [exact example_start_runs|]. split; [done|]. split; [vm_compute; reflexivity|].
  split; [reflexivity|]. split.
  { pose proof (performs_snoc (Σ:=reconcile.REC) (reconcile.Sweep (reconcile.New 0)) []
      reconcile.ListProtectedPIDs _ (Ok [42%Z]) (performs_nil _)) as H.
    exact (performs_snoc (Σ:=reconcile.REC) _ [_] (reconcile.Alive 42) _ false H). }
  split; [apply surjective_pairing|]. split; [vm_compute; reflexivity|]. split.
  { intros H. apply (f_equal (λ m : gmap string string, m !! "PW")) in H.
    vm_compute in H. discriminate H. }
  do 3 (split; [vm_compute; reflexivity|]). vm_compute. reflexivity.
Qed.

End system.
