(* ===== verification/Delivery.v ===== *)
(** * From the registry to the program

    The exec shim of [Shim] talking to the agent of [Agent] over the text of
    [Wire]: what the shim sends is what the server's connection handler decodes,
    what the server answers is what the shim decodes, and the shim then replaces
    itself by the program.  The claim is about the program that is started: the
    environment it has, and that its process is guarded by then. *)

From S2P Require Import Prelude GoStrings Effects Os Kube Json Secrets Protocol Wire Cgroup.
From S2P Require Import Identity Server Socket Types Policy Kernel Loader Metrics Shim Agent.

Module delivery.
Import shim.

(** The agent's machine, what the shim has sent and nobody has read yet, and the
    programs that were started. *)
Record joint := mkJoint {
  j_machine : agent.machine;
  j_sent : option string;
  j_execs : list (string * list string * list string);
}.

Section joined.
Context (e : agent.surroundings) (a : agent.agent) (cred : server.Ucred).
Context (clock : Z) (path : string) (environ : list string).

(** The connection the server sees: the text the shim has sent on it, the
    credentials of the shim, and the text the server writes back. *)
Definition connection (data : string) : handler server.CONN (agent.machine * option string) := λ c s,
  match c return server.conn_answer c * (agent.machine * option string) with
  | server.Ask c => let '(x, m) := agent.wired e a c s.1 in (x, (m, s.2))
  | server.SetDeadline _ => (None, s)
  | server.AsUnix => (true, s)
  | server.PeerCred => (Ok cred, s)
  | server.ReadRequest =>
      (match wire.decode_request wire.max_message data with
       | Some r => Ok r
       | None => Err "unexpected EOF"
       end, s)
  | server.WriteResponse resp => (None, (s.1, Some (wire.encode_response resp)))
  | server.CloseConn => (tt, s)
  end.

(** What the shim reads back. *)
Definition answered (written : option string) : result protocol.Response shim.neterr :=
  match written with
  | None => Err (shim.Other "EOF")
  | Some data =>
      match wire.decode_response wire.max_message data with
      | Some r => Ok r
      | None => Err (shim.Other "unexpected EOF")
      end
  end.

Definition joined : handler shim.SHIM joint := λ c s,
  match c return shim.answer c * joint with
  | shim.Now => (clock, s)
  | shim.Sleep _ => (tt, s)
  | shim.Dial _ _ | shim.SetDeadline _ => (None, s)
  | shim.Send req =>
      (None, mkJoint (j_machine s) (Some (wire.encode_request req)) (j_execs s))
  | shim.Receive =>
      match j_sent s with
      | None => (Err (shim.Other "EOF"), s)
      | Some data =>
          let '(m, written) := (exec (connection data) (server.handleConn (agent.ag_server a))
                                  (j_machine s, None)).2 in
          (answered written, mkJoint m None (j_execs s))
      end
  | shim.LookPath _ => (Ok path, s)
  | shim.Environ => (environ, s)
  | shim.Warn _ => (tt, s)
  | shim.Exec p argv env => ("", mkJoint (j_machine s) (j_sent s) (j_execs s ++ [(p, argv, env)]))
  end.

Definition request : protocol.Request := protocol.mkRequest path.

(** What the handler asks of the agent is answered by the agent. *)
Lemma exec_lift_srv {A} data (p : prog server.SRV A) m w :
  exec (connection data) (server.lift_srv p) (m, w)
  = let '(x, m') := exec (agent.wired e a) p m in (x, (m', w)).
Proof.
  unfold server.lift_srv. revert m. induction p as [x|o k IH]; intros m; [done|].
  cbn [interp bind server.on_conn Effects.call exec connection fst snd].
  destruct (agent.wired e a o m) as [x m']. apply IH.
Qed.

(** A request that arrives is handled, and its answer is written. *)
Lemma handled_data data req m r m' :
  wire.decode_request wire.max_message data = Some req →
  exec (agent.wired e a) (server.handle (agent.ag_server a) cred req) m = (r, m') →
  exec (connection data) (server.handleConn (agent.ag_server a)) (m, None)
  = (tt, (m', Some (wire.encode_response r))).
Proof.
  intros Hd Hh. unfold server.handleConn, server.exchange.
  cbn [bind server.on_conn Effects.call exec connection negb]. rewrite Hd.
  rewrite exec_bind, exec_bind, exec_lift_srv, Hh. reflexivity.
Qed.

Lemma handled_conn m r m' :
  json.valid path = true →
  String.length (json.print (wire.enc_request request)) ≤ wire.max_message →
  exec (agent.wired e a) (server.handle (agent.ag_server a) cred request) m = (r, m') →
  exec (connection (wire.encode_request request)) (server.handleConn (agent.ag_server a)) (m, None)
  = (tt, (m', Some (wire.encode_response r))).
Proof.
  intros Hv Hf Hh. eapply handled_data; [|exact Hh].
  by rewrite wire.request_arrives, wire.received_request_valid.
Qed.

(** The shim, when the first attempt reaches the agent and the answer arrives. *)
Lemma main_answered fuel fl failClosed m r m' execs :
  f_argv fl ≠ [] → parseOnError (f_onError fl) = Ok failClosed → (0 < f_timeout fl)%Z →
  json.valid path = true →
  String.length (json.print (wire.enc_request request)) ≤ wire.max_message →
  exec (agent.wired e a) (server.handle (agent.ag_server a) cred request) m = (r, m') →
  protocol.resp_OK r = true → wire.valid_response r →
  String.length (json.print (wire.enc_response r)) ≤ wire.max_message →
  exec joined (main (S fuel) fl) (mkJoint m None execs)
  = (Some exitFailure,
     mkJoint m' None (execs ++ [(path, f_argv fl, mergeEnv environ (protocol.resp_Env r))])).
Proof.
  intros Hargv Hon Ht Hv Hf Hh Hok Hvr Hfr. unfold main.
  destruct (f_argv fl) as [|cmd argv] eqn:Ea; [done|]. rewrite Hon.
  cbn [bind do Effects.call exec joined]. rewrite exec_bind.
  assert (exec joined (fetchSecrets (S fuel) (f_socket fl) path (f_timeout fl) (f_retry fl))
            (mkJoint m None execs) = (Some (Ok r), mkJoint m' None execs)) as ->.
  { unfold fetchSecrets, fetch_loop. fold fetch_loop. cbn [bind do Effects.call exec joined].
    unfold requestOnce. replace (clock + f_timeout fl - clock)%Z with (f_timeout fl) by lia.
    rewrite (proj2 (Z.leb_gt _ _) Ht). cbn [bind do Effects.call exec joined j_sent j_machine j_execs].
    fold request. rewrite (handled_conn m r m' Hv Hf Hh). cbn [snd answered].
    rewrite wire.response_arrives, wire.received_response_valid by done.
    rewrite Hok. reflexivity. }
  unfold start. cbn [bind do Effects.call exec joined].
  destruct (decide (protocol.resp_Warning r ≠ "")), (_ && _); reflexivity.
Qed.

End joined.

(** C2. The program the shim starts has the secrets, and is guarded by then.  The
    setting: an agent started on fresh maps under an enforce policy, with both
    hooks attached; a caller whose request it answers with an environment, at any
    later time, while everything else that goes on leaves the agent's settings and
    the caller's mark alone; and a shim that runs as that caller with a valid
    command line and reaches the socket at its first attempt.  The path and the
    answer are valid UTF-8, the request and the answer each fit in a message, and
    no name of a secret has an equals sign.  Then the shim starts the program once,
    with the command line given; in the program's environment every secret of the
    answer has its value; and at that moment the process is protected, and every
    other process but the agent is refused when it opens a file of it whose switch
    (for environ, mem or maps) is on in the policy, and when it traces it, if the
    switch for tracing is on. *)
Theorem program_starts_guarded yc jc yp yb ym pem (f : agent.flags) (e : agent.surroundings)
    (s0 s1 m m' : agent.machine) (a : agent.agent) (cred : server.Ucred) (clock : Z)
    (path : string) (environ : list string) (fuel : nat) (fl : flags) (failClosed : bool)
    (r : protocol.Response) (t : kernel.task) (name : string) (acc : Z) (room : bool) (time : Z)
  (Hothers : ∀ n k, agent.same_config k (agent.others e n k))
  (Hmark : ∀ n k, kernel.is_protected k (server.cred_pid cred) = true →
                  kernel.is_protected (agent.others e n k) (server.cred_pid cred) = true)
  (Hfresh : agent.maps_of s0 = kernel.no_maps)
  (Hmain : exec (agent.boot e) (agent.main yc jc yp yb ym pem f) s0 = (agent.Running a, s1))
  (Hattached : bpf.FileOpen ∈ bpf.lsmLinks (agent.ag_bpf a) ∧
               bpf.PtraceAccessCheck ∈ bpf.lsmLinks (agent.ag_bpf a))
  (Henforce : types.EnforceMode (policy.GetBPFPolicy (agent.ag_pm a)) = types.ModeEnforce)
  (Hlater : agent.same_config (agent.maps_of s1) (agent.maps_of m))
  (Hreq : exec (agent.wired e a) (server.handle (agent.ag_server a) cred (request path)) m = (r, m'))
  (Hok : protocol.resp_OK r = true)
  (Henv : protocol.resp_Env r ≠ ∅)
  (Hnames : map_Forall (λ k _, byte_free "=" k = true) (protocol.resp_Env r))
  (Hpid : (0 < server.cred_pid cred)%Z)
  (Hargv : f_argv fl ≠ [])
  (Honerror : parseOnError (f_onError fl) = Ok failClosed)
  (Htimeout : (0 < f_timeout fl)%Z)
  (Htext : json.valid path = true ∧ wire.valid_response r)
  (Hfits : String.length (json.print (wire.enc_request (request path))) ≤ wire.max_message ∧
           String.length (json.print (wire.enc_response r)) ≤ wire.max_message)
  (Hown : kernel.t_pid t ≠ uint32 (agent.own_pid e))
  (Hother : kernel.t_pid t ≠ server.cred_pid cred)
  (Hacc : kernel.access_of name = Some acc) :
  let pid := server.cred_pid cred in
  let p := bpf.kernel_policy (policy.GetBPFPolicy (agent.ag_pm a)) in
  let s' := (exec (joined e a cred clock path environ) (main (S fuel) fl) (mkJoint m None [])).2 in
  let k := agent.maps_of (j_machine s') in
  ∃ env,
    j_execs s' = [(path, f_argv fl, env)] ∧
    (∀ n v, protocol.resp_Env r !! n = Some v → getenv env n = Some v) ∧
    kernel.is_protected k pid = true ∧
    (kernel.guard p acc ≠ 0%Z →
       agent.file_open a k t (kernel.proc_entry pid name) room time = (- kernel.EPERM)%Z) ∧
    (types.block_ptrace p ≠ 0%Z →
       agent.ptrace_access a k t pid room time = (- kernel.EPERM)%Z).
Proof.
  intros pid p s' k. destruct Htext as [Hv Hvr]. destruct Hfits as [Hf Hfr].
  assert (s' = mkJoint m' None [(path, f_argv fl, mergeEnv environ (protocol.resp_Env r))]) as ->.
  { unfold s'. by rewrite (main_answered e a cred clock path environ fuel fl failClosed m r m' []). }
  exists (mergeEnv environ (protocol.resp_Env r)). split; [done|]. split.
  { intros n v Hn. by rewrite mergeEnv_lookup, Hn. }
  destruct (agent.started_enforcing _ _ _ _ _ _ _ _ _ _ _ Hothers Hfresh Hmain Henforce) as [Hrp Hprog].
  destruct (agent.handle_marks e a cred _ m r m' Hreq Henv) as [H _].
  destruct (H Hrp Hmark) as (_ & Hl & Hm). split; [exact Hm|].
  rewrite Hlater, (agent.handle_config e a Hothers _ _ _ _ _ Hreq) in Hprog.
  by apply (agent.guarded a (uint32 (agent.own_pid e))).
Qed.

Definition example_flags : flags := mkFlags "/run/ks.sock" 15000 250 "fail" ["psql"; "-l"].

Definition example_answer : protocol.Response * agent.machine :=
  exec (agent.wired agent.calm agent.example_agent)
    (server.handle (agent.ag_server agent.example_agent) (server.mkUcred 42 0 0) (request "/usr/bin/psql"))
    agent.example_start.2.

Definition example_joint : joint :=
  (exec (joined agent.calm agent.example_agent (server.mkUcred 42 0 0) 0 "/usr/bin/psql" ["PATH=/bin"])
     (main 1 example_flags) (mkJoint agent.example_start.2 None [])).2.

Lemma fits_limit x : (Z.of_nat (String.length x) <=? 1000)%Z = true → String.length x ≤ wire.max_message.
Proof.
  intros H%Z.leb_le. unfold wire.max_message, protocol.MaxMessageSize.
  apply Nat2Z.inj_le. rewrite Z2Nat.id; [|done]. change (Z.shiftl 1 20) with 1048576%Z. lia.
Qed.

Lemma program_starts_guarded_witness :
  ∃ env, j_execs example_joint = [("/usr/bin/psql", ["psql"; "-l"], env)] ∧
         getenv env "PW" = Some "x" ∧
         agent.file_open agent.example_agent (agent.maps_of (j_machine example_joint)) agent.intruder
           (kernel.proc_entry 42 "environ") true 5 = (-1)%Z.
Proof.
  destruct (program_starts_guarded agent.example_yaml agent.unchanged agent.unchanged agent.no_bindings
              agent.unchanged agent.any_pem agent.default_flags agent.calm
              (agent.fresh (λ _, None)) agent.example_start.2 agent.example_start.2 example_answer.2
              agent.example_agent (server.mkUcred 42 0 0) 0 "/usr/bin/psql" ["PATH=/bin"] 0 example_flags
              true example_answer.1 agent.intruder "environ" kernel.KS_ACCESS_ENVIRON true 5)
    as (env & Hexec & Henv & _ & Hopen & _).
  - reflexivity.
  - intros n k H; exact H.
  - reflexivity.
  - exact agent.example_start_eq.
  - vm_compute. split; [left|right; left].
  - vm_compute. reflexivity.
  - reflexivity.
  - apply surjective_pairing.
  - vm_compute. reflexivity.
  - intros H. apply (f_equal (λ m : gmap string string, m !! "PW")) in H.
    vm_compute in H. discriminate H.
  - apply map_Forall_to_list. vm_compute. repeat constructor.
  - reflexivity.
  - discriminate.
  - reflexivity.
  - reflexivity.
  - split; [vm_compute; reflexivity|]. split; [|split; vm_compute; reflexivity].
    apply map_Forall_to_list. vm_compute. repeat constructor.
  - split; apply fits_limit; vm_compute; reflexivity.
  - vm_compute. discriminate.
  - vm_compute. discriminate.
  - reflexivity.
  - exists env. split; [exact Hexec|]. split.
    + apply Henv. vm_compute. reflexivity.
    + apply Hopen. vm_compute. discriminate.
Defined.

End delivery.
